(* ===== verification/_CoqProject ===== *)
-Q . S2P
Prelude.v
Status.v
Coding.v
Crc32c.v
Files.v
WalFormat.v
WalWriter.v
WalReader.v
WalRecovery.v
WalDamage.v
WalResume.v
EnvPosix.v
MemKernel.v
PosixLog.v
Db.v
DbTheorems.v
Bench.v
Raft.v
RaftModel.v
RaftElection.v
RaftLogs.v
RaftCommit.v
RaftNode.v
RaftTypes.v
RaftCluster.v
RaftEntries.v
RaftRefine.v
RaftApply.v
RaftTheorems.v
RaftProgress.v
RaftCampaign.v
Storage.v
StorageTheorems.v
RaftDurable.v
ReplicatedDb.v
ReplicatedDbTheorems.v
ReplicatedCluster.v
Tests.v
