(* ===== verification/Prelude.v ===== *)
(** * mini-lsm: a verification of the storage engine and of its Raft layer

    The program is a small key-value store in C++.  A write-ahead log in the
    LevelDB format makes writes durable; a storage engine replays it into a
    table; a Raft core replicates a log of commands between nodes, a storage
    layer persists the state of a node in a log file of the same format, and a
    replicated database puts the three together.  This library models all of
    the code under src/ and include/, function by function, and proves what its
    comments promise: acknowledged writes survive crashes, and the nodes of a
    cluster never disagree about what is committed.

    ** The parts and their files

    A function of the source keeps its name.  A method of a class becomes a
    function of the state of the object; methods that share a name with others
    get the class as a prefix ([Posix_Read], [RaftStorage_Open]).  Code that
    does I/O or may not return is written in the monad [M S] of this file:
    [M S A] maps a state to [None] (an iteration bound was reached, or a null
    pointer was followed) or to a result and a new state.  Every theorem that
    speaks about a result shows that there is one.

    - [Prelude.v]: bytes and [std::string] as lists of bytes, [uint32_t] and
      [uint64_t] as [Z] reduced by [u32] and [u64], the monad, shared lemmas on
      bits and lists, the hint database [mlsm].
    - [Status.v] (status.h, slice.h), [Coding.v] (coding.h), [Crc32c.v]
      (crc32c.h, crc32c.cc): statuses, the 32-bit encoding, the checksum.
    - [Files.v] (writable_file.h, sequential_file.h): the abstract file classes
      as the type classes [WritableFile] and [SequentialFile]; what they promise
      as [WritableFileSpec] and [SequentialFileSpec], against which the log is
      verified; the in-memory files of the tests implement them.
    - [WalFormat.v] (wal_writer.h): constants, and the format as a specification
      ([framed]: the physical records of one record; [wal]: the bytes of a log).
    - [WalWriter.v] (wal_writer.cc), [WalReader.v] (wal_reader.cc): the two
      classes; [WalRecovery.v]: reading what was written, whole or cut.
      [WalDamage.v]: reading a log with damage in it.  [WalResume.v]: writing on
      after a write that failed.
    - [EnvPosix.v] (env_posix.cc): the POSIX files and the functions of env.h
      over the system calls, which are the class [Kernel]; what POSIX documents
      of them is [KernelSpec], and [crash] relates a kernel to what a crash may
      leave of it.  [MemKernel.v] is a kernel in memory that satisfies
      [KernelSpec], with a script of faults; it runs the concrete scenarios.
      [PosixLog.v]: logs on POSIX files, shared by the two users of the log.
    - [Db.v] (db.h, db.cc): the storage engine; [DbTheorems.v]: its theorems.
      [Bench.v] (bench/db_bench.cc): the benchmark, a client of the engine, with
      the random numbers, the clock and the calls [mkdtemp] and [system] as
      parameters (class [Host]).
    - [Raft.v] (messages.h, raft.h, raft.cc): every method of the class [Raft].
      [RaftModel.v] is an abstract protocol; [RaftElection.v], [RaftLogs.v] and
      [RaftCommit.v] prove it safe.  [RaftNode.v]: single nodes.
      [RaftTypes.v]: the integers of a node keep their machine types.
      [RaftCluster.v]: clusters of nodes over an asynchronous network, with
      restarts and with crashes while a node is saved.  [RaftRefine.v]: clusters
      refine the protocol.  [RaftApply.v]: what reaches the state machines.
      [RaftEntries.v]: logs and messages carry only what was proposed.
      [RaftTheorems.v]: the safety theorems.  [RaftProgress.v] and
      [RaftCampaign.v]: replication and elections can always succeed.
    - [Storage.v] (raft/storage.h, storage.cc), [StorageTheorems.v]: persistence
      of a node.  [RaftDurable.v]: nodes on that storage make the steps of a
      cluster.
    - [ReplicatedDb.v] (raft/replicated_db.h, replicated_db.cc),
      [ReplicatedDbTheorems.v]: the replicated database.
      [ReplicatedCluster.v]: clusters of replicated databases, each on a kernel
      of its own.
    - [Tests.v] (test/): the harnesses and the cases of the unit tests, evaluated
      in the model.

    ** What the theorems show

    - The checksum: the table is right, checksums chain, masking is reversible,
      damage within four consecutive bytes is always detected ([Crc32c.v]), and
      the reader never delivers a record damaged that way ([WalReader.v]).
    - The log: [AddRecord] writes the format whatever the file does; reading is
      total on any bytes; a log read back gives its records, across restarts of
      the writer, and a log cut anywhere after its durable part gives all
      durable records and some first of the others, nothing else.
      Damage is confined ([WalDamage.v]): whatever stands in place of some
      blocks, the reader delivers the records before them and those that begin
      after them; the engine then opens and has every later write.  Bytes left
      by a failed write cost at most later records of the same block
      ([WalResume.v]).  Both theorems leave out damage that holds a checksummed
      record of type 5, which ends the log ([foreign_type_ends_log]).
      [DecodeRecord] accepts exactly what [EncodeRecord] writes, and a tail.
    - The POSIX files keep the promises of the file interfaces under partial
      transfers, interruptions and errors.
    - The engine refines a finite map: for sessions without errors, and, when
      system calls fail and the machine crashes, up to the one operation that
      was not acknowledged.
    - Raft: a cluster refines the abstract protocol; Election Safety, Log
      Matching, Leader Completeness and State Machine Safety hold between any
      states of any nodes at any moments; the state machines are handed the same
      commands, each once and in order; commitment picks the highest index
      allowed; what must be persisted is marked; indices stay in range; 64-bit
      fields and [int] counters hold values of their types after any calls.
    - Raft makes progress: from every reachable cluster, ticks of one node and
      deliveries alone can elect it ([RaftCampaign.v]), and can commit a command
      proposed to the leader on all nodes, in a bounded number of calls
      ([RaftProgress.v]).  These are statements that a schedule exists, not that
      every schedule is fair.
    - Raft storage: a successful [Save] followed by a crash and [Open] gives
      back the term, the vote and the log; a failed or interrupted one what was
      there before and a first part of the changes ([partly_saved]), which is
      exactly what the crashes in a cluster may leave, so that the safety
      theorems hold for nodes on [RaftStorage] ([RaftDurable.v]).
    - The replicated database on a single node refines the same map, with
      crashes, and refuses writes when it is not the leader.  Databases of
      several nodes all apply one order of the operations that were accepted,
      whatever the network and the kernels do, and on working kernels an
      operation accepted by the leader can be applied on every node
      ([ReplicatedCluster.v]).  An accepted operation that was not replicated may
      be overwritten by a later leader ([accepted_write_overwritten]).
    - The benchmark runs to its end on a working kernel without an operation in
      error, for every number of entries and all random choices, and prints what
      it measured; on any kernel a run that is aborted says which call failed.
    - Ten theorems show, on concrete runs, where the code falls short of what it
      means to do or of what its comments say: records written after a torn tail are lost at the next
      restart (in both users of the log), and so is a record written after one
      whose append failed; a save repeated after a failure
      duplicates entries; an I/O error during recovery is swallowed; the
      directory of a new log is not synced; recovery resets the applied index;
      a record of an unknown type can end the log; a damaged block leaves a gap
      in the recovered Raft log; one of several nodes that is opened again serves
      entries that were never committed.

    ** Assumptions, bounds and fuel

    - Kernels satisfy [KernelSpec]: a failed or short write adds a prefix of its
      argument, a successful fsync makes the contents durable, a call is
      interrupted only finitely often ([sys_interrupts]).  After a [crash] a file
      that is still there holds its durable bytes and any prefix of the rest;
      files may vanish, as the code never syncs directories, so the theorems on
      crashes ask that the log file is there.
    - Iteration bounds are computed from the state and proved sufficient:
      [AddRecord] uses the length of the record plus two, the reader loops the
      bytes left in the file, the POSIX loops the interruptions to come plus the
      bytes to transfer, [MaybeCommit] the distance to the commit index, and
      [tick_until_leader] one tick, as the election timeout is 1.
    - Keys, values and commands have lengths below [2^32] where the code stores
      them in 32 bits; clusters are followed for fewer than [2^62] calls, so
      that 64-bit terms and indices do not wrap; node identifiers are not 0.
    - A cluster persists each call before it sends its messages, as storage.h
      asks of the driver.  A restart finds what was saved; a crash during a save
      finds the old hard state and log, or the new hard state and a log cut at
      any index from the watermark on.  After a crash that left a torn record a
      storage that is written to again is not covered, and is not sound:
      see [torn_resume_loses_vote] in [StorageTheorems.v].
    - [std::map::operator[]] inserts a zero when a key is absent; as the Raft
      core reads these maps only that way, an absent key reads as zero.

    ** Not modelled

    The build files and scripts.  Of the benchmark, the numbers that [std::mt19937] and the
    distribution draw, which are a parameter.  The declarations of the headers
    have no model apart from that of the code they declare.  A replicated
    database of several nodes does not recover its commit point, as
    replicated_db.h says: the theorems on recovery are for one node, and in the
    clusters of [ReplicatedCluster.v] a node that stops is not opened again
    ([reopen_serves_uncommitted] shows what happens when it is).

    ** Further work

    Fair schedules in place of the existence of one. *)

From Stdlib Require Export ZArith.
From stdpp Require Export functions prelude gmap list list_numbers.
From Stdlib Require Import Strings.Byte.
From Stdlib Require Strings.String.

Abbreviation byte := Init.Byte.byte.

(** The lemmas that automate the common cases of the components. *)
Create HintDb mlsm.

(** Numbers of the source such as the block size stay folded. *)
#[global] Arguments Z.to_nat : simpl never.
#[global] Arguments Z.of_nat : simpl never.
#[global] Arguments Z.pow : simpl never.

(** ** Bytes and [std::string]

    A [char] of the C++ code is a byte and a [std::string] (or the range a
    [Slice] points at) is a list of bytes. *)

Abbreviation bytes := (list Init.Byte.byte).

(** The bytes of a string literal of the source. *)
Definition str (s : String.string) : bytes := String.list_byte_of_string s.
Export String.StringSyntax.
Arguments str s%_string_scope.

#[export] Instance byte_eq_dec : EqDecision Init.Byte.byte := Byte.byte_eq_dec.

#[export] Instance byte_countable : Countable Init.Byte.byte :=
  inj_countable Byte.to_N Byte.of_N Byte.of_to_N.

#[export] Instance byte_inhabited : Inhabited Init.Byte.byte := populate Byte.x00.

Local Open Scope Z_scope.

(** [static_cast<uint8_t>(c)] of a [char], and the [char] with a given value. *)
Definition byte_to_Z (b : Init.Byte.byte) : Z := Z.of_N (Byte.to_N b).
Definition byte_of_Z (z : Z) : Init.Byte.byte :=
  default Byte.x00 (Byte.of_N (Z.to_N (z mod 256))).

Lemma byte_to_Z_range b : 0 ≤ byte_to_Z b < 256.
Proof.
  unfold byte_to_Z. pose proof (Byte.to_N_bounded b). lia.
Qed.

Lemma byte_of_N_small n : (n < 256)%N → ∃ b, Byte.of_N n = Some b.
Proof.
  intros Hn. destruct (Byte.of_N n) as [b|] eqn:E; [by exists b|].
  apply Byte.of_N_None_iff in E. lia.
Qed.

Lemma byte_to_of_Z z : byte_to_Z (byte_of_Z z) = z mod 256.
Proof.
  unfold byte_to_Z, byte_of_Z.
  pose proof (Z.mod_pos_bound z 256 eq_refl).
  destruct (byte_of_N_small (Z.to_N (z mod 256))) as [b Hb]; [lia|].
  rewrite Hb. simpl. apply Byte.to_of_N in Hb. rewrite Hb. lia.
Qed.

Lemma byte_of_to_Z b : byte_of_Z (byte_to_Z b) = b.
Proof.
  unfold byte_of_Z. rewrite Z.mod_small by apply byte_to_Z_range.
  unfold byte_to_Z. rewrite N2Z.id. by rewrite Byte.of_to_N.
Qed.

#[export] Instance byte_to_Z_inj : Inj (=) (=) byte_to_Z.
Proof. intros a b H. by rewrite <-(byte_of_to_Z a), H, byte_of_to_Z. Qed.

Lemma byte_to_of_Z_small z : 0 ≤ z < 256 → byte_to_Z (byte_of_Z z) = z.
Proof. intros. rewrite byte_to_of_Z. by apply Z.mod_small. Qed.

(** [lia] on goals with division and modulo by constants. *)
Ltac lia_dm := Z.to_euclidean_division_equations; lia.

(** ** Fixed-width unsigned integers *)

Definition u32 (z : Z) : Z := z mod 2 ^ 32.
Definition u64 (z : Z) : Z := z mod 2 ^ 64.

Lemma u32_range z : 0 ≤ u32 z < 2 ^ 32.
Proof. by apply Z.mod_pos_bound. Qed.

Lemma u64_range z : 0 ≤ u64 z < 2 ^ 64.
Proof. by apply Z.mod_pos_bound. Qed.

Lemma u32_small z : 0 ≤ z < 2 ^ 32 → u32 z = z.
Proof. apply Z.mod_small. Qed.

Lemma u64_small z : 0 ≤ z < 2 ^ 64 → u64 z = z.
Proof. apply Z.mod_small. Qed.

(** ** Bit reasoning

    [bitwise] proves an equation between bit expressions bit by bit, splitting
    on the position of the bit against the shift amounts. *)

Lemma testbit_high (z n i : Z) : 0 ≤ z < 2 ^ n → n ≤ i → Z.testbit z i = false.
Proof.
  intros Hz Hi. destruct (decide (z = 0)) as [->|]; [apply Z.bits_0|].
  apply Z.bits_above_log2; [lia|].
  apply Z.log2_lt_pow2; [lia|].
  eapply Z.lt_le_trans; [apply Hz|]. apply Z.pow_le_mono_r; lia.
Qed.

Lemma bits_bound (z n : Z) :
  0 ≤ n → 0 ≤ z → (∀ i, n ≤ i → Z.testbit z i = false) → z < 2 ^ n.
Proof.
  intros Hn Hz Hb.
  assert (z = z mod 2 ^ n) as ->; [|apply Z.mod_pos_bound; lia].
  apply Z.bits_inj'. intros i Hi.
  destruct (decide (i < n)).
  - by rewrite Z.mod_pow2_bits_low by lia.
  - rewrite Z.mod_pow2_bits_high by lia. apply Hb. lia.
Qed.

Lemma lxor_range n a b :
  0 ≤ n → 0 ≤ a < 2 ^ n → 0 ≤ b < 2 ^ n → 0 ≤ Z.lxor a b < 2 ^ n.
Proof.
  intros Hn Ha Hb. assert (0 ≤ Z.lxor a b) by (apply Z.lxor_nonneg; lia).
  split; [done|]. apply bits_bound; [done..|].
  intros i Hi. rewrite Z.lxor_spec.
  by rewrite (testbit_high a n), (testbit_high b n).
Qed.

Lemma lor_range n a b :
  0 ≤ n → 0 ≤ a < 2 ^ n → 0 ≤ b < 2 ^ n → 0 ≤ Z.lor a b < 2 ^ n.
Proof.
  intros Hn Ha Hb. assert (0 ≤ Z.lor a b) by (apply Z.lor_nonneg; lia).
  split; [done|]. apply bits_bound; [done..|].
  intros i Hi. rewrite Z.lor_spec.
  by rewrite (testbit_high a n), (testbit_high b n).
Qed.

(** Disjoint [lor] is addition: the form in which multi-byte integers are
    assembled. *)
Lemma lor_shiftl_add a b n :
  0 ≤ n → 0 ≤ a < 2 ^ n → Z.lor a (Z.shiftl b n) = a + b * 2 ^ n.
Proof.
  intros Hn Ha.
  assert (Z.land a (Z.shiftl b n) = 0) as Hdisj.
  { apply Z.bits_inj'. intros i Hi. rewrite Z.land_spec, Z.bits_0.
    destruct (decide (i < n)).
    - rewrite Z.shiftl_spec_low by lia. apply andb_false_r.
    - by rewrite (testbit_high a n) by lia. }
  rewrite <-Z.lxor_lor, <-Z.add_nocarry_lxor by done.
  by rewrite Z.shiftl_mul_pow2.
Qed.

Lemma land_1 z : Z.land z 1 = z mod 2.
Proof. exact (Z.land_ones z 1 ltac:(lia)). Qed.

Lemma land_ff z : Z.land z 0xff = z mod 2 ^ 8.
Proof. exact (Z.land_ones z 8 ltac:(lia)). Qed.

(** ** State-passing computations

    Code that talks to a file or to the kernel is a function of the state
    [S] (the object and the world behind it) to a result and the next state.
    [None] means that the bound on the number of loop iterations given to the
    computation was too small, or that a null pointer was used; the totality
    theorems show that neither happens. *)

Definition M (S A : Type) : Type := S → option (A * S).

Definition ret {S A} (a : A) : M S A := λ s, Some (a, s).

Definition bind {S A B} (m : M S A) (f : A → M S B) : M S B := λ s,
  match m s with Some (a, s') => f a s' | None => None end.

(** The computation whose iteration bound was too small. *)
Definition out_of_fuel {S A} : M S A := λ _, None.

(** A computation the program never gets to: a null pointer would be used. *)
Definition null_dereference {S A} : M S A := λ _, None.

Declare Scope mlsm_scope.
Delimit Scope mlsm_scope with mlsm.
Open Scope mlsm_scope.

Notation "'let*' x := m 'in' k" := (bind m (λ x, k))
  (at level 10, x pattern, m at level 200, k at level 200) : mlsm_scope.

Lemma bind_eval {S A B} (m : M S A) (f : A → M S B) s a s' :
  m s = Some (a, s') → bind m f s = f a s'.
Proof. intros H. unfold bind. by rewrite H. Qed.

Lemma bind_Some {S A B} (m : M S A) (f : A → M S B) s r :
  bind m f s = Some r → ∃ a s', m s = Some (a, s') ∧ f a s' = Some r.
Proof.
  unfold bind. destruct (m s) as [[a s']|] eqn:E; [|done]. eauto.
Qed.

(** Runs a computation on one component of a larger state. *)
Definition zoom {S T A} (get : T → S) (set : S → T → T) (m : M S A) : M T A :=
  λ t, match m (get t) with
       | Some (a, s') => Some (a, set s' t)
       | None => None
       end.

(** ** Lists *)

Lemma prefix_take {A} (l k : list A) : l `prefix_of` k → l = take (length l) k.
Proof. intros [k' ->]. by rewrite take_app_length. Qed.

Lemma take_prefix_of {A} n (l : list A) : take n l `prefix_of` l.
Proof. exists (drop n l). by rewrite take_drop. Qed.

(** A prefix of a concatenation stops in the first part or covers it. *)
Lemma prefix_of_app_cases {A} (p l k : list A) :
  p `prefix_of` l ++ k →
  (p `prefix_of` l ∧ (length p < length l)%nat) ∨ (∃ q, p = l ++ q ∧ q `prefix_of` k).
Proof.
  intros [r Hr]. destruct (decide (length p < length l)%nat) as [Hlt|Hge].
  - left. split; [|done]. assert (p = take (length p) l) as ->; [|apply take_prefix_of].
    rewrite <-(take_app_le l k), Hr by lia. by rewrite take_app_length.
  - right. exists (drop (length l) p).
    assert (take (length l) p = l) as Hl.
    { rewrite <-(take_app_le p r), <-Hr by lia. apply take_app_length. }
    split; [by rewrite <-Hl at 1; rewrite take_drop|].
    exists r. apply (app_inv_head l). rewrite app_assoc.
    rewrite <-Hl at 2. by rewrite take_drop.
Qed.

Lemma app_eq_le {A} (l1 k1 l2 k2 : list A) :
  l1 ++ k1 = l2 ++ k2 → (length l1 ≤ length l2)%nat →
  ∃ q, l2 = l1 ++ q ∧ k1 = q ++ k2.
Proof.
  intros E Hl. exists (drop (length l1) l2).
  assert (take (length l1) l2 = l1) as Ht.
  { rewrite <-(take_app_le l2 k2), <-E by lia. apply take_app_length. }
  assert (l2 = l1 ++ drop (length l1) l2) as Hl2 by (by rewrite <-Ht at 1; rewrite take_drop).
  split; [done|]. rewrite Hl2, <-app_assoc in E at 1. by apply app_inv_head in E.
Qed.
