(* ===== verification/Status.v ===== *)
(** * [Status]: the result codes of include/mlsm/status.h

    Every fallible operation of the engine returns a [Status].  [Slice]
    (include/mlsm/slice.h) is a non-owning view; what it shows is a list of
    bytes, on which its operations are defined here. *)

From S2P Require Import Prelude.
Local Open Scope Z_scope.

Inductive Code : Type :=
| kOk
| kNotFound
| kCorruption
| kIOError
| kInvalidArgument.

Record Status : Type := mkStatus { code : Code; message : bytes }.

#[export] Instance Code_eq_dec : EqDecision Code.
Proof. solve_decision. Defined.

#[export] Instance Status_eq_dec : EqDecision Status.
Proof. solve_decision. Defined.

Definition OK : Status := mkStatus kOk [].
Definition NotFound (msg : bytes) : Status := mkStatus kNotFound msg.
Definition Corruption (msg : bytes) : Status := mkStatus kCorruption msg.
Definition IOError (msg : bytes) : Status := mkStatus kIOError msg.
Definition InvalidArgument (msg : bytes) : Status := mkStatus kInvalidArgument msg.

Definition ok (s : Status) : bool :=
  match code s with kOk => true | _ => false end.
Definition IsNotFound (s : Status) : bool :=
  match code s with kNotFound => true | _ => false end.
Definition IsCorruption (s : Status) : bool :=
  match code s with kCorruption => true | _ => false end.
Definition IsIOError (s : Status) : bool :=
  match code s with kIOError => true | _ => false end.

Definition Status_ToString (s : Status) : bytes :=
  match code s with
  | kOk => str "OK"
  | kNotFound => str "NotFound: " ++ message s
  | kCorruption => str "Corruption: " ++ message s
  | kIOError => str "IOError: " ++ message s
  | kInvalidArgument => str "InvalidArgument: " ++ message s
  end.

(** ** Slices

    The bytes of a slice.  [Slice(const char* s)] measures its argument with
    [strlen]: [Slice_of_c_string] takes the bytes that start at the pointer and
    keeps those before the first zero. *)
Fixpoint Slice_of_c_string (s : bytes) : bytes :=
  match s with
  | [] => []
  | b :: s => if byte_to_Z b =? 0 then [] else b :: Slice_of_c_string s
  end.

Definition Slice_size (s : bytes) : Z := Z.of_nat (length s).
Definition Slice_empty (s : bytes) : bool := Slice_size s =? 0.

(** [operator[]]; an index past the end reads outside the slice. *)
Definition Slice_at (s : bytes) (n : Z) : option Init.Byte.byte := s !! Z.to_nat n.

Definition Slice_ToString (s : bytes) : bytes := take (Z.to_nat (Slice_size s)) s.

(** [Slice::operator==]: sizes first, then the bytes. *)
Definition Slice_eqb (a b : bytes) : bool :=
  bool_decide (length a = length b) && bool_decide (a = b).

Lemma Slice_eqb_spec a b : Slice_eqb a b = true ↔ a = b.
Proof.
  unfold Slice_eqb. rewrite andb_true_iff, !bool_decide_eq_true. split; [by intros [_ ?]|by intros ->].
Qed.

Definition Slice_neqb (a b : bytes) : bool := negb (Slice_eqb a b).
