(* ===== verification/Coding.v ===== *)
(** * Fixed-width little-endian integers (include/mlsm/coding.h)

    [EncodeFixed32]/[DecodeFixed32], on which the WAL header, the record
    payloads of the DB and the Raft storage are built. *)

From S2P Require Import Prelude.
Local Open Scope Z_scope.

(** [EncodeFixed32] writes four bytes, least significant first. *)
Definition EncodeFixed32 (value : Z) : bytes :=
  [ byte_of_Z (Z.land value 0xff);
    byte_of_Z (Z.land (Z.shiftr value 8) 0xff);
    byte_of_Z (Z.land (Z.shiftr value 16) 0xff);
    byte_of_Z (Z.land (Z.shiftr value 24) 0xff) ].

(** [DecodeFixed32] reads the four bytes at the start of the buffer.  A
    shorter buffer would be read past its end; every caller checks first. *)
Definition DecodeFixed32 (p : bytes) : Z :=
  Z.lor (Z.lor (Z.lor (byte_to_Z (p !!! 0%nat))
                      (u32 (Z.shiftl (byte_to_Z (p !!! 1%nat)) 8)))
               (u32 (Z.shiftl (byte_to_Z (p !!! 2%nat)) 16)))
        (u32 (Z.shiftl (byte_to_Z (p !!! 3%nat)) 24)).

Lemma EncodeFixed32_length v : length (EncodeFixed32 v) = 4%nat.
Proof. done. Qed.

(** The value a 4-byte little-endian buffer denotes. *)
Lemma DecodeFixed32_eq (b0 b1 b2 b3 : byte) rest :
  DecodeFixed32 (b0 :: b1 :: b2 :: b3 :: rest) =
  byte_to_Z b0 + byte_to_Z b1 * 2 ^ 8 + byte_to_Z b2 * 2 ^ 16 + byte_to_Z b3 * 2 ^ 24.
Proof.
  unfold DecodeFixed32. simpl (_ !!! _).
  pose proof (byte_to_Z_range b0). pose proof (byte_to_Z_range b1).
  pose proof (byte_to_Z_range b2). pose proof (byte_to_Z_range b3).
  rewrite !u32_small by (rewrite Z.shiftl_mul_pow2 by lia; lia).
  rewrite (lor_shiftl_add _ (byte_to_Z b1)) by lia.
  rewrite (lor_shiftl_add _ (byte_to_Z b2)) by lia.
  by rewrite (lor_shiftl_add _ (byte_to_Z b3)) by lia.
Qed.

Lemma DecodeFixed32_range b0 b1 b2 b3 rest :
  0 ≤ DecodeFixed32 (b0 :: b1 :: b2 :: b3 :: rest) < 2 ^ 32.
Proof.
  rewrite DecodeFixed32_eq.
  pose proof (byte_to_Z_range b0). pose proof (byte_to_Z_range b1).
  pose proof (byte_to_Z_range b2). pose proof (byte_to_Z_range b3). lia.
Qed.

(** Base-256 digits of a 32-bit value. *)
Lemma digits32 v : 0 ≤ v < 2 ^ 32 →
  v mod 256 + (v / 2 ^ 8) mod 256 * 2 ^ 8 + (v / 2 ^ 16) mod 256 * 2 ^ 16
    + (v / 2 ^ 24) mod 256 * 2 ^ 24 = v.
Proof.
  intros Hv.
  assert (v / 2 ^ 16 = v / 2 ^ 8 / 2 ^ 8) as -> by by rewrite Z.div_div.
  assert (v / 2 ^ 24 = v / 2 ^ 8 / 2 ^ 8 / 2 ^ 8) as -> by by rewrite !Z.div_div.
  lia_dm.
Qed.

Lemma DecodeFixed32_Encode_app v rest :
  0 ≤ v < 2 ^ 32 → DecodeFixed32 (EncodeFixed32 v ++ rest) = v.
Proof.
  intros Hv. unfold EncodeFixed32. simpl app. rewrite DecodeFixed32_eq.
  rewrite !land_ff, !byte_to_of_Z, !Zmod_mod, !Z.shiftr_div_pow2 by lia.
  by apply digits32.
Qed.

(** Encoding what was decoded gives the same four bytes. *)
Lemma EncodeFixed32_Decode b0 b1 b2 b3 :
  EncodeFixed32 (DecodeFixed32 [b0; b1; b2; b3]) = [b0; b1; b2; b3].
Proof.
  rewrite DecodeFixed32_eq. unfold EncodeFixed32.
  rewrite !land_ff, !Z.shiftr_div_pow2 by lia.
  pose proof (byte_to_Z_range b0). pose proof (byte_to_Z_range b1).
  pose proof (byte_to_Z_range b2). pose proof (byte_to_Z_range b3).
  repeat f_equal; apply byte_to_Z_inj; rewrite byte_to_of_Z, ?Zmod_mod; lia_dm.
Qed.

(** A buffer that starts with a length it covers is the length, so many bytes
    and a rest. *)
Lemma fixed32_sized p :
  (4 ≤ length p)%nat → DecodeFixed32 p ≤ Z.of_nat (length (drop 4 p)) →
  let n := Z.to_nat (DecodeFixed32 p) in
  let data := take n (drop 4 p) in
  Z.of_nat (length data) < 2 ^ 32 ∧
  p = EncodeFixed32 (u32 (Z.of_nat (length data))) ++ data ++ drop n (drop 4 p).
Proof.
  destruct p as [|b0 [|b1 [|b2 [|b3 p]]]]; simpl length; try lia. intros _.
  change (drop 4 (b0 :: b1 :: b2 :: b3 :: p)) with p. intros Hle.
  pose proof (DecodeFixed32_range b0 b1 b2 b3 p) as Hr. cbv zeta.
  rewrite length_take_le by (apply Nat2Z.inj_le; rewrite Z2Nat.id by apply Hr; exact Hle).
  rewrite Z2Nat.id, u32_small, take_drop by (exact Hr || apply Hr). split; [apply Hr|].
  rewrite (DecodeFixed32_eq b0 b1 b2 b3 p), <-(DecodeFixed32_eq b0 b1 b2 b3 []).
  by rewrite EncodeFixed32_Decode.
Qed.

(** A 32-bit value survives the little-endian encoding, whatever bytes
    follow it, and a four-byte buffer is the encoding of the value it decodes
    to: [EncodeFixed32] and [DecodeFixed32] are inverse bijections between the
    unsigned 32-bit integers and the four-byte buffers. *)
Theorem fixed32_roundtrip :
  (∀ v rest, 0 ≤ v < 2 ^ 32 → DecodeFixed32 (EncodeFixed32 v ++ rest) = v) ∧
  (∀ buf, length buf = 4%nat →
     EncodeFixed32 (DecodeFixed32 buf) = buf ∧ 0 ≤ DecodeFixed32 buf < 2 ^ 32).
Proof.
  split; [intros; by apply DecodeFixed32_Encode_app|].
  intros buf Hl. destruct buf as [|b0 [|b1 [|b2 [|b3 [|]]]]]; try done.
  split; [apply EncodeFixed32_Decode|apply DecodeFixed32_range].
Qed.
