(* ===== verification/Crc32c.v ===== *)
(** * CRC32C (src/crc32c.cc, include/mlsm/crc32c.h)

    The table-driven checksum of the WAL records and the masking under which
    it is stored.  The table-driven fold is proved equal to the bit-at-a-time
    definition of the checksum, and the algebra of that definition (it is
    linear and injective) gives the error detection the WAL relies on. *)

From S2P Require Import Prelude.
Local Open Scope Z_scope.

(** ** The code *)

(** One iteration of the inner loop of [MakeTable]. *)
Definition table_bit (c : Z) : Z :=
  if Z.land c 1 =? 0 then Z.shiftr c 1 else Z.lxor 0x82f63b78 (Z.shiftr c 1).

Definition MakeTable : list Z := (λ i, Nat.iter 8 table_bit i) <$> seqZ 0 256.

Definition kTable : list Z := MakeTable.

(** The body of the loop of [Extend]: folds one byte into the running value. *)
Definition extend_byte (c : Z) (b : byte) : Z :=
  Z.lxor (kTable !!! Z.to_nat (Z.land (Z.lxor c (byte_to_Z b)) 0xff)) (Z.shiftr c 8).

Definition Extend (crc : Z) (data : bytes) : Z :=
  Z.lxor (foldl extend_byte (Z.lxor crc 0xffffffff) data) 0xffffffff.

Definition Value (data : bytes) : Z := Extend 0 data.

Definition kMaskDelta : Z := 0xa282ead8.

Definition Mask (crc : Z) : Z :=
  u32 (Z.lor (Z.shiftr crc 15) (u32 (Z.shiftl crc 17)) + kMaskDelta).

Definition Unmask (masked_crc : Z) : Z :=
  let rot := u32 (masked_crc - kMaskDelta) in
  Z.lor (Z.shiftr rot 17) (u32 (Z.shiftl rot 15)).

(** ** The reference: one bit at a time

    The reflected CRC register is shifted right once per message bit and the
    polynomial is added when a one falls out. *)

Definition crc_byte_ref (c : Z) (b : byte) : Z :=
  Nat.iter 8 table_bit (Z.lxor c (byte_to_Z b)).

Definition crc_ref (crc : Z) (data : bytes) : Z :=
  Z.lxor (foldl crc_byte_ref (Z.lxor crc 0xffffffff) data) 0xffffffff.

(** ** Linearity and injectivity of the register *)

Lemma table_bit_alt c :
  table_bit c = Z.lxor (Z.shiftr c 1) (if Z.testbit c 0 then 0x82f63b78 else 0).
Proof.
  unfold table_bit. rewrite land_1.
  rewrite Z.bit0_odd, Zmod_odd. destruct (Z.odd c); simpl.
  - apply Z.lxor_comm.
  - by rewrite Z.lxor_0_r.
Qed.

Lemma table_bit_lxor a b : table_bit (Z.lxor a b) = Z.lxor (table_bit a) (table_bit b).
Proof.
  rewrite !table_bit_alt, Z.shiftr_lxor, Z.lxor_spec.
  apply Z.bits_inj'. intros i Hi. rewrite !Z.lxor_spec.
  destruct (Z.testbit a 0), (Z.testbit b 0); simpl;
    rewrite ?Z.bits_0;
    destruct (Z.testbit (Z.shiftr a 1) i), (Z.testbit (Z.shiftr b 1) i),
      (Z.testbit 0x82f63b78 i); done.
Qed.

Lemma table_bits_lxor n a b :
  Nat.iter n table_bit (Z.lxor a b) =
  Z.lxor (Nat.iter n table_bit a) (Nat.iter n table_bit b).
Proof.
  induction n as [|n IH]; [done|]. simpl. by rewrite IH, table_bit_lxor.
Qed.

Lemma table_bit_range c : 0 ≤ c < 2 ^ 32 → 0 ≤ table_bit c < 2 ^ 32.
Proof.
  intros Hc. rewrite table_bit_alt. apply lxor_range; [lia| |by destruct (Z.testbit c 0)].
  rewrite Z.shiftr_div_pow2 by lia. lia_dm.
Qed.

Lemma table_bits_range n c : 0 ≤ c < 2 ^ 32 → 0 ≤ Nat.iter n table_bit c < 2 ^ 32.
Proof. intros. induction n; [done|]. by apply table_bit_range. Qed.

(** The bit that falls out is the top bit of the next register, so a step
    loses nothing. *)
Lemma table_bit_inj a b :
  0 ≤ a < 2 ^ 32 → 0 ≤ b < 2 ^ 32 → table_bit a = table_bit b → a = b.
Proof.
  intros Ha Hb E. rewrite !table_bit_alt in E.
  assert (∀ c, 0 ≤ c < 2 ^ 32 →
    Z.testbit (Z.lxor (Z.shiftr c 1) (if Z.testbit c 0 then 0x82f63b78 else 0)) 31
    = Z.testbit c 0) as Htop.
  { intros c Hc. rewrite Z.lxor_spec, Z.shiftr_spec, (testbit_high c 32) by lia.
    by destruct (Z.testbit c 0). }
  assert (Z.testbit a 0 = Z.testbit b 0) as E0.
  { rewrite <-(Htop a Ha), <-(Htop b Hb). by rewrite E. }
  apply Z.bits_inj'. intros i Hi. destruct (decide (i = 0)) as [->|]; [done|].
  apply (f_equal (λ z, Z.testbit z (i - 1))) in E.
  rewrite E0, !Z.lxor_spec, !Z.shiftr_spec in E by lia.
  replace (i - 1 + 1) with i in E by lia.
  by destruct (Z.testbit a i), (Z.testbit b i),
    (Z.testbit (if Z.testbit b 0 then 0x82f63b78 else 0) (i - 1)).
Qed.

Lemma table_bits_inj n a b :
  0 ≤ a < 2 ^ 32 → 0 ≤ b < 2 ^ 32 →
  Nat.iter n table_bit a = Nat.iter n table_bit b → a = b.
Proof.
  intros Ha Hb. induction n as [|n IH]; [done|]. intros E. apply IH.
  by apply table_bit_inj in E; [..|apply table_bits_range|apply table_bits_range].
Qed.

(** Shifting out zero bits is a plain shift. *)
Lemma table_bits_shiftl n z : Nat.iter n table_bit (Z.shiftl z (Z.of_nat n)) = z.
Proof.
  revert z. induction n as [|n IH]; intros z; [apply Z.shiftl_0_r|].
  rewrite Nat.iter_succ_r, table_bit_alt.
  rewrite Z.shiftl_spec_low, Z.lxor_0_r by lia.
  rewrite Z.shiftr_shiftl_l by lia.
  replace (Z.of_nat (S n) - 1) with (Z.of_nat n) by lia. apply IH.
Qed.

Lemma table_byte_shiftl z : Nat.iter 8 table_bit (Z.shiftl z 8) = z.
Proof. exact (table_bits_shiftl 8 z). Qed.

Lemma split_low_byte c : c = Z.lxor (Z.land c 0xff) (Z.shiftl (Z.shiftr c 8) 8).
Proof.
  apply Z.bits_inj'. intros i Hi.
  rewrite Z.lxor_spec, land_ff.
  destruct (decide (i < 8)).
  - rewrite Z.mod_pow2_bits_low, Z.shiftl_spec_low by lia. by rewrite xorb_false_r.
  - rewrite Z.mod_pow2_bits_high, Z.shiftl_spec_high, Z.shiftr_spec by lia.
    rewrite xorb_false_l. f_equal. lia.
Qed.

Lemma kTable_lookup i : 0 ≤ i < 256 → kTable !!! Z.to_nat i = Nat.iter 8 table_bit i.
Proof.
  intros Hi. unfold kTable, MakeTable. apply list_lookup_total_correct.
  rewrite list_lookup_fmap, lookup_seqZ_lt by lia. simpl.
  by rewrite Z2Nat.id by lia.
Qed.

Lemma shiftr8_lxor_byte c b : Z.shiftr (Z.lxor c (byte_to_Z b)) 8 = Z.shiftr c 8.
Proof.
  rewrite Z.shiftr_lxor, (Z.shiftr_div_pow2 (byte_to_Z b)) by lia.
  rewrite Z.div_small by apply byte_to_Z_range. apply Z.lxor_0_r.
Qed.

(** The table look-up does eight steps of the register at once. *)
Lemma extend_byte_ref c b : extend_byte c b = crc_byte_ref c b.
Proof.
  unfold extend_byte, crc_byte_ref.
  rewrite kTable_lookup by
    (rewrite land_ff; lia_dm).
  rewrite (split_low_byte (Z.lxor c (byte_to_Z b))) at 2.
  rewrite table_bits_lxor, table_byte_shiftl, shiftr8_lxor_byte. done.
Qed.

Lemma extend_byte_range c b : 0 ≤ c < 2 ^ 32 → 0 ≤ extend_byte c b < 2 ^ 32.
Proof.
  intros Hc. rewrite extend_byte_ref. apply table_bits_range, lxor_range; [lia|done|].
  pose proof (byte_to_Z_range b). lia.
Qed.

Lemma extend_bytes_range data c : 0 ≤ c < 2 ^ 32 → 0 ≤ foldl extend_byte c data < 2 ^ 32.
Proof.
  revert c. induction data as [|b data IH]; intros c Hc; [done|].
  simpl. by apply IH, extend_byte_range.
Qed.

Lemma Extend_range crc data : 0 ≤ crc < 2 ^ 32 → 0 ≤ Extend crc data < 2 ^ 32.
Proof.
  intros. apply lxor_range; [lia| |lia]. apply extend_bytes_range, lxor_range; lia.
Qed.

Lemma Value_range data : 0 ≤ Value data < 2 ^ 32.
Proof. by apply Extend_range. Qed.

Lemma Extend_app crc a b : Extend (Extend crc a) b = Extend crc (a ++ b).
Proof.
  unfold Extend. rewrite foldl_app. do 2 f_equal.
  by rewrite Z.lxor_assoc, Z.lxor_nilpotent, Z.lxor_0_r.
Qed.

Lemma Value_cons b data : Value (b :: data) = Extend (Value [b]) data.
Proof. unfold Value. by rewrite Extend_app. Qed.

(** ** Error detection *)

(** A run of bytes as the number the register sees, first byte lowest. *)
Fixpoint le_word (w : bytes) : Z :=
  match w with
  | [] => 0
  | b :: w => Z.lxor (byte_to_Z b) (Z.shiftl (le_word w) 8)
  end.

Lemma le_word_cons b w : le_word (b :: w) = byte_to_Z b + le_word w * 2 ^ 8.
Proof.
  simpl. rewrite <-lor_shiftl_add by (lia || apply byte_to_Z_range).
  apply Z.lxor_lor, Z.bits_inj'. intros i Hi. rewrite Z.land_spec, Z.bits_0.
  destruct (decide (i < 8)).
  - rewrite Z.shiftl_spec_low by lia. apply andb_false_r.
  - by rewrite (testbit_high (byte_to_Z b) 8) by (lia || apply byte_to_Z_range).
Qed.

Lemma le_word_range w n :
  (length w ≤ n)%nat → 0 ≤ le_word w < 2 ^ (8 * Z.of_nat n).
Proof.
  revert n. induction w as [|b w IH]; intros n Hn; [simpl; lia|].
  destruct n as [|n]; simpl in Hn; [lia|]. rewrite le_word_cons.
  specialize (IH n ltac:(lia)). pose proof (byte_to_Z_range b).
  replace (8 * Z.of_nat (S n)) with (8 * Z.of_nat n + 8) by lia.
  rewrite Z.pow_add_r by lia. lia.
Qed.

Lemma le_word_inj w1 w2 : length w1 = length w2 → le_word w1 = le_word w2 → w1 = w2.
Proof.
  revert w2. induction w1 as [|b1 w1 IH]; intros [|b2 w2] Hl E; try done.
  rewrite !le_word_cons in E.
  pose proof (byte_to_Z_range b1). pose proof (byte_to_Z_range b2).
  f_equal; [apply byte_to_Z_inj; lia|]. apply IH; [by injection Hl|lia].
Qed.

Lemma extend_bytes_word w c :
  foldl extend_byte c w = Nat.iter (8 * length w) table_bit (Z.lxor c (le_word w)).
Proof.
  revert c. induction w as [|b w IH]; intros c; [simpl; by rewrite Z.lxor_0_r|].
  cbn [foldl length]. rewrite IH, extend_byte_ref. unfold crc_byte_ref.
  replace (8 * S (length w))%nat with (8 * length w + 8)%nat by lia.
  rewrite Nat.iter_add. f_equal. cbn [le_word].
  rewrite <-Z.lxor_assoc, (table_bits_lxor 8 _ (Z.shiftl _ _)).
  by rewrite table_byte_shiftl.
Qed.

Lemma extend_bytes_inj data c1 c2 :
  0 ≤ c1 < 2 ^ 32 → 0 ≤ c2 < 2 ^ 32 →
  foldl extend_byte c1 data = foldl extend_byte c2 data → c1 = c2.
Proof.
  intros H1 H2. rewrite !extend_bytes_word, !table_bits_lxor.
  intros E%(f_equal (λ z, Z.lxor z (Nat.iter (8 * length data) table_bit (le_word data)))).
  rewrite !Z.lxor_assoc, !Z.lxor_nilpotent, !Z.lxor_0_r in E.
  by apply table_bits_inj in E.
Qed.

Lemma extend_burst c w1 w2 :
  0 ≤ c < 2 ^ 32 → length w1 = length w2 → (length w1 ≤ 4)%nat →
  foldl extend_byte c w1 = foldl extend_byte c w2 → w1 = w2.
Proof.
  intros Hc Hl H4 E. rewrite !extend_bytes_word, <-Hl in E.
  pose proof (le_word_range w1 4 ltac:(lia)). pose proof (le_word_range w2 4 ltac:(lia)).
  apply table_bits_inj in E; [|by apply lxor_range..].
  apply le_word_inj; [done|].
  apply (f_equal (Z.lxor c)) in E.
  by rewrite <-!Z.lxor_assoc, Z.lxor_nilpotent, !Z.lxor_0_l in E.
Qed.


(** Checksums chain: extending the checksum of [a] by [b] is the checksum
    of the concatenation, as the comment of crc32c.h promises, and the result
    always fits 32 bits. *)
Lemma crc_chains a b :
  Extend (Value a) b = Value (a ++ b) ∧ 0 ≤ Value (a ++ b) < 2 ^ 32.
Proof. split; [apply Extend_app|apply Value_range]. Qed.

Lemma burst_detected p w1 w2 s :
  length w1 = length w2 → (length w1 ≤ 4)%nat → w1 ≠ w2 →
  Value (p ++ w1 ++ s) ≠ Value (p ++ w2 ++ s).
Proof.
  intros Hl H4 Hne E. apply Hne. unfold Value, Extend in E.
  apply (f_equal (λ z, Z.lxor z 0xffffffff)) in E.
  rewrite !Z.lxor_assoc, !Z.lxor_nilpotent, !Z.lxor_0_r, !foldl_app in E.
  assert (0 ≤ foldl extend_byte (Z.lxor 0 0xffffffff) p < 2 ^ 32)
    by by apply extend_bytes_range.
  apply extend_bytes_inj in E; [|by apply extend_bytes_range..].
  by eapply extend_burst.
Qed.

(** C25: the checksum detects every corruption confined to four consecutive
    bytes: two messages of the same length that differ only inside such a
    window have different checksums. *)
Theorem crc_detects_bursts p w1 w2 s :
  length w1 = length w2 → (length w1 ≤ 4)%nat → w1 ≠ w2 →
  Value (p ++ w1 ++ s) ≠ Value (p ++ w2 ++ s).
Proof. apply burst_detected. Qed.

Lemma crc_detects_bursts_witness :
  Value (str "ab" ++ str "cdef" ++ str "g") ≠ Value (str "ab" ++ str "cXYf" ++ str "g").
Proof. apply crc_detects_bursts; [reflexivity|simpl; lia|discriminate]. Defined.

(** ** Masking *)

Lemma u32_shiftl x k : 0 ≤ k ≤ 32 → u32 (Z.shiftl x k) = Z.shiftl (x mod 2 ^ (32 - k)) k.
Proof.
  intros Hk. unfold u32. rewrite !Z.shiftl_mul_pow2 by lia.
  replace (2 ^ 32) with (2 ^ (32 - k) * 2 ^ k)
    by (rewrite <-Z.pow_add_r by lia; f_equal; lia).
  assert (0 < 2 ^ k) by (apply Z.pow_pos_nonneg; lia).
  assert (0 < 2 ^ (32 - k)) by (apply Z.pow_pos_nonneg; lia).
  apply Z.mul_mod_distr_r; lia.
Qed.

(** Both rotations exchange the high and the low part. *)
Lemma rotate_eq x k : 0 ≤ x < 2 ^ 32 → 0 ≤ k ≤ 32 →
  Z.lor (Z.shiftr x k) (u32 (Z.shiftl x (32 - k))) = x / 2 ^ k + x mod 2 ^ k * 2 ^ (32 - k).
Proof.
  intros Hx Hk. rewrite u32_shiftl, Z.shiftr_div_pow2 by lia.
  assert (0 < 2 ^ k) by (apply Z.pow_pos_nonneg; lia).
  replace (32 - (32 - k)) with k by lia. apply lor_shiftl_add; [lia|].
  split; [apply Z.div_pos; lia|]. apply Z.div_lt_upper_bound; [lia|].
  rewrite <-Z.pow_add_r by lia. replace (k + (32 - k)) with 32 by lia. lia.
Qed.

Lemma rotate15 x : 0 ≤ x < 2 ^ 32 →
  Z.lor (Z.shiftr x 15) (u32 (Z.shiftl x 17)) = x / 2 ^ 15 + x mod 2 ^ 15 * 2 ^ 17.
Proof. intros. by apply (rotate_eq x 15). Qed.

Lemma rotate17 x : 0 ≤ x < 2 ^ 32 →
  Z.lor (Z.shiftr x 17) (u32 (Z.shiftl x 15)) = x / 2 ^ 17 + x mod 2 ^ 17 * 2 ^ 15.
Proof. intros. by apply (rotate_eq x 17). Qed.

Lemma u32_add_sub x d : 0 ≤ x < 2 ^ 32 → u32 (u32 (x + d) - d) = x.
Proof.
  intros Hx. unfold u32. rewrite Zminus_mod_idemp_l.
  replace (x + d - d) with x by lia. by apply Z.mod_small.
Qed.

Lemma Unmask_Mask crc : 0 ≤ crc < 2 ^ 32 → Unmask (Mask crc) = crc.
Proof.
  intros Hc. unfold Unmask, Mask.
  rewrite rotate15 by lia.
  rewrite u32_add_sub by lia_dm.
  rewrite rotate17 by lia_dm. lia_dm.
Qed.

Lemma Mask_range crc : 0 ≤ Mask crc < 2 ^ 32.
Proof. apply u32_range. Qed.

(** Masking a checksum is reversible in both directions, so the stored
    word determines the checksum and no two checksums share a stored word. *)
Lemma mask_roundtrip c : 0 ≤ c < 2 ^ 32 →
  Unmask (Mask c) = c ∧ Mask (Unmask c) = c ∧ 0 ≤ Mask c < 2 ^ 32.
Proof.
  intros Hc. split; [by apply Unmask_Mask|]. split; [|apply Mask_range].
  unfold Unmask, Mask.
  assert (0 ≤ u32 (c - kMaskDelta) < 2 ^ 32) by apply u32_range.
  rewrite rotate17 by lia.
  rewrite rotate15 by lia_dm.
  replace (_ / 2 ^ 15 + _) with (u32 (c - kMaskDelta)) by lia_dm.
  unfold u32. rewrite Zplus_mod_idemp_l.
  replace (c - kMaskDelta + kMaskDelta) with c by lia. by apply Z.mod_small.
Qed.

(** The check value of the standard. *)
Example crc_check_value : Value (str "123456789") = 0xE3069283.
Proof. vm_compute. reflexivity. Qed.
