(* ===== verification/Files.v ===== *)
(** * The file interfaces (include/mlsm/writable_file.h, sequential_file.h)

    The abstract classes [WritableFile] and [SequentialFile] through which the
    WAL reaches its bytes, as type classes over the state [S] behind an object
    (the object itself and whatever it writes to).  [WritableFileSpec] and
    [SequentialFileSpec] are what an implementation promises; the theorems
    about the WAL are proved against them.  The in-memory files of the test
    suite implement them here, the POSIX files in [EnvPosix.v]. *)

From S2P Require Import Prelude Status.
Local Open Scope Z_scope.

(** The pure virtual methods of [WritableFile]. *)
Class WritableFile (S : Type) := {
  Append : bytes → M S Status;
  Flush : M S Status;
  Sync : M S Status;
  Close : M S Status;
}.

(** What a writable file promises while it is open: [Append] adds its argument
    at the end, or fails having added a prefix of it; [Flush] and [Sync] leave
    the bytes alone; what is durable is a prefix of the contents and only
    grows, and after a successful [Sync] it is all of them.  [wf_reliable]
    describes the files whose operations do not fail. *)
Class WritableFileSpec (S : Type) `{WritableFile S} := {
  wf_open : S → Prop;
  wf_reliable : S → Prop;
  wf_contents : S → bytes;
  wf_durable : S → bytes;
  wf_durable_prefix s : wf_open s → wf_durable s `prefix_of` wf_contents s;
  wf_append s data : wf_open s → ∃ st s' p,
    Append data s = Some (st, s') ∧ wf_open s' ∧
    wf_contents s' = wf_contents s ++ p ∧ p `prefix_of` data ∧
    (ok st = true → p = data) ∧ wf_durable s `prefix_of` wf_durable s' ∧
    (wf_reliable s → ok st = true ∧ wf_reliable s');
  wf_flush s : wf_open s → ∃ st s',
    Flush s = Some (st, s') ∧ wf_open s' ∧
    wf_contents s' = wf_contents s ∧ wf_durable s `prefix_of` wf_durable s' ∧
    (wf_reliable s → ok st = true ∧ wf_reliable s');
  wf_sync s : wf_open s → ∃ st s',
    Sync s = Some (st, s') ∧ wf_open s' ∧
    wf_contents s' = wf_contents s ∧ wf_durable s `prefix_of` wf_durable s' ∧
    (ok st = true → wf_durable s' = wf_contents s) ∧
    (wf_reliable s → ok st = true ∧ wf_reliable s');
}.

(** The methods of [SequentialFile].  [sf_bound] is not a method: it bounds the
    bytes the file can still deliver, and the reading loops of the model take
    their number of iterations from it. *)
Class SequentialFile (S : Type) := {
  Read : Z → M S (Status * bytes);
  Skip : Z → M S Status;
  sf_bound : S → nat;
}.

(** What a sequential file promises: a successful [Read n] delivers the next
    [n] bytes, or all that is left when there are fewer (so a short result is
    the end of the file).  [sf_reliable] describes the files whose reads do not
    fail. *)
Class SequentialFileSpec (S : Type) `{SequentialFile S} := {
  sf_open : S → Prop;
  sf_reliable : S → Prop;
  sf_rest : S → bytes;
  sf_bound_rest s : sf_open s → sf_bound s = length (sf_rest s);
  sf_read s n : sf_open s → 0 ≤ n → ∃ st data s',
    Read n s = Some ((st, data), s') ∧ sf_open s' ∧
    (ok st = true → data = take (Z.to_nat n) (sf_rest s) ∧
                    sf_rest s' = drop (Z.to_nat n) (sf_rest s)) ∧
    (sf_reliable s → ok st = true ∧ sf_reliable s');
}.

(** ** The in-memory files of the tests *)

(** [StringDest]: a sink that never fails. *)
Record StringDest : Type := mkStringDest { contents_ : bytes }.

#[export] Instance StringDest_file : WritableFile StringDest := {
  Append data := λ s, Some (OK, mkStringDest (contents_ s ++ data));
  Flush := λ s, Some (OK, s);
  Sync := λ s, Some (OK, s);
  Close := λ s, Some (OK, s);
}.

#[export] Program Instance StringDest_spec : WritableFileSpec StringDest := {
  wf_open _ := True;
  wf_reliable _ := True;
  wf_contents := contents_;
  wf_durable := contents_;
}.
Next Obligation. done. Qed.
Next Obligation.
  intros s data _. eexists _, _, data. split_and!; [done..|by apply prefix_app_r|done].
Qed.
Next Obligation. intros s _. by eexists _, _. Qed.
Next Obligation. intros s _. by eexists _, _. Qed.

(** [StringSource]: hands out the bytes of a string from a cursor. *)
Record StringSource : Type := mkStringSource { data_ : bytes; pos_ : Z }.

#[export] Instance StringSource_file : SequentialFile StringSource := {
  Read n := λ s,
    let left := Z.of_nat (length (data_ s)) - pos_ s in
    let to_copy := if n <? left then n else left in
    Some ((OK, take (Z.to_nat to_copy) (drop (Z.to_nat (pos_ s)) (data_ s))),
          mkStringSource (data_ s) (pos_ s + to_copy));
  Skip n := λ s, Some (OK, mkStringSource (data_ s) (pos_ s + n));
  sf_bound s := length (drop (Z.to_nat (pos_ s)) (data_ s));
}.

#[export] Program Instance StringSource_spec : SequentialFileSpec StringSource := {
  sf_open s := 0 ≤ pos_ s ≤ Z.of_nat (length (data_ s));
  sf_reliable _ := True;
  sf_rest s := drop (Z.to_nat (pos_ s)) (data_ s);
}.
Next Obligation. done. Qed.
Next Obligation.
  intros [data pos] n Hpos Hn; simpl in *.
  eexists _, _, _. split; [done|]. simpl.
  destruct (Z.ltb_spec n (Z.of_nat (length data) - pos)).
  - split_and!; [lia|lia| |done].
    intros _. rewrite drop_drop. by rewrite Z2Nat.inj_add by lia.
  - split_and!; [lia|lia| |done].
    intros _. rewrite drop_drop, !take_ge by (rewrite length_drop; lia).
    split; [done|]. rewrite !drop_ge by lia. done.
Qed.
