(* ===== verification/WalFormat.v ===== *)
(** * The write-ahead log format (include/mlsm/wal_writer.h)

    The constants and record types of the format and, as the specification
    that the writer and the reader are proved against, the format itself: how
    a logical record is split into physical records at a given offset inside a
    32 KB block ([framed]) and which byte strings are logs of which records
    ([wal]). *)

From S2P Require Import Prelude Coding Crc32c.
Local Open Scope Z_scope.

Definition kBlockSize : Z := 32768.
Definition kHeaderSize : Z := 4 + 2 + 1.

Inductive RecordType : Type :=
| kZeroType
| kFullType
| kFirstType
| kMiddleType
| kLastType.

(** The numeric values of the enumerators. *)
Definition RecordType_value (t : RecordType) : Z :=
  match t with
  | kZeroType => 0
  | kFullType => 1
  | kFirstType => 2
  | kMiddleType => 3
  | kLastType => 4
  end.

Definition kMaxRecordType : Z := RecordType_value kLastType.

#[export] Instance RecordType_eq_dec : EqDecision RecordType.
Proof. solve_decision. Defined.

Ltac wal_unfold := unfold kBlockSize, kHeaderSize in *.
Ltac wal_lia := wal_unfold; lia.

(** ** Physical records *)

(** checksum (4) | length (2) | type (1) | payload *)
Definition phys_header (t : RecordType) (payload : bytes) : bytes :=
  let length := Z.of_nat (length payload) in
  EncodeFixed32 (Mask (Value (byte_of_Z (RecordType_value t) :: payload))) ++
  [ byte_of_Z (Z.land length 0xff);
    byte_of_Z (Z.land (Z.shiftr length 8) 0xff);
    byte_of_Z (RecordType_value t) ].

Definition phys (t : RecordType) (payload : bytes) : bytes :=
  phys_header t payload ++ payload.

(** The zero trailer that closes a block with less room than a header, and the
    offset at which the next physical record starts. *)
Definition trailer (off : Z) : bytes :=
  if kBlockSize - off <? kHeaderSize
  then replicate (Z.to_nat (kBlockSize - off)) Byte.x00 else [].

Definition start (off : Z) : Z :=
  if kBlockSize - off <? kHeaderSize then 0 else off.

(** Room for the payload of a physical record written at [off]. *)
Definition avail (off : Z) : Z := kBlockSize - start off - kHeaderSize.

#[global] Arguments phys : simpl never.
#[global] Arguments phys_header : simpl never.
#[global] Arguments trailer : simpl never.
#[global] Arguments start : simpl never.

(** ** Logical records *)

(** [framed begin off data out off']: [out] is the encoding of the rest [data]
    of a logical record (all of it when [begin]) from the block offset [off],
    and [off'] the offset it ends at. *)
Inductive framed : bool → Z → bytes → bytes → Z → Prop :=
| framed_end begin off data :
    Z.of_nat (length data) ≤ avail off →
    framed begin off data
      (trailer off ++ phys (if begin then kFullType else kLastType) data)
      (start off + kHeaderSize + Z.of_nat (length data))
| framed_more begin off d1 d2 out off' :
    Z.of_nat (length d1) = avail off →
    d2 ≠ [] →
    framed false kBlockSize d2 out off' →
    framed begin off (d1 ++ d2)
      ((trailer off ++ phys (if begin then kFirstType else kMiddleType) d1) ++ out) off'.

(** [wal off rs c off']: [c] holds the records [rs], written from offset [off]
    of a block to offset [off'] of a block. *)
Inductive wal : Z → list bytes → bytes → Z → Prop :=
| wal_nil off : wal off [] [] off
| wal_cons off r out off1 rs c off2 :
    framed true off r out off1 →
    wal off1 rs c off2 →
    wal off (r :: rs) (out ++ c) off2.

#[export] Hint Constructors framed wal : mlsm.

(** ** Facts about the format *)

Lemma phys_header_length t pl : length (phys_header t pl) = 7%nat.
Proof. done. Qed.

Lemma phys_length t pl : Z.of_nat (length (phys t pl)) = kHeaderSize + Z.of_nat (length pl).
Proof. unfold phys. rewrite length_app, phys_header_length. wal_lia. Qed.

Lemma start_range off : 0 ≤ off ≤ kBlockSize → 0 ≤ start off ≤ kBlockSize - kHeaderSize.
Proof. unfold start. intros. destruct (Z.ltb_spec (kBlockSize - off) kHeaderSize); wal_lia. Qed.

Lemma avail_range off :
  0 ≤ off ≤ kBlockSize → 0 ≤ avail off ≤ kBlockSize - kHeaderSize.
Proof. intros H%start_range. unfold avail. wal_lia. Qed.

Lemma framed_offset begin off data out off' :
  framed begin off data out off' → 0 ≤ off ≤ kBlockSize → kHeaderSize ≤ off' ≤ kBlockSize.
Proof.
  induction 1 as [b off data Hl|b off d1 d2 out off' Hl Hd Hf IH]; intros Hoff.
  - apply start_range in Hoff. unfold avail in Hl. wal_lia.
  - apply IH. wal_lia.
Qed.

Lemma wal_offset off rs c off' : wal off rs c off' → 0 ≤ off ≤ kBlockSize → 0 ≤ off' ≤ kBlockSize.
Proof.
  induction 1 as [|? ? ? ? ? ? ? Hf]; intros Hoff; [done|].
  apply framed_offset in Hf; [|done]. wal_lia.
Qed.

(** The cursor of the format is the number of bytes written, modulo blocks. *)
Lemma trailer_start off t pl : 0 ≤ off ≤ kBlockSize →
  (off + Z.of_nat (length (trailer off ++ phys t pl))) mod kBlockSize =
  (start off + kHeaderSize + Z.of_nat (length pl)) mod kBlockSize.
Proof.
  intros Hoff. rewrite length_app, Nat2Z.inj_add, phys_length.
  unfold trailer, start. destruct (Z.ltb_spec (kBlockSize - off) kHeaderSize).
  - rewrite length_replicate, Z2Nat.id by lia.
    replace (off + _) with (kHeaderSize + Z.of_nat (length pl) + 1 * kBlockSize) by lia.
    by rewrite Z_mod_plus_full.
  - simpl. f_equal. lia.
Qed.

Lemma framed_mod begin off data out off' :
  framed begin off data out off' → 0 ≤ off ≤ kBlockSize →
  (off + Z.of_nat (length out)) mod kBlockSize = off' mod kBlockSize.
Proof.
  induction 1 as [b off data Hl|b off d1 d2 out off' Hl Hd Hf IH]; intros Hoff.
  - by apply trailer_start.
  - rewrite length_app, Nat2Z.inj_add, Z.add_assoc, <-Zplus_mod_idemp_l.
    rewrite trailer_start by done. rewrite Hl. unfold avail.
    replace (start off + _ + _) with kBlockSize by lia.
    rewrite Zplus_mod_idemp_l. apply IH. wal_lia.
Qed.

Lemma wal_mod off rs c off' :
  wal off rs c off' → 0 ≤ off ≤ kBlockSize →
  (off + Z.of_nat (length c)) mod kBlockSize = off' mod kBlockSize.
Proof.
  induction 1 as [|off r out off1 rs c off2 Hf Hw IH]; intros Hoff.
  - by rewrite Z.add_0_r.
  - rewrite length_app, Nat2Z.inj_add, Z.add_assoc, <-Zplus_mod_idemp_l.
    rewrite (framed_mod _ _ _ _ _ Hf) by done. rewrite Zplus_mod_idemp_l.
    apply IH. apply framed_offset in Hf; [wal_lia|done].
Qed.

(** Offset [kBlockSize] (a full block) and offset [0] (a fresh one) are the
    same place, so the format only depends on the offset modulo the block. *)
Lemma wrap_offset off : 0 ≤ off ≤ kBlockSize →
  trailer (off mod kBlockSize) = trailer off ∧ start (off mod kBlockSize) = start off.
Proof.
  intros Hoff. destruct (decide (off = kBlockSize)) as [->|]; [done|].
  by rewrite Z.mod_small by lia.
Qed.

Lemma framed_wrap begin off data out off' : 0 ≤ off ≤ kBlockSize →
  framed begin off data out off' ↔ framed begin (off mod kBlockSize) data out off'.
Proof.
  intros Hoff. destruct (wrap_offset off Hoff) as [Ht Hs].
  assert (avail (off mod kBlockSize) = avail off) as Ha by (unfold avail; by rewrite Hs).
  split; intros Hf; inversion Hf; subst.
  - rewrite <-Ht, <-Hs. constructor. lia.
  - rewrite <-Ht. constructor; [lia|done..].
  - rewrite Ht, Hs. constructor. lia.
  - rewrite Ht. constructor; [lia|done..].
Qed.

Lemma wal_app off rs1 c1 off1 rs2 c2 off2 :
  0 ≤ off ≤ kBlockSize →
  wal off rs1 c1 off1 → wal (off1 mod kBlockSize) rs2 c2 off2 →
  ∃ off', wal off (rs1 ++ rs2) (c1 ++ c2) off' ∧ off' mod kBlockSize = off2 mod kBlockSize.
Proof.
  intros Hoff Hw. induction Hw as [off|off r out off1 rs c off1' Hf Hw IH]; intros H2.
  - inversion H2 as [|? r out off1 rs c ? Hf Hw]; subst.
    + exists off. split; [constructor|]. by rewrite Zmod_mod.
    + exists off2. split; [|done]. simpl. eapply wal_cons; [by apply framed_wrap|done].
  - destruct IH as (off' & Hw' & Hm); [|done|].
    { apply framed_offset in Hf; [wal_lia|done]. }
    exists off'. split; [|done]. simpl. rewrite <-app_assoc. by econstructor.
Qed.

(** A record that does not fit is cut at the end of the block. *)
Lemma framed_cut begin off data out off' :
  0 ≤ off ≤ kBlockSize → avail off < Z.of_nat (length data) →
  framed false kBlockSize (drop (Z.to_nat (avail off)) data) out off' →
  framed begin off data
    ((trailer off ++ phys (if begin then kFirstType else kMiddleType)
                          (take (Z.to_nat (avail off)) data)) ++ out) off'.
Proof.
  intros Hoff Hlt Hf. pose proof (avail_range off Hoff) as Ha.
  rewrite <-(take_drop (Z.to_nat (avail off)) data) at 1.
  apply framed_more; [rewrite length_take; lia| |done].
  intros Hd%(f_equal length). rewrite length_drop in Hd. simpl in Hd. lia.
Qed.

(** ** The encoding is a function of the record and the offset *)

Lemma framed_fun begin off data out1 off1 out2 off2 :
  framed begin off data out1 off1 → framed begin off data out2 off2 →
  out1 = out2 ∧ off1 = off2.
Proof.
  intros H1. revert out2 off2.
  induction H1 as [b off data Hl|b off d1 d2 out off' Hl Hd Hf IH]; intros out2 off2 H2.
  - inversion H2 as [|? ? e1 e2 ? ? Hl2 Hd2]; subst; [done|].
    rewrite length_app in Hl. destruct e2; [done|simpl in Hl; lia].
  - inversion H2 as [? ? ? Hl2|? ? e1 e2 out' ? Hl2 Hd2 Hf2]; subst.
    + rewrite length_app in Hl2. destruct d2; [done|simpl in Hl2; lia].
    + assert (e1 = d1 ∧ e2 = d2) as [-> ->] by (apply app_inj_1; [lia|done]).
      by apply IH in Hf2 as [-> ->].
Qed.

Lemma wal_app_inv off rs1 rs2 c off2 :
  wal off (rs1 ++ rs2) c off2 →
  ∃ c1 c2 off1, c = c1 ++ c2 ∧ wal off rs1 c1 off1 ∧ wal off1 rs2 c2 off2.
Proof.
  revert off c. induction rs1 as [|r rs1 IH]; intros off c Hw.
  - exists [], c, off. split_and!; [done|constructor|done].
  - inversion Hw as [|? ? out off1 ? c' ? Hf Hw']; subst.
    destruct (IH _ _ Hw') as (c1 & c2 & off1' & -> & H1 & H2).
    exists (out ++ c1), c2, off1'. split_and!; [by rewrite app_assoc| |done].
    by econstructor.
Qed.

Lemma wal_concat off rs1 c1 off1 rs2 c2 off2 :
  wal off rs1 c1 off1 → wal off1 rs2 c2 off2 → wal off (rs1 ++ rs2) (c1 ++ c2) off2.
Proof.
  induction 1 as [|off r out off1 rs c off' Hf Hw IH]; intros H2; [done|].
  simpl. rewrite <-app_assoc. econstructor; [done|]. by apply IH.
Qed.

Lemma wal_fun off rs c1 off1 c2 off2 :
  wal off rs c1 off1 → wal off rs c2 off2 → c1 = c2 ∧ off1 = off2.
Proof.
  intros H1. revert c2 off2.
  induction H1 as [off|off r out off1 rs c off' Hf Hw IH]; intros c2 off2 H2;
    inversion H2 as [|? ? out2 ? ? ? ? Hf2]; subst; [done|].
  destruct (framed_fun _ _ _ _ _ _ _ Hf Hf2) as [-> ->].
  match goal with H : wal _ rs _ _ |- _ => by apply IH in H as [-> ->] end.
Qed.
