(* ===== verification/WalWriter.v ===== *)
(** * The log writer (src/wal_writer.cc)

    [log::Writer] over any [WritableFile]: the fragmentation loop of
    [AddRecord] and [EmitPhysicalRecord].  The main result is that whatever the
    file does, [AddRecord] terminates having appended a prefix of the
    encoding the format prescribes, and all of it when it reports success. *)

From S2P Require Import Prelude Status Coding Crc32c Files WalFormat.
Local Open Scope Z_scope.

(** The fields of [Writer]; [dest_] is the file state that the operations are
    run on. *)
Record Writer : Type := mkWriter {
  block_offset_ : Z;
  type_crc_ : list Z;
}.

(** [Writer(dest, dest_length)] *)
Definition Writer_new (dest_length : Z) : Writer :=
  mkWriter (dest_length mod kBlockSize)
    ((λ i, Value [byte_of_Z i]) <$> seqZ 0 (kMaxRecordType + 1)).

(** [Writer(dest)] *)
Definition Writer_new_empty : Writer := Writer_new 0.

Section writer.
Context {F : Type} `{WritableFile F}.

(** [Writer::EmitPhysicalRecord] *)
Definition EmitPhysicalRecord (type : RecordType) (ptr : bytes) (length : Z)
    : M (Writer * F) Status := λ '(w, dest),
  let payload := take (Z.to_nat length) ptr in
  let crc := Extend (type_crc_ w !!! Z.to_nat (RecordType_value type)) payload in
  let header :=
    EncodeFixed32 (Mask crc) ++
    [ byte_of_Z (Z.land length 0xff);
      byte_of_Z (Z.land (Z.shiftr length 8) 0xff);
      byte_of_Z (RecordType_value type) ] in
  let write : M F Status :=
    let* s := Append header in
    if ok s then
      let* s := Append payload in
      if ok s then Flush else ret s
    else ret s in
  match write dest with
  | Some (s, dest) =>
      Some (s, (mkWriter (block_offset_ w + (kHeaderSize + length)) (type_crc_ w), dest))
  | None => None
  end.

(** The part of the loop that closes a block without room for a header. *)
Definition SwitchBlock : M (Writer * F) Status := λ '(w, dest),
  let leftover := kBlockSize - block_offset_ w in
  if leftover <? kHeaderSize then
    if 0 <? leftover then
      match Append (replicate (Z.to_nat leftover) Byte.x00) dest with
      | Some (s, dest) =>
          if ok s then Some (s, (mkWriter 0 (type_crc_ w), dest))
          else Some (s, (w, dest))
      | None => None
      end
    else Some (OK, (mkWriter 0 (type_crc_ w), dest))
  else Some (OK, (w, dest)).

(** The type tag of a fragment. *)
Definition fragment_type (begin end_ : bool) : RecordType :=
  if begin && end_ then kFullType
  else if begin then kFirstType
  else if end_ then kLastType
  else kMiddleType.

(** The [do ... while] loop of [Writer::AddRecord] on the unwritten bytes. *)
Fixpoint AddRecord_loop (fuel : nat) (ptr : bytes) (begin : bool)
    : M (Writer * F) Status :=
  match fuel with
  | O => out_of_fuel
  | S fuel =>
      let* s := SwitchBlock in
      if ok s then λ '(w, dest),
        let left := Z.of_nat (length ptr) in
        let avail := kBlockSize - block_offset_ w - kHeaderSize in
        let fragment_length := if left <? avail then left else avail in
        let end_ := left =? fragment_length in
        let type := fragment_type begin end_ in
        (let* s := EmitPhysicalRecord type ptr fragment_length in
         if ok s && (0 <? left - fragment_length)
         then AddRecord_loop fuel (drop (Z.to_nat fragment_length) ptr) false
         else ret s) (w, dest)
      else ret s
  end.

(** A block holds at least one byte of payload and only the first fragment can
    be empty, so [size + 2] iterations are enough ([AddRecord_total]). *)
Definition AddRecord (slice : bytes) : M (Writer * F) Status :=
  AddRecord_loop (length slice + 2) slice true.

End writer.

(** ** The writer only appends and flushes

    Whatever relation between file states [Append] and [Flush] respect, adding
    a record respects. *)

Section write_frame.
Context {F : Type} `{WritableFile F}.
Context (Rel : F → F → Prop) `{!PreOrder Rel}.
Context (HAppend : ∀ d f st f', Append d f = Some (st, f') → Rel f f').
Context (HFlush : ∀ f st f', Flush f = Some (st, f') → Rel f f').

Lemma EmitPhysicalRecord_frame t ptr n w f st w' f' :
  EmitPhysicalRecord t ptr n (w, f) = Some (st, (w', f')) → Rel f f'.
Proof.
  unfold EmitPhysicalRecord, bind.
  destruct (Append _ f) as [[st1 f1]|] eqn:E1; [|done]. apply HAppend in E1.
  destruct (ok st1); [|by intros [= _ _ <-]].
  destruct (Append _ f1) as [[st2 f2]|] eqn:E2; [|done]. apply HAppend in E2.
  destruct (ok st2); [|intros [= _ _ <-]; by etrans].
  destruct (Flush f2) as [[st3 f3]|] eqn:E3; [|done]. apply HFlush in E3.
  intros [= _ _ <-]. etrans; [done|]. by etrans.
Qed.

Lemma SwitchBlock_frame w f st w' f' : SwitchBlock (w, f) = Some (st, (w', f')) → Rel f f'.
Proof.
  unfold SwitchBlock. destruct (_ <? kHeaderSize); [|by intros [= _ _ <-]].
  destruct (0 <? _); [|by intros [= _ _ <-]].
  destruct (Append _ f) as [[st1 f1]|] eqn:E1; [|done]. apply HAppend in E1.
  by destruct (ok st1); intros [= _ _ <-].
Qed.

Lemma AddRecord_frame slice w f st w' f' :
  AddRecord slice (w, f) = Some (st, (w', f')) → Rel f f'.
Proof.
  unfold AddRecord. generalize (length slice + 2)%nat, true. intros fuel.
  revert slice w f. induction fuel as [|fuel IH]; intros ptr w f b; [done|].
  cbn [AddRecord_loop]. intros (st1 & [w1 f1] & E1 & E)%bind_Some.
  apply SwitchBlock_frame in E1. destruct (ok st1); [|by injection E as _ _ <-].
  apply bind_Some in E as (st2 & [w2 f2] & E2 & E). apply EmitPhysicalRecord_frame in E2.
  etrans; [done|]. etrans; [done|].
  destruct (ok st2 && _); [by eapply IH|by injection E as _ _ <-].
Qed.
End write_frame.

(** ** Invariant of the writer *)

(** The cursor is inside a block and the table holds the checksums of the
    type bytes. *)
Definition writer_ok (w : Writer) : Prop :=
  0 ≤ block_offset_ w ≤ kBlockSize ∧
  ∀ t, type_crc_ w !!! Z.to_nat (RecordType_value t) = Value [byte_of_Z (RecordType_value t)].

Lemma Writer_new_ok n : writer_ok (Writer_new n).
Proof.
  split; simpl.
  - pose proof (Z.mod_pos_bound n kBlockSize eq_refl). wal_lia.
  - intros t. by destruct t.
Qed.
#[export] Hint Resolve Writer_new_ok : mlsm.

Section writer_proofs.
Context {F : Type} `{WritableFileSpec F}.
Implicit Types (w : Writer) (f : F).

(** What a step of the writer that should append [out] does to the file: it
    appends a prefix of [out], all of it on success, and loses nothing durable. *)
Definition appended (st : Status) (out : bytes) (f f' : F) : Prop :=
  wf_open f' ∧ wf_durable f `prefix_of` wf_durable f' ∧
  (wf_reliable f → ok st = true ∧ wf_reliable f') ∧
  ∃ p, wf_contents f' = wf_contents f ++ p ∧ p `prefix_of` out ∧
       (ok st = true → p = out).

Lemma append_appended data f : wf_open f →
  ∃ st f', Append data f = Some (st, f') ∧ appended st data f f'.
Proof.
  intros Hf. destruct (wf_append f data Hf) as (st & f' & p & ? & ? & ? & ? & ? & ? & ?).
  exists st, f'. split; [done|]. split_and!; [done..|]. by exists p.
Qed.

Lemma appended_app st1 out1 f f1 st2 out2 f2 :
  appended st1 out1 f f1 → ok st1 = true → appended st2 out2 f1 f2 →
  appended st2 (out1 ++ out2) f f2.
Proof.
  intros (_ & Hd1 & Hr1 & p1 & Hc1 & _ & Hp1) Hok (Ho & Hd2 & Hr2 & p2 & Hc2 & Hpre & Hp2).
  rewrite (Hp1 Hok) in Hc1. split_and!; [done|by etrans|by intros [_ ?]%Hr1; apply Hr2|].
  exists (out1 ++ p2). rewrite Hc2, Hc1, app_assoc. split_and!; [done| |].
  - by apply prefix_app.
  - intros Hok2. by rewrite (Hp2 Hok2).
Qed.

Lemma appended_fail st out1 out2 f f' :
  appended st out1 f f' → ok st = false → appended st (out1 ++ out2) f f'.
Proof.
  intros (Ho & Hd & Hr & p & Hc & Hpre & _) Hok. split_and!; [done..|].
  exists p. split_and!; [done|by apply prefix_app_r|congruence].
Qed.

Lemma appended_nil f : wf_open f → appended OK [] f f.
Proof. intros Ho. split_and!; [done..|]. exists []. by rewrite app_nil_r. Qed.

Lemma flush_appended f : wf_open f → ∃ st f', Flush f = Some (st, f') ∧ appended st [] f f'.
Proof.
  intros Hf. destruct (wf_flush f Hf) as (st & f' & ? & ? & Hc & Hd & ?).
  exists st, f'. split; [done|]. split_and!; [done..|]. exists []. by rewrite app_nil_r.
Qed.

(** The header the writer computes from its table is the header of the
    format. *)
Lemma emit_header w t payload :
  writer_ok w →
  Extend (type_crc_ w !!! Z.to_nat (RecordType_value t)) payload =
  Value (byte_of_Z (RecordType_value t) :: payload).
Proof. intros [_ Hcrc]. by rewrite Hcrc, <-Value_cons. Qed.

Lemma EmitPhysicalRecord_spec t ptr n w f :
  writer_ok w → wf_open f → 0 ≤ n ≤ Z.of_nat (length ptr) →
  ∃ st f',
    EmitPhysicalRecord t ptr n (w, f) =
      Some (st, (mkWriter (block_offset_ w + (kHeaderSize + n)) (type_crc_ w), f')) ∧
    appended st (phys t (take (Z.to_nat n) ptr)) f f'.
Proof.
  intros Hw Hf Hn. unfold EmitPhysicalRecord, phys, phys_header.
  rewrite emit_header by done.
  set (payload := take _ ptr).
  assert (Z.of_nat (length payload) = n) as -> by (unfold payload; rewrite length_take; lia).
  set (header := EncodeFixed32 _ ++ _).
  destruct (append_appended header f Hf) as (st1 & f1 & E1 & A1).
  rewrite (bind_eval _ _ _ _ _ E1). destruct (ok st1) eqn:Ok1.
  2:{ exists st1, f1. split; [done|]. by apply appended_fail. }
  destruct (append_appended payload f1) as (st2 & f2 & E2 & A2); [apply A1|].
  rewrite (bind_eval _ _ _ _ _ E2).
  pose proof (appended_app _ _ _ _ _ _ _ A1 Ok1 A2) as A12.
  destruct (ok st2) eqn:Ok2; [|by exists st2, f2].
  destruct (flush_appended f2) as (st3 & f3 & E3 & A3); [apply A2|].
  rewrite E3. exists st3, f3. split; [done|].
  pose proof (appended_app _ _ _ _ _ _ _ A12 Ok2 A3) as A123.
  by rewrite app_nil_r in A123.
Qed.

Lemma SwitchBlock_spec w f :
  writer_ok w → wf_open f →
  ∃ st w' f', SwitchBlock (w, f) = Some (st, (w', f')) ∧
    appended st (trailer (block_offset_ w)) f f' ∧ writer_ok w' ∧
    (ok st = true → block_offset_ w' = start (block_offset_ w)).
Proof.
  intros [Hoff Hcrc] Hf. unfold SwitchBlock, trailer, start.
  destruct (Z.ltb_spec (kBlockSize - block_offset_ w) kHeaderSize).
  2:{ exists OK, w, f. split_and!; [done|by apply appended_nil|split|done]; done. }
  assert (writer_ok (mkWriter 0 (type_crc_ w))) by (split; simpl; [wal_lia|done]).
  destruct (Z.ltb_spec 0 (kBlockSize - block_offset_ w)).
  - destruct (append_appended (replicate (Z.to_nat (kBlockSize - block_offset_ w)) Byte.x00) f Hf)
      as (st & f' & -> & A).
    destruct (ok st) eqn:Ok.
    + by eexists _, _, _.
    + exists st, w, f'. split_and!; [done|done|by split|congruence].
  - eexists _, _, _. split_and!; [done| |done|done].
    replace (Z.to_nat _) with 0%nat by lia. by apply appended_nil.
Qed.


(** One iteration writes one fragment. *)
Lemma fragment_step ptr begin w f :
  writer_ok w → wf_open f →
  let off := block_offset_ w in
  let n := Z.min (Z.of_nat (length ptr)) (avail off) in
  let t := fragment_type begin (Z.of_nat (length ptr) =? n) in
  let frag := take (Z.to_nat n) ptr in
  ∀ fuel, ∃ st w' f',
    appended st (trailer off ++ phys t frag) f f' ∧ writer_ok w' ∧
    (ok st = true → block_offset_ w' = start off + kHeaderSize + n) ∧
    AddRecord_loop (S fuel) ptr begin (w, f) =
      if ok st && (n <? Z.of_nat (length ptr))
      then AddRecord_loop fuel (drop (Z.to_nat n) ptr) false (w', f')
      else Some (st, (w', f')).
Proof.
  intros Hw Hf off n t frag fuel. cbn [AddRecord_loop].
  destruct (SwitchBlock_spec w f Hw Hf) as (st1 & w1 & f1 & E1 & A1 & Hw1 & Hoff1).
  rewrite (bind_eval _ _ _ _ _ E1). fold off in A1, Hoff1.
  pose proof (avail_range off (proj1 Hw)) as Ha.
  destruct (ok st1) eqn:Ok1.
  2:{ exists st1, w1, f1. split_and!; [by apply appended_fail|done|congruence|].
      by rewrite Ok1. }
  specialize (Hoff1 eq_refl). cbv beta zeta iota.
  replace (kBlockSize - block_offset_ w1 - kHeaderSize) with (avail off)
    by (unfold avail; lia).
  replace (if _ <? avail off then _ else _) with n
    by (unfold n; destruct (Z.ltb_spec (Z.of_nat (length ptr)) (avail off)); lia).
  destruct (EmitPhysicalRecord_spec t ptr n w1 f1) as (st2 & f2 & E2 & A2);
    [done|apply A1|lia|].
  fold t. rewrite (bind_eval _ _ _ _ _ E2).
  exists st2, (mkWriter (block_offset_ w1 + (kHeaderSize + n)) (type_crc_ w1)), f2.
  split_and!; [by eapply appended_app| | |].
  - destruct Hw1 as [? Hcrc]. split; simpl; [|done]. unfold avail in *. wal_lia.
  - intros _. cbn [block_offset_]. lia.
  - replace (0 <? Z.of_nat (length ptr) - n) with (n <? Z.of_nat (length ptr));
      [by destruct (ok st2 && _)|].
    destruct (Z.ltb_spec n (Z.of_nat (length ptr))),
      (Z.ltb_spec 0 (Z.of_nat (length ptr) - n)); lia || done.
Qed.

(** Every record has an encoding at every offset. *)
Lemma framed_exists_split begin off data :
  0 ≤ off ≤ kBlockSize →
  (avail off < Z.of_nat (length data) →
   ∃ out off', framed false kBlockSize (drop (Z.to_nat (avail off)) data) out off') →
  ∃ out off', framed begin off data out off'.
Proof.
  intros Hoff Hrest. pose proof (avail_range off Hoff) as Ha.
  destruct (decide (Z.of_nat (length data) ≤ avail off)) as [Hle|Hgt].
  { eexists _, _. by apply framed_end. }
  destruct Hrest as (out & off' & Hf); [lia|].
  eexists _, _. apply framed_cut; [done|lia|done].
Qed.

Lemma framed_exists data begin off : 0 ≤ off ≤ kBlockSize →
  ∃ out off', framed begin off data out off'.
Proof.
  intros Hoff. apply framed_exists_split; [done|]. intros _.
  generalize (drop (Z.to_nat (avail off)) data). clear. intros data.
  remember (length data) as n eqn:Hn. revert data Hn.
  induction n as [n IH] using lt_wf_ind. intros data ->.
  apply framed_exists_split; [wal_lia|]. intros Hlt.
  eapply IH; [|done]. rewrite length_drop.
  assert (avail kBlockSize = kBlockSize - kHeaderSize) by done. wal_lia.
Qed.

Lemma AddRecord_loop_spec fuel ptr begin w f :
  writer_ok w → wf_open f →
  (length ptr + (if decide (block_offset_ w = kBlockSize) then 1 else 2) ≤ fuel)%nat →
  ∃ st w' f' out off',
    AddRecord_loop fuel ptr begin (w, f) = Some (st, (w', f')) ∧
    framed begin (block_offset_ w) ptr out off' ∧
    appended st out f f' ∧ writer_ok w' ∧ (ok st = true → block_offset_ w' = off').
Proof.
  revert ptr begin w f. induction fuel as [|fuel IH]; intros ptr begin w f Hw Hf Hfuel.
  { case_decide; lia. }
  pose proof (avail_range _ (proj1 Hw)) as Ha.
  destruct (fragment_step ptr begin w f Hw Hf fuel) as (st & w1 & f1 & A1 & Hw1 & Hoff1 & ->).
  destruct (Z.ltb_spec (Z.min (Z.of_nat (length ptr)) (avail (block_offset_ w)))
              (Z.of_nat (length ptr))) as [Hlt|Hge].
  - (* more fragments follow *)
    assert (Z.min (Z.of_nat (length ptr)) (avail (block_offset_ w)) =
            avail (block_offset_ w)) as Hmin by lia.
    rewrite Hmin in *. set (a := Z.to_nat (avail (block_offset_ w))) in *.
    destruct (Z.eqb_spec (Z.of_nat (length ptr)) (avail (block_offset_ w))); [lia|].
    replace (fragment_type begin false) with (if begin then kFirstType else kMiddleType)
      in A1 by by destruct begin.
    destruct (ok st) eqn:Ok; simpl.
    + assert (block_offset_ w1 = kBlockSize) as Hfull
        by (rewrite Hoff1 by done; unfold avail; lia).
      destruct (IH (drop a ptr) false w1 f1 Hw1 (proj1 A1)) as
        (st2 & w2 & f2 & out & off' & -> & Hf2 & A2 & Hw2 & Hoff2).
      { rewrite decide_True by done. rewrite length_drop.
        case_decide as E; [|lia].
        assert (a = Z.to_nat (kBlockSize - kHeaderSize)) by (unfold a; by rewrite E).
        wal_lia. }
      rewrite Hfull in Hf2. eexists st2, w2, f2, _, off'. split_and!; [done| | |done|done].
      * apply framed_cut; [apply Hw|lia|done].
      * by eapply appended_app.
    + destruct (framed_exists (drop a ptr) false kBlockSize) as (out & off' & Hf2); [wal_lia|].
      eexists st, w1, f1, _, off'. split_and!; [done| | |done|congruence].
      * apply framed_cut; [apply Hw|lia|done].
      * by apply appended_fail.
  - (* the last fragment *)
    rewrite andb_false_r.
    assert (Z.min (Z.of_nat (length ptr)) (avail (block_offset_ w)) =
            Z.of_nat (length ptr)) as Hmin by lia.
    rewrite Hmin in *. rewrite Z.eqb_refl, Nat2Z.id, take_ge in A1 by lia.
    replace (fragment_type begin true) with (if begin then kFullType else kLastType)
      in A1 by by destruct begin.
    eexists st, w1, f1, _, _. split_and!; [done|apply framed_end; lia|done..].
Qed.


End writer_proofs.

