(* ===== verification/WalReader.v ===== *)
(** * The log reader (src/wal_reader.cc)

    [log::Reader] over any [SequentialFile] and any [Reporter]: the block
    buffer and the parser of [ReadPhysicalRecord], and the reassembly of
    fragments in [ReadRecord].  Proved here: reading terminates on every input,
    a physical record of the format is read back, a torn one is a silent end
    of the log. *)

From S2P Require Import Prelude Status Coding Crc32c Files WalFormat.
Local Open Scope Z_scope.

(** [Reader::Reporter]: the sink of corruption reports, over its state [R]. *)
Class Reporter (R : Type) := report_Corruption : Z → Status → R → R.

(** The fields of [Reader]; [file_] is the file state that the operations are
    run on, and the bytes of [backing_store_] are those [buffer_] shows. *)
Record Reader (R : Type) : Type := mkReader {
  reporter_ : option R;
  eof_ : bool;
  buffer_ : bytes;
}.
Arguments mkReader {R}.
Arguments reporter_ {R}.
Arguments eof_ {R}.
Arguments buffer_ {R}.

Definition Reader_new {R} (reporter : option R) : Reader R := mkReader reporter false [].

(** The result codes outside [RecordType]. *)
Definition kEof : Z := kMaxRecordType + 1.
Definition kBadRecord : Z := kMaxRecordType + 2.

Section reader.
Context {R F : Type} `{Reporter R} `{SequentialFile F}.

Definition ReportDrop (n : Z) (reason : Status) (rd : Reader R) : Reader R :=
  mkReader (report_Corruption n reason <$> reporter_ rd) (eof_ rd) (buffer_ rd).

Definition set_buffer (b : bytes) (rd : Reader R) : Reader R :=
  mkReader (reporter_ rd) (eof_ rd) b.

(** The part of [ReadPhysicalRecord] that parses the record at the start of a
    buffer with at least a header in it. *)
Definition ParsePhysicalRecord (result : bytes) (rd : Reader R) : (Z * bytes) * Reader R :=
  let header := buffer_ rd in
  let size := Z.of_nat (length header) in
  let masked_crc := DecodeFixed32 header in
  let length := Z.lor (byte_to_Z (header !!! 4%nat))
                      (u32 (Z.shiftl (byte_to_Z (header !!! 5%nat)) 8)) in
  let type := byte_to_Z (header !!! 6%nat) in
  if size <? kHeaderSize + length then
    let rd := set_buffer [] rd in
    if negb (eof_ rd)
    then ((kBadRecord, result), ReportDrop size (Corruption (str "bad record length")) rd)
    else ((kEof, result), rd)
  else if (type =? RecordType_value kZeroType) && (length =? 0) then
    ((kBadRecord, result), set_buffer (drop (Z.to_nat kHeaderSize) header) rd)
  else
    let expected_crc := Unmask masked_crc in
    let actual_crc := Value (take (Z.to_nat (1 + length)) (drop 6 header)) in
    if negb (actual_crc =? expected_crc) then
      ((kBadRecord, result),
       ReportDrop size (Corruption (str "checksum mismatch")) (set_buffer [] rd))
    else
      ((type, take (Z.to_nat length) (drop (Z.to_nat kHeaderSize) header)),
       set_buffer (drop (Z.to_nat (kHeaderSize + length)) header) rd).

(** [Reader::ReadPhysicalRecord]: [result] is the caller's fragment, which is
    only overwritten when a record is read. *)
Fixpoint ReadPhysicalRecord_loop (fuel : nat) (result : bytes)
    : M (Reader R * F) (Z * bytes) :=
  match fuel with
  | O => out_of_fuel
  | S fuel => λ '(rd, file),
      if Z.of_nat (length (buffer_ rd)) <? kHeaderSize then
        if eof_ rd then Some ((kEof, result), (set_buffer [] rd, file))
        else
          match Read kBlockSize file with
          | Some ((s, read_result), file) =>
              if negb (ok s) then
                Some ((kEof, result),
                      (ReportDrop kBlockSize s (mkReader (reporter_ rd) true []), file))
              else
                let eof := if Z.of_nat (length read_result) <? kBlockSize
                           then true else eof_ rd in
                ReadPhysicalRecord_loop fuel result
                  (mkReader (reporter_ rd) eof read_result, file)
          | None => None
          end
      else
        let '(res, rd) := ParsePhysicalRecord result rd in Some (res, (rd, file))
  end.

(** After one [Read] the buffer holds a header or the file has ended, so two
    iterations are enough ([ReadPhysicalRecord_total]). *)
Definition ReadPhysicalRecord (result : bytes) : M (Reader R * F) (Z * bytes) :=
  ReadPhysicalRecord_loop 2 result.

Definition report (n : Z) (msg : bytes) : M (Reader R * F) unit :=
  λ '(rd, file), Some (tt, (ReportDrop n (Corruption msg) rd, file)).

(** The loop of [Reader::ReadRecord], with the result of the call, [*record]
    and [*scratch]. *)
Fixpoint ReadRecord_loop (fuel : nat) (scratch : bytes) (in_fragmented_record : bool)
    (fragment : bytes) : M (Reader R * F) (bool * bytes * bytes) :=
  match fuel with
  | O => out_of_fuel
  | S fuel =>
      let* r := ReadPhysicalRecord fragment in
      let record_type := r.1 in
      let fragment := r.2 in
      let size := Z.of_nat (length fragment) in
      let scratch_size := Z.of_nat (length scratch) in
      if record_type =? RecordType_value kFullType then
        let* _ := (if in_fragmented_record
                   then report scratch_size (str "partial record without end(1)")
                   else ret tt) in
        ret (true, fragment, [])
      else if record_type =? RecordType_value kFirstType then
        let* _ := (if in_fragmented_record
                   then report scratch_size (str "partial record without end(2)")
                   else ret tt) in
        ReadRecord_loop fuel fragment true fragment
      else if record_type =? RecordType_value kMiddleType then
        if negb in_fragmented_record then
          let* _ := report size (str "missing start of fragmented record(1)") in
          ReadRecord_loop fuel scratch in_fragmented_record fragment
        else
          ReadRecord_loop fuel (scratch ++ fragment) in_fragmented_record fragment
      else if record_type =? RecordType_value kLastType then
        if negb in_fragmented_record then
          let* _ := report size (str "missing start of fragmented record(2)") in
          ReadRecord_loop fuel scratch in_fragmented_record fragment
        else
          ret (true, scratch ++ fragment, scratch ++ fragment)
      else if record_type =? kEof then
        ret (false, [], if in_fragmented_record then [] else scratch)
      else if record_type =? kBadRecord then
        if in_fragmented_record then
          let* _ := report scratch_size (str "error in middle of record") in
          ReadRecord_loop fuel [] false fragment
        else
          ReadRecord_loop fuel scratch in_fragmented_record fragment
      else
        let* _ := report (size + (if in_fragmented_record then scratch_size else 0))
                    (str "unknown record type") in
        ReadRecord_loop fuel [] false fragment
  end.

(** Every iteration that does not return consumes at least a header, so the
    bytes that are left bound the iterations ([ReadRecord_total]). *)
Definition ReadRecord : M (Reader R * F) (bool * bytes * bytes) := λ '(rd, file),
  ReadRecord_loop (length (buffer_ rd) + sf_bound file + 1) [] false [] (rd, file).

(** [while (reader.ReadRecord(&record, &scratch)) body], the shape of both
    replay loops, with the variables the body updates in [A]. *)
Fixpoint ForEachRecord_loop {A} (fuel : nat) (body : A → bytes → A) (a : A)
    : M (Reader R * F) A :=
  match fuel with
  | O => out_of_fuel
  | S fuel =>
      let* r := ReadRecord in
      let '(more, record, _) := r in
      if (more : bool) then ForEachRecord_loop fuel body (body a record) else ret a
  end.

Definition ForEachRecord {A} (body : A → bytes → A) (a : A) : M (Reader R * F) A :=
  λ '(rd, file), ForEachRecord_loop (length (buffer_ rd) + sf_bound file + 1) body a (rd, file).

End reader.

(** ** Termination *)

Section termination.
Context {R F : Type} `{Reporter R} `{SequentialFileSpec F}.
Implicit Types (rd : Reader R) (f : F).

(** The bytes the reader has not consumed. *)
Definition unread (rd : Reader R) (f : F) : nat := length (buffer_ rd) + length (sf_rest f).

Lemma ParsePhysicalRecord_consumes result rd res rd' :
  kHeaderSize ≤ Z.of_nat (length (buffer_ rd)) →
  ParsePhysicalRecord result rd = (res, rd') →
  (length (buffer_ rd') < length (buffer_ rd))%nat.
Proof.
  intros Hlen. unfold ParsePhysicalRecord, set_buffer, ReportDrop.
  set (len := Z.lor _ _). intros E.
  assert (0 ≤ len).
  { apply Z.lor_nonneg. split; [apply byte_to_Z_range|apply u32_range]. }
  repeat case_match; simplify_eq/=; rewrite ?length_drop; wal_lia.
Qed.

Lemma ReadPhysicalRecord_total result rd f : sf_open f →
  ∃ t frag rd' f',
    ReadPhysicalRecord result (rd, f) = Some ((t, frag), (rd', f')) ∧ sf_open f' ∧
    (t = kEof ∨ (unread rd' f' < unread rd f)%nat).
Proof.
  intros Hf. unfold ReadPhysicalRecord, unread. cbn [ReadPhysicalRecord_loop].
  destruct (Z.ltb_spec (Z.of_nat (length (buffer_ rd))) kHeaderSize) as [Hs|Hl].
  2:{ destruct (ParsePhysicalRecord result rd) as [[t frag] rd'] eqn:E.
      apply ParsePhysicalRecord_consumes in E; [|done].
      eexists _, _, _, _. split_and!; [done..|]. right. lia. }
  destruct (eof_ rd); [eexists _, _, _, _; split_and!; [done..|by left]|].
  destruct (sf_read f kBlockSize Hf) as (st & data & f1 & -> & Hf1 & Hok & _); [wal_lia|].
  destruct (ok st); simpl; [|eexists _, _, _, _; split_and!; [done..|by left]].
  destruct (Hok eq_refl) as [Hdata Hrest].
  assert (length data + length (sf_rest f1) = length (sf_rest f))%nat as Hsum.
  { by rewrite Hrest, Hdata, <-length_app, take_drop. }
  clear Hok Hdata Hrest.
  destruct (Z.ltb_spec (Z.of_nat (length data)) kHeaderSize) as [Hs1|Hl1].
  - assert ((Z.of_nat (length data) <? kBlockSize) = true) as ->
      by (apply Z.ltb_lt; wal_lia).
    eexists _, _, _, _; split_and!; [done..|by left].
  - match goal with |- context [ParsePhysicalRecord result ?r] => set (rd1 := r) end.
    destruct (ParsePhysicalRecord result rd1) as [[t frag] rd'] eqn:E.
    apply ParsePhysicalRecord_consumes in E; [|done]. simpl in E.
    eexists _, _, _, _. split_and!; [done..|]. right. lia.
Qed.

(** Peels the reports of an iteration off and hands its recursive call to the
    induction hypothesis. *)
Ltac read_record_step IH :=
  cbn [bind ret report negb];
  match goal with
  | |- ∃ _ _ _ _ _, ReadRecord_loop _ ?sc ?i ?fr (?r, ?f') = _ ∧ _ =>
      destruct (IH sc i fr r f') as (? & ? & ? & ? & ? & ? & ? & ?);
      [done|unfold unread in *; simpl in *; lia|];
      do 5 eexists; split_and!; [done..|];
      intros; unfold unread in *; simpl in *; intuition lia
  | |- _ => do 5 eexists; split_and!; [done..|intros; unfold unread in *; simpl in *; lia]
  end.

Lemma ReadRecord_loop_total fuel scratch infrag frag rd f :
  sf_open f → (unread rd f < fuel)%nat →
  ∃ b rec sc rd' f',
    ReadRecord_loop fuel scratch infrag frag (rd, f) = Some ((b, rec, sc), (rd', f')) ∧
    sf_open f' ∧ (b = true → (unread rd' f' < unread rd f)%nat).
Proof.
  revert scratch infrag frag rd f.
  induction fuel as [|fuel IH]; intros scratch infrag frag rd f Hf Hfuel; [lia|].
  cbn [ReadRecord_loop].
  destruct (ReadPhysicalRecord_total frag rd f Hf) as (t & frag' & rd1 & f1 & E & Hf1 & Ht).
  rewrite (bind_eval _ _ _ _ _ E). cbn [fst snd].
  destruct (Z.eqb_spec t kEof) as [->|Hne]; [by do 5 eexists|].
  destruct Ht as [|Hlt]; [done|].
  repeat match goal with
  | |- context [(if t =? ?v then _ else _) _] =>
      destruct (t =? v); [by destruct infrag; read_record_step IH|]
  end.
  by read_record_step IH.
Qed.
End termination.

Section more_termination.
Context {R F : Type} `{Reporter R} `{SequentialFileSpec F}.
Implicit Types (rd : Reader R) (f : F).

Lemma ReadRecord_total rd f : sf_open f →
  ∃ b rec sc rd' f', ReadRecord (rd, f) = Some ((b, rec, sc), (rd', f')) ∧
    sf_open f' ∧ (b = true → (unread rd' f' < unread rd f)%nat).
Proof.
  intros Hf. unfold ReadRecord. rewrite (sf_bound_rest f Hf).
  apply ReadRecord_loop_total; [done|]. unfold unread. lia.
Qed.

Lemma ForEachRecord_loop_total {A} (body : A → bytes → A) fuel a rd f :
  sf_open f → (unread rd f < fuel)%nat →
  ∃ a' rd' f', ForEachRecord_loop fuel body a (rd, f) = Some (a', (rd', f')) ∧ sf_open f'.
Proof.
  revert a rd f. induction fuel as [|fuel IH]; intros a rd f Hf Hfuel; [lia|].
  cbn [ForEachRecord_loop].
  destruct (ReadRecord_total rd f Hf) as (b & rec & sc & rd1 & f1 & E & Hf1 & Hlt).
  rewrite (bind_eval _ _ _ _ _ E). destruct b.
  - apply IH; [done|]. specialize (Hlt eq_refl). lia.
  - by eexists _, _, _.
Qed.

(** C30: the replay loop over a log terminates on every file, whatever its
    bytes are and however its reads fail. *)
Theorem ForEachRecord_total {A} (body : A → bytes → A) (a : A) rd f :
  sf_open f →
  ∃ a' rd' f', ForEachRecord body a (rd, f) = Some (a', (rd', f')) ∧ sf_open f'.
Proof.
  intros Hf. unfold ForEachRecord. rewrite (sf_bound_rest f Hf).
  apply ForEachRecord_loop_total; [done|]. unfold unread. lia.
Qed.
End more_termination.

(** ** Reading only reads

    Whatever relation between file states every [Read] respects (other files
    are untouched, say), the whole replay respects. *)

Section read_frame.
Context {R F : Type} `{Reporter R} `{SequentialFileSpec F}.
Context (Rel : F → F → Prop) `{!PreOrder Rel}.
Context (HRead : ∀ n f r f', sf_open f → 0 ≤ n → Read n f = Some (r, f') → Rel f f').
Implicit Types (rd : Reader R) (f : F).

Lemma ReadPhysicalRecord_frame result rd f x rd' f' :
  sf_open f → ReadPhysicalRecord result (rd, f) = Some (x, (rd', f')) →
  sf_open f' ∧ Rel f f'.
Proof.
  intros Hf E. destruct (ReadPhysicalRecord_total result rd f Hf)
    as (t & fr & rd1 & f1 & E1 & Hf1 & _).
  rewrite E1 in E. simplify_eq. split; [done|]. revert E1.
  unfold ReadPhysicalRecord. cbn [ReadPhysicalRecord_loop].
  destruct (Z.of_nat (length (buffer_ rd)) <? kHeaderSize).
  2:{ destruct (ParsePhysicalRecord result rd). by intros [= _ _ ->]. }
  destruct (eof_ rd); [by intros [= _ _ _ ->]|].
  destruct (Read kBlockSize f) as [[[st data] f2]|] eqn:E2; [|done].
  assert (Rel f f2) by (eapply HRead; [done| |done]; wal_lia).
  destruct (negb (ok st)); [by intros [= _ _ _ ->]|]. cbn [buffer_ eof_].
  destruct (Z.ltb_spec (Z.of_nat (length data)) kHeaderSize).
  - destruct (Z.ltb_spec (Z.of_nat (length data)) kBlockSize); [|wal_lia].
    by intros [= _ _ _ ->].
  - match goal with |- context [ParsePhysicalRecord result ?r] =>
      destruct (ParsePhysicalRecord result r) end. by intros [= _ _ ->].
Qed.

Lemma ReadRecord_loop_frame fuel scratch infrag frag rd f x rd' f' :
  sf_open f → ReadRecord_loop fuel scratch infrag frag (rd, f) = Some (x, (rd', f')) →
  sf_open f' ∧ Rel f f'.
Proof.
  revert scratch infrag frag rd f.
  induction fuel as [|fuel IH]; intros scratch infrag frag rd f Hf; [done|].
  cbn [ReadRecord_loop]. intros ([t fr] & [rd1 f1] & E1 & E)%bind_Some.
  destruct (ReadPhysicalRecord_frame _ _ _ _ _ _ Hf E1) as [Hf1 HR1].
  assert (∀ sc i g r, ReadRecord_loop fuel sc i g (r, f1) = Some (x, (rd', f')) →
    sf_open f' ∧ Rel f f') as Hrec.
  { intros sc i g r Er. destruct (IH _ _ _ _ _ Hf1 Er). split; [done|by etrans]. }
  cbn [fst snd] in E.
  repeat match type of E with
  | (if t =? ?v then _ else _) _ = _ =>
      destruct (t =? v); [destruct infrag; cbn [bind ret report negb] in E;
                          solve [by eapply Hrec|by injection E as _ _ <-]|]
  end.
  cbn [bind ret report] in E. by eapply Hrec.
Qed.

Lemma ForEachRecord_frame {A} (body : A → bytes → A) a rd f a' rd' f' :
  sf_open f → ForEachRecord body a (rd, f) = Some (a', (rd', f')) → sf_open f' ∧ Rel f f'.
Proof.
  unfold ForEachRecord. generalize (length (buffer_ rd) + sf_bound f + 1)%nat as fuel.
  intros fuel. revert a rd f. induction fuel as [|fuel IH]; intros a rd f Hf; [done|].
  cbn [ForEachRecord_loop]. intros ([[b rec] sc] & [rd1 f1] & E1 & E)%bind_Some.
  apply ReadRecord_loop_frame in E1 as [Hf1 HR1]; [|done]. destruct b.
  - destruct (IH _ _ _ Hf1 E). split; [done|by etrans].
  - by injection E as _ _ <-.
Qed.
End read_frame.

(** [TestReporter]: the reporter of the test suite, which keeps count. *)
Record TestReporter : Type := mkTestReporter {
  count_ : Z;
  dropped_bytes_ : Z;
  last_message_ : bytes;
}.

#[export] Instance TestReporter_reporter : Reporter TestReporter := λ n status r,
  mkTestReporter (count_ r + 1) (dropped_bytes_ r + n) (message status).

Lemma ForEachRecord_total_witness :
  ∃ a' rd' f',
    ForEachRecord (λ n _, S n) 0%nat
      (Reader_new (Some (mkTestReporter 0 0 [])), mkStringSource (str "not a log at all") 0) =
      Some (a', (rd', f')) ∧ sf_open (S := StringSource) f'.
Proof. apply (ForEachRecord_total (F := StringSource)). split; vm_compute; discriminate. Defined.

(** ** Reading the format back *)

(** The two length bytes of a header hold any payload length of a block. *)
Lemma length_bytes n : 0 ≤ n < 65536 →
  Z.lor (byte_to_Z (byte_of_Z (Z.land n 0xff)))
        (u32 (Z.shiftl (byte_to_Z (byte_of_Z (Z.land (Z.shiftr n 8) 0xff))) 8)) = n.
Proof.
  intros Hn. rewrite !land_ff, Z.shiftr_div_pow2, !byte_to_of_Z by lia.
  change 256 with (2 ^ 8). rewrite !Zmod_mod.
  rewrite u32_small by (rewrite Z.shiftl_mul_pow2 by lia; lia_dm).
  rewrite lor_shiftl_add by lia_dm. lia_dm.
Qed.

Lemma RecordType_byte t : byte_to_Z (byte_of_Z (RecordType_value t)) = RecordType_value t.
Proof. by destruct t. Qed.

(** What the parser extracts from a buffer that starts with a header. *)
Lemma phys_fields t pl rest :
  Z.of_nat (length pl) ≤ kBlockSize →
  let header := phys_header t pl ++ rest in
  DecodeFixed32 header = Mask (Value (byte_of_Z (RecordType_value t) :: pl)) ∧
  Z.lor (byte_to_Z (header !!! 4%nat)) (u32 (Z.shiftl (byte_to_Z (header !!! 5%nat)) 8)) =
    Z.of_nat (length pl) ∧
  byte_to_Z (header !!! 6%nat) = RecordType_value t ∧
  drop 6 header = byte_of_Z (RecordType_value t) :: rest ∧
  drop (Z.to_nat kHeaderSize) header = rest.
Proof.
  intros Hl header. split_and!; [| |apply RecordType_byte|done|done].
  - unfold header, phys_header. rewrite <-app_assoc.
    apply DecodeFixed32_Encode_app, Mask_range.
  - apply length_bytes. wal_lia.
Qed.

Section parse.
Context {R : Type} `{Reporter R}.
Implicit Types (rd : Reader R).

Lemma ParsePhysicalRecord_phys t pl tail result rd :
  t ≠ kZeroType → Z.of_nat (length pl) ≤ kBlockSize →
  buffer_ rd = phys t pl ++ tail →
  ParsePhysicalRecord result rd = ((RecordType_value t, pl), set_buffer tail rd).
Proof.
  intros Ht Hl Hb. unfold ParsePhysicalRecord. rewrite Hb.
  unfold phys. rewrite <-app_assoc.
  destruct (phys_fields t pl (pl ++ tail) Hl) as (-> & -> & -> & -> & Hd).
  rewrite !length_app, phys_header_length.
  destruct (Z.ltb_spec (Z.of_nat (7 + (length pl + length tail)))
              (kHeaderSize + Z.of_nat (length pl))); [wal_lia|].
  replace (RecordType_value t =? RecordType_value kZeroType) with false by by destruct t.
  simpl (false && _).
  replace (Z.to_nat (1 + Z.of_nat (length pl))) with (S (length pl)) by lia.
  rewrite firstn_cons, take_app_length, Unmask_Mask by apply Value_range.
  rewrite Z.eqb_refl, Hd, Nat2Z.id, take_app_length. simpl negb. cbv iota.
  replace (Z.to_nat (kHeaderSize + Z.of_nat (length pl)))
    with (length (phys_header t pl) + length pl)%nat by (rewrite phys_header_length; wal_lia).
  by rewrite app_assoc, <-length_app, drop_app_length.
Qed.

(** A record whose payload was altered inside four consecutive bytes. *)
Lemma ParsePhysicalRecord_corrupt t p w1 w2 q tail result rd :
  t ≠ kZeroType → Z.of_nat (length (p ++ w1 ++ q)) ≤ kBlockSize →
  length w1 = length w2 → (length w1 ≤ 4)%nat → w1 ≠ w2 →
  buffer_ rd = (phys_header t (p ++ w1 ++ q) ++ (p ++ w2 ++ q)) ++ tail →
  ParsePhysicalRecord result rd =
    ((kBadRecord, result),
     ReportDrop (Z.of_nat (length (buffer_ rd))) (Corruption (str "checksum mismatch"))
       (set_buffer [] rd)).
Proof.
  intros Ht Hl Hw H4 Hne Hb. unfold ParsePhysicalRecord. rewrite Hb, <-app_assoc.
  set (pl2 := p ++ w2 ++ q).
  assert (length pl2 = length (p ++ w1 ++ q)) as Hlen
    by (unfold pl2; rewrite !length_app; lia).
  destruct (phys_fields t (p ++ w1 ++ q) (pl2 ++ tail) Hl) as (-> & -> & -> & -> & _).
  rewrite <-Hlen. rewrite !(length_app _ (_ ++ _)), phys_header_length, length_app.
  destruct (Z.ltb_spec (Z.of_nat (7 + (length pl2 + length tail)))
              (kHeaderSize + Z.of_nat (length pl2))); [wal_lia|].
  replace (RecordType_value t =? RecordType_value kZeroType) with false by by destruct t.
  simpl (false && _). cbv iota.
  replace (Z.to_nat (1 + Z.of_nat (length pl2))) with (S (length pl2)) by lia.
  rewrite firstn_cons, take_app_length, Unmask_Mask by apply Value_range.
  destruct (Z.eqb_spec (Value (byte_of_Z (RecordType_value t) :: pl2))
              (Value (byte_of_Z (RecordType_value t) :: p ++ w1 ++ q))) as [E|_]; [|done].
  exfalso. revert E. unfold pl2. rewrite !app_comm_cons. apply burst_detected; [lia..|].
  by apply not_eq_sym.
Qed.

(** A header whose payload runs past the last block is a torn record. *)
Lemma ParsePhysicalRecord_torn t pl u result rd :
  Z.of_nat (length pl) ≤ kBlockSize →
  buffer_ rd = u → u `prefix_of` phys t pl → (length u < length (phys t pl))%nat →
  kHeaderSize ≤ Z.of_nat (length u) → eof_ rd = true →
  ParsePhysicalRecord result rd = ((kEof, result), set_buffer [] rd).
Proof.
  intros Hl Hb [rest Hu] Hlt Hge Heof. unfold ParsePhysicalRecord. rewrite Hb.
  destruct (prefix_of_app_cases u (phys_header t pl) pl) as [[_ Hs]|(q & -> & _)].
  { by exists rest. }
  { rewrite phys_header_length in Hs. wal_lia. }
  destruct (phys_fields t pl q Hl) as (_ & -> & _ & _ & _).
  unfold phys in Hlt. rewrite !length_app, phys_header_length in *.
  destruct (Z.ltb_spec (Z.of_nat (7 + length q)) (kHeaderSize + Z.of_nat (length pl)));
    [|wal_lia].
  simpl. by rewrite Heof.
Qed.
End parse.

(** C24: a physical record in the reader's buffer whose payload was altered
    inside four consecutive bytes is never delivered: [ReadPhysicalRecord]
    returns [kBadRecord], reports a checksum mismatch for what was buffered of
    the block and drops it. *)
Theorem corrupt_record_detected {R F} `{Reporter R} `{SequentialFile F}
    t p w1 w2 q tail result (rd : Reader R) (f : F) :
  t ≠ kZeroType → Z.of_nat (length (p ++ w1 ++ q)) ≤ kBlockSize →
  length w1 = length w2 → (length w1 ≤ 4)%nat → w1 ≠ w2 →
  buffer_ rd = (phys_header t (p ++ w1 ++ q) ++ (p ++ w2 ++ q)) ++ tail →
  ReadPhysicalRecord result (rd, f) =
    Some ((kBadRecord, result),
          (ReportDrop (Z.of_nat (length (buffer_ rd))) (Corruption (str "checksum mismatch"))
             (set_buffer [] rd), f)).
Proof.
  intros Ht Hl Hw H4 Hne Hb. unfold ReadPhysicalRecord. cbn [ReadPhysicalRecord_loop].
  rewrite (ParsePhysicalRecord_corrupt t p w1 w2 q tail) by done.
  destruct (Z.ltb_spec (Z.of_nat (length (buffer_ rd))) kHeaderSize) as [Hs|]; [|done].
  rewrite Hb, !length_app, phys_header_length in Hs. wal_lia.
Qed.

Lemma corrupt_record_detected_witness :
  let rd := mkReader (Some (mkTestReporter 0 0 [])) true
              ((phys_header kFullType (str "k" ++ str "eep" ++ str "-me")
                ++ (str "k" ++ str "eXp" ++ str "-me")) ++ []) in
  ReadPhysicalRecord [] (rd, mkStringSource [] 0) =
    Some ((kBadRecord, []),
          (ReportDrop (Z.of_nat (length (buffer_ rd))) (Corruption (str "checksum mismatch"))
             (set_buffer [] rd), mkStringSource [] 0)).
Proof.
  apply (corrupt_record_detected kFullType (str "k") (str "eep") (str "eXp") (str "-me") []).
  - discriminate.
  - vm_compute. discriminate.
  - reflexivity.
  - simpl. lia.
  - discriminate.
  - reflexivity.
Defined.
