(* ===== verification/WalRecovery.v ===== *)
(** * Writer to reader: what a log gives back

    The reader is proved against the format: positioned at the start of an
    encoded record it returns the record and moves to its end, and positioned
    before a torn record it reports a clean end.  Together with the writer's
    theorem this gives the round trip of the log and its behaviour after a
    crash that cuts the file anywhere. *)

From S2P Require Import Prelude Status Coding Crc32c Files WalFormat WalWriter WalReader.
Local Open Scope Z_scope.

Section recovery.
Context {R F : Type} `{Reporter R} `{SequentialFileSpec F}.
Implicit Types (rd : Reader R) (f : F).

(** [reader_at off u rd f]: the bytes the reader has not consumed are [u], and
    they start at offset [off] of a block. *)
Definition reader_at (off : Z) (u : bytes) (rd : Reader R) (f : F) : Prop :=
  sf_open f ∧ sf_reliable f ∧
  if eof_ rd
  then u = buffer_ rd ∧ Z.of_nat (length u) ≤ (kBlockSize - off) mod kBlockSize
  else u = buffer_ rd ++ sf_rest f ∧
       Z.of_nat (length (buffer_ rd)) = (kBlockSize - off) mod kBlockSize.

Lemma reader_at_new (r : option R) f :
  sf_open f → sf_reliable f → reader_at 0 (sf_rest f) (Reader_new r) f.
Proof. done. Qed.

Lemma reader_at_wrap off u rd f :
  reader_at (off mod kBlockSize) u rd f ↔ reader_at off u rd f.
Proof.
  unfold reader_at. by rewrite Zminus_mod_idemp_r.
Qed.

Lemma reader_at_unread off u rd f :
  reader_at off u rd f → (length u ≤ unread rd f)%nat.
Proof.
  intros (_ & _ & Hu). unfold unread. destruct (eof_ rd), Hu as [-> _];
    rewrite ?length_app; lia.
Qed.

Lemma block_rest off : 0 ≤ off ≤ kBlockSize →
  (kBlockSize - off) mod kBlockSize = 0 ∧ (off = 0 ∨ off = kBlockSize) ∨
  (kBlockSize - off) mod kBlockSize = kBlockSize - off ∧ 0 < off < kBlockSize.
Proof.
  intros Hoff. destruct (decide (off = 0)) as [->|]; [left; by split; [|left]|].
  destruct (decide (off = kBlockSize)) as [->|]; [left; by split; [|right]|].
  right. split; [|lia]. apply Z.mod_small. lia.
Qed.

Lemma trailer_cases off : 0 ≤ off ≤ kBlockSize →
  (trailer off = [] ∧ start off = off ∧ off ≤ kBlockSize - kHeaderSize) ∨
  (Z.of_nat (length (trailer off)) = (kBlockSize - off) mod kBlockSize ∧ start off = 0 ∧
   kBlockSize - kHeaderSize < off).
Proof.
  intros Hoff. unfold trailer, start.
  destruct (Z.ltb_spec (kBlockSize - off) kHeaderSize); [right|left; split_and!; [done..|lia]].
  rewrite length_replicate, Z2Nat.id by lia. rewrite Z.mod_small; wal_lia.
Qed.

(** When the buffer is too short for a header, the unread bytes are the rest
    of a trailer (or nothing) and a fresh block starts with the file's next
    byte. *)
Lemma fresh_block off u rd f :
  0 ≤ off ≤ kBlockSize → reader_at off u rd f → eof_ rd = false →
  Z.of_nat (length (buffer_ rd)) < kHeaderSize →
  length (buffer_ rd) = length (trailer off) ∧ start off = 0.
Proof.
  intros Hoff (_ & _ & Hu) Heof Hs. rewrite Heof in Hu. destruct Hu as [_ Hb].
  destruct (trailer_cases off Hoff) as [(-> & -> & Hle)|(Ht & -> & Hlt)]; [|lia].
  destruct (block_rest off Hoff) as [[E [->| ->]]|[E Hr]]; simpl; wal_lia.
Qed.

(** When the buffer holds a header, the next physical record is in it. *)
Lemma same_block off u rd f :
  0 ≤ off ≤ kBlockSize → reader_at off u rd f →
  kHeaderSize ≤ Z.of_nat (length (buffer_ rd)) →
  trailer off = [] ∧ start off = off ∧
  (eof_ rd = true ∨ Z.of_nat (length (buffer_ rd)) = kBlockSize - off).
Proof.
  intros Hoff (_ & _ & Hu) Hs.
  assert (Z.of_nat (length (buffer_ rd)) ≤ (kBlockSize - off) mod kBlockSize) as Hle.
  { destruct (eof_ rd), Hu as [? ?]; [by subst|lia]. }
  destruct (trailer_cases off Hoff) as [(-> & -> & Ho)|(Ht & -> & Ho)].
  - split_and!; [done..|]. destruct (eof_ rd); [by left|right].
    destruct Hu as [_ ->]. destruct (block_rest off Hoff) as [[E _]|[E _]]; wal_lia.
  - exfalso. destruct (block_rest off Hoff) as [[E _]|[E _]]; wal_lia.
Qed.

(** The first pass of [ReadPhysicalRecord] over an exhausted buffer. *)
Lemma ReadPhysicalRecord_refill result rd f :
  sf_open f → sf_reliable f → eof_ rd = false →
  Z.of_nat (length (buffer_ rd)) < kHeaderSize →
  ∃ data f', data = take (Z.to_nat kBlockSize) (sf_rest f) ∧
    sf_rest f' = drop (Z.to_nat kBlockSize) (sf_rest f) ∧ sf_open f' ∧ sf_reliable f' ∧
    ReadPhysicalRecord result (rd, f) =
    ReadPhysicalRecord_loop 1 result
      (mkReader (reporter_ rd) (Z.of_nat (length data) <? kBlockSize) data, f').
Proof.
  intros Hf Hrel Heof Hs.
  destruct (sf_read f kBlockSize Hf) as (st & data & f' & E & Hf' & Hok & Hr); [wal_lia|].
  destruct (Hr Hrel) as [Ok Hrel']. destruct (Hok Ok) as [Hd Hrest].
  exists data, f'. split_and!; [done..|].
  unfold ReadPhysicalRecord.
  change (ReadPhysicalRecord_loop 2 result) with
    (λ s : Reader R * F, ReadPhysicalRecord_loop 2 result s).
  cbn [ReadPhysicalRecord_loop]. apply Z.ltb_lt in Hs as ->. rewrite Heof, E, Ok.
  simpl negb. cbv iota. by destruct (Z.of_nat (length data) <? kBlockSize).
Qed.

Lemma ReadPhysicalRecord_loop_buffered fuel result rd f :
  kHeaderSize ≤ Z.of_nat (length (buffer_ rd)) →
  ReadPhysicalRecord_loop (S fuel) result (rd, f) =
  Some ((ParsePhysicalRecord result rd).1, ((ParsePhysicalRecord result rd).2, f)).
Proof.
  intros Hl%Z.ltb_ge. cbn [ReadPhysicalRecord_loop]. rewrite Hl.
  by destruct (ParsePhysicalRecord result rd).
Qed.

Lemma block_rest_after off n : 0 ≤ off → 0 < n → off + n ≤ kBlockSize →
  (kBlockSize - (off + n)) mod kBlockSize = kBlockSize - (off + n).
Proof. intros. apply Z.mod_small. lia. Qed.

(** What reading the physical record [phys t pl] at [off] gives. *)
Definition item_read (off : Z) (t : RecordType) (pl tail result : bytes)
    (rd : Reader R) (f : F) : Prop :=
  ∃ rd' f',
    ReadPhysicalRecord result (rd, f) = Some ((RecordType_value t, pl), (rd', f')) ∧
    reader_at (start off + kHeaderSize + Z.of_nat (length pl)) tail rd' f' ∧
    reporter_ rd' = reporter_ rd.

Lemma item_buffered off t pl tail result rd f :
  0 ≤ off ≤ kBlockSize → Z.of_nat (length pl) ≤ avail off → t ≠ kZeroType →
  reader_at off ((trailer off ++ phys t pl) ++ tail) rd f →
  kHeaderSize ≤ Z.of_nat (length (buffer_ rd)) →
  item_read off t pl tail result rd f.
Proof.
  intros Hoff Hpl Ht Hat Hl. pose proof Hat as (Hf & Hrel & Hu).
  pose proof (phys_length t pl) as Hphys.
  destruct (same_block _ _ _ _ Hoff Hat Hl) as (Htr & Hst & Hcase).
  unfold item_read, avail in *. rewrite Htr, Hst, app_nil_l in *.
  assert (∃ tail1, buffer_ rd = phys t pl ++ tail1 ∧
            tail = tail1 ++ (if eof_ rd then [] else sf_rest f)) as (tail1 & Hb & Htail).
  { destruct (eof_ rd); [exists tail; rewrite app_nil_r; by destruct Hu|].
    destruct Hcase as [|Hlen]; [done|]. destruct Hu as [Hu _].
    apply (app_eq_le _ _ _ _ Hu). wal_lia. }
  unfold ReadPhysicalRecord. rewrite ReadPhysicalRecord_loop_buffered by done.
  rewrite (ParsePhysicalRecord_phys t pl tail1) by (done || wal_lia).
  eexists _, _. split_and!; [done| |done]. split_and!; [done..|]. simpl.
  rewrite <-Z.add_assoc, block_rest_after by wal_lia.
  rewrite Hb, !length_app in *. destruct (eof_ rd).
  - rewrite app_nil_r in Htail. subst tail1. split; [done|]. destruct Hu as [_ Hu].
    destruct (block_rest off Hoff) as [[E _]|[E _]]; wal_lia.
  - split; [done|]. destruct Hcase as [|Hlen]; [done|]. lia.
Qed.

Lemma item_refill off t pl tail result rd f :
  0 ≤ off ≤ kBlockSize → Z.of_nat (length pl) ≤ avail off → t ≠ kZeroType →
  reader_at off ((trailer off ++ phys t pl) ++ tail) rd f →
  Z.of_nat (length (buffer_ rd)) < kHeaderSize →
  item_read off t pl tail result rd f.
Proof.
  intros Hoff Hpl Ht Hat Hs. pose proof Hat as (Hf & Hrel & Hu).
  pose proof (phys_length t pl) as Hphys. pose proof (start_range off Hoff).
  rewrite <-app_assoc in Hu. unfold item_read, avail in *. destruct (eof_ rd) eqn:Heof.
  { destruct Hu as [Hu _]. rewrite <-Hu, !length_app in Hs. lia. }
  destruct (fresh_block _ _ _ _ Hoff Hat Heof Hs) as [Hb Hst].
  destruct Hu as [Hu _]. apply app_inj_1 in Hu as [_ Hu]; [|done].
  destruct (ReadPhysicalRecord_refill result rd f Hf Hrel Heof Hs)
    as (data & f' & Hd & Hrest & Hf' & Hrel' & ->).
  rewrite <-Hu in Hd, Hrest.
  assert (∃ tail1, data = phys t pl ++ tail1 ∧ tail = tail1 ++ sf_rest f')
    as (tail1 & Hdata & Htail).
  { apply (app_eq_le _ tail data (sf_rest f')).
    - by rewrite Hd, Hrest, take_drop.
    - rewrite Hd, length_take, length_app. wal_lia. }
  assert (length data ≤ Z.to_nat kBlockSize)%nat as Hle by (rewrite Hd, length_take; lia).
  assert (length data < Z.to_nat kBlockSize → sf_rest f' = [])%nat as Hshort.
  { rewrite Hd, Hrest, length_take. intros. apply drop_ge. lia. }
  clear Hd Hrest. rewrite ReadPhysicalRecord_loop_buffered
    by (simpl; rewrite Hdata, length_app; lia).
  rewrite (ParsePhysicalRecord_phys t pl tail1) by (done || wal_lia).
  eexists _, _. split_and!; [done| |done]. split_and!; [done..|]. simpl.
  rewrite Hst, <-Z.add_assoc, block_rest_after by wal_lia.
  rewrite Hdata, length_app in *.
  destruct (Z.ltb_spec (Z.of_nat (length (phys t pl) + length tail1)) kBlockSize) as [E|E].
  - rewrite Hshort, app_nil_r in Htail by wal_lia. subst tail. split; [done|]. lia.
  - split; [done|]. wal_lia.
Qed.

(** A physical record of the format is read back, without a report. *)
Lemma ReadPhysicalRecord_item off t pl tail result rd f :
  0 ≤ off ≤ kBlockSize → Z.of_nat (length pl) ≤ avail off → t ≠ kZeroType →
  reader_at off ((trailer off ++ phys t pl) ++ tail) rd f →
  item_read off t pl tail result rd f.
Proof.
  intros. destruct (decide (kHeaderSize ≤ Z.of_nat (length (buffer_ rd)))).
  - by apply item_buffered.
  - apply item_refill; [done..|lia].
Qed.

(** A torn physical record is a clean end of the log. *)
Lemma ReadPhysicalRecord_torn off t pl u result rd f :
  0 ≤ off ≤ kBlockSize → Z.of_nat (length pl) ≤ avail off →
  u `prefix_of` trailer off ++ phys t pl →
  (length u < length (trailer off ++ phys t pl))%nat →
  reader_at off u rd f →
  ∃ rd' f', ReadPhysicalRecord result (rd, f) = Some ((kEof, result), (rd', f')) ∧
    reporter_ rd' = reporter_ rd.
Proof.
  intros Hoff Hpl Hpre Hlt Hat. pose proof Hat as (Hf & Hrel & Hu).
  pose proof (start_range off Hoff). pose proof (phys_length t pl) as Hphys.
  unfold avail in Hpl.
  destruct (decide (kHeaderSize ≤ Z.of_nat (length (buffer_ rd)))) as [Hl|Hs%Z.nle_gt].
  - destruct (same_block _ _ _ _ Hoff Hat Hl) as (Htr & Hst & Hcase).
    rewrite Htr, Hst, app_nil_l in *. destruct (eof_ rd) eqn:Heof.
    + destruct Hu as [-> _].
      unfold ReadPhysicalRecord. rewrite ReadPhysicalRecord_loop_buffered by done.
      rewrite (ParsePhysicalRecord_torn t pl (buffer_ rd)) by (done || wal_lia).
      by eexists _, _.
    + destruct Hcase as [|Hlen]; [done|]. destruct Hu as [-> _].
      rewrite length_app in Hlt. wal_lia.
  - destruct (eof_ rd) eqn:Heof.
    { unfold ReadPhysicalRecord. cbn [ReadPhysicalRecord_loop].
      apply Z.ltb_lt in Hs as ->. rewrite Heof. by eexists _, _. }
    destruct (fresh_block _ _ _ _ Hoff Hat Heof Hs) as [Hb Hst].
    destruct Hu as [Hu _]. subst u. destruct Hpre as [k Hk].
    rewrite <-app_assoc in Hk. apply app_inj_1 in Hk as [Htr Hk]; [|done].
    rewrite length_app, <-Htr, length_app in Hlt.
    destruct (ReadPhysicalRecord_refill result rd f Hf Hrel Heof Hs)
      as (data & f' & Hd & _ & _ & _ & ->).
    rewrite take_ge in Hd by wal_lia. subst data.
    destruct (decide (kHeaderSize ≤ Z.of_nat (length (sf_rest f)))) as [Hl'|Hs'%Z.nle_gt].
    + rewrite ReadPhysicalRecord_loop_buffered by done.
      rewrite (ParsePhysicalRecord_torn t pl (sf_rest f));
        [by eexists _, _|wal_lia|done|by exists k|lia|done|apply Z.ltb_lt; wal_lia].
    + cbn [ReadPhysicalRecord_loop buffer_ eof_]. apply Z.ltb_lt in Hs' as ->.
      replace (Z.of_nat (length (sf_rest f)) <? kBlockSize) with true
        by (symmetry; apply Z.ltb_lt; wal_lia).
      by eexists _, _.
Qed.

(** *** Logical records *)

Lemma framed_nonempty begin off data out off' :
  framed begin off data out off' → (0 < length out)%nat.
Proof.
  intros Hf. inversion Hf; subst; rewrite !length_app;
    match goal with |- context [phys ?t ?d] => pose proof (phys_length t d) end; wal_lia.
Qed.

(** One iteration of the loop on a physical record that is there. *)
Lemma ReadRecord_loop_item fuel scratch infrag fragment off t pl tail rd f :
  0 ≤ off ≤ kBlockSize → Z.of_nat (length pl) ≤ avail off → t ≠ kZeroType →
  reader_at off ((trailer off ++ phys t pl) ++ tail) rd f →
  ∃ rd' f',
    reader_at (start off + kHeaderSize + Z.of_nat (length pl)) tail rd' f' ∧
    reporter_ rd' = reporter_ rd ∧
    (t = kFullType → infrag = false →
     ReadRecord_loop (S fuel) scratch infrag fragment (rd, f) =
       Some ((true, pl, []), (rd', f'))) ∧
    (t = kFirstType → infrag = false →
     ReadRecord_loop (S fuel) scratch infrag fragment (rd, f) =
       ReadRecord_loop fuel pl true pl (rd', f')) ∧
    (t = kMiddleType → infrag = true →
     ReadRecord_loop (S fuel) scratch infrag fragment (rd, f) =
       ReadRecord_loop fuel (scratch ++ pl) true pl (rd', f')) ∧
    (t = kLastType → infrag = true →
     ReadRecord_loop (S fuel) scratch infrag fragment (rd, f) =
       Some ((true, scratch ++ pl, scratch ++ pl), (rd', f'))).
Proof.
  intros Hoff Hpl Ht Hat.
  destruct (ReadPhysicalRecord_item off t pl tail fragment rd f Hoff Hpl Ht Hat)
    as (rd' & f' & E & Hat' & Hrep).
  exists rd', f'. cbn [ReadRecord_loop]. rewrite (bind_eval _ _ _ _ _ E).
  split_and!; [done|done|..]; intros -> ->; done.
Qed.

Lemma ReadRecord_loop_framed begin off data out off' :
  framed begin off data out off' → 0 ≤ off ≤ kBlockSize →
  ∀ fuel scratch fragment tail rd f,
  reader_at off (out ++ tail) rd f → (length out ≤ fuel)%nat →
  ∃ sc rd' f',
    ReadRecord_loop fuel scratch (negb begin) fragment (rd, f) =
      Some ((true, if begin then data else scratch ++ data, sc), (rd', f')) ∧
    reader_at off' tail rd' f' ∧ reporter_ rd' = reporter_ rd.
Proof.
  induction 1 as [b off data Hl|b off d1 d2 out off' Hl Hd Hf IH];
    intros Hoff fuel scratch fragment tail rd f Hat Hfuel.
  - pose proof (phys_length (if b then kFullType else kLastType) data).
    rewrite length_app in Hfuel. destruct fuel as [|fuel]; [wal_lia|].
    destruct (ReadRecord_loop_item fuel scratch (negb b) fragment off
                (if b then kFullType else kLastType) data tail rd f
                Hoff Hl ltac:(by destruct b) Hat)
      as (rd' & f' & Hat' & Hrep & HF & _ & _ & HL).
    destruct b; [exists []|exists (scratch ++ data)]; exists rd', f';
      (split_and!; [|done|done]); [by rewrite HF|by rewrite HL].
  - pose proof (phys_length (if b then kFirstType else kMiddleType) d1).
    rewrite !length_app in Hfuel. destruct fuel as [|fuel]; [wal_lia|].
    rewrite <-app_assoc in Hat.
    destruct (ReadRecord_loop_item fuel scratch (negb b) fragment off
                (if b then kFirstType else kMiddleType) d1 (out ++ tail) rd f
                Hoff ltac:(lia) ltac:(by destruct b) Hat)
      as (rd1 & f1 & Hat1 & Hrep1 & _ & HF & HM & _).
    rewrite Hl in Hat1. unfold avail in Hat1.
    replace (start off + _ + _) with kBlockSize in Hat1 by lia.
    destruct (IH ltac:(wal_lia) fuel (if b then d1 else scratch ++ d1) d1 tail rd1 f1 Hat1)
      as (sc & rd' & f' & E & Hat' & Hrep'); [wal_lia|].
    exists sc, rd', f'. split_and!; [|done|by rewrite Hrep', Hrep1].
    destruct b; [rewrite HF by done|rewrite HM by done]; simpl in E; rewrite E;
      by rewrite ?app_assoc.
Qed.

(** *** Torn logical records *)

Lemma ReadRecord_loop_torn_item fuel scratch infrag fragment off t pl u rd f :
  0 ≤ off ≤ kBlockSize → Z.of_nat (length pl) ≤ avail off →
  u `prefix_of` trailer off ++ phys t pl →
  (length u < length (trailer off ++ phys t pl))%nat →
  reader_at off u rd f →
  ∃ sc rd' f',
    ReadRecord_loop (S fuel) scratch infrag fragment (rd, f) =
      Some ((false, [], sc), (rd', f')) ∧ reporter_ rd' = reporter_ rd.
Proof.
  intros Hoff Hpl Hpre Hlt Hat.
  destruct (ReadPhysicalRecord_torn off t pl u fragment rd f Hoff Hpl Hpre Hlt Hat)
    as (rd' & f' & E & Hrep).
  cbn [ReadRecord_loop]. rewrite (bind_eval _ _ _ _ _ E). by eexists _, rd', f'.
Qed.

Lemma ReadRecord_loop_torn begin off data out off' :
  framed begin off data out off' → 0 ≤ off ≤ kBlockSize →
  ∀ fuel scratch fragment u rd f,
  u `prefix_of` out → (length u < length out)%nat →
  reader_at off u rd f → (length u < fuel)%nat →
  ∃ sc rd' f',
    ReadRecord_loop fuel scratch (negb begin) fragment (rd, f) =
      Some ((false, [], sc), (rd', f')) ∧ reporter_ rd' = reporter_ rd.
Proof.
  induction 1 as [b off data Hl|b off d1 d2 out off' Hl Hd Hf IH];
    intros Hoff fuel scratch fragment u rd f Hpre Hlt Hat Hfuel;
    (destruct fuel as [|fuel]; [lia|]).
  - by eapply ReadRecord_loop_torn_item.
  - destruct (prefix_of_app_cases _ _ _ Hpre) as [[Hpre1 Hlt1]|(q & -> & Hq)].
    { eapply ReadRecord_loop_torn_item; [done| |done..]. lia. }
    rewrite length_app in Hlt, Hfuel.
    destruct (ReadRecord_loop_item fuel scratch (negb b) fragment off
                (if b then kFirstType else kMiddleType) d1 q rd f
                Hoff ltac:(lia) ltac:(by destruct b) Hat)
      as (rd1 & f1 & Hat1 & Hrep1 & _ & HF & HM & _).
    rewrite Hl in Hat1. unfold avail in Hat1.
    replace (start off + _ + _) with kBlockSize in Hat1 by lia.
    pose proof (phys_length (if b then kFirstType else kMiddleType) d1).
    rewrite !length_app in *.
    destruct (IH ltac:(wal_lia) fuel (if b then d1 else scratch ++ d1) d1 q rd1 f1 Hq
                ltac:(lia) Hat1) as (sc & rd' & f' & E & Hrep'); [wal_lia|].
    exists sc, rd', f'. split; [|by rewrite Hrep', Hrep1].
    destruct b; [rewrite HF by done|rewrite HM by done]; by simpl in E.
Qed.

(** *** Whole logs *)

(** [torn off p]: [p] is what is left of a record whose writing at offset
    [off] was cut, possibly nothing. *)
Definition torn (off : Z) (p : bytes) : Prop :=
  ∃ r out off', framed true off r out off' ∧ p `prefix_of` out ∧ (length p < length out)%nat.

Lemma torn_nil off : 0 ≤ off ≤ kBlockSize → torn off [].
Proof.
  intros Hoff. destruct (framed_exists [] true off Hoff) as (out & off' & Hf).
  exists [], out, off'. split_and!; [done|apply prefix_nil|by eapply framed_nonempty].
Qed.

Lemma ReadRecord_fuel off u rd f :
  reader_at off u rd f → (length u < length (buffer_ rd) + sf_bound f + 1)%nat.
Proof.
  intros Hat. pose proof (reader_at_unread _ _ _ _ Hat) as Hu.
  destruct Hat as (Hf & _). rewrite (sf_bound_rest f Hf). unfold unread in Hu. lia.
Qed.

Lemma ForEachRecord_loop_wal {A} (body : A → bytes → A) off rs c off' p :
  wal off rs c off' → 0 ≤ off ≤ kBlockSize → torn off' p →
  ∀ fuel a rd f, reader_at off (c ++ p) rd f → (length (c ++ p) < fuel)%nat →
  ∃ rd' f', ForEachRecord_loop fuel body a (rd, f) = Some (foldl body a rs, (rd', f')) ∧
    reporter_ rd' = reporter_ rd.
Proof.
  induction 1 as [off|off r out off1 rs c off2 Hf Hw IH]; intros Hoff Hp fuel a rd f Hat Hfuel;
    (destruct fuel as [|fuel]; [lia|]); cbn [ForEachRecord_loop];
    pose proof (ReadRecord_fuel _ _ _ _ Hat) as Hbound.
  - destruct Hp as (r & out & off' & Hf & Hpre & Hlt).
    destruct (ReadRecord_loop_torn _ _ _ _ _ Hf Hoff _ [] [] p rd f Hpre Hlt Hat Hbound)
      as (sc & rd' & f' & E & Hrep).
    rewrite (bind_eval ReadRecord _ (rd, f) _ _ E). by exists rd', f'.
  - rewrite <-app_assoc in Hat, Hfuel, Hbound.
    pose proof (framed_nonempty _ _ _ _ _ Hf). rewrite length_app in Hfuel, Hbound.
    destruct (ReadRecord_loop_framed _ _ _ _ _ Hf Hoff (length (buffer_ rd) + sf_bound f + 1)
                [] [] _ rd f Hat ltac:(lia)) as (sc & rd1 & f1 & E & Hat1 & Hrep1).
    rewrite (bind_eval ReadRecord _ (rd, f) _ _ E). simpl.
    destruct (IH ltac:(apply framed_offset in Hf; [wal_lia|done]) Hp fuel (body a r) rd1 f1 Hat1
                ltac:(lia)) as (rd' & f' & -> & Hrep').
    exists rd', f'. split; [done|]. by rewrite Hrep'.
Qed.

(** The replay loop over a file that holds the log of [rs], followed at most by
    the beginning of one more record, processes exactly [rs] and reports
    nothing. *)
Lemma ForEachRecord_wal {A} (body : A → bytes → A) (a : A) rs c off p (r : option R) f :
  wal 0 rs c off → torn off p →
  sf_open f → sf_reliable f → sf_rest f = c ++ p →
  ∃ rd' f', ForEachRecord body a (Reader_new r, f) = Some (foldl body a rs, (rd', f')) ∧
    reporter_ rd' = r.
Proof.
  intros Hw Hp Hf Hrel Hrest. unfold ForEachRecord. simpl (buffer_ _).
  rewrite (sf_bound_rest f Hf), Hrest. simpl (length []).
  eapply (ForEachRecord_loop_wal body 0 rs c off p Hw ltac:(wal_lia) Hp); [|lia].
  rewrite <-Hrest. by apply reader_at_new.
Qed.
End recovery.

(** ** Logs as the writer leaves them *)

(** A cut through a log leaves the log of its first records and a torn one. *)
Lemma wal_cut off rs c off' u :
  wal off rs c off' → 0 ≤ off ≤ kBlockSize → u `prefix_of` c →
  ∃ k c1 off1 p, u = c1 ++ p ∧ wal off (take k rs) c1 off1 ∧ torn off1 p ∧
    (k ≤ length rs)%nat ∧ (u = c → k = length rs).
Proof.
  intros Hw. revert u. induction Hw as [off|off r out off1 rs c off2 Hf Hw IH]; intros u Hoff Hu.
  - apply prefix_nil_inv in Hu as ->. exists 0%nat, [], off, [].
    split_and!; [done|constructor|by apply torn_nil|simpl; lia|done].
  - pose proof (framed_offset _ _ _ _ _ Hf Hoff) as Hoff1.
    destruct (prefix_of_app_cases _ _ _ Hu) as [[Hpre Hlt]|(q & -> & Hq)].
    + exists 0%nat, [], off, u. split_and!; [done|constructor| |simpl; lia|].
      * by exists r, out, off1.
      * intros ->. rewrite length_app in Hlt. lia.
    + destruct (IH q ltac:(wal_lia) Hq) as (k & c1 & off1' & p & -> & Hw1 & Hp & Hk & Hall).
      exists (S k), (out ++ c1), off1', p. split_and!; [by rewrite app_assoc| |done|simpl; lia|].
      * simpl. by econstructor.
      * intros E%app_inv_head. simpl. f_equal. by apply Hall.
Qed.

Section log_state.
Context {F : Type} `{WritableFileSpec F}.
Implicit Types (w : Writer) (f : F).

(** The file holds the log of [rs] and the writer stands at its end. *)
Definition log_state (w : Writer) (f : F) (rs : list bytes) : Prop :=
  wf_open f ∧ writer_ok w ∧
  ∃ off, wal 0 rs (wf_contents f) off ∧ off mod kBlockSize = block_offset_ w mod kBlockSize.

(** Resuming with the cursor seeded from the length of the file. *)
Lemma log_state_resume f rs off :
  wf_open f → wal 0 rs (wf_contents f) off →
  log_state (Writer_new (Z.of_nat (length (wf_contents f)))) f rs.
Proof.
  intros Hf Hw. split_and!; [done|apply Writer_new_ok|]. exists off. split; [done|].
  simpl. rewrite Zmod_mod. symmetry. apply (wal_mod _ _ _ _ Hw). wal_lia.
Qed.

Lemma AddRecord_log w f rs r :
  log_state w f rs →
  ∃ st w' f', AddRecord r (w, f) = Some (st, (w', f')) ∧ wf_open f' ∧
    wf_durable f `prefix_of` wf_durable f' ∧
    (wf_reliable f → ok st = true ∧ wf_reliable f') ∧
    (ok st = true → log_state w' f' (rs ++ [r])) ∧
    (∃ c off, wal 0 (rs ++ [r]) c off ∧
       wf_contents f `prefix_of` wf_contents f' ∧ wf_contents f' `prefix_of` c).
Proof.
  intros (Hf & Hw & off & Hwal & Hmod).
  destruct (AddRecord_loop_spec (length r + 2) r true w f Hw Hf) as
    (st & w' & f' & out & off' & E & Hfr & (Hf' & Hdur & Hrel & p & Hc & Hpre & Hp) & Hw' & Hoff').
  { case_decide; lia. }
  assert (wal (off mod kBlockSize) [r] out off') as Hr.
  { rewrite Hmod. rewrite <-(app_nil_r out). econstructor; [|constructor].
    by apply (framed_wrap _ _ _ _ _ (proj1 Hw)). }
  destruct (wal_app 0 rs (wf_contents f) off [r] out off' ltac:(wal_lia) Hwal Hr)
    as (off2 & Hwal2 & Hmod2).
  exists st, w', f'. split_and!; [done..| |].
  - intros Ok. split_and!; [done..|]. exists off2. rewrite Hc, (Hp Ok), (Hoff' Ok). done.
  - exists (wf_contents f ++ out), off2. rewrite Hc.
    split_and!; [done|by apply prefix_app_r|by apply prefix_app].
Qed.
End log_state.

(** ** Theorems about logs *)

Section theorems.
Context {W : Type} `{WritableFileSpec W}.
Context {R : Type} `{Reporter R}.
Context {F : Type} `{SequentialFileSpec F}.

(** Writing several records, stopping at the first failure. *)
Fixpoint AddRecords (rs : list bytes) : M (Writer * W) Status :=
  match rs with
  | [] => ret OK
  | r :: rs => let* s := AddRecord r in if ok s then AddRecords rs else ret s
  end.

(** Reading every record of a log. *)
Definition ReadAll : M (Reader R * F) (list bytes) :=
  ForEachRecord (λ l r, l ++ [r]) [].

Lemma foldl_snoc (rs acc : list bytes) : foldl (λ l r, l ++ [r]) acc rs = acc ++ rs.
Proof.
  revert acc. induction rs as [|r rs IH]; intros acc; simpl; [by rewrite app_nil_r|].
  by rewrite IH, <-app_assoc.
Qed.

Lemma AddRecords_log rs w f rs0 :
  log_state w f rs0 →
  ∃ st w' f', AddRecords rs (w, f) = Some (st, (w', f')) ∧
    (ok st = true → log_state w' f' (rs0 ++ rs)).
Proof.
  revert w f rs0. induction rs as [|r rs IH]; intros w f rs0 Hlog.
  - exists OK, w, f. split; [done|]. by rewrite app_nil_r.
  - destruct (AddRecord_log w f rs0 r Hlog) as (st & w1 & f1 & E & _ & _ & _ & Hok & _).
    cbn [AddRecords]. rewrite (bind_eval _ _ _ _ _ E). destruct (ok st) eqn:Ok.
    + destruct (IH w1 f1 (rs0 ++ [r]) (Hok eq_refl)) as (st' & w' & f' & -> & Hlog').
      exists st', w', f'. split; [done|]. by rewrite <-app_assoc in Hlog'.
    + exists st, w1, f1. by rewrite Ok.
Qed.

(** C15: the log round trip, across a restart of the writer.  Opening a writer
    on a file that holds the log of [rs0] (with the cursor seeded from the file
    length, as recovery does) and adding [rs], reading the file from the start
    gives back exactly [rs0 ++ rs], in order, with nothing reported: records of
    any size, split over any number of blocks. *)
Theorem log_roundtrip (f : W) (rs0 rs : list bytes) (off : Z) (reporter : option R) :
  wf_open f → wal 0 rs0 (wf_contents f) off →
  ∃ st w' f',
    AddRecords rs (Writer_new (Z.of_nat (length (wf_contents f))), f) = Some (st, (w', f')) ∧
    (ok st = true →
     ∀ src : F, sf_open src → sf_reliable src → sf_rest src = wf_contents f' →
     ∃ rd' src', ReadAll (Reader_new reporter, src) = Some (rs0 ++ rs, (rd', src')) ∧
       reporter_ rd' = reporter).
Proof.
  intros Hf Hw.
  destruct (AddRecords_log rs _ f rs0 (log_state_resume f rs0 off Hf Hw))
    as (st & w' & f' & E & Hlog).
  exists st, w', f'. split; [done|]. intros Ok src Hsrc Hrel Hrest.
  destruct (Hlog Ok) as (_ & _ & off' & Hw' & _).
  destruct (ForEachRecord_wal (λ l r, l ++ [r]) [] _ _ off' [] reporter src Hw')
    as (rd' & src' & E' & Hrep); [|done|done|by rewrite app_nil_r|].
  { apply torn_nil. eapply wal_offset; [done|wal_lia]. }
  exists rd', src'. unfold ReadAll. by rewrite E', foldl_snoc.
Qed.

(** C14: a crash that cuts the file anywhere.  If the log of [rs1] is durable
    and [rs2] was being added after it, then whatever prefix of the file the
    crash leaves (as long as it keeps the durable part), reading it gives all
    of [rs1] and then some first records of [rs2], with no corruption reported:
    the torn record at the end is dropped silently, and nothing is invented. *)
Theorem log_survives_cut (rs1 rs2 : list bytes) d c off1 off2 u (reporter : option R) (src : F) :
  wal 0 rs1 d off1 → wal 0 (rs1 ++ rs2) c off2 →
  d `prefix_of` u → u `prefix_of` c →
  sf_open src → sf_reliable src → sf_rest src = u →
  ∃ k rd' src', ReadAll (Reader_new reporter, src) = Some (rs1 ++ take k rs2, (rd', src')) ∧
    reporter_ rd' = reporter ∧ (u = c → take k rs2 = rs2).
Proof.
  intros Hd Hc [u2 ->] Hu Hsrc Hrel Hrest.
  destruct (wal_app_inv _ _ _ _ _ Hc) as (d' & c2 & off1' & -> & Hd' & Hc2).
  destruct (wal_fun _ _ _ _ _ _ Hd Hd') as [<- <-]. apply prefix_app_inv in Hu.
  assert (0 ≤ off1 ≤ kBlockSize) as Hoff1 by (eapply wal_offset; [done|wal_lia]).
  destruct (wal_cut _ _ _ _ _ Hc2 Hoff1 Hu) as (k & c1 & off3 & p & -> & Hw1 & Hp & _ & Hall).
  pose proof (wal_concat _ _ _ _ _ _ _ Hd Hw1) as Hw.
  rewrite app_assoc in Hrest.
  destruct (ForEachRecord_wal (λ l r, l ++ [r]) [] _ _ off3 p reporter src Hw Hp Hsrc Hrel Hrest)
    as (rd' & src' & E & Hrep).
  exists k, rd', src'. unfold ReadAll. rewrite E, foldl_snoc. split_and!; [done..|].
  intros E'%app_inv_head. rewrite (Hall E'). by rewrite take_ge.
Qed.
End theorems.

Definition test_reporter : TestReporter := mkTestReporter 0 0 [].

Lemma log_roundtrip_witness :
  ∃ st w' f',
    AddRecords [str "a"; []; str "bb"]
      (Writer_new (Z.of_nat (length (wf_contents (mkStringDest [])))), mkStringDest [])
      = Some (st, (w', f')) ∧
    (ok st = true →
     ∀ src : StringSource, sf_open src → sf_reliable src → sf_rest src = wf_contents f' →
     ∃ rd' src', ReadAll (Reader_new (Some test_reporter), src) =
         Some ([] ++ [str "a"; []; str "bb"], (rd', src')) ∧
       reporter_ rd' = Some test_reporter).
Proof.
  apply (log_roundtrip (F := StringSource) (mkStringDest []) [] [str "a"; []; str "bb"] 0 (Some test_reporter)).
  - exact I.
  - constructor.
Defined.

(** The log of one small record. *)
Definition small_log (r : bytes) : bytes := trailer 0 ++ phys kFullType r.

Lemma small_log_wal r : Z.of_nat (length r) ≤ avail 0 →
  wal 0 [r] (small_log r) (start 0 + kHeaderSize + Z.of_nat (length r)).
Proof.
  intros Hl. rewrite <-(app_nil_r (small_log r)). econstructor; [|constructor].
  by apply (framed_end true).
Qed.

Lemma log_survives_cut_witness :
  ∃ k rd' src',
    ReadAll (Reader_new (Some test_reporter), mkStringSource (take 5 (small_log (str "ab"))) 0)
      = Some ([] ++ take k [str "ab"], (rd', src')) ∧
    reporter_ rd' = Some test_reporter ∧
    (take 5 (small_log (str "ab")) = small_log (str "ab") → take k [str "ab"] = [str "ab"]).
Proof.
  apply (log_survives_cut (F := StringSource) [] [str "ab"] [] (small_log (str "ab")) 0
           (start 0 + kHeaderSize + 2)).
  - constructor.
  - apply (small_log_wal (str "ab")). vm_compute. discriminate.
  - apply prefix_nil.
  - apply take_prefix_of.
  - split; [reflexivity|]. vm_compute. discriminate.
  - exact I.
  - reflexivity.
Defined.
