(* ===== verification/WalDamage.v ===== *)
(** * Damaged logs

    wal_reader.h promises that the reader keeps going after it reports
    corruption, and resynchronizes at the next block boundary.  This file states
    and proves it for arbitrary damage: whatever bytes stand between two parts
    of a log, the second of which starts a block, the reader delivers all
    records of the first part and all records that start in the second.

    The proof follows the two nested loops (over records, over physical records)
    with one predicate, [delivers], which holds of a state of the inner loop and
    the records that both loops deliver from it. *)

From S2P Require Import Prelude Status Coding Crc32c Files WalFormat WalWriter WalReader WalRecovery.
Local Open Scope Z_scope.

(** ** Records of a foreign type *)

(** The bytes of a physical record with any type byte: [phys] is the case of the
    types of the format. *)
Definition raw_record (type : Z) (payload : bytes) : bytes :=
  let length := Z.of_nat (length payload) in
  EncodeFixed32 (Mask (Value (byte_of_Z type :: payload))) ++
  [ byte_of_Z (Z.land length 0xff);
    byte_of_Z (Z.land (Z.shiftr length 8) 0xff);
    byte_of_Z type ] ++ payload.

Lemma phys_raw t payload : phys t payload = raw_record (RecordType_value t) payload.
Proof. unfold phys, phys_header, raw_record. by rewrite <-!app_assoc. Qed.

(** Nowhere in [b] is there a checksummed record whose type is the code that
    [ReadPhysicalRecord] returns at the end of the file. *)
Definition no_end_record (b : bytes) : Prop :=
  ∀ pre payload post, Z.of_nat (length payload) < 2 ^ 16 → b ≠ pre ++ raw_record kEof payload ++ post.

Lemma no_end_record_app b1 b2 : no_end_record (b1 ++ b2) → no_end_record b1 ∧ no_end_record b2.
Proof.
  intros Hn. split; intros pre payload post Hl E.
  - apply (Hn pre payload (post ++ b2) Hl). by rewrite E, <-!app_assoc.
  - apply (Hn (b1 ++ pre) payload post Hl). by rewrite E, <-!app_assoc.
Qed.

(** A checksummed record in front of a buffer has the bytes of [raw_record]. *)
Lemma raw_record_inv b0 b1 b2 b3 b4 b5 b6 p :
  let len := Z.lor (byte_to_Z b4) (u32 (Z.shiftl (byte_to_Z b5) 8)) in
  let payload := take (Z.to_nat len) p in
  len ≤ Z.of_nat (length p) →
  Value (b6 :: payload) = Unmask (DecodeFixed32 [b0; b1; b2; b3]) →
  0 ≤ len < 2 ^ 16 ∧
  b0 :: b1 :: b2 :: b3 :: b4 :: b5 :: b6 :: p =
    raw_record (byte_to_Z b6) payload ++ drop (Z.to_nat len) p.
Proof.
  intros len payload Hle Hcrc. pose proof (byte_to_Z_range b4) as H4. pose proof (byte_to_Z_range b5) as H5.
  assert (len = byte_to_Z b4 + byte_to_Z b5 * 2 ^ 8) as Elen.
  { unfold len. rewrite u32_small by (rewrite Z.shiftl_mul_pow2 by lia; lia).
    by rewrite lor_shiftl_add by lia. }
  split; [lia|]. unfold raw_record. rewrite byte_of_to_Z, Hcrc.
  destruct (mask_roundtrip (DecodeFixed32 [b0; b1; b2; b3]) (DecodeFixed32_range _ _ _ _ _)) as (_ & -> & _).
  rewrite EncodeFixed32_Decode. unfold payload at 1 2. rewrite length_take_le, Z2Nat.id by lia.
  assert (byte_of_Z (Z.land len 255) = b4) as ->.
  { apply byte_to_Z_inj. rewrite byte_to_of_Z, land_ff, Zmod_mod. lia_dm. }
  assert (byte_of_Z (Z.land (Z.shiftr len 8) 255) = b5) as ->.
  { apply byte_to_Z_inj. rewrite byte_to_of_Z, land_ff, Zmod_mod, Z.shiftr_div_pow2 by lia. lia_dm. }
  simpl. unfold payload. by rewrite take_drop.
Qed.

Section damage.
Context {R F : Type} `{Reporter R} `{SequentialFileSpec F}.
Implicit Types (rd : Reader R) (f : F) (s : Reader R * F).

(** Before the end of the file only such a record makes the parser say that the
    file has ended. *)
Lemma ParsePhysicalRecord_not_end result rd res rd' :
  kHeaderSize ≤ Z.of_nat (length (buffer_ rd)) → eof_ rd = false → no_end_record (buffer_ rd) →
  ParsePhysicalRecord result rd = (res, rd') →
  res.1 ≠ kEof ∧ eof_ rd' = false ∧ ∃ k, buffer_ rd' = drop k (buffer_ rd).
Proof.
  intros Hlen Heof Hno. destruct (buffer_ rd) as [|b0 [|b1 [|b2 [|b3 [|b4 [|b5 [|b6 p]]]]]]] eqn:Eb;
    try (simpl in Hlen; wal_lia).
  unfold ParsePhysicalRecord. rewrite Eb. cbv zeta.
  change ((b0 :: b1 :: b2 :: b3 :: b4 :: b5 :: b6 :: p) !!! 4%nat) with b4.
  change ((b0 :: b1 :: b2 :: b3 :: b4 :: b5 :: b6 :: p) !!! 5%nat) with b5.
  change ((b0 :: b1 :: b2 :: b3 :: b4 :: b5 :: b6 :: p) !!! 6%nat) with b6.
  change (drop 6 (b0 :: b1 :: b2 :: b3 :: b4 :: b5 :: b6 :: p)) with (b6 :: p).
  set (len := Z.lor _ _).
  assert (0 ≤ len) by (apply Z.lor_nonneg; split; [apply byte_to_Z_range|apply u32_range]).
  assert (∃ k, [] = drop k (b0 :: b1 :: b2 :: b3 :: b4 :: b5 :: b6 :: p)) as Hnil
    by (exists (7 + length p)%nat; symmetry; apply drop_ge; simpl; lia).
  destruct (Z.ltb_spec (Z.of_nat (length (b0 :: b1 :: b2 :: b3 :: b4 :: b5 :: b6 :: p))) (kHeaderSize + len))
    as [|Hle].
  { cbn [set_buffer eof_]. rewrite Heof. intros [= <- <-]. split_and!; [discriminate|exact Heof|exact Hnil]. }
  destruct (_ && _).
  { intros [= <- <-]. split_and!; [discriminate|exact Heof|]. by exists (Z.to_nat kHeaderSize). }
  destruct (Z.eqb_spec (Value (take (Z.to_nat (1 + len)) (b6 :: p)))
              (Unmask (DecodeFixed32 (b0 :: b1 :: b2 :: b3 :: b4 :: b5 :: b6 :: p)))) as [Hcrc|]; cbn [negb].
  2:{ intros [= <- <-]. split_and!; [discriminate|exact Heof|exact Hnil]. }
  intros [= <- <-]. split_and!; [|exact Heof|by exists (Z.to_nat (kHeaderSize + len))]. simpl. intros Et.
  replace (Z.to_nat (1 + len)) with (S (Z.to_nat len)) in Hcrc by lia.
  rewrite firstn_cons, DecodeFixed32_eq, <-(DecodeFixed32_eq b0 b1 b2 b3 []) in Hcrc.
  destruct (raw_record_inv b0 b1 b2 b3 b4 b5 b6 p) as [Hlen' E]; [simpl in Hle; wal_lia|done|].
  rewrite Et in E. apply (Hno [] _ _) in E; [done|].
  rewrite length_take. fold len in Hlen' |- *. lia.
Qed.

(** ** Both loops from a state of the inner one *)

Definition resume {A} (fuel1 fuel2 : nat) (infrag : bool) (scratch fragment : bytes)
    (body : A → bytes → A) (a : A) : M (Reader R * F) A :=
  let* r := ReadRecord_loop fuel1 scratch infrag fragment in
  let '(more, record, _) := r in
  if (more : bool) then ForEachRecord_loop fuel2 body (body a record) else ret a.

(** The records [xs] are delivered from the state [s] of the reader, in the
    middle of a record when [infrag]. *)
Definition delivers (infrag : bool) (scratch fragment : bytes) s (xs : list bytes) : Prop :=
  ∀ A (body : A → bytes → A) a fuel1 fuel2,
  (unread s.1 s.2 < fuel1)%nat → (unread s.1 s.2 ≤ fuel2)%nat →
  ∃ s', resume fuel1 fuel2 infrag scratch fragment body a s = Some (foldl body a xs, s').

(** The records [ys] are delivered on the way from one state to another. *)
Definition leads_to (infrag : bool) (scratch fragment : bytes) s (ys : list bytes)
    (infrag' : bool) (scratch' fragment' : bytes) s' : Prop :=
  ∀ xs, delivers infrag' scratch' fragment' s' xs → delivers infrag scratch fragment s (ys ++ xs).

Lemma ForEachRecord_resume {A} (body : A → bytes → A) a fuel s : sf_open s.2 →
  ForEachRecord_loop (S fuel) body a s = resume (unread s.1 s.2 + 1) fuel false [] [] body a s.
Proof.
  intros Hf. destruct s as [rd f]. cbn [ForEachRecord_loop]. unfold resume, bind, ReadRecord.
  rewrite (sf_bound_rest f Hf). done.
Qed.

Lemma leads_trans b1 sc1 fr1 s1 ys b2 sc2 fr2 s2 zs b3 sc3 fr3 s3 :
  leads_to b1 sc1 fr1 s1 ys b2 sc2 fr2 s2 → leads_to b2 sc2 fr2 s2 zs b3 sc3 fr3 s3 →
  leads_to b1 sc1 fr1 s1 (ys ++ zs) b3 sc3 fr3 s3.
Proof. intros L1 L2 xs Hd. rewrite <-app_assoc. by apply L1, L2. Qed.

(** An iteration that delivers a record. *)
Lemma leads_record infrag scratch fragment s x sc rd' f' :
  sf_open f' → (unread rd' f' < unread s.1 s.2)%nat →
  (∀ n, ReadRecord_loop (S n) scratch infrag fragment s = Some ((true, x, sc), (rd', f'))) →
  leads_to infrag scratch fragment s [x] false [] [] (rd', f').
Proof.
  intros Hf Hlt Er xs Hd A body a fuel1 fuel2 Hf1 Hf2.
  destruct fuel1 as [|n]; [lia|]. destruct fuel2 as [|m]; [lia|].
  unfold resume, bind. rewrite Er, ForEachRecord_resume by done. apply Hd; simpl; lia.
Qed.

(** An iteration that does not. *)
Lemma leads_skip infrag scratch fragment s b sc fr rd' f' :
  (unread rd' f' < unread s.1 s.2)%nat →
  (∀ n, ReadRecord_loop (S n) scratch infrag fragment s = ReadRecord_loop n sc b fr (rd', f')) →
  leads_to infrag scratch fragment s [] b sc fr (rd', f').
Proof.
  intros Hlt Er xs Hd A body a fuel1 fuel2 Hf1 Hf2.
  destruct fuel1 as [|n]; [lia|]. unfold resume, bind. rewrite Er. apply Hd; simpl; lia.
Qed.

(** Whatever physical record was read, before the end of the file. *)
Lemma physical_step infrag scratch fragment s t fr rd1 f1 :
  ReadPhysicalRecord fragment s = Some ((t, fr), (rd1, f1)) → t ≠ kEof →
  sf_open f1 → (unread rd1 f1 < unread s.1 s.2)%nat →
  ∃ ys infrag' scratch' fragment' rd', buffer_ rd' = buffer_ rd1 ∧ eof_ rd' = eof_ rd1 ∧
    leads_to infrag scratch fragment s ys infrag' scratch' fragment' (rd', f1).
Proof.
  intros E Ht Hf Hlt.
  assert (∀ x sc rd', buffer_ rd' = buffer_ rd1 →
    (∀ n, ReadRecord_loop (S n) scratch infrag fragment s = Some ((true, x, sc), (rd', f1))) →
    leads_to infrag scratch fragment s [x] false [] [] (rd', f1)) as Hrec.
  { intros x sc rd' Eb. apply leads_record; [done|]. unfold unread in *. by rewrite Eb. }
  assert (∀ b sc fr' rd', buffer_ rd' = buffer_ rd1 →
    (∀ n, ReadRecord_loop (S n) scratch infrag fragment s = ReadRecord_loop n sc b fr' (rd', f1)) →
    leads_to infrag scratch fragment s [] b sc fr' (rd', f1)) as Hnext.
  { intros b sc fr' rd' Eb. apply leads_skip. unfold unread in *. by rewrite Eb. }
  cbn [ReadRecord_loop] in Hrec, Hnext. unfold bind in Hrec, Hnext. rewrite E in Hrec, Hnext.
  cbn [fst snd] in Hrec, Hnext. apply Z.eqb_neq in Ht. rewrite Ht in Hrec, Hnext.
  repeat match type of Hrec with
  | context [if t =? ?v then _ else _] => destruct (t =? v)
  end; destruct infrag; cbn [negb report ret] in Hrec, Hnext;
    first [eexists [_], _, _, _, _; split; [|split; [|eapply Hrec; [|intros n; reflexivity]]]; reflexivity
          |eexists [], _, _, _, _; split; [|split; [|eapply Hnext; [|intros n; reflexivity]]]; reflexivity].
Qed.

(** ** Reading on always delivers something *)

Lemma delivers_total infrag scratch fragment s : sf_open s.2 → ∃ xs, delivers infrag scratch fragment s xs.
Proof.
  destruct s as [rd f]. remember (unread rd f) as n eqn:En.
  revert infrag scratch fragment rd f En. induction n as [n IH] using lt_wf_ind.
  intros infrag scratch fragment rd f -> Hf. simpl in Hf.
  destruct (ReadPhysicalRecord_total fragment rd f Hf) as (t & fr & rd1 & f1 & E & Hf1 & Ht).
  destruct (decide (t = kEof)) as [->|Hne].
  - exists []. intros A body a fuel1 fuel2 Hl _. destruct fuel1 as [|n]; [lia|].
    unfold resume, bind. cbn [ReadRecord_loop]. unfold bind at 1. rewrite E. by eexists.
  - destruct Ht as [|Hlt]; [done|].
    destruct (physical_step infrag scratch fragment (rd, f) t fr rd1 f1 E Hne Hf1 Hlt)
      as (ys & b & sc & fr' & rd' & Eb & _ & Hleads).
    destruct (IH (unread rd1 f1) Hlt b sc fr' rd' f1) as [xs Hd]; [unfold unread; by rewrite Eb|done|].
    exists (ys ++ xs). by apply Hleads.
Qed.

(** ** Through the damage *)

(** The reader is before a block boundary in damaged bytes, with whole blocks of
    them to come, and [tail] follows them. *)
Definition in_damage (tail : bytes) s : Prop :=
  sf_open s.2 ∧ sf_reliable s.2 ∧ eof_ s.1 = false ∧ no_end_record (buffer_ s.1) ∧
  ∃ junk, sf_rest s.2 = junk ++ tail ∧ Z.of_nat (length junk) mod kBlockSize = 0 ∧ no_end_record junk.

(** A read at the boundary starts a block with [tail]. *)
Definition at_boundary (tail : bytes) s : Prop :=
  sf_open s.2 ∧ sf_reliable s.2 ∧ eof_ s.1 = false ∧ sf_rest s.2 = tail ∧
  Z.of_nat (length (buffer_ s.1)) < kHeaderSize.

Lemma no_end_record_drop k b : no_end_record b → no_end_record (drop k b).
Proof. intros Hn. rewrite <-(take_drop k b) in Hn. by apply no_end_record_app in Hn as [_ ?]. Qed.

Lemma no_end_record_take k b : no_end_record b → no_end_record (take k b).
Proof. intros Hn. rewrite <-(take_drop k b) in Hn. by apply no_end_record_app in Hn as [? _]. Qed.

(** The next physical record in damaged bytes. *)
Lemma damage_physical tail fragment s :
  in_damage tail s →
  at_boundary tail s ∨
  ∃ t fr rd1 f1, ReadPhysicalRecord fragment s = Some ((t, fr), (rd1, f1)) ∧ t ≠ kEof ∧
    (unread rd1 f1 < unread s.1 s.2)%nat ∧ in_damage tail (rd1, f1).
Proof.
  destruct s as [rd f]. intros (Hf & Hrel & Heof & Hb & junk & Hrest & Hmod & Hj). simpl in *.
  destruct (decide (kHeaderSize ≤ Z.of_nat (length (buffer_ rd)))) as [Hl|Hs%Z.nle_gt].
  - right. unfold ReadPhysicalRecord. rewrite ReadPhysicalRecord_loop_buffered by done.
    destruct (ParsePhysicalRecord fragment rd) as [[t fr] rd1] eqn:E.
    destruct (ParsePhysicalRecord_not_end _ _ _ _ Hl Heof Hb E) as (Ht & He & k & Eb).
    apply ParsePhysicalRecord_consumes in E; [|done].
    exists t, fr, rd1, f. split_and!; [done|done|unfold unread; simpl; lia|].
    split_and!; [done..| |by exists junk]. simpl. rewrite Eb. by apply no_end_record_drop.
  - destruct (decide (junk = [])) as [->|Hne]; [by left; split_and!|right].
    assert (kBlockSize ≤ Z.of_nat (length junk)) as Hblock.
    { destruct junk; [done|]. apply Z.nlt_ge. intros Hlt. rewrite Z.mod_small in Hmod by lia. simpl in Hmod. lia. }
    destruct (ReadPhysicalRecord_refill fragment rd f Hf Hrel Heof Hs)
      as (data & f1 & Hd & Hr & Hf1 & Hrel1 & ->).
    rewrite Hrest, take_app_le in Hd by wal_lia. rewrite Hrest, drop_app_le in Hr by wal_lia.
    assert (Z.of_nat (length data) = kBlockSize) as Hlen by (rewrite Hd, length_take; wal_lia).
    rewrite Hlen, Z.ltb_irrefl.
    set (rd0 := mkReader (reporter_ rd) false data).
    rewrite ReadPhysicalRecord_loop_buffered by (simpl; wal_lia).
    destruct (ParsePhysicalRecord fragment rd0) as [[t fr] rd1] eqn:E.
    destruct (ParsePhysicalRecord_not_end fragment rd0 (t, fr) rd1) as (Ht & He & k & Eb);
      [simpl; wal_lia|done|simpl; rewrite Hd; by apply no_end_record_take|done|].
    apply ParsePhysicalRecord_consumes in E; [|simpl; wal_lia].
    exists t, fr, rd1, f1. split_and!; [done|done| |].
    + unfold unread. rewrite Hrest, Hr, !length_app, length_drop. simpl in E |- *. wal_lia.
    + split_and!; [done..| |]; simpl.
      * rewrite Eb. simpl. rewrite Hd. by apply no_end_record_drop, no_end_record_take.
      * eexists. split_and!; [exact Hr| |by apply no_end_record_drop].
        rewrite length_drop, Nat2Z.inj_sub by wal_lia. rewrite Z2Nat.id by wal_lia.
        rewrite <-(Z_mod_plus_full _ 1 kBlockSize). by replace (_ + 1 * kBlockSize) with (Z.of_nat (length junk)) by lia.
Qed.

(** The reader comes to the boundary. *)
Lemma damage_passed tail infrag scratch fragment s :
  in_damage tail s →
  ∃ ys b sc fr s', at_boundary tail s' ∧ leads_to infrag scratch fragment s ys b sc fr s'.
Proof.
  destruct s as [rd f]. remember (unread rd f) as n eqn:En.
  revert infrag scratch fragment rd f En. induction n as [n IH] using lt_wf_ind.
  intros infrag scratch fragment rd f -> Hin.
  destruct (damage_physical tail fragment (rd, f) Hin) as [Hb|(t & fr & rd1 & f1 & E & Ht & Hlt & Hin1)].
  { exists [], infrag, scratch, fragment, (rd, f). split; [done|]. by intros xs. }
  destruct (physical_step infrag scratch fragment (rd, f) t fr rd1 f1 E Ht) as
    (ys & b & sc & fr' & rd' & Eb & Ee & Hleads); [apply Hin1|done|].
  destruct (IH (unread rd1 f1) Hlt b sc fr' rd' f1) as (zs & b' & sc' & fr'' & s' & Hs' & Hleads').
  - unfold unread. by rewrite Eb.
  - destruct Hin1 as (? & ? & ? & ? & ?). simpl in *. by split_and!; simpl; rewrite ?Eb, ?Ee.
  - exists (ys ++ zs), b', sc', fr'', s'. split; [done|]. by eapply leads_trans.
Qed.

(** ** After the boundary *)

Lemma boundary_reads tail b sc fr rd f :
  at_boundary tail (rd, f) →
  reader_at 0 tail (set_buffer [] rd) f ∧ leads_to b sc fr (rd, f) [] b sc fr (set_buffer [] rd, f).
Proof.
  intros (Hf & Hrel & Heof & Hrest & Hs). simpl in *. split.
  { split_and!; [done..|]. simpl. by rewrite Heof. }
  intros xs Hd A body a fuel1 fuel2 Hf1 Hf2. simpl in Hf1, Hf2.
  destruct (Hd A body a fuel1 fuel2) as [s' E]; [unfold unread in *; simpl; lia..|].
  exists s'. change ([] ++ xs) with xs. rewrite <-E. unfold resume, bind. destruct fuel1 as [|n]; [done|].
  assert (ReadPhysicalRecord fr (rd, f) = ReadPhysicalRecord fr (set_buffer [] rd, f)) as Ep.
  { unfold ReadPhysicalRecord. cbn [ReadPhysicalRecord_loop set_buffer buffer_ eof_ reporter_].
    apply Z.ltb_lt in Hs as ->. by rewrite Heof. }
  cbn [ReadRecord_loop]. unfold bind. by rewrite Ep.
Qed.


(** A physical record of the format at the position of the reader. *)
Lemma item_step off t pl tail fragment rd f :
  0 ≤ off ≤ kBlockSize → Z.of_nat (length pl) ≤ avail off → t ≠ kZeroType →
  reader_at off ((trailer off ++ phys t pl) ++ tail) rd f →
  ∃ rd' f', ReadPhysicalRecord fragment (rd, f) = Some ((RecordType_value t, pl), (rd', f')) ∧
    reader_at (start off + kHeaderSize + Z.of_nat (length pl)) tail rd' f' ∧
    sf_open f' ∧ (unread rd' f' < unread rd f)%nat.
Proof.
  intros Hoff Hl Ht Hat.
  destruct (ReadPhysicalRecord_item off t pl tail fragment rd f Hoff Hl Ht Hat) as (rd' & f' & E & Hat' & _).
  destruct (ReadPhysicalRecord_total fragment rd f (proj1 Hat)) as (t' & fr & rd1 & f1 & E' & Hf1 & Hcase).
  rewrite E in E'. injection E' as <- <- <- <-. exists rd', f'. split_and!; [done..|].
  destruct Hcase as [Hc|?]; [by destruct t|done].
Qed.

(** A record that fills its block ends at the boundary. *)
Lemma avail_end off : start off + kHeaderSize + avail off = kBlockSize.
Proof. unfold avail. lia. Qed.

Lemma reader_at_same off u rd f rd' :
  reader_at off u rd f → buffer_ rd' = buffer_ rd → eof_ rd' = eof_ rd → reader_at off u rd' f.
Proof. unfold reader_at. by intros Hat -> ->. Qed.

(** The rest of a record whose beginning is lost is passed over, or delivered
    when the damage ends in the beginning of a record. *)
Lemma rest_passed begin off data out off' :
  framed begin off data out off' → begin = false → 0 ≤ off ≤ kBlockSize →
  ∀ tail infrag scratch fragment rd f, reader_at off (out ++ tail) rd f →
  ∃ ys b sc fr rd' f', reader_at off' tail rd' f' ∧
    leads_to infrag scratch fragment (rd, f) ys b sc fr (rd', f').
Proof.
  induction 1 as [b off data Hl|b off d1 d2 out off' Hl Hd Hf IH];
    intros -> Hoff tail infrag scratch fragment rd f Hat.
  - destruct (item_step off kLastType data tail fragment rd f) as (rd1 & f1 & E & Hat1 & Hf1 & Hlt); [done..|].
    destruct (physical_step infrag scratch fragment (rd, f) _ _ rd1 f1 E) as
      (ys & b & sc & fr & rd' & Eb & Ee & Hleads); [done..|].
    exists ys, b, sc, fr, rd', f1. split; [by eapply reader_at_same|done].
  - rewrite <-app_assoc in Hat.
    destruct (item_step off kMiddleType d1 (out ++ tail) fragment rd f) as (rd1 & f1 & E & Hat1 & Hf1 & Hlt);
      [done|lia|done|done|].
    rewrite Hl, avail_end in Hat1.
    destruct (physical_step infrag scratch fragment (rd, f) _ _ rd1 f1 E) as
      (ys & b & sc & fr & rd' & Eb & Ee & Hleads); [done..|].
    destruct (IH eq_refl ltac:(wal_lia) tail b sc fr rd' f1) as
      (zs & b' & sc' & fr' & rd2 & f2 & Hat2 & Hleads'); [by eapply reader_at_same|].
    exists (ys ++ zs), b', sc', fr', rd2, f2. split; [done|]. by eapply leads_trans.
Qed.

(** A record that is begun is completed. *)
Lemma rest_completed begin off data out off' :
  framed begin off data out off' → begin = false → 0 ≤ off ≤ kBlockSize →
  ∀ tail scratch fragment rd f, reader_at off (out ++ tail) rd f →
  ∃ rd' f', reader_at off' tail rd' f' ∧
    leads_to true scratch fragment (rd, f) [scratch ++ data] false [] [] (rd', f').
Proof.
  induction 1 as [b off data Hl|b off d1 d2 out off' Hl Hd Hf IH];
    intros -> Hoff tail scratch fragment rd f Hat.
  - destruct (item_step off kLastType data tail fragment rd f) as (rd1 & f1 & E & Hat1 & Hf1 & Hlt); [done..|].
    exists rd1, f1. split; [done|]. eapply leads_record; [done..|]. intros n.
    cbn [ReadRecord_loop]. by rewrite (bind_eval _ _ _ _ _ E).
  - rewrite <-app_assoc in Hat.
    destruct (item_step off kMiddleType d1 (out ++ tail) fragment rd f) as (rd1 & f1 & E & Hat1 & Hf1 & Hlt);
      [done|lia|done|done|].
    rewrite Hl, avail_end in Hat1.
    destruct (IH eq_refl ltac:(wal_lia) tail (scratch ++ d1) d1 rd1 f1 Hat1) as (rd2 & f2 & Hat2 & Hleads).
    exists rd2, f2. split; [done|]. rewrite app_assoc. change [(scratch ++ d1) ++ d2] with ([] ++ [(scratch ++ d1) ++ d2]).
    eapply leads_trans; [|exact Hleads]. apply leads_skip; [done|]. intros n.
    cbn [ReadRecord_loop]. by rewrite (bind_eval _ _ _ _ _ E).
Qed.

(** A whole record is delivered, also when the reader is in the middle of
    another one. *)
Lemma record_delivered off r out off' tail infrag scratch fragment rd f :
  framed true off r out off' → 0 ≤ off ≤ kBlockSize → reader_at off (out ++ tail) rd f →
  ∃ rd' f', reader_at off' tail rd' f' ∧
    leads_to infrag scratch fragment (rd, f) [r] false [] [] (rd', f').
Proof.
  intros Hf Hoff Hat. inversion Hf as [? ? ? Hl|? ? d1 d2 out2 ? Hl Hd Hf2]; subst.
  - destruct (item_step off kFullType r tail fragment rd f) as (rd1 & f1 & E & Hat1 & Hf1 & Hlt); [done..|].
    exists (if infrag then ReportDrop (Z.of_nat (length scratch)) (Corruption (str "partial record without end(1)")) rd1 else rd1), f1.
    split; [destruct infrag; [by eapply reader_at_same|done]|].
    eapply (leads_record _ _ _ _ _ []); [done|by destruct infrag|]. intros n.
    cbn [ReadRecord_loop]. rewrite (bind_eval _ _ _ _ _ E). by destruct infrag.
  - rewrite <-app_assoc in Hat.
    destruct (item_step off kFirstType d1 (out2 ++ tail) fragment rd f) as (rd1 & f1 & E & Hat1 & Hf1 & Hlt);
      [done|lia|done|done|].
    rewrite Hl, avail_end in Hat1.
    set (rd2 := if infrag then ReportDrop (Z.of_nat (length scratch)) (Corruption (str "partial record without end(2)")) rd1 else rd1).
    destruct (rest_completed _ _ _ _ _ Hf2 eq_refl ltac:(wal_lia) tail d1 d1 rd2 f1) as (rd' & f' & Hat' & Hleads).
    { unfold rd2. destruct infrag; [by eapply reader_at_same|done]. }
    exists rd', f'. split; [done|]. change [d1 ++ d2] with ([] ++ [d1 ++ d2]).
    eapply leads_trans; [|exact Hleads]. apply leads_skip; [unfold rd2; by destruct infrag|]. intros n.
    cbn [ReadRecord_loop]. rewrite (bind_eval _ _ _ _ _ E). unfold rd2. by destruct infrag.
Qed.

(** A torn record at the end delivers nothing. *)
Lemma torn_ends off p infrag scratch fragment rd f :
  torn off p → 0 ≤ off ≤ kBlockSize → reader_at off p rd f →
  delivers infrag scratch fragment (rd, f) [].
Proof.
  intros (r & out & off' & Hf & Hpre & Hlt) Hoff Hat A body a fuel1 fuel2 Hfuel _. simpl in Hfuel.
  pose proof (reader_at_unread _ _ _ _ Hat) as Hu. destruct fuel1 as [|n]; [lia|]. unfold resume.
  inversion Hf as [? ? ? Hl|? ? d1 d2 out2 ? Hl Hd Hf2]; subst.
  { destruct (ReadRecord_loop_torn_item n scratch infrag fragment off kFullType r p rd f Hoff Hl Hpre Hlt Hat)
      as (sc & rd' & f' & E & _). rewrite (bind_eval _ _ _ _ _ E). by eexists. }
  destruct (prefix_of_app_cases _ _ _ Hpre) as [[Hpre1 Hlt1]|(q & -> & Hq)].
  { destruct (ReadRecord_loop_torn_item n scratch infrag fragment off kFirstType d1 p rd f Hoff) as
      (sc & rd' & f' & E & _); [lia|done..|]. rewrite (bind_eval _ _ _ _ _ E). by eexists. }
  destruct (item_step off kFirstType d1 q fragment rd f) as (rd1 & f1 & E & Hat1 & Hf1 & Hless);
    [done|lia|done|done|].
  rewrite Hl, avail_end in Hat1. rewrite !length_app in Hlt.
  set (rd2 := if infrag then ReportDrop (Z.of_nat (length scratch)) (Corruption (str "partial record without end(2)")) rd1 else rd1).
  assert (reader_at kBlockSize q rd2 f1) as Hat2.
  { unfold rd2. destruct infrag; [by eapply reader_at_same|done]. }
  pose proof (reader_at_unread _ _ _ _ Hat1) as Hu1.
  destruct (ReadRecord_loop_torn _ _ _ _ _ Hf2 ltac:(wal_lia) n d1 d1 q rd2 f1 Hq ltac:(lia) Hat2) as
    (sc & rd' & f' & E2 & _); [lia|].
  assert (ReadRecord_loop (S n) scratch infrag fragment (rd, f) = ReadRecord_loop n d1 true d1 (rd2, f1)) as E1.
  { cbn [ReadRecord_loop]. rewrite (bind_eval _ _ _ _ _ E). unfold rd2. by destruct infrag. }
  simpl in E2. rewrite <-E1 in E2. rewrite (bind_eval _ _ _ _ _ E2). by eexists.
Qed.

(** The records of a log are delivered, whatever follows it. *)
Lemma log_passed off rs c off' :
  wal off rs c off' → 0 ≤ off ≤ kBlockSize → ∀ tail rd f, reader_at off (c ++ tail) rd f →
  ∃ rd' f', reader_at off' tail rd' f' ∧ leads_to false [] [] (rd, f) rs false [] [] (rd', f').
Proof.
  induction 1 as [off|off r out off1 rs c off2 Hf Hw IH]; intros Hoff tail rd f Hat.
  { exists rd, f. split; [done|]. by intros xs. }
  rewrite <-app_assoc in Hat.
  destruct (record_delivered off r out off1 (c ++ tail) false [] [] rd f Hf Hoff Hat) as (rd1 & f1 & Hat1 & L1).
  destruct (IH ltac:(apply framed_offset in Hf; [wal_lia|done]) tail rd1 f1 Hat1) as (rd2 & f2 & Hat2 & L2).
  exists rd2, f2. split; [done|]. change (r :: rs) with ([r] ++ rs). by eapply leads_trans.
Qed.

(** The log at the end of a file, from any state of the inner loop. *)
Lemma log_delivered off rs c off' p infrag scratch fragment rd f :
  wal off rs c off' → 0 ≤ off ≤ kBlockSize → torn off' p → reader_at off (c ++ p) rd f →
  delivers infrag scratch fragment (rd, f) rs.
Proof.
  intros Hw Hoff Hp Hat. inversion Hw as [|? r out off1 rs1 c1 ? Hf Hw1]; subst.
  { by apply (torn_ends off' p). }
  rewrite <-app_assoc in Hat.
  destruct (record_delivered off r out off1 (c1 ++ p) infrag scratch fragment rd f Hf Hoff Hat) as
    (rd1 & f1 & Hat1 & L1).
  assert (0 ≤ off1 ≤ kBlockSize) as Hoff1 by (apply framed_offset in Hf; [wal_lia|done]).
  destruct (log_passed off1 rs1 c1 off' Hw1 Hoff1 p rd1 f1 Hat1) as (rd2 & f2 & Hat2 & L2).
  change (r :: rs1) with ([r] ++ rs1). apply L1. rewrite <-(app_nil_r rs1). apply L2.
  apply (torn_ends off' p); [done|by eapply wal_offset|done].
Qed.

(** ** The theorem *)

(** [rest] is the end, from a block boundary on, of a record that began before
    it, or nothing; it ends at offset [off]. *)
Definition continuation (rest : bytes) (off : Z) : Prop :=
  (rest = [] ∧ off = 0) ∨ ∃ data, framed false kBlockSize data rest off.

Lemma continuation_offset rest off : continuation rest off → 0 ≤ off ≤ kBlockSize.
Proof. intros [[_ ->]|[data Hf]]; [wal_lia|]. apply framed_offset in Hf; wal_lia. Qed.

(** An empty file holds no records. *)
Lemma wal_nil_inv off rs off' : wal off rs [] off' → rs = [].
Proof.
  remember [] as c eqn:Ec. intros Hw. destruct Hw as [|off r out off1 rs c off2 Hf _]; [done|].
  apply app_eq_nil in Ec as [-> _]. apply framed_nonempty in Hf. simpl in Hf. lia.
Qed.

(** What follows the damage is read as if it were alone. *)
Lemma resynchronized rest off rs c off' p infrag scratch fragment rd f :
  continuation rest off → wal off rs c off' → torn off' p →
  reader_at 0 (rest ++ c ++ p) rd f →
  ∃ ys, delivers infrag scratch fragment (rd, f) (ys ++ rs).
Proof.
  intros Hc Hw Hp Hat. pose proof (continuation_offset _ _ Hc) as Hoff.
  destruct Hc as [[-> ->]|[data Hf]].
  { exists []. by eapply log_delivered. }
  assert (reader_at kBlockSize (rest ++ c ++ p) rd f) as Hat0 by by apply reader_at_wrap.
  destruct (rest_passed _ _ _ _ _ Hf eq_refl ltac:(wal_lia) (c ++ p) infrag scratch fragment rd f Hat0) as
    (ys & b & sc & fr & rd1 & f1 & Hat1 & L1).
  exists ys. apply L1. by eapply log_delivered.
Qed.

(** The reader after a log enters the damage that follows it. *)
Lemma enters_damage off junk tail rd f :
  0 ≤ off ≤ kBlockSize → reader_at off (junk ++ tail) rd f → tail ≠ [] →
  (off + Z.of_nat (length junk)) mod kBlockSize = 0 → no_end_record junk → in_damage tail (rd, f).
Proof.
  intros Hoff (Hf & Hrel & Hu) Hne Hmod Hno.
  assert (∃ k, 0 ≤ k ∧ Z.of_nat (length junk) = (kBlockSize - off) mod kBlockSize + k * kBlockSize) as (k & Hk & Hlen).
  { exists ((off + Z.of_nat (length junk)) / kBlockSize - (if decide (off = 0) then 0 else 1)).
    apply Z.div_exact in Hmod; [|wal_lia]. destruct (block_rest off Hoff) as [[E Hc]|[E Hc]]; rewrite E.
    all: case_decide; wal_unfold; lia_dm. }
  assert (0 < length tail)%nat by (destruct tail; [done|simpl; lia]).
  pose proof (Z.mod_pos_bound (kBlockSize - off) kBlockSize ltac:(wal_lia)).
  destruct (eof_ rd) eqn:Heof.
  { destruct Hu as [_ Hu]. rewrite length_app in Hu. wal_unfold. nia. }
  destruct Hu as [Hu Hb]. symmetry in Hu.
  destruct (app_eq_le _ _ _ _ Hu) as (j & Ej & Erest); [nia|]. subst junk.
  apply no_end_record_app in Hno as [Hno1 Hno2]. rewrite length_app in Hlen.
  split_and!; [done..|]. simpl. exists j. split_and!; [done| |done].
  replace (Z.of_nat (length j)) with (k * kBlockSize) by lia. by apply Z_mod_mult.
Qed.

(** The replay loop delivers what the reader delivers at the start of the file. *)
Lemma ForEachRecord_delivers {A} (body : A → bytes → A) a (reporter : option R) (src : F) xs : sf_open src →
  delivers false [] [] (Reader_new reporter, src) xs →
  ∃ rd' src', ForEachRecord body a (Reader_new reporter, src) = Some (foldl body a xs, (rd', src')).
Proof.
  intros Hf Hd. unfold ForEachRecord. rewrite (sf_bound_rest src Hf), Nat.add_1_r.
  rewrite ForEachRecord_resume by done.
  destruct (Hd _ body a (unread (Reader_new reporter) src + 1)%nat
              (length (buffer_ (Reader_new reporter)) + length (sf_rest src))%nat) as [[rd' src'] E];
    [unfold unread; simpl; lia..|].
  by exists rd', src'.
Qed.

(** [damaged rs1 rs2 contents]: a file with the log of [rs1] at its start, then
    arbitrary bytes up to a block boundary (any number of blocks), then what is
    left of a record that was damaged, the log of [rs2], and possibly a torn
    record at the end. *)
Definition damaged (rs1 rs2 : list bytes) (contents : bytes) : Prop :=
  ∃ c1 off1 junk rest off2 c2 off3 p,
    wal 0 rs1 c1 off1 ∧ Z.of_nat (length (c1 ++ junk)) mod kBlockSize = 0 ∧ no_end_record junk ∧
    continuation rest off2 ∧ wal off2 rs2 c2 off3 ∧ torn off3 p ∧
    contents = c1 ++ junk ++ rest ++ c2 ++ p.

(** The replay loop over a damaged log. *)
Lemma ForEachRecord_damaged rs1 rs2 (reporter : option R) (src : F) :
  damaged rs1 rs2 (sf_rest src) → sf_open src → sf_reliable src →
  ∃ xs, ∀ A (body : A → bytes → A) a, ∃ rd' src',
    ForEachRecord body a (Reader_new reporter, src) = Some (foldl body a (rs1 ++ xs ++ rs2), (rd', src')).
Proof.
  intros (c1 & off1 & junk & rest & off2 & c2 & off3 & p & Hw1 & Hmod & Hno & Hc & Hw2 & Hp & Hrest) Hf Hrel.
  assert (0 ≤ off1 ≤ kBlockSize) as Hoff1 by (eapply wal_offset; [done|wal_lia]).
  pose proof (reader_at_new reporter src Hf Hrel) as Hat. rewrite Hrest in Hat.
  destruct (log_passed 0 rs1 c1 off1 Hw1 ltac:(wal_lia) _ _ _ Hat) as (rd1 & f1 & Hat1 & L1).
  assert (∃ xs, delivers false [] [] (rd1, f1) (xs ++ rs2)) as [xs Hd].
  2:{ exists xs. intros A body a. apply ForEachRecord_delivers, L1; done. }
  destruct (decide (rest ++ c2 ++ p = [])) as [[_ [-> _]%app_eq_nil]%app_eq_nil|Hne].
  { destruct (delivers_total false [] [] (rd1, f1)) as [xs Hd]; [apply Hat1|].
    exists xs. by rewrite (wal_nil_inv _ _ _ Hw2), app_nil_r. }
  assert (in_damage (rest ++ c2 ++ p) (rd1, f1)) as Hin.
  { apply (enters_damage off1 junk); [done..| |done].
    pose proof (wal_mod _ _ _ _ Hw1 ltac:(wal_lia)) as Hm.
    rewrite length_app, Nat2Z.inj_add, <-Zplus_mod_idemp_l in Hmod. simpl in Hm.
    by rewrite <-Zplus_mod_idemp_l, <-Hm. }
  destruct (damage_passed _ false [] [] _ Hin) as (ys & b & sc & fr & [rd2 f2] & Hb & L2).
  destruct (boundary_reads _ b sc fr rd2 f2 Hb) as [Hat2 L3].
  destruct (resynchronized rest off2 rs2 c2 off3 p b sc fr _ _ Hc Hw2 Hp Hat2) as [zs Hd].
  exists (ys ++ zs). rewrite <-app_assoc. apply L2, (L3 _ Hd).
Qed.

(** C16: the reader resynchronizes at the next block boundary.  Reading a file
    that holds the log of [rs1], then damage of any kind up to a block boundary
    (any number of blocks), then what is left of a damaged record, the log of
    [rs2] and possibly a torn record, delivers all of [rs1] first and all of
    [rs2] last; only between them can there be anything else.  The one
    exception is damage that holds a checksummed record of type 5, the code of
    the end of the file. *)
Theorem damage_is_confined rs1 rs2 (reporter : option R) (src : F) :
  damaged rs1 rs2 (sf_rest src) → sf_open src → sf_reliable src →
  ∃ xs rd' src', ReadAll (Reader_new reporter, src) = Some (rs1 ++ xs ++ rs2, (rd', src')).
Proof.
  intros Hd Hf Hrel. destruct (ForEachRecord_damaged rs1 rs2 reporter src Hd Hf Hrel) as [xs E].
  destruct (E _ (λ l r, l ++ [r]) []) as (rd' & src' & E').
  exists xs, rd', src'. unfold ReadAll. by rewrite E', foldl_snoc.
Qed.
End damage.

(** Bytes without the type byte of such a record do not hold one. *)
Lemma no_end_record_absent b : byte_of_Z kEof ∉ b → no_end_record b.
Proof.
  intros Hb pre payload post _ ->. apply Hb. unfold raw_record.
  apply elem_of_app. right. apply elem_of_app. left. apply elem_of_app. right. simpl. set_solver.
Qed.

(** One small record, zeros to the end of its block, another record. *)
Definition zeroed_log (r1 r2 : bytes) : bytes :=
  small_log r1 ++ replicate (Z.to_nat (kBlockSize - kHeaderSize - Z.of_nat (length r1))) (byte_of_Z 0) ++
  [] ++ small_log r2 ++ [].

Lemma zeroed_log_damaged r1 r2 :
  Z.of_nat (length r1) ≤ avail 0 → Z.of_nat (length r2) ≤ avail 0 → damaged [r1] [r2] (zeroed_log r1 r2).
Proof.
  intros Hr1 Hr2. pose proof (small_log_wal r1 Hr1) as Hw1. pose proof (small_log_wal r2 Hr2) as Hw2.
  exists (small_log r1), (start 0 + kHeaderSize + Z.of_nat (length r1)).
  exists (replicate (Z.to_nat (kBlockSize - kHeaderSize - Z.of_nat (length r1))) (byte_of_Z 0)).
  exists [], 0, (small_log r2), (start 0 + kHeaderSize + Z.of_nat (length r2)), []. split_and!; [done|..].
  - pose proof (wal_mod _ _ _ _ Hw1 ltac:(wal_lia)) as Hm. change (avail 0) with 32761 in *.
    change (start 0) with 0 in Hm. rewrite Z.add_0_l in Hm.
    rewrite length_app, length_replicate, Nat2Z.inj_add, Z2Nat.id by wal_lia.
    rewrite <-Zplus_mod_idemp_l, Hm.
    rewrite Zplus_mod_idemp_l. replace (_ + _) with kBlockSize by lia. apply Z_mod_same_full.
  - apply no_end_record_absent. intros [E _]%elem_of_replicate. discriminate E.
  - by left.
  - done.
  - apply torn_nil. change (avail 0) with 32761 in Hr2. change (start 0) with 0. wal_lia.
  - done.
Qed.

Lemma damage_is_confined_witness :
  ∃ xs rd' src',
    ReadAll (Reader_new (Some test_reporter), mkStringSource (zeroed_log (str "a") (str "b")) 0)
      = Some ([str "a"] ++ xs ++ [str "b"], (rd', src')).
Proof.
  apply (damage_is_confined (F := StringSource)).
  - apply zeroed_log_damaged; vm_compute; discriminate.
  - split; [reflexivity|]. vm_compute. discriminate.
  - exact I.
Defined.

(** A checksummed record whose type byte is 5 ends the log.  5 is both an
    unknown record type and the code [kEof] that ReadPhysicalRecord returns at
    the end of the file, and ReadRecord takes it for the latter: the record
    after it is not delivered and nothing is reported, where an unknown type
    that is no such code (7, say) is reported and skipped. *)
Theorem foreign_type_ends_log :
  (∃ rd' src', ReadAll (Reader_new (Some test_reporter),
      mkStringSource (raw_record 5 (str "x") ++ small_log (str "b")) 0) = Some ([], (rd', src')) ∧
      reporter_ rd' = Some test_reporter) ∧
  (∃ rd' src', ReadAll (Reader_new (Some test_reporter),
      mkStringSource (raw_record 7 (str "x") ++ small_log (str "b")) 0) = Some ([str "b"], (rd', src')) ∧
      reporter_ rd' = Some (mkTestReporter 1 1 (str "unknown record type"))).
Proof. split; eexists _, _; split; vm_compute; reflexivity. Qed.
