(* ===== verification/WalResume.v ===== *)
(** * Writing on after a write that failed

    Both users of the log go on writing after bytes that are no record: what a
    crash or a failed append has left at the end of the file.  Records written
    after them can be lost ([torn_resume_loses_write]).  This file bounds the
    loss: only records that begin in the same block are concerned, and all
    records that begin after it are read back. *)

From S2P Require Import Prelude Status Coding Crc32c Files WalFormat WalWriter WalReader WalRecovery WalDamage.
Local Open Scope Z_scope.

(** ** The records of a log from a block boundary on *)

Lemma wal_from_zero off rs c off' :
  wal off rs c off' → 0 ≤ off ≤ kBlockSize → off mod kBlockSize = 0 → ∃ o, wal 0 rs c o.
Proof.
  intros Hw Hoff Hm. destruct Hw as [off|off r out off1 rs c off2 Hf Hw]; [by exists 0; constructor|].
  exists off2. apply (wal_cons 0 r out off1 rs c off2); [|done].
  rewrite <-Hm. by apply (framed_wrap true off).
Qed.

(** A record that closes its block with a trailer begins at the boundary. *)
Lemma framed_after_trailer begin off data out off' :
  framed begin off data out off' → start off = 0 →
  ∃ out0, out = trailer off ++ out0 ∧ framed begin 0 data out0 off'.
Proof.
  intros Hf Hs. assert (avail off = avail 0) as Ha by (unfold avail; by rewrite Hs).
  destruct Hf as [b off data Hl|b off d1 d2 out off' Hl Hd Hf].
  - eexists. split; [done|]. rewrite Hs. change (phys ?t data) with (trailer 0 ++ phys t data).
    apply (framed_end b 0). by rewrite <-Ha.
  - eexists. split; [by rewrite <-app_assoc|]. change (phys ?t d1) with (trailer 0 ++ phys t d1).
    apply (framed_more b 0); [by rewrite <-Ha|done..].
Qed.

(** The [k]-th record of [rs], written from offset [off] on, begins less than [g]
    bytes after it. *)
Definition begins_within (off g : Z) (rs : list bytes) (k : nat) : Prop :=
  ∃ c o, wal off (take (k - 1) rs) c o ∧ Z.of_nat (length c) < g.

Lemma wal_begins_within off g rs c off' k :
  wal off rs c off' → Z.of_nat (length c) < g → begins_within off g rs k.
Proof.
  intros Hw Hl. rewrite <-(take_drop (k - 1) rs) in Hw.
  destruct (wal_app_inv _ _ _ _ _ Hw) as (c1 & c2 & o & -> & Hw1 & _). rewrite length_app in Hl.
  exists c1, o. split; [done|lia].
Qed.

(** A log that reaches the next block boundary, split there: [k] records begin
    before it. *)
Definition splits_at (off g : Z) (rs : list bytes) (c : bytes) : Prop :=
  ∃ k junk rest o c' o', c = junk ++ rest ++ c' ∧ Z.of_nat (length junk) = g ∧ continuation rest o ∧
    wal o (drop k rs) c' o' ∧ (k = 0%nat ∨ begins_within off g rs k).

Lemma splits_first off r rs junk rest o c' o' :
  0 < Z.of_nat (length junk) → continuation rest o → wal o rs c' o' →
  splits_at off (Z.of_nat (length junk)) (r :: rs) (junk ++ rest ++ c').
Proof.
  intros Hg Hc Hw. exists 1%nat, junk, rest, o, c', o'. split_and!; [done..|].
  right. exists [], off. split; [constructor|done].
Qed.

Lemma splits_next off g off1 r rs out c :
  framed true off r out off1 → Z.of_nat (length out) < g → splits_at off1 (g - Z.of_nat (length out)) rs c →
  splits_at off g (r :: rs) (out ++ c).
Proof.
  intros Hf Hl (k & junk & rest & o & c' & o' & -> & Hj & Hc & Hw & Hk).
  exists (S k), (out ++ junk), rest, o, c', o'. split_and!; [by rewrite <-!app_assoc| |done..|].
  { rewrite length_app. lia. }
  right. unfold begins_within. replace (S k - 1)%nat with k by lia. destruct Hk as [->|(ca & oa & Hwa & Hla)].
  { exists [], off. split; [constructor|]. simpl. lia. }
  destruct k as [|k]; [exists [], off; split; [constructor|]; simpl; lia|].
  replace (S k - 1)%nat with k in Hwa by lia. exists (out ++ ca), oa. split; [by econstructor|].
  rewrite length_app. lia.
Qed.

Lemma wal_boundary off rs c off' :
  wal off rs c off' → 0 ≤ off ≤ kBlockSize →
  Z.of_nat (length c) < (kBlockSize - off) mod kBlockSize ∨
  splits_at off ((kBlockSize - off) mod kBlockSize) rs c.
Proof.
  induction 1 as [off|off r out off1 rs c off2 Hf Hw IH]; intros Hoff;
    destruct (block_rest off Hoff) as [[-> Hcase]|[-> Hin]].
  1,3: right; assert (off mod kBlockSize = 0) as Hm by (by destruct Hcase as [->| ->]).
  - exists 0%nat, [], [], 0, [], 0. split_and!; [done|done|by left|constructor|by left].
  - destruct (wal_from_zero off (r :: rs) (out ++ c) off2) as [o Ho]; [by econstructor|done..|].
    exists 0%nat, [], [], 0, (out ++ c), o. split_and!; [done|done|by left|done|by left].
  - left. simpl. lia.
  - destruct (trailer_cases off Hoff) as [(Ht & Hs & Hl)|(Ht & Hs & Hl)].
    2:{ right. destruct (framed_after_trailer _ _ _ _ _ Hf Hs) as (out0 & -> & Hf0).
        rewrite Z.mod_small in Ht by lia.
        exists 0%nat, (trailer off), [], 0, (out0 ++ c), off2.
        split_and!; [by rewrite <-app_assoc|done|by left|by econstructor|by left]. }
    pose proof Hf as Hf'. inversion Hf as [? ? ? Hlen|? ? d1 d2 out2 ? Hlen Hd Hf2]; subst.
    + rewrite Ht, Hs in *. set (out := [] ++ phys kFullType r) in *.
      assert (Z.of_nat (length out) = kHeaderSize + Z.of_nat (length r)) as Hout by apply phys_length.
      assert (Z.of_nat (length out) ≤ kBlockSize - off) as Hle by (unfold avail in Hlen; lia).
      destruct (decide (Z.of_nat (length out) = kBlockSize - off)) as [He|Hne].
      * right. rewrite <-He. destruct (wal_from_zero _ _ _ _ Hw) as [o Ho]; [wal_lia| |].
        { replace (off + _ + _) with kBlockSize by lia. done. }
        apply (splits_first _ _ _ out [] 0 c o); [wal_lia|by left|done].
      * assert ((kBlockSize - (off + kHeaderSize + Z.of_nat (length r))) mod kBlockSize =
                kBlockSize - off - Z.of_nat (length out)) as Hg by (rewrite Z.mod_small; wal_lia).
        rewrite Hg in IH. destruct IH as [Hshort|Hsplit]; [wal_lia|left; rewrite length_app; lia|right].
        eapply splits_next; [exact Hf'|wal_lia|exact Hsplit].
    + right. rewrite Ht. simpl ([] ++ _).
      assert (Z.of_nat (length (phys kFirstType d1)) = kBlockSize - off) as <-
        by (rewrite phys_length, Hlen; unfold avail; lia).
      rewrite <-app_assoc. eapply splits_first; [rewrite phys_length; wal_lia|by right; eexists|exact Hw].
Qed.

(** ** Adding records at any place *)

Section adding.
Context {W : Type} `{WritableFileSpec W}.
Implicit Types (w : Writer) (f : W).

Lemma AddRecords_at rs w f :
  writer_ok w → wf_open f →
  ∃ st w' f', AddRecords rs (w, f) = Some (st, (w', f')) ∧
    (ok st = true → ∃ c o, wf_contents f' = wf_contents f ++ c ∧ wal (block_offset_ w) rs c o).
Proof.
  revert w f. induction rs as [|r rs IH]; intros w f Hw Hf.
  { exists OK, w, f. split; [done|]. intros _. exists [], (block_offset_ w). rewrite app_nil_r. by split; [|constructor]. }
  destruct (AddRecord_loop_spec (length r + 2) r true w f Hw Hf) as
    (st & w1 & f1 & out & off1 & E & Hfr & (Hf1 & _ & _ & p & Hc & _ & Hp) & Hw1 & Hoff1); [case_decide; lia|].
  cbn [AddRecords]. rewrite (bind_eval _ _ _ _ _ E). destruct (ok st) eqn:Ok; [|by exists st, w1, f1; rewrite Ok].
  destruct (IH w1 f1 Hw1 Hf1) as (st' & w' & f' & -> & Hrest). exists st', w', f'. split; [done|]. intros Ok'.
  destruct (Hrest Ok') as (c & o & Hc' & Hwal). rewrite (Hoff1 eq_refl) in Hwal.
  exists (out ++ c), o. split; [by rewrite Hc', Hc, (Hp eq_refl), app_assoc|by econstructor].
Qed.
End adding.

Section resume.
Context {R : Type} `{Reporter R}.
Context {F : Type} `{SequentialFileSpec F}.

(** Anything after a log: its records are delivered first. *)
Lemma ReadAll_prefix rs c off u (reporter : option R) (src : F) :
  wal 0 rs c off → sf_open src → sf_reliable src → sf_rest src = c ++ u →
  ∃ xs rd' src', ReadAll (Reader_new reporter, src) = Some (rs ++ xs, (rd', src')).
Proof.
  intros Hw Hf Hrel Hrest. pose proof (reader_at_new reporter src Hf Hrel) as Hat. rewrite Hrest in Hat.
  destruct (log_passed 0 rs c off Hw ltac:(wal_lia) u _ _ Hat) as (rd1 & f1 & Hat1 & L).
  destruct (delivers_total false [] [] (rd1, f1)) as [xs Hd]; [apply Hat1|].
  destruct (ForEachRecord_delivers (λ l r, l ++ [r]) [] reporter src (rs ++ xs) Hf (L _ Hd)) as (rd' & src' & E).
  exists xs, rd', src'. unfold ReadAll. by rewrite E, foldl_snoc.
Qed.

(** The log of [rs1], any bytes [t], and the records [rs2] written after them. *)
Lemma read_resumed rs1 c1 off1 t rs2 c2 off2 (reporter : option R) (src : F) :
  let o := Z.of_nat (length (c1 ++ t)) mod kBlockSize in
  wal 0 rs1 c1 off1 → wal o rs2 c2 off2 → no_end_record (t ++ c2) →
  sf_open src → sf_reliable src → sf_rest src = c1 ++ t ++ c2 →
  ∃ k xs rd' src', ReadAll (Reader_new reporter, src) = Some (rs1 ++ xs ++ drop k rs2, (rd', src')) ∧
    (k = 0%nat ∨ begins_within o (kBlockSize - o) rs2 k).
Proof.
  intros o Hw1 Hw2 Hno Hf Hrel Hrest.
  assert (0 ≤ o < kBlockSize) as Ho by by apply Z.mod_pos_bound.
  destruct (wal_boundary o rs2 c2 off2 Hw2 ltac:(lia)) as
    [Hshort|(k & junk & rest & o2 & c' & o' & Ec & Hj & Hc & Hw & Hk)].
  - destruct (ReadAll_prefix rs1 c1 off1 (t ++ c2) reporter src Hw1 Hf Hrel Hrest) as (xs & rd' & src' & E).
    exists (length rs2), xs, rd', src'. rewrite drop_all, app_nil_r. split; [done|]. right.
    eapply wal_begins_within; [exact Hw2|]. pose proof (Z.mod_le (kBlockSize - o) kBlockSize). wal_lia.
  - subst c2. rewrite app_assoc in Hno. apply no_end_record_app in Hno as [Hno _].
    assert (damaged rs1 (drop k rs2) (sf_rest src)) as Hdam.
    { exists c1, off1, (t ++ junk), rest, o2, c', o', []. split_and!; [done| |done..| |].
      - rewrite app_assoc, length_app, Nat2Z.inj_add, Hj, <-Zplus_mod_idemp_l. fold o.
        rewrite Zplus_mod_idemp_r. replace (o + _) with kBlockSize by lia. apply Z_mod_same_full.
      - apply torn_nil. eapply wal_offset; [done|by eapply continuation_offset].
      - by rewrite Hrest, app_nil_r, <-!app_assoc. }
    destruct (ForEachRecord_damaged rs1 (drop k rs2) reporter src Hdam Hf Hrel) as [xs E].
    destruct (E _ (λ l r, l ++ [r]) []) as (rd' & src' & E').
    exists k, xs, rd', src'. unfold ReadAll. rewrite E', foldl_snoc. split; [done|].
    destruct Hk as [->|(ca & oa & Hwa & Hla)]; [by left|]. right. exists ca, oa. split; [done|].
    pose proof (Z.mod_le (kBlockSize - o) kBlockSize). wal_lia.
Qed.

Context {W : Type} `{WritableFileSpec W}.

End resume.

(** ** Witness *)

(** A torn record of 57 bytes, and the records written after it: a small one,
    one that goes on in the next block, and another small one. *)
Definition torn_dest : StringDest := mkStringDest (take 57 (small_log (replicate 200 (byte_of_Z 0x7a)))).
Definition later_records : list bytes := [str "a"; replicate (Z.to_nat 33000) (byte_of_Z 0x7a); str "c"].


(** Of these the last one is read back. *)
Example later_records_read :
  match AddRecords later_records (Writer_new (Z.of_nat (length (wf_contents torn_dest))), torn_dest) with
  | Some (st, (_, f)) =>
      match ReadAll (Reader_new (Some test_reporter), mkStringSource (wf_contents f) 0) with
      | Some (rs, _) => Some (st, rs)
      | None => None
      end
  | None => None
  end = Some (OK, [str "c"]).
Proof. vm_compute. reflexivity. Qed.
