(* ===== verification/EnvPosix.v ===== *)
(** * The POSIX environment (src/env_posix.cc, include/mlsm/env.h)

    The system calls are not part of the program: they are the operations of
    the class [Kernel], over an abstract kernel state, and what POSIX documents
    of them is the class [KernelSpec].  On top of them this file models every
    function of env_posix.cc, and proves that [PosixWritableFile] and
    [PosixSequentialFile] keep the promises of the file interfaces: partial
    writes, short reads and interrupted calls are absorbed by their loops. *)

From S2P Require Import Prelude Status Files.
Local Open Scope Z_scope.

(** ** System calls *)

Definition EINTR : Z := 4.
Definition EEXIST : Z := 17.

Inductive oflag : Type := O_CREAT | O_TRUNC | O_WRONLY | O_APPEND | O_RDONLY.

(** The calls the program makes.  A result is [inl] of what the call returns or
    [inr] of the [errno] of a failed call.  The last two operations are not
    calls; they bound the interruptions still to come and the bytes a
    descriptor can still deliver, and serve as iteration bounds. *)
Class Kernel (K : Type) := {
  sys_open : bytes → list oflag → K → (Z + Z) * K;
  sys_write : Z → bytes → K → (Z + Z) * K;
  sys_read : Z → Z → K → (bytes + Z) * K;
  sys_lseek_cur : Z → Z → K → (Z + Z) * K;
  sys_fsync : Z → K → (unit + Z) * K;
  sys_close : Z → K → (unit + Z) * K;
  sys_access : bytes → K → bool;
  sys_stat_size : bytes → K → (Z + Z) * K;
  sys_mkdir : bytes → K → (unit + Z) * K;
  strerror : Z → bytes;
  sys_interrupts : K → nat;
  sys_left : Z → K → nat;
}.

Section posix.
Context {K : Type} `{Kernel K}.

Definition PosixError (context : bytes) (errno : Z) : Status :=
  IOError (context ++ str ": " ++ strerror errno).

(** ** [PosixWritableFile] *)

Record PosixWritableFile : Type := mkPosixWritableFile { wpath_ : bytes; wfd_ : Z }.

(** The loop of [Append] on the bytes left to write. *)
Fixpoint Append_loop (fuel : nat) (file : PosixWritableFile) (src : bytes) : M K Status :=
  match src with
  | [] => ret OK
  | _ =>
      match fuel with
      | O => out_of_fuel
      | S fuel => λ k,
          match sys_write (wfd_ file) src k with
          | (inr errno, k) =>
              if errno =? EINTR then Append_loop fuel file src k
              else Some (PosixError (str "write " ++ wpath_ file) errno, k)
          | (inl written, k) => Append_loop fuel file (drop (Z.to_nat written) src) k
          end
      end
  end.

(** Every iteration writes a byte or is one of the interruptions
    ([Append_loop_spec]). *)
Definition Posix_Append (data : bytes) : M (PosixWritableFile * K) Status := λ '(file, k),
  match Append_loop (sys_interrupts k + length data) file data k with
  | Some (s, k) => Some (s, (file, k))
  | None => None
  end.

Definition Posix_Flush : M (PosixWritableFile * K) Status := ret OK.

Definition Posix_Sync : M (PosixWritableFile * K) Status := λ '(file, k),
  match sys_fsync (wfd_ file) k with
  | (inr errno, k) => Some (PosixError (str "fsync " ++ wpath_ file) errno, (file, k))
  | (inl _, k) => Some (OK, (file, k))
  end.

Definition Posix_Close : M (PosixWritableFile * K) Status := λ '(file, k),
  if 0 <=? wfd_ file then
    let fd := wfd_ file in
    let file := mkPosixWritableFile (wpath_ file) (-1) in
    match sys_close fd k with
    | (inr errno, k) => Some (PosixError (str "close " ++ wpath_ file) errno, (file, k))
    | (inl _, k) => Some (OK, (file, k))
    end
  else Some (OK, (file, k)).

(** [~PosixWritableFile] *)
Definition PosixWritableFile_destroy (file : PosixWritableFile) (k : K) : K :=
  if 0 <=? wfd_ file then (sys_close (wfd_ file) k).2 else k.

#[export] Instance PosixWritableFile_file : WritableFile (PosixWritableFile * K) := {
  Append := Posix_Append;
  Flush := Posix_Flush;
  Sync := Posix_Sync;
  Close := Posix_Close;
}.

(** ** [PosixSequentialFile] *)

Record PosixSequentialFile : Type := mkPosixSequentialFile { spath_ : bytes; sfd_ : Z }.

(** The loop of [Read]: [n] bytes are still wanted, [done] were read. *)
Fixpoint Read_loop (fuel : nat) (file : PosixSequentialFile) (n : Z) (done : bytes)
    : M K (Status * bytes) :=
  if Z.of_nat (length done) <? n then
    match fuel with
    | O => out_of_fuel
    | S fuel => λ k,
        match sys_read (sfd_ file) (n - Z.of_nat (length done)) k with
        | (inr errno, k) =>
            if errno =? EINTR then Read_loop fuel file n done k
            else Some ((PosixError (str "read " ++ spath_ file) errno, []), k)
        | (inl r, k) =>
            if Z.of_nat (length r) =? 0 then Some ((OK, done), k)
            else Read_loop fuel file n (done ++ r) k
        end
    end
  else ret (OK, done).

(** Every iteration reads a byte, ends at the end of the file or is one of the
    interruptions ([Read_loop_spec]).  When the call fails [*result] keeps the
    empty slice the caller initialised it with. *)
Definition Posix_Read (n : Z) : M (PosixSequentialFile * K) (Status * bytes) := λ '(file, k),
  match Read_loop (sys_interrupts k + sys_left (sfd_ file) k + 1) file n [] k with
  | Some (r, k) => Some (r, (file, k))
  | None => None
  end.

Definition Posix_Skip (n : Z) : M (PosixSequentialFile * K) Status := λ '(file, k),
  match sys_lseek_cur (sfd_ file) n k with
  | (inr errno, k) => Some (PosixError (str "lseek " ++ spath_ file) errno, (file, k))
  | (inl _, k) => Some (OK, (file, k))
  end.

(** [~PosixSequentialFile] *)
Definition PosixSequentialFile_destroy (file : PosixSequentialFile) (k : K) : K :=
  if 0 <=? sfd_ file then (sys_close (sfd_ file) k).2 else k.

#[export] Instance PosixSequentialFile_file : SequentialFile (PosixSequentialFile * K) := {
  Read := Posix_Read;
  Skip := Posix_Skip;
  sf_bound '(file, k) := sys_left (sfd_ file) k;
}.

(** ** The free functions *)

Definition NewWritableFile (path : bytes) : M K (Status * option PosixWritableFile) := λ k,
  match sys_open path [O_CREAT; O_TRUNC; O_WRONLY] k with
  | (inr errno, k) => Some ((PosixError (str "open " ++ path) errno, None), k)
  | (inl fd, k) => Some ((OK, Some (mkPosixWritableFile path fd)), k)
  end.

Definition NewAppendableFile (path : bytes) : M K (Status * option PosixWritableFile) := λ k,
  match sys_open path [O_CREAT; O_WRONLY; O_APPEND] k with
  | (inr errno, k) => Some ((PosixError (str "open " ++ path) errno, None), k)
  | (inl fd, k) => Some ((OK, Some (mkPosixWritableFile path fd)), k)
  end.

Definition NewSequentialFile (path : bytes) : M K (Status * option PosixSequentialFile) := λ k,
  match sys_open path [O_RDONLY] k with
  | (inr errno, k) => Some ((PosixError (str "open " ++ path) errno, None), k)
  | (inl fd, k) => Some ((OK, Some (mkPosixSequentialFile path fd)), k)
  end.

Definition FileExists (path : bytes) : M K bool := λ k, Some (sys_access path k, k).

Definition GetFileSize (path : bytes) : M K (Status * Z) := λ k,
  match sys_stat_size path k with
  | (inr errno, k) => Some ((PosixError (str "stat " ++ path) errno, 0), k)
  | (inl size, k) => Some ((OK, u64 size), k)
  end.

Definition MakeDir (path : bytes) : M K Status := λ k,
  match sys_mkdir path k with
  | (inr errno, k) =>
      if negb (errno =? EEXIST) then Some (PosixError (str "mkdir " ++ path) errno, k)
      else Some (OK, k)
  | (inl _, k) => Some (OK, k)
  end.

End posix.

(** ** What POSIX documents *)

Inductive FdMode : Type := FdAppend | FdRead (offset : nat).

(** The files by path, the part of each that is on stable storage, the open
    descriptors, and the kernels whose calls do not fail. *)
Class KernelView (K : Type) := {
  k_file : K → bytes → option bytes;
  k_durable : K → bytes → bytes;
  k_fd : K → Z → option (bytes * FdMode);
  k_reliable : K → Prop;
}.

Section frames.
Context {K : Type} `{KernelView K}.
Implicit Types (k : K) (p : bytes).

(** The files are the same and durable data only grew. *)
Definition same_files k k' : Prop :=
  (∀ p, k_file k' p = k_file k p) ∧ (∀ p, k_durable k p `prefix_of` k_durable k' p).

(** The same, but for the contents of one file. *)
Definition same_files_but p k k' : Prop :=
  ∀ p', p' ≠ p → k_file k' p' = k_file k p' ∧ k_durable k p' `prefix_of` k_durable k' p'.

(** The open descriptors other than [fd] are the same. *)
Definition same_fds_but (fd : Z) k k' : Prop := ∀ fd', fd' ≠ fd → k_fd k' fd' = k_fd k fd'.

Definition same_fds k k' : Prop := ∀ fd, k_fd k' fd = k_fd k fd.

#[export] Instance same_files_preorder : PreOrder same_files.
Proof.
  split.
  - by intros k.
  - intros k1 k2 k3 [H1 D1] [H2 D2]. split; intros p; [by rewrite H2, H1|].
    etrans; [apply D1|apply D2].
Qed.

(** The kernel after a crash of the machine.  A file that is still there keeps
    what was durable and then at most a prefix of what had been written, all of
    which is now on stable storage; a file whose directory entry had not
    reached the disk may be gone; nothing is open. *)
Definition crash k k' : Prop :=
  (∀ p c c', k_file k p = Some c → k_file k' p = Some c' →
     k_durable k p `prefix_of` c' ∧ c' `prefix_of` c ∧ k_durable k' p = c') ∧
  (∀ p, k_file k p = None → k_file k' p = None) ∧
  (∀ fd, k_fd k' fd = None).
End frames.

(** Documented behaviour of the calls.  Two remarks.  A [write] of at least one
    byte to a regular file writes at least one byte or fails.  The kernel does
    not interrupt calls for ever ([sys_interrupts] decreases). *)
Class KernelSpec (K : Type) `{Kernel K} `{KernelView K} := {
  durable_prefix (k : K) p c : k_file k p = Some c → k_durable k p `prefix_of` c;
  access_spec (k : K) p : sys_access p k = false → k_file k p = None;
  open_append_spec (k : K) p :
    match sys_open p [O_CREAT; O_WRONLY; O_APPEND] k with
    | (inl fd, k') =>
        0 ≤ fd ∧ k_fd k fd = None ∧ k_fd k' fd = Some (p, FdAppend) ∧ same_fds_but fd k k' ∧
        k_file k' p = Some (default [] (k_file k p)) ∧ same_files_but p k k' ∧
        k_durable k p `prefix_of` k_durable k' p ∧
        (k_reliable k → k_reliable k')
    | (inr _, k') => ¬ k_reliable k ∧ same_files k k' ∧ same_fds k k'
    end;
  open_trunc_spec (k : K) p :
    match sys_open p [O_CREAT; O_TRUNC; O_WRONLY] k with
    | (inl fd, k') =>
        0 ≤ fd ∧ k_fd k fd = None ∧ k_fd k' fd = Some (p, FdAppend) ∧ same_fds_but fd k k' ∧
        k_file k' p = Some [] ∧ same_files_but p k k' ∧ (k_reliable k → k_reliable k')
    | (inr _, k') => ¬ k_reliable k ∧ same_files k k' ∧ same_fds k k'
    end;
  open_read_spec (k : K) p :
    match sys_open p [O_RDONLY] k with
    | (inl fd, k') =>
        0 ≤ fd ∧ k_fd k fd = None ∧ k_fd k' fd = Some (p, FdRead 0) ∧ same_fds_but fd k k' ∧
        same_files k k' ∧ (k_reliable k → k_reliable k')
    | (inr _, k') => (k_reliable k → k_file k p = None) ∧ same_files k k' ∧ same_fds k k'
    end;
  write_spec (k : K) fd p c data :
    k_fd k fd = Some (p, FdAppend) → k_file k p = Some c → data ≠ [] →
    match sys_write fd data k with
    | (inl n, k') =>
        0 < n ≤ Z.of_nat (length data) ∧ k_file k' p = Some (c ++ take (Z.to_nat n) data) ∧
        k_durable k p `prefix_of` k_durable k' p ∧ same_files_but p k k' ∧ same_fds k k' ∧
        (sys_interrupts k' ≤ sys_interrupts k)%nat ∧ (k_reliable k → k_reliable k')
    | (inr e, k') =>
        same_files k k' ∧ same_fds k k' ∧
        (e = EINTR → (sys_interrupts k' < sys_interrupts k)%nat ∧ (k_reliable k → k_reliable k')) ∧
        (e ≠ EINTR → ¬ k_reliable k)
    end;
  read_spec (k : K) fd p c off n :
    k_fd k fd = Some (p, FdRead off) → k_file k p = Some c → 0 < n →
    match sys_read fd n k with
    | (inl data, k') =>
        data `prefix_of` drop off c ∧ Z.of_nat (length data) ≤ n ∧
        (data = [] → drop off c = []) ∧
        k_fd k' fd = Some (p, FdRead (off + length data)) ∧ same_fds_but fd k k' ∧
        same_files k k' ∧
        (sys_interrupts k' ≤ sys_interrupts k)%nat ∧ (k_reliable k → k_reliable k')
    | (inr e, k') =>
        same_files k k' ∧ same_fds k k' ∧
        (e = EINTR → (sys_interrupts k' < sys_interrupts k)%nat ∧ (k_reliable k → k_reliable k')) ∧
        (e ≠ EINTR → ¬ k_reliable k)
    end;
  left_spec (k : K) fd p c off :
    k_fd k fd = Some (p, FdRead off) → k_file k p = Some c →
    sys_left fd k = length (drop off c);
  fsync_spec (k : K) fd p c :
    k_fd k fd = Some (p, FdAppend) → k_file k p = Some c →
    match sys_fsync fd k with
    | (inl _, k') =>
        same_files k k' ∧ same_fds k k' ∧ k_durable k' p = c ∧ (k_reliable k → k_reliable k')
    | (inr _, k') => same_files k k' ∧ same_fds k k' ∧ ¬ k_reliable k
    end;
  close_spec (k : K) fd :
    let '(r, k') := sys_close fd k in
    same_files k k' ∧ k_fd k' fd = None ∧ same_fds_but fd k k' ∧
    (k_reliable k → k_reliable k');
  stat_spec (k : K) p c :
    k_file k p = Some c →
    match sys_stat_size p k with
    | (inl size, k') =>
        size = Z.of_nat (length c) ∧ same_files k k' ∧ same_fds k k' ∧
        (k_reliable k → k_reliable k')
    | (inr _, k') => same_files k k' ∧ same_fds k k' ∧ ¬ k_reliable k
    end;
  mkdir_spec (k : K) p :
    match sys_mkdir p k with
    | (inl _, k') =>
        same_files k k' ∧ same_fds k k' ∧ (k_reliable k → k_reliable k') ∧
        (∀ p', p' ≠ p → sys_access p' k' = sys_access p' k)
    | (inr e, k') =>
        same_files k k' ∧ same_fds k k' ∧ (e = EEXIST → k_reliable k → k_reliable k') ∧
        (e ≠ EEXIST → ¬ k_reliable k) ∧ (∀ p', sys_access p' k' = sys_access p' k)
    end;
}.

(** ** The POSIX files keep the promises of the interfaces *)

Section posix_files.
Context {K : Type} `{KernelSpec K}.
Implicit Types (k : K) (p : bytes).

(** *** Writing *)

(** The descriptor of [file] is open for appending on its path. *)
Definition posix_wopen (file : PosixWritableFile) k : Prop :=
  k_fd k (wfd_ file) = Some (wpath_ file, FdAppend) ∧ is_Some (k_file k (wpath_ file)).

Definition contents_at p k : bytes := default [] (k_file k p).

Lemma posix_wopen_frame file k k' :
  posix_wopen file k → same_fds k k' → is_Some (k_file k' (wpath_ file)) → posix_wopen file k'.
Proof. intros [Hfd _] Hs Hsome. split; [by rewrite Hs|done]. Qed.

Lemma Append_loop_spec fuel file src k :
  posix_wopen file k → (sys_interrupts k + length src ≤ fuel)%nat →
  ∃ st k' q, Append_loop fuel file src k = Some (st, k') ∧ posix_wopen file k' ∧
    contents_at (wpath_ file) k' = contents_at (wpath_ file) k ++ q ∧ q `prefix_of` src ∧
    (ok st = true → q = src) ∧
    k_durable k (wpath_ file) `prefix_of` k_durable k' (wpath_ file) ∧
    (k_reliable k → ok st = true ∧ k_reliable k').
Proof.
  revert src k. induction fuel as [|fuel IH]; intros src k Hopen Hfuel;
    (destruct src as [|b src'];
      [exists OK, k, []; rewrite app_nil_r; split_and!; done|]); [simpl in Hfuel; lia|].
  set (src := b :: src') in *. cbn [Append_loop].
  pose proof Hopen as [Hfd [c Hc]].
  pose proof (write_spec k _ _ c src Hfd Hc ltac:(done)) as Hw.
  change (match src with [] => ret OK | _ :: _ => ?x end) with x.
  unfold src at 1. fold src.
  destruct (sys_write (wfd_ file) src k) as [[n|e] k1].
  - destruct Hw as (Hn & Hc1 & Hd1 & _ & Hfds & Hint & Hrel1).
    destruct (IH (drop (Z.to_nat n) src) k1) as
      (st & k' & q & E & Hopen' & Hc' & Hq & Hok & Hd' & Hrel').
    { apply (posix_wopen_frame _ _ _ Hopen Hfds). by rewrite Hc1. }
    { rewrite length_drop. lia. }
    exists st, k', (take (Z.to_nat n) src ++ q). split_and!; [done|done| | | |by etrans|].
    + rewrite Hc'. unfold contents_at. by rewrite Hc1, Hc, app_assoc.
    + rewrite <-(take_drop (Z.to_nat n) src) at 2. by apply prefix_app.
    + intros Hst. by rewrite (Hok Hst), take_drop.
    + intros Hrel. by apply Hrel', Hrel1.
  - destruct Hw as (Hfiles & Hfds & Hintr & Hfail). destruct (Z.eqb_spec e EINTR) as [->|Hne].
    + destruct (Hintr eq_refl) as [Hint Hrel1]. destruct Hfiles as [Hf Hd].
      destruct (IH src k1) as (st & k' & q & E & Hopen' & Hc' & Hq & Hok & Hd' & Hrel').
      { apply (posix_wopen_frame _ _ _ Hopen Hfds). by rewrite Hf, Hc. }
      { lia. }
      exists st, k', q. split_and!; [done|done| |done|done| |].
      * rewrite Hc'. unfold contents_at. by rewrite Hf.
      * etrans; [apply Hd|done].
      * intros Hrel. by apply Hrel', Hrel1.
    + destruct Hfiles as [Hf Hd]. eexists _, k1, []. split_and!; [done| | | | |apply Hd|].
      * apply (posix_wopen_frame _ _ _ Hopen Hfds). by rewrite Hf, Hc.
      * unfold contents_at. by rewrite Hf, app_nil_r.
      * apply prefix_nil.
      * done.
      * intros Hrel. by destruct (Hfail Hne).
Qed.

#[export] Program Instance PosixWritableFile_spec : WritableFileSpec (PosixWritableFile * K) := {
  wf_open s := posix_wopen s.1 s.2;
  wf_reliable s := k_reliable s.2;
  wf_contents s := contents_at (wpath_ s.1) s.2;
  wf_durable s := k_durable s.2 (wpath_ s.1);
}.
Next Obligation.
  intros [file k] [_ [c Hc]]. unfold contents_at. simpl in *. rewrite Hc.
  by apply durable_prefix.
Qed.
Next Obligation.
  intros [file k] data Hopen. simpl in *.
  destruct (Append_loop_spec (sys_interrupts k + length data) file data k Hopen)
    as (st & k' & q & -> & ?); [lia|].
  by exists st, (file, k'), q.
Qed.
Next Obligation. intros [file k] Hopen. by exists OK, (file, k). Qed.
Next Obligation.
  intros [file k] Hopen. simpl in *. pose proof Hopen as [Hfd [c Hc]].
  pose proof (fsync_spec k _ _ c Hfd Hc) as Hs.
  destruct (sys_fsync (wfd_ file) k) as [[[]|e] k1].
  - destruct Hs as ([Hf Hd] & Hfds & Hdur & Hrel). exists OK, (file, k1). simpl.
    assert (contents_at (wpath_ file) k1 = contents_at (wpath_ file) k) as Hcont
      by (unfold contents_at; by rewrite Hf).
    split_and!; [done| |done|apply Hd| |by auto].
    + apply (posix_wopen_frame _ _ _ Hopen Hfds). by rewrite Hf, Hc.
    + intros _. unfold contents_at. by rewrite Hdur, Hc.
  - destruct Hs as ([Hf Hd] & Hfds & Hrel). eexists _, (file, k1).
    split_and!; [done| | |apply Hd|done|done].
    + apply (posix_wopen_frame _ _ _ Hopen Hfds). simpl. by rewrite Hf, Hc.
    + simpl. unfold contents_at. by rewrite Hf.
Qed.

(** *** Reading *)

(** The descriptor of [file] is open for reading and its offset is inside the
    file. *)
Definition posix_sopen (file : PosixSequentialFile) k : Prop :=
  ∃ off c, k_fd k (sfd_ file) = Some (spath_ file, FdRead off) ∧
    k_file k (spath_ file) = Some c ∧ (off ≤ length c)%nat.

(** The bytes from the offset of the descriptor on. *)
Definition posix_rest (file : PosixSequentialFile) k : bytes :=
  match k_fd k (sfd_ file), k_file k (spath_ file) with
  | Some (_, FdRead off), Some c => drop off c
  | _, _ => []
  end.

Lemma posix_rest_eq file k off c :
  k_fd k (sfd_ file) = Some (spath_ file, FdRead off) →
  k_file k (spath_ file) = Some c → posix_rest file k = drop off c.
Proof. unfold posix_rest. by intros -> ->. Qed.

(** What a read leaves alone. *)
Definition read_frame (file : PosixSequentialFile) k k' : Prop :=
  same_files k k' ∧ same_fds_but (sfd_ file) k k'.

Lemma read_frame_trans file k1 k2 k3 :
  read_frame file k1 k2 → read_frame file k2 k3 → read_frame file k1 k3.
Proof.
  intros [Hf1 Hd1] [Hf2 Hd2]. split; [by etrans|].
  intros fd Hne. by rewrite Hd2, Hd1.
Qed.

Lemma posix_sopen_same file k k' :
  posix_sopen file k → same_files k k' → same_fds k k' →
  posix_sopen file k' ∧ posix_rest file k' = posix_rest file k ∧ read_frame file k k'.
Proof.
  intros (off & c & Hfd & Hc & Hoff) [Hf Hd] Hfds. split_and!.
  - exists off, c. by rewrite Hfds, Hf.
  - unfold posix_rest. by rewrite Hfds, Hf.
  - split; [done|]. intros fd _. apply Hfds.
Qed.

(** One successful [read]. *)
Lemma sys_read_step file k n data k1 :
  posix_sopen file k → 0 < n → sys_read (sfd_ file) n k = (inl data, k1) →
  posix_sopen file k1 ∧ read_frame file k k1 ∧
  posix_rest file k = data ++ posix_rest file k1 ∧
  Z.of_nat (length data) ≤ n ∧ (data = [] → posix_rest file k = []) ∧
  (sys_interrupts k1 ≤ sys_interrupts k)%nat ∧ (k_reliable k → k_reliable k1).
Proof.
  intros (off & c & Hfd & Hc & Hoff) Hn E.
  pose proof (read_spec k _ _ c off n Hfd Hc Hn) as Hr. rewrite E in Hr.
  destruct Hr as ([t Ht] & Hle & Hnil & Hfd1 & Hfds & Hfiles & Hint & Hrel).
  pose proof (f_equal length Ht) as Hlen. rewrite length_drop, length_app in Hlen.
  assert (k_file k1 (spath_ file) = Some c) as Hc1 by (by rewrite (proj1 Hfiles)).
  rewrite (posix_rest_eq _ _ _ _ Hfd Hc), (posix_rest_eq _ _ _ _ Hfd1 Hc1).
  split_and!; [|by split| |done|done|done|done].
  - exists (off + length data)%nat, c. split_and!; [done|done|lia].
  - rewrite <-drop_drop, Ht. by rewrite drop_app_length.
Qed.

Lemma Read_loop_spec fuel file n acc k :
  posix_sopen file k → Z.of_nat (length acc) ≤ n →
  (sys_interrupts k + length (posix_rest file k) < fuel)%nat →
  let m := Z.to_nat (n - Z.of_nat (length acc)) in
  ∃ st data k', Read_loop fuel file n acc k = Some ((st, data), k') ∧
    posix_sopen file k' ∧ read_frame file k k' ∧
    (ok st = true → data = acc ++ take m (posix_rest file k) ∧
                    posix_rest file k' = drop m (posix_rest file k)) ∧
    (k_reliable k → ok st = true ∧ k_reliable k').
Proof.
  revert acc k. induction fuel as [|fuel IH]; intros acc k Hopen Hacc Hfuel m; [lia|].
  cbn [Read_loop]. destruct (Z.ltb_spec (Z.of_nat (length acc)) n) as [Hlt|Hge].
  2:{ assert (m = 0%nat) as -> by lia. exists OK, acc, k.
      rewrite take_0, drop_0, app_nil_r. by split_and!; [..|split]. }
  destruct (sys_read (sfd_ file) (n - Z.of_nat (length acc)) k) as [[data|e] k1] eqn:E.
  - apply sys_read_step in E as (Hopen1 & Hfr & Hrest & Hle & Hnil & Hint & Hrel1); [|done|lia].
    destruct (Z.eqb_spec (Z.of_nat (length data)) 0) as [Hz|Hnz].
    + assert (data = []) as -> by (apply length_zero_iff_nil; lia).
      exists OK, acc, k1. rewrite (Hnil eq_refl), take_nil, drop_nil, app_nil_r.
      rewrite (Hnil eq_refl) in Hrest. split_and!; [done|done|done|by split|by auto].
    + rewrite Hrest, length_app in Hfuel.
      destruct (IH (acc ++ data) k1) as (st & d & k' & E' & Hopen' & Hfr' & Hok & Hrel');
        [done|rewrite length_app; lia|lia|].
      exists st, d, k'. split_and!; [done|done|by eapply read_frame_trans| |by auto].
      intros Hst. destruct (Hok Hst) as [-> ->].
      rewrite Hrest, take_app_ge, drop_app_ge, app_assoc, length_app by lia.
      by replace (Z.to_nat (n - Z.of_nat (length acc + length data)))
        with (m - length data)%nat by lia.
  - pose proof Hopen as (off & c & Hfd & Hc & Hoff).
    pose proof (read_spec k _ _ c off (n - Z.of_nat (length acc)) Hfd Hc ltac:(lia)) as Hr.
    rewrite E in Hr. destruct Hr as (Hfiles & Hfds & Hintr & Hfail).
    destruct (posix_sopen_same _ _ _ Hopen Hfiles Hfds) as (Hopen1 & Hrest & Hfr).
    destruct (Z.eqb_spec e EINTR) as [->|Hne].
    + destruct (Hintr eq_refl) as [Hint Hrel1]. rewrite <-Hrest in *.
      destruct (IH acc k1) as (st & d & k' & E' & Hopen' & Hfr' & Hok & Hrel'); [done..|lia|].
      exists st, d, k'. split_and!; [done|done|by eapply read_frame_trans|done|by auto].
    + eexists _, [], k1. split_and!; [done|done|done|done|].
      intros Hrel. by destruct (Hfail Hne).
Qed.

#[export] Program Instance PosixSequentialFile_spec :
    SequentialFileSpec (PosixSequentialFile * K) := {
  sf_open s := posix_sopen s.1 s.2;
  sf_reliable s := k_reliable s.2;
  sf_rest s := posix_rest s.1 s.2;
}.
Next Obligation.
  intros [file k] (off & c & Hfd & Hc & Hoff). simpl in *.
  rewrite (posix_rest_eq _ _ _ _ Hfd Hc). by eapply left_spec.
Qed.
Next Obligation.
  intros [file k] n Hopen Hn. simpl in *.
  assert (sys_left (sfd_ file) k = length (posix_rest file k)) as ->.
  { destruct Hopen as (off & c & Hfd & Hc & Hoff).
    rewrite (posix_rest_eq _ _ _ _ Hfd Hc). by eapply left_spec. }
  destruct (Read_loop_spec (sys_interrupts k + length (posix_rest file k) + 1) file n [] k Hopen)
    as (st & d & k' & -> & Hopen' & _ & Hok & Hrel); [simpl; lia|lia|].
  exists st, d, (file, k'). split_and!; [done..| |done].
  intros Hst. destruct (Hok Hst) as [Hd Hr]. simpl in *. by rewrite Z.sub_0_r in *.
Qed.

(** *** Theorems *)

(** C31: [Append] survives partial writes and interruptions.  On an open file it
    always returns; it reports success only when all of [data] was added at the
    end, otherwise a prefix of it was; nothing durable is lost; and it succeeds
    on a kernel whose calls do not fail, however they split or interrupt the
    transfer. *)
Theorem posix_append_complete (file : PosixWritableFile) k data :
  posix_wopen file k →
  ∃ st k' q, Posix_Append data (file, k) = Some (st, (file, k')) ∧ posix_wopen file k' ∧
    contents_at (wpath_ file) k' = contents_at (wpath_ file) k ++ q ∧ q `prefix_of` data ∧
    (ok st = true → q = data) ∧
    k_durable k (wpath_ file) `prefix_of` k_durable k' (wpath_ file) ∧
    (k_reliable k → ok st = true).
Proof.
  intros Hopen.
  destruct (Append_loop_spec (sys_interrupts k + length data) file data k Hopen)
    as (st & k' & q & E & ? & ? & ? & ? & ? & Hrel); [lia|].
  exists st, k', q. unfold Posix_Append. rewrite E. split_and!; [done..|]. by intros [? _]%Hrel.
Qed.

(** C32: [Read] delivers exactly the next [n] bytes of the file, or all that is
    left when there are fewer, however the kernel splits or interrupts the
    transfer; it always returns, leaves every file alone, and moves the offset
    by what it delivered. *)
Theorem posix_read_complete (file : PosixSequentialFile) k n :
  posix_sopen file k → 0 ≤ n →
  ∃ st data k', Posix_Read n (file, k) = Some ((st, data), (file, k')) ∧ posix_sopen file k' ∧
    same_files k k' ∧
    (ok st = true → data = take (Z.to_nat n) (posix_rest file k) ∧
       posix_rest file k' = drop (Z.to_nat n) (posix_rest file k)) ∧
    (k_reliable k → ok st = true).
Proof.
  intros Hopen Hn. unfold Posix_Read.
  pose proof Hopen as (off & c & Hfd & Hc & _).
  rewrite (left_spec k _ _ c off Hfd Hc), <-(posix_rest_eq _ _ _ _ Hfd Hc).
  destruct (Read_loop_spec (sys_interrupts k + length (posix_rest file k) + 1) file n [] k Hopen)
    as (st & data & k' & -> & Hopen' & [Hsame _] & Hok & Hrel); [simpl; lia|lia|].
  simpl in Hok. rewrite Z.sub_0_r in Hok. exists st, data, k'.
  split_and!; [done..|]. by intros [? _]%Hrel.
Qed.
End posix_files.
