(* ===== verification/MemKernel.v ===== *)
(** * A kernel in memory

    A concrete kernel with files, descriptors and a script of faults (short
    transfers, interruptions, errors), one per call.  It satisfies
    [KernelSpec], which shows that the assumptions on system calls can hold,
    with and without faults, and it runs the concrete scenarios of the
    development. *)

From S2P Require Import Prelude Status Files EnvPosix.
Local Open Scope Z_scope.

(** What happens to a call: it succeeds, transfers at most so many bytes (at
    least one), or fails with an error number.  Only [read] and [write] are
    interrupted. *)
Inductive fault : Type := FOk | FShort (n : nat) | FErr (errno : Z).

Record memfile : Type := mkMemfile { mf_data : bytes; mf_synced : nat }.

Record MemKernel : Type := mkMemKernel {
  mk_files : gmap bytes memfile;
  mk_fds : list (option (bytes * FdMode));
  mk_dirs : gset bytes;
  mk_script : list fault;
}.

Definition mem_file (k : MemKernel) (p : bytes) : option bytes := mf_data <$> mk_files k !! p.

Definition mem_fd (k : MemKernel) (fd : Z) : option (bytes * FdMode) :=
  if 0 <=? fd then mjoin (mk_fds k !! Z.to_nat fd) else None.

Definition set_files (fs : gmap bytes memfile) (k : MemKernel) : MemKernel :=
  mkMemKernel fs (mk_fds k) (mk_dirs k) (mk_script k).
Definition set_fds (fds : list (option (bytes * FdMode))) (k : MemKernel) : MemKernel :=
  mkMemKernel (mk_files k) fds (mk_dirs k) (mk_script k).

(** The fault of the next call, and the kernel without it. *)
Definition next_fault (k : MemKernel) : fault * MemKernel :=
  match mk_script k with
  | [] => (FOk, k)
  | f :: script => (f, mkMemKernel (mk_files k) (mk_fds k) (mk_dirs k) script)
  end.

Definition hard_error (f : fault) : option Z :=
  match f with FErr e => if e =? EINTR then None else Some e | _ => None end.

Definition mem_open_fd (p : bytes) (m : FdMode) (k : MemKernel) : (Z + Z) * MemKernel :=
  (inl (Z.of_nat (length (mk_fds k))), set_fds (mk_fds k ++ [Some (p, m)]) k).

Definition mem_open (p : bytes) (flags : list oflag) (k : MemKernel) : (Z + Z) * MemKernel :=
  let '(f, k) := next_fault k in
  match hard_error f with
  | Some e => (inr e, k)
  | None =>
      match flags with
      | [O_CREAT; O_WRONLY; O_APPEND] =>
          let file := default (mkMemfile [] 0) (mk_files k !! p) in
          mem_open_fd p FdAppend (set_files (<[p := file]> (mk_files k)) k)
      | [O_CREAT; O_TRUNC; O_WRONLY] =>
          mem_open_fd p FdAppend (set_files (<[p := mkMemfile [] 0]> (mk_files k)) k)
      | _ =>
          match mk_files k !! p with
          | Some _ => mem_open_fd p (FdRead 0) k
          | None => (inr 2, k)
          end
      end
  end.

(** How many of [n] bytes a call transfers. *)
Definition transfer (f : fault) (n : nat) : nat :=
  match f with FShort m => Nat.max 1 m `min` n | _ => n end.

Definition mem_write (fd : Z) (data : bytes) (k : MemKernel) : (Z + Z) * MemKernel :=
  let '(f, k) := next_fault k in
  match f with
  | FErr e => (inr e, k)
  | _ =>
      match mem_fd k fd with
      | Some (p, FdAppend) =>
          match mk_files k !! p with
          | Some file =>
              let n := transfer f (length data) in
              (inl (Z.of_nat n),
               set_files (<[p := mkMemfile (mf_data file ++ take n data) (mf_synced file)]>
                            (mk_files k)) k)
          | None => (inr 9, k)
          end
      | _ => (inr 9, k)
      end
  end.

Definition mem_read (fd : Z) (n : Z) (k : MemKernel) : (bytes + Z) * MemKernel :=
  let '(f, k) := next_fault k in
  match f with
  | FErr e => (inr e, k)
  | _ =>
      match mem_fd k fd with
      | Some (p, FdRead off) =>
          match mem_file k p with
          | Some c =>
              let data := take (transfer f (Z.to_nat n)) (drop off c) in
              (inl data,
               set_fds (<[Z.to_nat fd := Some (p, FdRead (off + length data))]> (mk_fds k)) k)
          | None => (inr 9, k)
          end
      | _ => (inr 9, k)
      end
  end.

Definition mem_lseek_cur (fd : Z) (n : Z) (k : MemKernel) : (Z + Z) * MemKernel :=
  match mem_fd k fd with
  | Some (p, FdRead off) =>
      let off := (off + Z.to_nat n)%nat in
      (inl (Z.of_nat off), set_fds (<[Z.to_nat fd := Some (p, FdRead off)]> (mk_fds k)) k)
  | _ => (inr 9, k)
  end.

Definition mem_fsync (fd : Z) (k : MemKernel) : (unit + Z) * MemKernel :=
  let '(f, k) := next_fault k in
  match hard_error f, mem_fd k fd with
  | Some e, _ => (inr e, k)
  | None, Some (p, FdAppend) =>
      match mk_files k !! p with
      | Some file =>
          (inl tt, set_files (<[p := mkMemfile (mf_data file) (length (mf_data file))]>
                                (mk_files k)) k)
      | None => (inr 9, k)
      end
  | None, _ => (inr 9, k)
  end.

Definition mem_close (fd : Z) (k : MemKernel) : (unit + Z) * MemKernel :=
  if 0 <=? fd then (inl tt, set_fds (<[Z.to_nat fd := None]> (mk_fds k)) k) else (inr 9, k).

Definition mem_stat_size (p : bytes) (k : MemKernel) : (Z + Z) * MemKernel :=
  let '(f, k) := next_fault k in
  match hard_error f, mem_file k p with
  | Some e, _ => (inr e, k)
  | None, Some c => (inl (Z.of_nat (length c)), k)
  | None, None => (inr 2, k)
  end.

Definition mem_mkdir (p : bytes) (k : MemKernel) : (unit + Z) * MemKernel :=
  let '(f, k) := next_fault k in
  match hard_error f with
  | Some e => (inr e, k)
  | None =>
      if bool_decide (p ∈ mk_dirs k) then (inr EEXIST, k)
      else (inl tt, mkMemKernel (mk_files k) (mk_fds k) ({[p]} ∪ mk_dirs k) (mk_script k))
  end.

#[export] Instance MemKernel_kernel : Kernel MemKernel := {
  sys_open := mem_open;
  sys_write := mem_write;
  sys_read := mem_read;
  sys_lseek_cur := mem_lseek_cur;
  sys_fsync := mem_fsync;
  sys_close := mem_close;
  sys_access p k := bool_decide (is_Some (mk_files k !! p)) || bool_decide (p ∈ mk_dirs k);
  sys_stat_size := mem_stat_size;
  sys_mkdir := mem_mkdir;
  strerror _ := str "error";
  sys_interrupts k := length (mk_script k);
  sys_left fd k :=
    match mem_fd k fd with
    | Some (p, FdRead off) => length (drop off (default [] (mem_file k p)))
    | _ => 0%nat
    end;
}.

Definition soft (f : fault) : Prop := match f with FErr e => e = EINTR | _ => True end.

#[export] Instance MemKernel_view : KernelView MemKernel := {
  k_file := mem_file;
  k_durable k p := from_option (λ f, take (mf_synced f) (mf_data f)) [] (mk_files k !! p);
  k_fd := mem_fd;
  k_reliable k := Forall soft (mk_script k);
}.

(** ** The laws *)

Lemma next_fault_spec k f k1 : next_fault k = (f, k1) →
  mk_files k1 = mk_files k ∧ mk_fds k1 = mk_fds k ∧ mk_dirs k1 = mk_dirs k ∧
  (k_reliable k → soft f ∧ k_reliable k1) ∧
  (length (mk_script k1) ≤ length (mk_script k))%nat ∧
  (f ≠ FOk → (length (mk_script k1) < length (mk_script k))%nat).
Proof.
  unfold next_fault. destruct k as [files fds dirs [|g script]]; simpl; intros ?; simplify_eq/=.
  - by split_and!; [..|intros].
  - split_and!; [done..| |lia|lia]. by intros [? ?]%Forall_cons.
Qed.

Lemma hard_error_soft f e : hard_error f = Some e → ¬ soft f.
Proof.
  destruct f as [| |e']; simpl; try done. destruct (Z.eqb_spec e' EINTR); [done|].
  by intros _ ?.
Qed.

Lemma same_mem k k' :
  mk_files k' = mk_files k → mk_fds k' = mk_fds k → same_files k k' ∧ same_fds k k'.
Proof.
  intros Hf Hd. split; [split|]; intros x; simpl.
  - unfold mem_file. by rewrite Hf.
  - by rewrite Hf.
  - unfold mem_fd. by rewrite Hd.
Qed.

Lemma mem_fd_open k p m fd : mem_fd (set_fds (mk_fds k ++ [Some (p, m)]) k) fd =
  if decide (fd = Z.of_nat (length (mk_fds k))) then Some (p, m) else mem_fd k fd.
Proof.
  unfold mem_fd. simpl. case_decide as E.
  - subst fd. rewrite (proj2 (Z.leb_le _ _)) by lia.
    by rewrite Nat2Z.id, lookup_app_r, Nat.sub_diag by lia.
  - destruct (Z.leb_spec 0 fd); [|done].
    destruct (decide (Z.to_nat fd < length (mk_fds k))%nat).
    + by rewrite lookup_app_l by lia.
    + rewrite lookup_app_r, (lookup_ge_None_2 (mk_fds k)) by lia.
      by rewrite lookup_ge_None_2 by (simpl; lia).
Qed.

Lemma mem_fd_next k : mem_fd k (Z.of_nat (length (mk_fds k))) = None.
Proof.
  unfold mem_fd. rewrite (proj2 (Z.leb_le _ _)), Nat2Z.id by lia.
  by rewrite lookup_ge_None_2 by lia.
Qed.

Lemma mem_fd_insert k fd v fd' : 0 ≤ fd → (Z.to_nat fd < length (mk_fds k))%nat →
  mem_fd (set_fds (<[Z.to_nat fd := v]> (mk_fds k)) k) fd' =
  if decide (fd' = fd) then v else mem_fd k fd'.
Proof.
  intros Hfd Hlt. unfold mem_fd. simpl. case_decide as E.
  - subst. rewrite (proj2 (Z.leb_le _ _)), list_lookup_insert_eq by lia. done.
  - destruct (Z.leb_spec 0 fd'); [|done]. by rewrite list_lookup_insert_ne by lia.
Qed.

Lemma mem_fd_valid k fd x : mem_fd k fd = Some x →
  0 ≤ fd ∧ (Z.to_nat fd < length (mk_fds k))%nat.
Proof.
  unfold mem_fd. destruct (Z.leb_spec 0 fd); [|done].
  destruct (mk_fds k !! Z.to_nat fd) eqn:E; [|done]. intros _. split; [done|].
  by eapply lookup_lt_Some.
Qed.

Lemma mem_file_insert (fs : gmap bytes memfile) p file k p' :
  mem_file (set_files (<[p := file]> fs) k) p' =
  if decide (p = p') then Some (mf_data file) else mf_data <$> fs !! p'.
Proof.
  unfold mem_file. simpl. rewrite lookup_insert. by case_decide.
Qed.

Lemma files_but_insert p file k :
  same_files_but p k (set_files (<[p := file]> (mk_files k)) k).
Proof.
  intros p' Hne. simpl. rewrite mem_file_insert, lookup_insert_ne by done.
  by rewrite decide_False by done.
Qed.

Lemma mem_open_new k k0 p m :
  mk_fds k = mk_fds k0 →
  let '(r, k') := mem_open_fd p m k in
  ∃ fd, r = inl fd ∧ 0 ≤ fd ∧ k_fd k0 fd = None ∧ k_fd k' fd = Some (p, m) ∧
    same_fds_but fd k0 k' ∧ mk_files k' = mk_files k ∧ mk_script k' = mk_script k.
Proof.
  intros Hfds. eexists. split; [done|]. split_and!; [lia| | | |done|done].
  - rewrite Hfds. apply mem_fd_next.
  - simpl. rewrite mem_fd_open. by rewrite decide_True.
  - intros fd' Hne. simpl. rewrite mem_fd_open, decide_False by done.
    unfold mem_fd. by rewrite Hfds.
Qed.

Lemma mem_open_append_spec k p :
  match mem_open p [O_CREAT; O_WRONLY; O_APPEND] k with
  | (inl fd, k') =>
      0 ≤ fd ∧ k_fd k fd = None ∧ k_fd k' fd = Some (p, FdAppend) ∧ same_fds_but fd k k' ∧
      k_file k' p = Some (default [] (k_file k p)) ∧ same_files_but p k k' ∧
      k_durable k p `prefix_of` k_durable k' p ∧ (k_reliable k → k_reliable k')
  | (inr _, k') => ¬ k_reliable k ∧ same_files k k' ∧ same_fds k k'
  end.
Proof.
  unfold mem_open. destruct (next_fault k) as [f k1] eqn:E.
  apply next_fault_spec in E as (Hf & Hd & Hdir & Hr & _ & _).
  destruct (hard_error f) eqn:Ef.
  - split; [|by apply same_mem]. intros [? _]%Hr. by apply hard_error_soft in Ef.
  - set (file := default _ _).
    pose proof (mem_open_new (set_files (<[p:=file]> (mk_files k1)) k1) k p FdAppend Hd) as Hn.
    destruct (mem_open_fd _ _ _) as [r k'].
    destruct Hn as (fd & -> & Hfd & Hnew & Hopen & Hbut & Hfiles & Hscr).
    simpl in Hfiles, Hscr. rewrite Hf in Hfiles.
    assert (mk_files k' !! p = Some file) as Hp by (by rewrite Hfiles, lookup_insert_eq).
    split_and!; [done..| | | |].
    + simpl. unfold mem_file. rewrite Hp. unfold file. rewrite Hf. simpl.
      by destruct (mk_files k !! p).
    + intros p' Hne. simpl. unfold mem_file. by rewrite Hfiles, lookup_insert_ne.
    + simpl. rewrite Hp. unfold file. rewrite Hf. by destruct (mk_files k !! p).
    + simpl. intros Hrel. rewrite Hscr. by apply Hr.
Qed.

Lemma mem_open_trunc_spec k p :
  match mem_open p [O_CREAT; O_TRUNC; O_WRONLY] k with
  | (inl fd, k') =>
      0 ≤ fd ∧ k_fd k fd = None ∧ k_fd k' fd = Some (p, FdAppend) ∧ same_fds_but fd k k' ∧
      k_file k' p = Some [] ∧ same_files_but p k k' ∧ (k_reliable k → k_reliable k')
  | (inr _, k') => ¬ k_reliable k ∧ same_files k k' ∧ same_fds k k'
  end.
Proof.
  unfold mem_open. destruct (next_fault k) as [f k1] eqn:E.
  apply next_fault_spec in E as (Hf & Hd & Hdir & Hr & _ & _).
  destruct (hard_error f) eqn:Ef.
  - split; [|by apply same_mem]. intros [? _]%Hr. by apply hard_error_soft in Ef.
  - set (file := mkMemfile [] 0).
    pose proof (mem_open_new (set_files (<[p:=file]> (mk_files k1)) k1) k p FdAppend Hd) as Hn.
    destruct (mem_open_fd _ _ _) as [r k'].
    destruct Hn as (fd & -> & Hfd & Hnew & Hopen & Hbut & Hfiles & Hscr).
    simpl in Hfiles, Hscr. rewrite Hf in Hfiles.
    split_and!; [done..| | |].
    + simpl. unfold mem_file. by rewrite Hfiles, lookup_insert_eq.
    + intros p' Hne. simpl. unfold mem_file. by rewrite Hfiles, lookup_insert_ne.
    + simpl. intros Hrel. rewrite Hscr. by apply Hr.
Qed.

Lemma mem_open_read_spec k p :
  match mem_open p [O_RDONLY] k with
  | (inl fd, k') =>
      0 ≤ fd ∧ k_fd k fd = None ∧ k_fd k' fd = Some (p, FdRead 0) ∧ same_fds_but fd k k' ∧
      same_files k k' ∧ (k_reliable k → k_reliable k')
  | (inr _, k') => (k_reliable k → k_file k p = None) ∧ same_files k k' ∧ same_fds k k'
  end.
Proof.
  unfold mem_open. destruct (next_fault k) as [f k1] eqn:E.
  apply next_fault_spec in E as (Hf & Hd & Hdir & Hr & _ & _).
  destruct (hard_error f) eqn:Ef.
  - split; [|by apply same_mem]. intros [? _]%Hr. by apply hard_error_soft in Ef.
  - destruct (mk_files k1 !! p) as [file|] eqn:Ep.
    + pose proof (mem_open_new k1 k p (FdRead 0) Hd) as Hn.
      destruct (mem_open_fd _ _ _) as [r k'].
      destruct Hn as (fd & -> & Hfd & Hnew & Hopen & Hbut & Hfiles & Hscr).
      split_and!; [done..| |].
      * split; intros p'; simpl; unfold mem_file; by rewrite Hfiles, Hf.
      * simpl. intros Hrel. rewrite Hscr. by apply Hr.
    + split; [|by apply same_mem]. intros _. simpl. unfold mem_file. by rewrite <-Hf, Ep.
Qed.

Lemma transfer_bounds f n : (0 < n)%nat → (0 < transfer f n ≤ n)%nat.
Proof. destruct f; simpl; lia. Qed.

Lemma mem_write_spec k fd p c data :
  k_fd k fd = Some (p, FdAppend) → k_file k p = Some c → data ≠ [] →
  match mem_write fd data k with
  | (inl n, k') =>
      0 < n ≤ Z.of_nat (length data) ∧ k_file k' p = Some (c ++ take (Z.to_nat n) data) ∧
      k_durable k p `prefix_of` k_durable k' p ∧ same_files_but p k k' ∧ same_fds k k' ∧
      (sys_interrupts k' ≤ sys_interrupts k)%nat ∧ (k_reliable k → k_reliable k')
  | (inr e, k') =>
      same_files k k' ∧ same_fds k k' ∧
      (e = EINTR → (sys_interrupts k' < sys_interrupts k)%nat ∧ (k_reliable k → k_reliable k')) ∧
      (e ≠ EINTR → ¬ k_reliable k)
  end.
Proof.
  simpl. intros Hfd Hc Hne. unfold mem_write. destruct (next_fault k) as [f k1] eqn:E.
  apply next_fault_spec in E as (Hf & Hd & Hdir & Hr & Hle & Hlt).
  assert (0 < length data)%nat by (destruct data; [done|simpl; lia]).
  assert (mem_fd k1 fd = Some (p, FdAppend)) as Hfd1 by (unfold mem_fd in *; by rewrite Hd).
  unfold mem_file in Hc. destruct (mk_files k !! p) as [file|] eqn:Ep; simplify_eq/=.
  assert (∀ g, g = f → soft g →
    let n := transfer f (length data) in
    let k' := set_files (<[p:=mkMemfile (mf_data file ++ take n data) (mf_synced file)]>
                           (mk_files k1)) k1 in
    0 < Z.of_nat n ≤ Z.of_nat (length data) ∧
    mem_file k' p = Some (mf_data file ++ take (Z.to_nat (Z.of_nat n)) data) ∧
    take (mf_synced file) (mf_data file) `prefix_of`
      from_option (λ f, take (mf_synced f) (mf_data f)) [] (mk_files k' !! p) ∧
    same_files_but p k k' ∧ same_fds k k' ∧
    (length (mk_script k') ≤ length (mk_script k))%nat ∧
    (Forall soft (mk_script k) → Forall soft (mk_script k'))) as Hok.
  { intros g Hg Hsoft n k'. subst n. split_and!.
    - pose proof (transfer_bounds f (length data)). lia.
    - pose proof (transfer_bounds f (length data)). lia.
    - unfold k'. rewrite mem_file_insert, decide_True by done. by rewrite Nat2Z.id.
    - simpl. rewrite lookup_insert_eq. simpl. rewrite take_app. apply prefix_app_r. done.
    - intros p' Hp. simpl. unfold mem_file. simpl. by rewrite Hf, lookup_insert_ne.
    - intros fd'. simpl. unfold mem_fd. simpl. by rewrite Hd.
    - done.
    - intros Hrel. by apply Hr. }
  destruct f as [|m|e].
  - rewrite Hfd1, Hf, Ep. rewrite Hf in Hok. by apply (Hok FOk).
  - rewrite Hfd1, Hf, Ep. rewrite Hf in Hok. by apply (Hok (FShort m)).
  - split_and!; [apply same_mem; done|by apply same_mem| |].
    + intros _. split; [by apply Hlt|]. intros Hrel. by apply Hr.
    + intros Hn Hrel. by destruct (Hr Hrel) as [? _].
Qed.

Lemma mem_read_spec k fd p c off n :
  k_fd k fd = Some (p, FdRead off) → k_file k p = Some c → 0 < n →
  match mem_read fd n k with
  | (inl data, k') =>
      data `prefix_of` drop off c ∧ Z.of_nat (length data) ≤ n ∧
      (data = [] → drop off c = []) ∧
      k_fd k' fd = Some (p, FdRead (off + length data)) ∧ same_fds_but fd k k' ∧
      same_files k k' ∧
      (sys_interrupts k' ≤ sys_interrupts k)%nat ∧ (k_reliable k → k_reliable k')
  | (inr e, k') =>
      same_files k k' ∧ same_fds k k' ∧
      (e = EINTR → (sys_interrupts k' < sys_interrupts k)%nat ∧ (k_reliable k → k_reliable k')) ∧
      (e ≠ EINTR → ¬ k_reliable k)
  end.
Proof.
  simpl. intros Hfd Hc Hn. unfold mem_read. destruct (next_fault k) as [f k1] eqn:E.
  apply next_fault_spec in E as (Hf & Hd & Hdir & Hr & Hle & Hlt).
  assert (mem_fd k1 fd = Some (p, FdRead off)) as Hfd1 by (unfold mem_fd in *; by rewrite Hd).
  assert (mem_file k1 p = Some c) as Hc1 by (unfold mem_file in *; by rewrite Hf).
  destruct (mem_fd_valid _ _ _ Hfd1) as [Hv1 Hv2].
  set (data := take (transfer f (Z.to_nat n)) (drop off c)).
  set (k' := set_fds (<[Z.to_nat fd := Some (p, FdRead (off + length data))]> (mk_fds k1)) k1).
  pose proof (transfer_bounds f (Z.to_nat n) ltac:(lia)) as Ht.
  assert (data `prefix_of` drop off c ∧ Z.of_nat (length data) ≤ n ∧
      (data = [] → drop off c = []) ∧
      mem_fd k' fd = Some (p, FdRead (off + length data)) ∧ same_fds_but fd k k' ∧
      same_files k k' ∧
      (length (mk_script k') ≤ length (mk_script k))%nat ∧
      (Forall soft (mk_script k) → Forall soft (mk_script k'))) as Hok.
  { split_and!.
    - apply take_prefix_of.
    - unfold data. rewrite length_take. lia.
    - intros Hnil%(f_equal length). unfold data in Hnil. rewrite length_take in Hnil.
      apply length_zero_iff_nil. simpl in Hnil. lia.
    - unfold k'. rewrite mem_fd_insert by done. by rewrite decide_True.
    - intros fd' Hne. simpl. unfold k'. rewrite mem_fd_insert, decide_False by done.
      unfold mem_fd. by rewrite Hd.
    - split; intros p'; simpl; unfold mem_file; simpl; by rewrite Hf.
    - done.
    - intros Hrel. by apply Hr. }
  destruct f as [|m|e].
  - by rewrite Hfd1, Hc1.
  - by rewrite Hfd1, Hc1.
  - split_and!; [apply same_mem; done|by apply same_mem| |].
    + intros _. split; [by apply Hlt|]. intros Hrel. by apply Hr.
    + intros Hne Hrel. by destruct (Hr Hrel) as [? _].
Qed.

Lemma mem_fsync_spec k fd p c :
  k_fd k fd = Some (p, FdAppend) → k_file k p = Some c →
  match mem_fsync fd k with
  | (inl _, k') =>
      same_files k k' ∧ same_fds k k' ∧ k_durable k' p = c ∧ (k_reliable k → k_reliable k')
  | (inr _, k') => same_files k k' ∧ same_fds k k' ∧ ¬ k_reliable k
  end.
Proof.
  simpl. intros Hfd Hc. unfold mem_fsync. destruct (next_fault k) as [f k1] eqn:E.
  apply next_fault_spec in E as (Hf & Hd & Hdir & Hr & _ & _).
  assert (mem_fd k1 fd = Some (p, FdAppend)) as -> by (unfold mem_fd in *; by rewrite Hd).
  unfold mem_file in Hc. destruct (mk_files k !! p) as [file|] eqn:Ep; simplify_eq/=.
  destruct (hard_error f) eqn:Ef.
  { split_and!; [by apply same_mem..|]. intros [? _]%Hr. by apply hard_error_soft in Ef. }
  rewrite Hf, Ep. split_and!; [split; intros p'|..].
  - simpl. rewrite mem_file_insert. unfold mem_file. case_decide; [subst; by rewrite Ep|done].
  - simpl. rewrite lookup_insert. case_decide; [subst; rewrite Ep; simpl|done].
    rewrite (take_ge (mf_data file) (length _)) by done. apply take_prefix_of.
  - intros fd'. simpl. unfold mem_fd. simpl. by rewrite Hd.
  - simpl. rewrite lookup_insert_eq. simpl. by rewrite take_ge.
  - intros Hrel. by apply Hr.
Qed.

Lemma mem_close_spec k fd :
  let '(r, k') := mem_close fd k in
  same_files k k' ∧ k_fd k' fd = None ∧ same_fds_but fd k k' ∧
  (k_reliable k → k_reliable k').
Proof.
  unfold mem_close. destruct (Z.leb_spec 0 fd).
  - split_and!; [done| | |done].
    + simpl. unfold mem_fd. simpl. rewrite (proj2 (Z.leb_le _ _)) by done.
      destruct (decide (Z.to_nat fd < length (mk_fds k))%nat).
      * by rewrite list_lookup_insert_eq.
      * by rewrite lookup_ge_None_2 by (rewrite length_insert; lia).
    + intros fd' Hne. simpl. unfold mem_fd. simpl. destruct (Z.leb_spec 0 fd'); [|done].
      by rewrite list_lookup_insert_ne by lia.
  - split_and!; [done| |done|done]. simpl. unfold mem_fd.
    by rewrite (proj2 (Z.leb_gt _ _)).
Qed.

#[export] Program Instance MemKernel_spec : KernelSpec MemKernel := {
  open_append_spec := mem_open_append_spec;
  open_trunc_spec := mem_open_trunc_spec;
  open_read_spec := mem_open_read_spec;
  write_spec := mem_write_spec;
  read_spec := mem_read_spec;
  fsync_spec := mem_fsync_spec;
  close_spec := mem_close_spec;
}.
Next Obligation.
  simpl. intros k p c. unfold mem_file. destruct (mk_files k !! p); [|done].
  intros [= <-]. apply take_prefix_of.
Qed.
Next Obligation.
  simpl. intros k p [Hn _]%orb_false_iff. unfold mem_file.
  destruct (mk_files k !! p); [|done]. by apply bool_decide_eq_false in Hn as [].
Qed.
Next Obligation.
  simpl. intros k fd p c off Hfd Hc. by rewrite Hfd, Hc.
Qed.
Next Obligation.
  simpl. intros k p c Hc. unfold mem_stat_size. destruct (next_fault k) as [f k1] eqn:E.
  apply next_fault_spec in E as (Hf & Hd & Hdir & Hr & _ & _).
  assert (mem_file k1 p = Some c) as -> by (unfold mem_file in *; by rewrite Hf).
  destruct (hard_error f) eqn:Ef.
  - split_and!; [by apply same_mem..|]. intros [? _]%Hr. by apply hard_error_soft in Ef.
  - split_and!; [done|by apply same_mem..|]. intros Hrel. by apply Hr.
Qed.
Next Obligation.
  simpl. intros k p. unfold mem_mkdir. destruct (next_fault k) as [f k1] eqn:E.
  apply next_fault_spec in E as (Hf & Hd & Hdir & Hr & _ & _).
  destruct (hard_error f) eqn:Ef.
  - split_and!; [by apply same_mem..| | |].
    + intros _ Hrel. by apply Hr.
    + intros _ [? _]%Hr. by apply hard_error_soft in Ef.
    + intros p'. by rewrite Hf, Hdir.
  - case_bool_decide.
    + split_and!; [by apply same_mem..| |done|].
      * intros _ Hrel. by apply Hr.
      * intros p'. by rewrite Hf, Hdir.
    + split_and!; [by apply same_mem..| |].
      * intros Hrel. by apply Hr.
      * intros p' Hne. simpl. rewrite Hf, Hdir. f_equal. apply bool_decide_ext. rewrite elem_of_union, elem_of_singleton. tauto.
Qed.

(** ** A crash of the machine *)

(** The files of [lost] disappear with their directory entry; of the others at
    most [cut] bytes that were not synced survive. *)
Definition mem_crash (lost : gset bytes) (cut : nat) (k : MemKernel) : MemKernel :=
  mkMemKernel
    ((λ f, let d := take (mf_synced f + cut) (mf_data f) in mkMemfile d (length d)) <$>
       filter (λ pf, pf.1 ∉ lost) (mk_files k))
    [] (mk_dirs k) [].

Lemma mem_crash_crash lost cut k : crash k (mem_crash lost cut k).
Proof.
  split_and!.
  - simpl. unfold mem_file, mem_crash. simpl. intros p c c'.
    rewrite lookup_fmap, map_lookup_filter.
    destruct (mk_files k !! p) as [f|]; [|done]. simpl. case_guard; [|done].
    intros [= <-] [= <-]. simpl. split_and!.
    + assert (take (mf_synced f) (mf_data f) =
              take (mf_synced f) (take (mf_synced f + cut) (mf_data f))) as ->.
      { rewrite take_take. f_equal. lia. }
      apply take_prefix_of.
    + apply take_prefix_of.
    + by rewrite take_ge.
  - simpl. unfold mem_file, mem_crash. simpl. intros p.
    rewrite lookup_fmap, map_lookup_filter. by destruct (mk_files k !! p).
  - intros fd. simpl. unfold mem_fd. simpl. by destruct (0 <=? fd).
Qed.

Lemma mem_crash_reliable lost cut k : k_reliable (mem_crash lost cut k).
Proof. by constructor. Qed.

(** ** Witnesses *)

(** A file open for writing and for reading, on a kernel that transfers a byte,
    interrupts and transfers two bytes. *)
Definition file_kernel : MemKernel :=
  mkMemKernel {[str "f" := mkMemfile (str "abcd") 2]}
    [Some (str "f", FdAppend); Some (str "f", FdRead 1)] ∅ [FShort 1; FErr EINTR; FShort 2].

Lemma posix_append_complete_witness :
  let file := mkPosixWritableFile (str "f") 0 in
  ∃ st k' q, Posix_Append (str "xyz") (file, file_kernel) = Some (st, (file, k')) ∧
    posix_wopen file k' ∧
    contents_at (wpath_ file) k' = contents_at (wpath_ file) file_kernel ++ q ∧
    q `prefix_of` str "xyz" ∧ (ok st = true → q = str "xyz") ∧
    k_durable file_kernel (wpath_ file) `prefix_of` k_durable k' (wpath_ file) ∧
    (k_reliable file_kernel → ok st = true).
Proof.
  apply (posix_append_complete (mkPosixWritableFile (str "f") 0) file_kernel (str "xyz")).
  split; [vm_compute; reflexivity|]. exists (str "abcd"). vm_compute. reflexivity.
Defined.

Lemma posix_read_complete_witness :
  let file := mkPosixSequentialFile (str "f") 1 in
  ∃ st data k', Posix_Read 2 (file, file_kernel) = Some ((st, data), (file, k')) ∧
    posix_sopen file k' ∧ same_files file_kernel k' ∧
    (ok st = true → data = take (Z.to_nat 2) (posix_rest file file_kernel) ∧
       posix_rest file k' = drop (Z.to_nat 2) (posix_rest file file_kernel)) ∧
    (k_reliable file_kernel → ok st = true).
Proof.
  apply (posix_read_complete (mkPosixSequentialFile (str "f") 1) file_kernel 2); [|lia].
  exists 1%nat, (str "abcd"). split_and!; [vm_compute; reflexivity..|simpl; lia].
Defined.
