(* ===== verification/PosixLog.v ===== *)
(** * Logs on POSIX files

    What the storage engine (src/db.cc) and the Raft storage
    (src/raft/storage.cc) share: reading a whole log through a POSIX file,
    sizing it and opening it for appending, and adding a record. *)

From S2P Require Import Prelude Status Files WalFormat WalWriter WalReader WalRecovery EnvPosix.
Local Open Scope Z_scope.

Lemma Writer_new_u64 n : Writer_new (u64 n) = Writer_new n.
Proof.
  unfold Writer_new, u64. f_equal. apply Z.mod_mod_divide. by exists (2 ^ 49).
Qed.

Section posix_log.
Context {K : Type} `{KernelSpec K}.
Implicit Types (k : K) (p : bytes).

Lemma access_file k p c : k_file k p = Some c → sys_access p k = true.
Proof.
  intros Hp. destruct (sys_access p k) eqn:E; [done|]. by rewrite (access_spec k p E) in Hp.
Qed.

(** What reading through a file leaves alone, over the file and the kernel. *)
Definition reads_only (s s' : PosixSequentialFile * K) : Prop :=
  s'.1 = s.1 ∧ read_frame s.1 s.2 s'.2 ∧ (k_reliable s.2 → k_reliable s'.2).

#[local] Instance reads_only_preorder : PreOrder reads_only.
Proof.
  split.
  - intros [f k]. split_and!; [done|by split|done].
  - intros [f1 k1] [f2 k2] [f3 k3] (E1 & F1 & R1) (E2 & F2 & R2). simpl in *. subst.
    split_and!; [done|by eapply read_frame_trans|by auto].
Qed.

Lemma Posix_Read_frame n (s : PosixSequentialFile * K) r s' :
  sf_open s → 0 ≤ n → Read n s = Some (r, s') → reads_only s s'.
Proof.
  destruct s as [file k]. intros (off & c & Hfd & Hc & Hoff) Hn. simpl in Hfd, Hc.
  simpl. rewrite (left_spec k _ _ c off Hfd Hc), <-(posix_rest_eq _ _ _ _ Hfd Hc).
  destruct (Read_loop_spec (sys_interrupts k + length (posix_rest file k) + 1) file n [] k)
    as (st & d & k' & -> & _ & Hfr & _ & Hrel); [by exists off, c|simpl; lia|lia|].
  intros [= <- <-]. split_and!; [done|done|]. intros Hk. by apply Hrel.
Qed.

(** Opening a file for reading, replaying it into [a] and closing it, where
    [P] is known of the replay of its contents. *)
Lemma replay_file {R} `{Reporter R} {A} (step : A → bytes → A) (a : A) (reporter : R) (P : A → Prop) p k c :
  k_reliable k → k_file k p = Some c →
  (∀ src : PosixSequentialFile * K, sf_open src → sf_reliable src → sf_rest src = c →
    ∃ a' rd src', ForEachRecord step a (Reader_new (Some reporter), src) = Some (a', (rd, src')) ∧ P a') →
  ∃ file k1 a' rd k2, NewSequentialFile p k = Some ((OK, Some file), k1) ∧
    ForEachRecord step a (Reader_new (Some reporter), (file, k1)) = Some (a', (rd, (file, k2))) ∧ P a' ∧
    same_files k (PosixSequentialFile_destroy file k2) ∧
    k_reliable (PosixSequentialFile_destroy file k2).
Proof.
  intros Hrel Hp Hread. unfold NewSequentialFile.
  pose proof (open_read_spec k p) as Ho.
  destruct (sys_open p [O_RDONLY] k) as [[fd|e] k1].
  2:{ destruct Ho as [Hnone _]. by rewrite (Hnone Hrel) in Hp. }
  destruct Ho as (Hfd0 & Hnew & Hfd & Hfds & Hfiles & Hrel1).
  set (file := mkPosixSequentialFile p fd).
  assert (sf_open (file, k1)) as Hopen.
  { exists 0%nat, c. split_and!; [done|by rewrite (proj1 Hfiles)|lia]. }
  assert (sf_rest (file, k1) = c) as Hrest.
  { simpl. rewrite (posix_rest_eq _ _ 0 c); [done..|]. by rewrite (proj1 Hfiles). }
  destruct (Hread (file, k1) Hopen (Hrel1 Hrel) Hrest) as (a' & rd & [file' k2] & E & HP).
  pose proof (ForEachRecord_frame reads_only Posix_Read_frame _ _ _ _ _ _ _ Hopen E)
    as [_ (Efile & [Hfr _] & Hrel2)]. simpl in Efile, Hfr, Hrel2. subst file'.
  exists file, k1, a', rd, k2. split_and!; [done..| |];
    unfold PosixSequentialFile_destroy; simpl sfd_; rewrite (proj2 (Z.leb_le 0 fd)) by done;
    pose proof (close_spec k2 fd) as Hc; destruct (sys_close fd k2) as [r k3];
    destruct Hc as (Hf3 & _ & _ & Hrel3); simpl; [|by auto].
  etrans; [done|]. by etrans.
Qed.

(** A log, with a torn record at its end at most. *)
Lemma replay_log {R} `{Reporter R} {A} (step : A → bytes → A) (a : A) (reporter : R) p k rs c off t :
  k_reliable k → k_file k p = Some (c ++ t) → wal 0 rs c off → torn off t →
  ∃ file k1 rd k2, NewSequentialFile p k = Some ((OK, Some file), k1) ∧
    ForEachRecord step a (Reader_new (Some reporter), (file, k1)) =
      Some (foldl step a rs, (rd, (file, k2))) ∧
    same_files k (PosixSequentialFile_destroy file k2) ∧
    k_reliable (PosixSequentialFile_destroy file k2).
Proof.
  intros Hrel Hp Hwal Ht.
  destruct (replay_file step a reporter (λ a', a' = foldl step a rs) p k (c ++ t) Hrel Hp)
    as (file & k1 & a' & rd & k2 & E1 & E2 & -> & Hfiles).
  { intros src Hopen Hsrc Hrest.
    destruct (ForEachRecord_wal step a rs c off t (Some reporter) src Hwal Ht Hopen Hsrc Hrest)
      as (rd & src' & E & _). by eexists _, rd, src'. }
  by exists file, k1, rd, k2.
Qed.

(** Sizing a file and opening it for appending, as both recoveries do. *)
Lemma open_resume k p c :
  k_reliable k → k_file k p = Some c →
  ∃ k1 k2 fd, GetFileSize p k = Some ((OK, u64 (Z.of_nat (length c))), k1) ∧
    NewAppendableFile p k1 = Some ((OK, Some (mkPosixWritableFile p fd)), k2) ∧
    k_fd k2 fd = Some (p, FdAppend) ∧ k_file k2 p = Some c ∧
    k_durable k p `prefix_of` k_durable k2 p ∧ k_reliable k2.
Proof.
  intros Hrel Hp. unfold GetFileSize.
  pose proof (stat_spec k p c Hp) as Hs. destruct (sys_stat_size p k) as [[sz|e] k1].
  2:{ by destruct Hs as (_ & _ & []). }
  destruct Hs as (-> & [Hf Hd] & _ & Hrel1). exists k1. unfold NewAppendableFile.
  pose proof (open_append_spec k1 p) as Ho.
  destruct (sys_open p [O_CREAT; O_WRONLY; O_APPEND] k1) as [[fd|e] k2].
  2:{ destruct Ho as [[] _]. by auto. }
  destruct Ho as (_ & _ & Hfd & _ & Hp2 & _ & Hd2 & Hrel2).
  exists k2, fd. split_and!; [done..| | |by auto]; [by rewrite Hp2, Hf, Hp|].
  etrans; [apply Hd|done].
Qed.

(** Writing keeps the file object: only the kernel changes. *)
Lemma AddRecord_same_file slice w file k st w' file' k' :
  AddRecord slice (w, (file, k)) = Some (st, (w', (file', k'))) → file' = file.
Proof.
  set (Rel := λ s s' : PosixWritableFile * K, s'.1 = s.1).
  assert (PreOrder Rel) as HR by (split; [done|]; intros ? ? ? H2 H3; unfold Rel; congruence).
  assert (∀ d f st f', Append d f = Some (st, f') → Rel f f') as HA.
  { intros d [f k2] st2 [f' k2']. simpl.
    destruct (Append_loop _ f d k2) as [[]|]; [|done]. by intros [= _ <- _]. }
  assert (∀ f st f', Flush f = Some (st, f') → Rel f f') as HF.
  { by intros [f k2] st2 [f' k2'] [= _ <- _]. }
  apply (AddRecord_frame Rel HA HF).
Qed.

Lemma MakeDir_spec k p : k_reliable k →
  ∃ k', MakeDir p k = Some (OK, k') ∧ same_files k k' ∧ k_reliable k' ∧
    (∀ p', p' ≠ p → sys_access p' k' = sys_access p' k).
Proof.
  intros Hrel. unfold MakeDir. pose proof (mkdir_spec k p) as Hm.
  destruct (sys_mkdir p k) as [[[]|e] k1].
  - destruct Hm as (Hf & _ & Hr & Ha). exists k1. by split_and!; [..|apply Hr|].
  - destruct Hm as (Hf & _ & Hr & Hfail & Ha).
    destruct (Z.eqb_spec e EEXIST) as [->|Hne]; [|by destruct (Hfail Hne)].
    exists k1. split_and!; [done|done|by apply Hr|]. intros p' _. apply Ha.
Qed.

(** *** Crashes *)

(** The file at [p] holds the durable log of [rs], and no more than the log of
    [rs'] was written after it. *)
Definition logged p (rs rs' : list bytes) k : Prop :=
  ∃ d offd c off c', wal 0 rs d offd ∧ d `prefix_of` k_durable k p ∧
    wal 0 (rs ++ rs') c off ∧ k_file k p = Some c' ∧ c' `prefix_of` c.

(** What a crash leaves of it: the durable records, some of the others in
    order, and a torn record. *)
Lemma crash_logged p rs rs' k kc c' :
  logged p rs rs' k → crash k kc → k_file kc p = Some c' →
  ∃ j c off t, c' = c ++ t ∧ wal 0 (rs ++ take j rs') c off ∧ torn off t ∧
    k_durable kc p = c'.
Proof.
  intros (d & offd & c & off & c0 & Hd & Hdur & Hc & Hc0 & Hpre) (Hcr & _) Hc'.
  destruct (Hcr p c0 c' Hc0 Hc') as (Hd' & Hpre' & Hdur'). clear Hcr.
  destruct (wal_app_inv _ _ _ _ _ Hc) as (d1 & c2 & off1 & -> & Hd1 & Hc2).
  destruct (wal_fun _ _ _ _ _ _ Hd Hd1) as [<- <-].
  assert (d `prefix_of` c') as [u ->] by (by etrans).
  assert (u `prefix_of` c2) as Hu by (eapply prefix_app_inv; by etrans).
  assert (0 ≤ offd ≤ kBlockSize) as Hoffd by (eapply wal_offset; [done|wal_lia]).
  destruct (wal_cut _ _ _ _ _ Hc2 Hoffd Hu) as (j & c1 & off3 & t & -> & Hw1 & Ht & _ & _).
  exists j, (d ++ c1), off3, t. split_and!; [by rewrite app_assoc| |done|done].
  by eapply wal_concat.
Qed.

(** *** Adding records and syncing *)

(** The writer stands at the end of the log of [rs ++ rs'], of which [rs] is
    known to be durable. *)
Definition posix_log (w : Writer) (file : PosixWritableFile) (rs rs' : list bytes) k : Prop :=
  log_state w (file, k) (rs ++ rs') ∧ logged (wpath_ file) rs rs' k.

Lemma AddRecord_posix w file rs rs' r k :
  posix_log w file rs rs' k →
  ∃ st w' k', AddRecord r (w, (file, k)) = Some (st, (w', (file, k'))) ∧
    logged (wpath_ file) rs (rs' ++ [r]) k' ∧
    (ok st = true → posix_log w' file rs (rs' ++ [r]) k') ∧
    (k_reliable k → ok st = true ∧ k_reliable k').
Proof.
  intros [Hlog (d & offd & _ & _ & _ & Hd & Hdur & _)].
  destruct (AddRecord_log w (file, k) _ r Hlog)
    as (st & w' & [file' k'] & E & [Hfd [c' Hc']] & Hdur' & Hrel & Hok & c & off & Hwal & _ & Hpre).
  pose proof (AddRecord_same_file _ _ _ _ _ _ _ _ E) as ->.
  rewrite <-app_assoc in *. simpl in Hfd, Hc', Hpre, Hdur', Hrel. unfold contents_at in Hpre.
  rewrite Hc' in Hpre. simpl in Hpre.
  assert (logged (wpath_ file) rs (rs' ++ [r]) k') as HL
    by (exists d, offd, c, off, c'; split_and!; [done|by etrans|done..]).
  exists st, w', k'. split_and!; [done..| |done]. intros Ok. split; [by apply Hok|done].
Qed.

Lemma Sync_posix w file rs rs' k :
  posix_log w file rs rs' k →
  ∃ st k', Sync (file, k) = Some (st, (file, k')) ∧
    logged (wpath_ file) rs rs' k' ∧
    (ok st = true → posix_log w file (rs ++ rs') [] k') ∧
    (k_reliable k → ok st = true ∧ k_reliable k').
Proof.
  intros [(Hopen & Hw & off & Hwal & Hoff) (d & offd & c & offc & c' & Hd & Hdur & Hc & Hc' & Hpre)].
  destruct (wf_sync (WritableFileSpec := PosixWritableFile_spec) (file, k) Hopen)
    as (st & [file' k'] & E & Hopen' & Hcont & Hdur' & Hok & Hrel).
  assert (file' = file) as -> by (simpl in E; destruct (sys_fsync _ _) as [[]]; by injection E).
  pose proof Hopen' as [_ [c2 Hc2]]. simpl in Hcont, Hdur', Hok, Hrel, Hc2. rewrite <-Hcont in Hok.
  assert (c2 = c') as ->.
  { unfold contents_at in Hcont. rewrite Hc2, Hc' in Hcont. done. }
  exists st, k'. split_and!; [done| | |done].
  - exists d, offd, c, offc, c'. split_and!; [done|by etrans|done..].
  - intros Ok. unfold posix_log. rewrite app_nil_r. split.
    + split_and!; [done..|]. exists off. simpl. by rewrite Hcont.
    + simpl in Hwal. rewrite <-Hcont in Hwal. exists (contents_at (wpath_ file) k'), off.
      rewrite app_nil_r. exists (contents_at (wpath_ file) k'), off, c'. unfold contents_at in *.
      rewrite Hc2 in *. rewrite (Hok Ok). by split_and!.
Qed.
End posix_log.
