(* ===== verification/Db.v ===== *)
(** * The storage engine (src/db.cc, include/mlsm/db.h)

    [DBImpl]: an in-memory table in front of the write-ahead log.  Modelled on
    top of the writer, the reader and the POSIX environment: the record
    encoding, [Put], [Delete], [Get], the recovery of [Open] and the
    destructor. *)

From S2P Require Import Prelude Status Coding Files WalFormat WalWriter WalReader EnvPosix.
Local Open Scope Z_scope.

(** [ValueType] is an enumeration over [uint8_t]: a decoded tag may have any
    8-bit value. *)
Definition kTypeDelete : Z := 0.
Definition kTypePut : Z := 1.

Definition kWalName : bytes := str "wal.log".

Definition DbFile (dbpath name : bytes) : bytes := dbpath ++ str "/" ++ name.

(** [EncodeRecord] *)
Definition EncodeRecord (type : Z) (key value : bytes) : bytes :=
  [byte_of_Z type] ++
  EncodeFixed32 (u32 (Z.of_nat (length key))) ++ key ++
  (if type =? kTypePut
   then EncodeFixed32 (u32 (Z.of_nat (length value))) ++ value
   else []).

(** [DecodeRecord]: the type, key and value, or nothing where the function
    returns false. *)
Definition DecodeRecord (record : bytes) : option (Z * bytes * bytes) :=
  if Z.of_nat (length record) <? 1 + 4 then None
  else
    let type := byte_to_Z (record !!! 0%nat) in
    let p := drop 1 record in
    let klen := DecodeFixed32 p in
    let p := drop 4 p in
    if Z.of_nat (length p) <? klen then None
    else
      let key := take (Z.to_nat klen) p in
      let p := drop (Z.to_nat klen) p in
      if type =? kTypePut then
        if Z.of_nat (length p) <? 4 then None
        else
          let vlen := DecodeFixed32 p in
          let p := drop 4 p in
          if Z.of_nat (length p) <? vlen then None
          else Some (type, key, take (Z.to_nat vlen) p)
      else Some (type, key, []).

(** [RecoveryReporter]: counts the corruption reports. *)
Record RecoveryReporter : Type := mkRecoveryReporter { corruptions_ : Z }.

#[export] Instance RecoveryReporter_reporter : Reporter RecoveryReporter :=
  λ _ _ r, mkRecoveryReporter (corruptions_ r + 1).

(** The fields of [DBImpl]; the pointers are null until [Recover] succeeds. *)
Record DBImpl : Type := mkDBImpl {
  dbpath_ : bytes;
  table_ : gmap bytes bytes;
  wal_file_ : option PosixWritableFile;
  wal_writer_ : option Writer;
}.

Definition DBImpl_new (dbpath : bytes) : DBImpl := mkDBImpl dbpath ∅ None None.

Definition Apply (type : Z) (key value : bytes) (db : DBImpl) : DBImpl :=
  mkDBImpl (dbpath_ db)
    (if type =? kTypePut then <[key := value]> (table_ db) else delete key (table_ db))
    (wal_file_ db) (wal_writer_ db).

Record Options : Type := mkOptions { create_if_missing : bool }.

Section db.
Context {K : Type} `{Kernel K}.

(** The body of the loop of [ReplayWal]. *)
Definition replay_record (db : DBImpl) (record : bytes) : DBImpl :=
  match DecodeRecord record with
  | Some (type, key, value) => Apply type key value db
  | None => db
  end.

Definition ReplayWal (wal_path : bytes) (db : DBImpl) : M K (Status * DBImpl) :=
  let* r := NewSequentialFile wal_path in
  if negb (ok r.1) then ret (r.1, db)
  else
    match r.2 with
    | None => null_dereference
    | Some file => λ k,
        let reporter := mkRecoveryReporter 0 in
        match ForEachRecord replay_record db (Reader_new (Some reporter), (file, k)) with
        | Some (db, (_, (file, k))) => Some ((OK, db), PosixSequentialFile_destroy file k)
        | None => None
        end
    end.

Definition Recover (db : DBImpl) : M K (Status * DBImpl) :=
  let wal_path := DbFile (dbpath_ db) kWalName in
  let* found := FileExists wal_path in
  let* r := (if (found : bool) then ReplayWal wal_path db else ret (OK, db)) in
  if negb (ok r.1) then ret r
  else
    let db := r.2 in
    let* present := FileExists wal_path in
    let* gs := (if (present : bool) then GetFileSize wal_path else ret (OK, 0)) in
    if negb (ok gs.1) then ret (gs.1, db)
    else
      let* f := NewAppendableFile wal_path in
      if negb (ok f.1) then ret (f.1, db)
      else ret (OK, mkDBImpl (dbpath_ db) (table_ db) f.2 (Some (Writer_new gs.2))).

(** [DB::Open]: the status and [*dbptr]. *)
Definition DB_Open (options : Options) (dbpath : bytes) : M K (Status * option DBImpl) :=
  let* s := (if create_if_missing options then MakeDir dbpath
             else let* e := FileExists dbpath in
                  ret (if (e : bool) then OK
                       else InvalidArgument (dbpath ++ str " does not exist"))) in
  if negb (ok s) then ret (s, None)
  else
    let* r := Recover (DBImpl_new dbpath) in
    if negb (ok r.1) then ret (r.1, None) else ret (OK, Some r.2).

Definition Write (type : Z) (key value : bytes) : M (DBImpl * K) Status := λ '(db, k),
  match wal_writer_ db, wal_file_ db with
  | Some w, Some file =>
      let record := EncodeRecord type key value in
      match AddRecord record (w, (file, k)) with
      | Some (s, (w, (file, k))) =>
          let db := mkDBImpl (dbpath_ db) (table_ db) (Some file) (Some w) in
          if negb (ok s) then Some (s, (db, k))
          else
            match Sync (file, k) with
            | Some (s, (file, k)) =>
                let db := mkDBImpl (dbpath_ db) (table_ db) (Some file) (Some w) in
                if negb (ok s) then Some (s, (db, k))
                else Some (OK, (Apply type key value db, k))
            | None => None
            end
      | None => None
      end
  | _, _ => None
  end.

Definition Put (key value : bytes) : M (DBImpl * K) Status := Write kTypePut key value.

Definition Delete (key : bytes) : M (DBImpl * K) Status := Write kTypeDelete key [].

(** [~DBImpl] *)
Definition DBImpl_destroy (db : DBImpl) (k : K) : K :=
  match wal_file_ db with
  | None => k
  | Some file =>
      match Close (file, k) with
      | Some (_, (file, k)) => PosixWritableFile_destroy file k
      | None => k
      end
  end.

End db.

(** [Get]: the status and the new [*value]. *)
Definition Get (key : bytes) (value : bytes) (db : DBImpl) : Status * bytes :=
  match table_ db !! key with
  | None => (NotFound key, value)
  | Some v => (OK, v)
  end.
