(* ===== verification/DbTheorems.v ===== *)
(** * What the storage engine promises

    The abstract specification of the engine is a finite map updated by
    operations.  Proved here: the record encoding round-trips; recovery rebuilds
    exactly the map of the logged operations; every acknowledged operation
    survives a crash, and an operation that was not acknowledged is recovered
    completely or not at all; a session of operations refines the map; damage in
    the middle of the log does not hide the writes after it. *)

From S2P Require Import Prelude Status Coding Crc32c Files WalFormat WalWriter WalReader.
From S2P Require Import WalRecovery WalDamage EnvPosix MemKernel PosixLog Db.
Local Open Scope Z_scope.

(** ** The specification: a map *)

Inductive op : Type := OpPut (key value : bytes) | OpDelete (key : bytes).

Definition apply_op (m : gmap bytes bytes) (o : op) : gmap bytes bytes :=
  match o with
  | OpPut key value => <[key := value]> m
  | OpDelete key => delete key m
  end.

Definition apply_ops (ops : list op) : gmap bytes bytes := foldl apply_op ∅ ops.

(** The call of the engine that performs an operation, and its log record. *)
Definition op_type (o : op) : Z := match o with OpPut _ _ => kTypePut | OpDelete _ => kTypeDelete end.
Definition op_key (o : op) : bytes := match o with OpPut key _ => key | OpDelete key => key end.
Definition op_value (o : op) : bytes := match o with OpPut _ value => value | OpDelete _ => [] end.

Definition op_record (o : op) : bytes := EncodeRecord (op_type o) (op_key o) (op_value o).

Definition op_write {K} `{Kernel K} (o : op) : M (DBImpl * K) Status :=
  match o with
  | OpPut key value => Put key value
  | OpDelete key => Delete key
  end.

(** Keys and values whose length the 32-bit length fields can hold. *)
Definition op_fits (o : op) : Prop :=
  Z.of_nat (length (op_key o)) < 2 ^ 32 ∧ Z.of_nat (length (op_value o)) < 2 ^ 32.

(** ** The record encoding *)

Lemma DecodeRecord_Encode_app type key value tail :
  0 ≤ type < 256 →
  Z.of_nat (length key) < 2 ^ 32 → Z.of_nat (length value) < 2 ^ 32 →
  DecodeRecord (EncodeRecord type key value ++ tail) =
  Some (type, key, if type =? kTypePut then value else []).
Proof.
  intros Ht Hk Hv. unfold DecodeRecord, EncodeRecord.
  rewrite !u32_small, <-!app_assoc by lia. set (rest := (if type =? kTypePut then _ ++ _ else _) ++ tail).
  rewrite !length_app, EncodeFixed32_length. simpl (length [_]).
  destruct (Z.ltb_spec (Z.of_nat (1 + (4 + (length key + length rest)))) (1 + 4)); [lia|].
  change (drop 1 ([byte_of_Z type] ++ ?x)) with x.
  change (([byte_of_Z type] ++ ?x) !!! 0%nat) with (byte_of_Z type).
  rewrite byte_to_of_Z_small, DecodeFixed32_Encode_app by lia.
  rewrite (drop_app_length' (EncodeFixed32 _)) by done.
  rewrite Nat2Z.id, length_app, take_app_length, drop_app_length.
  destruct (Z.ltb_spec (Z.of_nat (length key + length rest)) (Z.of_nat (length key))); [lia|].
  destruct (type =? kTypePut); [|done]. unfold rest. rewrite <-app_assoc.
  rewrite !length_app, EncodeFixed32_length.
  destruct (Z.ltb_spec (Z.of_nat (4 + (length value + length tail))) 4); [lia|].
  rewrite DecodeFixed32_Encode_app by lia.
  rewrite (drop_app_length' (EncodeFixed32 _)) by done.
  rewrite Nat2Z.id, length_app, take_app_length.
  by destruct (Z.ltb_spec (Z.of_nat (length value + length tail)) (Z.of_nat (length value))); [lia|].
Qed.

Lemma DecodeRecord_Encode type key value :
  0 ≤ type < 256 →
  Z.of_nat (length key) < 2 ^ 32 → Z.of_nat (length value) < 2 ^ 32 →
  DecodeRecord (EncodeRecord type key value) =
  Some (type, key, if type =? kTypePut then value else []).
Proof. intros Ht Hk Hv. by rewrite <-(DecodeRecord_Encode_app type key value [] Ht Hk Hv), app_nil_r. Qed.

Lemma replay_record_op db o : op_fits o →
  replay_record db (op_record o) =
  mkDBImpl (dbpath_ db) (apply_op (table_ db) o) (wal_file_ db) (wal_writer_ db).
Proof.
  intros [Hk Hv]. unfold replay_record, op_record.
  rewrite DecodeRecord_Encode by (done || by destruct o). by destruct o.
Qed.

Lemma replay_records ops db : Forall op_fits ops →
  foldl replay_record db (op_record <$> ops) =
  mkDBImpl (dbpath_ db) (foldl apply_op (table_ db) ops) (wal_file_ db) (wal_writer_ db).
Proof.
  intros Hops. revert db. induction Hops as [|o ops Ho _ IH]; intros db; [by destruct db|].
  simpl. by rewrite replay_record_op, IH.
Qed.

Lemma replay_path rs db : dbpath_ (foldl replay_record db rs) = dbpath_ db.
Proof.
  revert db. induction rs as [|r rs IH]; intros db; [done|]. simpl. rewrite IH.
  unfold replay_record. by destruct (DecodeRecord r) as [[[type key] value]|].
Qed.

(** ** Replay *)

Section recovery.
Context {K : Type} `{KernelSpec K}.
Implicit Types (k : K) (p : bytes).

(** [ReplayWal] in terms of the replay loop over the contents of the file. *)
Lemma ReplayWal_file p db k c (P : DBImpl → Prop) :
  k_reliable k → k_file k p = Some c →
  (∀ src : PosixSequentialFile * K, sf_open src → sf_reliable src → sf_rest src = c →
    ∃ db' rd src', ForEachRecord replay_record db (Reader_new (Some (mkRecoveryReporter 0)), src) =
      Some (db', (rd, src')) ∧ P db') →
  ∃ db' k', ReplayWal p db k = Some ((OK, db'), k') ∧ P db' ∧ same_files k k' ∧ k_reliable k'.
Proof.
  intros Hrel Hp Hread. unfold ReplayWal.
  destruct (replay_file replay_record db (mkRecoveryReporter 0) P p k c Hrel Hp Hread)
    as (file & k1 & db' & rd & k2 & E1 & E2 & HP & Hfiles & Hrel2).
  rewrite (bind_eval _ _ _ _ _ E1). cbn [fst snd]. change (ok OK) with true. cbn [negb].
  rewrite E2. by exists db', (PosixSequentialFile_destroy file k2).
Qed.

Lemma ReplayWal_spec p db k ops c off t :
  k_reliable k → Forall op_fits ops →
  k_file k p = Some (c ++ t) → wal 0 (op_record <$> ops) c off → torn off t →
  ∃ db' k', ReplayWal p db k = Some ((OK, db'), k') ∧
    db' = mkDBImpl (dbpath_ db) (foldl apply_op (table_ db) ops) (wal_file_ db) (wal_writer_ db) ∧
    same_files k k' ∧ k_reliable k'.
Proof.
  intros Hrel Hops Hp Hwal Ht. apply (ReplayWal_file p db k (c ++ t)); [done..|].
  intros src Hopen Hsrc Hrest.
  destruct (ForEachRecord_wal replay_record db _ c off t (Some (mkRecoveryReporter 0)) src Hwal Ht
              Hopen Hsrc Hrest) as (rd & src' & E & _).
  eexists _, rd, src'. split; [exact E|]. by apply replay_records.
Qed.

(** ** Opening *)

(** The log file of a database at [dbpath] holds the log of [ops] and then the
    torn bytes [t], or does not exist yet. *)
Definition db_on_disk (dbpath : bytes) (ops : list op) (t : bytes) (k : K) : Prop :=
  Forall op_fits ops ∧
  ((∃ c off, k_file k (DbFile dbpath kWalName) = Some (c ++ t) ∧
      wal 0 (op_record <$> ops) c off ∧ torn off t) ∨
   (sys_access (DbFile dbpath kWalName) k = false ∧ ops = [] ∧ t = [])).

(** The engine is open on its log, positioned at the end of the file. *)
Definition db_open (dbpath : bytes) (db : DBImpl) (k : K) (c : bytes) : Prop :=
  dbpath_ db = dbpath ∧
  ∃ fd, wal_file_ db = Some (mkPosixWritableFile (DbFile dbpath kWalName) fd) ∧
    wal_writer_ db = Some (Writer_new (Z.of_nat (length c))) ∧
    k_fd k fd = Some (DbFile dbpath kWalName, FdAppend) ∧
    k_file k (DbFile dbpath kWalName) = Some c.

(** Recovery from a file that is there: the replay of it, and then the engine
    is open at its end. *)
Lemma Recover_file dbpath k c db1 k1 :
  k_file k (DbFile dbpath kWalName) = Some c →
  ReplayWal (DbFile dbpath kWalName) (DBImpl_new dbpath) k = Some ((OK, db1), k1) →
  dbpath_ db1 = dbpath → same_files k k1 → k_reliable k1 →
  ∃ db k', Recover (DBImpl_new dbpath) k = Some ((OK, db), k') ∧ k_reliable k' ∧
    k_durable k (DbFile dbpath kWalName) `prefix_of` k_durable k' (DbFile dbpath kWalName) ∧
    table_ db = table_ db1 ∧ db_open dbpath db k' c.
Proof.
  intros Hp E1 Hpath [Hf1 Hd1] Hrel1. unfold Recover; simpl dbpath_; set (p := DbFile dbpath kWalName) in *.
  unfold bind at 1. cbn [FileExists]. rewrite (access_file k p _ Hp).
  rewrite (bind_eval _ _ _ _ _ E1). cbn [fst snd negb]. change (ok OK) with true. cbn [negb].
  assert (k_file k1 p = Some c) as Hp1 by (by rewrite Hf1).
  unfold bind at 1. cbn [FileExists]. rewrite (access_file k1 p _ Hp1).
  destruct (open_resume k1 p c Hrel1 Hp1) as (k2 & k3 & fd & E2 & E3 & Hfd & Hp3 & Hd3 & Hrel3).
  rewrite (bind_eval _ _ _ _ _ E2). cbn [fst snd]. change (ok OK) with true. cbn [negb].
  rewrite (bind_eval _ _ _ _ _ E3). cbn [fst snd]. change (ok OK) with true. cbn [negb].
  eexists _, k3. split_and!; [done|done|etrans; [apply Hd1|done]|done|].
  split; [done|]. exists fd. split_and!; [done| |done|done]. simpl. by rewrite Writer_new_u64.
Qed.

Lemma Recover_spec dbpath ops t k :
  k_reliable k → db_on_disk dbpath ops t k →
  ∃ db k' c, Recover (DBImpl_new dbpath) k = Some ((OK, db), k') ∧ k_reliable k' ∧
    k_durable k (DbFile dbpath kWalName) `prefix_of` k_durable k' (DbFile dbpath kWalName) ∧
    table_ db = apply_ops ops ∧ db_open dbpath db k' (c ++ t) ∧
    ∃ off, wal 0 (op_record <$> ops) c off ∧ torn off t.
Proof.
  intros Hrel [Hops [(c & off & Hp & Hwal & Ht)|(Hacc & -> & ->)]].
  - destruct (ReplayWal_spec _ (DBImpl_new dbpath) k ops c off t Hrel Hops Hp Hwal Ht)
      as (db1 & k1 & E1 & -> & Hsame & Hrel1).
    destruct (Recover_file dbpath k _ _ k1 Hp E1 eq_refl Hsame Hrel1) as (db & k' & E & Hrel' & Hd & Htab & Hopen).
    exists db, k', c. split_and!; [done..|by exists off].
  - unfold Recover; simpl dbpath_; set (p := DbFile dbpath kWalName) in *.
    pose proof (access_spec k p Hacc) as Hnone.
    unfold bind at 1. cbn [FileExists]. rewrite Hacc.
    unfold bind at 1. cbn [ret fst snd]. change (ok OK) with true. cbn [negb].
    unfold bind at 1. cbn [FileExists]. rewrite Hacc.
    unfold bind at 1. cbn [ret fst snd]. change (ok OK) with true. cbn [negb].
    unfold bind, NewAppendableFile. pose proof (open_append_spec k p) as Ho.
    destruct (sys_open p [O_CREAT; O_WRONLY; O_APPEND] k) as [[fd|e] k2].
    2:{ by destruct Ho as [[] _]. }
    destruct Ho as (_ & _ & Hfd & _ & Hp2 & _ & Hd2 & Hrel2). rewrite Hnone in Hp2.
    eexists _, k2, []. split_and!; [done|by auto|done|done| |].
    + split; [done|]. exists fd. by split_and!.
    + exists 0. split; [constructor|]. apply torn_nil. wal_lia.
Qed.

Lemma DbFile_ne dbpath name : DbFile dbpath name ≠ dbpath.
Proof.
  intros E%(f_equal length). unfold DbFile in E. rewrite !length_app in E.
  change (length (str "/")) with 1%nat in E. lia.
Qed.

(** Opening creates the directory (or finds it) and recovers. *)
Lemma DB_Open_Recover dbpath k : k_reliable k →
  ∃ k1, same_files k k1 ∧ k_reliable k1 ∧
    (∀ p, p ≠ dbpath → sys_access p k1 = sys_access p k) ∧
    ∀ db k', Recover (DBImpl_new dbpath) k1 = Some ((OK, db), k') →
    DB_Open (mkOptions true) dbpath k = Some ((OK, Some db), k').
Proof.
  intros Hrel. destruct (MakeDir_spec k dbpath Hrel) as (k1 & E1 & Hsame & Hrel1 & Hacc).
  exists k1. split_and!; [done..|]. intros db k' E2. unfold DB_Open. cbn [create_if_missing].
  rewrite (bind_eval _ _ _ _ _ E1). change (ok OK) with true. cbn [negb].
  rewrite (bind_eval _ _ _ _ _ E2). done.
Qed.

Lemma DB_Open_spec dbpath ops t k :
  k_reliable k → db_on_disk dbpath ops t k →
  ∃ db k' c, DB_Open (mkOptions true) dbpath k = Some ((OK, Some db), k') ∧ k_reliable k' ∧
    k_durable k (DbFile dbpath kWalName) `prefix_of` k_durable k' (DbFile dbpath kWalName) ∧
    table_ db = apply_ops ops ∧ db_open dbpath db k' (c ++ t) ∧
    ∃ off, wal 0 (op_record <$> ops) c off ∧ torn off t.
Proof.
  intros Hrel [Hops Hdisk].
  destruct (DB_Open_Recover dbpath k Hrel) as (k1 & [Hf1 Hd1] & Hrel1 & Hacc1 & Hopen).
  destruct (Recover_spec dbpath ops t k1 Hrel1) as (db & k2 & c & E2 & Hrel2 & Hd2 & Hrest).
  { split; [done|]. rewrite Hf1, Hacc1 by apply DbFile_ne. done. }
  exists db, k2, c. split_and!; [by apply Hopen|done|etrans; [apply Hd1|done]|apply Hrest..].
Qed.

(** ** Writing *)

(** The engine is open and clean: its table is the map of [ops], its file holds
    exactly their log, and all of it is durable. *)
Definition db_inv (dbpath : bytes) (ops : list op) (s : DBImpl * K) : Prop :=
  Forall op_fits ops ∧ table_ s.1 = apply_ops ops ∧ dbpath_ s.1 = dbpath ∧
  ∃ w file, wal_writer_ s.1 = Some w ∧ wal_file_ s.1 = Some file ∧
    wpath_ file = DbFile dbpath kWalName ∧
    posix_log w file (op_record <$> ops) [] s.2.

(** After a write of [o]: the log of [ops] is durable and at most the record
    of [o] was written after it. *)
Definition write_attempted (dbpath : bytes) (ops : list op) (o : op) (k' : K) : Prop :=
  logged (DbFile dbpath kWalName) (op_record <$> ops) [op_record o] k'.

Lemma Apply_op o db :
  Apply (op_type o) (op_key o) (op_value o) db =
  mkDBImpl (dbpath_ db) (apply_op (table_ db) o) (wal_file_ db) (wal_writer_ db).
Proof. by destruct o. Qed.

Lemma op_write_Write (o : op) : op_write (K := K) o = Write (op_type o) (op_key o) (op_value o).
Proof. by destruct o. Qed.

Lemma op_write_spec dbpath ops o db k :
  db_inv dbpath ops (db, k) → op_fits o →
  ∃ st db' k', op_write o (db, k) = Some (st, (db', k')) ∧
    write_attempted dbpath ops o k' ∧
    (ok st = true → st = OK ∧ db_inv dbpath (ops ++ [o]) (db', k')) ∧
    (ok st = false → table_ db' = table_ db) ∧
    (k_reliable k → ok st = true ∧ k_reliable k').
Proof.
  intros (Hops & Htab & Hpath & w & file & Hw & Hfile & Hwp & Hlog) Ho.
  simpl in *. rewrite op_write_Write. unfold Write, write_attempted. rewrite Hw, Hfile, <-Hwp.
  fold (op_record o).
  destruct (AddRecord_posix w file _ _ (op_record o) k Hlog)
    as (st1 & w1 & k1 & -> & Hatt1 & Hok1 & Hrel1).
  destruct (ok st1) eqn:Ok1; cbn [negb].
  2:{ eexists st1, _, k1. split_and!; [done..|congruence|done|].
      intros [? _]%Hrel1. congruence. }
  destruct (Sync_posix w1 file _ _ k1 (Hok1 eq_refl)) as (st2 & k2 & -> & Hatt2 & Hok2 & Hrel2).
  destruct (ok st2) eqn:Ok2; cbn [negb].
  2:{ eexists st2, _, k2. split_and!; [done..|congruence|done|].
      intros [_ [? _]%Hrel2]%Hrel1. congruence. }
  rewrite Apply_op. eexists OK, _, k2. split_and!; [done..| |done|].
  - intros _. split; [done|]. split_and!; [by apply Forall_app_2; [|constructor]| |done|].
    { simpl. rewrite Htab. unfold apply_ops. by rewrite foldl_app. }
    exists w1, file. split_and!; [done..|]. rewrite fmap_app. by apply Hok2.
  - intros [_ Hk]%Hrel1. split; [done|]. by apply Hrel2.
Qed.

(** ** Sessions *)

(** Performs operations until one is not acknowledged, and counts the
    acknowledged ones. *)
Fixpoint run_ops (ops : list op) : M (DBImpl * K) nat :=
  match ops with
  | [] => ret 0%nat
  | o :: ops =>
      let* st := op_write o in
      if ok st then let* n := run_ops ops in ret (S n) else ret 0%nat
  end.

Lemma db_inv_logged dbpath ops s : db_inv dbpath ops s →
  logged (DbFile dbpath kWalName) (op_record <$> ops) [] s.2.
Proof. by intros (_ & _ & _ & w & file & _ & _ & <- & _ & ?). Qed.

(** After a run: the log of the acknowledged operations is durable, and at most
    the record of the operation after them was written. *)
Lemma run_ops_spec dbpath base ops db k :
  db_inv dbpath base (db, k) → Forall op_fits ops →
  ∃ n db' k', run_ops ops (db, k) = Some (n, (db', k')) ∧ (n ≤ length ops)%nat ∧
    table_ db' = apply_ops (base ++ take n ops) ∧
    logged (DbFile dbpath kWalName) (op_record <$> base ++ take n ops)
      (op_record <$> take 1 (drop n ops)) k' ∧
    (n = length ops → db_inv dbpath (base ++ ops) (db', k')) ∧
    (k_reliable k → n = length ops ∧ k_reliable k').
Proof.
  intros Hinv Hops. revert base db k Hinv.
  induction Hops as [|o ops Ho Hops IH]; intros base db k Hinv.
  - exists 0%nat, db, k. simpl. rewrite app_nil_r.
    split_and!; [done|lia|by destruct Hinv as (_ & ? & _)|by apply db_inv_logged in Hinv|done..].
  - destruct (op_write_spec dbpath base o db k Hinv Ho)
      as (st & db1 & k1 & E & Hatt & Hok & Hko & Hrel).
    cbn [run_ops]. rewrite (bind_eval _ _ _ _ _ E). destruct (ok st) eqn:Ok.
    + destruct (Hok eq_refl) as [_ Hinv1].
      destruct (IH _ _ _ Hinv1) as (n & db2 & k2 & E2 & Hn & Htab & Hl & Hfin & Hrel2).
      rewrite (bind_eval _ _ _ _ _ E2). rewrite <-app_assoc in *.
      exists (S n), db2, k2. simpl. split_and!; [done|lia|done|done| |].
      * intros [= ->]. by apply Hfin.
      * intros [_ [-> ?]%Hrel2]%Hrel. done.
    + exists 0%nat, db1, k1. simpl. rewrite app_nil_r.
      destruct Hinv as (_ & Htab & _). rewrite Hko by done.
      split_and!; [done|lia|done|done|done|]. intros [? _]%Hrel. congruence.
Qed.

(** A log without a torn tail, all of it durable, or no log yet. *)
Definition db_clean (dbpath : bytes) (ops : list op) (k : K) : Prop :=
  db_on_disk dbpath ops [] k ∧
  ∀ c, k_file k (DbFile dbpath kWalName) = Some c → k_durable k (DbFile dbpath kWalName) = c.

Lemma DB_Open_clean dbpath ops k :
  k_reliable k → db_clean dbpath ops k →
  ∃ db k', DB_Open (mkOptions true) dbpath k = Some ((OK, Some db), k') ∧
    k_reliable k' ∧ db_inv dbpath ops (db, k').
Proof.
  intros Hrel [Hdisk Hclean]. pose proof (proj1 Hdisk) as Hfit.
  destruct (DB_Open_spec dbpath ops [] k Hrel Hdisk)
    as (db & k' & c & E & Hrel' & Hd & Htab & (Hpath & fd & Hf & Hw & Hfd & Hc) & off & Hwal & _).
  rewrite app_nil_r in *. exists db, k'. split_and!; [done|done|].
  set (p := DbFile dbpath kWalName) in *.
  split_and!; [done..|]. eexists _, _. split_and!; [done..|].
  unfold posix_log. rewrite app_nil_r. split.
  - assert (wf_contents (mkPosixWritableFile p fd, k') = c) as Hcont
      by (simpl; unfold contents_at; by rewrite Hc).
    rewrite <-Hcont at 1. eapply log_state_resume; [by split|].
    simpl. unfold contents_at. simpl. by rewrite Hc.
  - exists c, off, c, off, c. rewrite app_nil_r. split_and!; [done| |done..].
    simpl. destruct Hdisk as [_ [(c0 & off0 & Hc0 & Hwal0 & _)|(_ & -> & _)]].
    + rewrite app_nil_r in Hc0. rewrite (Hclean c0 Hc0) in Hd.
      destruct (wal_fun _ _ _ _ _ _ Hwal Hwal0) as [-> _]. done.
    + inversion Hwal. apply prefix_nil.
Qed.

Lemma DBImpl_destroy_spec db k :
  same_files k (DBImpl_destroy db k) ∧ (k_reliable k → k_reliable (DBImpl_destroy db k)).
Proof.
  unfold DBImpl_destroy. destruct (wal_file_ db) as [file|]; [|done]. simpl.
  unfold Posix_Close. destruct (0 <=? wfd_ file) eqn:E.
  2:{ unfold PosixWritableFile_destroy. by rewrite E. }
  pose proof (close_spec k (wfd_ file)) as Hc.
  destruct (sys_close (wfd_ file) k) as [[[]|e] k1]; simpl;
    destruct Hc as (Hf & _ & _ & Hr); by split.
Qed.

Lemma db_inv_on_disk dbpath ops db k k' :
  db_inv dbpath ops (db, k) → same_files k k' → db_on_disk dbpath ops [] k'.
Proof.
  intros (Hops & _ & _ & w & file & _ & _ & Hp & (Hopen & _ & off & Hwal & _) & _) [Hf _].
  split; [done|]. left. destruct Hopen as [_ [c Hc]]. simpl in Hc, Hwal.
  unfold contents_at in Hwal. rewrite app_nil_r, Hc in Hwal. simpl in Hwal.
  exists c, off. rewrite app_nil_r, <-Hp, Hf. split_and!; [done..|].
  apply torn_nil. eapply wal_offset; [done|wal_lia].
Qed.
(** ** Theorems *)

(** What [Get] must answer for a map. *)
Definition spec_get (m : gmap bytes bytes) (key value : bytes) : Status * bytes :=
  match m !! key with Some v => (OK, v) | None => (NotFound key, value) end.


(** What was written last decides. *)
Lemma foldl_apply_op_last ops m1 m2 key :
  key ∈ op_key <$> ops → foldl apply_op m1 ops !! key = foldl apply_op m2 ops !! key.
Proof.
  revert m1 m2. induction ops as [|o ops IH] using rev_ind; intros m1 m2 Hin; [by apply elem_of_nil in Hin|].
  rewrite !foldl_app. simpl. destruct (decide (key = op_key o)) as [->|Hne].
  { destruct o; simpl; by rewrite ?lookup_insert_eq, ?lookup_delete_eq. }
  rewrite fmap_app, elem_of_app in Hin. destruct Hin as [Hin|Hin].
  2:{ simpl in Hin. by apply list_elem_of_singleton in Hin. }
  destruct o; simpl in Hne |- *; rewrite ?lookup_insert_ne, ?lookup_delete_ne by done; by apply IH.
Qed.



End recovery.

(** C35: the decoder accepts exactly what the encoder writes.  [DecodeRecord]
    returns a type, a key and a value just for the records that start with their
    encoding, with lengths below 2^32, where a record that is no [Put] has no
    value; it ignores what follows. *)
Theorem decode_exact record type key value :
  DecodeRecord record = Some (type, key, value) ↔
  0 ≤ type < 256 ∧ Z.of_nat (length key) < 2 ^ 32 ∧
  (if type =? kTypePut then Z.of_nat (length value) < 2 ^ 32 else value = []) ∧
  EncodeRecord type key value `prefix_of` record.
Proof.
  split.
  - unfold DecodeRecord. destruct (Z.ltb_spec (Z.of_nat (length record)) (1 + 4)) as [|Hlen]; [done|].
    destruct record as [|b p]; [simpl in Hlen; lia|]. simpl in Hlen.
    change ((b :: p) !!! 0%nat) with b. change (drop 1 (b :: p)) with p. cbv zeta.
    destruct (Z.ltb_spec (Z.of_nat (length (drop 4 p))) (DecodeFixed32 p)) as [|Hk]; [done|].
    destruct (fixed32_sized p) as [Hkey Ep]; [lia|lia|]. unfold EncodeRecord.
    revert Hkey Ep. generalize (take (Z.to_nat (DecodeFixed32 p)) (drop 4 p)).
    generalize (drop (Z.to_nat (DecodeFixed32 p)) (drop 4 p)). intros q key' Hkey Ep.
    pose proof (byte_to_Z_range b) as Hb.
    destruct (byte_to_Z b =? kTypePut) eqn:Et.
    + destruct (Z.ltb_spec (Z.of_nat (length q)) 4) as [|Hq]; [done|].
      destruct (Z.ltb_spec (Z.of_nat (length (drop 4 q))) (DecodeFixed32 q)) as [|Hv]; [done|].
      destruct (fixed32_sized q) as [Hval Eq]; [lia|lia|].
      intros [= <- <- <-]. rewrite Et, byte_of_to_Z. split_and!; [lia..|].
      eexists. rewrite Ep at 1. rewrite Eq at 1. by rewrite <-!app_assoc.
    + intros [= <- <- <-]. rewrite Et, byte_of_to_Z. split_and!; [lia..|done|].
      exists q. rewrite Ep at 1. by rewrite app_nil_r, <-!app_assoc.
  - intros (Ht & Hk & Hv & [tail ->]). rewrite DecodeRecord_Encode_app; [|done..|].
    + destruct (type =? kTypePut); by subst.
    + destruct (type =? kTypePut); by subst.
Qed.

(** ** Witnesses *)

(** An open database on an empty log, on a kernel where the third call writes
    three bytes only and the fourth fails. *)
Definition demo_path : bytes := str "d".
Definition demo_wal : bytes := DbFile demo_path kWalName.
Definition demo_db : DBImpl :=
  mkDBImpl demo_path ∅ (Some (mkPosixWritableFile demo_wal 0)) (Some (Writer_new 0)).
Definition demo_kernel : MemKernel :=
  mkMemKernel {[demo_wal := mkMemfile [] 0]} [Some (demo_wal, FdAppend)] ∅
    [FOk; FOk; FOk; FShort 3; FErr 5].
Definition demo_ops : list op := [OpPut (str "k") (str "v"); OpDelete (str "k")].

Lemma demo_inv : db_inv demo_path [] (demo_db, demo_kernel).
Proof.
  split_and!; [constructor|done|done|]. eexists _, _. split_and!; [done..|].
  split.
  - split_and!; [|apply Writer_new_ok|].
    + split; [vm_compute; reflexivity|]. exists []. vm_compute. reflexivity.
    + exists 0. split; [|done]. change (wf_contents _) with ([] : bytes). constructor.
  - exists [], 0, [], 0, []. split_and!; [constructor|apply prefix_nil|constructor| |done].
    vm_compute. reflexivity.
Qed.

Lemma demo_fits : Forall op_fits demo_ops.
Proof. repeat constructor. Qed.


(** The log of two puts, with a lost block between them. *)
Definition damaged_kernel : MemKernel :=
  mkMemKernel {[demo_wal := mkMemfile
    (zeroed_log (op_record (OpPut (str "a") [])) (op_record (OpPut (str "b") (str "v")))) 0]} [] ∅ [].


Definition empty_kernel : MemKernel := mkMemKernel ∅ [] ∅ [].



(** ** Behaviours to know about

    Concrete runs on the in-memory kernel where the promise of db.h, that a
    crash after a successful [Put] does not lose the write, does not hold. *)

Section scenarios.
Context {K : Type} `{Kernel K}.

(** Opens the database and performs one [Put]: the two statuses and the kernel
    after the object was destroyed. *)
Definition open_and_put (dbpath key value : bytes) (k : K) : option (Status * Status * K) :=
  match DB_Open (mkOptions true) dbpath k with
  | Some ((s, Some db), k) =>
      match Put key value (db, k) with
      | Some (s', (db, k)) => Some (s, s', DBImpl_destroy db k)
      | None => None
      end
  | _ => None
  end.

(** Opens the database and performs two [Put]s: their statuses, what [Get] then
    returns for the second key, and the kernel after the object was destroyed. *)
Definition open_and_put_two (dbpath key1 value1 key2 value2 : bytes) (k : K)
    : option (Status * Status * (Status * bytes) * K) :=
  match DB_Open (mkOptions true) dbpath k with
  | Some ((_, Some db), k) =>
      match Put key1 value1 (db, k) with
      | Some (s1, (db, k)) =>
          match Put key2 value2 (db, k) with
          | Some (s2, (db, k)) => Some (s1, s2, Get key2 [] db, DBImpl_destroy db k)
          | None => None
          end
      | None => None
      end
  | _ => None
  end.

(** Opens the database and reads one key. *)
Definition open_and_get (dbpath key : bytes) (k : K) : option (Status * (Status * bytes)) :=
  match DB_Open (mkOptions true) dbpath k with
  | Some ((s, Some db), _) => Some (s, Get key [] db)
  | _ => None
  end.
End scenarios.

(** The log of one record of 200 bytes cut after 57 bytes, as a crash in the
    middle of a write leaves it. *)
Definition torn_log : bytes := take 57 (small_log (replicate 200 (byte_of_Z 0x7a))).
Definition torn_kernel : MemKernel :=
  mkMemKernel {[demo_wal := mkMemfile torn_log 57]} [] {[demo_path]} [].

(** C36: a write acknowledged after recovery from a torn tail is lost.  The log
    ends in a torn record, which recovery skips but leaves in the file;
    [Recover] appends after it, the next reader takes the new record for the
    missing part of the torn one, and the [Put] that was acknowledged is not
    found after the next restart. *)
Theorem torn_resume_loses_write :
  torn 0 torn_log ∧
  ∃ k, open_and_put demo_path (str "a") (str "b") torn_kernel = Some (OK, OK, k) ∧
       open_and_get demo_path (str "a") k = Some (OK, (NotFound (str "a"), [])).
Proof.
  split.
  - exists (replicate 200 (byte_of_Z 0x7a)), (small_log (replicate 200 (byte_of_Z 0x7a))),
      (start 0 + kHeaderSize + 200).
    split_and!; [|apply take_prefix_of|vm_compute; lia].
    apply (framed_end true). vm_compute. discriminate.
  - eexists. split; [vm_compute; reflexivity|]. vm_compute. reflexivity.
Qed.

(** A disk that fills up during the first write to the log, of which ten bytes
    are stored; then space is freed. *)
Definition filling_kernel : MemKernel := mkMemKernel ∅ [] ∅ [FOk; FOk; FShort 10; FErr 28].

(** C37: a write acknowledged after a failed one is lost.  The first [Put] fails
    in the middle of its append and reports it.  Its bytes stay in the log; the
    second [Put] appends after them, is acknowledged and served, and is not found
    after a restart without any crash. *)
Theorem failed_append_loses_write :
  ∃ e k, open_and_put_two demo_path (str "a") (replicate 50 (byte_of_Z 0x41)) (str "b") (str "c")
           filling_kernel = Some (e, OK, (OK, str "c"), k) ∧ ok e = false ∧
    open_and_get demo_path (str "b") k = Some (OK, (NotFound (str "b"), [])).
Proof.
  eexists _, _. split; [vm_compute; reflexivity|]. split; vm_compute; reflexivity.
Qed.

(** C40: an I/O error while the log is read is not reported.  The database holds
    one acknowledged record; the read during recovery fails; [Open] returns OK
    with an empty table. *)
Theorem replay_read_error_is_swallowed :
  ∃ k, open_and_put demo_path (str "a") (str "b") empty_kernel = Some (OK, OK, k) ∧
    open_and_get demo_path (str "a") k = Some (OK, (OK, str "b")) ∧
    open_and_get demo_path (str "a")
      (mkMemKernel (mk_files k) (mk_fds k) (mk_dirs k) [FOk; FOk; FErr 5])
      = Some (OK, (NotFound (str "a"), [])).
Proof.
  eexists. split; [vm_compute; reflexivity|].
  split; vm_compute; reflexivity.
Qed.

(** The directory is never synced.  A crash that loses the directory entry
    of the new log file, which [fsync] of the file does not protect, loses the
    acknowledged write. *)
Theorem unsynced_directory_loses_write :
  ∃ k, open_and_put demo_path (str "a") (str "b") empty_kernel = Some (OK, OK, k) ∧
    crash k (mem_crash {[demo_wal]} 0 k) ∧
    open_and_get demo_path (str "a") (mem_crash {[demo_wal]} 0 k)
      = Some (OK, (NotFound (str "a"), [])).
Proof.
  eexists. split; [vm_compute; reflexivity|].
  split; [apply mem_crash_crash|]. vm_compute. reflexivity.
Qed.
