(* ===== verification/Bench.v ===== *)
(** * The benchmark (bench/db_bench.cc)

    The program that fills a database, reads it at random keys and reopens it,
    times each part and prints the results, aborting when an operation reports
    an error.  The random numbers, the clock, [mkdtemp] and [system] are
    parameters; the text of both output streams is modelled, with the arithmetic
    of [double] (binary64 of the Standard Library's SpecFloat) and the
    conversions of [printf].  Proved: on a working kernel the benchmark runs to
    its end, prints the three results and returns 0, for every number of entries
    and all random choices; on any kernel, a run that is aborted has said why. *)

From Stdlib Require Import Floats.SpecFloat.
From S2P Require Import Prelude Status Coding Crc32c Files WalFormat WalWriter WalReader.
From S2P Require Import WalRecovery EnvPosix MemKernel PosixLog Db DbTheorems.
Local Open Scope Z_scope.

(** ** Keys, values and arguments *)

(** The last [width] decimal digits of a number, as [printf] pads it with
    zeros; all its digits when it is less than [10 ^ width]. *)
Fixpoint pad_digits (width : nat) (z : Z) : bytes :=
  match width with
  | O => []
  | S width => pad_digits width (z / 10) ++ [byte_of_Z (48 + z mod 10)]
  end.

(** ["key%012d"] of an [int]. *)
Definition MakeKey (i : Z) : bytes :=
  str "key" ++ (if i <? 0 then str "-" ++ pad_digits 11 (- i) else pad_digits 12 i).

Definition MakeValue : bytes := replicate 100 (byte_of_Z 118).

Definition is_space (b : Init.Byte.byte) : bool :=
  (byte_to_Z b =? 32) || ((9 <=? byte_to_Z b) && (byte_to_Z b <=? 13)).

Fixpoint skip_spaces (s : bytes) : bytes :=
  match s with b :: s' => if is_space b then skip_spaces s' else s | [] => [] end.

Fixpoint leading_digits (acc : Z) (s : bytes) : Z :=
  match s with
  | b :: s' =>
      if (48 <=? byte_to_Z b) && (byte_to_Z b <=? 57)
      then leading_digits (10 * acc + (byte_to_Z b - 48)) s' else acc
  | [] => acc
  end.

(** [std::atoi]; a number that is no [int] has undefined behaviour. *)
Definition atoi (s : bytes) : option Z :=
  let v := match skip_spaces s with
           | b :: s' =>
               if byte_to_Z b =? 45 then - leading_digits 0 s'
               else if byte_to_Z b =? 43 then leading_digits 0 s'
               else leading_digits 0 (b :: s')
           | [] => 0
           end in
  if bool_decide (- 2 ^ 31 ≤ v < 2 ^ 31) then Some v else None.

(** ** Numbers as [printf] writes them *)

Definition decimal_digit (z : Z) : bytes := [byte_of_Z (48 + z mod 10)].

(** The decimal digits of a number, by at most [fuel] divisions. *)
Fixpoint decimal_loop (fuel : nat) (z : Z) : bytes :=
  match fuel with
  | O => []
  | S fuel => if z <? 10 then decimal_digit z else decimal_loop fuel (z / 10) ++ decimal_digit z
  end.

(** ["%ld"]: a number [z > 0] has no more decimal digits than binary ones. *)
Definition decimal (z : Z) : bytes :=
  (if z <? 0 then str "-" else []) ++ decimal_loop (S (Z.to_nat (Z.log2 (Z.abs z)))) (Z.abs z).

(** The field widths ["%8"] and ["%-12"]. *)
Definition pad_left (width : nat) (s : bytes) : bytes := replicate (width - length s) (byte_of_Z 32) ++ s.
Definition pad_right (width : nat) (s : bytes) : bytes := s ++ replicate (width - length s) (byte_of_Z 32).

(** The type [double], rounding to nearest. *)
Definition double : Type := spec_float.
Definition double_of_Z (z : Z) : double := binary_normalize 53 1024 z 0 false.
Definition double_mul : double → double → double := SFmul 53 1024.
Definition double_div : double → double → double := SFdiv 53 1024.

(** [a / b] to the nearest integer, to the even one of two. *)
Definition round_div (a b : Z) : Z :=
  let q := a / b in
  match 2 * (a mod b) ?= b with
  | Lt => q
  | Gt => q + 1
  | Eq => if Z.even q then q else q + 1
  end.

(** ["%.{p}f"]: the exact value, rounded to [p] decimals. *)
Definition fixed_point (p : nat) (x : double) : bytes :=
  let pow := 10 ^ Z.of_nat p in
  let sign (s : bool) := if s then str "-" else [] in
  let digits (v : Z) := decimal (v / pow) ++ (match p with O => [] | _ => str "." ++ pad_digits p (v mod pow) end) in
  match x with
  | S754_zero s => sign s ++ digits 0
  | S754_infinity s => sign s ++ str "inf"
  | S754_nan => str "nan"
  | S754_finite s m e =>
      sign s ++ digits (if 0 <=? e then Z.pos m * 2 ^ e * pow else round_div (Z.pos m * pow) (2 ^ (- e)))
  end.

Definition newline : bytes := [byte_of_Z 10].

(** The line of [PrintResult]. *)
Definition result_line (name : bytes) (ops : Z) (seconds : double) : bytes :=
  let positive := SFltb (double_of_Z 0) seconds in
  let per_op_us :=
    if positive then double_div (double_mul seconds (double_of_Z 1000000)) (double_of_Z ops) else double_of_Z 0 in
  let ops_per_sec := if positive then double_div (double_of_Z ops) seconds else double_of_Z 0 in
  pad_right 12 name ++ str " " ++ pad_left 8 (decimal ops) ++ str " ops  " ++
  pad_left 8 (fixed_point 3 seconds) ++ str " s  " ++ pad_left 12 (fixed_point 0 ops_per_sec) ++
  str " ops/s  " ++ pad_left 8 (fixed_point 2 per_op_us) ++ str " us/op" ++ newline.

(** The first line of [main]. *)
Definition header_line (num_entries : Z) (dbpath : bytes) : bytes :=
  str "mini-lsm db_bench: " ++ decimal num_entries ++ str " entries, value=" ++
  decimal (Z.of_nat (length MakeValue)) ++ str " bytes, dir=" ++ Slice_of_c_string dbpath ++ newline.

(** ** The program *)

(** The two output streams, and how often the clock was read. *)
Record Output : Type := mkOutput {
  stdout_ : bytes;
  stderr_ : bytes;
  readings_ : nat;
}.

Definition print_out (line : bytes) (o : Output) : Output :=
  mkOutput (stdout_ o ++ line) (stderr_ o) (readings_ o).
Definition print_err (line : bytes) (o : Output) : Output :=
  mkOutput (stdout_ o) (stderr_ o ++ line) (readings_ o).
Definition read_clock (o : Output) : Output := mkOutput (stdout_ o) (stderr_ o) (S (readings_ o)).

(** What the benchmark needs of its host besides the system calls of the
    engine. *)
Class Host (K : Type) := {
  host_mkdtemp : bytes → K → (bytes + Z) * K;
  host_system : bytes → K → K;
}.

Section bench.
Context {K : Type} `{Kernel K} `{Host K}.
(** The [j]-th number that [uniform_int_distribution(0, n - 1)] draws. *)
Context (pick : Z → nat → Z).
(** The [r]-th reading of [steady_clock], in nanoseconds. *)
Context (now : nat → Z).

Definition B (A : Type) : Type := M (K * Output) (A + Z).

(** Sequencing: [inr code] is a call of [exit]. *)
Definition and_then {A C} (m : B A) (f : A → B C) : B C :=
  let* x := m in match x with inl a => f a | inr code => ret (inr code) end.

Notation "'let!' x := m 'in' k" := (and_then m (λ x, k))
  (at level 10, x pattern, m at level 200, k at level 200).

Definition done {A} (a : A) : B A := ret (inl a).

(** [Timer] is the point of the clock at which it was constructed. *)
Record Timer : Type := mkTimer { start_ : Z }.

Definition Timer_new : B Timer := λ '(k, out),
  Some (inl (mkTimer (now (readings_ out))), (k, read_clock out)).

(** The conversion of nanoseconds to [duration<double>]. *)
Definition to_seconds (nanoseconds : Z) : double :=
  double_div (double_of_Z nanoseconds) (double_of_Z 1000000000).

Definition ElapsedSeconds (t : Timer) : B double := λ '(k, out),
  Some (inl (to_seconds (now (readings_ out) - start_ t)), (k, read_clock out)).

Definition PrintResult (name : bytes) (ops : Z) (seconds : double) : B unit := λ '(k, out),
  Some (inl tt, (k, print_out (result_line name ops seconds) out)).

Definition Check_ (s : Status) (what : bytes) : B unit := λ '(k, out),
  if negb (ok s)
  then Some (inr 1, (k, print_err (str "FATAL: " ++ what ++ str ": " ++
         Slice_of_c_string (Status_ToString s) ++ newline) out))
  else Some (inl tt, (k, out)).

(** The engine on the kernel of the program. *)
Definition on_kernel {A} (m : M K A) : B A := λ '(k, out),
  match m k with Some (a, k) => Some (inl a, (k, out)) | None => None end.

Definition on_db {A} (db : DBImpl) (m : M (DBImpl * K) A) : B (A * DBImpl) := λ '(k, out),
  match m (db, k) with Some (a, (db, k)) => Some (inl (a, db), (k, out)) | None => None end.

Definition delete_db (db : DBImpl) : B unit := λ '(k, out),
  Some (inl tt, (DBImpl_destroy db k, out)).

Definition OpenAt (dbpath : bytes) : B (option DBImpl) :=
  let! r := on_kernel (DB_Open (mkOptions true) dbpath) in
  let! _ := Check_ r.1 (str "DB::Open") in
  done r.2.

(** The loop of [BenchFillSeq], with [n] entries left from [i] on. *)
Fixpoint fill_loop (n : nat) (i : Z) (value : bytes) (db : DBImpl) : B DBImpl :=
  match n with
  | O => done db
  | S n =>
      let! r := on_db db (Put (MakeKey i) value) in
      let! _ := Check_ r.1 (str "Put") in
      fill_loop n (i + 1) value r.2
  end.

Definition BenchFillSeq (dbpath : bytes) (n : Z) : B unit :=
  let! db := OpenAt dbpath in
  match db with
  | None => null_dereference
  | Some db =>
      let! t := Timer_new in
      let! db := fill_loop (Z.to_nat n) 0 MakeValue db in
      let! seconds := ElapsedSeconds t in
      let! _ := PrintResult (str "fillseq") n seconds in
      delete_db db
  end.

(** The loop of [BenchReadHot], with [m] reads left from the [j]-th on. *)
Fixpoint read_loop (m j : nat) (n : Z) (value : bytes) (db : DBImpl) : B unit :=
  match m with
  | O => done tt
  | S m =>
      let '(s, value) := Get (MakeKey (pick n j)) value db in
      let! _ := Check_ s (str "Get") in
      read_loop m (S j) n value db
  end.

Definition BenchReadHot (dbpath : bytes) (n : Z) : B unit :=
  let! db := OpenAt dbpath in
  match db with
  | None => null_dereference
  | Some db =>
      let! t := Timer_new in
      let! _ := read_loop (Z.to_nat n) 0 n [] db in
      let! seconds := ElapsedSeconds t in
      let! _ := PrintResult (str "readhot") n seconds in
      delete_db db
  end.

Definition BenchRecover (dbpath : bytes) : B unit :=
  let! t := Timer_new in
  let! db := OpenAt dbpath in
  let! seconds := ElapsedSeconds t in
  match db with
  | None => null_dereference
  | Some db =>
      let! _ := Check_ (Get (MakeKey 0) [] db).1 (str "Get after recover") in
      let! _ := PrintResult (str "recover") 1 seconds in
      delete_db db
  end.

(** [main] after the arguments. *)
Definition run_bench (num_entries : Z) : B Z := λ '(k, out),
  match host_mkdtemp (str "/tmp/mlsm_bench_XXXXXX") k with
  | (inr e, k) => Some (inl 1, (k, print_err (str "mkdtemp: " ++ strerror e ++ newline) out))
  | (inl dbpath, k) =>
      (let! _ := BenchFillSeq dbpath num_entries in
       let! _ := BenchReadHot dbpath num_entries in
       let! _ := BenchRecover dbpath in
       λ '(k, out), Some (inl 0, (host_system (str "rm -rf '" ++ dbpath ++ str "'") k, out)))
      (k, print_out (header_line num_entries dbpath) out)
  end.

Definition usage_line (argv0 : bytes) : bytes :=
  str "usage: " ++ argv0 ++ str " [num_entries > 0]" ++ newline.

(** [main], with the name of the program and the first argument if there is one:
    what it returns, or the code given to [exit]. *)
Definition main (argv0 : bytes) (arg : option bytes) : B Z :=
  match arg with
  | None => run_bench 100000
  | Some s =>
      match atoi s with
      | None => λ _, None
      | Some num_entries =>
          if num_entries <=? 0
          then λ '(k, out), Some (inl 1, (k, print_err (usage_line argv0) out))
          else run_bench num_entries
      end
  end.
End bench.

(** ** Numbers are printed as they are read *)

Definition is_digit (b : Init.Byte.byte) : Prop := 48 ≤ byte_to_Z b ≤ 57.

Lemma leading_digits_snoc acc ds d : Forall is_digit ds → 0 ≤ d →
  leading_digits acc (ds ++ decimal_digit d) = 10 * leading_digits acc ds + d mod 10.
Proof.
  intros Hds Hd. revert acc. induction Hds as [|b ds [Hb1 Hb2] _ IH]; intros acc; simpl.
  - pose proof (Z.mod_pos_bound d 10 ltac:(lia)). rewrite byte_to_of_Z_small by lia.
    rewrite (proj2 (Z.leb_le _ _)), (proj2 (Z.leb_le _ _)) by lia. simpl. lia.
  - rewrite (proj2 (Z.leb_le _ _) Hb1), (proj2 (Z.leb_le _ _) Hb2). simpl. apply IH.
Qed.

Lemma decimal_loop_spec fuel z : 0 ≤ z < 2 ^ Z.of_nat fuel →
  Forall is_digit (decimal_loop fuel z) ∧ leading_digits 0 (decimal_loop fuel z) = z.
Proof.
  assert (∀ z, is_digit (byte_of_Z (48 + z mod 10))) as Hdig.
  { intros y. pose proof (Z.mod_pos_bound y 10 ltac:(lia)). unfold is_digit. rewrite byte_to_of_Z_small; lia. }
  revert z. induction fuel as [|fuel IH]; intros z Hz.
  { split; [constructor|]. simpl in *. lia. }
  cbn [decimal_loop]. destruct (Z.ltb_spec z 10) as [Hs|Hl].
  - split; [constructor; [apply Hdig|constructor]|]. rewrite <-(app_nil_l (decimal_digit z)), leading_digits_snoc by (done || lia).
    simpl. rewrite Z.mod_small by lia. done.
  - destruct (IH (z / 10)) as [Hf E].
    { rewrite Nat2Z.inj_succ, Z.pow_succ_r in Hz by lia. lia_dm. }
    split; [apply Forall_app; split; [done|constructor; [apply Hdig|constructor]]|]. rewrite leading_digits_snoc, E by (done || lia). lia_dm.
Qed.

(** [atoi] reads back what ["%d"] writes. *)
Lemma atoi_decimal z : - 2 ^ 31 ≤ z < 2 ^ 31 → atoi (decimal z) = Some z.
Proof.
  intros Hz. unfold decimal.
  destruct (decimal_loop_spec (S (Z.to_nat (Z.log2 (Z.abs z)))) (Z.abs z)) as [Hf E].
  { rewrite Nat2Z.inj_succ, Z2Nat.id by apply Z.log2_nonneg. split; [lia|].
    destruct (decide (z = 0)) as [->|]; [done|]. apply Z.log2_spec. lia. }
  cbn [decimal_loop] in *. set (ds := if Z.abs z <? 10 then _ else _) in *. clearbody ds.
  unfold atoi. destruct (Z.ltb_spec z 0) as [Hn|Hp].
  - simpl. rewrite E. rewrite bool_decide_eq_true_2 by lia. f_equal. lia.
  - simpl app. destruct Hf as [|b ds [Hb1 Hb2] _]; simpl in E |- *.
    { by replace z with 0 by lia. }
    unfold is_space. rewrite (proj2 (Z.eqb_neq _ 32)), (proj2 (Z.leb_gt _ 13)), andb_false_r by lia.
    cbn [orb]. rewrite (proj2 (Z.eqb_neq _ 45)), (proj2 (Z.eqb_neq _ 43)) by lia.
    simpl leading_digits. rewrite E, bool_decide_eq_true_2 by lia. f_equal. lia.
Qed.

(** ** The benchmark on a working kernel *)

(** What [mkdtemp] and [system] are documented to do: a directory that
    [mkdtemp] made is new, so that nothing is under it, and no file has changed. *)
Class HostSpec (K : Type) `{Kernel K} `{KernelView K} `{Host K} := {
  mkdtemp_spec (k k' : K) template dir :
    host_mkdtemp template k = (inl dir, k') → k_reliable k →
    k_reliable k' ∧ ∀ name, sys_access (DbFile dir name) k' = false;
}.

Section bench_spec.
Context {K : Type} `{KernelSpec K} `{!Host K} `{!HostSpec K}.
Context (pick : Z → nat → Z) (now : nat → Z).
Implicit Types (k : K) (db : DBImpl) (out : Output).

Lemma and_then_eval {A C} (m : B (K := K) A) (f : A → B C) s a s' :
  m s = Some (inl a, s') → and_then m f s = f a s'.
Proof. intros E. unfold and_then, bind. by rewrite E. Qed.

Lemma Timer_new_eval {A} (f : Timer → B A) k out :
  and_then (Timer_new now) f (k, out) = f (mkTimer (now (readings_ out))) (k, read_clock out).
Proof. done. Qed.

(** The writes of [BenchFillSeq]. *)
Definition fill_ops (n : nat) (i : Z) : list op :=
  (λ j : nat, OpPut (MakeKey (i + Z.of_nat j)) MakeValue) <$> seq 0 n.

Lemma fill_ops_S n i : fill_ops (S n) i = OpPut (MakeKey i) MakeValue :: fill_ops n (i + 1).
Proof.
  unfold fill_ops. cbn [seq fmap list_fmap]. rewrite Z.add_0_r. f_equal.
  rewrite <-fmap_S_seq, <-list_fmap_compose. apply list_fmap_ext. intros _ j _. simpl.
  do 2 f_equal. lia.
Qed.

Lemma length_pad_digits width z : length (pad_digits width z) = width.
Proof. revert z. induction width as [|w IH]; intros z; [done|]. simpl. rewrite length_app, IH. simpl. lia. Qed.

Lemma length_MakeKey i : length (MakeKey i) = 15%nat.
Proof.
  unfold MakeKey. rewrite length_app. destruct (i <? 0); rewrite ?length_app, length_pad_digits; done.
Qed.

Lemma bench_op_fits i : op_fits (OpPut (MakeKey i) MakeValue).
Proof.
  split; cbn [op_key op_value]; [by rewrite length_MakeKey|].
  unfold MakeValue. by rewrite length_replicate.
Qed.

Lemma fill_ops_elem n i : 0 ≤ i < Z.of_nat n → OpPut (MakeKey i) MakeValue ∈ fill_ops n 0.
Proof.
  intros Hi. apply list_elem_of_fmap. exists (Z.to_nat i). split; [by rewrite Z.add_0_l, Z2Nat.id by lia|].
  apply elem_of_seq. lia.
Qed.

(** A key that is written, and never with another value, has that value. *)
Lemma apply_ops_constant ops key value :
  OpPut key value ∈ ops → Forall (λ o, ∃ key, o = OpPut key value) ops →
  apply_ops ops !! key = Some value.
Proof.
  intros Hin Hall. induction ops as [|o ops IH] using rev_ind; [by apply not_elem_of_nil in Hin|].
  apply Forall_app in Hall as [Hall [[key' ->] _]%Forall_cons].
  unfold apply_ops in *. rewrite foldl_app. simpl.
  destruct (decide (key' = key)) as [->|Hne]; [by rewrite lookup_insert_eq|].
  rewrite lookup_insert_ne by done. apply IH; [|done].
  apply elem_of_app in Hin as [?|[= ->]%list_elem_of_singleton]; done.
Qed.

Lemma fill_ops_lookup n i : 0 ≤ i < Z.of_nat n →
  apply_ops (fill_ops n 0) !! MakeKey i = Some MakeValue.
Proof.
  intros Hi. apply apply_ops_constant; [by apply fill_ops_elem|].
  apply Forall_fmap, Forall_forall. intros j _. by eexists.
Qed.

(** Destroying the engine leaves a log that the next one can open. *)
Lemma destroy_clean dbpath ops db k :
  db_inv dbpath ops (db, k) → db_clean dbpath ops (DBImpl_destroy db k).
Proof.
  intros Hinv. destruct (DBImpl_destroy_spec db k) as [Hsame _].
  split; [by eapply db_inv_on_disk|]. intros c Hc.
  destruct Hsame as [Hf Hd].
  destruct Hinv as (_ & _ & _ & w & file & _ & _ & Hp & ((_ & [c' Hc']) & _ & off & Hwal & _) &
    d & offd & _ & _ & _ & Hwal' & Hdur & _).
  simpl in *. rewrite Hp in *. rewrite Hf, Hc' in Hc. injection Hc as ->.
  unfold contents_at in Hwal. rewrite Hc', app_nil_r in Hwal. simpl in Hwal.
  destruct (wal_fun _ _ _ _ _ _ Hwal Hwal') as [-> _].
  apply (anti_symm prefix); [apply durable_prefix; by rewrite Hf|].
  etrans; [done|apply Hd].
Qed.

Lemma OpenAt_spec dbpath ops k out :
  k_reliable k → db_clean dbpath ops k →
  ∃ db k', OpenAt dbpath (k, out) = Some (inl (Some db), (k', out)) ∧
    k_reliable k' ∧ db_inv dbpath ops (db, k').
Proof.
  intros Hrel Hclean. destruct (DB_Open_clean dbpath ops k Hrel Hclean) as (db & k' & E & Hrest).
  exists db, k'. split; [|done]. unfold OpenAt, and_then, bind, on_kernel. by rewrite E.
Qed.

Lemma fill_loop_spec n i dbpath ops db k out :
  k_reliable k → db_inv dbpath ops (db, k) →
  ∃ db' k', fill_loop n i MakeValue db (k, out) = Some (inl db', (k', out)) ∧
    k_reliable k' ∧ db_inv dbpath (ops ++ fill_ops n i) (db', k').
Proof.
  revert i ops db k. induction n as [|n IH]; intros i ops db k Hrel Hinv.
  { exists db, k. by rewrite app_nil_r. }
  destruct (op_write_spec dbpath ops _ db k Hinv (bench_op_fits i))
    as (st & db1 & k1 & E & _ & Hok & _ & Hr). cbn [op_write] in E.
  destruct (Hr Hrel) as [Ok Hrel1]. destruct (Hok Ok) as [-> Hinv1].
  destruct (IH (i + 1) _ db1 k1 Hrel1 Hinv1) as (db2 & k2 & E2 & Hrel2 & Hinv2).
  exists db2, k2. rewrite fill_ops_S. rewrite <-app_assoc in Hinv2. split; [|done].
  cbn [fill_loop]. unfold and_then at 1, bind, on_db. rewrite E. exact E2.
Qed.

Lemma read_loop_spec m j n db (s : K * Output) :
  (∀ j, is_Some (table_ db !! MakeKey (pick n j))) → ∀ value,
  read_loop pick m j n value db s = Some (inl tt, s).
Proof.
  intros Hpick. destruct s as [k out]. revert j. induction m as [|m IH]; intros j value; [done|].
  cbn [read_loop]. unfold Get. destruct (Hpick j) as [v ->]. apply IH.
Qed.

(** The output after a part that was timed and printed its result. *)
Definition timed (name : bytes) (ops : Z) (out : Output) : Output :=
  let r := readings_ out in
  mkOutput (stdout_ out ++ result_line name ops (to_seconds (now (S r) - now r))) (stderr_ out) (S (S r)).

(** The three parts, on the log of the entries written by the first. *)
Lemma BenchFillSeq_spec dbpath n k out :
  k_reliable k → db_clean dbpath [] k →
  ∃ k', BenchFillSeq now dbpath n (k, out) = Some (inl tt, (k', timed (str "fillseq") n out)) ∧
    k_reliable k' ∧ db_clean dbpath (fill_ops (Z.to_nat n) 0) k'.
Proof.
  intros Hrel Hclean. destruct (OpenAt_spec dbpath [] k out Hrel Hclean) as (db & k1 & E1 & Hr1 & Hi1).
  destruct (fill_loop_spec (Z.to_nat n) 0 dbpath [] db k1 (read_clock out) Hr1 Hi1) as (db2 & k2 & E2 & Hr2 & Hi2).
  exists (DBImpl_destroy db2 k2). split_and!; [|by apply DBImpl_destroy_spec|by apply destroy_clean].
  unfold BenchFillSeq. rewrite (and_then_eval _ _ _ _ _ E1), Timer_new_eval.
  by rewrite (and_then_eval _ _ _ _ _ E2).
Qed.

Lemma BenchReadHot_spec dbpath n ops k out :
  k_reliable k → db_clean dbpath ops k →
  (∀ j, is_Some (apply_ops ops !! MakeKey (pick n j))) →
  ∃ k', BenchReadHot pick now dbpath n (k, out) = Some (inl tt, (k', timed (str "readhot") n out)) ∧
    k_reliable k' ∧ db_clean dbpath ops k'.
Proof.
  intros Hrel Hclean Hpick.
  destruct (OpenAt_spec dbpath ops k out Hrel Hclean) as (db & k1 & E1 & Hr1 & Hi1).
  exists (DBImpl_destroy db k1). split_and!; [|by apply DBImpl_destroy_spec|by apply destroy_clean].
  unfold BenchReadHot. rewrite (and_then_eval _ _ _ _ _ E1).
  destruct Hi1 as (_ & Htab & _). simpl in Htab. rewrite <-Htab in Hpick.
  rewrite Timer_new_eval.
  by rewrite (and_then_eval _ _ _ _ _ (read_loop_spec _ 0 _ _ _ Hpick [])).
Qed.

Lemma BenchRecover_spec dbpath ops k out :
  k_reliable k → db_clean dbpath ops k → is_Some (apply_ops ops !! MakeKey 0) →
  ∃ k', BenchRecover now dbpath (k, out) = Some (inl tt, (k', timed (str "recover") 1 out)).
Proof.
  intros Hrel Hclean [v Hv].
  destruct (OpenAt_spec dbpath ops k (read_clock out) Hrel Hclean) as (db & k1 & E1 & Hr1 & Hi1).
  exists (DBImpl_destroy db k1). unfold BenchRecover.
  rewrite Timer_new_eval, (and_then_eval _ _ _ _ _ E1).
  destruct Hi1 as (_ & Htab & _). simpl in Htab. unfold Get. by rewrite Htab, Hv.
Qed.

(** The number of entries that the arguments ask for. *)
Definition entries_asked (arg : option bytes) : option Z :=
  match arg with None => Some 100000 | Some s => atoi s end.

(** C23: on a working kernel the benchmark terminates with no operation in
    error, for every number of entries that [atoi] reads and all random choices
    within the range of the distribution: it returns 0 after printing the header
    and the three results, each with the time between two readings of the clock,
    so each [Put] is acknowledged, each random [Get] of the reopened database
    finds its key, and so does the [Get] after the second reopening.  A number
    that is not positive is refused with the usage line and code 1, with nothing
    opened; so is the run when [mkdtemp] fails. *)
Theorem bench_passes (argv0 : bytes) (arg : option bytes) (n : Z) (k : K) (out : Output) :
  entries_asked arg = Some n → k_reliable k → (∀ j, 0 < n → 0 ≤ pick n j < n) →
  if n <=? 0 then main pick now argv0 arg (k, out) = Some (inl 1, (k, print_err (usage_line argv0) out))
  else match host_mkdtemp (str "/tmp/mlsm_bench_XXXXXX") k with
       | (inl dir, _) => ∃ k', main pick now argv0 arg (k, out) =
           Some (inl 0, (k', timed (str "recover") 1 (timed (str "readhot") n (timed (str "fillseq") n
             (print_out (header_line n dir) out)))))
       | (inr e, k1) => main pick now argv0 arg (k, out) =
           Some (inl 1, (k1, print_err (str "mkdtemp: " ++ strerror e ++ newline) out))
       end.
Proof.
  intros Hn Hrel Hpick.
  assert (main pick now argv0 arg (k, out) =
    if n <=? 0 then Some (inl 1, (k, print_err (usage_line argv0) out)) else run_bench pick now n (k, out)) as ->.
  { destruct arg as [s|]; simpl in *; [rewrite Hn; by destruct (n <=? 0)|by injection Hn as <-]. }
  destruct (Z.leb_spec n 0) as [|Hpos]; [done|]. unfold run_bench.
  destruct (host_mkdtemp _ k) as [[dbpath|e] k1] eqn:Edir; [|done].
  destruct (mkdtemp_spec _ _ _ _ Edir Hrel) as [Hr1 Hacc].
  assert (db_clean dbpath [] k1) as Hc1.
  { split; [split; [constructor|by right]|]. intros c Hc.
    by rewrite (access_spec _ _ (Hacc kWalName)) in Hc. }
  assert (∀ i, 0 ≤ i < n → is_Some (apply_ops (fill_ops (Z.to_nat n) 0) !! MakeKey i)) as Hkeys
    by (intros i Hi; eexists; apply fill_ops_lookup; lia).
  destruct (BenchFillSeq_spec dbpath n k1 (print_out (header_line n dbpath) out) Hr1 Hc1) as (k2 & E2 & Hr2 & Hc2).
  destruct (BenchReadHot_spec dbpath n _ k2 (timed (str "fillseq") n (print_out (header_line n dbpath) out)) Hr2 Hc2)
    as (k3 & E3 & Hr3 & Hc3); [by auto|].
  destruct (BenchRecover_spec dbpath _ k3 (timed (str "readhot") n (timed (str "fillseq") n
    (print_out (header_line n dbpath) out))) Hr3 Hc3) as (k4 & E4); [apply Hkeys; lia|].
  eexists. by rewrite (and_then_eval _ _ _ _ _ E2), (and_then_eval _ _ _ _ _ E3), (and_then_eval _ _ _ _ _ E4).
Qed.
End bench_spec.

(** ** Aborted runs *)

Create HintDb loud.

Section loud.
Context {K : Type} `{Kernel K} `{!Host K}.
Context (pick : Z → nat → Z) (now : nat → Z).

(** A computation that calls [exit] does it with code 1, after a line that says
    what failed. *)
Definition loud {A} (m : B (K := K) A) : Prop :=
  ∀ s code s', m s = Some (inr code, s') →
  code = 1 ∧ ∃ err what st, ok st = false ∧ stderr_ s'.2 = err ++ str "FATAL: " ++ what ++ str ": " ++
    Slice_of_c_string (Status_ToString st) ++ newline.

Lemma and_then_loud {A C} (m : B A) (f : A → B C) : loud m → (∀ a, loud (f a)) → loud (and_then m f).
Proof.
  intros Hm Hf s code s' E. unfold and_then, bind in E.
  destruct (m s) as [[[a|c] s1]|] eqn:Em; [by eapply Hf|injection E as <- <-; by eapply Hm|done].
Qed.

Lemma Check_loud s what : loud (Check_ s what).
Proof.
  intros [k out] code s' E. unfold Check_ in E. destruct (ok s) eqn:Eok; [done|]. injection E as <- <-.
  split; [done|]. by exists (stderr_ out), what, s.
Qed.

(** A computation that never calls [exit]. *)
Lemma quiet_loud {A} (m : B A) : (∀ s code s', m s ≠ Some (inr code, s')) → loud m.
Proof. intros Hm s code s' E. by destruct (Hm s code s'). Qed.

Lemma on_kernel_loud {A} (m : M K A) : loud (on_kernel m).
Proof. apply quiet_loud. intros [k out] code s'. unfold on_kernel. by destruct (m k) as [[]|]. Qed.

Lemma on_db_loud {A} db (m : M (DBImpl * K) A) : loud (on_db db m).
Proof. apply quiet_loud. intros [k out] code s'. unfold on_db. by destruct (m (db, k)) as [[? []]|]. Qed.

#[local] Hint Resolve and_then_loud Check_loud on_kernel_loud on_db_loud : loud.
#[local] Hint Extern 5 (loud _) => apply quiet_loud; intros [] ? ?; done : loud.

Lemma OpenAt_loud dbpath : loud (OpenAt dbpath).
Proof. unfold OpenAt. auto 10 with loud. Qed.

Lemma fill_loop_loud n i value db : loud (fill_loop n i value db).
Proof. revert i db. induction n as [|n IH]; intros i db; cbn [fill_loop]; auto 10 with loud. Qed.

Lemma read_loop_loud m j n value db : loud (read_loop pick m j n value db).
Proof.
  revert j value. induction m as [|m IH]; intros j value; cbn [read_loop]; [auto with loud|].
  destruct (Get _ _ _) as [s v]. auto 10 with loud.
Qed.

#[local] Hint Resolve OpenAt_loud fill_loop_loud read_loop_loud : loud.

Lemma BenchFillSeq_loud dbpath n : loud (BenchFillSeq now dbpath n).
Proof. apply and_then_loud; [auto with loud|]. intros [db|]; auto 10 with loud. Qed.

Lemma BenchReadHot_loud dbpath n : loud (BenchReadHot pick now dbpath n).
Proof. apply and_then_loud; [auto with loud|]. intros [db|]; auto 10 with loud. Qed.

Lemma BenchRecover_loud dbpath : loud (BenchRecover now dbpath).
Proof.
  apply and_then_loud; [auto with loud|]. intros t. apply and_then_loud; [auto with loud|].
  intros [db|]; auto 10 with loud.
Qed.

(** Whatever the kernel does, a benchmark that is aborted exits with code 1 and
    the last line of its error stream says which operation failed and with which
    status: a failure never looks like a result. *)
Theorem bench_aborts_loudly argv0 arg : loud (main pick now argv0 arg).
Proof.
  assert (∀ n, loud (run_bench pick now n)) as Hrun.
  { intros n [k out] code s'. unfold run_bench. destruct (host_mkdtemp _ k) as [[dbpath|e] k1]; [|done].
    apply and_then_loud; [apply BenchFillSeq_loud|]. intros _.
    apply and_then_loud; [apply BenchReadHot_loud|]. intros _.
    apply and_then_loud; [apply BenchRecover_loud|]. auto with loud. }
  destruct arg as [s|]; [|apply Hrun]. unfold main. destruct (atoi s) as [n|]; [|by intros s0].
  destruct (n <=? 0); [auto with loud|apply Hrun].
Qed.
End loud.

(** ** Witness *)

(** [mkdtemp] on the kernel in memory makes a directory at the template, when
    nothing has such a name. *)
Definition mem_mkdtemp (template : bytes) (k : MemKernel) : (bytes + Z) * MemKernel :=
  if decide (map_Forall (λ p _, ¬ template `prefix_of` p) (mk_files k) ∧
             set_Forall (λ p, ¬ template `prefix_of` p) (mk_dirs k))
  then (inl template, mkMemKernel (mk_files k) (mk_fds k) ({[template]} ∪ mk_dirs k) (mk_script k))
  else (inr EEXIST, k).

#[export] Instance MemKernel_Host : Host MemKernel := {|
  host_mkdtemp := mem_mkdtemp;
  host_system _ k := k;
|}.

#[export] Instance MemKernel_HostSpec : HostSpec MemKernel.
Proof.
  split. intros k k' template dir. simpl. unfold mem_mkdtemp.
  destruct (decide _) as [[Hf Hd]|]; [|done]. intros [= <- <-] Hrel. split; [exact Hrel|].
  intros name. simpl. apply orb_false_iff. split; apply bool_decide_eq_false_2.
  - intros [file Hfile]. eapply Hf; [exact Hfile|]. by eexists.
  - intros [Hin%elem_of_singleton|Hin]%elem_of_union; [by apply DbFile_ne in Hin|].
    eapply Hd; [exact Hin|]. by eexists.
Qed.

(** A clock that is read every 1.5 seconds. *)
Definition demo_clock (r : nat) : Z := 1500000000 * Z.of_nat r.

Lemma bench_passes_witness :
  ∃ k', main (λ n j, Z.of_nat j mod n) demo_clock (str "db_bench") (Some (str "3"))
      (empty_kernel, mkOutput [] [] 0) =
    Some (inl 0, (k', timed demo_clock (str "recover") 1 (timed demo_clock (str "readhot") 3
      (timed demo_clock (str "fillseq") 3
        (print_out (header_line 3 (str "/tmp/mlsm_bench_XXXXXX")) (mkOutput [] [] 0)))))).
Proof.
  pose proof (bench_passes (λ n j, Z.of_nat j mod n) demo_clock (str "db_bench") (Some (str "3")) 3
    empty_kernel (mkOutput [] [] 0)) as Hb.
  assert ((host_mkdtemp (str "/tmp/mlsm_bench_XXXXXX") empty_kernel).1 =
          inl (str "/tmp/mlsm_bench_XXXXXX")) as Edir by (vm_compute; reflexivity).
  destruct (host_mkdtemp _ empty_kernel) as [r k1]. simpl in Edir. subst r. apply Hb.
  - vm_compute. reflexivity.
  - constructor.
  - intros j Hn. apply Z.mod_pos_bound. exact Hn.
Defined.

(** Lines as the program prints them. *)
Example result_line_text :
  result_line (str "fillseq") 3 (to_seconds 1500000000) =
  str "fillseq             3 ops     1.500 s             2 ops/s  500000.00 us/op" ++ newline.
Proof. vm_compute. reflexivity. Qed.

Example result_line_rounds :
  result_line (str "readhot") 100000 (to_seconds 29999999) =
  str "readhot        100000 ops     0.030 s       3333333 ops/s      0.30 us/op" ++ newline.
Proof. vm_compute. reflexivity. Qed.

Example result_line_zero :
  result_line (str "recover") 1 (to_seconds 0) =
  str "recover             1 ops     0.000 s             0 ops/s      0.00 us/op" ++ newline.
Proof. vm_compute. reflexivity. Qed.

Example header_line_text :
  header_line 100000 (str "/tmp/x") = str "mini-lsm db_bench: 100000 entries, value=100 bytes, dir=/tmp/x" ++ newline.
Proof. vm_compute. reflexivity. Qed.
