(* ===== verification/Raft.v ===== *)
(** * The Raft core (src/raft/raft.cc, include/mlsm/raft/raft.h, messages.h)

    The message-driven state machine: every method of the class [Raft] is a
    function of its state.  Integers of type [uint64_t] are kept at 64 bits
    ([u64]); the tick counters are [int]s that stay below the timeouts.  The
    code indexes the vector [log_] without checks: the model reads a default
    entry outside of it, and [RaftNode.v] shows that no index leaves the vector.
    [operator[]] of [std::map] inserts a zero for an absent key; as the maps are
    only read through it, the model reads an absent key as zero. *)

From S2P Require Import Prelude.
Local Open Scope Z_scope.

(** ** Messages *)

Record LogEntry : Type := mkLogEntry { e_term : Z; e_index : Z; e_data : bytes }.

#[export] Instance LogEntry_eq_dec : EqDecision LogEntry.
Proof. solve_decision. Defined.

#[export] Instance LogEntry_inhabited : Inhabited LogEntry := populate (mkLogEntry 0 0 []).

Inductive MessageType : Type :=
  kRequestVote | kRequestVoteResp | kAppendEntries | kAppendEntriesResp.

#[export] Instance MessageType_eq_dec : EqDecision MessageType.
Proof. solve_decision. Defined.

Record Message : Type := mkMessage {
  m_type : MessageType;
  m_from : Z;
  m_to : Z;
  m_term : Z;
  vote_granted : bool;
  success : bool;
  last_log_index : Z;
  last_log_term : Z;
  prev_log_index : Z;
  prev_log_term : Z;
  entries : list LogEntry;
  leader_commit : Z;
  m_match_index : Z;
}.

(** Messages of each kind; the fields not mentioned keep their initial value. *)
Definition RequestVote (from to term last_index last_term : Z) : Message :=
  mkMessage kRequestVote from to term false false last_index last_term 0 0 [] 0 0.
Definition RequestVoteResp (from to term : Z) (granted : bool) : Message :=
  mkMessage kRequestVoteResp from to term granted false 0 0 0 0 [] 0 0.
Definition AppendEntries (from to term prev prev_term : Z) (es : list LogEntry) (commit : Z)
    : Message :=
  mkMessage kAppendEntries from to term false false 0 0 prev prev_term es commit 0.
Definition AppendEntriesResp (from to term : Z) (succ : bool) (matched : Z) : Message :=
  mkMessage kAppendEntriesResp from to term false succ 0 0 0 0 [] 0 matched.

(** ** State *)

Inductive Role : Type := kFollower | kCandidate | kLeader.

#[export] Instance Role_eq_dec : EqDecision Role.
Proof. solve_decision. Defined.

Record Config : Type := mkConfig {
  id : Z;
  peers : list Z;
  election_timeout : Z;
  heartbeat_timeout : Z;
}.

Record Raft : Type := mkRaft {
  config_ : Config;
  role_ : Role;
  current_term_ : Z;
  voted_for_ : Z;
  log_ : list LogEntry;
  commit_index_ : Z;
  last_applied_ : Z;
  stable_index_ : Z;
  leader_ : Z;
  election_elapsed_ : Z;
  heartbeat_elapsed_ : Z;
  votes_granted_ : list Z;
  next_index_ : gmap Z Z;
  match_index_ : gmap Z Z;
  hard_state_dirty_ : bool;
  out_msgs_ : list Message;
}.

(** Assignments to the fields. *)
Definition set_role (v : Role) (r : Raft) : Raft :=
  mkRaft (config_ r) v (current_term_ r) (voted_for_ r) (log_ r) (commit_index_ r)
    (last_applied_ r) (stable_index_ r) (leader_ r) (election_elapsed_ r)
    (heartbeat_elapsed_ r) (votes_granted_ r) (next_index_ r) (match_index_ r)
    (hard_state_dirty_ r) (out_msgs_ r).
Definition set_current_term (v : Z) (r : Raft) : Raft :=
  mkRaft (config_ r) (role_ r) v (voted_for_ r) (log_ r) (commit_index_ r) (last_applied_ r)
    (stable_index_ r) (leader_ r) (election_elapsed_ r) (heartbeat_elapsed_ r)
    (votes_granted_ r) (next_index_ r) (match_index_ r) (hard_state_dirty_ r) (out_msgs_
    r).
Definition set_voted_for (v : Z) (r : Raft) : Raft :=
  mkRaft (config_ r) (role_ r) (current_term_ r) v (log_ r) (commit_index_ r) (last_applied_
    r) (stable_index_ r) (leader_ r) (election_elapsed_ r) (heartbeat_elapsed_ r)
    (votes_granted_ r) (next_index_ r) (match_index_ r) (hard_state_dirty_ r) (out_msgs_
    r).
Definition set_log (v : list LogEntry) (r : Raft) : Raft :=
  mkRaft (config_ r) (role_ r) (current_term_ r) (voted_for_ r) v (commit_index_ r)
    (last_applied_ r) (stable_index_ r) (leader_ r) (election_elapsed_ r)
    (heartbeat_elapsed_ r) (votes_granted_ r) (next_index_ r) (match_index_ r)
    (hard_state_dirty_ r) (out_msgs_ r).
Definition set_commit_index (v : Z) (r : Raft) : Raft :=
  mkRaft (config_ r) (role_ r) (current_term_ r) (voted_for_ r) (log_ r) v (last_applied_ r)
    (stable_index_ r) (leader_ r) (election_elapsed_ r) (heartbeat_elapsed_ r)
    (votes_granted_ r) (next_index_ r) (match_index_ r) (hard_state_dirty_ r) (out_msgs_
    r).
Definition set_last_applied (v : Z) (r : Raft) : Raft :=
  mkRaft (config_ r) (role_ r) (current_term_ r) (voted_for_ r) (log_ r) (commit_index_ r) v
    (stable_index_ r) (leader_ r) (election_elapsed_ r) (heartbeat_elapsed_ r)
    (votes_granted_ r) (next_index_ r) (match_index_ r) (hard_state_dirty_ r) (out_msgs_
    r).
Definition set_stable_index (v : Z) (r : Raft) : Raft :=
  mkRaft (config_ r) (role_ r) (current_term_ r) (voted_for_ r) (log_ r) (commit_index_ r)
    (last_applied_ r) v (leader_ r) (election_elapsed_ r) (heartbeat_elapsed_ r)
    (votes_granted_ r) (next_index_ r) (match_index_ r) (hard_state_dirty_ r) (out_msgs_
    r).
Definition set_leader (v : Z) (r : Raft) : Raft :=
  mkRaft (config_ r) (role_ r) (current_term_ r) (voted_for_ r) (log_ r) (commit_index_ r)
    (last_applied_ r) (stable_index_ r) v (election_elapsed_ r) (heartbeat_elapsed_ r)
    (votes_granted_ r) (next_index_ r) (match_index_ r) (hard_state_dirty_ r) (out_msgs_
    r).
Definition set_election_elapsed (v : Z) (r : Raft) : Raft :=
  mkRaft (config_ r) (role_ r) (current_term_ r) (voted_for_ r) (log_ r) (commit_index_ r)
    (last_applied_ r) (stable_index_ r) (leader_ r) v (heartbeat_elapsed_ r)
    (votes_granted_ r) (next_index_ r) (match_index_ r) (hard_state_dirty_ r) (out_msgs_
    r).
Definition set_heartbeat_elapsed (v : Z) (r : Raft) : Raft :=
  mkRaft (config_ r) (role_ r) (current_term_ r) (voted_for_ r) (log_ r) (commit_index_ r)
    (last_applied_ r) (stable_index_ r) (leader_ r) (election_elapsed_ r) v
    (votes_granted_ r) (next_index_ r) (match_index_ r) (hard_state_dirty_ r) (out_msgs_
    r).
Definition set_votes_granted (v : list Z) (r : Raft) : Raft :=
  mkRaft (config_ r) (role_ r) (current_term_ r) (voted_for_ r) (log_ r) (commit_index_ r)
    (last_applied_ r) (stable_index_ r) (leader_ r) (election_elapsed_ r)
    (heartbeat_elapsed_ r) v (next_index_ r) (match_index_ r) (hard_state_dirty_ r)
    (out_msgs_ r).
Definition set_next_index (v : gmap Z Z) (r : Raft) : Raft :=
  mkRaft (config_ r) (role_ r) (current_term_ r) (voted_for_ r) (log_ r) (commit_index_ r)
    (last_applied_ r) (stable_index_ r) (leader_ r) (election_elapsed_ r)
    (heartbeat_elapsed_ r) (votes_granted_ r) v (match_index_ r) (hard_state_dirty_ r)
    (out_msgs_ r).
Definition set_match_index (v : gmap Z Z) (r : Raft) : Raft :=
  mkRaft (config_ r) (role_ r) (current_term_ r) (voted_for_ r) (log_ r) (commit_index_ r)
    (last_applied_ r) (stable_index_ r) (leader_ r) (election_elapsed_ r)
    (heartbeat_elapsed_ r) (votes_granted_ r) (next_index_ r) v (hard_state_dirty_ r)
    (out_msgs_ r).
Definition set_hard_state_dirty (v : bool) (r : Raft) : Raft :=
  mkRaft (config_ r) (role_ r) (current_term_ r) (voted_for_ r) (log_ r) (commit_index_ r)
    (last_applied_ r) (stable_index_ r) (leader_ r) (election_elapsed_ r)
    (heartbeat_elapsed_ r) (votes_granted_ r) (next_index_ r) (match_index_ r) v
    (out_msgs_ r).
Definition set_out_msgs (v : list Message) (r : Raft) : Raft :=
  mkRaft (config_ r) (role_ r) (current_term_ r) (voted_for_ r) (log_ r) (commit_index_ r)
    (last_applied_ r) (stable_index_ r) (leader_ r) (election_elapsed_ r)
    (heartbeat_elapsed_ r) (votes_granted_ r) (next_index_ r) (match_index_ r)
    (hard_state_dirty_ r) v.

(** The constructor: the log holds the index-0 sentinel. *)
Definition Raft_new (config : Config) : Raft :=
  mkRaft config kFollower 0 0 [mkLogEntry 0 0 []] 0 0 0 0 0 0 [] ∅ ∅ false [].

(** ** Accessors *)

Definition LastIndex (r : Raft) : Z := u64 (Z.of_nat (length (log_ r)) - 1).

Definition entry_at (index : Z) (r : Raft) : LogEntry := log_ r !!! Z.to_nat index.

Definition LastTerm (r : Raft) : Z := e_term (log_ r !!! (length (log_ r) - 1)%nat).

Definition TermAt (index : Z) (r : Raft) : Z :=
  if LastIndex r <? index then 0 else e_term (entry_at index r).

Definition QuorumSize (r : Raft) : Z := Z.of_nat (length (peers (config_ r))) / 2 + 1.

Definition Send (msg : Message) (r : Raft) : Raft := set_out_msgs (out_msgs_ r ++ [msg]) r.

Definition TakeMessages (r : Raft) : list Message * Raft := (out_msgs_ r, set_out_msgs [] r).

(** [operator[]] of the per-peer maps. *)
Definition peer_index (m : gmap Z Z) (peer : Z) : Z := default 0 (m !! peer).

(** ** Replication, leader side *)

(** The entries with index [from] to [last]. *)
Definition entries_between (from last : Z) (r : Raft) : list LogEntry :=
  (λ i, entry_at i r) <$> seqZ from (last - from + 1).

Definition SendAppendEntries (peer : Z) (r : Raft) : Raft :=
  let next := peer_index (next_index_ r) peer in
  let prev := u64 (next - 1) in
  Send (AppendEntries (id (config_ r)) peer (current_term_ r) prev (TermAt prev r)
          (entries_between next (LastIndex r) r) (commit_index_ r)) r.

(** A loop over the peers other than this node. *)
Definition for_other_peers {A} (r : Raft) (body : A → Z → A) (a : A) : A :=
  foldl (λ a peer, if peer =? id (config_ r) then a else body a peer) a (peers (config_ r)).

Definition BroadcastAppendEntries (r : Raft) : Raft :=
  for_other_peers r (λ r peer, SendAppendEntries peer r) r.

(** The number of replicas of index [n], this node included. *)
Definition count_replicas (n : Z) (r : Raft) : Z :=
  for_other_peers r
    (λ replicas peer, if n <=? peer_index (match_index_ r) peer then replicas + 1 else replicas) 1.

(** The loop of [MaybeCommit] from [n] down to [commit_index_], [fuel] indices
    away. *)
Fixpoint MaybeCommit_loop (fuel : nat) (n : Z) (r : Raft) : Raft :=
  match fuel with
  | O => r
  | S fuel =>
      if negb (TermAt n r =? current_term_ r) then MaybeCommit_loop fuel (n - 1) r
      else if QuorumSize r <=? count_replicas n r then set_commit_index n r
      else MaybeCommit_loop fuel (n - 1) r
  end.

Definition MaybeCommit (r : Raft) : Raft :=
  MaybeCommit_loop (Z.to_nat (LastIndex r - commit_index_ r)) (LastIndex r) r.

(** ** Changes of role *)

Definition BecomeFollower (term leader : Z) (r : Raft) : Raft :=
  let r := if current_term_ r <? term
           then set_hard_state_dirty true (set_voted_for 0 (set_current_term term r)) else r in
  set_election_elapsed 0 (set_leader leader (set_role kFollower r)).

Definition BecomeLeader (r : Raft) : Raft :=
  let r := set_heartbeat_elapsed 0 (set_leader (id (config_ r)) (set_role kLeader r)) in
  let r := set_match_index ∅ (set_next_index ∅ r) in
  let r := for_other_peers r (λ r peer,
             set_match_index (<[peer := 0]> (match_index_ r))
               (set_next_index (<[peer := u64 (LastIndex r + 1)]> (next_index_ r)) r)) r in
  BroadcastAppendEntries r.

Definition BecomeCandidate (r : Raft) : Raft :=
  let r := set_current_term (u64 (current_term_ r + 1)) r in
  let r := set_hard_state_dirty true (set_voted_for (id (config_ r)) r) in
  let r := set_election_elapsed 0 (set_leader 0 (set_role kCandidate r)) in
  let r := set_votes_granted [id (config_ r)] r in
  if QuorumSize r <=? Z.of_nat (length (votes_granted_ r)) then BecomeLeader r
  else for_other_peers r (λ r peer,
         Send (RequestVote (id (config_ r)) peer (current_term_ r) (LastIndex r) (LastTerm r)) r) r.

(** ** Messages *)

Definition HandleRequestVote (msg : Message) (r : Raft) : Raft :=
  let can_vote := (voted_for_ r =? 0) || (voted_for_ r =? m_from msg) in
  let up_to_date :=
    (LastTerm r <? last_log_term msg) ||
    ((last_log_term msg =? LastTerm r) && (LastIndex r <=? last_log_index msg)) in
  let granted := can_vote && up_to_date in
  let resp := RequestVoteResp (id (config_ r)) (m_from msg) (current_term_ r) granted in
  let r := if granted
           then set_election_elapsed 0 (set_hard_state_dirty true (set_voted_for (m_from msg) r))
           else r in
  Send resp r.

(** The body of the loop over the entries of a message. *)
Definition append_entry (r : Raft) (e : LogEntry) : Raft :=
  if e_index e <=? LastIndex r then
    if TermAt (e_index e) r =? e_term e then r
    else
      let r := set_log (take (Z.to_nat (e_index e)) (log_ r)) r in
      let r := if e_index e <=? stable_index_ r
               then set_stable_index (u64 (e_index e - 1)) r else r in
      set_log (log_ r ++ [e]) r
  else set_log (log_ r ++ [e]) r.

Definition HandleAppendEntries (msg : Message) (r : Raft) : Raft :=
  let r := set_election_elapsed 0 (set_leader (m_from msg) r) in
  let resp := AppendEntriesResp (id (config_ r)) (m_from msg) (current_term_ r) in
  if (LastIndex r <? prev_log_index msg) ||
     negb (TermAt (prev_log_index msg) r =? prev_log_term msg)
  then Send (resp false 0) r
  else
    let r := foldl append_entry r (entries msg) in
    let r := if commit_index_ r <? leader_commit msg
             then set_commit_index (Z.min (leader_commit msg) (LastIndex r)) r else r in
    Send (resp true (u64 (prev_log_index msg + Z.of_nat (length (entries msg))))) r.

Definition HandleAppendEntriesResp (msg : Message) (r : Raft) : Raft :=
  if success msg then
    let r := set_match_index (<[m_from msg := m_match_index msg]> (match_index_ r)) r in
    let r := set_next_index (<[m_from msg := u64 (m_match_index msg + 1)]> (next_index_ r)) r in
    MaybeCommit r
  else
    let next := peer_index (next_index_ r) (m_from msg) in
    if 1 <? next then set_next_index (<[m_from msg := next - 1]> (next_index_ r)) r else r.

Definition StepFollower (msg : Message) (r : Raft) : Raft :=
  match m_type msg with
  | kRequestVote => HandleRequestVote msg r
  | kAppendEntries => HandleAppendEntries msg r
  | _ => r
  end.

Definition StepCandidate (msg : Message) (r : Raft) : Raft :=
  match m_type msg with
  | kRequestVoteResp =>
      if vote_granted msg then
        let r := if bool_decide (m_from msg ∈ votes_granted_ r) then r
                 else set_votes_granted (votes_granted_ r ++ [m_from msg]) r in
        if QuorumSize r <=? Z.of_nat (length (votes_granted_ r)) then BecomeLeader r else r
      else r
  | kAppendEntries =>
      HandleAppendEntries msg (BecomeFollower (m_term msg) (m_from msg) r)
  | kRequestVote => HandleRequestVote msg r
  | _ => r
  end.

Definition StepLeader (msg : Message) (r : Raft) : Raft :=
  match m_type msg with
  | kRequestVote => HandleRequestVote msg r
  | kAppendEntriesResp => HandleAppendEntriesResp msg r
  | _ => r
  end.

(** The answer to a message of an earlier term. *)
Definition RejectStale (msg : Message) (r : Raft) : Raft :=
  match m_type msg with
  | kRequestVote =>
      Send (RequestVoteResp (id (config_ r)) (m_from msg) (current_term_ r) false) r
  | kAppendEntries =>
      Send (AppendEntriesResp (id (config_ r)) (m_from msg) (current_term_ r) false 0) r
  | _ => r
  end.

(** The dispatch on the role. *)
Definition StepRole (msg : Message) (r : Raft) : Raft :=
  match role_ r with
  | kFollower => StepFollower msg r
  | kCandidate => StepCandidate msg r
  | kLeader => StepLeader msg r
  end.

Definition Step (msg : Message) (r : Raft) : Raft :=
  if current_term_ r <? m_term msg then
    let lead := if decide (m_type msg = kAppendEntries) then m_from msg else 0 in
    StepRole msg (BecomeFollower (m_term msg) lead r)
  else if m_term msg <? current_term_ r then RejectStale msg r
  else StepRole msg r.

Definition Tick (r : Raft) : Raft :=
  match role_ r with
  | kLeader =>
      let r := set_heartbeat_elapsed (heartbeat_elapsed_ r + 1) r in
      if heartbeat_timeout (config_ r) <=? heartbeat_elapsed_ r
      then BroadcastAppendEntries (set_heartbeat_elapsed 0 r) else r
  | _ =>
      let r := set_election_elapsed (election_elapsed_ r + 1) r in
      if election_timeout (config_ r) <=? election_elapsed_ r then BecomeCandidate r else r
  end.

(** ** The other public methods *)

Definition Propose (data : bytes) (r : Raft) : bool * Raft :=
  match role_ r with
  | kLeader =>
      (true, MaybeCommit (set_log (log_ r ++
               [mkLogEntry (current_term_ r) (u64 (LastIndex r + 1)) data]) r))
  | _ => (false, r)
  end.

Definition TakeCommitted (r : Raft) : list LogEntry * Raft :=
  (entries_between (u64 (last_applied_ r + 1)) (commit_index_ r) r,
   set_last_applied (commit_index_ r) r).

Definition Restore (term vote : Z) (es : list LogEntry) (r : Raft) : Raft :=
  let r := set_voted_for vote (set_current_term term r) in
  let r := foldl (λ r e, set_log (log_ r ++ [e]) r) r es in
  set_hard_state_dirty false (set_stable_index (LastIndex r) r).

(** ** Accessors *)

Definition Raft_role (r : Raft) : Role := role_ r.
Definition Raft_term (r : Raft) : Z := current_term_ r.
Definition Raft_id (r : Raft) : Z := id (config_ r).
Definition Raft_leader (r : Raft) : Z := leader_ r.
Definition Raft_voted_for (r : Raft) : Z := voted_for_ r.
Definition Raft_commit_index (r : Raft) : Z := commit_index_ r.
Definition Raft_last_index (r : Raft) : Z := LastIndex r.
Definition Raft_stable_index (r : Raft) : Z := stable_index_ r.
Definition Raft_hard_state_dirty (r : Raft) : bool := hard_state_dirty_ r.
Definition clear_hard_state_dirty (r : Raft) : Raft := set_hard_state_dirty false r.
