(* ===== verification/RaftModel.v ===== *)
(** * The Raft protocol, as the core implements it

    An abstract transition system of atomic actions over the part of a node
    that safety depends on.  The network is the set of all messages ever sent:
    it may lose, duplicate and reorder them.  A node may restart with its
    persistent state.  [hist] records every state every node was in, in order,
    so that the theorems speak about any two moments of an execution.
    [RaftElection.v], [RaftLogs.v] and [RaftCommit.v] prove the system safe;
    [RaftRefine.v] shows that the methods of the C++ class perform these actions
    only. *)

From S2P Require Import Prelude Raft.
Local Open Scope Z_scope.

(** ** Nodes and messages *)

Record node : Type := mkNode {
  term : Z;
  vote : Z;
  nrole : Role;
  nlog : list LogEntry;
  commit : nat;
  votes : list Z;
  matched : Z → nat;
}.

Definition sentinel : LogEntry := mkLogEntry 0 0 [].

Definition init_node : node := mkNode 0 0 kFollower [sentinel] 0 [] (λ _, 0%nat).

Inductive amsg : Type :=
  | MVote (from to t : Z) (last : nat) (last_t : Z)
  | MGrant (from to t : Z)
  | MAppend (from to t : Z) (prev : nat) (prev_t : Z) (es : list LogEntry) (lc : nat)
  | MAck (from to t : Z) (m : nat).

(** ** Logs *)

Definition term_at (k : nat) (l : list LogEntry) : Z := e_term (l !!! k).

Definition last_term (l : list LogEntry) : Z := term_at (length l - 1) l.

(** A position given by its last index and last term is at least as up to date
    as the log [l]. *)
Definition up_to_date (l : list LogEntry) (last : nat) (last_t : Z) : Prop :=
  last_term l < last_t ∨ (last_term l = last_t ∧ length l - 1 ≤ last)%nat.

(** One entry of a message against the log: skipped when an entry of the same
    term is there, else it replaces what is there and everything after. *)
Definition append_one (l : list LogEntry) (e : LogEntry) : list LogEntry :=
  match l !! Z.to_nat (e_index e) with
  | Some x => if e_term x =? e_term e then l else take (Z.to_nat (e_index e)) l ++ [e]
  | None => l ++ [e]
  end.

Definition accept_log (l es : list LogEntry) : list LogEntry := foldl append_one l es.

Section protocol.
Context (peers : list Z).

Definition quorum : nat := length peers / 2 + 1.

(** The peers, this one included, that hold index [m] as far as it knows. *)
Definition replicas (i : Z) (m : nat) (n : node) : list Z :=
  filter (λ j, j = i ∨ (m ≤ matched n j)%nat) peers.

(** ** Actions of node [i]

    [a_recover] is a crash while the entries of a message are persisted: of the
    new log the node restarts with a first part, which has at least what the old
    and the new log have in common. *)

Inductive action (i : Z) (soup : list amsg) : node → node → list amsg → Prop :=
  | a_adopt n t :
      term n < t →
      action i soup n (mkNode t 0 kFollower (nlog n) (commit n) [] (λ _, 0%nat)) []
  | a_stepdown n c :
      c = commit n ∨ c = 0%nat →
      action i soup n (mkNode (term n) (vote n) kFollower (nlog n) c [] (λ _, 0%nat)) []
  | a_timeout n :
      nrole n ≠ kLeader →
      action i soup n (mkNode (term n + 1) i kCandidate (nlog n) (commit n) [i] (λ _, 0%nat)) []
  | a_campaign n to :
      nrole n = kCandidate → to ∈ peers → to ≠ i →
      action i soup n n [MVote i to (term n) (length (nlog n) - 1) (last_term (nlog n))]
  | a_grant n j last last_t :
      MVote j i (term n) last last_t ∈ soup →
      vote n = 0 ∨ vote n = j → up_to_date (nlog n) last last_t →
      action i soup n
        (mkNode (term n) j (nrole n) (nlog n) (commit n) (votes n) (matched n))
        [MGrant i j (term n)]
  | a_count n j :
      nrole n = kCandidate → MGrant j i (term n) ∈ soup → j ∉ votes n →
      action i soup n
        (mkNode (term n) (vote n) (nrole n) (nlog n) (commit n) (votes n ++ [j]) (matched n)) []
  | a_win n :
      nrole n = kCandidate → (quorum ≤ length (votes n))%nat →
      action i soup n (mkNode (term n) (vote n) kLeader (nlog n) (commit n) (votes n) (λ _, 0%nat)) []
  | a_send n to p :
      nrole n = kLeader → to ∈ peers → to ≠ i → (p < length (nlog n))%nat →
      action i soup n n
        [MAppend i to (term n) p (term_at p (nlog n)) (drop (S p) (nlog n)) (commit n)]
  | a_accept n j p pt es lc :
      nrole n = kFollower → MAppend j i (term n) p pt es lc ∈ soup →
      (p < length (nlog n))%nat → term_at p (nlog n) = pt →
      let l := accept_log (nlog n) es in
      action i soup n
        (mkNode (term n) (vote n) (nrole n) l
           (if decide (commit n < lc)%nat then lc `min` (length l - 1) else commit n)%nat
           (votes n) (matched n))
        [MAck i j (term n) (p + length es)]
  | a_ack n j m :
      nrole n = kLeader → MAck j i (term n) m ∈ soup →
      action i soup n
        (mkNode (term n) (vote n) (nrole n) (nlog n) (commit n) (votes n)
           (<[j := m]> (matched n))) []
  | a_advance n m :
      nrole n = kLeader → (commit n < m < length (nlog n))%nat →
      term_at m (nlog n) = term n → (quorum ≤ length (replicas i m n))%nat →
      action i soup n
        (mkNode (term n) (vote n) (nrole n) (nlog n) m (votes n) (matched n)) []
  | a_propose n d :
      nrole n = kLeader →
      action i soup n
        (mkNode (term n) (vote n) (nrole n)
           (nlog n ++ [mkLogEntry (term n) (Z.of_nat (length (nlog n))) d])
           (commit n) (votes n) (matched n)) []
  | a_recover n j p pt es lc m :
      nrole n = kFollower → MAppend j i (term n) p pt es lc ∈ soup →
      (p < length (nlog n))%nat → term_at p (nlog n) = pt →
      let l := accept_log (nlog n) es in
      (∀ k, (k < length (nlog n))%nat → take (S k) (nlog n) = take (S k) l → (k ≤ m)%nat) →
      action i soup n (mkNode (term n) (vote n) kFollower (take (S m) l) 0 [] (λ _, 0%nat)) [].

(** ** Executions *)

Record astate : Type := mkAstate {
  nodes : Z → node;
  soup : list amsg;
  hist : list (Z * node);
}.

Definition init_state : astate :=
  mkAstate (λ _, init_node) [] ((λ i, (i, init_node)) <$> peers).

Inductive astep (s : astate) : astate → Prop :=
  | astep_action i n out :
      i ∈ peers → action i (soup s) (nodes s i) n out →
      astep s (mkAstate (<[i := n]> (nodes s)) (soup s ++ out) (hist s ++ [(i, n)])).

Definition areachable : astate → Prop := rtc astep init_state.

End protocol.

(** ** The history grows at the end *)

Lemma in_snoc {A} (x y : A) (xs : list A) : x ∈ xs ++ [y] ↔ x ∈ xs ∨ x = y.
Proof. by rewrite elem_of_app, list_elem_of_singleton. Qed.

Lemma subset_app {A} (xs ys : list A) : xs ⊆ xs ++ ys.
Proof. intros x Hx. apply elem_of_app. by left. Qed.
#[export] Hint Resolve subset_app : core.

(** A state of the extended history is an old one or the new one. *)
Ltac hist_cases H := apply in_snoc in H as [H|H]; [|simplify_eq].
