(* ===== verification/RaftElection.v ===== *)
(** * Elections of the Raft protocol

    The invariant of elections over the executions of [RaftModel.v], and that a
    term has at most one leader. *)

From S2P Require Import Prelude Raft RaftModel.
Local Open Scope Z_scope.

Section election.
Context (peers : list Z).
Context (peers_nodup : NoDup peers) (peers_pos : ∀ p, p ∈ peers → 0 < p).
Abbreviation quorum := (quorum peers).
Abbreviation action := (action peers).
Implicit Types (i j v : Z) (n l c : node) (h : list (Z * node)).

Lemma peer_nonzero i : i ∈ peers → i ≠ 0.
Proof. intros Hi%peers_pos. lia. Qed.

(** ** Quorums *)

(** Two majorities have a member in common. *)
Lemma quorums_meet (Q1 Q2 : list Z) :
  NoDup Q1 → NoDup Q2 → Q1 ⊆ peers → Q2 ⊆ peers →
  (quorum ≤ length Q1)%nat → (quorum ≤ length Q2)%nat → ∃ v, v ∈ Q1 ∧ v ∈ Q2.
Proof.
  intros N1 N2 S1 S2 L1 L2.
  destruct (filter (.∈ Q1) Q2) as [|v Q] eqn:E.
  - exfalso. assert (NoDup (Q1 ++ Q2)) as N.
    { apply NoDup_app. split_and!; [done| |done]. intros v H1 H2.
      apply (not_elem_of_nil v). rewrite <-E. apply list_elem_of_filter. done. }
    assert (Q1 ++ Q2 ⊆ peers) as S by (intros v [?|?]%elem_of_app; auto).
    apply (NoDup_submseteq _ _ N), submseteq_length in S.
    rewrite length_app in S. unfold RaftModel.quorum in *.
    pose proof (Nat.div_mod_eq (length peers) 2).
    pose proof (Nat.mod_upper_bound (length peers) 2). lia.
  - exists v. assert (v ∈ filter (.∈ Q1) Q2) as [? ?]%list_elem_of_filter; [|done].
    rewrite E. apply list_elem_of_here.
Qed.

(** ** Terms and votes only move forward *)

Definition vote_le (n n' : node) : Prop :=
  term n < term n' ∨ (term n = term n' ∧ (vote n = 0 ∨ vote n' = vote n)).

#[local] Instance vote_le_preorder : PreOrder vote_le.
Proof.
  split; [by right; split; [|right]|].
  intros n1 n2 n3. unfold vote_le. intros [H1|[H1 H1']] [H2|[H2 H2']]; [left; lia..|].
  right. split; [lia|]. destruct H1' as [?|<-]; [by left|]. destruct H2'; [by left|by right].
Qed.

Lemma action_vote_le i soup n n' out : action i soup n n' out → vote_le n n'.
Proof.
  intros Ha. unfold vote_le. inversion Ha; subst; simpl; try (right; by auto); try (left; lia).
  right. split; [done|]. destruct H0 as [?|<-]; [by left|by right].
Qed.

(** ** The invariant of elections *)

(** The state [nv] of [v] is a vote for [i] in term [t], given to a candidate
    state of [i] at least as up to date. *)
Definition vote_for h (v i t : Z) : Prop :=
  ∃ nv c, (v, nv) ∈ h ∧ term nv = t ∧ vote nv = i ∧
    (i, c) ∈ h ∧ nrole c = kCandidate ∧ term c = t ∧
    up_to_date (nlog nv) (length (nlog c) - 1) (last_term (nlog c)).

Record election_inv (s : astate) : Prop := {
  inv_ids : ∀ i n, (i, n) ∈ hist s → i ∈ peers;
  inv_cur : ∀ i, i ∈ peers → (i, nodes s i) ∈ hist s;
  inv_vote : ∀ i n, (i, n) ∈ hist s → vote_le n (nodes s i);
  inv_unique : ∀ v n1 n2, (v, n1) ∈ hist s → (v, n2) ∈ hist s → term n1 = term n2 →
    vote n1 ≠ 0 → vote n2 ≠ 0 → vote n1 = vote n2;
  inv_term : ∀ i n, (i, n) ∈ hist s → 0 ≤ term n;
  inv_self : ∀ i n, (i, n) ∈ hist s → nrole n ≠ kFollower →
    vote n = i ∧ 0 < term n ∧ NoDup (votes n) ∧ votes n ⊆ peers;
  inv_quorum : ∀ i n, (i, n) ∈ hist s → nrole n = kLeader → (quorum ≤ length (votes n))%nat;
  inv_votes : ∀ i n v, (i, n) ∈ hist s → nrole n ≠ kFollower → v ∈ votes n →
    vote_for (hist s) v i (term n);
  inv_grant : ∀ v i t, MGrant v i t ∈ soup s → v ∈ peers ∧ vote_for (hist s) v i t;
  inv_request : ∀ i v t last last_t, MVote i v t last last_t ∈ soup s →
    i ∈ peers ∧ i ≠ v ∧ ∃ c, (i, c) ∈ hist s ∧ nrole c = kCandidate ∧ term c = t ∧
      last = (length (nlog c) - 1)%nat ∧ last_t = last_term (nlog c);
}.

Lemma vote_for_mono h h' v i t : h ⊆ h' → vote_for h v i t → vote_for h' v i t.
Proof.
  intros Hh (nv & c & H1 & ? & ? & H2 & ? & ? & ?). apply Hh in H1, H2. exists nv, c. by split_and!.
Qed.

Section election_step.
Context (s : astate) (i : Z) (n' : node) (out : list amsg).
Context (HI : election_inv s) (Hi : i ∈ peers) (Ha : action i (soup s) (nodes s i) n' out).
Let s' := mkAstate (<[i := n']> (nodes s)) (soup s ++ out) (hist s ++ [(i, n')]).

Lemma step_vote j n : (j, n) ∈ hist s' → vote_le n (nodes s' j).
Proof.
  simpl. intros H. destruct (decide (j = i)) as [->|Hne].
  - rewrite fn_lookup_insert. hist_cases H; [|done].
    etrans; [by apply HI|by eapply action_vote_le].
  - rewrite fn_lookup_insert_ne by done. hist_cases H. by apply HI.
Qed.

Lemma step_unique v n1 n2 : (v, n1) ∈ hist s' → (v, n2) ∈ hist s' → term n1 = term n2 →
  vote n1 ≠ 0 → vote n2 ≠ 0 → vote n1 = vote n2.
Proof.
  assert (∀ n, (i, n) ∈ hist s → term n = term n' → vote n ≠ 0 → vote n' = vote n) as Hold.
  { intros n Hn. assert ((i, n) ∈ hist s') as Hn' by by apply subset_app.
    apply step_vote in Hn'. simpl in Hn'. rewrite fn_lookup_insert in Hn'.
    destruct Hn' as [?|[? [?|?]]]; [lia|done|done]. }
  intros H1 H2 Et V1 V2. hist_cases H1; hist_cases H2.
  - by eapply (inv_unique _ HI v).
  - symmetry. by apply Hold.
  - by apply Hold.
  - done.
Qed.

Lemma step_term j n : (j, n) ∈ hist s' → 0 ≤ term n.
Proof.
  simpl. intros H. hist_cases H; [by eapply HI|].
  pose proof (inv_term _ HI i _ (inv_cur _ HI i Hi)). apply action_vote_le in Ha as [?|[? _]]; lia.
Qed.

Lemma step_self j n : (j, n) ∈ hist s' → nrole n ≠ kFollower →
  vote n = j ∧ 0 < term n ∧ NoDup (votes n) ∧ votes n ⊆ peers.
Proof.
  simpl. intros H Hr. hist_cases H; [by apply HI|].
  pose proof (inv_self _ HI i _ (inv_cur _ HI i Hi)) as Hself.
  pose proof (inv_term _ HI i _ (inv_cur _ HI i Hi)) as Hterm.
  inversion Ha as [| | | |? j last last_t Hreq Hv|? j ? Hg Hj| | | | | | |]; subst; simpl in *;
    try done; try (apply Hself; congruence).
  - split_and!; [done|lia|apply NoDup_singleton|].
    by intros v ->%list_elem_of_singleton.
  - destruct (Hself Hr) as (E & ? & ? & ?). pose proof (peer_nonzero i Hi).
    split_and!; [|done..]. destruct Hv; congruence.
  - destruct (Hself Hr) as (? & ? & ? & Hsub). split_and!; [done..| |].
    + apply NoDup_app. split_and!; [done| |apply NoDup_singleton].
      by intros v Hv ->%list_elem_of_singleton.
    + intros v Hv. apply in_snoc in Hv as [Hv| ->]; [by apply Hsub|].
      by apply (inv_grant _ HI) in Hg as [? _].
Qed.

Lemma step_quorum j n : (j, n) ∈ hist s' → nrole n = kLeader → (quorum ≤ length (votes n))%nat.
Proof.
  simpl. intros H Hr. hist_cases H; [by eapply HI|].
  pose proof (inv_quorum _ HI i _ (inv_cur _ HI i Hi)) as Hq.
  inversion Ha; subst; simpl in *; try done; try (by apply Hq); congruence.
Qed.

Lemma step_votes j n v : (j, n) ∈ hist s' → nrole n ≠ kFollower → v ∈ votes n →
  vote_for (hist s') v j (term n).
Proof.
  simpl. intros H Hr Hv. hist_cases H.
  { eapply vote_for_mono; [|by apply (inv_votes _ HI j n v)]. auto. }
  pose proof (inv_votes _ HI i _ v (inv_cur _ HI i Hi)) as Hvotes.
  inversion Ha as [| | | | |? j ? Hg Hj| | | | | | |]; subst; simpl in *; try done;
    try (eapply vote_for_mono; [|apply Hvotes; [congruence|done]]; by auto).
  - apply list_elem_of_singleton in Hv as ->.
    eexists _, _. split_and!; [apply in_snoc; by right|done|done|apply in_snoc; by right|done|done|].
    right. done.
  - apply in_snoc in Hv as [Hv| ->].
    + eapply vote_for_mono; [|apply Hvotes; [congruence|done]]. auto.
    + eapply vote_for_mono; [|by eapply (inv_grant _ HI)]. auto.
Qed.

Lemma step_request j v t last last_t : MVote j v t last last_t ∈ soup s' →
  j ∈ peers ∧ j ≠ v ∧ ∃ c, (j, c) ∈ hist s' ∧ nrole c = kCandidate ∧ term c = t ∧
    last = (length (nlog c) - 1)%nat ∧ last_t = last_term (nlog c).
Proof.
  simpl. rewrite elem_of_app. intros [H|H].
  - destruct (inv_request _ HI _ _ _ _ _ H) as (? & ? & c & Hc & ?).
    split_and!; [done..|]. exists c. split; [by apply subset_app|done].
  - inversion Ha; subst; try (by apply list_elem_of_singleton in H); try (by apply not_elem_of_nil in H).
    apply list_elem_of_singleton in H. simplify_eq. split_and!; [done..|].
    eexists. split; [apply in_snoc; by right|done].
Qed.

Lemma step_grant v j t : MGrant v j t ∈ soup s' → v ∈ peers ∧ vote_for (hist s') v j t.
Proof.
  simpl. rewrite elem_of_app. intros [H|H].
  - destruct (inv_grant _ HI _ _ _ H) as [? ?]. split; [done|]. eapply vote_for_mono; [|done]. auto.
  - inversion Ha as [| | | |? k last last_t Hreq Hv Hup| | | | | | | |]; subst;
      try (by apply list_elem_of_singleton in H); try (by apply not_elem_of_nil in H).
    apply list_elem_of_singleton in H. simplify_eq. split; [done|].
    destruct (inv_request _ HI _ _ _ _ _ Hreq) as (_ & _ & c & Hc & ? & ? & -> & ->).
    eexists _, c. split_and!; [apply in_snoc; by right|done|done|by apply subset_app|done..].
Qed.

Lemma election_step : election_inv s'.
Proof.
  split.
  - intros j n H. hist_cases H; [by eapply HI|done].
  - intros j Hj. simpl. destruct (decide (j = i)) as [->|Hne].
    + rewrite fn_lookup_insert. apply in_snoc. by right.
    + rewrite fn_lookup_insert_ne by done. apply in_snoc. left. by apply HI.
  - exact step_vote.
  - exact step_unique.
  - exact step_term.
  - exact step_self.
  - exact step_quorum.
  - exact step_votes.
  - exact step_grant.
  - exact step_request.
Qed.
End election_step.

Lemma election_init : election_inv (init_state peers).
Proof.
  assert (∀ i n, (i, n) ∈ hist (init_state peers) → i ∈ peers ∧ n = init_node) as Hin.
  { intros i n (j & [= -> ->] & Hj)%list_elem_of_fmap. done. }
  split; try (intros * [Hi ->]%Hin; done).
  - intros i Hi. simpl. apply list_elem_of_fmap. by exists i.
  - intros v i t H. by apply not_elem_of_nil in H.
  - intros i v t last last_t H. by apply not_elem_of_nil in H.
Qed.

(** ** At most one leader per term *)

Lemma leaders_agree s i1 l1 i2 l2 : election_inv s →
  (i1, l1) ∈ hist s → (i2, l2) ∈ hist s →
  nrole l1 = kLeader → nrole l2 = kLeader → term l1 = term l2 → i1 = i2.
Proof.
  intros HI H1 H2 R1 R2 Et.
  destruct (inv_self _ HI _ _ H1) as (_ & _ & N1 & S1); [congruence|].
  destruct (inv_self _ HI _ _ H2) as (_ & _ & N2 & S2); [congruence|].
  destruct (quorums_meet (votes l1) (votes l2) N1 N2 S1 S2) as (v & Hv1 & Hv2);
    [by eapply HI..|].
  destruct (inv_votes _ HI _ _ v H1) as (n1 & _ & Hn1 & T1 & V1 & _); [congruence|done|].
  destruct (inv_votes _ HI _ _ v H2) as (n2 & _ & Hn2 & T2 & V2 & _); [congruence|done|].
  pose proof (peer_nonzero i1 (inv_ids _ HI _ _ H1)).
  pose proof (peer_nonzero i2 (inv_ids _ HI _ _ H2)).
  rewrite <-V1, <-V2. eapply (inv_unique _ HI v); congruence.
Qed.
End election.
