(* ===== verification/RaftLogs.v ===== *)
(** * The logs of the Raft protocol

    The Log Matching property over the executions of [RaftModel.v]: every log is
    at each of its entries a prefix of the log of the leader that created the
    entry, and a follower that accepts the entries of a leader either already
    holds the leader's log or takes it over. *)

From S2P Require Import Prelude Raft RaftModel RaftElection.
Local Open Scope Z_scope.

(** ** Lists of entries *)

(** The entry at position [k] carries the index [k]. *)
Definition indexed (l : list LogEntry) : Prop := ∀ k e, l !! k = Some e → e_index e = Z.of_nat k.

Lemma take_S_prefix {A} (k : nat) (l1 l2 : list A) :
  l1 `prefix_of` l2 → (k < length l1)%nat → take (S k) l1 = take (S k) l2.
Proof. intros [l3 ->] Hk. rewrite take_app_le by lia. done. Qed.

Lemma take_S_le {A} (k m : nat) (l1 l2 : list A) :
  take (S m) l1 = take (S m) l2 → (k ≤ m)%nat → take (S k) l1 = take (S k) l2.
Proof.
  intros E Hk. apply (f_equal (take (S k))) in E. rewrite !take_take in E.
  by replace (S k `min` S m)%nat with (S k) in E by lia.
Qed.

Lemma take_S_lookup {A} (k m : nat) (l1 l2 : list A) :
  take (S m) l1 = take (S m) l2 → (k ≤ m)%nat → l1 !! k = l2 !! k.
Proof.
  intros E Hk. rewrite <-(lookup_take_lt l1 (S m) k), <-(lookup_take_lt l2 (S m) k) by lia.
  by rewrite E.
Qed.

Lemma take_S_prefix_of {A} (m : nat) (l1 l2 : list A) :
  take (S m) l1 = take (S m) l2 → (length l1 ≤ S m)%nat → l1 `prefix_of` l2.
Proof.
  intros E Hl. rewrite take_ge in E by done. rewrite E. apply take_prefix_of.
Qed.

(** Entries of the same term at the same position are the same entry. *)
Definition agree (l1 l2 : list LogEntry) : Prop :=
  ∀ k a b, l1 !! k = Some a → l2 !! k = Some b → e_term a = e_term b → a = b.

Lemma prefix_agree l1 l2 : l1 `prefix_of` l2 → agree l1 l2.
Proof. intros Hp k a b Ha Hb _. eapply prefix_lookup_Some in Ha; [|done]. congruence. Qed.

(** Accepting the entries of [L] after a position where the logs are equal
    leaves a log that already contains [L] alone and replaces any other by
    [L]. *)
Lemma accept_log_spec l L p :
  (p < length L)%nat → take (S p) l = take (S p) L → indexed L → agree l L →
  (L `prefix_of` l ∧ accept_log l (drop (S p) L) = l) ∨
  (¬ L `prefix_of` l ∧ accept_log l (drop (S p) L) = L).
Proof.
  remember (length L - S p)%nat as d eqn:Hd. revert l p Hd.
  induction d as [|d IH]; intros l p Hd Hp Heq Hidx Hag.
  - left. rewrite drop_ge by lia. split; [|done]. eapply take_S_prefix_of; [by symmetry|lia].
  - destruct (lookup_lt_is_Some_2 L (S p)) as [e He]; [lia|].
    assert (length (take (S p) l) = S p) as Hlen by (rewrite Heq, length_take; lia).
    rewrite length_take in Hlen.
    erewrite (drop_S L e (S p)) by done.
    change (accept_log ?x (e :: ?r)) with (accept_log (append_one x e) r).
    unfold append_one. rewrite (Hidx _ _ He), Nat2Z.id.
    assert (∀ l', l' = take (S (S p)) L →
      accept_log l' (drop (S (S p)) L) = L) as Hgrow.
    { intros l' ->. destruct (IH (take (S (S p)) L) (S p)) as [[Hpre ->]|[_ ->]]; [lia..| | | | |done].
      - by rewrite take_take, Nat.min_id.
      - done.
      - apply prefix_agree, take_prefix_of.
      - apply prefix_length_eq; [apply take_prefix_of|]. by apply prefix_length in Hpre. }
    assert (take (S p) l ++ [e] = take (S (S p)) L) as Hnew
      by (rewrite Heq; symmetry; by apply take_S_r).
    destruct (l !! S p) as [x|] eqn:Hx.
    + destruct (Z.eqb_spec (e_term x) (e_term e)) as [Ht|Ht].
      * pose proof (Hag _ _ _ Hx He Ht) as ->. apply (IH l (S p)); [lia|lia| |done|done].
        rewrite (take_S_r l (S p) e), (take_S_r L (S p) e), Heq by done. done.
      * right. split; [|by apply Hgrow]. intros Hpre.
        eapply prefix_lookup_Some in He; [|done]. congruence.
    + right. apply lookup_ge_None in Hx. rewrite take_ge in Hnew by lia. split; [|by apply Hgrow].
      intros Hpre%prefix_length. lia.
Qed.

(** ** The invariant of logs *)

Section logs.
Context (peers : list Z).
Context (peers_nodup : NoDup peers) (peers_pos : ∀ p, p ∈ peers → 0 < p).
Abbreviation quorum := (quorum peers).
Abbreviation action := (action peers).
Abbreviation election_inv := (election_inv peers).
Implicit Types (i j v : Z) (n l c : node) (h : list (Z * node)).

(** The log starts with the sentinel, its entries carry their positions and
    their terms do not decrease and are not from the future; a candidate holds
    no entry of its own term. *)
Record log_wf (n : node) : Prop := {
  wf_sentinel : nlog n !! 0%nat = Some sentinel;
  wf_indexed : indexed (nlog n);
  wf_sorted : ∀ k1 k2 a b, (k1 ≤ k2)%nat → nlog n !! k1 = Some a → nlog n !! k2 = Some b →
    e_term a ≤ e_term b;
  wf_terms : ∀ k e, nlog n !! k = Some e → e_term e ≤ term n;
  wf_candidate : nrole n = kCandidate → ∀ k e, nlog n !! k = Some e → e_term e < term n;
}.

(** At each entry the log is a prefix of a log of the leader of its term. *)
Definition matching h (lg : list LogEntry) : Prop :=
  ∀ k e, (0 < k)%nat → lg !! k = Some e →
  ∃ j l, (j, l) ∈ h ∧ nrole l = kLeader ∧ term l = e_term e ∧ take (S k) lg = take (S k) (nlog l).

Record log_inv (s : astate) : Prop := {
  lg_wf : ∀ i n, (i, n) ∈ hist s → log_wf n;
  lg_lead_cur : ∀ i l, (i, l) ∈ hist s → nrole l = kLeader → term l = term (nodes s i) →
    nrole (nodes s i) ≠ kCandidate ∧
    (nrole (nodes s i) = kLeader → nlog l `prefix_of` nlog (nodes s i));
  lg_lead : ∀ i l1 l2, (i, l1) ∈ hist s → (i, l2) ∈ hist s →
    nrole l1 = kLeader → nrole l2 = kLeader → term l1 = term l2 →
    nlog l1 `prefix_of` nlog l2 ∨ nlog l2 `prefix_of` nlog l1;
  lg_cand_cur : ∀ i c, (i, c) ∈ hist s → nrole c = kCandidate → term c = term (nodes s i) →
    nrole (nodes s i) ≠ kFollower → nlog c `prefix_of` nlog (nodes s i);
  lg_cand : ∀ i c l, (i, c) ∈ hist s → (i, l) ∈ hist s →
    nrole c = kCandidate → nrole l = kLeader → term c = term l → nlog c `prefix_of` nlog l;
  lg_matching : ∀ a i n, hist s !! a = Some (i, n) → matching (take (S a) (hist s)) (nlog n);
  lg_append : ∀ j v t p pt es lc, MAppend j v t p pt es lc ∈ soup s →
    j ≠ v ∧ ∃ l, (j, l) ∈ hist s ∧ nrole l = kLeader ∧ term l = t ∧ (p < length (nlog l))%nat ∧
      pt = term_at p (nlog l) ∧ es = drop (S p) (nlog l) ∧ lc = commit l;
}.

Lemma matching_mono h h' lg : h ⊆ h' → matching h lg → matching h' lg.
Proof.
  intros Hh Hm k e Hk He. destruct (Hm k e Hk He) as (j & l & Hl & ?).
  exists j, l. split; [by apply Hh|done].
Qed.

Lemma matching_cut h lg m : matching h lg → matching h (take (S m) lg).
Proof.
  intros Hm k e Hk [He Hkm]%lookup_take_Some.
  destruct (Hm k e Hk He) as (j & l & ? & ? & ? & E). exists j, l. split_and!; [done..|].
  rewrite <-E, take_take. f_equal. lia.
Qed.

Lemma take_subset {A} k (xs : list A) : take k xs ⊆ xs.
Proof. intros x Hx. rewrite <-(take_drop k xs). apply elem_of_app. by left. Qed.

Lemma hist_matching s i n : log_inv s → (i, n) ∈ hist s → matching (hist s) (nlog n).
Proof.
  intros HL [a Ha]%list_elem_of_lookup_1.
  eapply matching_mono; [|by eapply (lg_matching _ HL)]. apply take_subset.
Qed.

(** Leaders of the same term have comparable logs. *)
Lemma leaders_comparable s i1 l1 i2 l2 : election_inv s → log_inv s →
  (i1, l1) ∈ hist s → (i2, l2) ∈ hist s → nrole l1 = kLeader → nrole l2 = kLeader →
  term l1 = term l2 → nlog l1 `prefix_of` nlog l2 ∨ nlog l2 `prefix_of` nlog l1.
Proof.
  intros HI HL H1 H2 R1 R2 Et.
  assert (i1 = i2) as -> by (by eapply (leaders_agree peers)).
  by eapply (lg_lead _ HL).
Qed.

(** ** Log Matching *)

Lemma prefixes_take {A} k (l1 l2 : list A) :
  l1 `prefix_of` l2 ∨ l2 `prefix_of` l1 → (k < length l1)%nat → (k < length l2)%nat →
  take (S k) l1 = take (S k) l2.
Proof. intros [H|H] H1 H2; [|symmetry]; by apply take_S_prefix. Qed.

Lemma take_S_length {A} k (l1 l2 : list A) a :
  take (S k) l1 = take (S k) l2 → l1 !! k = Some a → (k < length l2)%nat.
Proof.
  intros E Ha. apply lookup_lt_is_Some_1. exists a. by rewrite <-(take_S_lookup k k l1 l2 E).
Qed.

Lemma matching_take s lg1 lg2 k a b : election_inv s → log_inv s →
  matching (hist s) lg1 → matching (hist s) lg2 → (0 < k)%nat →
  lg1 !! k = Some a → lg2 !! k = Some b → e_term a = e_term b →
  take (S k) lg1 = take (S k) lg2.
Proof.
  intros HI HL M1 M2 Hk Ha Hb Et.
  destruct (M1 k a Hk Ha) as (j1 & l1 & H1 & R1 & T1 & E1).
  destruct (M2 k b Hk Hb) as (j2 & l2 & H2 & R2 & T2 & E2).
  rewrite E1, E2. apply prefixes_take.
  - eapply leaders_comparable; [done..|congruence].
  - by eapply take_S_length.
  - by eapply take_S_length.
Qed.

Lemma matching_take_hist s i1 n1 i2 n2 k a b : election_inv s → log_inv s →
  (i1, n1) ∈ hist s → (i2, n2) ∈ hist s →
  nlog n1 !! k = Some a → nlog n2 !! k = Some b → e_term a = e_term b →
  take (S k) (nlog n1) = take (S k) (nlog n2).
Proof.
  intros HI HL H1 H2 Ha Hb Et. destruct k as [|k].
  - pose proof (wf_sentinel _ (lg_wf _ HL _ _ H1)) as E1.
    pose proof (wf_sentinel _ (lg_wf _ HL _ _ H2)) as E2.
    by rewrite (take_S_r _ _ _ E1), (take_S_r _ _ _ E2).
  - pose proof (hist_matching _ _ _ HL H1). pose proof (hist_matching _ _ _ HL H2).
    eapply matching_take; [done..|lia|done|done|done].
Qed.

(** The log after accepting the entries of a message. *)
Lemma accept_cases s i j l p : election_inv s → log_inv s → i ∈ peers →
  (j, l) ∈ hist s → (p < length (nlog l))%nat → (p < length (nlog (nodes s i)))%nat →
  term_at p (nlog (nodes s i)) = term_at p (nlog l) →
  (nlog l `prefix_of` nlog (nodes s i) ∧
     accept_log (nlog (nodes s i)) (drop (S p) (nlog l)) = nlog (nodes s i)) ∨
  (¬ nlog l `prefix_of` nlog (nodes s i) ∧
     accept_log (nlog (nodes s i)) (drop (S p) (nlog l)) = nlog l).
Proof.
  intros HI HL Hi Hl Hp Hp' Et. pose proof (inv_cur _ _ HI i Hi) as Hn.
  apply accept_log_spec; [done| |by eapply wf_indexed, lg_wf|].
  - destruct (lookup_lt_is_Some_2 _ _ Hp) as [b Hb], (lookup_lt_is_Some_2 _ _ Hp') as [a Ha].
    eapply matching_take_hist; [done..|]. unfold term_at in Et.
    by rewrite (list_lookup_total_correct _ _ _ Ha), (list_lookup_total_correct _ _ _ Hb) in Et.
  - intros k a b Ha Hb Hab.
    pose proof (matching_take_hist s _ _ _ _ k a b HI HL Hn Hl Ha Hb Hab) as E.
    apply (take_S_lookup k k) in E; [|done]. congruence.
Qed.

(** ** Preservation *)

Lemma action_leader i soup n n' out : action i soup n n' out → nrole n' = kLeader →
  term n' = term n ∧ nlog n `prefix_of` nlog n' ∧
  (nrole n = kLeader ∨ (nrole n = kCandidate ∧ nlog n' = nlog n)).
Proof.
  intros Ha Hr. inversion Ha; subst; simpl in *; try congruence; split_and!; auto.
  by apply prefix_app_r.
Qed.

Lemma action_candidate i soup n n' out : action i soup n n' out → nrole n' = kCandidate →
  nlog n' = nlog n ∧
  ((nrole n = kCandidate ∧ term n' = term n) ∨ term n' = term n + 1).
Proof. intros Ha Hr. inversion Ha; subst; simpl in *; try congruence; auto. Qed.

Section log_step.
Context (s : astate) (i : Z) (n' : node) (out : list amsg).
Context (HI : election_inv s) (HL : log_inv s).
Context (Hi : i ∈ peers) (Ha : action i (soup s) (nodes s i) n' out).
Let n := nodes s i.
Let s' := mkAstate (<[i := n']> (nodes s)) (soup s ++ out) (hist s ++ [(i, n')]).

Lemma cur_in : (i, n) ∈ hist s.
Proof. by apply HI. Qed.

(** How the log changes: not at all, by an entry the leader adds, or by taking
    over the log of the leader of the term, or a first part of it that keeps what
    it has in common with the old log. *)
Lemma log_change :
  nlog n' = nlog n ∨
  (nrole n = kLeader ∧ nrole n' = kLeader ∧ term n' = term n ∧
     ∃ d, nlog n' = nlog n ++ [mkLogEntry (term n) (Z.of_nat (length (nlog n))) d]) ∨
  (nrole n' = kFollower ∧ term n' = term n ∧
     ∃ j l, (j, l) ∈ hist s ∧ nrole l = kLeader ∧ term l = term n ∧
       ¬ nlog l `prefix_of` nlog n ∧
       ∃ m, nlog n' = take (S m) (nlog l) ∧
         ∀ k, (k < length (nlog n))%nat → take (S k) (nlog n) = take (S k) (nlog l) → (k ≤ m)%nat).
Proof.
  inversion Ha as [| | | | | | | |? j p pt es lc Hr Hm Hp Ht| | |? d
    |? j p pt es lc m Hr Hm Hp Ht l Hcommon]; subst; simpl; auto.
  - destruct (lg_append _ HL _ _ _ _ _ _ _ Hm) as (_ & ld & Hl & Rl & Tl & Hpl & Hpt & -> & _).
    destruct (accept_cases s i j ld p HI HL Hi Hl Hpl Hp Hpt) as [[_ E]|[? E]]; [left; exact E|].
    right; right. split_and!; [done..|]. exists j, ld. split_and!; [done..|].
    exists (length (nlog ld)). split; [by rewrite take_ge by lia|].
    intros k Hk Ek. apply (f_equal length) in Ek. rewrite !length_take in Ek. lia.
  - right; left. split_and!; [done..|]. by exists d.
  - destruct (lg_append _ HL _ _ _ _ _ _ _ Hm) as (_ & ld & Hl & Rl & Tl & Hpl & Hpt & -> & _).
    subst l. destruct (accept_cases s i j ld p HI HL Hi Hl Hpl Hp Hpt) as [[_ E]|[? E]];
      rewrite E in *.
    + left. apply take_ge.
      assert (length (nlog (nodes s i)) - 1 ≤ m)%nat; [apply Hcommon; [lia|done]|unfold n; lia].
    + right; right. split_and!; [done..|]. exists j, ld. split_and!; [done..|]. by exists m.
Qed.

Lemma old_term j m : (j, m) ∈ hist s → j = i → term m ≤ term n.
Proof. intros Hm ->. apply HI in Hm as [?|[? _]]; unfold n; lia. Qed.

Lemma step_log_wf : log_wf n'.
Proof.
  pose proof (lg_wf _ HL _ _ cur_in) as Hn.
  assert (term n ≤ term n') as Ht by (apply action_vote_le in Ha as [?|[? _]]; unfold n; lia).
  assert (nrole n' = kCandidate → ∀ k e, nlog n' !! k = Some e → e_term e < term n') as Hcand.
  { intros Hr k e. destruct (action_candidate _ _ _ _ _ Ha Hr) as [-> [[Hc ->]| ->]].
    - by apply (wf_candidate _ Hn Hc).
    - intros He%(wf_terms _ Hn). fold n. lia. }
  destruct log_change as [E|[(_ & _ & Et & d & E)|(Hf & Et & j & l & Hl & _ & Tl & _ & m & E & _)]].
  - split; [..|exact Hcand]; rewrite E; [apply Hn..|].
    intros k e He%(wf_terms _ Hn). lia.
  - split; [..|exact Hcand]; rewrite E.
    + rewrite lookup_app_l by (eapply lookup_lt_Some, wf_sentinel, Hn). apply Hn.
    + intros k e [He|[Hk He]]%lookup_app_Some; [by apply Hn|].
      apply list_lookup_singleton_Some in He as [Hk0 <-]. simpl. f_equal. lia.
    + intros k1 k2 a b Hk [H1|[H1 H1']]%lookup_app_Some [H2|[H2 H2']]%lookup_app_Some.
      * by eapply (wf_sorted _ Hn).
      * apply list_lookup_singleton_Some in H2' as [_ <-]. by apply (wf_terms _ Hn) in H1.
      * apply lookup_lt_Some in H2. lia.
      * apply list_lookup_singleton_Some in H1' as [_ <-], H2' as [_ <-]. done.
    + intros k e [He|[_ He]]%lookup_app_Some; [apply (wf_terms _ Hn) in He; lia|].
      apply list_lookup_singleton_Some in He as [_ <-]. simpl. lia.
  - pose proof (lg_wf _ HL _ _ Hl) as Hwl. split; [..|exact Hcand]; rewrite E.
    + rewrite lookup_take_lt by lia. apply Hwl.
    + intros k e [He _]%lookup_take_Some. by apply Hwl.
    + intros k1 k2 a b Hk [H1 _]%lookup_take_Some [H2 _]%lookup_take_Some.
      by eapply (wf_sorted _ Hwl).
    + intros k e [He%(wf_terms _ Hwl) _]%lookup_take_Some. lia.
Qed.

Lemma step_lead_cur l : (i, l) ∈ hist s → nrole l = kLeader → term l = term n' →
  nrole n' ≠ kCandidate ∧ (nrole n' = kLeader → nlog l `prefix_of` nlog n').
Proof.
  intros Hl Hr Ht. pose proof (old_term _ _ Hl eq_refl) as Hold.
  pose proof (lg_lead_cur _ HL _ _ Hl Hr) as Hcur. fold n in Hcur. split.
  - intros Hc. destruct (action_candidate _ _ _ _ _ Ha Hc) as [_ [[Hc0 Ht0]|Ht0]];
      fold n in Ht0; [|lia]. destruct Hcur as [[] _]; [lia|done].
  - intros Hl'. destruct (action_leader _ _ _ _ _ Ha Hl') as (Et & Hpre & Hrole).
    destruct (Hcur ltac:(unfold n; lia)) as [Hnc Hp].
    destruct Hrole as [Hl0|[Hc _]]; [|done]. etrans; [by apply Hp|done].
Qed.

Lemma step_cand_cur c : (i, c) ∈ hist s → nrole c = kCandidate → term c = term n' →
  nrole n' ≠ kFollower → nlog c `prefix_of` nlog n'.
Proof.
  intros Hc Hr Ht Hnf. pose proof (old_term _ _ Hc eq_refl) as Hold.
  pose proof (lg_cand_cur _ HL _ _ Hc Hr) as Hcur. fold n in Hcur.
  destruct (nrole n') eqn:Hr'; [done| |].
  - destruct (action_candidate _ _ _ _ _ Ha Hr') as [-> [[Hc0 Ht0]|Ht0]]; fold n in Ht0; [|lia].
    apply Hcur; [lia|]. unfold n. congruence.
  - destruct (action_leader _ _ _ _ _ Ha Hr') as (Et & Hpre & Hrole). etrans; [|done].
    apply Hcur; [unfold n; lia|]. unfold n. destruct Hrole as [?|[? _]]; congruence.
Qed.

Lemma step_matching : matching (hist s ++ [(i, n')]) (nlog n').
Proof.
  assert (∀ j m, (j, m) ∈ hist s → matching (hist s ++ [(i, n')]) (nlog m)) as Hold.
  { intros j m Hm. eapply matching_mono; [|by eapply hist_matching]. auto. }
  destruct log_change as [->|[(_ & Hr & Et & d & E)|(_ & _ & j & l & Hl & _ & _ & _ & m & -> & _)]].
  - apply (Hold i), cur_in.
  - intros k e Hk He. rewrite E in He. apply lookup_app_Some in He as [He|[Hle He]].
    + destruct (Hold i n cur_in k e Hk He) as (j & l & Hl & ? & ? & Eq).
      exists j, l. split_and!; [done..|]. rewrite E, <-Eq.
      apply lookup_lt_Some in He. by rewrite take_app_le by lia.
    + apply list_lookup_singleton_Some in He as [_ <-]. exists i, n'.
      split_and!; [apply in_snoc; by right|done|done|done].
  - by apply matching_cut, (Hold j).
Qed.

Lemma step_append j v t p pt es lc : MAppend j v t p pt es lc ∈ soup s' →
  j ≠ v ∧ ∃ l, (j, l) ∈ hist s' ∧ nrole l = kLeader ∧ term l = t ∧ (p < length (nlog l))%nat ∧
    pt = term_at p (nlog l) ∧ es = drop (S p) (nlog l) ∧ lc = commit l.
Proof.
  simpl. rewrite elem_of_app. intros [H|H].
  - destruct (lg_append _ HL _ _ _ _ _ _ _ H) as (? & l & Hl & ?). split; [done|].
    exists l. split; [by apply subset_app|done].
  - inversion Ha; subst; try (by apply list_elem_of_singleton in H); try (by apply not_elem_of_nil in H).
    apply list_elem_of_singleton in H. injection H as -> -> -> -> -> -> ->. split; [congruence|].
    exists (nodes s i). split; [apply in_snoc; by right|by split_and!].
Qed.

Lemma log_step : log_inv s'.
Proof.
  assert (∀ j, j ≠ i → nodes s' j = nodes s j) as Hother.
  { intros j Hj. simpl. by rewrite fn_lookup_insert_ne. }
  assert (nodes s' i = n') as Hself by (simpl; by rewrite fn_lookup_insert).
  split.
  - intros j m Hm. hist_cases Hm; [by eapply HL|exact step_log_wf].
  - intros j l Hl Hr. destruct (decide (j = i)) as [->|Hj].
    + rewrite Hself. hist_cases Hl; [by apply step_lead_cur|]. intros _. by rewrite Hr.
    + rewrite Hother by done. hist_cases Hl. by apply HL.
  - intros j l1 l2 H1 H2 R1 R2 Et. hist_cases H1; hist_cases H2.
    + by eapply (lg_lead _ HL).
    + left. by apply step_lead_cur.
    + right. by apply step_lead_cur.
    + by left.
  - intros j c Hc Hr. destruct (decide (j = i)) as [->|Hj].
    + rewrite Hself. hist_cases Hc; [by apply step_cand_cur|done].
    + rewrite Hother by done. hist_cases Hc. by apply HL.
  - intros j c l Hc Hl Rc Rl Et. hist_cases Hc; hist_cases Hl.
    + by eapply (lg_cand _ HL).
    + apply step_cand_cur; [done..|]. by rewrite Rl.
    + by destruct (step_lead_cur l Hl Rl) as [? _].
    + congruence.
  - intros a j m Hm. simpl in *. apply lookup_app_Some in Hm as [Hm|[Hle Hm]].
    + rewrite take_app_le by (apply lookup_lt_Some in Hm; lia). by eapply (lg_matching _ HL).
    + apply list_lookup_singleton_Some in Hm as [? [= <- <-]].
      rewrite take_ge by (rewrite length_app; simpl; lia). exact step_matching.
  - exact step_append.
Qed.
End log_step.

Lemma log_init : log_inv (init_state peers).
Proof.
  assert (∀ i n, (i, n) ∈ hist (init_state peers) → n = init_node) as Hin.
  { by intros i n (j & [= -> ->] & Hj)%list_elem_of_fmap. }
  assert (∀ k e, nlog init_node !! k = Some e → k = 0%nat ∧ e = sentinel) as Hlog.
  { intros k e He. by apply list_lookup_singleton_Some in He as [-> <-]. }
  split; try (intros * H; apply Hin in H as ->; done).
  - intros i n ->%Hin. split; [done| | | |done].
    + by intros k e [-> ->]%Hlog.
    + by intros k1 k2 a b _ [-> ->]%Hlog [-> ->]%Hlog.
    + by intros k e [-> ->]%Hlog.
  - intros a i n Hn%list_elem_of_lookup_2. apply Hin in Hn as ->.
    intros k e Hk [-> ->]%Hlog. lia.
  - intros * H. by apply not_elem_of_nil in H.
Qed.
End logs.
