(* ===== verification/RaftCommit.v ===== *)
(** * Commitment in the Raft protocol

    Leader Completeness and State Machine Safety over the executions of
    [RaftModel.v]: an entry that was replicated on a majority in the term of
    its leader is in the log of every later leader, so that no two nodes ever
    consider different entries committed at the same index. *)

From S2P Require Import Prelude Raft RaftModel RaftElection RaftLogs.
Local Open Scope Z_scope.

Section commit.
Context (peers : list Z).
Context (peers_nodup : NoDup peers) (peers_pos : ∀ p, p ∈ peers → 0 < p).
Abbreviation quorum := (quorum peers).
Abbreviation action := (action peers).
Abbreviation election_inv := (election_inv peers).
Implicit Types (i j v : Z) (n l c : node) (h : list (Z * node)).

(** ** The invariant *)

(** What [n1] holds of its own term, [n2] still holds, unless a leader of a
    later term without it interfered. *)
Definition keeps h (n1 n2 : node) : Prop :=
  ∀ k e, (0 < k)%nat → nlog n1 !! k = Some e → e_term e = term n1 →
  (∀ j l, (j, l) ∈ h → nrole l = kLeader → term n1 < term l →
     take (S k) (nlog l) = take (S k) (nlog n1)) →
  take (S k) (nlog n2) = take (S k) (nlog n1).

(** [nq] holds the log of [l] up to index [m], in the term of [l]. *)
Definition holds (nq l : node) (m : nat) : Prop :=
  term nq = term l ∧ (m < length (nlog l))%nat ∧ take (S m) (nlog nq) = take (S m) (nlog l).

Record replication_inv (s : astate) : Prop := {
  rp_mono : ∀ a b i n1 n2, (a ≤ b)%nat →
    hist s !! a = Some (i, n1) → hist s !! b = Some (i, n2) → term n1 ≤ term n2;
  rp_keeps_cur : ∀ i n, (i, n) ∈ hist s → keeps (hist s) n (nodes s i);
  rp_keeps : ∀ a b i n1 n2, (a ≤ b)%nat →
    hist s !! a = Some (i, n1) → hist s !! b = Some (i, n2) →
    keeps (take (S b) (hist s)) n1 n2;
  rp_votes : ∀ a i l v, hist s !! a = Some (i, l) → nrole l = kLeader → v ∈ votes l →
    vote_for (take a (hist s)) v i (term l);
  rp_ack : ∀ j i t m, MAck j i t m ∈ soup s →
    ∃ nj l, (j, nj) ∈ hist s ∧ (i, l) ∈ hist s ∧ nrole l = kLeader ∧ term l = t ∧ holds nj l m;
  rp_matched : ∀ i l j, (i, l) ∈ hist s → nrole l = kLeader → (0 < matched l j)%nat →
    ∃ nj, (j, nj) ∈ hist s ∧ holds nj l (matched l j);
}.

Lemma keeps_refl h n : keeps h n n.
Proof. by intros k e _ _ _ _. Qed.

Lemma keeps_mono h h' n1 n2 : h ⊆ h' → keeps h n1 n2 → keeps h' n1 n2.
Proof. intros Hh Hk k e H0 He Et Hl. apply (Hk k e); [done..|]. intros j l Hj. by apply (Hl j), Hh. Qed.

Lemma holds_prefix nq l l' m : holds nq l m → term l' = term l → nlog l `prefix_of` nlog l' →
  holds nq l' m.
Proof.
  intros (Et & Hm & E) Et' Hp. split_and!; [congruence| |].
  - apply prefix_length in Hp. lia.
  - rewrite E. by apply take_S_prefix.
Qed.

(** ** Leader Completeness *)

(** Index [m] is held by a majority in the term of the leader [l], whose entry
    it is. *)
Definition chosen h (l : node) (m : nat) : Prop :=
  (∃ i, (i, l) ∈ h) ∧ nrole l = kLeader ∧ (0 < m)%nat ∧
  (∃ e, nlog l !! m = Some e ∧ e_term e = term l) ∧
  ∃ Q, NoDup Q ∧ Q ⊆ peers ∧ (quorum ≤ length Q)%nat ∧
    ∀ q, q ∈ Q → ∃ nq, (q, nq) ∈ h ∧ holds nq l m.

Lemma chosen_mono h h' l m : h ⊆ h' → chosen h l m → chosen h' l m.
Proof.
  intros Hh ([i Hi] & Hr & Hm & He & Q & Nq & Sq & Lq & HQ). split_and!; [eauto|done..|].
  exists Q. split_and!; [done..|]. intros q Hq. destruct (HQ q Hq) as (nq & ? & ?). eauto.
Qed.

Lemma last_lookup n : log_wf n → ∃ x, nlog n !! (length (nlog n) - 1)%nat = Some x ∧
  e_term x = last_term (nlog n).
Proof.
  intros Hwf. destruct (lookup_lt_is_Some_2 (nlog n) (length (nlog n) - 1)) as [x Hx].
  { pose proof (lookup_lt_Some _ _ _ (wf_sentinel _ Hwf)). lia. }
  exists x. split; [done|]. unfold last_term, term_at. by rewrite (list_lookup_total_correct _ _ _ Hx).
Qed.

(** The position of an entry from which the last term is not smaller. *)
Lemma last_term_ge n k e : log_wf n → nlog n !! k = Some e → e_term e ≤ last_term (nlog n).
Proof.
  intros Hwf He. destruct (last_lookup n Hwf) as (x & Hx & <-).
  eapply (wf_sorted _ Hwf k); [|done..]. apply lookup_lt_Some in He. lia.
Qed.

(** A candidate [c] at least as up to date as a log [nv] that holds index [m]
    of the chosen leader [l] holds it too. *)
Lemma up_to_date_holds s l m i c nv :
  election_inv s → log_inv s → chosen (hist s) l m → (i, c) ∈ hist s → log_wf nv →
  take (S m) (nlog nv) = take (S m) (nlog l) →
  up_to_date (nlog nv) (length (nlog c) - 1) (last_term (nlog c)) →
  (∀ K x, (0 < K)%nat → nlog c !! K = Some x → term l < e_term x →
     ∃ l4, log_wf l4 ∧ take (S K) (nlog c) = take (S K) (nlog l4) ∧
       take (S m) (nlog l4) = take (S m) (nlog l)) →
  take (S m) (nlog c) = take (S m) (nlog l) ∧ (m < length (nlog c))%nat.
Proof.
  intros HI HL ([il Hl] & Rl & Hm & (e & He & Te) & _) Hc Hnv Etake Hup H4.
  destruct (inv_self _ _ HI _ _ Hl) as (_ & Hpos & _); [congruence|].
  assert (nlog nv !! m = Some e) as Henv by (by rewrite (take_S_lookup m m _ _ Etake)).
  pose proof (last_term_ge nv m e Hnv Henv) as Hge.
  pose proof (lg_wf _ HL _ _ Hc) as Hwc. destruct (last_lookup c Hwc) as (x & Hx & Ex).
  set (K := (length (nlog c) - 1)%nat) in *.
  assert (0 < K)%nat as HK.
  { destruct (decide (K = 0%nat)) as [EK|]; [|lia]. rewrite EK in Hx.
    rewrite (wf_sentinel _ Hwc) in Hx. injection Hx as <-. simpl in Ex.
    destruct Hup as [?|[? _]]; lia. }
  assert (m ≤ K → take (S m) (nlog c) = take (S m) (nlog l) →
          take (S m) (nlog c) = take (S m) (nlog l) ∧ (m < length (nlog c))%nat)%nat as Hfin
    by (intros ? ?; split; [done|lia]).
  destruct (decide (term l < e_term x)) as [Hlt|Hnlt].
  - destruct (H4 K x HK Hx Hlt) as (l4 & Hwl4 & E4 & Em).
    assert (nlog l4 !! m = Some e) as He4 by (by rewrite (take_S_lookup m m _ _ Em)).
    assert (nlog l4 !! K = Some x) as Hx4 by (by rewrite <-(take_S_lookup K K _ _ E4)).
    assert (m ≤ K)%nat as HmK.
    { destruct (decide (m ≤ K)%nat); [done|].
      pose proof (wf_sorted _ Hwl4 K m x e ltac:(lia) Hx4 He4). lia. }
    apply Hfin; [done|]. rewrite (take_S_le m K _ _ E4) by done. done.
  - assert (e_term x = term l) as Et by (destruct Hup as [?|[? _]]; lia).
    assert (m ≤ K)%nat as HmK.
    { apply lookup_lt_Some in Henv. destruct Hup as [?|[_ ?]]; lia. }
    apply Hfin; [done|]. destruct (hist_matching s i c HL Hc K x HK Hx) as (j4 & l4 & H4' & R4 & T4 & E4).
    rewrite (take_S_le m K _ _ E4) by done. apply prefixes_take.
    + eapply (leaders_comparable peers); [done..|lia].
    + apply take_S_length with (a := x) in E4; [lia|done].
    + by apply lookup_lt_Some in He.
Qed.

Lemma leader_complete s l m j l2 :
  election_inv s → log_inv s → replication_inv s → chosen (hist s) l m →
  (j, l2) ∈ hist s → nrole l2 = kLeader → term l < term l2 →
  take (S m) (nlog l2) = take (S m) (nlog l).
Proof.
  intros HI HL HR Hch. pose proof Hch as (Hl & Rl & Hm & (e & He & Te) & Q & NQ & SQ & LQ & HQ).
  intros [a Ha]%list_elem_of_lookup_1. revert j l2 Ha.
  induction (lt_wf a) as [a _ IH]. intros j l2 Ha R2 Hlt.
  pose proof (list_elem_of_lookup_2 _ _ _ Ha) as H2.
  destruct (inv_self _ _ HI _ _ H2) as (_ & _ & N2 & S2); [congruence|].
  destruct (quorums_meet peers Q (votes l2) NQ N2 SQ S2 LQ) as (v & Hv & Hv2); [by eapply HI|].
  destruct (HQ v Hv) as (nq & Hnq & Tq & _ & Eq).
  destruct (rp_votes _ HR _ _ _ v Ha R2 Hv2) as (nv & c & Hnv & Tv & _ & Hc & Rc & Tc & Hup).
  apply list_elem_of_lookup_1 in Hnq as [aq Haq].
  apply list_elem_of_lookup_1 in Hnv as [b Hb], Hc as [d Hd].
  apply lookup_take_Some in Hb as [Hb Hba], Hd as [Hd Hda].
  assert (aq ≤ b)%nat as Hord.
  { destruct (decide (aq ≤ b)%nat); [done|].
    pose proof (rp_mono _ HR b aq v nv nq ltac:(lia) Hb Haq). lia. }
  assert (take (S m) (nlog nv) = take (S m) (nlog l)) as Ev.
  { rewrite <-Eq. apply (rp_keeps _ HR aq b v nq nv Hord Haq Hb m e Hm).
    - by rewrite (take_S_lookup m m _ _ Eq).
    - congruence.
    - intros j' l' [k Hk]%list_elem_of_lookup_1 R' Ht'.
      apply lookup_take_Some in Hk as [Hk Hkb]. rewrite Eq.
      eapply (IH k); [lia|done|done|lia]. }
  assert ((j, c) ∈ hist s) as Hc by by eapply list_elem_of_lookup_2.
  destruct (up_to_date_holds s l m j c nv HI HL Hch Hc) as [Ec Hmc]; [|done|done| |].
  - eapply (lg_wf _ HL), list_elem_of_lookup_2, Hb.
  - intros K x HK Hx Hltx.
    destruct (lg_matching _ HL d j c Hd K x HK Hx) as (j4 & l4 & H4 & R4 & T4 & E4).
    apply list_elem_of_lookup_1 in H4 as [k Hk]. apply lookup_take_Some in Hk as [Hk Hkd].
    exists l4. split_and!; [by eapply (lg_wf _ HL), list_elem_of_lookup_2|done|].
    eapply (IH k); [lia|done|done|lia].
  - rewrite <-Ec. symmetry. apply take_S_prefix; [|done].
    by eapply (lg_cand _ HL j); [..|lia].
Qed.

(** ** Preservation *)

Lemma action_votes i soup n n' out : action i soup n n' out → nrole n' = kLeader →
  votes n' = votes n.
Proof. intros Ha Hr. inversion Ha; subst; simpl in *; congruence. Qed.

Lemma snoc_lookup {A} (xs : list A) x a y : (xs ++ [x]) !! a = Some y →
  (xs !! a = Some y ∧ (a < length xs)%nat) ∨ (a = length xs ∧ y = x).
Proof.
  intros [H|[Hle H]]%lookup_app_Some; [left; split; [done|by eapply lookup_lt_Some]|].
  apply list_lookup_singleton_Some in H as [? <-]. right. split; [lia|done].
Qed.

Lemma prefix_take_trans {A} k (l1 l2 l3 : list A) :
  l1 `prefix_of` l2 → (length l1 ≤ S k)%nat → take (S k) l3 = take (S k) l2 → l1 `prefix_of` l3.
Proof.
  intros Hp Hl E. rewrite (prefix_take _ _ Hp).
  replace (length l1) with (length l1 `min` S k)%nat by lia.
  rewrite <-take_take, <-E, take_take. apply take_prefix_of.
Qed.

Section replication_step.
Context (s : astate) (i : Z) (n' : node) (out : list amsg).
Context (HI : election_inv s) (HL : log_inv s) (HR : replication_inv s).
Context (Hi : i ∈ peers) (Ha : action i (soup s) (nodes s i) n' out).
Let n := nodes s i.
Let s' := mkAstate (<[i := n']> (nodes s)) (soup s ++ out) (hist s ++ [(i, n')]).

(** What the node kept so far, it keeps in this step. *)
Lemma step_keeps m : (i, m) ∈ hist s → keeps (hist s') m n'.
Proof.
  intros Hm k e Hk He Et Hlead.
  assert (take (S k) (nlog n) = take (S k) (nlog m)) as IH.
  { apply (rp_keeps_cur _ HR i m Hm k e); [done..|].
    intros j l Hl. apply (Hlead j). by apply subset_app. }
  assert (nlog n !! k = Some e) as Hen by (by rewrite (take_S_lookup k k _ _ IH)).
  destruct (log_change peers peers_pos s i n' out HI HL Hi Ha)
    as [->|[(_ & _ & _ & d & ->)|(_ & _ & j & l & Hl & Rl & Tl & Hnp & c & -> & Hc)]]; [done| |].
  - rewrite <-IH. symmetry. apply take_S_prefix; [by apply prefix_app_r|].
    by apply lookup_lt_Some in Hen.
  - cut (take (S k) (nlog l) = take (S k) (nlog m)).
    { intros E. rewrite take_take, <-E. f_equal.
      assert (k ≤ c)%nat; [|lia]. apply Hc; [by apply lookup_lt_Some in Hen|by rewrite E]. }
    pose proof (old_term peers s i HI i m Hm eq_refl) as Hle.
    destruct (decide (term m < term l)) as [Hlt|Hnlt].
    { apply (Hlead j); [by apply subset_app|done..]. }
    destruct (hist_matching s i m HL Hm k e Hk He) as (j2 & l2 & H2 & R2 & T2 & E2).
    assert (nlog l `prefix_of` nlog l2 ∨ nlog l2 `prefix_of` nlog l) as Hcmp.
    { eapply (leaders_comparable peers); [done..|]. lia. }
    assert (k < length (nlog l2))%nat as Hk2 by (by eapply take_S_length).
    rewrite E2. destruct (decide (k < length (nlog l))%nat) as [Hkl|Hkl]; [by apply prefixes_take|].
    destruct Hnp. assert (nlog l `prefix_of` nlog l2) as Hp.
    { destruct Hcmp as [?|Hp%prefix_length]; [done|lia]. }
    rewrite E2 in IH. apply (prefix_take_trans k _ (nlog l2)); [done|lia|done].
Qed.

Lemma step_mono m : (i, m) ∈ hist s → term m ≤ term n'.
Proof.
  intros Hm. pose proof (old_term peers s i HI i m Hm eq_refl).
  apply action_vote_le in Ha as [?|[? _]]; lia.
Qed.

Lemma step_ack j v t m : MAck j v t m ∈ soup s' →
  ∃ nj l, (j, nj) ∈ hist s' ∧ (v, l) ∈ hist s' ∧ nrole l = kLeader ∧ term l = t ∧ holds nj l m.
Proof.
  simpl. rewrite elem_of_app. intros [H|H].
  - destruct (rp_ack _ HR _ _ _ _ H) as (nj & l & Hnj & Hl & HH). exists nj, l.
    split; [by apply subset_app|]. split; [by apply subset_app|done].
  - inversion Ha as [| | | | | | | |? jl p pt es lc Hr Hm Hp Ht| | | |]; subst;
      try (by apply list_elem_of_singleton in H); try (by apply not_elem_of_nil in H).
    apply list_elem_of_singleton in H. injection H as -> -> -> ->.
    destruct (lg_append _ HL _ _ _ _ _ _ _ Hm) as (_ & ld & Hl & Rl & Tl & Hpl & Hpt & -> & _).
    eexists _, ld. split_and!; [apply in_snoc; by right|by apply subset_app|done|done|].
    rewrite length_drop. replace (p + (length (nlog ld) - S p))%nat with (length (nlog ld) - 1)%nat by lia.
    split_and!; [done|lia|]. simpl. symmetry.
    apply take_S_prefix; [|lia].
    destruct (accept_cases peers peers_pos s i jl ld p HI HL Hi Hl Hpl Hp Hpt) as [[? E]|[_ E]];
      fold l in E; by rewrite E.
Qed.

Lemma step_matched j : nrole n' = kLeader → (0 < matched n' j)%nat →
  ∃ nj, (j, nj) ∈ hist s' ∧ holds nj n' (matched n' j).
Proof.
  intros Hr Hm. destruct (action_leader _ _ _ _ _ _ Ha Hr) as (Et & Hpre & _).
  assert ((0 < matched n j)%nat → nrole n = kLeader →
          ∃ nj, (j, nj) ∈ hist s' ∧ holds nj n' (matched n j)) as Hold.
  { intros Hj Hl. destruct (rp_matched _ HR i n j (inv_cur _ _ HI i Hi) Hl Hj) as (nj & Hnj & Hh).
    exists nj. split; [by apply subset_app|]. by eapply holds_prefix. }
  inversion Ha as [| | | | | | | | |? ja ma Hrl Hack| | |]; subst; simpl in *;
    try done; try (by apply Hold); try lia.
  destruct (decide (j = ja)) as [->|Hne].
  2:{ rewrite fn_lookup_insert_ne in * by done. by apply Hold. }
  rewrite fn_lookup_insert in *.
  destruct (rp_ack _ HR _ _ _ _ Hack) as (nj & l & Hnj & Hl & Rl & Tl & Hh).
  exists nj. split; [by apply subset_app|]. eapply holds_prefix; [done|done|].
  by apply (lg_lead_cur _ HL i l Hl Rl Tl).
Qed.

Lemma replication_step : replication_inv s'.
Proof.
  split.
  - intros a b j n1 n2 Hab H1 H2.
    apply snoc_lookup in H1 as [[H1 L1]|[-> E1]], H2 as [[H2 L2]|[-> E2]]; simplify_eq.
    + by eapply (rp_mono _ HR a b).
    + by eapply step_mono, list_elem_of_lookup_2.
    + lia.
    + done.
  - intros j m Hm. simpl. destruct (decide (j = i)) as [->|Hj].
    + rewrite fn_lookup_insert. hist_cases Hm; [by apply step_keeps|apply keeps_refl].
    + rewrite fn_lookup_insert_ne by done. hist_cases Hm.
      eapply keeps_mono; [|by apply HR]. auto.
  - intros a b j n1 n2 Hab H1 H2. simpl.
    apply snoc_lookup in H2 as [[H2 L2]|[-> E2]].
    + rewrite take_app_le by lia. apply snoc_lookup in H1 as [[H1 L1]|[-> E1]]; [|lia].
      by eapply (rp_keeps _ HR a b).
    + simplify_eq. rewrite take_ge by (rewrite length_app; simpl; lia).
      apply snoc_lookup in H1 as [[H1 L1]|[-> E1]]; simplify_eq; [|apply keeps_refl].
      by eapply step_keeps, list_elem_of_lookup_2.
  - intros a j l v Hl Hr Hv. simpl.
    apply snoc_lookup in Hl as [[Hl L]|[-> E]].
    + rewrite take_app_le by lia. by eapply (rp_votes _ HR).
    + simplify_eq. rewrite take_app_le, take_ge by lia.
      destruct (action_leader _ _ _ _ _ _ Ha Hr) as (-> & _ & Hrole).
      rewrite (action_votes _ _ _ _ _ Ha Hr) in Hv. apply (inv_votes _ _ HI); [by apply HI| |done].
      destruct Hrole as [Hrl|[Hrl _]]; by rewrite Hrl.
  - exact step_ack.
  - intros j l v Hl Hr Hm. hist_cases Hl; [|by apply step_matched].
    destruct (rp_matched _ HR _ _ _ Hl Hr Hm) as (nj & ? & ?). exists nj.
    split; [by apply subset_app|done].
Qed.
End replication_step.

Lemma replication_init : replication_inv (init_state peers).
Proof.
  assert (∀ i n, (i, n) ∈ hist (init_state peers) → n = init_node) as Hin.
  { by intros i n (j & [= -> ->] & Hj)%list_elem_of_fmap. }
  split; try (intros * H; apply Hin in H as ->; done).
  - intros a b i n1 n2 _ H1%list_elem_of_lookup_2 H2%list_elem_of_lookup_2.
    apply Hin in H1 as ->, H2 as ->. done.
  - intros a b i n1 n2 _ H1%list_elem_of_lookup_2 H2%list_elem_of_lookup_2.
    apply Hin in H1 as ->, H2 as ->. apply keeps_refl.
  - intros a i l v Hl%list_elem_of_lookup_2. by apply Hin in Hl as ->.
  - intros * H. by apply not_elem_of_nil in H.
Qed.

(** ** Committed indices *)

(** What [n] considers committed is part of a log whose further index [m] was
    chosen, in a term not after that of [n]. *)
Definition committed h (n : node) : Prop :=
  commit n = 0%nat ∨
  ∃ l m, chosen h l m ∧ term l ≤ term n ∧ (commit n ≤ m)%nat ∧
    take (S (commit n)) (nlog n) = take (S (commit n)) (nlog l).

Definition commit_inv (s : astate) : Prop := ∀ i n, (i, n) ∈ hist s → committed (hist s) n.

Lemma committed_mono h h' n : h ⊆ h' → committed h n → committed h' n.
Proof.
  intros Hh [?|(l & m & Hc & ?)]; [by left|]. right. exists l, m. split; [by eapply chosen_mono|done].
Qed.

Lemma chosen_lt h l m : chosen h l m → (m < length (nlog l))%nat.
Proof. intros (_ & _ & _ & (e & He & _) & _). by apply lookup_lt_Some in He. Qed.

Lemma take_S_len {A} k (l1 l2 : list A) :
  take (S k) l1 = take (S k) l2 → (k < length l2)%nat → (k < length l1)%nat.
Proof. intros E Hk. apply (f_equal length) in E. rewrite !length_take in E. lia. Qed.

(** The commit index stays inside the log. *)
Lemma committed_lt h n : log_wf n → committed h n → (commit n < length (nlog n))%nat.
Proof.
  intros Hwf [->|(l & m & Hc & _ & Hm & E)].
  - by eapply lookup_lt_Some, wf_sentinel.
  - apply chosen_lt in Hc. eapply take_S_len; [done|lia].
Qed.

(** Nodes with committed indices agree on them. *)
Lemma committed_agree s n1 n2 k :
  election_inv s → log_inv s → replication_inv s →
  log_wf n1 → log_wf n2 → committed (hist s) n1 → committed (hist s) n2 →
  (k ≤ commit n1)%nat → (k ≤ commit n2)%nat →
  take (S k) (nlog n1) = take (S k) (nlog n2).
Proof.
  intros HI HL HR W1 W2 C1 C2 K1 K2.
  assert (k = 0%nat → take (S k) (nlog n1) = take (S k) (nlog n2)) as Hzero.
  { intros ->. by rewrite (take_S_r _ _ _ (wf_sentinel _ W1)), (take_S_r _ _ _ (wf_sentinel _ W2)). }
  destruct C1 as [C1|(l1 & m1 & Hc1 & _ & M1 & E1)]; [apply Hzero; lia|].
  destruct C2 as [C2|(l2 & m2 & Hc2 & _ & M2 & E2)]; [apply Hzero; lia|].
  rewrite (take_S_le k _ _ _ E1), (take_S_le k _ _ _ E2) by done.
  pose proof Hc1 as ([i1 I1] & R1 & _). pose proof Hc2 as ([i2 I2] & R2 & _).
  destruct (Z.lt_trichotomy (term l1) (term l2)) as [Hlt|[Heq|Hgt]].
  - symmetry. eapply take_S_le; [by eapply leader_complete|lia].
  - pose proof (chosen_lt _ _ _ Hc1). pose proof (chosen_lt _ _ _ Hc2).
    apply prefixes_take; [by eapply (leaders_comparable peers)|lia|lia].
  - eapply take_S_le; [by eapply leader_complete|lia].
Qed.

Section commit_step.
Context (s : astate) (i : Z) (n' : node) (out : list amsg).
Context (HI : election_inv s) (HL : log_inv s) (HR : replication_inv s) (HC : commit_inv s).
Context (Hi : i ∈ peers) (Ha : action i (soup s) (nodes s i) n' out).
Let n := nodes s i.

Lemma cur_committed : committed (hist s) n.
Proof. by eapply HC, HI. Qed.

(** Taking over the log of the leader of the term keeps the committed part. *)
Lemma takeover_committed j ld : (j, ld) ∈ hist s → nrole ld = kLeader → term ld = term n →
  ¬ nlog ld `prefix_of` nlog n → commit n ≠ 0%nat →
  take (S (commit n)) (nlog ld) = take (S (commit n)) (nlog n).
Proof.
  intros Hl Rl Tl Hnp H0. destruct cur_committed as [?|(l & m & Hc & Ht & Hm & E)]; [done|].
  pose proof (chosen_lt _ _ _ Hc) as Hml. pose proof Hc as ([il Il] & R & _). rewrite E.
  destruct (decide (term l < term ld)) as [Hlt|Hge].
  { eapply take_S_le; [by eapply leader_complete|done]. }
  assert (nlog ld `prefix_of` nlog l ∨ nlog l `prefix_of` nlog ld) as Hcmp
    by (eapply (leaders_comparable peers); [done..|lia]).
  destruct (decide (commit n < length (nlog ld))%nat); [apply prefixes_take; [done|lia|lia]|].
  destruct Hnp. apply (prefix_take_trans (commit n) _ (nlog l)); [|lia|done].
  destruct Hcmp as [?|Hp%prefix_length]; [done|lia].
Qed.

Lemma advance_chosen m : nrole n = kLeader → (commit n < m < length (nlog n))%nat →
  term_at m (nlog n) = term n → (quorum ≤ length (replicas peers i m n))%nat →
  chosen (hist s) n m.
Proof.
  intros Hr Hm Ht HQ. pose proof (inv_cur _ _ HI i Hi) as Hn. fold n in Hn.
  split_and!; [by exists i|done|lia| |].
  - destruct (lookup_lt_is_Some_2 (nlog n) m) as [e He]; [lia|]. exists e. split; [done|].
    unfold term_at in Ht. by rewrite (list_lookup_total_correct _ _ _ He) in Ht.
  - exists (replicas peers i m n). split_and!; [|by intros q [_ ?]%list_elem_of_filter|done|].
    { by apply NoDup_filter. }
    intros q [[->|Hq] Hqp]%list_elem_of_filter.
    + exists n. split; [done|]. by split_and!; [|lia|].
    + destruct (rp_matched _ HR i n q Hn Hr ltac:(lia)) as (nq & Hnq & Tq & Lq & E).
      exists nq. split; [done|]. split_and!; [done|lia|]. by eapply take_S_le.
Qed.

Lemma step_committed : committed (hist s) n'.
Proof.
  pose proof cur_committed as Hcur. pose proof (inv_cur _ _ HI i Hi) as Hn. fold n in Hn.
  pose proof (lg_wf _ HL _ _ Hn) as Hwf. pose proof (committed_lt _ _ Hwf Hcur) as Hlt.
  assert (∀ m, term n ≤ term m → commit m = commit n →
            take (S (commit n)) (nlog m) = take (S (commit n)) (nlog n) →
            committed (hist s) m) as Hkeep.
  { intros m Ht Ec E. destruct Hcur as [H0|(l & k & Hc & Tl & Hk & El)]; [left; congruence|].
    right. exists l, k. rewrite Ec, E. split_and!; [done|lia|done|done]. }
  inversion Ha as [| |? Hr| | | | | |? j p pt es lc Hr Hm Hp Ht| |? m Hr Hm Ht HQ|? d Hr|]; subst;
    try (apply Hkeep; simpl; [unfold n; lia|done..]).
  - destruct H as [->| ->]; [by apply Hkeep|by left].
  - destruct (lg_append _ HL _ _ _ _ _ _ _ Hm) as (_ & ld & Hl & Rl & Tl & Hpl & Hpt & -> & ->).
    pose proof (HC _ _ Hl) as Hcl. pose proof (committed_lt _ _ (lg_wf _ HL _ _ Hl) Hcl) as Hltl.
    assert (nlog ld `prefix_of` l ∧
      (commit n ≠ 0%nat → take (S (commit n)) l = take (S (commit n)) (nlog n))) as [Hpre Hcn].
    { destruct (accept_cases peers peers_pos s i j ld p HI HL Hi Hl Hpl Hp Hpt) as [[? E]|[? E]];
        fold l in E; rewrite E; (split; [done|]); [done|]. by eapply takeover_committed. }
    destruct (decide (commit (nodes s i) < commit ld)%nat) as [Hnew|Hold].
    + destruct Hcl as [H0|(l2 & m2 & Hc2 & T2 & Hm2 & E2)]; [lia|].
      pose proof (prefix_length _ _ Hpre). right. exists l2, m2. simpl.
      rewrite Nat.min_l by lia. split_and!; [done|lia|done|].
      rewrite <-E2. symmetry. by apply take_S_prefix.
    + destruct (decide (commit n = 0%nat)) as [H0|H0]; [by left|].
      apply Hkeep; [done|done|]. simpl. by apply Hcn.
  - right. exists n, m. simpl. split_and!; [by apply advance_chosen|done|done|done].
  - apply Hkeep; [done|done|]. simpl. symmetry. apply take_S_prefix; [by apply prefix_app_r|done].
  - by left.
Qed.

Lemma commit_step :
  commit_inv (mkAstate (<[i := n']> (nodes s)) (soup s ++ out) (hist s ++ [(i, n')])).
Proof.
  intros j m Hm. simpl in *. eapply (committed_mono (hist s)); [auto|].
  hist_cases Hm; [by eapply HC|exact step_committed].
Qed.
End commit_step.

Lemma commit_init : commit_inv (init_state peers).
Proof. intros i n (j & [= -> ->] & Hj)%list_elem_of_fmap. by left. Qed.

(** ** All reachable states *)

Record safe (s : astate) : Prop := {
  safe_election : election_inv s;
  safe_log : log_inv s;
  safe_replication : replication_inv s;
  safe_commit : commit_inv s;
}.

Lemma safe_init : safe (init_state peers).
Proof. split; [apply election_init|apply log_init|apply replication_init|apply commit_init]. Qed.

Lemma safe_step s s' : safe s → astep peers s s' → safe s'.
Proof.
  intros [HI HL HR HC] [i n out Hi Ha]. split.
  - by apply election_step.
  - by eapply (log_step peers).
  - by apply replication_step.
  - by apply commit_step.
Qed.

Lemma safe_steps s s' : safe s → rtc (astep peers) s s' → safe s'.
Proof. intros Hs Hr. induction Hr; [done|]. eauto using safe_step. Qed.
End commit.
