(* ===== verification/RaftNode.v ===== *)
(** * Properties of a single Raft node

    What each method of the class does to the state, in closed form, and the
    promises of raft.h that concern one node: the hard state is marked dirty
    whenever it changes, and the persistence watermark only covers entries that
    did not change. *)

From S2P Require Import Prelude Raft RaftModel.
Local Open Scope Z_scope.

(** The log is never empty and its size is a 64-bit integer. *)
Definition log_fits (r : Raft) : Prop :=
  log_ r ≠ [] ∧ Z.of_nat (length (log_ r)) < 2 ^ 64.

Lemma log_fits_pos r : log_fits r → (0 < length (log_ r))%nat.
Proof. intros [Hne _]. by destruct (log_ r); [|simpl; lia]. Qed.

Lemma LastIndex_eq r : log_fits r → LastIndex r = Z.of_nat (length (log_ r)) - 1.
Proof.
  intros Hf. pose proof (log_fits_pos r Hf). destruct Hf as [_ ?].
  unfold LastIndex. apply u64_small. lia.
Qed.

Lemma LastTerm_eq r : LastTerm r = last_term (log_ r).
Proof. done. Qed.

Lemma TermAt_eq r k : log_fits r →
  TermAt (Z.of_nat k) r = if decide (k < length (log_ r))%nat then term_at k (log_ r) else 0.
Proof.
  intros Hf. unfold TermAt. rewrite (LastIndex_eq r Hf).
  destruct (Z.ltb_spec (Z.of_nat (length (log_ r)) - 1) (Z.of_nat k)); case_decide; try lia.
  unfold entry_at, term_at. by rewrite Nat2Z.id.
Qed.

(** The entries from an index on are the rest of the log. *)
Lemma entries_between_take r (k m : nat) : (m < length (log_ r))%nat →
  entries_between (Z.of_nat k) (Z.of_nat m) r = take (S m - k) (drop k (log_ r)).
Proof.
  intros Hm. unfold entries_between. apply list_eq. intros j. rewrite list_lookup_fmap.
  destruct (decide (k + j ≤ m)%nat) as [Hlt|Hge].
  - rewrite lookup_seqZ_lt, lookup_take_lt, lookup_drop by lia. simpl.
    unfold entry_at. rewrite <-Nat2Z.inj_add, Nat2Z.id. symmetry.
    apply list_lookup_lookup_total_lt. lia.
  - rewrite lookup_seqZ_ge, lookup_take_ge by lia. done.
Qed.

Lemma entries_between_drop r k : log_fits r → (k ≤ length (log_ r))%nat →
  entries_between (Z.of_nat k) (LastIndex r) r = drop k (log_ r).
Proof.
  intros Hf Hk. pose proof (log_fits_pos r Hf).
  replace (LastIndex r) with (Z.of_nat (length (log_ r) - 1))
    by (rewrite (LastIndex_eq r Hf); lia).
  rewrite entries_between_take by lia. apply take_ge. rewrite length_drop. lia.
Qed.

(** ** The peers *)

Definition others (r : Raft) : list Z := filter (.≠ id (config_ r)) (peers (config_ r)).

Lemma for_other_peers_eq {A} r (body : A → Z → A) a :
  for_other_peers r body a = foldl body a (others r).
Proof.
  unfold for_other_peers, others. revert a.
  induction (peers (config_ r)) as [|p ps IH]; intros a; [done|]. simpl.
  rewrite IH. destruct (Z.eqb_spec p (id (config_ r))) as [->|Hne].
  - by rewrite filter_cons_False by tauto.
  - by rewrite filter_cons_True by tauto.
Qed.

(** The message [SendAppendEntries] sends. *)
Definition append_msg (r : Raft) (peer : Z) : Message :=
  let next := peer_index (next_index_ r) peer in
  let prev := u64 (next - 1) in
  AppendEntries (id (config_ r)) peer (current_term_ r) prev (TermAt prev r)
    (entries_between next (LastIndex r) r) (commit_index_ r).

Lemma set_out_msgs_id r : set_out_msgs (out_msgs_ r) r = r.
Proof. by destruct r. Qed.

Lemma sends_eq {A} (msg : Raft → A → Message) (body : Raft → A → Raft) :
  (∀ r p, body r p = Send (msg r p) r) → (∀ r p out, msg (set_out_msgs out r) p = msg r p) →
  ∀ ps r, foldl body r ps = set_out_msgs (out_msgs_ r ++ (msg r <$> ps)) r.
Proof.
  intros Hb Hm ps. induction ps as [|p ps IH]; intros r; simpl.
  - by rewrite app_nil_r, set_out_msgs_id.
  - rewrite Hb, IH. unfold Send. simpl. rewrite <-app_assoc. simpl.
    assert (msg (set_out_msgs (out_msgs_ r ++ [msg r p]) r) <$> ps = msg r <$> ps) as ->.
    { apply list_fmap_ext. intros. apply Hm. }
    done.
Qed.

Lemma BroadcastAppendEntries_eq r :
  BroadcastAppendEntries r = set_out_msgs (out_msgs_ r ++ (append_msg r <$> others r)) r.
Proof.
  unfold BroadcastAppendEntries. rewrite for_other_peers_eq.
  by apply (sends_eq append_msg (λ r peer, SendAppendEntries peer r)).
Qed.

(** ** Changes of role *)

(** The state of a new leader before it broadcasts. *)
Definition leader_state (r : Raft) : Raft :=
  let insert_all x := foldr (λ p, <[p := x]>) (∅ : gmap Z Z) (reverse (others r)) in
  set_match_index (insert_all 0) (set_next_index (insert_all (u64 (LastIndex r + 1)))
    (set_heartbeat_elapsed 0 (set_leader (id (config_ r)) (set_role kLeader r)))).

Lemma BecomeLeader_eq r : BecomeLeader r = BroadcastAppendEntries (leader_state r).
Proof.
  unfold BecomeLeader, leader_state. rewrite for_other_peers_eq. f_equal.
  set (r1 := set_heartbeat_elapsed 0 (set_leader (id (config_ r)) (set_role kLeader r))).
  change (others (set_match_index ∅ (set_next_index ∅ r1))) with (others r).
  generalize (others r). intros ps. induction ps as [|p ps IH] using rev_ind; [done|].
  rewrite foldl_app, reverse_app. simpl. rewrite IH. done.
Qed.

Lemma insert_all_lookup (x : Z) ps p :
  foldr (λ p, <[p := x]>) (∅ : gmap Z Z) ps !! p = if decide (p ∈ ps) then Some x else None.
Proof.
  induction ps as [|q ps IH]; [done|]. cbn [foldr].
  destruct (decide (q = p)) as [->|Hne].
  - rewrite lookup_insert_eq. rewrite decide_True; [done|]. left.
  - rewrite lookup_insert_ne, IH by done. apply decide_ext. rewrite elem_of_cons.
    split; [by right|]. by intros [->|?].
Qed.

Lemma leader_next r p : p ∈ others r →
  peer_index (next_index_ (leader_state r)) p = u64 (LastIndex r + 1).
Proof.
  intros Hp. unfold peer_index. simpl. rewrite insert_all_lookup.
  by rewrite decide_True by (by apply elem_of_reverse).
Qed.

Lemma leader_match r p : peer_index (match_index_ (leader_state r)) p = 0.
Proof. unfold peer_index. simpl. rewrite insert_all_lookup. by case_decide. Qed.

(** The state of a new candidate before it asks for votes. *)
Definition candidate_state (r : Raft) : Raft :=
  set_votes_granted [id (config_ r)] (set_election_elapsed 0 (set_leader 0 (set_role kCandidate
    (set_hard_state_dirty true (set_voted_for (id (config_ r))
       (set_current_term (u64 (current_term_ r + 1)) r)))))).

Definition vote_msg (r : Raft) (peer : Z) : Message :=
  RequestVote (id (config_ r)) peer (current_term_ r) (LastIndex r) (LastTerm r).

Lemma BecomeCandidate_eq r :
  BecomeCandidate r =
  let c := candidate_state r in
  if QuorumSize c <=? 1 then BecomeLeader c
  else set_out_msgs (out_msgs_ c ++ (vote_msg c <$> others c)) c.
Proof.
  unfold BecomeCandidate. simpl. rewrite for_other_peers_eq.
  destruct (QuorumSize _ <=? _); [done|].
  exact (sends_eq vote_msg (λ r p, Send (vote_msg r p) r) (λ _ _, eq_refl) (λ _ _ _, eq_refl)
           (others (candidate_state r)) (candidate_state r)).
Qed.

(** ** Commitment *)

(** The peers, this node included, that hold index [n]. *)
Definition holders (r : Raft) (n : Z) : list Z :=
  filter (λ p, p = id (config_ r) ∨ n ≤ peer_index (match_index_ r) p) (peers (config_ r)).

(** The condition under which [MaybeCommit] takes index [n]. *)
Definition can_commit (r : Raft) (n : Z) : bool :=
  (TermAt n r =? current_term_ r) && (QuorumSize r <=? count_replicas n r).

(** [MaybeCommit] takes the highest index that can be committed. *)
Lemma MaybeCommit_loop_spec fuel n r :
  (MaybeCommit_loop fuel n r = r ∧ ∀ m, n - Z.of_nat fuel < m ≤ n → can_commit r m = false) ∨
  ∃ c, MaybeCommit_loop fuel n r = set_commit_index c r ∧ n - Z.of_nat fuel < c ≤ n ∧
    can_commit r c = true ∧ ∀ m, c < m ≤ n → can_commit r m = false.
Proof.
  revert n. induction fuel as [|fuel IH]; intros n; simpl; [left; split; [done|lia]|].
  assert ((can_commit r n = true ∧ MaybeCommit_loop (S fuel) n r = set_commit_index n r) ∨
          (can_commit r n = false ∧ MaybeCommit_loop (S fuel) n r = MaybeCommit_loop fuel (n - 1) r))
    as [[Hc E]|[Hc E]].
  { simpl. unfold can_commit. destruct (TermAt n r =? current_term_ r); simpl; [|by right].
    destruct (QuorumSize r <=? count_replicas n r); auto. }
  - simpl in E. rewrite E. right. exists n. split_and!; [done|lia|lia|done|lia].
  - simpl in E. rewrite E. destruct (IH (n - 1)) as [[-> Hall]|(c & -> & Hc1 & Hc2 & Hall)].
    + left. split; [done|]. intros m Hm. destruct (decide (m = n)) as [->|]; [done|]. apply Hall. lia.
    + right. exists c. split_and!; [done|lia|lia|done|].
      intros m Hm. destruct (decide (m = n)) as [->|]; [done|]. apply Hall. lia.
Qed.

Lemma count_replicas_eq r n : NoDup (peers (config_ r)) → id (config_ r) ∈ peers (config_ r) →
  count_replicas n r = Z.of_nat (length (holders r n)).
Proof.
  intros Hnd Hin. unfold count_replicas. rewrite for_other_peers_eq.
  assert (∀ ps c, foldl (λ k p, if n <=? peer_index (match_index_ r) p then k + 1 else k) c ps =
    c + Z.of_nat (length (filter (λ p, n ≤ peer_index (match_index_ r) p) ps))) as Hcount.
  { intros ps. induction ps as [|p ps IH]; intros c; simpl; [lia|]. rewrite IH, filter_cons.
    destruct (Z.leb_spec n (peer_index (match_index_ r) p)); case_decide; simpl; lia. }
  rewrite Hcount. unfold holders, others.
  revert Hnd Hin. generalize (peers (config_ r)). intros ps Hnd Hin.
  apply list_elem_of_split in Hin as (l1 & l2 & ->).
  apply NoDup_app in Hnd as (_ & Hd1 & Hd2). apply NoDup_cons in Hd2 as [Hd2 _].
  assert (∀ ps : list Z, id (config_ r) ∉ ps →
    filter (λ p, p = id (config_ r) ∨ n ≤ peer_index (match_index_ r) p) ps =
    filter (λ p, n ≤ peer_index (match_index_ r) p) (filter (.≠ id (config_ r)) ps)) as Heq.
  { clear. intros ps Hps. induction ps as [|p ps IH]; [done|].
    apply not_elem_of_cons in Hps as [Hne Hps].
    rewrite (filter_cons_True (.≠ id (config_ r))) by congruence. rewrite !filter_cons, IH by done.
    repeat case_decide; try done; exfalso; intuition congruence. }
  rewrite !filter_app, !filter_cons, !length_app.
  rewrite decide_False by tauto. rewrite decide_True by tauto. simpl.
  rewrite <-(Heq l1), <-(Heq l2); [lia|done|]. intros H1. apply (Hd1 _ H1). left.
Qed.

(** ** The log of a follower *)

Lemma append_entry_frame r e :
  append_entry r e =
  set_stable_index (stable_index_ (append_entry r e)) (set_log (log_ (append_entry r e)) r).
Proof.
  unfold append_entry. destruct (_ <=? _); [|by destruct r].
  destruct (_ =? _); [by destruct r|]. destruct (_ <=? _); by destruct r.
Qed.

Lemma append_entry_log r e : log_fits r → 0 ≤ e_index e →
  log_ (append_entry r e) = append_one (log_ r) e.
Proof.
  intros Hf He. pose proof (log_fits_pos r Hf). unfold append_entry, append_one.
  destruct (Z_of_nat_complete (e_index e) He) as [k ->].
  rewrite Nat2Z.id, (LastIndex_eq r Hf), (TermAt_eq r _ Hf).
  destruct (Z.leb_spec (Z.of_nat k) (Z.of_nat (length (log_ r)) - 1)).
  - rewrite decide_True by lia.
    destruct (lookup_lt_is_Some_2 (log_ r) k) as [x Hx]; [lia|].
    unfold term_at. rewrite Hx, (list_lookup_total_correct _ _ _ Hx).
    destruct (_ =? _); [done|]. by destruct (_ <=? _).
  - by rewrite lookup_ge_None_2 by lia.
Qed.

(** Going through the entries of a message. *)
Definition append_entries (r : Raft) (es : list LogEntry) : Raft := foldl append_entry r es.

Lemma append_entries_frame r es :
  append_entries r es =
  set_stable_index (stable_index_ (append_entries r es)) (set_log (log_ (append_entries r es)) r).
Proof.
  unfold append_entries. revert r. induction es as [|e es IH]; intros r; [by destruct r|].
  cbn [foldl]. rewrite IH at 1.
  generalize (stable_index_ (foldl append_entry (append_entry r e) es)).
  generalize (log_ (foldl append_entry (append_entry r e) es)).
  intros l k. by rewrite append_entry_frame.
Qed.

Lemma append_one_nonempty l e : append_one l e ≠ [].
Proof.
  unfold append_one. destruct (l !! _) as [x|] eqn:E.
  - destruct (_ =? _); [by intros ->|]. by destruct (take _ l).
  - by destruct l.
Qed.

Lemma append_one_length l e : (length (append_one l e) ≤ S (length l))%nat.
Proof.
  unfold append_one. destruct (l !! _); [destruct (_ =? _); [lia|]|];
    rewrite length_app; simpl; [rewrite length_take|]; lia.
Qed.

Lemma append_entries_log r es :
  log_ r ≠ [] → Z.of_nat (length (log_ r) + length es) < 2 ^ 64 →
  Forall (λ e, 0 ≤ e_index e) es →
  log_ (append_entries r es) = accept_log (log_ r) es ∧ log_fits (append_entries r es).
Proof.
  intros Hne Hlen Hes. unfold append_entries, accept_log. revert r Hne Hlen.
  induction Hes as [|e es He Hes IH]; intros r Hne Hlen; [split; [done|]; split; [done|simpl in *; lia]|].
  simpl in *. assert (log_fits r) as Hf by (split; [done|lia]).
  pose proof (append_entry_log r e Hf He) as E. pose proof (append_one_length (log_ r) e).
  rewrite <-E. apply IH; rewrite E; [apply append_one_nonempty|lia].
Qed.

Lemma HandleAppendEntries_hard_state msg r :
  current_term_ (HandleAppendEntries msg r) = current_term_ r ∧
  voted_for_ (HandleAppendEntries msg r) = voted_for_ r.
Proof.
  unfold HandleAppendEntries. set (r1 := set_election_elapsed _ _). destruct (_ || _); [done|].
  fold (append_entries r1 (entries msg)). rewrite append_entries_frame.
  by destruct (_ <? _).
Qed.

(** Entries that carry the indices from [p] on. *)
Definition consecutive (p : nat) (es : list LogEntry) : Prop :=
  ∀ k e, es !! k = Some e → e_index e = Z.of_nat (p + k).

Lemma consecutive_cons p e es : consecutive p (e :: es) → e_index e = Z.of_nat p ∧ consecutive (S p) es.
Proof.
  intros H. split; [by rewrite (H 0%nat e eq_refl), Nat.add_0_r|].
  intros k x Hx. rewrite (H (S k) x Hx). lia.
Qed.

Lemma consecutive_pos p es : consecutive p es → Forall (λ e, 0 ≤ e_index e) es.
Proof. intros H. apply Forall_lookup_2. intros k e ->%H. lia. Qed.

(** Entries after the end of the log are added to it. *)
Lemma append_entries_beyond r es :
  log_fits r → consecutive (length (log_ r)) es →
  Z.of_nat (length (log_ r) + length es) < 2 ^ 64 →
  append_entries r es = set_log (log_ r ++ es) r.
Proof.
  unfold append_entries. revert r. induction es as [|e es IH]; intros r Hf Hes Hlen; simpl.
  { rewrite app_nil_r. by destruct r. }
  destruct (consecutive_cons _ _ _ Hes) as [He Hes']. simpl in Hlen.
  assert (append_entry r e = set_log (log_ r ++ [e]) r) as ->.
  { unfold append_entry. rewrite (LastIndex_eq r Hf), He.
    destruct (Z.leb_spec (Z.of_nat (length (log_ r))) (Z.of_nat (length (log_ r)) - 1)); [lia|done]. }
  rewrite IH; simpl; [by rewrite <-app_assoc|..].
  - split; simpl; [by destruct (log_ r)|]. rewrite length_app. simpl. lia.
  - rewrite length_app, Nat.add_1_r. done.
  - rewrite length_app. simpl. lia.
Qed.

(** An entry against one of the same position. *)
Lemma append_entry_match r e p x :
  log_fits r → e_index e = Z.of_nat p → log_ r !! p = Some x → e_term x = e_term e →
  append_entry r e = r.
Proof.
  intros Hf He Hx Et. apply lookup_lt_Some in Hx as Hp. unfold append_entry.
  rewrite (LastIndex_eq r Hf), He.
  destruct (Z.leb_spec (Z.of_nat p) (Z.of_nat (length (log_ r)) - 1)); [|lia].
  rewrite (TermAt_eq r p Hf), decide_True by lia. unfold term_at.
  by rewrite (list_lookup_total_correct _ _ _ Hx), Et, Z.eqb_refl.
Qed.

Lemma append_entry_conflict r e p x :
  log_fits r → e_index e = Z.of_nat p → log_ r !! p = Some x → e_term x ≠ e_term e →
  (0 < p)%nat → Z.of_nat p ≤ stable_index_ r →
  append_entry r e = set_log (take p (log_ r) ++ [e]) (set_stable_index (Z.of_nat p - 1) r).
Proof.
  intros Hf He Hx Et Hp0 Hst. apply lookup_lt_Some in Hx as Hp. destruct Hf as [Hne Hlen].
  unfold append_entry. rewrite (LastIndex_eq r), He, Nat2Z.id by done.
  destruct (Z.leb_spec (Z.of_nat p) (Z.of_nat (length (log_ r)) - 1)); [|lia].
  rewrite (TermAt_eq r p), decide_True by (done || lia). unfold term_at.
  rewrite (list_lookup_total_correct _ _ _ Hx).
  destruct (Z.eqb_spec (e_term x) (e_term e)); [done|]. cbn [stable_index_ set_log].
  destruct (Z.leb_spec (Z.of_nat p) (stable_index_ r)); [|lia]. by rewrite u64_small by lia.
Qed.

(** The watermark of a log that was persisted goes no lower than what the old
    and the new log have in common. *)
Lemma append_entries_stable r es p :
  log_fits r → consecutive p es → (0 < p ≤ length (log_ r))%nat →
  Z.of_nat (length (log_ r) + length es) < 2 ^ 64 → stable_index_ r = LastIndex r →
  ∀ k, (k < length (log_ r))%nat → take (S k) (log_ r) = take (S k) (log_ (append_entries r es)) →
  Z.of_nat k ≤ stable_index_ (append_entries r es).
Proof.
  intros Hf. pose proof (LastIndex_eq r Hf) as EL. rewrite EL. revert p.
  induction es as [|e es IH]; intros p Hes Hp Hlen Hst k Hk E; [simpl; lia|].
  destruct (consecutive_cons _ _ _ Hes) as [He Hes']. simpl in Hlen.
  unfold append_entries in *. cbn [foldl] in *.
  destruct (decide (p = length (log_ r))) as [->|Hne].
  { assert (append_entries r (e :: es) = set_log (log_ r ++ e :: es) r) as Eq
      by (apply append_entries_beyond; [done..|simpl; lia]).
    unfold append_entries in Eq. cbn [foldl] in Eq. rewrite Eq. simpl. lia. }
  destruct (lookup_lt_is_Some_2 (log_ r) p) as [x Hx]; [lia|].
  destruct (decide (e_term x = e_term e)) as [Et|Et].
  { rewrite (append_entry_match r e p x) in * by done. apply (IH (S p)); [done|lia|lia|done..]. }
  pose proof (append_entry_conflict r e p x Hf He Hx Et ltac:(lia) ltac:(lia)) as Er.
  rewrite Er in *. set (r1 := set_log _ _) in *.
  assert (length (log_ r1) = S p) as Hl1 by (simpl; rewrite length_app, length_take; simpl; lia).
  assert (foldl append_entry r1 es = set_log (log_ r1 ++ es) r1) as Eq.
  { apply append_entries_beyond.
    - split; [by intros E0; rewrite E0 in Hl1|lia].
    - by rewrite Hl1.
    - lia. }
  rewrite Eq in E |- *. cbn [log_ stable_index_ set_log set_stable_index r1] in *.
  assert (¬ (p ≤ k)%nat); [|lia]. intros Hpk. apply (f_equal (.!! p)) in E.
  rewrite !lookup_take_lt, Hx, <-app_assoc, lookup_app_r in E by (rewrite ?length_take; lia).
  rewrite length_take, Nat.min_l, Nat.sub_diag in E by lia. simpl in E. congruence.
Qed.

(** ** Calls that leave the log alone *)

Definition same_log (r r' : Raft) : Prop :=
  log_ r' = log_ r ∧ stable_index_ r' = stable_index_ r.

#[export] Instance same_log_preorder : PreOrder same_log.
Proof. split; [by split|]. intros r1 r2 r3 [? ?] [? ?]. split; congruence. Qed.

Lemma BecomeLeader_same_log r : same_log r (BecomeLeader r).
Proof. rewrite BecomeLeader_eq, BroadcastAppendEntries_eq. by split. Qed.

Lemma BecomeFollower_same_log t leader r : same_log r (BecomeFollower t leader r).
Proof. unfold BecomeFollower. by destruct (_ <? _). Qed.

Lemma HandleRequestVote_same_log msg r : same_log r (HandleRequestVote msg r).
Proof. unfold HandleRequestVote. by destruct (_ && _). Qed.

Lemma MaybeCommit_same_log r : same_log r (MaybeCommit r).
Proof.
  unfold MaybeCommit. destruct (MaybeCommit_loop_spec (Z.to_nat (LastIndex r - commit_index_ r)) (LastIndex r) r)
    as [[-> _]|(c & -> & _)]; done.
Qed.

Lemma BecomeCandidate_same_log r : same_log r (BecomeCandidate r).
Proof.
  rewrite BecomeCandidate_eq. cbv zeta. destruct (_ <=? 1); [|by split].
  trans (candidate_state r); [by split|apply BecomeLeader_same_log].
Qed.

Lemma Tick_same_log r : same_log r (Tick r).
Proof.
  unfold Tick. destruct (role_ r); cbv zeta; destruct (_ <=? _); try by split.
  - trans (set_election_elapsed (election_elapsed_ r + 1) r); [by split|apply BecomeCandidate_same_log].
  - trans (set_election_elapsed (election_elapsed_ r + 1) r); [by split|apply BecomeCandidate_same_log].
  - rewrite BroadcastAppendEntries_eq. by split.
Qed.

(** The one call that changes a log in other ways than adding to it. *)
Lemma Step_log_cases msg r :
  same_log r (Step msg r) ∨
  (m_type msg = kAppendEntries ∧ ∃ rb,
     (rb = r ∨ rb = BecomeFollower (m_term msg) (m_from msg) r) ∧
     role_ rb = kFollower ∧ current_term_ rb = m_term msg ∧ same_log r rb ∧
     Step msg r = HandleAppendEntries msg rb).
Proof.
  assert (∀ r', same_log r r' → m_type msg ≠ kAppendEntries ∨ role_ r' = kLeader →
            same_log r (StepRole msg r')) as Hother.
  { intros r' Hs Hm. etrans; [done|]. unfold StepRole, StepFollower, StepCandidate, StepLeader.
    destruct (role_ r') eqn:Hr, (m_type msg) eqn:Ht;
      first [apply HandleRequestVote_same_log|exact (reflexivity r')|by destruct Hm|idtac].
    - destruct (vote_granted msg); [|exact (reflexivity r')]. set (r1 := if bool_decide _ then _ else _).
      trans r1; [unfold r1; case_bool_decide; by split|]. clearbody r1.
      destruct (_ <=? _); [apply BecomeLeader_same_log|exact (reflexivity r1)].
    - unfold HandleAppendEntriesResp. destruct (success msg); [|destruct (_ <? peer_index _ _); by split].
      etrans; [|apply MaybeCommit_same_log]. by split. }
  pose proof (BecomeFollower_same_log (m_term msg) (m_from msg) r) as Hbf.
  unfold Step. destruct (Z.ltb_spec (current_term_ r) (m_term msg)) as [Hlt|Hge].
  - destruct (decide (m_type msg = kAppendEntries)) as [Ht|Hne].
    + right. split; [done|]. exists (BecomeFollower (m_term msg) (m_from msg) r).
      split_and!; [by right|by unfold BecomeFollower; destruct (_ <? _)| |done|].
      * unfold BecomeFollower. by rewrite (proj2 (Z.ltb_lt _ _)).
      * unfold StepRole, StepFollower. rewrite Ht. unfold BecomeFollower. by destruct (_ <? _).
    + left. apply Hother; [apply BecomeFollower_same_log|by left].
  - destruct (Z.ltb_spec (m_term msg) (current_term_ r)) as [Hlt|Hge'].
    { left. unfold RejectStale. destruct (m_type msg); by split. }
    destruct (decide (m_type msg = kAppendEntries)) as [Ht|Hne]; [|left; apply Hother; [done|by left]].
    destruct (role_ r) eqn:Hr; [right; split; [done|]..|left; apply Hother; [done|by right]].
    + exists r. split_and!; [by left|done|lia|done|]. unfold StepRole, StepFollower. by rewrite Hr, Ht.
    + exists (BecomeFollower (m_term msg) (m_from msg) r).
      split_and!; [by right|by unfold BecomeFollower; destruct (_ <? _)| |done|].
      * unfold BecomeFollower. destruct (_ <? _) eqn:E; [apply Z.ltb_lt in E; lia|]. simpl. lia.
      * unfold StepRole, StepCandidate. by rewrite Hr, Ht.
Qed.

(** ** What the caller has to persist *)

(** The hard state is clean only when it did not change. *)
Definition hard_state_tracked (r r' : Raft) : Prop :=
  hard_state_dirty_ r' = true ∨
  (current_term_ r' = current_term_ r ∧ voted_for_ r' = voted_for_ r ∧
   hard_state_dirty_ r' = hard_state_dirty_ r).

(** The entries up to the watermark are the ones that were there. *)
Definition watermark_kept (r r' : Raft) : Prop :=
  stable_index_ r' ≤ stable_index_ r ∧
  take (Z.to_nat (stable_index_ r' + 1)) (log_ r') = take (Z.to_nat (stable_index_ r' + 1)) (log_ r).

Definition persist_tracked (r r' : Raft) : Prop := hard_state_tracked r r' ∧ watermark_kept r r'.

#[export] Instance persist_tracked_preorder : PreOrder persist_tracked.
Proof.
  split.
  - intros r. split; [by right|]. by split.
  - intros r1 r2 r3 [H1 [W1 E1]] [H2 [W2 E2]]. split.
    + destruct H2 as [?|(? & ? & ?)]; [by left|]. destruct H1 as [?|(? & ? & ?)];
        [left; congruence|right; split_and!; congruence].
    + split; [lia|]. rewrite E2. apply (f_equal (take (Z.to_nat (stable_index_ r3 + 1)))) in E1.
      rewrite !take_take in E1. by rewrite !Nat.min_l in E1 by lia.
Qed.

(** A change that leaves the term, the vote and the log alone. *)
Lemma persist_tracked_same r r' :
  current_term_ r' = current_term_ r → voted_for_ r' = voted_for_ r →
  hard_state_dirty_ r' = hard_state_dirty_ r → log_ r' = log_ r →
  stable_index_ r' = stable_index_ r → persist_tracked r r'.
Proof. intros ? ? ? E1 E2. split; [by right|]. split; [lia|by rewrite E1]. Qed.

(** A change of the hard state only. *)
Lemma persist_tracked_dirty r r' :
  hard_state_dirty_ r' = true → log_ r' = log_ r → stable_index_ r' = stable_index_ r →
  persist_tracked r r'.
Proof. intros ? E1 E2. split; [by left|]. split; [lia|by rewrite E1]. Qed.

#[export] Hint Resolve persist_tracked_same persist_tracked_dirty : mlsm.

(** The watermark is inside the log. *)
Definition watermark_ok (r : Raft) : Prop := log_fits r ∧ 0 ≤ stable_index_ r ≤ LastIndex r.

Lemma append_entry_tracked r e :
  watermark_ok r → 0 < e_index e < 2 ^ 64 → Z.of_nat (length (log_ r)) + 1 < 2 ^ 64 →
  persist_tracked r (append_entry r e) ∧ watermark_ok (append_entry r e).
Proof.
  intros [Hf Hs] He Hlen. pose proof (log_fits_pos r Hf) as Hpos. rewrite (LastIndex_eq r Hf) in Hs.
  assert (log_fits (append_entry r e)) as Hf'.
  { split; rewrite append_entry_log by (done || lia); [apply append_one_nonempty|].
    pose proof (append_one_length (log_ r) e). lia. }
  unfold watermark_ok. rewrite (LastIndex_eq _ Hf').
  revert Hf'. unfold append_entry. rewrite (LastIndex_eq r Hf).
  destruct (Z.leb_spec (e_index e) (Z.of_nat (length (log_ r)) - 1)) as [Hle|Hgt].
  - destruct (_ =? _); [by intros _; split; [reflexivity|]|]. simpl.
    destruct (Z.leb_spec (e_index e) (stable_index_ r)); simpl; intros Hf';
      rewrite ?length_app, ?length_take; simpl;
      (split; [split; [by right|]; split; simpl|split; [done|]]); try lia.
    + rewrite u64_small by lia. lia.
    + rewrite u64_small by lia. rewrite take_app_le, take_take by (rewrite length_take; lia).
      f_equal. lia.
    + rewrite u64_small by lia. lia.
    + rewrite take_app_le, take_take by (rewrite length_take; lia). f_equal. lia.
  - simpl. intros Hf'. rewrite length_app. simpl.
    split; [split; [by right|]; split; simpl; [lia|]|split; [done|lia]].
    by rewrite take_app_le by lia.
Qed.

Lemma append_entries_tracked r es :
  watermark_ok r → Forall (λ e, 0 < e_index e < 2 ^ 64) es →
  Z.of_nat (length (log_ r) + length es) < 2 ^ 64 →
  persist_tracked r (append_entries r es) ∧ watermark_ok (append_entries r es).
Proof.
  intros Hw Hes. revert r Hw. unfold append_entries.
  induction Hes as [|e es He _ IH]; intros r Hw Hlen; [by split; [reflexivity|]|]. simpl in *.
  destruct (append_entry_tracked r e Hw He) as [Ht Hw']; [lia|].
  destruct (IH (append_entry r e) Hw') as [Ht2 Hw2].
  - rewrite append_entry_log by (destruct Hw; done || lia).
    pose proof (append_one_length (log_ r) e). lia.
  - split; [by etrans|done].
Qed.

(** A call keeps the watermark inside the log when it leaves both alone. *)
Lemma watermark_ok_same r r' : watermark_ok r → log_ r' = log_ r →
  stable_index_ r' = stable_index_ r → watermark_ok r'.
Proof. unfold watermark_ok, log_fits, LastIndex. by intros ? -> ->. Qed.

Definition tracked (r r' : Raft) : Prop := persist_tracked r r' ∧ watermark_ok r'.

Lemma tracked_same r r' : watermark_ok r →
  current_term_ r' = current_term_ r → voted_for_ r' = voted_for_ r →
  hard_state_dirty_ r' = hard_state_dirty_ r → log_ r' = log_ r →
  stable_index_ r' = stable_index_ r → tracked r r'.
Proof. intros. split; [by apply persist_tracked_same|by eapply watermark_ok_same]. Qed.

Lemma tracked_dirty r r' : watermark_ok r →
  hard_state_dirty_ r' = true → log_ r' = log_ r → stable_index_ r' = stable_index_ r →
  tracked r r'.
Proof. intros. split; [by apply persist_tracked_dirty|by eapply watermark_ok_same]. Qed.

Lemma tracked_trans r1 r2 r3 : tracked r1 r2 → (watermark_ok r2 → tracked r2 r3) → tracked r1 r3.
Proof. intros [T1 W1] H2. destruct (H2 W1) as [T2 W2]. split; [by etrans|done]. Qed.

Lemma BecomeLeader_tracked r : watermark_ok r → tracked r (BecomeLeader r).
Proof.
  intros Hw. rewrite BecomeLeader_eq, BroadcastAppendEntries_eq. by apply tracked_same.
Qed.

Lemma BecomeCandidate_tracked r : watermark_ok r → tracked r (BecomeCandidate r).
Proof.
  intros Hw. rewrite BecomeCandidate_eq. cbv zeta.
  destruct (_ <=? 1); [|by apply tracked_dirty].
  apply (tracked_trans _ (candidate_state r)); [by apply tracked_dirty|apply BecomeLeader_tracked].
Qed.

Lemma BecomeFollower_tracked term leader r : watermark_ok r →
  tracked r (BecomeFollower term leader r).
Proof.
  intros Hw. unfold BecomeFollower. destruct (_ <? _); [by apply tracked_dirty|by apply tracked_same].
Qed.

Lemma MaybeCommit_cases r :
  MaybeCommit r = r ∨ ∃ c, MaybeCommit r = set_commit_index c r ∧
    commit_index_ r < c ≤ LastIndex r ∧ can_commit r c = true.
Proof.
  unfold MaybeCommit.
  destruct (decide (commit_index_ r < LastIndex r)) as [Hlt|Hge].
  2:{ left. by replace (Z.to_nat (LastIndex r - commit_index_ r)) with 0%nat by lia. }
  destruct (MaybeCommit_loop_spec (Z.to_nat (LastIndex r - commit_index_ r)) (LastIndex r) r)
    as [[-> _]|(c & -> & Hc & Hcc & _)]; [by left|].
  right. exists c. split_and!; [done|lia|lia|done].
Qed.

Lemma MaybeCommit_tracked r : watermark_ok r → tracked r (MaybeCommit r).
Proof. intros Hw. destruct (MaybeCommit_cases r) as [->|(c & -> & _)]; by apply tracked_same. Qed.

Lemma HandleRequestVote_tracked msg r : watermark_ok r → tracked r (HandleRequestVote msg r).
Proof.
  intros Hw. unfold HandleRequestVote.
  destruct (_ && _); [by apply tracked_dirty|by apply tracked_same].
Qed.

(** The entries of an AppendEntries message carry indices of real entries, and
    there is room for them. *)
Definition entries_fit (msg : Message) (r : Raft) : Prop :=
  m_type msg = kAppendEntries →
  Forall (λ e, 0 < e_index e < 2 ^ 64) (entries msg) ∧
  Z.of_nat (length (log_ r) + length (entries msg)) < 2 ^ 64.

Lemma HandleAppendEntries_tracked msg r :
  watermark_ok r → m_type msg = kAppendEntries → entries_fit msg r →
  tracked r (HandleAppendEntries msg r).
Proof.
  intros Hw Ht [He Hlen]%(λ H, H Ht). unfold HandleAppendEntries. destruct (_ || _); [by apply tracked_same|].
  fold (append_entries (set_election_elapsed 0 (set_leader (m_from msg) r)) (entries msg)).
  set (r1 := set_election_elapsed 0 (set_leader (m_from msg) r)).
  apply (tracked_trans _ r1); [by apply tracked_same|]. intros Hw1.
  apply (tracked_trans _ (append_entries r1 (entries msg))); [by apply append_entries_tracked|].
  intros Hw2. destruct (_ <? _); by apply tracked_same.
Qed.

Lemma HandleAppendEntriesResp_tracked msg r : watermark_ok r →
  tracked r (HandleAppendEntriesResp msg r).
Proof.
  intros Hw. unfold HandleAppendEntriesResp. destruct (success msg).
  - eapply tracked_trans; [|apply MaybeCommit_tracked]. by apply tracked_same.
  - destruct (_ <? peer_index _ _); by apply tracked_same.
Qed.

Lemma StepRole_tracked msg r : watermark_ok r → entries_fit msg r → tracked r (StepRole msg r).
Proof.
  intros Hw He. unfold StepRole, StepFollower, StepCandidate, StepLeader.
  destruct (role_ r), (m_type msg) eqn:Ht; try (by apply tracked_same);
    try (by apply HandleRequestVote_tracked); try (by apply HandleAppendEntriesResp_tracked).
  - by apply HandleAppendEntries_tracked.
  - destruct (vote_granted msg); [|by apply tracked_same].
    apply (tracked_trans _ (if bool_decide (m_from msg ∈ votes_granted_ r) then r
      else set_votes_granted (votes_granted_ r ++ [m_from msg]) r)).
    { case_bool_decide; by apply tracked_same. }
    intros Hw1. destruct (_ <=? _); [by apply BecomeLeader_tracked|by apply tracked_same].
  - eapply tracked_trans; [by apply BecomeFollower_tracked|].
    intros Hw1. apply HandleAppendEntries_tracked; [done|done|].
    unfold entries_fit, BecomeFollower in *. by destruct (_ <? _).
Qed.

Lemma Step_tracked msg r : watermark_ok r → entries_fit msg r → tracked r (Step msg r).
Proof.
  intros Hw He. unfold Step. destruct (_ <? _).
  - eapply tracked_trans; [by apply BecomeFollower_tracked|]. intros Hw1.
    apply StepRole_tracked; [done|]. unfold entries_fit, BecomeFollower in *. by destruct (_ <? _).
  - destruct (_ <? _); [|by apply StepRole_tracked].
    unfold RejectStale. destruct (m_type msg); by apply tracked_same.
Qed.

Lemma Tick_tracked r : watermark_ok r → tracked r (Tick r).
Proof.
  intros Hw. unfold Tick. destruct (role_ r).
  1,2: destruct (_ <=? _); [|by apply tracked_same];
    eapply tracked_trans; [|apply BecomeCandidate_tracked]; by apply tracked_same.
  destruct (_ <=? _); [|by apply tracked_same].
  rewrite BroadcastAppendEntries_eq. by apply tracked_same.
Qed.

Lemma Propose_tracked data r : watermark_ok r → Z.of_nat (length (log_ r)) + 1 < 2 ^ 64 →
  tracked r (Propose data r).2.
Proof.
  intros Hw Hlen. unfold Propose. destruct (role_ r); [by apply tracked_same..|]. simpl.
  eapply tracked_trans; [|apply MaybeCommit_tracked].
  destruct Hw as [Hf Hs]. pose proof Hf as [Hne Hl]. rewrite (LastIndex_eq r Hf) in Hs.
  set (r1 := set_log _ r). assert (log_fits r1) as Hf1.
  { split; simpl; [by destruct (log_ r)|]. rewrite length_app. simpl. lia. }
  split; [split; [by right|]; split; simpl; [lia|by rewrite take_app_le by lia]|].
  split; [done|]. rewrite (LastIndex_eq _ Hf1). simpl. rewrite length_app. simpl. lia.
Qed.

(** The calls that drive a node. *)
Inductive raft_call (r : Raft) : Raft → Prop :=
  | call_step msg : entries_fit msg r → raft_call r (Step msg r)
  | call_tick : raft_call r (Tick r)
  | call_propose data : Z.of_nat (length (log_ r)) + 1 < 2 ^ 64 → raft_call r (Propose data r).2.


(** C27: [MaybeCommit] commits the highest index that a majority holds and whose
    entry is of the current term, and leaves the commit index alone when there
    is none above it. *)
Theorem MaybeCommit_highest (r : Raft) :
  NoDup (peers (config_ r)) → id (config_ r) ∈ peers (config_ r) →
  let good n := TermAt n r = current_term_ r ∧
    (length (peers (config_ r)) < 2 * length (holders r n))%nat in
  (MaybeCommit r = r ∧ ∀ n, commit_index_ r < n ≤ LastIndex r → ¬ good n) ∨
  (∃ c, MaybeCommit r = set_commit_index c r ∧ commit_index_ r < c ≤ LastIndex r ∧ good c ∧
     ∀ n, c < n ≤ LastIndex r → ¬ good n).
Proof.
  intros Hnd Hin good.
  assert (∀ n, can_commit r n = true ↔ good n) as Hgood.
  { intros n. unfold can_commit, good, QuorumSize. rewrite andb_true_iff, Z.eqb_eq, Z.leb_le.
    rewrite count_replicas_eq by done.
    pose proof (Z.div_mod (Z.of_nat (length (peers (config_ r)))) 2).
    pose proof (Z.mod_pos_bound (Z.of_nat (length (peers (config_ r)))) 2).
    split; intros [? ?]; (split; [done|lia]). }
  assert (∀ n, can_commit r n = false → ¬ good n) as Hbad.
  { intros n Hn ?%Hgood. congruence. }
  unfold MaybeCommit. destruct (decide (commit_index_ r < LastIndex r)) as [Hlt|Hge].
  2:{ left. replace (Z.to_nat (LastIndex r - commit_index_ r)) with 0%nat by lia.
      split; [done|lia]. }
  destruct (MaybeCommit_loop_spec (Z.to_nat (LastIndex r - commit_index_ r)) (LastIndex r) r)
    as [[-> Hall]|(c & -> & Hc & Hcc & Hall)].
  - left. split; [done|]. intros n Hn. apply Hbad, Hall. lia.
  - right. exists c. split_and!; [done|lia|lia|by apply Hgood|].
    intros n Hn. by apply Hbad, Hall.
Qed.
