(* ===== verification/RaftTypes.v ===== *)
(** * The machine types of the Raft core

    The model keeps the fields of a node as integers.  This file proves that,
    however a client drives a node through its public methods with arguments of
    the right types, every field of type [uint64_t] stays a 64-bit integer and
    the tick counters stay far from the limits of [int], and that the messages
    the node sends are again arguments of the right types. *)

From S2P Require Import Prelude Raft RaftModel RaftNode.
Local Open Scope Z_scope.

(** ** Typed values *)

Definition is_u64 (z : Z) : Prop := 0 ≤ z < 2 ^ 64.
Definition is_int (z : Z) : Prop := - 2 ^ 31 ≤ z < 2 ^ 31.

Lemma u64_is_u64 z : is_u64 (u64 z).
Proof. apply u64_range. Qed.

Lemma zero_is_u64 : is_u64 0.
Proof. done. Qed.

Create HintDb typed.
#[local] Hint Resolve u64_is_u64 zero_is_u64 : typed.

Definition entry_typed (e : LogEntry) : Prop := is_u64 (e_term e) ∧ is_u64 (e_index e).

Record message_typed (m : Message) : Prop := {
  mt_from : is_u64 (m_from m);
  mt_to : is_u64 (m_to m);
  mt_term : is_u64 (m_term m);
  mt_last_index : is_u64 (last_log_index m);
  mt_last_term : is_u64 (last_log_term m);
  mt_prev_index : is_u64 (prev_log_index m);
  mt_prev_term : is_u64 (prev_log_term m);
  mt_entries : Forall entry_typed (entries m);
  mt_commit : is_u64 (leader_commit m);
  mt_match : is_u64 (m_match_index m);
}.

Record config_typed (c : Config) : Prop := {
  ct_id : is_u64 (id c);
  ct_peers : Forall is_u64 (peers c);
  ct_election : is_int (election_timeout c);
  ct_heartbeat : is_int (heartbeat_timeout c);
}.

(** A counter that is reset when it reaches a timeout. *)
Definition counts_to (timeout z : Z) : Prop := 0 ≤ z < Z.max 1 timeout.

Record raft_typed (r : Raft) : Prop := {
  rt_config : config_typed (config_ r);
  rt_term : is_u64 (current_term_ r);
  rt_vote : is_u64 (voted_for_ r);
  rt_log : Forall entry_typed (log_ r);
  rt_commit : is_u64 (commit_index_ r);
  rt_applied : is_u64 (last_applied_ r);
  rt_stable : is_u64 (stable_index_ r);
  rt_leader : is_u64 (leader_ r);
  rt_election : counts_to (election_timeout (config_ r)) (election_elapsed_ r);
  rt_heartbeat : counts_to (heartbeat_timeout (config_ r)) (heartbeat_elapsed_ r);
  rt_votes : Forall is_u64 (votes_granted_ r);
  rt_next : map_Forall (λ p i, is_u64 p ∧ is_u64 i) (next_index_ r);
  rt_match : map_Forall (λ p i, is_u64 p ∧ is_u64 i) (match_index_ r);
  rt_msgs : Forall message_typed (out_msgs_ r);
}.

Lemma counts_to_zero timeout : counts_to timeout 0.
Proof. unfold counts_to. lia. Qed.
#[local] Hint Resolve counts_to_zero : typed.

(** Incrementing such a counter does not overflow an [int]. *)
Lemma counts_to_int timeout z : is_int timeout → counts_to timeout z → is_int (z + 1).
Proof. unfold is_int, counts_to. lia. Qed.

(** ** Reading fields *)

Lemma entry_typed_at (l : list LogEntry) k : Forall entry_typed l → entry_typed (l !!! k).
Proof.
  intros Hl. destruct (l !! k) as [e|] eqn:E.
  - rewrite (list_lookup_total_correct _ _ _ E). by eapply Forall_lookup_1.
  - rewrite list_lookup_total_alt, E. by split.
Qed.

Lemma TermAt_typed k r : raft_typed r → is_u64 (TermAt k r).
Proof.
  intros Hr. unfold TermAt. destruct (_ <? _); [done|]. by apply entry_typed_at, Hr.
Qed.

Lemma LastTerm_typed r : raft_typed r → is_u64 (LastTerm r).
Proof. intros Hr. by apply entry_typed_at, Hr. Qed.

Lemma LastIndex_typed r : is_u64 (LastIndex r).
Proof. apply u64_is_u64. Qed.

Lemma peer_index_typed (m : gmap Z Z) p :
  map_Forall (λ p i, is_u64 p ∧ is_u64 i) m → is_u64 (peer_index m p).
Proof. intros Hm. unfold peer_index. destruct (m !! p) eqn:E; [by eapply Hm|done]. Qed.

Lemma entries_between_typed from last r : raft_typed r → Forall entry_typed (entries_between from last r).
Proof.
  intros Hr. apply Forall_fmap, Forall_forall. intros z _. by apply entry_typed_at, Hr.
Qed.

#[local] Hint Resolve TermAt_typed LastTerm_typed LastIndex_typed peer_index_typed entries_between_typed : typed.

(** ** The methods *)

Lemma Forall_snoc_2 {A} (P : A → Prop) l x : Forall P l → P x → Forall P (l ++ [x]).
Proof. intros Hl Hx. apply Forall_app_2; [done|]. by apply Forall_singleton. Qed.

Lemma Send_typed m r : raft_typed r → message_typed m → raft_typed (Send m r).
Proof. intros [] Hm. split; try done. by apply Forall_snoc_2. Qed.

Lemma sends_typed (msg : Z → Message) ps r : raft_typed r →
  (∀ p, p ∈ ps → message_typed (msg p)) → raft_typed (set_out_msgs (out_msgs_ r ++ (msg <$> ps)) r).
Proof.
  intros [] Hm. split; try done. simpl. apply Forall_app. split; [done|].
  by apply Forall_fmap, Forall_forall.
Qed.

Lemma RequestVote_typed from to term last_index last_term :
  is_u64 from → is_u64 to → is_u64 term → is_u64 last_index → is_u64 last_term →
  message_typed (RequestVote from to term last_index last_term).
Proof. by split. Qed.

Lemma RequestVoteResp_typed from to term granted :
  is_u64 from → is_u64 to → is_u64 term → message_typed (RequestVoteResp from to term granted).
Proof. by split. Qed.

Lemma AppendEntries_typed from to term prev prev_term es commit :
  is_u64 from → is_u64 to → is_u64 term → is_u64 prev → is_u64 prev_term →
  Forall entry_typed es → is_u64 commit →
  message_typed (AppendEntries from to term prev prev_term es commit).
Proof. by split. Qed.

Lemma AppendEntriesResp_typed from to term succ matched :
  is_u64 from → is_u64 to → is_u64 term → is_u64 matched →
  message_typed (AppendEntriesResp from to term succ matched).
Proof. by split. Qed.

#[local] Hint Resolve RequestVote_typed RequestVoteResp_typed AppendEntries_typed AppendEntriesResp_typed : typed.
#[local] Hint Resolve ct_id ct_peers rt_config rt_term rt_vote rt_log rt_commit mt_from mt_term : typed.

Lemma others_typed r p : raft_typed r → p ∈ others r → is_u64 p.
Proof.
  intros Hr [_ Hp]%list_elem_of_filter. revert p Hp. apply Forall_forall, Hr.
Qed.

Lemma append_msg_typed r p : raft_typed r → p ∈ others r → message_typed (append_msg r p).
Proof.
  intros Hr Hp. pose proof (others_typed r p Hr Hp). unfold append_msg. auto 6 with typed.
Qed.

Lemma BroadcastAppendEntries_typed r : raft_typed r → raft_typed (BroadcastAppendEntries r).
Proof.
  intros Hr. rewrite BroadcastAppendEntries_eq. apply sends_typed; [done|].
  intros p Hp. by apply append_msg_typed.
Qed.

Lemma insert_all_typed x ps : is_u64 x → (∀ p, p ∈ ps → is_u64 p) →
  map_Forall (λ p i, is_u64 p ∧ is_u64 i) (foldr (λ p, <[p := x]>) (∅ : gmap Z Z) ps).
Proof.
  intros Hx Hps p i. rewrite insert_all_lookup. case_decide as Hp; [|done].
  intros [= <-]. split; [by apply Hps|done].
Qed.

Lemma BecomeLeader_typed r : raft_typed r → raft_typed (BecomeLeader r).
Proof.
  intros Hr. rewrite BecomeLeader_eq. apply BroadcastAppendEntries_typed.
  assert (∀ p, p ∈ reverse (others r) → is_u64 p) as Hp
    by (intros p Hp; rewrite elem_of_reverse in Hp; exact (others_typed r p Hr Hp)).
  destruct Hr. unfold leader_state. split; simpl; try assumption.
  all: try (apply insert_all_typed; [|done]); auto with typed.
Qed.

Lemma BecomeFollower_typed t leader r : raft_typed r → is_u64 t → is_u64 leader →
  raft_typed (BecomeFollower t leader r).
Proof.
  intros [] Ht Hl. unfold BecomeFollower. destruct (_ <? _); split; simpl; auto with typed.
Qed.

Lemma BecomeCandidate_typed r : raft_typed r → raft_typed (BecomeCandidate r).
Proof.
  intros Hr. rewrite BecomeCandidate_eq. cbv zeta.
  assert (raft_typed (candidate_state r)) as Hc.
  { destruct Hr as [[]]. unfold candidate_state. split; simpl; auto with typed. by constructor. }
  destruct (_ <=? 1); [by apply BecomeLeader_typed|]. apply sends_typed; [done|].
  intros p Hp. pose proof (others_typed _ p Hc Hp). unfold vote_msg. auto with typed.
Qed.

Lemma MaybeCommit_typed r : raft_typed r → raft_typed (MaybeCommit r).
Proof.
  intros Hr. destruct (MaybeCommit_cases r) as [->|(c & -> & Hc & _)]; [done|].
  pose proof (LastIndex_typed r) as Hl. destruct Hr. split; try done.
  simpl. unfold is_u64 in *. lia.
Qed.

Lemma HandleRequestVote_typed msg r : raft_typed r → message_typed msg →
  raft_typed (HandleRequestVote msg r).
Proof.
  intros Hr Hm. unfold HandleRequestVote. cbv zeta. set (granted := _ && _).
  apply Send_typed.
  - destruct Hr, Hm. destruct granted; split; simpl; auto with typed.
  - auto with typed.
Qed.

Lemma append_entry_typed r e : raft_typed r → entry_typed e → raft_typed (append_entry r e).
Proof.
  intros [] He. unfold append_entry.
  assert (∀ l, Forall entry_typed l → Forall entry_typed (l ++ [e])) as Happ
    by (intros l Hl; by apply Forall_snoc_2).
  destruct (_ <=? _); [destruct (_ =? _); [by split|destruct (_ <=? _)]|];
    split; simpl; auto using Forall_take with typed.
Qed.

Lemma append_entries_typed r es : raft_typed r → Forall entry_typed es → raft_typed (append_entries r es).
Proof.
  intros Hr Hes. revert r Hr. unfold append_entries.
  induction Hes as [|e es He Hes IH]; intros r Hr; [done|]. simpl. by apply IH, append_entry_typed.
Qed.

Lemma HandleAppendEntries_typed msg r : raft_typed r → message_typed msg →
  raft_typed (HandleAppendEntries msg r).
Proof.
  intros Hr Hm. unfold HandleAppendEntries. cbv zeta.
  set (r1 := set_election_elapsed 0 (set_leader (m_from msg) r)).
  assert (raft_typed r1) as Hr1 by (destruct Hr, Hm; split; simpl; auto with typed).
  assert (∀ b z, is_u64 z → message_typed
    (AppendEntriesResp (id (config_ r1)) (m_from msg) (current_term_ r1) b z)) as Hresp.
  { auto with typed. }
  destruct (_ || _); [by apply Send_typed; [|apply Hresp]|].
  fold (append_entries r1 (entries msg)). apply Send_typed; [|apply Hresp; auto with typed].
  pose proof (append_entries_typed r1 (entries msg) Hr1 (mt_entries _ Hm)) as Hr2.
  pose proof (LastIndex_typed (append_entries r1 (entries msg))) as Hl.
  destruct (_ <? _); [|done]. destruct Hr2, Hm. split; try done. simpl. unfold is_u64 in *. lia.
Qed.

Lemma HandleAppendEntriesResp_typed msg r : raft_typed r → message_typed msg →
  raft_typed (HandleAppendEntriesResp msg r).
Proof.
  intros Hr Hm. unfold HandleAppendEntriesResp. destruct (success msg).
  - apply MaybeCommit_typed. destruct Hr, Hm. split; simpl; auto with typed;
      by apply map_Forall_insert_2; [split; auto with typed|].
  - destruct (_ <? peer_index _ _) eqn:Hnext; [apply Z.ltb_lt in Hnext|done].
    pose proof (peer_index_typed _ (m_from msg) (rt_next _ Hr)). destruct Hr, Hm.
    split; simpl; auto. apply map_Forall_insert_2; [|done]. unfold is_u64 in *. lia.
Qed.

Lemma StepRole_typed msg r : raft_typed r → message_typed msg → raft_typed (StepRole msg r).
Proof.
  intros Hr Hm. pose proof Hm as [Hfrom _ Hterm _ _ _ _ _ _ _].
  unfold StepRole, StepFollower, StepCandidate, StepLeader.
  destruct (role_ r), (m_type msg); try done;
    auto using HandleRequestVote_typed, HandleAppendEntries_typed, HandleAppendEntriesResp_typed, BecomeFollower_typed.
  destruct (vote_granted msg); [|done]. cbv zeta.
  set (r1 := if bool_decide _ then r else _).
  assert (raft_typed r1) as Hr1.
  { unfold r1. case_bool_decide; [done|]. destruct Hr. split; simpl; auto.
    by apply Forall_snoc_2. }
  destruct (_ <=? _); [by apply BecomeLeader_typed|done].
Qed.

Lemma Step_typed msg r : raft_typed r → message_typed msg → raft_typed (Step msg r).
Proof.
  intros Hr Hm. pose proof Hm as [Hfrom _ Hterm _ _ _ _ _ _ _]. unfold Step. cbv zeta.
  destruct (_ <? _); [|destruct (_ <? _); [|by apply StepRole_typed]].
  - apply StepRole_typed; [|done]. apply BecomeFollower_typed; [done..|]. by case_decide.
  - unfold RejectStale. destruct (m_type msg); try done; apply Send_typed; auto with typed.
Qed.

Lemma Tick_typed r : raft_typed r → raft_typed (Tick r).
Proof.
  intros Hr. unfold Tick. cbv zeta. cbn [config_ set_heartbeat_elapsed heartbeat_elapsed_
    set_election_elapsed election_elapsed_].
  assert (raft_typed (set_election_elapsed 0 r)) as He
    by (destruct Hr; split; simpl; auto with typed).
  destruct (role_ r).
  1,2: destruct (Z.leb_spec (election_timeout (config_ r)) (election_elapsed_ r + 1)).
  - change (BecomeCandidate (set_election_elapsed (election_elapsed_ r + 1) r))
      with (BecomeCandidate (set_election_elapsed 0 r)). by apply BecomeCandidate_typed.
  - destruct Hr. split; simpl; auto. unfold counts_to in *. lia.
  - change (BecomeCandidate (set_election_elapsed (election_elapsed_ r + 1) r))
      with (BecomeCandidate (set_election_elapsed 0 r)). by apply BecomeCandidate_typed.
  - destruct Hr. split; simpl; auto. unfold counts_to in *. lia.
  - destruct (Z.leb_spec (heartbeat_timeout (config_ r)) (heartbeat_elapsed_ r + 1)).
    + apply BroadcastAppendEntries_typed. destruct Hr. split; simpl; auto with typed.
    + destruct Hr. split; simpl; auto. unfold counts_to in *. lia.
Qed.

Lemma Propose_typed data r : raft_typed r → raft_typed (Propose data r).2.
Proof.
  intros Hr. unfold Propose. destruct (role_ r); [done..|]. simpl. apply MaybeCommit_typed.
  destruct Hr. split; try done. apply Forall_snoc_2; [done|]. split; simpl; auto with typed.
Qed.

Lemma Restore_typed term vote es r : raft_typed r → is_u64 term → is_u64 vote →
  Forall entry_typed es → raft_typed (Restore term vote es r).
Proof.
  intros Hr Ht Hv Hes. unfold Restore. cbv zeta.
  assert (raft_typed (set_voted_for vote (set_current_term term r))) as Hr1
    by (destruct Hr; by split).
  revert Hr1. generalize (set_voted_for vote (set_current_term term r)). clear r Hr.
  induction Hes as [|e es He Hes IH]; intros r Hr; simpl.
  - destruct Hr. split; simpl; auto with typed.
  - apply IH. destruct Hr. split; try done. by apply Forall_snoc_2.
Qed.

(** ** Clients *)

(** The calls of the public methods that change a node, with arguments of the
    right types: those a driver and a storage make. *)
Inductive client_call (r : Raft) : Raft → Prop :=
  | cc_step msg : message_typed msg → client_call r (Step msg r)
  | cc_tick : client_call r (Tick r)
  | cc_propose data : client_call r (Propose data r).2
  | cc_take_messages : client_call r (TakeMessages r).2
  | cc_take_committed : client_call r (TakeCommitted r).2
  | cc_restore term vote es : is_u64 term → is_u64 vote → Forall entry_typed es →
      client_call r (Restore term vote es r)
  | cc_set_stable_index index : is_u64 index → client_call r (set_stable_index index r)
  | cc_clear_hard_state_dirty : client_call r (set_hard_state_dirty false r).

Lemma client_call_typed r r' : client_call r r' → raft_typed r → raft_typed r'.
Proof.
  intros Hc Hr. destruct Hc; auto using Step_typed, Tick_typed, Propose_typed, Restore_typed;
    destruct Hr; by split.
Qed.

Lemma Raft_new_typed config : config_typed config → raft_typed (Raft_new config).
Proof.
  intros Hc. split; simpl; auto with typed; by repeat constructor.
Qed.


