(* ===== verification/RaftCluster.v ===== *)
(** * Clusters of Raft nodes

    Nodes that run the methods of [Raft.v] over a network that loses, duplicates
    and reorders messages.  As storage.h asks of the driver, what a call changed
    is persisted before its messages are delivered.  A node may restart, and it
    may crash while it persists: [partly_saved] is what may then be on disk,
    which [StorageTheorems.v] proves of [RaftStorage].  [exec] runs a list of
    events. *)

From S2P Require Import Prelude Raft RaftModel.
Local Open Scope Z_scope.

(** What a successful [RaftStorage::Save] does to the node. *)
Definition saved (r : Raft) : Raft :=
  set_stable_index (LastIndex r) (set_hard_state_dirty false r).

(** The term, the vote and the log that may be on disk after a crash during the
    [Save] of a node that a call took from [r], which was saved, to [r']: what
    was there, also the new hard state, also the new log up to some index from
    the watermark on. *)
Inductive partly_saved (r r' : Raft) : Z → Z → list LogEntry → Prop :=
  | ps_nothing : partly_saved r r' (current_term_ r) (voted_for_ r) (log_ r)
  | ps_hard_state : partly_saved r r' (current_term_ r') (voted_for_ r') (log_ r)
  | ps_entries (m : nat) : stable_index_ r' ≤ Z.of_nat m →
      partly_saved r r' (current_term_ r') (voted_for_ r') (take (S m) (log_ r')).

(** A node that starts with what was on disk. *)
Definition restarted (config : Config) (term vote : Z) (log : list LogEntry) : Raft :=
  Restore term vote (drop 1 log) (Raft_new config).

Section cluster.
Context (peers : list Z) (election_ticks heartbeat_ticks : Z → Z).

(** ** Clusters *)

Definition cfg (i : Z) : Config := mkConfig i peers (election_ticks i) (heartbeat_ticks i).

(** The calls on node [i], in state [r] and with the entries [ap] handed to its
    state machine since it started: the new state and entries. *)
Inductive node_call (network : list Message) (i : Z) (r : Raft) (ap : list LogEntry)
    : Raft → list LogEntry → Prop :=
  | op_tick : node_call network i r ap (Tick r) ap
  | op_step msg : msg ∈ network → m_to msg = i → node_call network i r ap (Step msg r) ap
  | op_propose data : node_call network i r ap (Propose data r).2 ap
  | op_apply : node_call network i r ap (TakeCommitted r).2 (ap ++ (TakeCommitted r).1).

(** What may happen to a node: a call, a restart, or a call and a crash before
    its effects were persisted. *)
Inductive node_op (network : list Message) (i : Z) (r : Raft) (ap : list LogEntry)
    : Raft → list LogEntry → Prop :=
  | op_call r' ap' : node_call network i r ap r' ap' → node_op network i r ap r' ap'
  | op_restart :
      node_op network i r ap (restarted (config_ r) (current_term_ r) (voted_for_ r) (log_ r)) []
  | op_crash r' ap' t v l : node_call network i r ap r' ap' → partly_saved r r' t v l →
      node_op network i r ap (restarted (config_ r) t v l) [].

(** The nodes, what [TakeCommitted] returned on each since it started, all
    messages ever sent, and all states nodes were in after a call. *)
Record cluster : Type := mkCluster {
  servers : Z → Raft;
  applied : Z → list LogEntry;
  network : list Message;
  seen : list (Z * Raft);
}.

Definition cluster_init : cluster :=
  mkCluster (λ i, Raft_new (cfg i)) (λ _, []) [] ((λ i, (i, Raft_new (cfg i))) <$> peers).

(** The cluster after a call that left node [i] in state [r]: the node is saved
    and its messages are sent. *)
Definition after_call (c : cluster) (i : Z) (r : Raft) (ap : list LogEntry) : cluster :=
  let '(msgs, r') := TakeMessages (saved r) in
  mkCluster (<[i := r']> (servers c)) (<[i := ap]> (applied c)) (network c ++ msgs)
    (seen c ++ [(i, r')]).

Inductive cluster_step (c : cluster) : cluster → Prop :=
  | cluster_call i r ap :
      i ∈ peers → node_op (network c) i (servers c i) (applied c i) r ap →
      cluster_step c (after_call c i r ap).

(** ** Running events *)

Inductive call : Type :=
  | CTick (i : Z) | CDeliver (k : nat) | CPropose (i : Z) (data : bytes) | CApply (i : Z).

(** A crash after a call persisted the hard state only, or also entries up to
    index [m]. *)
Inductive event : Type :=
  | ECall (a : call) | ERestart (i : Z) | ECrash (a : call) (upto : option nat).

(** The node a call is about and what the call leaves it with. *)
Definition call_of (c : cluster) (a : call) : option (Z * Raft * list LogEntry) :=
  match a with
  | CTick i => Some (i, Tick (servers c i), applied c i)
  | CDeliver k =>
      msg ← network c !! k;
      Some (m_to msg, Step msg (servers c (m_to msg)), applied c (m_to msg))
  | CPropose i data => Some (i, (Propose data (servers c i)).2, applied c i)
  | CApply i =>
      let '(es, r) := TakeCommitted (servers c i) in Some (i, r, applied c i ++ es)
  end.

(** The same for an event. *)
Definition op_of (c : cluster) (e : event) : option (Z * Raft * list LogEntry) :=
  match e with
  | ECall a => call_of c a
  | ERestart i =>
      let r := servers c i in
      Some (i, restarted (config_ r) (current_term_ r) (voted_for_ r) (log_ r), [])
  | ECrash a upto =>
      '(i, r', _) ← call_of c a;
      let restart := restarted (config_ (servers c i)) (current_term_ r') (voted_for_ r') in
      match upto with
      | None => Some (i, restart (log_ (servers c i)), [])
      | Some m =>
          if stable_index_ r' <=? Z.of_nat m then Some (i, restart (take (S m) (log_ r')), [])
          else None
      end
  end.

Definition exec_event (c : cluster) (e : event) : option cluster :=
  '(i, r, ap) ← op_of c e;
  if bool_decide (i ∈ peers) then Some (after_call c i r ap) else None.

Fixpoint exec (es : list event) (c : cluster) : option cluster :=
  match es with
  | [] => Some c
  | e :: es => c' ← exec_event c e; exec es c'
  end.

Lemma call_of_call c a i r ap :
  call_of c a = Some (i, r, ap) → node_call (network c) i (servers c i) (applied c i) r ap.
Proof.
  destruct a as [j|k|j data|j]; simpl; try (intros [= <- <- <-]; constructor).
  destruct (network c !! k) as [msg|] eqn:E; simpl; [|done]. intros [= <- <- <-].
  apply op_step; [by eapply list_elem_of_lookup_2|done].
Qed.

Lemma op_of_op c e i r ap :
  op_of c e = Some (i, r, ap) → node_op (network c) i (servers c i) (applied c i) r ap.
Proof.
  destruct e as [a|j|a upto]; simpl.
  - intros H%call_of_call. by apply op_call.
  - intros [= <- <- <-]. apply op_restart.
  - destruct (call_of c a) as [[[j r'] ap']|] eqn:E; simpl; [|done]. apply call_of_call in E.
    destruct upto as [m|].
    + destruct (Z.leb_spec (stable_index_ r') (Z.of_nat m)); [|done]. intros [= <- <- <-].
      eapply op_crash; [done|by apply ps_entries].
    + intros [= <- <- <-]. eapply op_crash; [done|apply ps_hard_state].
Qed.

Lemma exec_steps es c c' : exec es c = Some c' → nsteps cluster_step (length es) c c'.
Proof.
  revert c. induction es as [|e es IH]; intros c; simpl; [intros [= <-]; constructor|].
  destruct (exec_event c e) as [c1|] eqn:E; simpl; [|done]. intros Hes.
  apply nsteps_l with c1; [|by apply IH]. unfold exec_event in E.
  destruct (op_of c e) as [[[i r] ap]|] eqn:Ec; simpl in E; [|done].
  case_bool_decide as Hi; [|done]. injection E as <-.
  apply (cluster_call c i r ap Hi). by eapply op_of_op.
Qed.
End cluster.
