(* ===== verification/RaftEntries.v ===== *)
(** * Where the entries of a node come from

    A node makes no entries up: whatever holds of the entries of its log, of the
    messages it is given and of the entry it is asked to propose holds of the
    entries of its log and of its messages afterwards. *)

From S2P Require Import Prelude Raft RaftModel RaftNode RaftCluster.
Local Open Scope Z_scope.

Section entries.
Context (P : LogEntry → Prop) (P_sentinel : P sentinel).
Implicit Types (r : Raft) (msg : Message).

Record carries r : Prop := {
  ca_log : Forall P (log_ r);
  ca_msgs : Forall (λ m, Forall P (entries m)) (out_msgs_ r);
}.

Lemma carries_same r r' :
  carries r → log_ r' = log_ r → out_msgs_ r' = out_msgs_ r → carries r'.
Proof. intros [] El Em. split; by rewrite ?El, ?Em. Qed.

Lemma carries_sends r r' ms :
  carries r → log_ r' = log_ r → out_msgs_ r' = out_msgs_ r ++ ms →
  Forall (λ m, Forall P (entries m)) ms → carries r'.
Proof. intros [] El Em Hms. split; rewrite ?El, ?Em; [done|]. by apply Forall_app. Qed.

Lemma carries_entry_at k r : carries r → P (entry_at k r).
Proof.
  intros [Hl _]. unfold entry_at. destruct (log_ r !! Z.to_nat k) as [e|] eqn:E.
  - rewrite (list_lookup_total_correct _ _ _ E). by eapply Forall_lookup_1.
  - rewrite list_lookup_total_alt, E. exact P_sentinel.
Qed.

Lemma append_msg_carries r p : carries r → Forall P (entries (append_msg r p)).
Proof. intros Hr. apply Forall_fmap, Forall_forall. intros k _. by apply carries_entry_at. Qed.

Lemma BroadcastAppendEntries_carries r : carries r → carries (BroadcastAppendEntries r).
Proof.
  intros Hr. rewrite BroadcastAppendEntries_eq.
  apply (carries_sends r _ (append_msg r <$> others r)); [done..|].
  apply Forall_fmap, Forall_forall. intros p _. by apply append_msg_carries.
Qed.

Lemma BecomeLeader_carries r : carries r → carries (BecomeLeader r).
Proof.
  intros Hr. rewrite BecomeLeader_eq. apply BroadcastAppendEntries_carries.
  by apply (carries_same r).
Qed.

Lemma BecomeFollower_carries t leader r : carries r → carries (BecomeFollower t leader r).
Proof. intros Hr. unfold BecomeFollower. destruct (_ <? _); by apply (carries_same r). Qed.

Lemma BecomeCandidate_carries r : carries r → carries (BecomeCandidate r).
Proof.
  intros Hr. rewrite BecomeCandidate_eq. cbv zeta.
  assert (carries (candidate_state r)) as Hc by by apply (carries_same r).
  destruct (_ <=? 1); [by apply BecomeLeader_carries|].
  apply (carries_sends (candidate_state r) _ (vote_msg (candidate_state r) <$> others (candidate_state r)));
    [done..|]. apply Forall_fmap, Forall_forall. intros p _. constructor.
Qed.

Lemma MaybeCommit_carries r : carries r → carries (MaybeCommit r).
Proof. intros Hr. destruct (MaybeCommit_cases r) as [->|(c & -> & _)]; by apply (carries_same r). Qed.

Lemma HandleRequestVote_carries msg r : carries r → carries (HandleRequestVote msg r).
Proof.
  intros Hr. unfold HandleRequestVote. cbv zeta.
  destruct (_ && _); (eapply (carries_sends r); [done..|by repeat constructor]).
Qed.

Lemma append_entries_carries r es : carries r → Forall P es → carries (append_entries r es).
Proof.
  intros Hr Hes. revert r Hr. unfold append_entries.
  induction Hes as [|e es He Hes IH]; intros r [Hl Hm]; [done|]. simpl. apply IH.
  assert (∀ l, Forall P l → Forall P (l ++ [e])) as Happ
    by (intros l Hl'; apply Forall_app; split; [done|by apply Forall_singleton]).
  unfold append_entry. destruct (_ <=? _); [destruct (_ =? _); [done|destruct (_ <=? _)]|];
    split; simpl; auto using Forall_take.
Qed.

Lemma HandleAppendEntries_carries msg r : carries r → Forall P (entries msg) →
  carries (HandleAppendEntries msg r).
Proof.
  intros Hr Hes. unfold HandleAppendEntries. cbv zeta.
  set (r1 := set_election_elapsed 0 (set_leader (m_from msg) r)).
  assert (carries r1) as Hr1 by by apply (carries_same r).
  destruct (_ || _); [eapply (carries_sends r1); [done..|by repeat constructor]|].
  fold (append_entries r1 (entries msg)). pose proof (append_entries_carries r1 _ Hr1 Hes) as Hr2.
  destruct (_ <? _); (eapply (carries_sends (append_entries r1 (entries msg)));
    [done..|by repeat constructor]).
Qed.

Lemma HandleAppendEntriesResp_carries msg r : carries r → carries (HandleAppendEntriesResp msg r).
Proof.
  intros Hr. unfold HandleAppendEntriesResp. destruct (success msg).
  - apply MaybeCommit_carries. by apply (carries_same r).
  - destruct (_ <? peer_index _ _); by apply (carries_same r).
Qed.

Lemma StepRole_carries msg r : carries r → Forall P (entries msg) → carries (StepRole msg r).
Proof.
  intros Hr Hm. unfold StepRole, StepFollower, StepCandidate, StepLeader.
  destruct (role_ r), (m_type msg); try done;
    auto using HandleRequestVote_carries, HandleAppendEntries_carries,
      HandleAppendEntriesResp_carries, BecomeFollower_carries.
  destruct (vote_granted msg); [|done]. cbv zeta. set (r1 := if bool_decide _ then r else _).
  assert (carries r1) as Hr1 by (unfold r1; case_bool_decide; by apply (carries_same r)).
  destruct (_ <=? _); [by apply BecomeLeader_carries|done].
Qed.

Lemma Step_carries msg r : carries r → Forall P (entries msg) → carries (Step msg r).
Proof.
  intros Hr Hm. unfold Step. cbv zeta. destruct (_ <? _); [|destruct (_ <? _)].
  - apply StepRole_carries; [by apply BecomeFollower_carries|done].
  - unfold RejectStale.
    destruct (m_type msg); try done; (eapply (carries_sends r); [done..|by repeat constructor]).
  - by apply StepRole_carries.
Qed.

Lemma Tick_carries r : carries r → carries (Tick r).
Proof.
  intros Hr. unfold Tick. cbv zeta.
  destruct (role_ r); (destruct (_ <=? _); [|by apply (carries_same r)]).
  1,2: apply BecomeCandidate_carries; by apply (carries_same r).
  apply BroadcastAppendEntries_carries. by apply (carries_same r).
Qed.

Lemma Propose_carries data r :
  carries r → P (mkLogEntry (current_term_ r) (u64 (LastIndex r + 1)) data) →
  carries (Propose data r).2.
Proof.
  intros [Hl Hm] He. unfold Propose. destruct (role_ r); [by split..|]. simpl.
  apply MaybeCommit_carries. split; [|done]. simpl. apply Forall_app. split; [done|].
  by apply Forall_singleton.
Qed.

(** The messages that a node sends when it has been saved. *)
Lemma settled_carries r : carries r →
  carries (TakeMessages (saved r)).2 ∧ Forall (λ m, Forall P (entries m)) (TakeMessages (saved r)).1.
Proof. intros [Hl Hm]. by split; [split|]. Qed.
End entries.
