(* ===== verification/RaftRefine.v ===== *)
(** * The C++ Raft nodes refine the protocol

    Every call on a node of a cluster ([RaftCluster.v]) performs a sequence of
    actions of the protocol ([RaftModel.v]). *)

From S2P Require Import Prelude Raft RaftModel RaftElection RaftLogs RaftCommit RaftNode RaftCluster.
Local Open Scope Z_scope.

Section cluster.
Context (peers : list Z) (election_ticks heartbeat_ticks : Z → Z).
Context (peers_nodup : NoDup peers) (peers_pos : ∀ p, p ∈ peers → 0 < p).
Abbreviation action := (action peers).
Abbreviation astep := (astep peers).
Abbreviation safe := (safe peers).
Abbreviation cfg := (cfg peers election_ticks heartbeat_ticks).
Abbreviation cluster_step := (cluster_step peers).
Abbreviation cluster_init := (cluster_init peers election_ticks heartbeat_ticks).
Implicit Types (i j : Z) (n : node) (r : Raft) (a : astate).

(** ** The simulation relation *)

Record core_rel (r : Raft) (n : node) : Prop := {
  core_term : term n = current_term_ r;
  core_vote : vote n = voted_for_ r;
  core_role : nrole n = role_ r;
  core_log : nlog n = log_ r;
  core_commit : commit_index_ r = Z.of_nat (commit n);
  core_votes : role_ r ≠ kFollower → votes n = votes_granted_ r;
  core_match : role_ r = kLeader →
    ∀ j, peer_index (match_index_ r) j = Z.of_nat (matched n j);
}.

(** The next index of every peer is one of the log, or the one after it. *)
Record node_ok (i : Z) (r : Raft) : Prop := {
  ok_config : config_ r = cfg i;
  ok_next : role_ r = kLeader → ∀ p, p ∈ others r →
    ∃ k, (k < length (log_ r))%nat ∧ peer_index (next_index_ r) p = Z.of_nat (S k);
}.

(** A message of the program stands for one of the protocol; refusals stand for
    none. *)
Definition msg_ok (N : Z) (sp : list amsg) (m : Message) : Prop :=
  m_term m ≤ N ∧
  match m_type m with
  | kRequestVote => ∃ k, last_log_index m = Z.of_nat k ∧
      MVote (m_from m) (m_to m) (m_term m) k (last_log_term m) ∈ sp
  | kRequestVoteResp => vote_granted m = true → MGrant (m_from m) (m_to m) (m_term m) ∈ sp
  | kAppendEntries => ∃ p lc, prev_log_index m = Z.of_nat p ∧ leader_commit m = Z.of_nat lc ∧
      MAppend (m_from m) (m_to m) (m_term m) p (prev_log_term m) (entries m) lc ∈ sp
  | kAppendEntriesResp => success m = true → ∃ k, m_match_index m = Z.of_nat k ∧
      MAck (m_from m) (m_to m) (m_term m) k ∈ sp
  end.

Lemma msg_ok_mono N N' sp sp' m : N ≤ N' → sp ⊆ sp' → msg_ok N sp m → msg_ok N' sp' m.
Proof.
  intros HN Hs [Ht Hm]. split; [lia|]. destruct (m_type m).
  - destruct Hm as (k & ? & ?). eauto.
  - auto.
  - destruct Hm as (p & lc & ? & ? & ?). exists p, lc. auto.
  - intros H. destruct (Hm H) as (k & ? & ?). eauto.
Qed.

(** Terms and logs stay below a bound that grows with the number of calls. *)
Definition bounded (N : Z) (a : astate) : Prop :=
  ∀ i n, (i, n) ∈ hist a → term n ≤ N ∧ Z.of_nat (length (nlog n)) ≤ N + 1.

(** Node [i] is in state [r], possibly in the middle of a call, and the
    protocol is in state [a]. *)
Record sim (N : Z) (i : Z) (r : Raft) (a : astate) : Prop := {
  sim_safe : safe a;
  sim_bounded : bounded N a;
  sim_core : core_rel r (nodes a i);
  sim_ok : node_ok i r;
  sim_msgs : Forall (msg_ok N (soup a)) (out_msgs_ r);
}.

(** [a'] is reached from [a] by actions of node [i]. *)
Record extends (i : Z) (a a' : astate) : Prop := {
  ext_steps : rtc astep a a';
  ext_nodes : ∀ j, j ≠ i → nodes a' j = nodes a j;
  ext_soup : soup a ⊆ soup a';
  ext_hist : hist a ⊆ hist a';
}.

#[local] Instance extends_preorder i : PreOrder (extends i).
Proof.
  split.
  - by intros a.
  - intros a1 a2 a3 [R1 N1 S1 H1] [R2 N2 S2 H2].
    split; [by etrans| |by intros x ?; auto..].
    intros j Hj. by rewrite N2, N1.
Qed.

(** A method that turns [r] into [r'] can be followed by the protocol, with the
    messages of [sp] available. *)
Definition follows (N N' : Z) (i : Z) (sp : list amsg) (r r' : Raft) : Prop :=
  ∀ a, sp ⊆ soup a → sim N i r a → ∃ a', extends i a a' ∧ sim N' i r' a'.

Lemma follows_trans N1 N2 N3 i sp r1 r2 r3 :
  follows N1 N2 i sp r1 r2 → follows N2 N3 i sp r2 r3 → follows N1 N3 i sp r1 r3.
Proof.
  intros H1 H2 a Hs Ha. destruct (H1 a Hs Ha) as (a1 & E1 & S1).
  destruct (H2 a1) as (a2 & E2 & S2); [|done|].
  - etrans; [done|apply E1].
  - exists a2. split; [by etrans|done].
Qed.

(** One action of the protocol. *)
Lemma follow_action N N' i r r' a n' out new :
  sim N i r a → i ∈ peers → action i (soup a) (nodes a i) n' out → N ≤ N' →
  term n' ≤ N' → Z.of_nat (length (nlog n')) ≤ N' + 1 →
  core_rel r' n' → node_ok i r' →
  out_msgs_ r' = out_msgs_ r ++ new → Forall (msg_ok N' (soup a ++ out)) new →
  ∃ a', extends i a a' ∧ sim N' i r' a'.
Proof.
  intros [Hsafe Hb Hc Hok Hm] Hi Ha HN Ht Hl Hc' Hok' Eout Hnew.
  assert (astep a (mkAstate (<[i := n']> (nodes a)) (soup a ++ out) (hist a ++ [(i, n')])))
    as Hstep by by constructor.
  eexists. split; [split; [by apply rtc_once| |apply subset_app..]|].
  - intros j Hj. simpl. by rewrite fn_lookup_insert_ne.
  - split; [by eapply safe_step| | |done|].
    + intros j n Hn. simpl in Hn. hist_cases Hn; [|done]. destruct (Hb j n Hn). lia.
    + simpl. by rewrite fn_lookup_insert.
    + rewrite Eout. apply Forall_app. split; [|done].
      eapply Forall_impl; [done|]. intros m. apply msg_ok_mono; [done|apply subset_app].
Qed.

(** Fields the protocol does not see. *)
Lemma core_rel_frame r r' n : core_rel r n →
  current_term_ r' = current_term_ r → voted_for_ r' = voted_for_ r → role_ r' = role_ r →
  log_ r' = log_ r → commit_index_ r' = commit_index_ r → votes_granted_ r' = votes_granted_ r →
  match_index_ r' = match_index_ r → core_rel r' n.
Proof. by intros [] E1 E2 E3 E4 E5 E6 E7; split; rewrite ?E1, ?E2, ?E3, ?E4, ?E5, ?E6, ?E7. Qed.

Lemma node_ok_frame i r r' : node_ok i r → config_ r' = config_ r → role_ r' = role_ r →
  log_ r' = log_ r → next_index_ r' = next_index_ r → node_ok i r'.
Proof.
  unfold others. intros [E Hn] E1 E2 E3 E4. split; [congruence|].
  unfold others. rewrite E1, E2, E3, E4. apply Hn.
Qed.

Lemma follow_frame N i sp r r' :
  (∀ n, core_rel r n → core_rel r' n) → (node_ok i r → node_ok i r') →
  (∀ sp', Forall (msg_ok N sp') (out_msgs_ r) → Forall (msg_ok N sp') (out_msgs_ r')) →
  follows N N i sp r r'.
Proof. intros Hc Hn Hm a _ [S B C O M]. exists a. split; [done|]. split; auto. Qed.

(** The log of a node that is being followed. *)
Lemma sim_log N i r a : sim N i r a → i ∈ peers → N < 2 ^ 62 →
  log_fits r ∧ (i, nodes a i) ∈ hist a ∧ log_wf (nodes a i) ∧
  Z.of_nat (length (log_ r)) ≤ N + 1 ∧ current_term_ r ≤ N.
Proof.
  intros [[HI HL _ _] Hb Hc _ _] Hi HN. pose proof (inv_cur _ _ HI i Hi) as Hin.
  pose proof (lg_wf _ HL _ _ Hin) as Hwf. destruct (Hb _ _ Hin) as [Ht Hl].
  rewrite (core_log _ _ Hc) in Hl. rewrite (core_term _ _ Hc) in Ht.
  split_and!; [|done..]. split; [|lia]. rewrite <-(core_log _ _ Hc).
  intros E. pose proof (wf_sentinel _ Hwf) as H0. by rewrite E in H0.
Qed.

(** ** The methods *)

Section methods.
Context (N : Z) (HN : N < 2 ^ 62) (i : Z) (Hi : i ∈ peers) (sp : list amsg).

(** Sending a refusal, which the protocol does not see. *)
Lemma follow_refusal m r : m_term m ≤ N →
  m_type m = kRequestVoteResp ∧ vote_granted m = false ∨
  m_type m = kAppendEntriesResp ∧ success m = false →
  follows N N i sp r (Send m r).
Proof.
  intros Ht Hm. apply follow_frame.
  - intros n Hc. by apply (core_rel_frame r).
  - intros Hok. by apply (node_ok_frame i r).
  - intros sp' Hf. simpl. apply Forall_app. split; [done|]. apply Forall_singleton.
    split; [done|]. by destruct Hm as [[-> ->]|[-> ->]].
Qed.

Lemma follow_BecomeFollower t leader r : t ≤ N → follows N N i sp r (BecomeFollower t leader r).
Proof.
  intros Ht a _ Hsim. destruct (sim_log N i r a Hsim Hi HN) as (_ & _ & _ & Hl & Hct).
  pose proof Hsim as [_ _ Hc Hok _]. unfold BecomeFollower.
  destruct (Z.ltb_spec (current_term_ r) t) as [Hlt|Hge].
  - eapply (follow_action N N i r _ a _ [] []); [done|done|apply (a_adopt _ _ _ _ t)|done|..];
      rewrite ?(core_term _ _ Hc), ?(core_log _ _ Hc); try done.
    + split; simpl; try done; apply Hc.
    + split; [apply Hok|done].
    + by rewrite app_nil_r.
  - eapply (follow_action N N i r _ a _ [] []);
      [done|done|apply (a_stepdown _ _ _ _ (commit (nodes a i))); by left|done|..];
      simpl; rewrite ?(core_term _ _ Hc), ?(core_log _ _ Hc); try done.
    + split; simpl; try done; apply Hc.
    + split; [apply Hok|done].
    + by rewrite app_nil_r.
Qed.

Lemma follow_HandleRequestVote msg r :
  msg_ok N sp msg → m_type msg = kRequestVote → m_to msg = i → m_term msg = current_term_ r →
  follows N N i sp r (HandleRequestVote msg r).
Proof.
  intros [Ht Hm] Htype Hto Hterm. rewrite Htype, Hto, Hterm in Hm. destruct Hm as (k & Hk & Hm).
  intros a Hsp Hsim. destruct (sim_log N i r a Hsim Hi HN) as (Hf & _ & _ & Hl & Hct).
  pose proof Hsim as [_ _ Hc Hok _]. unfold HandleRequestVote.
  destruct (_ && _) eqn:Hg; [|by eapply follow_refusal; eauto].
  apply andb_true_iff in Hg as [Hv Hup].
  rewrite orb_true_iff, !Z.eqb_eq in Hv.
  rewrite orb_true_iff, andb_true_iff, Z.ltb_lt, Z.leb_le, Z.eqb_eq in Hup.
  rewrite Hk, (LastIndex_eq r Hf), LastTerm_eq in Hup.
  eapply (follow_action N N i r _ a _ _ [_]);
    [done|done|apply (a_grant _ _ _ _ (m_from msg) k (last_log_term msg))|done|..];
    simpl; rewrite ?(core_term _ _ Hc), ?(core_log _ _ Hc), ?(core_vote _ _ Hc); try done.
  - by apply Hsp.
  - destruct Hup as [?|[? ?]]; [by left|right]. split; [done|lia].
  - split; simpl; try done; apply Hc.
  - by apply (node_ok_frame i r).
  - apply Forall_singleton. split; simpl; [done|]. intros _. rewrite (ok_config _ _ Hok). simpl.
    apply elem_of_app. right. by apply list_elem_of_singleton.
Qed.

(** *** Replication *)

(** The message to a peer is the one the protocol sends. *)
Lemma append_msg_ok r p k : log_fits r → (k < length (log_ r))%nat →
  peer_index (next_index_ r) p = Z.of_nat (S k) →
  append_msg r p = AppendEntries (id (config_ r)) p (current_term_ r) (Z.of_nat k)
    (term_at k (log_ r)) (drop (S k) (log_ r)) (commit_index_ r).
Proof.
  intros Hf Hk Hn. unfold append_msg. rewrite Hn. cbv zeta.
  replace (u64 (Z.of_nat (S k) - 1)) with (Z.of_nat k).
  2:{ symmetry. destruct Hf as [_ ?]. rewrite u64_small; lia. }
  rewrite (TermAt_eq r k Hf), decide_True, (entries_between_drop r (S k) Hf) by lia. done.
Qed.

Lemma follow_sends ps r : role_ r = kLeader → ps ⊆ others r →
  follows N N i sp r (set_out_msgs (out_msgs_ r ++ (append_msg r <$> ps)) r).
Proof.
  intros Hr. induction ps as [|p ps IH] using rev_ind; intros Hps a Hsp Hsim.
  { simpl. rewrite app_nil_r, set_out_msgs_id. by exists a. }
  destruct (IH ltac:(set_solver) a Hsp Hsim) as (a1 & Hext & Hsim1).
  set (r1 := set_out_msgs (out_msgs_ r ++ (append_msg r <$> ps)) r) in *.
  destruct (sim_log N i r1 a1 Hsim1 Hi HN) as (Hf & _ & _ & Hl & Hct).
  pose proof Hsim1 as [_ _ Hc Hok _].
  assert (p ∈ others r1) as Hp by (apply Hps, in_snoc; by right).
  destruct (ok_next _ _ Hok Hr p Hp) as (k & Hk & Hnext).
  pose proof Hp as [Hpi Hpp]%list_elem_of_filter. rewrite (ok_config _ _ Hok) in Hpi, Hpp.
  destruct (follow_action N N i r1 (set_out_msgs (out_msgs_ r1 ++ [append_msg r1 p]) r1) a1
              (nodes a1 i)
              [MAppend i p (term (nodes a1 i)) k (term_at k (nlog (nodes a1 i)))
                 (drop (S k) (nlog (nodes a1 i))) (commit (nodes a1 i))]
              [append_msg r1 p]) as (a2 & Hext2 & Hsim2); [done|done| |done|..];
    rewrite ?(core_term _ _ Hc), ?(core_log _ _ Hc); try done.
  - rewrite <-(core_term _ _ Hc), <-(core_log _ _ Hc).
    apply a_send; [by rewrite (core_role _ _ Hc)|done|done|by rewrite (core_log _ _ Hc)].
  - by apply (core_rel_frame r1).
  - by apply (node_ok_frame i r1).
  - apply Forall_singleton. rewrite (append_msg_ok r1 p k Hf Hk Hnext). split; [done|]. simpl.
    exists k, (commit (nodes a1 i)). split_and!; [done|apply Hc|].
    assert (config_ r = cfg i) as -> by apply Hok.
    apply elem_of_app. right. by apply list_elem_of_singleton.
  - exists a2. split; [by etrans|]. rewrite fmap_app, app_assoc. exact Hsim2.
Qed.

Lemma follow_Broadcast r : role_ r = kLeader → follows N N i sp r (BroadcastAppendEntries r).
Proof. intros Hr. rewrite BroadcastAppendEntries_eq. by apply follow_sends. Qed.

Lemma QuorumSize_quorum r : config_ r = cfg i → QuorumSize r = Z.of_nat (quorum peers).
Proof.
  intros E. unfold QuorumSize, quorum. rewrite E. cbn [Raft.peers cfg].
  pose proof (Nat2Z.inj_div (length peers) 2). lia.
Qed.

Lemma follow_BecomeLeader r : role_ r = kCandidate →
  QuorumSize r ≤ Z.of_nat (length (votes_granted_ r)) → follows N N i sp r (BecomeLeader r).
Proof.
  intros Hr Hq. rewrite BecomeLeader_eq.
  apply (follows_trans _ N _ _ _ _ (leader_state r)); [|by apply follow_Broadcast].
  intros a _ Hsim. destruct (sim_log N i r a Hsim Hi HN) as (Hf & _ & _ & Hl & Hct).
  pose proof (log_fits_pos r Hf). pose proof Hsim as [_ _ Hc Hok _].
  rewrite (QuorumSize_quorum r (ok_config _ _ Hok)) in Hq.
  eapply (follow_action N N i r _ a _ [] []); [done|done|apply a_win|done|..];
    simpl; rewrite ?(core_term _ _ Hc), ?(core_log _ _ Hc), ?(core_role _ _ Hc); try done.
  - rewrite (core_votes _ _ Hc) by congruence. lia.
  - split; simpl; try done; [apply Hc|apply Hc| |].
    + intros _. rewrite (core_votes _ _ Hc) by congruence. done.
    + intros _ j. apply (leader_match r).
  - split; [apply Hok|]. intros _ p Hp. exists (length (log_ r) - 1)%nat. split; [simpl; lia|].
    rewrite leader_next by done. rewrite (LastIndex_eq r Hf), u64_small; lia.
  - by rewrite app_nil_r.
Qed.

Lemma follow_MaybeCommit r : role_ r = kLeader → follows N N i sp r (MaybeCommit r).
Proof.
  intros Hr a _ Hsim. destruct (sim_log N i r a Hsim Hi HN) as (Hf & _ & _ & Hl & Hct).
  pose proof Hsim as [_ _ Hc Hok _].
  destruct (MaybeCommit_cases r) as [->|(c & -> & Hcr & Hcan)]; [by exists a|].
  rewrite (LastIndex_eq r Hf), (core_commit _ _ Hc) in Hcr.
  destruct (Z_of_nat_complete c) as [m ->]; [lia|].
  apply andb_true_iff in Hcan as [Ht%Z.eqb_eq Hq%Z.leb_le].
  rewrite (TermAt_eq r m Hf), decide_True in Ht by lia.
  rewrite (QuorumSize_quorum r (ok_config _ _ Hok)) in Hq.
  pose proof (ok_config _ _ Hok) as Ecfg.
  rewrite count_replicas_eq in Hq by (by rewrite Ecfg).
  assert (holders r (Z.of_nat m) = replicas peers i m (nodes a i)) as Eh.
  { unfold holders, replicas. rewrite Ecfg. simpl. apply list_filter_iff.
    intros j. rewrite (core_match _ _ Hc Hr). lia. }
  rewrite Eh in Hq.
  eapply (follow_action N N i r _ a _ [] []); [done|done|apply (a_advance _ _ _ _ m)|done|..];
    simpl; rewrite ?(core_term _ _ Hc), ?(core_log _ _ Hc), ?(core_role _ _ Hc); try done; try lia.
  - split; simpl; try done; apply Hc.
  - by apply (node_ok_frame i r).
  - by rewrite app_nil_r.
Qed.

(** The message that the protocol has for an AppendEntries message. *)
Lemma append_message msg r a :
  msg_ok N sp msg → m_type msg = kAppendEntries → m_to msg = i → m_term msg = current_term_ r →
  sp ⊆ soup a → sim N i r a →
  ∃ p lc ld, prev_log_index msg = Z.of_nat p ∧ leader_commit msg = Z.of_nat lc ∧
    MAppend (m_from msg) i (current_term_ r) p (prev_log_term msg) (entries msg) lc ∈ soup a ∧
    (m_from msg, ld) ∈ hist a ∧ (p < length (nlog ld))%nat ∧
    prev_log_term msg = term_at p (nlog ld) ∧ entries msg = drop (S p) (nlog ld) ∧
    consecutive (S p) (entries msg) ∧ Z.of_nat (length (nlog ld)) ≤ N + 1.
Proof.
  intros [Ht Hm] Htype Hto Hterm Hsp [[HI HL HR HC] Hb Hc Hok _].
  rewrite Htype, Hto, Hterm in Hm. destruct Hm as (p & lc & Hp & Hlc & Hm). apply Hsp in Hm.
  destruct (lg_append _ HL _ _ _ _ _ _ _ Hm) as (_ & ld & Hld & _ & _ & Hpl & Hpt & Ees & _).
  destruct (Hb _ _ Hld) as [_ Hlld]. exists p, lc, ld. split_and!; [done..| |done].
  intros k e He. rewrite Ees, lookup_drop in He. by apply (wf_indexed _ (lg_wf _ HL _ _ Hld)) in He.
Qed.

Lemma follow_HandleAppendEntries msg r :
  msg_ok N sp msg → m_type msg = kAppendEntries → m_to msg = i → m_term msg = current_term_ r →
  role_ r = kFollower → follows N N i sp r (HandleAppendEntries msg r).
Proof.
  intros Hmsg Htype Hto Hterm Hrole a Hsp Hsim.
  destruct (sim_log N i r a Hsim Hi HN) as (Hf & Hin & _ & Hl & Hct).
  pose proof Hmsg as [Ht _].
  destruct (append_message msg r a Hmsg Htype Hto Hterm Hsp Hsim)
    as (p & lc & ld & Hp & Hlc & Hm & Hld & Hpl & Hpt & Ees & Hidx & Hlld).
  pose proof Hsim as [[HI HL HR HC] Hb Hc Hok _].
  unfold HandleAppendEntries. set (r1 := set_election_elapsed 0 (set_leader (m_from msg) r)).
  assert (log_fits r1) as Hf1 by done.
  assert (sim N i r1 a) as Hsim1.
  { destruct Hsim. split; [done..| | |done]; [by apply (core_rel_frame r)|by apply (node_ok_frame i r)]. }
  rewrite (LastIndex_eq r1 Hf1), Hp, (TermAt_eq r1 p Hf1).
  destruct (_ || _) eqn:Hrej; [by eapply follow_refusal; eauto|].
  apply orb_false_iff in Hrej as [Hlast%Z.ltb_ge Hmatch%negb_false_iff%Z.eqb_eq].
  rewrite decide_True in Hmatch by lia. fold (append_entries r1 (entries msg)).
  destruct (append_entries_log r1 (entries msg)) as [Elog Hf2];
    [apply Hf|..|by eapply consecutive_pos|].
  { rewrite Ees, length_drop. simpl. lia. }
  pose proof (append_entries_frame r1 (entries msg)) as Efr.
  set (r2 := append_entries r1 (entries msg)) in *. rewrite (LastIndex_eq r2 Hf2).
  pose proof (core_log _ _ Hc) as Ecl. change (log_ r1) with (log_ r) in *. rewrite <-Ecl in Elog, Hmatch.
  assert (Z.of_nat (length (log_ r2)) ≤ N + 1) as Hl2.
  { rewrite Elog, Ees. destruct (accept_cases peers peers_pos a i (m_from msg) ld p)
      as [[_ ->]|[_ ->]]; [done..|rewrite Ecl; lia|congruence|rewrite Ecl; lia|lia]. }
  assert (config_ r2 = config_ r ∧ role_ r2 = role_ r ∧ current_term_ r2 = current_term_ r ∧
          voted_for_ r2 = voted_for_ r ∧ commit_index_ r2 = commit_index_ r ∧
          out_msgs_ r2 = out_msgs_ r) as (E1 & E2 & E3 & E4 & E5 & E6)
    by (rewrite Efr; by split_and!).
  clearbody r2. clear Efr. set (k := (p + length (entries msg))%nat).
  replace (u64 (Z.of_nat p + Z.of_nat (length (entries msg)))) with (Z.of_nat k).
  2:{ rewrite u64_small; [lia|]. rewrite Ees, length_drop. lia. }
  eapply (follow_action N N i r1 _ a _ _ [AppendEntriesResp (id (config_ r)) (m_from msg)
            (current_term_ r) true (Z.of_nat k)]);
    [done|done|apply (a_accept _ _ _ _ (m_from msg) p (prev_log_term msg) (entries msg) lc)|done|..];
    rewrite ?(core_term _ _ Hc), ?(core_role _ _ Hc); try done.
  - rewrite Ecl. simpl in Hlast. lia.
  - simpl. by rewrite <-Elog.
  - split; simpl.
    + by destruct (_ <? _); simpl; rewrite E3.
    + destruct (_ <? _); simpl; rewrite E4; apply Hc.
    + destruct (_ <? _); simpl; congruence.
    + destruct (_ <? _); simpl; congruence.
    + rewrite <-Elog. rewrite E5, Hlc, (core_commit _ _ Hc).
      destruct (Z.ltb_spec (Z.of_nat (commit (nodes a i))) (Z.of_nat lc)); case_decide; try lia; simpl.
      * pose proof (log_fits_pos r2 Hf2). lia.
      * rewrite E5. apply Hc.
    + destruct (_ <? _); simpl; congruence.
    + destruct (_ <? _); simpl; congruence.
  - split; [destruct (_ <? _); simpl; rewrite E1; apply Hok|].
    destruct (_ <? _); simpl; congruence.
  - destruct (_ <? _); simpl; by rewrite E6.
  - apply Forall_singleton. split; [done|]. simpl. intros _. exists k. split; [done|].
    rewrite (ok_config _ _ Hok). apply elem_of_app. right. by apply list_elem_of_singleton.
Qed.

(** Setting the next index of a peer inside the log. *)
Lemma node_ok_next r r' from k :
  node_ok i r → (k < length (log_ r))%nat → config_ r' = config_ r → role_ r' = role_ r →
  log_ r' = log_ r → next_index_ r' = <[from := Z.of_nat (S k)]> (next_index_ r) → node_ok i r'.
Proof.
  unfold others. intros [E Hn] Hk E1 E2 E3 E4. split; [congruence|].
  unfold others. rewrite E1, E2, E3, E4. intros Hr p Hp.
  unfold peer_index. destruct (decide (p = from)) as [->|Hne].
  - exists k. by rewrite lookup_insert_eq.
  - rewrite lookup_insert_ne by done. by apply Hn.
Qed.

Lemma follow_HandleAppendEntriesResp msg r :
  msg_ok N sp msg → m_type msg = kAppendEntriesResp → m_to msg = i →
  m_term msg = current_term_ r → role_ r = kLeader →
  follows N N i sp r (HandleAppendEntriesResp msg r).
Proof.
  intros [Ht Hm] Htype Hto Hterm Hrole. rewrite Htype, Hto, Hterm in Hm.
  unfold HandleAppendEntriesResp. destruct (success msg).
  - destruct Hm as (k & Hk & Hm); [done|].
    eapply (follows_trans _ N); [|by apply follow_MaybeCommit].
    intros a Hsp Hsim. destruct (sim_log N i r a Hsim Hi HN) as (Hf & Hin & _ & Hl & Hct).
    pose proof Hsim as [[HI HL HR HC] Hb Hc Hok _]. apply Hsp in Hm.
    destruct (rp_ack _ HR _ _ _ _ Hm) as (nj & l & _ & Hl' & Rl & Tl & _ & Hkl & _).
    assert (k < length (log_ r))%nat as Hkr.
    { destruct (lg_lead_cur _ HL i l Hl' Rl) as [_ Hpre]; [by rewrite (core_term _ _ Hc)|].
      rewrite <-(core_log _ _ Hc). eapply Nat.lt_le_trans; [done|].
      apply prefix_length, Hpre. by rewrite (core_role _ _ Hc). }
    eapply (follow_action N N i r _ a _ [] []);
      [done|done|apply (a_ack _ _ _ _ (m_from msg) k)|done|..];
      simpl; rewrite ?(core_term _ _ Hc), ?(core_log _ _ Hc), ?(core_role _ _ Hc); try done.
    + split; simpl; try done; [apply Hc..|]. intros _ j. unfold peer_index.
      destruct (decide (j = m_from msg)) as [->|Hne].
      * by rewrite lookup_insert_eq, fn_lookup_insert.
      * rewrite lookup_insert_ne, fn_lookup_insert_ne by done. by apply Hc.
    + apply (node_ok_next r _ (m_from msg) k); [done..|]. simpl. rewrite Hk, u64_small by lia.
      by rewrite Nat2Z.inj_succ.
    + by rewrite app_nil_r.
  - destruct (_ <? peer_index _ _) eqn:Hnext; [|by apply follow_frame].
    apply follow_frame; [by intros n Hc; apply (core_rel_frame r)| |done].
    intros Hok. apply Z.ltb_lt in Hnext.
    split; [apply Hok|]. intros _ p Hp. unfold peer_index in *. simpl.
    destruct (decide (p = m_from msg)) as [->|Hne].
    + destruct (ok_next _ _ Hok Hrole (m_from msg) Hp) as (k & Hk & Ek). unfold peer_index in Ek.
      rewrite Ek in *. exists (k - 1)%nat. rewrite lookup_insert_eq. simpl. lia.
    + rewrite lookup_insert_ne by done. by apply Hok.
Qed.

Lemma follow_StepRole msg r :
  msg_ok N sp msg → m_to msg = i → m_term msg = current_term_ r →
  follows N N i sp r (StepRole msg r).
Proof.
  intros Hm Hto Hterm. assert (follows N N i sp r r) as Hid by by apply follow_frame.
  unfold StepRole, StepFollower, StepCandidate, StepLeader.
  destruct (role_ r) eqn:Hr, (m_type msg) eqn:Htype; try done;
    try (by apply follow_HandleRequestVote).
  - by apply follow_HandleAppendEntries.
  - destruct (vote_granted msg) eqn:Hg; [|done]. destruct Hm as [Ht Hm].
    rewrite Htype, Hto, Hterm in Hm.
    set (r1 := if bool_decide (m_from msg ∈ votes_granted_ r) then r
      else set_votes_granted (votes_granted_ r ++ [m_from msg]) r).
    assert (role_ r1 = kCandidate) as Hr1 by (unfold r1; by case_bool_decide).
    apply (follows_trans _ N _ _ _ _ r1).
    2:{ destruct (Z.leb_spec (QuorumSize r1) (Z.of_nat (length (votes_granted_ r1))));
          [by apply follow_BecomeLeader|by apply follow_frame]. }
    clear Hr1. unfold r1. case_bool_decide as Hin; [done|].
    intros a Hsp Hsim. destruct (sim_log N i r a Hsim Hi HN) as (Hf & _ & _ & Hl & Hct).
    pose proof Hsim as [_ _ Hc Hok _].
    assert (votes (nodes a i) = votes_granted_ r) as Ev by (apply Hc; congruence).
    eapply (follow_action N N i r _ a _ [] []);
      [done|done|apply (a_count _ _ _ _ (m_from msg))|done|..];
      simpl; rewrite ?(core_term _ _ Hc), ?(core_log _ _ Hc), ?(core_role _ _ Hc), ?Ev; try done.
    + by apply Hsp, Hm.
    + split; simpl; try done; [apply Hc..|]. congruence.
    + by apply (node_ok_frame i r).
    + by rewrite app_nil_r.
  - eapply (follows_trans _ N); [apply follow_BecomeFollower, Hm|].
    apply follow_HandleAppendEntries; [done..| |]; unfold BecomeFollower; by destruct (_ <? _) eqn:E;
      simpl; [apply Z.ltb_lt in E; lia|].
  - by apply follow_HandleAppendEntriesResp.
Qed.

Lemma follow_Step msg r : msg_ok N sp msg → m_to msg = i → follows N N i sp r (Step msg r).
Proof.
  intros Hm Hto. pose proof Hm as [Ht _]. unfold Step.
  destruct (Z.ltb_spec (current_term_ r) (m_term msg)) as [Hlt|Hge].
  - eapply (follows_trans _ N); [by apply follow_BecomeFollower|].
    apply follow_StepRole; [done|done|]. unfold BecomeFollower.
    by rewrite (proj2 (Z.ltb_lt _ _)).
  - destruct (Z.ltb_spec (m_term msg) (current_term_ r)).
    + intros a Hsp Hsim. destruct (sim_log N i r a Hsim Hi HN) as (_ & _ & _ & _ & Hct).
      unfold RejectStale. destruct (m_type msg); try (by exists a);
        (eapply follow_refusal; [| |done|done]); simpl; auto.
    + apply follow_StepRole; [done..|lia].
Qed.
(** [Restore] on a new node. *)
Lemma Restore_eq t v es r :
  Restore t v es r =
  let r' := set_log (log_ r ++ es) (set_voted_for v (set_current_term t r)) in
  set_hard_state_dirty false (set_stable_index (LastIndex r') r').
Proof.
  unfold Restore. set (r0 := set_voted_for v (set_current_term t r)).
  change (log_ r) with (log_ r0).
  assert (foldl (λ r e, set_log (log_ r ++ [e]) r) r0 es = set_log (log_ r0 ++ es) r0) as E.
  { generalize r0. clear. induction es as [|e es IH]; intros r.
    - rewrite app_nil_r. by destruct r.
    - simpl. rewrite IH. simpl. by rewrite <-app_assoc. }
  by rewrite E.
Qed.

(** A node that starts with a log. *)
Lemma restarted_core config t v l : l !! 0%nat = Some sentinel →
  core_rel (restarted config t v l) (mkNode t v kFollower l 0 [] (λ _, 0%nat)) ∧
  log_ (restarted config t v l) = l.
Proof.
  intros H0. assert (mkLogEntry 0 0 [] :: drop 1 l = l) as Elog.
  { destruct l as [|e l]; [done|]. by injection H0 as ->. }
  unfold restarted. rewrite Restore_eq. cbv zeta. cbn [log_ Raft_new app]. rewrite Elog.
  split; [|done]. by split.
Qed.

(** A restart that the protocol has as an action. *)
Lemma follow_recover r t v l a :
  sim N i r a → action i (soup a) (nodes a i) (mkNode t v kFollower l 0 [] (λ _, 0%nat)) [] →
  l !! 0%nat = Some sentinel → t ≤ N → Z.of_nat (length l) ≤ N + 1 →
  ∃ a', extends i a a' ∧ sim N i (restarted (config_ r) t v l) a'.
Proof.
  intros [S B C O M] Ha H0 Ht Hl. destruct (restarted_core (config_ r) t v l H0) as [Hc Hlog].
  eapply (follow_action N N i (set_out_msgs [] r) _ a _ [] []);
    [|done|exact Ha|done|done|done|exact Hc| |by unfold restarted; rewrite Restore_eq|done].
  - split; [done|done| |by apply (node_ok_frame i r)|done]. by apply (core_rel_frame r).
  - unfold restarted. rewrite Restore_eq. split; [apply O|done].
Qed.

Lemma follow_restart r :
  follows N N i sp r (restarted (config_ r) (current_term_ r) (voted_for_ r) (log_ r)).
Proof.
  intros a _ Hsim. destruct (sim_log N i r a Hsim Hi ltac:(lia)) as (Hf & _ & Hwf & Hl & Hct).
  pose proof Hsim as [_ _ Hc Hok _]. pose proof (wf_sentinel _ Hwf) as H0.
  rewrite (core_log _ _ Hc) in H0. apply follow_recover; [done| |done..].
  rewrite <-(core_term _ _ Hc), <-(core_vote _ _ Hc), <-(core_log _ _ Hc).
  apply a_stepdown. by right.
Qed.

(** A crash while the entries of a message are persisted. *)
Lemma follow_append_crash msg r m :
  msg_ok N sp msg → m_type msg = kAppendEntries → m_to msg = i → m_term msg = current_term_ r →
  role_ r = kFollower → stable_index_ r = LastIndex r →
  stable_index_ (HandleAppendEntries msg r) ≤ Z.of_nat m →
  follows N N i sp r (restarted (config_ r) (current_term_ r) (voted_for_ r)
                        (take (S m) (log_ (HandleAppendEntries msg r)))).
Proof.
  intros Hmsg Htype Hto Hterm Hrole Hst. unfold HandleAppendEntries.
  set (r1 := set_election_elapsed 0 (set_leader (m_from msg) r)).
  destruct (_ || _) eqn:Hrej.
  { intros Hm a Hsp Hsim. destruct (sim_log N i r a Hsim Hi ltac:(lia)) as (Hf & _).
    rewrite take_ge; [by apply (follow_restart r a)|].
    simpl in *. rewrite Hst, (LastIndex_eq r Hf) in Hm. lia. }
  fold (append_entries r1 (entries msg)). set (r2 := append_entries r1 (entries msg)).
  intros Hm a Hsp Hsim.
  destruct (sim_log N i r a Hsim Hi ltac:(lia)) as (Hf & Hin & Hwf & Hl & Hct).
  destruct (append_message msg r a Hmsg Htype Hto Hterm Hsp Hsim)
    as (p & lc & ld & Hp & Hlc & Hm' & Hld & Hpl & Hpt & Ees & Hidx & Hlld).
  pose proof Hsim as [[HI HL HR HC] Hb Hc Hok _].
  assert (log_fits r1) as Hf1 by done.
  rewrite (LastIndex_eq r1 Hf1), Hp, (TermAt_eq r1 p Hf1) in Hrej.
  apply orb_false_iff in Hrej as [Hlast%Z.ltb_ge Hmatch%negb_false_iff%Z.eqb_eq].
  change (log_ r1) with (log_ r) in *. rewrite decide_True in Hmatch by lia.
  assert (Z.of_nat (length (log_ r1) + length (entries msg)) < 2 ^ 64) as Hroom.
  { change (log_ r1) with (log_ r). rewrite Ees, length_drop. lia. }
  destruct (append_entries_log r1 (entries msg)) as [Elog Hf2];
    [apply Hf|done|by eapply consecutive_pos|].
  pose proof (append_entries_stable r1 (entries msg) (S p) Hf1 Hidx ltac:(simpl; lia) Hroom Hst)
    as Hcommon.
  fold r2 in Elog, Hcommon. change (log_ r1) with (log_ r) in *.
  assert (stable_index_ r2 ≤ Z.of_nat m) as Hm2 by (destruct (_ <? _) in Hm; exact Hm).
  replace (log_ _) with (log_ r2) by (by destruct (_ <? _)).
  rewrite <-(core_log _ _ Hc) in Elog, Hmatch, Hcommon, Hlast. rewrite Elog in Hcommon |- *.
  assert (accept_log (nlog (nodes a i)) (entries msg) !! 0%nat = Some sentinel ∧
    Z.of_nat (length (accept_log (nlog (nodes a i)) (entries msg))) ≤ N + 1) as [H0 Hlen].
  { rewrite Ees. destruct (accept_cases peers peers_pos a i (m_from msg) ld p)
      as [[_ ->]|[_ ->]]; try done; try lia; try congruence;
      (split; [|rewrite ?(core_log _ _ Hc); lia]); [by apply Hwf|].
    by apply (lg_wf _ HL _ _ Hld). }
  apply follow_recover; [done| |by rewrite lookup_take_lt by lia|done|rewrite length_take; lia].
  rewrite <-(core_term _ _ Hc), <-(core_vote _ _ Hc).
  eapply (a_recover _ _ _ _ (m_from msg) p (prev_log_term msg) (entries msg) lc).
  - by rewrite (core_role _ _ Hc).
  - by rewrite (core_term _ _ Hc).
  - lia.
  - done.
  - intros k Hk E. specialize (Hcommon k Hk E). lia.
Qed.

End methods.

Section calls.
Context (N : Z) (HN : 0 ≤ N) (HN' : N + 1 < 2 ^ 62) (i : Z) (Hi : i ∈ peers) (sp : list amsg).

Lemma follows_weaken r r' : follows N N i sp r r' → follows N (N + 1) i sp r r'.
Proof.
  intros H a Hsp Hsim. destruct (H a Hsp Hsim) as (a' & He & [S B C O M]). exists a'.
  split; [done|]. split; [done| |done|done|].
  - intros j n Hn. destruct (B j n Hn). lia.
  - eapply Forall_impl; [done|]. intros m. apply msg_ok_mono; [lia|done].
Qed.

Lemma follow_campaign ps r : role_ r = kCandidate → ps ⊆ others r →
  follows (N + 1) (N + 1) i sp r (set_out_msgs (out_msgs_ r ++ (vote_msg r <$> ps)) r).
Proof.
  intros Hr. induction ps as [|p ps IH] using rev_ind; intros Hps a Hsp Hsim.
  { simpl. rewrite app_nil_r, set_out_msgs_id. by exists a. }
  destruct (IH ltac:(set_solver) a Hsp Hsim) as (a1 & Hext & Hsim1).
  set (r1 := set_out_msgs (out_msgs_ r ++ (vote_msg r <$> ps)) r) in *.
  destruct (sim_log (N + 1) i r1 a1 Hsim1 Hi HN') as (Hf & _ & _ & Hl & Hct).
  pose proof Hsim1 as [_ _ Hc Hok _].
  assert (p ∈ others r1) as Hp by (apply Hps, in_snoc; by right).
  pose proof Hp as [Hpi Hpp]%list_elem_of_filter. rewrite (ok_config _ _ Hok) in Hpi, Hpp.
  destruct (follow_action (N + 1) (N + 1) i r1
              (set_out_msgs (out_msgs_ r1 ++ [vote_msg r1 p]) r1) a1
              (nodes a1 i)
              [MVote i p (term (nodes a1 i)) (length (nlog (nodes a1 i)) - 1)
                 (last_term (nlog (nodes a1 i)))]
              [vote_msg r1 p]) as (a2 & Hext2 & Hsim2); [done|done| |done|..];
    rewrite ?(core_term _ _ Hc), ?(core_log _ _ Hc); try done.
  - rewrite <-(core_term _ _ Hc), <-(core_log _ _ Hc).
    apply a_campaign; [by rewrite (core_role _ _ Hc)|done|done].
  - by apply (core_rel_frame r1).
  - by apply (node_ok_frame i r1).
  - apply Forall_singleton. unfold vote_msg. split; [done|]. cbn [m_type RequestVote].
    exists (length (log_ r1) - 1)%nat. simpl. rewrite (LastIndex_eq r1 Hf).
    pose proof (log_fits_pos r1 Hf) as Hpos. simpl in Hpos. split; [simpl; lia|].
    assert (config_ r = cfg i) as -> by apply Hok.
    apply elem_of_app. right. by apply list_elem_of_singleton.
  - exists a2. split; [by etrans|]. rewrite fmap_app, app_assoc. exact Hsim2.
Qed.

Lemma follow_BecomeCandidate r : role_ r ≠ kLeader →
  follows N (N + 1) i sp r (BecomeCandidate r).
Proof.
  intros Hr. rewrite BecomeCandidate_eq. cbv zeta.
  apply (follows_trans _ (N + 1) _ _ _ _ (candidate_state r)).
  2:{ destruct (Z.leb_spec (QuorumSize (candidate_state r)) 1);
        [by apply follow_BecomeLeader|by apply follow_campaign]. }
  intros a _ Hsim. destruct (sim_log N i r a Hsim Hi ltac:(lia)) as (Hf & Hin & _ & Hl & Hct).
  pose proof Hsim as [[HI _ _ _] _ Hc Hok _]. pose proof (inv_term _ _ HI _ _ Hin) as Hpos.
  pose proof (core_term _ _ Hc) as Et.
  eapply (follow_action N (N + 1) i r _ a _ [] []); [done|done|apply a_timeout|lia|..];
    simpl; rewrite ?(core_log _ _ Hc), ?(core_role _ _ Hc); try done; try lia.
  - split; simpl; try done; try apply Hc.
    + rewrite u64_small; lia.
    + by rewrite (ok_config _ _ Hok).
    + intros _. by rewrite (ok_config _ _ Hok).
  - split; [apply Hok|done].
  - by rewrite app_nil_r.
Qed.

Lemma follow_Tick r : follows N (N + 1) i sp r (Tick r).
Proof.
  assert (∀ r', (∀ n, core_rel r n → core_rel r' n) → (node_ok i r → node_ok i r') →
            out_msgs_ r' = out_msgs_ r → follows N N i sp r r') as Hframe.
  { intros r' Hc Hok Em. apply follow_frame; [done|done|]. by rewrite Em. }
  unfold Tick. destruct (role_ r) eqn:Hr.
  1,2: set (r1 := set_election_elapsed (election_elapsed_ r + 1) r);
    assert (follows N N i sp r r1) as H1
      by (apply Hframe; [by intros n Hc; apply (core_rel_frame r)|by intros Ho; apply (node_ok_frame i r)|done]);
    destruct (_ <=? _); [|by apply follows_weaken];
    eapply (follows_trans _ N); [done|]; apply follow_BecomeCandidate; simpl; congruence.
  apply follows_weaken. destruct (_ <=? _).
  - eapply (follows_trans _ N); [|apply follow_Broadcast; [lia|done|done]].
    apply Hframe; [by intros n Hc; apply (core_rel_frame r)|by intros Ho; apply (node_ok_frame i r)|done].
  - apply Hframe; [by intros n Hc; apply (core_rel_frame r)|by intros Ho; apply (node_ok_frame i r)|done].
Qed.

Lemma follow_Propose data r : follows N (N + 1) i sp r (Propose data r).2.
Proof.
  unfold Propose. destruct (role_ r) eqn:Hr; [by apply follows_weaken, follow_frame..|]. simpl.
  eapply (follows_trans _ (N + 1)); [|by apply follow_MaybeCommit].
  intros a _ Hsim. destruct (sim_log N i r a Hsim Hi ltac:(lia)) as (Hf & _ & _ & Hl & Hct).
  pose proof (log_fits_pos r Hf). pose proof Hsim as [_ _ Hc Hok _].
  eapply (follow_action N (N + 1) i r _ a _ [] []);
    [done|done|apply (a_propose _ _ _ _ data)|lia|..];
    simpl; rewrite ?(core_log _ _ Hc), ?(core_role _ _ Hc), ?(core_term _ _ Hc); try done; try lia.
  - rewrite length_app. simpl. lia.
  - split; simpl; try done; try apply Hc.
    rewrite (LastIndex_eq r Hf), u64_small by lia. do 3 f_equal. lia.
  - split; [apply Hok|]. intros Hl' p Hp. destruct (ok_next _ _ Hok Hl' p Hp) as (k & Hk & E).
    exists k. split; [simpl; rewrite length_app; simpl; lia|done].
  - by rewrite app_nil_r.
Qed.

(** *** Calls and crashes *)

Context (net : list Message) (Hnet : Forall (msg_ok N sp) net).

Lemma follow_call r ap r' ap' : node_call net i r ap r' ap' → follows N (N + 1) i sp r r'.
Proof.
  rewrite Forall_forall in Hnet. intros [|msg Hm Hto|data|].
  - by apply follow_Tick.
  - apply follows_weaken, follow_Step; [lia|done|by apply Hnet|done].
  - by apply follow_Propose.
  - apply follows_weaken, follow_frame; [|by intros Ho; apply (node_ok_frame i r)|done].
    intros n Hn. by apply (core_rel_frame r).
Qed.

(** The call took place and was persisted. *)
Lemma follow_call_restart r ap r' ap' : node_call net i r ap r' ap' →
  follows N (N + 1) i sp r
    (restarted (config_ r) (current_term_ r') (voted_for_ r') (log_ r')).
Proof.
  intros Hcall a Hsp Hsim. destruct (follow_call r ap r' ap' Hcall a Hsp Hsim) as (a1 & E1 & S1).
  destruct (follow_restart (N + 1) HN' i Hi sp r' a1) as (a2 & E2 & S2); [|done|].
  { etrans; [done|apply E1]. }
  rewrite (ok_config _ _ (sim_ok _ _ _ _ Hsim)). rewrite (ok_config _ _ (sim_ok _ _ _ _ S1)) in S2.
  exists a2. split; [by etrans|done].
Qed.

(** What may be on disk after a call: what was there, what the call left, or,
    when it accepted entries of a leader, something in between. *)
Lemma partly_saved_cases r ap r' ap' t v l : log_fits r → log_fits r' →
  stable_index_ r = LastIndex r → node_call net i r ap r' ap' → partly_saved r r' t v l →
  (t = current_term_ r ∧ v = voted_for_ r ∧ l = log_ r) ∨
  (t = current_term_ r' ∧ v = voted_for_ r' ∧ l = log_ r') ∨
  (t = current_term_ r' ∧ v = voted_for_ r' ∧
   ∃ msg, msg ∈ net ∧ m_to msg = i ∧ r' = Step msg r ∧
    (l = log_ r ∨ ∃ m, stable_index_ r' ≤ Z.of_nat m ∧ l = take (S m) (log_ r'))).
Proof.
  intros Hf Hf' Hst Hcall Hps.
  assert (same_log r r' → l = log_ r → l = log_ r') as Hsame by (intros [-> _]; done).
  assert (∀ m, same_log r r' → stable_index_ r' ≤ Z.of_nat m → take (S m) (log_ r') = log_ r') as Hall.
  { intros m [El Es] Hm. apply take_ge. rewrite El. rewrite Es, Hst, (LastIndex_eq r Hf) in Hm. lia. }
  destruct Hcall as [|msg Hm Hto|data|].
  - pose proof (Tick_same_log r) as Hs. pose proof Hs as [El _].
    destruct Hps as [| |m Hm]; [by left|right; left; by rewrite El..|].
    right; left. by rewrite (Hall m Hs Hm).
  - destruct Hps as [| |m Hm']; [by left|right; right; eauto 10..].
  - unfold Propose in *. destruct (role_ r); simpl in *;
      [destruct Hps as [| |m Hm]; [by left|by left|right; left; by rewrite Hall]..|].
    set (r1 := set_log _ r) in *. pose proof (MaybeCommit_same_log r1) as [El Es].
    assert (current_term_ (MaybeCommit r1) = current_term_ r ∧
            voted_for_ (MaybeCommit r1) = voted_for_ r) as [E1 E2].
    { destruct (MaybeCommit_cases r1) as [->|(c & -> & _)]; done. }
    destruct Hps as [| |m Hm]; [by left|by left|]. rewrite El, Es in *.
    simpl in Hm. rewrite Hst, (LastIndex_eq r Hf) in Hm.
    destruct (decide (S m = length (log_ r))) as [Em|Em].
    + left. simpl. split_and!; [done..|]. by rewrite Em, take_app_length.
    + right; left. split_and!; [done..|]. apply take_ge. simpl. rewrite length_app. simpl. lia.
  - destruct Hps as [| |m Hm]; [by left|by left|]. right; left. split_and!; [done..|].
    apply Hall; [by split|done].
Qed.

Lemma follow_crash r ap r' ap' t v l :
  stable_index_ r = LastIndex r → node_call net i r ap r' ap' → partly_saved r r' t v l →
  follows N (N + 1) i sp r (restarted (config_ r) t v l).
Proof.
  intros Hst Hcall Hps a Hsp Hsim.
  destruct (follow_call r ap r' ap' Hcall a Hsp Hsim) as (a1 & _ & S1).
  destruct (sim_log N i r a Hsim Hi ltac:(lia)) as (Hf & _).
  destruct (sim_log (N + 1) i r' a1 S1 Hi HN') as (Hf' & _). clear a1 S1.
  destruct (partly_saved_cases r ap r' ap' t v l Hf Hf' Hst Hcall Hps)
    as [(-> & -> & ->)|[(-> & -> & ->)|(-> & -> & msg & Hm & Hto & -> & Hl)]].
  { refine (follows_weaken _ _ _ a Hsp Hsim). apply follow_restart; [lia|done]. }
  { by eapply follow_call_restart. }
  destruct (Step_log_cases msg r) as [Hs|(Htype & rb & Hrb & Hr & Hterm & Hs & E)].
  { assert (l = log_ (Step msg r)) as ->; [|by eapply follow_call_restart].
    destruct Hs as [El Es], Hl as [->|(m & Hle & ->)]; [done|]. apply take_ge.
    rewrite El. rewrite Es, Hst, (LastIndex_eq r Hf) in Hle. lia. }
  pose proof Hnet as Hnet'. rewrite Forall_forall in Hnet'. specialize (Hnet' msg Hm).
  destruct (HandleAppendEntries_hard_state msg rb) as [Et Ev]. rewrite E, Et, Ev in *.
  destruct Hs as [El Es].
  assert (config_ r = config_ rb) as -> by (destruct Hrb as [->| ->]; [done|]; unfold BecomeFollower; by destruct (_ <? _)).
  assert (follows N N i sp r rb) as Hfb.
  { destruct Hrb as [->| ->]; [by apply follow_frame|apply follow_BecomeFollower; [lia|done|apply Hnet']]. }
  assert (stable_index_ rb = LastIndex rb) as Hstb by (unfold LastIndex; rewrite Es, Hst, El; done).
  refine (follows_weaken _ _ _ a Hsp Hsim). eapply (follows_trans _ N); [exact Hfb|].
  destruct Hl as [->|(m & Hle & ->)].
  - rewrite <-El. apply follow_restart; [lia|done].
  - apply follow_append_crash; [lia|done|done|done|done|lia|done|done|done].
Qed.
End calls.

(** ** Clusters follow the protocol *)

Record csim (N : Z) (c : cluster) (a : astate) : Prop := {
  cs_safe : safe a;
  cs_bounded : bounded N a;
  cs_nodes : ∀ i, i ∈ peers →
    core_rel (servers c i) (nodes a i) ∧ node_ok i (servers c i) ∧ out_msgs_ (servers c i) = [];
  cs_stable : ∀ i, i ∈ peers → stable_index_ (servers c i) = LastIndex (servers c i);
  cs_network : Forall (msg_ok N (soup a)) (network c);
  cs_seen : ∀ i r, (i, r) ∈ seen c → ∃ n, (i, n) ∈ hist a ∧ core_rel r n;
}.

Lemma csim_init : csim 0 cluster_init (init_state peers).
Proof.
  assert (∀ i, core_rel (Raft_new (cfg i)) init_node) as Hcore by (intros i; by split).
  split.
  - by apply safe_init.
  - intros i n (j & [= -> ->] & _)%list_elem_of_fmap. simpl. lia.
  - intros i Hi. split_and!; [done| |done]. by split.
  - done.
  - constructor.
  - intros i r (j & [= -> ->] & Hj)%list_elem_of_fmap. exists init_node. split; [|done].
    apply list_elem_of_fmap. by exists j.
Qed.

Lemma saved_core r n : core_rel r n → core_rel (TakeMessages (saved r)).2 n.
Proof. intros Hc. by apply (core_rel_frame r). Qed.

Lemma csim_step N c a c' : 0 ≤ N → N + 1 < 2 ^ 62 → csim N c a → cluster_step c c' →
  ∃ a', rtc astep a a' ∧ csim (N + 1) c' a'.
Proof.
  intros H0 HN [Hsafe Hb Hnodes Hst Hnet Hseen] [i r ap Hi Hop].
  destruct (Hnodes i Hi) as (Hc & Hok & Hout).
  assert (sim N i (servers c i) a) as Hsim by (split; [done..|]; by rewrite Hout).
  assert (follows N (N + 1) i (soup a) (servers c i) r) as Hf.
  { destruct Hop as [r' ap' Hcall| |r' ap' t v l Hcall Hps].
    - by eapply follow_call.
    - apply follows_weaken, follow_restart; [lia|done].
    - eapply follow_crash; [done..|by apply Hst|done|done]. }
  destruct (Hf a ltac:(done) Hsim) as (a' & [Hsteps Hother Hsoup Hhist] & [S' B' C' O' M']).
  exists a'. split; [done|].
  assert (core_rel (TakeMessages (saved r)).2 (nodes a' i)) as Hc' by by apply saved_core.
  split; [done|done| | | |].
  - intros j Hj. simpl. destruct (decide (j = i)) as [->|Hne].
    + rewrite fn_lookup_insert. split_and!; [done| |done]. by apply (node_ok_frame i r).
    + rewrite fn_lookup_insert_ne, Hother by done. by apply Hnodes.
  - intros j Hj. simpl. destruct (decide (j = i)) as [->|Hne]; [by rewrite fn_lookup_insert|].
    rewrite fn_lookup_insert_ne by done. by apply Hst.
  - apply Forall_app. split; [|done].
    eapply Forall_impl; [done|]. intros m. apply msg_ok_mono; [lia|done].
  - intros j rj Hj. simpl in Hj. hist_cases Hj.
    + destruct (Hseen j rj Hj) as (n & Hn & ?). exists n. split; [by apply Hhist|done].
    + exists (nodes a' i). split; [|done]. eapply inv_cur; [apply S'|done].
Qed.

Lemma csim_steps k c : nsteps cluster_step k cluster_init c → Z.of_nat k < 2 ^ 62 →
  ∃ a, areachable peers a ∧ csim (Z.of_nat k) c a.
Proof.
  revert c. induction k as [|k IH]; intros c Hk HN.
  - inversion Hk; subst. exists (init_state peers). split; [constructor|apply csim_init].
  - apply nsteps_inv_r in Hk as (c1 & Hk & Hstep).
    destruct (IH c1 Hk) as (a1 & Ha1 & Hs1); [lia|].
    destruct (csim_step (Z.of_nat k) c1 a1 c ltac:(lia) ltac:(lia) Hs1 Hstep) as (a2 & Ha2 & Hs2).
    exists a2. split; [unfold areachable in *; by etrans|].
    by replace (Z.of_nat (S k)) with (Z.of_nat k + 1) by lia.
Qed.
End cluster.
