(* ===== verification/RaftApply.v ===== *)
(** * What the nodes of a cluster hand to their state machines

    [Raft::TakeCommitted] is how committed entries reach a state machine.  The
    commit index of a node does not move backwards between restarts, so that
    what a node handed out since it started is exactly its log up to
    [last_applied_]: every committed entry once and in order. *)

From S2P Require Import Prelude Raft RaftModel RaftElection RaftLogs RaftCommit RaftNode RaftCluster RaftRefine.
Local Open Scope Z_scope.

(** ** A call on a node *)

(** The apply cursor stays and the commit index does not move backwards. *)
Definition commits (r r' : Raft) : Prop :=
  last_applied_ r' = last_applied_ r ∧ commit_index_ r ≤ commit_index_ r'.

#[export] Instance commits_preorder : PreOrder commits.
Proof. split; [by split|]. intros r1 r2 r3 [? ?] [? ?]. split; [congruence|lia]. Qed.

Lemma commits_same r r' :
  last_applied_ r' = last_applied_ r → commit_index_ r' = commit_index_ r → commits r r'.
Proof. intros ? E. split; [done|lia]. Qed.
#[export] Hint Resolve commits_same : mlsm.

Lemma BecomeLeader_commits r : commits r (BecomeLeader r).
Proof. rewrite BecomeLeader_eq, BroadcastAppendEntries_eq. by apply commits_same. Qed.

Lemma BecomeCandidate_commits r : commits r (BecomeCandidate r).
Proof.
  rewrite BecomeCandidate_eq. simpl. destruct (_ <=? 1); [|by apply commits_same].
  trans (candidate_state r); [by apply commits_same|apply BecomeLeader_commits].
Qed.

Lemma BecomeFollower_commits term leader r : commits r (BecomeFollower term leader r).
Proof. unfold BecomeFollower. destruct (_ <? _); by apply commits_same. Qed.

Lemma HandleRequestVote_commits msg r : commits r (HandleRequestVote msg r).
Proof. unfold HandleRequestVote. destruct (_ && _); by apply commits_same. Qed.

Lemma MaybeCommit_commits r : commits r (MaybeCommit r).
Proof.
  destruct (MaybeCommit_cases r) as [->|(c & -> & ? & _)]; [done|]. split; simpl; [done|lia].
Qed.

Lemma HandleAppendEntriesResp_commits msg r : commits r (HandleAppendEntriesResp msg r).
Proof.
  unfold HandleAppendEntriesResp. destruct (success msg).
  - etrans; [|apply MaybeCommit_commits]. by apply commits_same.
  - destruct (_ <? peer_index _ _); by apply commits_same.
Qed.

Lemma Propose_commits data r : commits r (Propose data r).2.
Proof.
  unfold Propose. destruct (role_ r); simpl; [done..|].
  etrans; [|apply MaybeCommit_commits]. by apply commits_same.
Qed.

Lemma Tick_commits r : commits r (Tick r).
Proof.
  unfold Tick. destruct (role_ r); simpl; destruct (_ <=? _); try by apply commits_same.
  - etrans; [|apply BecomeCandidate_commits]. by apply commits_same.
  - etrans; [|apply BecomeCandidate_commits]. by apply commits_same.
  - rewrite BroadcastAppendEntries_eq. by apply commits_same.
Qed.

(** *** Accepting entries *)

(** Accepted entries are in the log afterwards. *)
Lemma accept_log_length p l es : consecutive p es → (p ≤ length l)%nat →
  (p + length es ≤ length (accept_log l es))%nat.
Proof.
  unfold accept_log. revert p l. induction es as [|e es IH]; intros p l Hes Hp; simpl; [lia|].
  destruct (consecutive_cons _ _ _ Hes) as [He Hes'].
  etrans; [|apply (IH (S p)); [done|]]; [lia|].
  unfold append_one. rewrite He, Nat2Z.id. destruct (l !! p) as [x|] eqn:Ex.
  - apply lookup_lt_Some in Ex. destruct (_ =? _); [lia|].
    rewrite length_app, length_take. simpl. lia.
  - rewrite length_app. simpl. lia.
Qed.

(** An AppendEntries message carries consecutive entries, up to the commit index
    of its sender at least. *)
Definition append_ok (msg : Message) : Prop :=
  ∃ p, prev_log_index msg = Z.of_nat p ∧ consecutive (S p) (entries msg) ∧
    leader_commit msg ≤ Z.of_nat (p + length (entries msg)).

Lemma HandleAppendEntries_commits msg r :
  append_ok msg → log_fits r → Z.of_nat (length (log_ r) + length (entries msg)) < 2 ^ 64 →
  commits r (HandleAppendEntries msg r).
Proof.
  intros (p & Hp & Hes & Hlc) Hf Hlen. unfold HandleAppendEntries.
  set (r1 := set_election_elapsed 0 (set_leader (m_from msg) r)). destruct (_ || _) eqn:Hrej; [by apply commits_same|].
  apply orb_false_iff in Hrej as [Hlast%Z.ltb_ge _].
  rewrite (LastIndex_eq r1 Hf), Hp in Hlast. simpl in Hlast.
  fold (append_entries r1 (entries msg)). pose proof (append_entries_frame r1 (entries msg)) as Efr.
  destruct (append_entries_log r1 (entries msg)) as [Elog Hf2]; [apply Hf|done|..].
  { apply Forall_forall. intros e [k He]%list_elem_of_lookup_1. rewrite (Hes k e He). lia. }
  pose proof (accept_log_length (S p) (log_ r1) (entries msg) Hes ltac:(simpl; lia)) as Hacc.
  rewrite <-Elog in Hacc. set (r2 := append_entries r1 (entries msg)) in *.
  assert (last_applied_ r2 = last_applied_ r ∧ commit_index_ r2 = commit_index_ r) as [E1 E2]
    by (rewrite Efr; by split).
  clearbody r2. rewrite (LastIndex_eq r2 Hf2), E2.
  destruct (Z.ltb_spec (commit_index_ r) (leader_commit msg)); [|by apply commits_same].
  split; simpl; [done|lia].
Qed.

Lemma StepRole_commits msg r : log_fits r →
  (m_type msg = kAppendEntries →
     append_ok msg ∧ Z.of_nat (length (log_ r) + length (entries msg)) < 2 ^ 64) →
  commits r (StepRole msg r).
Proof.
  intros Hf Happ. unfold StepRole.
  destruct (role_ r); [unfold StepFollower|unfold StepCandidate|unfold StepLeader];
    destruct (m_type msg); try done; try apply HandleRequestVote_commits;
    try (destruct (Happ eq_refl); by apply HandleAppendEntries_commits); try apply HandleAppendEntriesResp_commits.
  - destruct (vote_granted msg); [|done].
    set (r1 := if bool_decide _ then _ else _).
    assert (commits r r1) by (unfold r1; case_bool_decide; by apply commits_same).
    destruct (_ <=? _); [|done]. etrans; [done|apply BecomeLeader_commits].
  - etrans; [apply BecomeFollower_commits|]. unfold BecomeFollower.
    destruct (Happ eq_refl).
    apply HandleAppendEntries_commits; [done|destruct (_ <? _); done..].
Qed.

Lemma Step_commits msg r : log_fits r →
  (m_type msg = kAppendEntries →
     append_ok msg ∧ Z.of_nat (length (log_ r) + length (entries msg)) < 2 ^ 64) →
  commits r (Step msg r).
Proof.
  intros Hf Happ. unfold Step. destruct (_ <? _).
  - etrans; [apply BecomeFollower_commits|]. unfold BecomeFollower.
    by apply StepRole_commits; destruct (_ <? _).
  - destruct (_ <? _); [|by apply StepRole_commits]. unfold RejectStale.
    destruct (m_type msg); by apply commits_same.
Qed.

(** ** Clusters *)

Section cluster.
Context (peers : list Z) (election_ticks heartbeat_ticks : Z → Z).
Context (peers_nodup : NoDup peers) (peers_pos : ∀ p, p ∈ peers → 0 < p).
Abbreviation csim := (csim peers election_ticks heartbeat_ticks).
Abbreviation safe := (safe peers).
Abbreviation cluster_step := (cluster_step peers).
Abbreviation cluster_init := (cluster_init peers election_ticks heartbeat_ticks).
Implicit Types (i j : Z) (n : node) (r : Raft) (a : astate) (c : cluster).

(** What a node considers committed. *)
Lemma seen_committed a i r n : safe a → (i, n) ∈ hist a → core_rel r n →
  log_wf n ∧ committed peers (hist a) n ∧ Z.to_nat (commit_index_ r) = commit n.
Proof.
  intros [HI HL HR HC] Hn Hc. split_and!; [by eapply HL|by eapply HC|].
  rewrite (core_commit _ _ Hc). lia.
Qed.

(** States that were seen agree on what both consider committed. *)
Lemma seen_agree N c a i1 r1 i2 r2 m :
  csim N c a → (i1, r1) ∈ seen c → (i2, r2) ∈ seen c →
  Z.of_nat m ≤ commit_index_ r1 → Z.of_nat m ≤ commit_index_ r2 →
  take (S m) (log_ r1) = take (S m) (log_ r2).
Proof.
  intros [Hsafe _ _ _ _ Hs] H1 H2 K1 K2.
  destruct (Hs _ _ H1) as (n1 & Hn1 & C1), (Hs _ _ H2) as (n2 & Hn2 & C2).
  destruct (seen_committed a _ _ _ Hsafe Hn1 C1) as (W1 & Hc1 & E1).
  destruct (seen_committed a _ _ _ Hsafe Hn2 C2) as (W2 & Hc2 & E2).
  destruct Hsafe as [HI HL HR HC]. rewrite <-(core_log _ _ C1), <-(core_log _ _ C2).
  eapply (committed_agree peers); [done..| |]; lia.
Qed.

(** Every state that was seen has its indices inside its log. *)
Lemma seen_in_range N c a i r : csim N c a → N < 2 ^ 62 → (i, r) ∈ seen c →
  log_fits r ∧ 0 ≤ commit_index_ r < Z.of_nat (length (log_ r)) ∧
  Z.of_nat (length (log_ r)) ≤ N + 1.
Proof.
  intros [Hsafe Hb _ _ _ Hs] HN H1. destruct (Hs _ _ H1) as (n & Hn & C1).
  destruct (seen_committed a _ _ _ Hsafe Hn C1) as (W & Hc & E).
  pose proof (committed_lt _ _ _ W Hc) as Hlt. destruct (Hb _ _ Hn) as [_ Hl].
  pose proof (wf_sentinel _ W) as H0. rewrite (core_log _ _ C1) in *.
  rewrite (core_commit _ _ C1). split_and!; [|lia..]. split; [by intros E0; rewrite E0 in H0|lia].
Qed.

(** The AppendEntries messages of the network. *)
Lemma network_append_ok N c a msg :
  csim N c a → msg ∈ network c → m_type msg = kAppendEntries →
  append_ok msg ∧ prev_log_index msg + Z.of_nat (length (entries msg)) ≤ N.
Proof.
  intros [[HI HL HR HC] Hb _ _ Hnet _] Hin Htype. rewrite Forall_forall in Hnet.
  destruct (Hnet msg Hin) as [_ Hm]. rewrite Htype in Hm.
  destruct Hm as (p & lc & Hp & Hlc & Hm).
  destruct (lg_append _ HL _ _ _ _ _ _ _ Hm) as (_ & ld & Hld & _ & _ & Hpl & _ & Ees & ->).
  pose proof (lg_wf _ HL _ _ Hld) as Hwf. destruct (Hb _ _ Hld) as [_ Hl].
  pose proof (committed_lt _ _ _ Hwf (HC _ _ Hld)).
  rewrite Ees, Hp, length_drop. split; [|lia]. exists p. rewrite Ees, Hlc, length_drop.
  split_and!; [done| |lia]. intros k e He. rewrite lookup_drop in He.
  rewrite (wf_indexed _ Hwf _ _ He). lia.
Qed.

(** What a node handed to its state machine since it started: its log up to the
    apply cursor. *)
Definition handed (r : Raft) (ap : list LogEntry) : Prop :=
  0 ≤ last_applied_ r ≤ commit_index_ r ∧ ap = take (Z.to_nat (last_applied_ r)) (drop 1 (log_ r)).

Lemma handed_kept r r' ap : handed r ap → commits r r' →
  take (S (Z.to_nat (commit_index_ r))) (log_ r) = take (S (Z.to_nat (commit_index_ r))) (log_ r') →
  handed r' ap.
Proof.
  intros [Hla ->] [El Hc] E. unfold handed. rewrite El. split; [lia|].
  assert (∀ l : list LogEntry, take (Z.to_nat (last_applied_ r)) (drop 1 l) =
    take (Z.to_nat (last_applied_ r)) (drop 1 (take (S (Z.to_nat (commit_index_ r))) l))) as Hcut.
  { intros l. rewrite skipn_firstn_comm, take_take. f_equal. lia. }
  rewrite (Hcut (log_ r)), (Hcut (log_ r')). by rewrite E.
Qed.

Lemma handed_TakeCommitted r ap :
  handed r ap → log_fits r → commit_index_ r < Z.of_nat (length (log_ r)) →
  handed (TakeCommitted r).2 (ap ++ (TakeCommitted r).1).
Proof.
  intros [Hla ->] [_ Hf] Hc. split; simpl; [lia|]. rewrite u64_small by lia.
  replace (last_applied_ r + 1) with (Z.of_nat (S (Z.to_nat (last_applied_ r)))) by lia.
  replace (commit_index_ r) with (Z.of_nat (Z.to_nat (commit_index_ r))) at 1 by lia.
  rewrite entries_between_take by lia.
  change (drop (S (Z.to_nat (last_applied_ r))) (log_ r))
    with (drop (1 + Z.to_nat (last_applied_ r)) (log_ r)).
  rewrite <-drop_drop, take_take_drop. f_equal. lia.
Qed.

(** A call keeps track of what was handed out. *)
Lemma node_op_handed N c a i r ap :
  csim N c a → N + 1 < 2 ^ 62 → (i, servers c i) ∈ seen c →
  handed (servers c i) (applied c i) → node_op (network c) i (servers c i) (applied c i) r ap →
  (ap = applied c i ∧ commits (servers c i) r) ∨ handed r ap.
Proof.
  intros Hsim HN Hin Hh Hop.
  destruct (seen_in_range N c a i _ Hsim ltac:(lia) Hin) as (Hf & Hcm & Hl).
  destruct Hop as [r' ap' [|msg Hm Hto|data|]| |r' ap' t v l _ _]; [left; split; [done|]..|right|right|right].
  - apply Tick_commits.
  - apply Step_commits; [done|]. intros Ht.
    destruct (network_append_ok N c a msg Hsim Hm Ht) as [(p & Hp & ?) ?].
    split; [by exists p|lia].
  - apply Propose_commits.
  - apply handed_TakeCommitted; [done..|lia].
  - unfold restarted. rewrite Restore_eq. by split.
  - unfold restarted. rewrite Restore_eq. by split.
Qed.

Lemma handed_saved r ap : handed r ap ↔ handed (TakeMessages (saved r)).2 ap.
Proof. done. Qed.

Lemma applied_steps k c : nsteps cluster_step k cluster_init c → Z.of_nat k < 2 ^ 62 →
  ∀ i, i ∈ peers → (i, servers c i) ∈ seen c ∧ handed (servers c i) (applied c i).
Proof.
  revert c. induction k as [|k IH]; intros c Hk HN.
  { inversion Hk; subst. intros i Hi. split; [|by split]. apply list_elem_of_fmap. by exists i. }
  destruct (csim_steps _ _ _ peers_nodup peers_pos _ _ Hk HN) as (a' & _ & Hsim').
  apply nsteps_inv_r in Hk as (c1 & Hk & Hstep).
  destruct (csim_steps _ _ _ peers_nodup peers_pos _ _ Hk ltac:(lia)) as (a & _ & Hsim).
  specialize (IH c1 Hk ltac:(lia)). destruct Hstep as [i r ap Hi Hop]. intros j Hj.
  destruct (decide (j = i)) as [->|Hne]; simpl.
  2:{ rewrite !fn_lookup_insert_ne by done. destruct (IH j Hj). split; [by apply subset_app|done]. }
  rewrite !fn_lookup_insert. assert ((i, (TakeMessages (saved r)).2) ∈ seen (after_call c1 i r ap)) as Hnew
    by (apply in_snoc; by right). split; [exact Hnew|].
  destruct (IH i Hi) as [Hin Hh].
  destruct (node_op_handed _ c1 a i r ap Hsim ltac:(lia) Hin Hh Hop) as [[-> Hc]|?]; [|done].
  apply (handed_kept (servers c1 i)); [done..|].
  eapply (seen_agree _ _ _ i _ i); [exact Hsim'|by apply subset_app|exact Hnew|..];
    destruct Hh, Hc; simpl; lia.
Qed.

(** The entries that two nodes handed out agree. *)
Lemma handed_agree N c a i j :
  csim N c a → (i, servers c i) ∈ seen c → (j, servers c j) ∈ seen c →
  handed (servers c i) (applied c i) → handed (servers c j) (applied c j) →
  last_applied_ (servers c i) ≤ last_applied_ (servers c j) →
  applied c i `prefix_of` applied c j.
Proof.
  intros Hsim Hi Hj [Hli ->] [Hlj ->] Hle.
  set (m := Z.to_nat (last_applied_ (servers c i))).
  assert (take (S m) (log_ (servers c i)) = take (S m) (log_ (servers c j))) as E
    by (apply (seen_agree N c a i _ j); [done..|unfold m; lia|unfold m; lia]).
  assert (take m (drop 1 (log_ (servers c i))) = take m (drop 1 (log_ (servers c j)))) as ->.
  { apply (f_equal (drop 1)) in E. rewrite !skipn_firstn_comm in E.
    by replace (S m - 1)%nat with m in E by lia. }
  set (m' := Z.to_nat (last_applied_ (servers c j))).
  replace m with (m `min` m')%nat by lia. rewrite <-take_take. apply take_prefix_of.
Qed.
End cluster.
