(* ===== verification/RaftTheorems.v ===== *)
(** * What a cluster of Raft nodes guarantees

    Election Safety, Log Matching, Leader Completeness and State Machine Safety
    of clusters of C++ Raft nodes, as consequences of the refinement, that the
    nodes hand the same commands to their state machines, and a run of a cluster
    on which the theorems are evaluated. *)

From S2P Require Import Prelude Raft RaftModel RaftElection RaftLogs RaftCommit RaftNode RaftCluster RaftRefine RaftApply.
Local Open Scope Z_scope.

(** A cluster of nodes with distinct identifiers (0 means none in the code) in a
    state that [k] calls on its nodes lead to.  The bound keeps terms and indices
    inside 64 bits. *)
Record cluster_run (peers : list Z) (election_ticks heartbeat_ticks : Z → Z) (k : nat)
    (c : cluster) : Prop := {
  run_distinct : NoDup peers;
  run_ids : ∀ p, p ∈ peers → 0 < p;
  run_steps : nsteps (cluster_step peers) k (cluster_init peers election_ticks heartbeat_ticks) c;
  run_length : Z.of_nat k < 2 ^ 62;
}.

Section theorems.
Context (peers : list Z) (election_ticks heartbeat_ticks : Z → Z) (k : nat) (c : cluster).
Abbreviation cluster_run := (cluster_run peers election_ticks heartbeat_ticks k c).

(** The protocol state that a cluster stands for. *)
Lemma run_csim : cluster_run →
  ∃ a, areachable peers a ∧ csim peers election_ticks heartbeat_ticks (Z.of_nat k) c a.
Proof. intros [Hn Hp Hs Hk]. by apply csim_steps. Qed.

(** C7: refinement.  Whatever the nodes of a cluster do in fewer than [2^62]
    calls, with messages lost, duplicated and reordered, with restarts and with
    crashes while a node is saved, is an execution of the abstract protocol: its
    nodes are in the states of the cluster's nodes, and every state a node was in
    occurs in its history. *)
Theorem raft_refines_protocol :
  cluster_run →
  ∃ a, areachable peers a ∧
    (∀ i, i ∈ peers → core_rel (servers c i) (nodes a i)) ∧
    (∀ i r, (i, r) ∈ seen c → ∃ n, (i, n) ∈ hist a ∧ core_rel r n).
Proof.
  intros (a & Ha & [_ _ Hn _ _ Hs])%run_csim. exists a.
  split_and!; [done| |done]. intros i Hi. by apply Hn.
Qed.

(** C4: Election Safety.  Two states of any nodes, at any two moments, that are
    leaders of the same term are states of the same node. *)
Theorem raft_election_safety i1 r1 i2 r2 :
  cluster_run → (i1, r1) ∈ seen c → (i2, r2) ∈ seen c →
  role_ r1 = kLeader → role_ r2 = kLeader → current_term_ r1 = current_term_ r2 → i1 = i2.
Proof.
  intros Hrun H1 H2 R1 R2 Et. pose proof (run_ids _ _ _ _ _ Hrun) as Hpos.
  destruct (run_csim Hrun) as (a & _ & [[HI _ _ _] _ _ _ _ Hs]).
  destruct (Hs _ _ H1) as (n1 & Hn1 & C1), (Hs _ _ H2) as (n2 & Hn2 & C2).
  destruct C1, C2. eapply (leaders_agree peers Hpos a _ _ _ _ HI Hn1 Hn2); congruence.
Qed.

(** C5: Log Matching.  If two logs, of any nodes at any two moments, have entries
    of the same term at an index, they are equal up to and including it. *)
Theorem raft_log_matching i1 r1 i2 r2 m e1 e2 :
  cluster_run → (i1, r1) ∈ seen c → (i2, r2) ∈ seen c →
  log_ r1 !! m = Some e1 → log_ r2 !! m = Some e2 → e_term e1 = e_term e2 →
  take (S m) (log_ r1) = take (S m) (log_ r2).
Proof.
  intros Hrun H1 H2 E1 E2 Et. pose proof (run_ids _ _ _ _ _ Hrun) as Hpos.
  destruct (run_csim Hrun) as (a & _ & [[HI HL _ _] _ _ _ _ Hs]).
  destruct (Hs _ _ H1) as (n1 & Hn1 & C1), (Hs _ _ H2) as (n2 & Hn2 & C2).
  rewrite <-(core_log _ _ C1), <-(core_log _ _ C2) in *. by eapply (matching_take_hist peers).
Qed.

(** C6: Leader Completeness.  What a node considered committed at any moment is
    in the log of every leader of a later term than that node's. *)
Theorem raft_leader_completeness i r j l m :
  cluster_run → (i, r) ∈ seen c → (j, l) ∈ seen c →
  Z.of_nat m ≤ commit_index_ r → role_ l = kLeader → current_term_ r < current_term_ l →
  take (S m) (log_ l) = take (S m) (log_ r).
Proof.
  intros Hrun H1 H2 Hm Rl Ht. pose proof (run_ids _ _ _ _ _ Hrun) as Hpos.
  destruct (run_csim Hrun) as (a & _ & [Hsafe _ _ _ _ Hs]).
  destruct (Hs _ _ H1) as (n1 & Hn1 & C1), (Hs _ _ H2) as (n2 & Hn2 & C2).
  destruct (seen_committed peers a i r n1 Hsafe Hn1 C1) as (W1 & Hcom & Ec).
  destruct Hsafe as [HI HL HR HC].
  rewrite <-(core_log _ _ C1), <-(core_log _ _ C2).
  destruct Hcom as [Hz|(l0 & m0 & Hch & Tl & Hle & E)].
  - assert (m = 0%nat) as -> by lia.
    by rewrite (take_S_r _ _ _ (wf_sentinel _ W1)),
      (take_S_r _ _ _ (wf_sentinel _ (lg_wf _ HL _ _ Hn2))).
  - rewrite (take_S_le m (commit n1) (nlog n1) (nlog l0) E) by lia.
    apply (take_S_le m m0); [|lia].
    eapply (leader_complete peers Hpos a l0 m0 j n2 HI HL HR Hch Hn2).
    + by rewrite (core_role _ _ C2).
    + rewrite (core_term _ _ C2). rewrite (core_term _ _ C1) in Tl. lia.
Qed.

(** C1: State Machine Safety.  No two nodes, at any two moments, consider
    different entries committed at the same index: up to the smaller commit
    index their logs are equal. *)
Theorem raft_state_machine_safety i1 r1 i2 r2 m :
  cluster_run → (i1, r1) ∈ seen c → (i2, r2) ∈ seen c →
  Z.of_nat m ≤ commit_index_ r1 → Z.of_nat m ≤ commit_index_ r2 →
  take (S m) (log_ r1) = take (S m) (log_ r2).
Proof.
  intros Hrun. pose proof (run_ids _ _ _ _ _ Hrun) as Hpos.
  destruct (run_csim Hrun) as (a & _ & Hsim). by eapply seen_agree.
Qed.

(** C2: the state machines get the same commands.  What [TakeCommitted] returned
    on a node since it started is its log up to the apply cursor, every entry
    once and in order; and of what two nodes handed out, one is a prefix of the
    other. *)
Theorem raft_applied_agree i j :
  cluster_run → i ∈ peers → j ∈ peers →
  applied c i = take (Z.to_nat (last_applied_ (servers c i))) (drop 1 (log_ (servers c i))) ∧
  0 ≤ last_applied_ (servers c i) ≤ commit_index_ (servers c i) ∧
  (applied c i `prefix_of` applied c j ∨ applied c j `prefix_of` applied c i).
Proof.
  intros Hrun Hi Hj. destruct (run_csim Hrun) as (a & _ & Hsim). destruct Hrun as [Hn Hp Hs Hk].
  destruct (applied_steps _ _ _ Hn Hp _ _ Hs Hk i Hi) as [Si Ai].
  destruct (applied_steps _ _ _ Hn Hp _ _ Hs Hk j Hj) as [Sj Aj].
  split_and!; [apply Ai..|].
  destruct (decide (last_applied_ (servers c i) ≤ last_applied_ (servers c j)));
    [left|right]; eapply handed_agree; eauto with lia.
Qed.

(** C28: indices stay inside the log.  In every state a node was in, the log
    starts with the sentinel, every entry carries its position, and the commit
    index is an index of the log: [log_[i]] is never read out of range, neither
    by [TakeCommitted] nor by [SendAppendEntries]. *)
Theorem raft_indices_in_range i r :
  cluster_run → (i, r) ∈ seen c →
  log_ r !! 0%nat = Some (mkLogEntry 0 0 []) ∧
  (∀ m e, log_ r !! m = Some e → e_index e = Z.of_nat m ∧ e_term e ≤ current_term_ r) ∧
  LastIndex r = Z.of_nat (length (log_ r)) - 1 ∧ 0 ≤ commit_index_ r ≤ LastIndex r.
Proof.
  intros Hrun H1. destruct (run_csim Hrun) as (a & _ & Hsim).
  destruct (seen_in_range _ _ _ _ _ _ i r Hsim (run_length _ _ _ _ _ Hrun) H1) as (Hf & Hc & _).
  destruct (cs_seen _ _ _ _ _ _ Hsim _ _ H1) as (n & Hn & C1).
  destruct (seen_committed peers a _ _ _ (cs_safe _ _ _ _ _ _ Hsim) Hn C1) as (W & _ & _).
  rewrite (LastIndex_eq r Hf). rewrite <-(core_log _ _ C1), <-(core_term _ _ C1) in *.
  split_and!; [apply W| |done|lia|lia]. intros m e He. split; by eapply W.
Qed.
End theorems.

(** ** A run of three nodes

    Node 1 wins term 1 with the vote of node 2, replicates and commits a
    command, and restarts; node 2 wins term 2 and both apply the command; node 3
    crashes twice while it persists an entry, having persisted its term only and
    then the entry too. *)

Definition demo_peers : list Z := [1; 2; 3].
Definition demo_events : list event :=
  (ECall <$> [CTick 1; CDeliver 0; CDeliver 2; CPropose 1 (str "x"); CTick 1; CDeliver 5;
              CDeliver 7; CTick 1; CDeliver 8]) ++ [ERestart 1] ++
  (ECall <$> [CTick 2; CTick 2; CDeliver 11; CDeliver 13; CApply 2; CDeliver 14; CApply 1]) ++
  [ECrash (CDeliver 6) None; ECrash (CDeliver 6) (Some 1%nat)].
Definition demo_init : cluster := cluster_init demo_peers (λ i, i) (λ _, 1).
Definition demo_cluster : cluster := default demo_init (exec demo_peers demo_events demo_init).

(** The node and the state after the [k]-th event. *)
Definition demo_seen (k : nat) : Z * Raft :=
  default (0, Raft_new (mkConfig 0 [] 0 0)) (seen demo_cluster !! (k + 2)%nat).

Lemma demo_nodup : NoDup demo_peers.
Proof. apply (bool_decide_unpack _). vm_compute. exact I. Qed.

Lemma demo_pos p : p ∈ demo_peers → 0 < p.
Proof. unfold demo_peers. rewrite !elem_of_cons, elem_of_nil. lia. Qed.

Lemma demo_run :
  cluster_run demo_peers (λ i, i) (λ _, 1) (length demo_events) demo_cluster.
Proof.
  split; [exact demo_nodup|exact demo_pos| |vm_compute; reflexivity].
  apply exec_steps. unfold demo_cluster.
  destruct (exec demo_peers demo_events demo_init) as [c|] eqn:E; [done|].
  exfalso. revert E. vm_compute. discriminate.
Qed.

Lemma demo_seen_in k : is_Some (seen demo_cluster !! (k + 2)%nat) →
  ((demo_seen k).1, (demo_seen k).2) ∈ seen demo_cluster.
Proof.
  unfold demo_seen. generalize (seen demo_cluster). intros h [[i r] E]. rewrite E.
  by eapply list_elem_of_lookup_2.
Qed.

Ltac demo_in := apply demo_seen_in; vm_compute; eexists; reflexivity.

Lemma raft_refines_protocol_witness :
  ∃ a, areachable demo_peers a ∧
    (∀ i, i ∈ demo_peers → core_rel (servers demo_cluster i) (nodes a i)) ∧
    (∀ i r, (i, r) ∈ seen demo_cluster → ∃ n, (i, n) ∈ hist a ∧ core_rel r n).
Proof.
  apply (raft_refines_protocol demo_peers (λ i, i) (λ _, 1) (length demo_events)).
  exact demo_run.
Defined.

Lemma raft_election_safety_witness : (demo_seen 3).1 = (demo_seen 7).1.
Proof.
  apply (raft_election_safety demo_peers (λ i, i) (λ _, 1) (length demo_events) demo_cluster
           _ (demo_seen 3).2 _ (demo_seen 7).2);
    [exact demo_run|demo_in|demo_in|vm_compute; reflexivity..].
Defined.

Lemma raft_log_matching_witness :
  take 2 (log_ (demo_seen 6).2) = take 2 (log_ (demo_seen 14).2).
Proof.
  apply (raft_log_matching demo_peers (λ i, i) (λ _, 1) (length demo_events) demo_cluster
           (demo_seen 6).1 _ (demo_seen 14).1 _ 1%nat
           (mkLogEntry 1 1 (str "x")) (mkLogEntry 1 1 (str "x")));
    [exact demo_run|demo_in|demo_in|vm_compute; reflexivity..].
Defined.

Lemma raft_leader_completeness_witness :
  take 2 (log_ (demo_seen 14).2) = take 2 (log_ (demo_seen 7).2).
Proof.
  apply (raft_leader_completeness demo_peers (λ i, i) (λ _, 1) (length demo_events) demo_cluster
           (demo_seen 7).1 _ (demo_seen 14).1 _ 1%nat);
    [exact demo_run|demo_in|demo_in|vm_compute; discriminate|vm_compute; reflexivity..].
Defined.

Lemma raft_state_machine_safety_witness :
  take 2 (log_ (demo_seen 7).2) = take 2 (log_ (demo_seen 9).2).
Proof.
  apply (raft_state_machine_safety demo_peers (λ i, i) (λ _, 1) (length demo_events) demo_cluster
           (demo_seen 7).1 _ (demo_seen 9).1 _ 1%nat);
    [exact demo_run|demo_in|demo_in|vm_compute; discriminate..].
Defined.

Lemma raft_applied_agree_witness :
  applied demo_cluster 1 = [mkLogEntry 1 1 (str "x")] ∧
  applied demo_cluster 1 =
    take (Z.to_nat (last_applied_ (servers demo_cluster 1)))
      (drop 1 (log_ (servers demo_cluster 1))) ∧
  0 ≤ last_applied_ (servers demo_cluster 1) ≤ commit_index_ (servers demo_cluster 1) ∧
  (applied demo_cluster 1 `prefix_of` applied demo_cluster 2 ∨
   applied demo_cluster 2 `prefix_of` applied demo_cluster 1).
Proof.
  split; [vm_compute; reflexivity|].
  apply (raft_applied_agree demo_peers (λ i, i) (λ _, 1) (length demo_events));
    [exact demo_run|apply (bool_decide_unpack _); vm_compute; exact I..].
Defined.

Lemma raft_indices_in_range_witness :
  let r := (demo_seen 9).2 in
  log_ r !! 0%nat = Some (mkLogEntry 0 0 []) ∧
  (∀ m e, log_ r !! m = Some e → e_index e = Z.of_nat m ∧ e_term e ≤ current_term_ r) ∧
  LastIndex r = Z.of_nat (length (log_ r)) - 1 ∧ 0 ≤ commit_index_ r ≤ LastIndex r.
Proof.
  apply (raft_indices_in_range demo_peers (λ i, i) (λ _, 1) (length demo_events) demo_cluster
           (demo_seen 9).1); [exact demo_run|demo_in].
Defined.


Lemma MaybeCommit_highest_witness :
  let r := (demo_seen 6).2 in
  let good n := TermAt n r = current_term_ r ∧
    (length (peers (config_ r)) < 2 * length (holders r n))%nat in
  (MaybeCommit r = r ∧ ∀ n, commit_index_ r < n ≤ LastIndex r → ¬ good n) ∨
  (∃ c, MaybeCommit r = set_commit_index c r ∧ commit_index_ r < c ≤ LastIndex r ∧ good c ∧
     ∀ n, c < n ≤ LastIndex r → ¬ good n).
Proof.
  apply MaybeCommit_highest.
  - apply (bool_decide_unpack _). vm_compute. exact I.
  - apply (bool_decide_unpack _). vm_compute. exact I.
Defined.
