(* ===== verification/RaftProgress.v ===== *)
(** * Progress of a cluster with a leader

    A command proposed to the leader of a cluster can always be committed on all
    nodes by heartbeats and deliveries alone, whatever the followers' logs hold:
    each exchange of an AppendEntries and its answer either makes the follower
    take over the leader's log or lowers its next index by one. *)

From S2P Require Import Prelude Raft RaftModel RaftElection RaftLogs RaftCommit RaftNode RaftCluster RaftRefine RaftApply RaftTheorems.
Local Open Scope Z_scope.

(** ** A leader and a follower *)

(** Entries of the same term at the same position end equal logs. *)
Definition logs_match (l1 l2 : list LogEntry) : Prop :=
  ∀ m a b, l1 !! m = Some a → l2 !! m = Some b → e_term a = e_term b →
  take (S m) l1 = take (S m) l2.

Lemma logs_match_agree l1 l2 : logs_match l1 l2 → agree l1 l2.
Proof.
  intros Hm k a b Ha Hb Et. pose proof (Hm k a b Ha Hb Et) as E.
  eapply take_S_lookup in E; [|done]. congruence.
Qed.

Lemma logs_match_refl l : logs_match l l.
Proof. done. Qed.

Lemma logs_match_snoc l1 l2 e :
  logs_match l1 l2 → (∀ b, l2 !! length l1 = Some b → e_term b ≠ e_term e) →
  logs_match (l1 ++ [e]) l2.
Proof.
  intros Hm He m a b Ha Hb Et. destruct (decide (m < length l1)%nat) as [Hlt|Hge].
  - rewrite lookup_app_l in Ha by done. rewrite take_app_le by lia. by eapply Hm.
  - apply lookup_lt_Some in Ha as Hlen. rewrite length_app in Hlen. simpl in Hlen.
    assert (m = length l1) as -> by lia. rewrite lookup_app_r, Nat.sub_diag in Ha by lia.
    injection Ha as <-. by destruct (He b Hb).
Qed.

(** A node in the state [L] leads peer [j] in the state [F]: their logs match,
    [F] does not know a later term, and the next index for [j] is one of the
    log of [L] or the one after it. *)
Record leads (j : Z) (L F : Raft) : Prop := {
  ld_role : role_ L = kLeader;
  ld_fits : log_fits F ∧ Z.of_nat (length (log_ F)) < 2 ^ 63;
  ld_fits_leader : log_fits L ∧ Z.of_nat (length (log_ L)) < 2 ^ 63;
  ld_sentinel : log_ F !! 0%nat = Some sentinel;
  ld_sentinel_leader : log_ L !! 0%nat = Some sentinel;
  ld_indexed : indexed (log_ L);
  ld_match : logs_match (log_ L) (log_ F);
  ld_term : current_term_ F ≤ current_term_ L;
  ld_only : current_term_ F = current_term_ L → role_ F ≠ kLeader;
  ld_next : ∃ k, (k < length (log_ L))%nat ∧ peer_index (next_index_ L) j = Z.of_nat (S k);
  ld_commit : commit_index_ L ≤ LastIndex L;
}.

(** A follower of a leader's term or an earlier one handles its AppendEntries in
    the leader's term. *)
Lemma Step_append msg F :
  m_type msg = kAppendEntries → current_term_ F ≤ m_term msg →
  (current_term_ F = m_term msg → role_ F ≠ kLeader) →
  ∃ F1, Step msg F = HandleAppendEntries msg F1 ∧ current_term_ F1 = m_term msg ∧
    role_ F1 = kFollower ∧ log_ F1 = log_ F ∧ config_ F1 = config_ F ∧
    out_msgs_ F1 = out_msgs_ F.
Proof.
  intros Ht Hterm Hlead. unfold Step. destruct (Z.ltb_spec (current_term_ F) (m_term msg)).
  - eexists. unfold StepRole, StepFollower. cbn [role_ BecomeFollower set_election_elapsed set_leader set_role].
    rewrite Ht. split; [done|]. unfold BecomeFollower.
    by rewrite (proj2 (Z.ltb_lt _ _)) by done.
  - rewrite (proj2 (Z.ltb_ge _ _)) by lia. unfold StepRole.
    destruct (role_ F) eqn:Hr; [..|by destruct Hlead; [lia|]].
    + exists F. unfold StepFollower. rewrite Ht. split_and!; [done|lia|done..].
    + eexists. unfold StepCandidate. rewrite Ht. split; [done|]. unfold BecomeFollower.
      rewrite (proj2 (Z.ltb_ge _ _)) by lia. split_and!; [simpl; lia|done..].
Qed.

(** What the answer to an AppendEntries says. *)
Lemma HandleAppendEntries_answer msg F L k :
  log_fits F ∧ Z.of_nat (length (log_ F)) < 2 ^ 63 → Z.of_nat (length (log_ L)) < 2 ^ 63 →
  log_ F !! 0%nat = Some sentinel → log_ L !! 0%nat = Some sentinel →
  indexed (log_ L) → logs_match (log_ L) (log_ F) → (k < length (log_ L))%nat →
  prev_log_index msg = Z.of_nat k → prev_log_term msg = term_at k (log_ L) →
  entries msg = drop (S k) (log_ L) → leader_commit msg ≤ Z.of_nat (length (log_ L)) - 1 →
  let F' := HandleAppendEntries msg F in
  let resp := AppendEntriesResp (id (config_ F)) (m_from msg) (current_term_ F) in
  (out_msgs_ F' = out_msgs_ F ++ [resp false 0] ∧ log_ F' = log_ F ∧ (0 < k)%nat) ∨
  (out_msgs_ F' = out_msgs_ F ++ [resp true (Z.of_nat (length (log_ L)) - 1)] ∧
   log_ L `prefix_of` log_ F' ∧ (log_ F' = log_ F ∨ log_ F' = log_ L) ∧
   leader_commit msg ≤ commit_index_ F').
Proof.
  intros [Hf HF] HL HsF HsL Hidx Hm Hk Ep Et Ees Hlc. unfold HandleAppendEntries.
  set (F1 := set_election_elapsed 0 (set_leader (m_from msg) F)).
  assert (log_fits F1) as Hf1 by done. rewrite (LastIndex_eq F1 Hf1), Ep, Et, (TermAt_eq F1 k Hf1).
  change (log_ F1) with (log_ F). destruct (_ || _) eqn:Hrej.
  { left. split_and!; [done..|]. destruct k; [|lia]. exfalso.
    pose proof (log_fits_pos F Hf). rewrite (proj2 (Z.ltb_ge _ _)), decide_True in Hrej by lia.
    unfold term_at in Hrej. rewrite !(list_lookup_total_correct _ _ sentinel) in Hrej by done. done. }
  right. apply orb_false_iff in Hrej as [Hlast%Z.ltb_ge Hterm%negb_false_iff%Z.eqb_eq].
  rewrite decide_True in Hterm by lia.
  assert (take (S k) (log_ F) = take (S k) (log_ L)) as Etake.
  { destruct (lookup_lt_is_Some_2 (log_ L) k) as [a Ha]; [done|].
    destruct (lookup_lt_is_Some_2 (log_ F) k) as [b Hb]; [lia|]. symmetry. apply (Hm k a b Ha Hb).
    unfold term_at in Hterm.
    by rewrite (list_lookup_total_correct _ _ _ Ha), (list_lookup_total_correct _ _ _ Hb) in Hterm. }
  fold (append_entries F1 (entries msg)).
  destruct (append_entries_log F1 (entries msg)) as [Elog Hf2].
  { apply Hf. }
  { rewrite Ees, length_drop. simpl. lia. }
  { rewrite Ees. apply Forall_drop, Forall_lookup_2. intros m e ->%Hidx. lia. }
  pose proof (append_entries_frame F1 (entries msg)) as Efr.
  set (F2 := append_entries F1 (entries msg)) in *. rewrite (LastIndex_eq F2 Hf2).
  assert (config_ F2 = config_ F ∧ current_term_ F2 = current_term_ F ∧
          out_msgs_ F2 = out_msgs_ F) as (E1 & E2 & E3) by (rewrite Efr; by split_and!).
  clearbody F2. clear Efr.
  assert (log_ L `prefix_of` log_ F2 ∧ (log_ F2 = log_ F ∨ log_ F2 = log_ L)) as [Hpre Hcase].
  { rewrite Elog, Ees. change (log_ F1) with (log_ F).
    destruct (accept_log_spec (log_ F) (log_ L) k) as [[? ->]|[_ ->]]; auto.
    intros m a b Ha Hb Et'. symmetry. by eapply logs_match_agree. }
  pose proof (prefix_length _ _ Hpre) as Hlen.
  rewrite Ees, length_drop, u64_small by lia.
  split_and!.
  - destruct (_ <? _); simpl; rewrite E3; do 3 f_equal; lia.
  - by destruct (_ <? _).
  - by destruct (_ <? _).
  - destruct (Z.ltb_spec (commit_index_ F2) (leader_commit msg)); simpl; lia.
Qed.

Lemma HandleAppendEntries_frame msg F :
  config_ (HandleAppendEntries msg F) = config_ F ∧ role_ (HandleAppendEntries msg F) = role_ F.
Proof.
  unfold HandleAppendEntries. set (F1 := set_election_elapsed _ _). destruct (_ || _); [done|].
  fold (append_entries F1 (entries msg)). rewrite append_entries_frame. by destruct (_ <? _).
Qed.

(** The follower's side of an exchange. *)
Lemma follower_answers j L F :
  leads j L F →
  let F' := Step (append_msg L j) F in
  let resp := AppendEntriesResp (id (config_ F)) (id (config_ L)) (current_term_ L) in
  config_ F' = config_ F ∧ role_ F' = kFollower ∧ current_term_ F' = current_term_ L ∧
  ∃ k, (k < length (log_ L))%nat ∧ peer_index (next_index_ L) j = Z.of_nat (S k) ∧
  ((resp false 0 ∈ out_msgs_ F' ∧ log_ F' = log_ F ∧ (0 < k)%nat) ∨
   (resp true (LastIndex L) ∈ out_msgs_ F' ∧ log_ L `prefix_of` log_ F' ∧
    (log_ F' = log_ F ∨ log_ F' = log_ L) ∧ commit_index_ L ≤ commit_index_ F')).
Proof.
  intros [Hrole HF [HfL HL] HsF HsL Hidx Hm Hterm Honly (k & Hk & Ek) Hcom] F' resp.
  destruct (Step_append (append_msg L j) F) as (F1 & E & T1 & R1 & L1 & C1 & O1); [done..|].
  subst F'. rewrite E. destruct (HandleAppendEntries_frame (append_msg L j) F1) as [-> ->].
  destruct (HandleAppendEntries_hard_state (append_msg L j) F1) as [-> _].
  split_and!; [done..|]. exists k. split_and!; [done..|]. pose proof (log_fits_pos L HfL).
  assert (u64 (peer_index (next_index_ L) j - 1) = Z.of_nat k) as Ep
    by (rewrite Ek, u64_small; lia).
  destruct (HandleAppendEntries_answer (append_msg L j) F1 L k) as [(Ho & El & ?)|(Ho & ? & Hc & ?)];
    try rewrite L1; try done.
  - unfold log_fits. by rewrite L1.
  - unfold append_msg. cbn [prev_log_term AppendEntries]. rewrite Ep, (TermAt_eq L k HfL).
    by rewrite decide_True.
  - unfold append_msg. cbn [entries AppendEntries]. rewrite Ek, entries_between_drop; [done..|lia].
  - simpl. by rewrite <-(LastIndex_eq L HfL).
  - left. rewrite Ho, El, L1, C1, T1. split_and!; [|done..]. apply elem_of_app. right. left.
  - right. rewrite Ho, C1, T1, (LastIndex_eq L HfL). rewrite L1 in Hc.
    split_and!; [|done..]. apply elem_of_app. right. left.
Qed.

(** The leader's side. *)
Lemma leader_rejected i j m L k :
  role_ L = kLeader → peer_index (next_index_ L) j = Z.of_nat (S k) → (0 < k)%nat →
  Step (AppendEntriesResp j i (current_term_ L) false m) L =
  set_next_index (<[j := Z.of_nat k]> (next_index_ L)) L.
Proof.
  intros Hr Ek Hk. unfold Step. cbn [m_term AppendEntriesResp]. rewrite Z.ltb_irrefl.
  unfold StepRole, StepLeader, HandleAppendEntriesResp. rewrite Hr.
  cbn [m_type AppendEntriesResp success m_from]. rewrite Ek, (proj2 (Z.ltb_lt 1 _)) by lia.
  by replace (Z.of_nat (S k) - 1) with (Z.of_nat k) by lia.
Qed.

Lemma leader_accepted i j m L :
  role_ L = kLeader →
  Step (AppendEntriesResp j i (current_term_ L) true m) L =
  MaybeCommit (set_next_index (<[j := u64 (m + 1)]> (next_index_ L))
    (set_match_index (<[j := m]> (match_index_ L)) L)).
Proof.
  intros Hr. unfold Step. cbn [m_term AppendEntriesResp]. rewrite Z.ltb_irrefl.
  unfold StepRole, StepLeader, HandleAppendEntriesResp. by rewrite Hr.
Qed.

(** ** The leader between exchanges *)

(** What an exchange with [j] keeps of the leader. *)
Record still_leads (j : Z) (L L' : Raft) : Prop := {
  sl_role : role_ L' = role_ L;
  sl_term : current_term_ L' = current_term_ L;
  sl_log : log_ L' = log_ L;
  sl_config : config_ L' = config_ L;
  sl_commit : commit_index_ L ≤ commit_index_ L' ∧ (commit_index_ L ≤ LastIndex L → commit_index_ L' ≤ LastIndex L);
  sl_next : ∀ p, p ≠ j → peer_index (next_index_ L') p = peer_index (next_index_ L) p;
  sl_match : ∀ p, p ≠ j → peer_index (match_index_ L') p = peer_index (match_index_ L) p;
}.

#[local] Instance still_leads_preorder j : PreOrder (still_leads j).
Proof.
  split.
  - intros L. by split.
  - intros L1 L2 L3 [? ? E1 ? [? ?] N1 M1] [? ? E2 ? [? ?] N2 M2].
    assert (LastIndex L2 = LastIndex L1) as EL by (unfold LastIndex; by rewrite E1). rewrite EL in *.
    split; [congruence..|split; [lia|auto]| |]; intros p Hp; [by rewrite N2, N1|by rewrite M2, M1].
Qed.

(** Another leader state leads a peer whose next index it did not change. *)
Lemma leads_still j p L L' F : leads p L F → still_leads j L L' → p ≠ j → leads p L' F.
Proof.
  intros [] [Er Et El _ [_ Hc] Hn _] Hp.
  split; unfold log_fits, LastIndex in *; rewrite ?Er, ?Et, ?El, ?Hn by done; auto.
Qed.

Lemma MaybeCommit_still j L :
  still_leads j L (MaybeCommit L) ∧ next_index_ (MaybeCommit L) = next_index_ L ∧
  match_index_ (MaybeCommit L) = match_index_ L ∧
  ∀ n, commit_index_ (MaybeCommit L) < n ≤ LastIndex L → can_commit L n = false.
Proof.
  unfold MaybeCommit. destruct (decide (commit_index_ L < LastIndex L)) as [Hlt|Hge].
  2:{ replace (Z.to_nat (LastIndex L - commit_index_ L)) with 0%nat by lia.
      split_and!; [done..|]. simpl. lia. }
  destruct (MaybeCommit_loop_spec (Z.to_nat (LastIndex L - commit_index_ L)) (LastIndex L) L)
    as [[-> Hall]|(c & -> & Hc & _ & Hall)].
  - split_and!; [done..|]. intros n Hn. apply Hall. lia.
  - split_and!; [|done|done|].
    + split; try done. simpl. lia.
    + intros n Hn. apply Hall. simpl in Hn. lia.
Qed.

(** ** The heartbeat counter *)

(** The ticks since the last heartbeat. *)
Definition counts (r : Raft) : Prop := 0 ≤ heartbeat_elapsed_ r.

Lemma MaybeCommit_counts r : counts r → counts (MaybeCommit r).
Proof. by destruct (MaybeCommit_cases r) as [->|(c & -> & _)]. Qed.

Lemma BecomeLeader_counts r : counts (BecomeLeader r).
Proof. by rewrite BecomeLeader_eq, BroadcastAppendEntries_eq. Qed.

Lemma BecomeCandidate_counts r : counts r → counts (BecomeCandidate r).
Proof.
  rewrite BecomeCandidate_eq. cbv zeta. destruct (_ <=? 1); [|done].
  intros _. apply BecomeLeader_counts.
Qed.

Lemma BecomeFollower_counts t l r : counts r → counts (BecomeFollower t l r).
Proof. unfold BecomeFollower. by destruct (_ <? _). Qed.

Lemma HandleAppendEntries_counts msg r : counts r → counts (HandleAppendEntries msg r).
Proof.
  intros Hr. unfold HandleAppendEntries. cbv zeta. set (r1 := set_election_elapsed _ _).
  destruct (_ || _); [done|]. fold (append_entries r1 (entries msg)).
  rewrite append_entries_frame. by destruct (_ <? _).
Qed.

Lemma HandleRequestVote_counts msg r : counts r → counts (HandleRequestVote msg r).
Proof. intros Hr. unfold HandleRequestVote. cbv zeta. set (granted := _ && _). by destruct granted. Qed.

Lemma StepRole_counts msg r : counts r → counts (StepRole msg r).
Proof.
  intros Hr. unfold StepRole, StepFollower, StepCandidate, StepLeader.
  destruct (role_ r), (m_type msg); try done;
    auto using HandleRequestVote_counts, HandleAppendEntries_counts, BecomeFollower_counts.
  - destruct (vote_granted msg); [|done]. cbv zeta.
    destruct (_ <=? _); [apply BecomeLeader_counts|by case_bool_decide].
  - unfold HandleAppendEntriesResp. destruct (success msg); [by apply MaybeCommit_counts|].
    by destruct (_ <? _).
Qed.

Lemma Step_counts msg r : counts r → counts (Step msg r).
Proof.
  intros Hr. unfold Step. cbv zeta. destruct (_ <? _); [by apply StepRole_counts, BecomeFollower_counts|].
  destruct (_ <? _); [|by apply StepRole_counts]. unfold RejectStale. by destruct (m_type msg).
Qed.

Lemma Tick_counts r : counts r → counts (Tick r).
Proof.
  intros Hr. unfold Tick. cbv zeta. destruct (role_ r).
  1,2: destruct (_ <=? _); [by apply BecomeCandidate_counts|done].
  destruct (_ <=? _); [by rewrite BroadcastAppendEntries_eq|]. unfold counts in *. simpl. lia.
Qed.

Lemma Propose_counts data r : counts r → counts (Propose data r).2.
Proof. intros Hr. unfold Propose. destruct (role_ r); [done..|]. simpl. by apply MaybeCommit_counts. Qed.

Lemma node_op_counts net i r ap r' ap' : node_op net i r ap r' ap' → counts r → counts r'.
Proof.
  intros [r1 ap1 Hc| |r1 ap1 t v l Hc Hp]; try (unfold restarted; by rewrite Restore_eq).
  destruct Hc; auto using Tick_counts, Step_counts, Propose_counts.
Qed.

Lemma run_counts peers et ht n c i : cluster_run peers et ht n c → counts (servers c i).
Proof.
  intros [_ _ Hs _]. revert c Hs. induction n as [|n IH]; intros c Hs; [by inversion Hs|].
  apply nsteps_inv_r in Hs as (c1 & Hs & [j r ap Hj Hop]). simpl.
  destruct (decide (i = j)) as [->|Hne]; [|by rewrite fn_lookup_insert_ne; [apply IH|]].
  rewrite fn_lookup_insert. by apply (node_op_counts _ _ _ _ _ _ Hop), IH.
Qed.

(** ** Exchanges in a cluster *)

(** The state that a cluster keeps of a node after a call. *)
Definition settled (r : Raft) : Raft := (TakeMessages (saved r)).2.

(** A node that differs in fields that replication does not look at. *)
Definition kept (L L' : Raft) : Prop :=
  ∃ h s b o, L' = set_out_msgs o (set_hard_state_dirty b (set_stable_index s (set_heartbeat_elapsed h L))).

#[local] Instance kept_preorder : PreOrder kept.
Proof.
  split.
  - intros L. exists (heartbeat_elapsed_ L), (stable_index_ L), (hard_state_dirty_ L), (out_msgs_ L).
    by destruct L.
  - intros L1 L2 L3 (h & s & b & o & ->) (h' & s' & b' & o' & ->). by exists h', s', b', o'.
Qed.

Lemma settled_kept r : kept r (settled r).
Proof. exists (heartbeat_elapsed_ r), (LastIndex r), false, []. by destruct r. Qed.

Lemma kept_still j L L' : kept L L' → still_leads j L L'.
Proof. intros (h & s & b & o & ->). by split. Qed.

Lemma kept_append_msg L L' j : kept L L' → append_msg L' j = append_msg L j.
Proof. by intros (h & s & b & o & ->). Qed.

Lemma kept_can_commit L L' n : kept L L' → can_commit L' n = can_commit L n.
Proof. by intros (h & s & b & o & ->). Qed.

Lemma leads_kept j L L' F : leads j L F → kept L L' → leads j L' F.
Proof. intros [] (h & s & b & o & ->). by split. Qed.

(** The same follower log, or the leader's, in the leader's term. *)
Lemma leads_follower j L F F' :
  leads j L F → current_term_ F' = current_term_ L → role_ F' = kFollower →
  log_ F' = log_ F ∨ log_ F' = log_ L → leads j L F'.
Proof.
  intros [] Et Er El. split; unfold log_fits in *; rewrite ?Et, ?Er;
    try (destruct El as [-> | ->]); done.
Qed.

(** A new next index for the peer. *)
Lemma leads_next j L L' F k :
  leads j L F → still_leads j L L' → (k < length (log_ L))%nat →
  peer_index (next_index_ L') j = Z.of_nat (S k) → leads j L' F.
Proof.
  intros [] [Er Et El _ [_ Hc] _ _] Hk Ek.
  split; unfold log_fits, LastIndex in *; rewrite ?Er, ?Et, ?El, ?Ek; eauto.
Qed.

Section exchanges.
Context (peers : list Z) (election_ticks heartbeat_ticks : Z → Z).
Abbreviation cfg := (cfg peers election_ticks heartbeat_ticks).
Implicit Types (i j p : Z) (c : cluster).

(** Heartbeat ticks of node [i] and deliveries. *)
Definition quiet (i : Z) (e : event) : Prop := e = ECall (CTick i) ∨ ∃ k, e = ECall (CDeliver k).

Definition reaches i c c' : Prop := ∃ es, Forall (quiet i) es ∧ exec peers es c = Some c'.

Lemma exec_app es1 es2 c c1 : exec peers es1 c = Some c1 →
  exec peers (es1 ++ es2) c = exec peers es2 c1.
Proof.
  revert c. induction es1 as [|e es IH]; intros c; simpl; [by intros [= ->]|].
  destruct (exec_event peers c e) as [c2|]; simpl; [|done]. apply IH.
Qed.

(** In at most [n] calls. *)
Definition reaches_in i n c c' : Prop :=
  ∃ es, Forall (quiet i) es ∧ exec peers es c = Some c' ∧ (length es ≤ n)%nat.

Lemma reaches_in_reaches i n c c' : reaches_in i n c c' → reaches i c c'.
Proof. intros (es & Q & E & _). by exists es. Qed.

Lemma reaches_in_trans i n m c1 c2 c3 :
  reaches_in i n c1 c2 → reaches_in i m c2 c3 → reaches_in i (n + m) c1 c3.
Proof.
  intros (es1 & Q1 & E1 & L1) (es2 & Q2 & E2 & L2). exists (es1 ++ es2).
  split_and!; [by apply Forall_app|by rewrite (exec_app _ _ _ _ E1)|]. rewrite length_app. lia.
Qed.

Lemma reaches_in_le i n m c c' : reaches_in i n c c' → (n ≤ m)%nat → reaches_in i m c c'.
Proof. intros (es & Q & E & L) Hle. exists es. split_and!; [done..|lia]. Qed.

#[export] Instance reaches_preorder i : PreOrder (reaches i).
Proof.
  split.
  - intros c. by exists [].
  - intros c1 c2 c3 (es1 & Q1 & E1) (es2 & Q2 & E2). exists (es1 ++ es2).
    split; [by apply Forall_app|]. by rewrite (exec_app _ _ _ _ E1).
Qed.

Lemma tick_in i c : i ∈ peers →
  reaches_in i 1 c (after_call c i (Tick (servers c i)) (applied c i)).
Proof.
  intros Hi. exists [ECall (CTick i)]. split; [by constructor; [left|]|]. split; [|done].
  simpl. unfold exec_event. simpl. by rewrite bool_decide_true.
Qed.

Lemma deliver_in i c msg : msg ∈ network c → m_to msg ∈ peers →
  reaches_in i 1 c (after_call c (m_to msg) (Step msg (servers c (m_to msg))) (applied c (m_to msg))).
Proof.
  intros [k Hk]%list_elem_of_lookup Hi. exists [ECall (CDeliver k)].
  split; [constructor; [right; by exists k|done]|]. split; [|done].
  simpl. unfold exec_event. simpl. rewrite Hk. simpl. by rewrite bool_decide_true.
Qed.

Lemma servers_after c i r ap p :
  servers (after_call c i r ap) p = if decide (p = i) then settled r else servers c p.
Proof.
  simpl. case_decide as Hp; [subst; by rewrite fn_lookup_insert|]. by rewrite fn_lookup_insert_ne.
Qed.

Lemma network_after c i r ap msg :
  msg ∈ out_msgs_ r → msg ∈ network (after_call c i r ap).
Proof. intros Hm. simpl. apply elem_of_app. by right. Qed.

Lemma reaches_tick i c : i ∈ peers →
  reaches i c (after_call c i (Tick (servers c i)) (applied c i)).
Proof. intros Hi. by eapply reaches_in_reaches, tick_in. Qed.

Lemma reaches_deliver i c msg : msg ∈ network c → m_to msg ∈ peers →
  reaches i c (after_call c (m_to msg) (Step msg (servers c (m_to msg))) (applied c (m_to msg))).
Proof. intros Hm Hi. by eapply reaches_in_reaches, deliver_in. Qed.

(** The ticks until a leader's next heartbeat, at most. *)
Definition waits (r : Raft) : nat :=
  S (Z.to_nat (heartbeat_timeout (config_ r) - heartbeat_elapsed_ r)).

(** After enough ticks a leader sends an AppendEntries to every peer. *)
Lemma heartbeat i c :
  i ∈ peers → role_ (servers c i) = kLeader →
  ∃ c', reaches_in i (waits (servers c i)) c c' ∧ (∀ p, p ≠ i → servers c' p = servers c p) ∧
    kept (servers c i) (servers c' i) ∧ counts (servers c' i) ∧
    ∀ j, j ∈ others (servers c i) → append_msg (servers c i) j ∈ network c'.
Proof.
  intros Hi. unfold waits. remember (Z.to_nat (heartbeat_timeout (config_ (servers c i)) -
                       heartbeat_elapsed_ (servers c i))) as n eqn:En.
  revert c En. induction n as [n IH] using lt_wf_ind. intros c En Hr.
  set (L := servers c i) in *. set (c1 := after_call c i (Tick L) (applied c i)).
  assert (reaches_in i 1 c c1) as R1 by by apply tick_in.
  assert (∀ p, p ≠ i → servers c1 p = servers c p) as S1.
  { intros p Hp. unfold c1. by rewrite servers_after, decide_False. }
  assert (servers c1 i = settled (Tick L)) as Si by (unfold c1; by rewrite servers_after, decide_True).
  unfold Tick in Si. fold L in Hr. rewrite Hr in Si. set (L1 := set_heartbeat_elapsed _ L) in Si.
  destruct (Z.leb_spec (heartbeat_timeout (config_ L1)) (heartbeat_elapsed_ L1)) as [Hle|Hgt].
  - rewrite BroadcastAppendEntries_eq in Si. exists c1.
    split_and!; [by apply (reaches_in_le _ 1); [|lia]|done| |by rewrite Si|].
    + rewrite Si. eexists 0, _, _, _. done.
    + intros j Hj. apply network_after. unfold Tick. rewrite Hr. cbv zeta. fold L1.
      rewrite (proj2 (Z.leb_le _ _)) by done. rewrite BroadcastAppendEntries_eq.
      apply elem_of_app. right. apply list_elem_of_fmap. by exists j.
  - assert (kept L (servers c1 i)) as K1.
    { rewrite Si. etrans; [|apply settled_kept]. unfold L1.
      exists (heartbeat_elapsed_ L + 1), (stable_index_ L), (hard_state_dirty_ L), (out_msgs_ L).
      by destruct L. }
    destruct (IH (n - 1)%nat) with (c := c1) as (c' & R' & S' & K' & C' & N').
    + simpl in Hgt. lia.
    + rewrite Si, En. simpl in Hgt |- *. fold L. lia.
    + by rewrite Si.
    + exists c'. split_and!; [| |by etrans|done|].
      * apply (reaches_in_le _ (1 + S (n - 1))); [by eapply reaches_in_trans|]. simpl in Hgt. lia.
      * intros p Hp. by rewrite S', S1.
      * intros j Hj. rewrite <-(kept_append_msg _ _ j K1). apply N'.
        by destruct K1 as (? & ? & ? & ? & ->).
Qed.

(** Node [i] leads all other nodes. *)
Definition led i c : Prop :=
  role_ (servers c i) = kLeader ∧ counts (servers c i) ∧
  ∀ j, j ∈ peers → config_ (servers c j) = cfg j ∧
    (j ≠ i → leads j (servers c i) (servers c j)).

(** Node [F] has taken over the log and the commit index of the leader [L],
    which knows it and is now in the state [L']. *)
Record caught_up (j : Z) (L L' F : Raft) : Prop := {
  cu_log : log_ L `prefix_of` log_ F;
  cu_commit : commit_index_ L ≤ commit_index_ F;
  cu_match : peer_index (match_index_ L') j = LastIndex L;
  cu_none : ∀ n, commit_index_ L' < n ≤ LastIndex L → can_commit L' n = false;
}.

(** Only the leader and node [j] take part, in at most [n] calls. *)
Definition exchanged i j n c c' : Prop :=
  reaches_in i n c c' ∧ led i c' ∧ still_leads j (servers c i) (servers c' i) ∧
  ∀ p, p ≠ i → p ≠ j → servers c' p = servers c p.

Lemma exchanged_trans i j n m c1 c2 c3 :
  exchanged i j n c1 c2 → exchanged i j m c2 c3 → exchanged i j (n + m) c1 c3.
Proof.
  intros (R1 & _ & S1 & O1) (R2 & L2 & S2 & O2).
  split_and!; [by eapply reaches_in_trans|done|by etrans|]. intros p Hi Hj. by rewrite O2, O1.
Qed.

(** The calls of an exchange: the ticks until a heartbeat and two deliveries. *)
Definition exchange_calls i : nat := Z.to_nat (heartbeat_ticks i) + 3.

Lemma others_cfg r i j : config_ r = cfg i → j ∈ peers → j ≠ i → j ∈ others r.
Proof. intros E Hj Hne. unfold others. rewrite E. by apply list_elem_of_filter. Qed.

(** The state of the cluster when the leader has handled the answer of [j]. *)
Lemma exchanged_intro i j n c c' L F k :
  led i c → i ∈ peers → reaches_in i n c c' → counts (servers c' i) →
  (∀ p, p ≠ i → p ≠ j → servers c' p = servers c p) →
  still_leads j (servers c i) (servers c' i) → config_ (servers c' j) = config_ (servers c j) →
  j ∈ peers → j ≠ i → kept L (servers c' i) → kept F (servers c' j) →
  role_ F = kFollower → current_term_ F = current_term_ (servers c i) →
  log_ F = log_ (servers c j) ∨ log_ F = log_ (servers c i) →
  (k < length (log_ (servers c i)))%nat → peer_index (next_index_ L) j = Z.of_nat (S k) →
  exchanged i j n c c'.
Proof.
  intros (Hr & _ & Hled) Hi R Hcnt Ho Hs Ecj Hj Hne KL KF RF TF LF Hk Ek. split_and!; [done| |done|done].
  split; [by rewrite (sl_role _ _ _ Hs)|]. split; [done|]. intros p Hp.
  destruct (decide (p = i)) as [->|Hpi]; [by rewrite (sl_config _ _ _ Hs); split; [apply Hled|]|].
  destruct (decide (p = j)) as [->|Hpj].
  - split; [rewrite Ecj; by apply Hled|]. intros _.
    apply (leads_next j (servers c i) (servers c' i) _ k); [|done..|].
    + destruct KF as (h & st & b & o & ->).
      apply (leads_follower j _ (servers c j)); [by apply Hled|done..].
    + by destruct KL as (h & st & b & o & ->).
  - rewrite (Ho p Hpi Hpj). split; [by apply Hled|]. intros _.
    eapply leads_still; [by apply Hled|done|done].
Qed.

(** A heartbeat, its delivery to [j] and the delivery of an answer. *)
Lemma round_trip i j c :
  led i c → i ∈ peers → j ∈ peers → j ≠ i →
  let F := Step (append_msg (servers c i) j) (servers c j) in
  ∃ L1, kept (servers c i) L1 ∧ counts L1 ∧ ∀ resp, resp ∈ out_msgs_ F → m_to resp = i →
  ∃ c', reaches_in i (exchange_calls i) c c' ∧ (∀ p, p ≠ i → p ≠ j → servers c' p = servers c p) ∧
    servers c' i = settled (Step resp L1) ∧ servers c' j = settled F.
Proof.
  intros (Hr & Hcnt & Hall) Hi Hj Hne F. destruct (Hall i Hi) as [Eci _].
  destruct (heartbeat i c Hi Hr) as (c1 & R1 & O1 & K1 & C1 & N1).
  specialize (N1 j (others_cfg _ _ _ Eci Hj Hne)).
  exists (servers c1 i). split; [done|]. split; [done|]. intros resp Hresp Hto.
  pose proof (deliver_in i c1 _ N1 Hj) as R2. cbn [m_to append_msg AppendEntries] in R2.
  rewrite (O1 j Hne) in R2. fold F in R2. set (c2 := after_call c1 j F (applied c1 j)) in *.
  assert (m_to resp ∈ peers) as Hto' by by rewrite Hto.
  pose proof (deliver_in i c2 resp (network_after _ _ _ _ _ Hresp) Hto') as R3.
  rewrite Hto in R3. assert (servers c2 i = servers c1 i) as E2i
    by (unfold c2; by rewrite servers_after, decide_False).
  rewrite E2i in R3. eexists. split_and!.
  - eapply reaches_in_le; [eapply reaches_in_trans; [exact R1|by eapply reaches_in_trans]|].
    unfold waits, exchange_calls. rewrite Eci. unfold counts in Hcnt. simpl. lia.
  - intros p Hpi Hpj. rewrite servers_after, decide_False by done.
    unfold c2. rewrite servers_after, decide_False by done. by apply O1.
  - by rewrite servers_after, decide_True.
  - rewrite servers_after, decide_False by done. unfold c2. by rewrite servers_after, decide_True.
Qed.

(** The leader after an answer that says that [j] has its log. *)
Lemma accepted_still i j L :
  role_ L = kLeader → log_fits L → Z.of_nat (length (log_ L)) < 2 ^ 63 →
  let L' := Step (AppendEntriesResp j i (current_term_ L) true (LastIndex L)) L in
  still_leads j L L' ∧
  peer_index (next_index_ L') j = Z.of_nat (S (length (log_ L) - 1)) ∧
  peer_index (match_index_ L') j = LastIndex L ∧
  ∀ n, commit_index_ L' < n ≤ LastIndex L → can_commit L' n = false.
Proof.
  intros Hr Hf Hl. pose proof (log_fits_pos L Hf). cbv zeta. rewrite leader_accepted by done.
  set (L1 := set_next_index _ _).
  destruct (MaybeCommit_still j L1) as (S1 & En & Em & Hnone).
  assert (still_leads j L L1) as S0.
  { split; try done; intros p Hp; unfold peer_index; simpl; by rewrite lookup_insert_ne. }
  split_and!.
  - by etrans.
  - rewrite En. unfold peer_index. simpl. rewrite lookup_insert_eq. simpl.
    rewrite (LastIndex_eq L Hf), u64_small by lia. lia.
  - rewrite Em. unfold peer_index. simpl. by rewrite lookup_insert_eq.
  - intros n Hn. assert (can_commit (MaybeCommit L1) n = can_commit L1 n) as ->; [|by apply Hnone].
    by destruct (MaybeCommit_cases L1) as [->|(m & -> & _)].
Qed.

(** One exchange: the follower has caught up, or its next index is lower. *)
Lemma exchange i j c k :
  led i c → i ∈ peers → j ∈ peers → j ≠ i →
  peer_index (next_index_ (servers c i)) j = Z.of_nat (S k) →
  ∃ c', exchanged i j (exchange_calls i) c c' ∧
    (((0 < k)%nat ∧ peer_index (next_index_ (servers c' i)) j = Z.of_nat k) ∨
     caught_up j (servers c i) (servers c' i) (servers c' j)).
Proof.
  intros Hled Hi Hj Hne Ek. pose proof Hled as (Hr & _ & Hall).
  destruct (Hall i Hi) as [Eci _]. destruct (Hall j Hj) as [Ecj Hlead]. specialize (Hlead Hne).
  destruct (round_trip i j c Hled Hi Hj Hne) as (L1 & K1 & C1 & Htrip).
  destruct (follower_answers j _ _ Hlead) as (CF & RF & TF & k' & Hk & Ek' & Hans).
  assert (k' = k) as -> by lia. rewrite Ecj, Eci in Hans. cbn [id cfg] in Hans.
  set (L := servers c i) in *. set (F' := Step (append_msg L j) (servers c j)) in *.
  destruct Hlead as [_ _ [HfL HL] _ _ _ _ _ _ _ _].
  assert (role_ L1 = kLeader ∧ current_term_ L1 = current_term_ L ∧ next_index_ L1 = next_index_ L ∧
    log_fits L1 ∧ log_ L1 = log_ L ∧ LastIndex L1 = LastIndex L) as (Hr1 & Et1 & En1 & Hf1 & El1 & EL1)
    by (by destruct K1 as (? & ? & ? & ? & ->)).
  pose proof (kept_still j _ _ K1) as S1. rewrite <-Et1 in Hans.
  destruct Hans as [(Hin & El & Hk0)|(Hin & Hpre & El & Hcom)].
  - destruct (Htrip _ Hin eq_refl) as (c' & R & O & Ei & Ej). exists c'.
    rewrite (leader_rejected i j 0 L1 k) in Ei by (done || by rewrite En1).
    set (L2 := set_next_index _ L1) in Ei.
    assert (still_leads j L1 L2) as S2
      by (split; try done; intros p Hp; unfold peer_index; simpl; by rewrite lookup_insert_ne).
    assert (peer_index (next_index_ L2) j = Z.of_nat k) as Ek2
      by (unfold peer_index; simpl; by rewrite lookup_insert_eq).
    split; [|left; split; [done|by rewrite Ei]].
    eapply (exchanged_intro i j _ c c' L2 F' (k - 1));
      rewrite ?Ei, ?Ej; try done; [|apply settled_kept|apply settled_kept|by left|fold L; lia|].
    + etrans; [done|]. etrans; [done|]. apply kept_still, settled_kept.
    + rewrite Ek2. lia.
  - destruct (Htrip _ Hin eq_refl) as (c' & R & O & Ei & Ej). exists c'. rewrite <-EL1 in Ei.
    destruct (accepted_still i j L1 Hr1 Hf1) as (S2 & En2 & Em2 & Hnone); [by rewrite El1|].
    set (L2 := Step _ L1) in *. rewrite El1 in En2. rewrite EL1 in Em2, Hnone.
    split.
    + eapply (exchanged_intro i j _ c c' L2 F' (length (log_ L) - 1));
        rewrite ?Ei, ?Ej; try done; [exact (Step_counts _ L1 C1)| |apply settled_kept|apply settled_kept|].
      2:{ apply log_fits_pos in HfL. fold L. lia. }
      etrans; [done|]. etrans; [done|]. apply kept_still, settled_kept.
    + right. rewrite Ei, Ej. split; [done..|]. intros n Hn.
      rewrite (kept_can_commit _ _ n (settled_kept L2)). by apply Hnone.
Qed.

(** Exchanges until the follower has caught up. *)
Lemma replicate i j c :
  led i c → i ∈ peers → j ∈ peers → j ≠ i →
  ∃ c', exchanged i j (length (log_ (servers c i)) * exchange_calls i) c c' ∧
    caught_up j (servers c i) (servers c' i) (servers c' j).
Proof.
  intros Hled Hi Hj Hne. destruct (proj2 (proj2 Hled) j Hj) as [_ Hl].
  destruct (ld_next _ _ _ (Hl Hne)) as (k & Hk & Ek). clear Hl.
  cut (∃ c', exchanged i j (S k * exchange_calls i) c c' ∧
         caught_up j (servers c i) (servers c' i) (servers c' j)).
  { intros (c' & (R & X) & C). exists c'. split; [|done]. split; [|done].
    eapply reaches_in_le; [exact R|]. apply Nat.mul_le_mono_r. lia. }
  clear Hk. revert c Hled Ek. induction k as [|k IH]; intros c Hled Ek;
    destruct (exchange i j c _ Hled Hi Hj Hne Ek) as (c1 & X1 & [[? Ek1]|C1]); [lia| | |].
  1,3: exists c1; split; [|done]; destruct X1 as [R1 X1]; split; [|done];
    eapply reaches_in_le; [exact R1|]; lia.
  destruct (IH c1 (proj1 (proj2 X1)) Ek1) as (c2 & X2 & [Hl Hc Hm Hn]).
  exists c2. split; [exact (exchanged_trans _ _ _ _ _ _ _ X1 X2)|]. destruct X1 as (_ & _ & S1 & _).
  assert (LastIndex (servers c1 i) = LastIndex (servers c i)) as EL
    by (unfold LastIndex; by rewrite (sl_log _ _ _ S1)).
  rewrite EL in *. split; [by rewrite <-(sl_log _ _ _ S1)| |done|done].
  destruct S1 as [_ _ _ _ [? _] _ _]. lia.
Qed.

(** The leader keeps its log and does not lower its commit index. *)
Definition same_leader (L L' : Raft) : Prop :=
  current_term_ L' = current_term_ L ∧ log_ L' = log_ L ∧ commit_index_ L ≤ commit_index_ L'.

(** Replication to several nodes, one after the other. *)
Lemma replicate_all i c ps :
  led i c → i ∈ peers → NoDup ps → (∀ j, j ∈ ps → j ∈ peers ∧ j ≠ i) →
  let n := (length ps * (length (log_ (servers c i)) * exchange_calls i))%nat in
  ∃ c', reaches_in i n c c' ∧ led i c' ∧ same_leader (servers c i) (servers c' i) ∧
    (∀ j, j ∈ ps → log_ (servers c i) `prefix_of` log_ (servers c' j) ∧
       commit_index_ (servers c i) ≤ commit_index_ (servers c' j) ∧
       peer_index (match_index_ (servers c' i)) j = LastIndex (servers c i)) ∧
    (ps ≠ [] → ∀ n, commit_index_ (servers c' i) < n ≤ LastIndex (servers c i) →
       can_commit (servers c' i) n = false).
Proof.
  intros Hled Hi Hnd. induction ps as [|j ps IH] using rev_ind; intros Hps.
  { exists c. split_and!; try done; [by exists []|]. by intros j ?%not_elem_of_nil. }
  apply NoDup_app in Hnd as (Hnd & Hfresh & _).
  destruct IH as (c1 & R1 & L1 & (T1 & E1 & K1) & A1 & _); [done|intros p Hp; apply Hps, elem_of_app; by left|].
  destruct (Hps j) as [Hj Hji]; [apply elem_of_app; right; left|].
  destruct (replicate i j c1 L1 Hi Hj Hji) as (c2 & (R2 & L2 & S2 & O2) & [Cl Cc Cm Cn]).
  destruct S2 as [_ Et El _ [Hc _] _ Hm].
  assert (LastIndex (servers c1 i) = LastIndex (servers c i)) as EL by (unfold LastIndex; by rewrite E1).
  rewrite EL, E1 in *. exists c2.
  split_and!; [|done|by split_and!; [congruence..|lia]| |done].
  { eapply reaches_in_le; [exact (reaches_in_trans _ _ _ _ _ _ R1 R2)|]. rewrite length_app. simpl. lia. }
  intros p [Hp| ->%list_elem_of_singleton]%elem_of_app; [|split_and!; [done|lia|done]].
  assert (p ≠ j) as Hpj by (intros ->; eapply Hfresh; [done|left]).
  rewrite O2, Hm by (done || apply Hps, elem_of_app; by left). by apply A1.
Qed.

(** With every node caught up the leader can commit its last entry. *)
Lemma all_matched_commit i r :
  NoDup peers → i ∈ peers → config_ r = cfg i → TermAt (LastIndex r) r = current_term_ r →
  (∀ j, j ∈ peers → j ≠ i → peer_index (match_index_ r) j = LastIndex r) →
  can_commit r (LastIndex r) = true.
Proof.
  intros Hnd Hi Ec Et Hm. unfold can_commit. apply andb_true_iff. split; [by apply Z.eqb_eq|].
  rewrite count_replicas_eq by by rewrite Ec. unfold holders, QuorumSize. rewrite Ec. cbn [id cfg Raft.peers].
  assert (∀ ps, ps ⊆ peers →
    filter (λ p, p = i ∨ LastIndex r ≤ peer_index (match_index_ r) p) ps = ps) as Hfil.
  { intros ps. induction ps as [|p ps IH]; intros Hps; [done|]. rewrite filter_cons_True, IH; [done| |].
    - intros x Hx. apply Hps. by right.
    - destruct (decide (p = i)); [by left|right]. rewrite Hm; [done| |done]. apply Hps. left. }
  rewrite Hfil by done. destruct peers as [|q qs]; [by apply not_elem_of_nil in Hi|].
  apply Z.leb_le. simpl length.
  pose proof (Z.div_lt_upper_bound (Z.of_nat (S (length qs))) 2 (Z.of_nat (S (length qs)))). lia.
Qed.

(** So a leader that committed all it can has committed its last entry. *)
Lemma all_matched_committed i r log e :
  NoDup peers → i ∈ peers → config_ r = cfg i → log_fits r →
  log_ r = log ++ [e] → e_term e = current_term_ r →
  (∀ j, j ∈ peers → j ≠ i → peer_index (match_index_ r) j = LastIndex r) →
  (∀ n, commit_index_ r < n ≤ LastIndex r → can_commit r n = false) →
  Z.of_nat (length log) ≤ commit_index_ r.
Proof.
  intros Hnd Hi Ec Hf El Et Hm Hnone.
  assert (LastIndex r = Z.of_nat (length log)) as EL.
  { rewrite (LastIndex_eq r Hf), El, length_app. simpl. lia. }
  destruct (decide (commit_index_ r < Z.of_nat (length log))) as [Hlt|]; [exfalso|lia].
  assert (can_commit r (LastIndex r) = true) as Hc.
  { apply (all_matched_commit i); [done..| |done]. rewrite EL, (TermAt_eq r _ Hf), El.
    rewrite decide_True by (rewrite length_app; simpl; lia). unfold term_at.
    by rewrite lookup_total_app_r, Nat.sub_diag by done. }
  rewrite Hnone in Hc; [done|lia].
Qed.
End exchanges.

(** ** From a reachable cluster *)

(** A leader that appended an entry of its term still leads a follower, which
    has no entry of that term beyond the leader's log. *)
Lemma leads_propose j L F data :
  leads j L F → Z.of_nat (length (log_ L)) ≤ 2 ^ 62 →
  (∀ m b, log_ F !! m = Some b → e_term b = current_term_ L → (m < length (log_ L))%nat) →
  leads j (Propose data L).2 F.
Proof.
  intros [Hr HF [HfL HL] HsF HsL Hidx Hm Ht Ho (k & Hk & Ek) Hc] Hroom Hbeyond.
  pose proof (log_fits_pos L HfL). unfold Propose. rewrite Hr. simpl.
  set (L1 := set_log _ L).
  assert (log_ L1 = log_ L ++ [mkLogEntry (current_term_ L) (Z.of_nat (length (log_ L))) data]) as E1.
  { simpl. rewrite (LastIndex_eq L HfL), u64_small by lia. do 3 f_equal. lia. }
  assert (log_fits L1 ∧ length (log_ L1) = S (length (log_ L))) as [Hf1 El1].
  { rewrite E1, length_app. simpl length. split; [|lia].
    split; rewrite E1; [by destruct (log_ L)|]. rewrite length_app. simpl length. lia. }
  apply (leads_next j L1 _ _ k); [|apply MaybeCommit_still|lia|].
  - split; try done.
    + split; [done|]. rewrite El1. lia.
    + rewrite E1. by rewrite lookup_app_l by lia.
    + intros m e He. rewrite E1 in He. apply lookup_app_Some in He as [He|[Hge He]]; [by apply Hidx|].
      apply list_lookup_singleton_Some in He as [? <-]. simpl. lia.
    + rewrite E1. apply logs_match_snoc; [done|]. simpl. intros b Hb Eb.
      specialize (Hbeyond _ _ Hb Eb). lia.
    + exists k. split; [lia|done].
    + rewrite (LastIndex_eq L HfL) in Hc. rewrite (LastIndex_eq L1 Hf1), El1. simpl. lia.
  - by destruct (MaybeCommit_still j L1) as (_ & -> & _).
Qed.

(** The leader after a proposal. *)
Lemma Propose_spec data L :
  role_ L = kLeader → log_fits L → Z.of_nat (length (log_ L)) ≤ 2 ^ 62 →
  let L' := (Propose data L).2 in
  role_ L' = kLeader ∧ config_ L' = config_ L ∧ current_term_ L' = current_term_ L ∧
  log_ L' = log_ L ++ [mkLogEntry (current_term_ L) (Z.of_nat (length (log_ L))) data] ∧
  ∀ n, commit_index_ L' < n ≤ LastIndex L' → can_commit L' n = false.
Proof.
  intros Hr Hf Hl. pose proof (log_fits_pos L Hf). unfold Propose. rewrite Hr. simpl.
  set (L0 := set_log _ L). destruct (MaybeCommit_still 0 L0) as ([Er Et El Ec _ _ _] & _ & Em & Hn).
  split_and!; [by rewrite Er|by rewrite Ec|by rewrite Et| |].
  - rewrite El. simpl. rewrite (LastIndex_eq L Hf), u64_small by lia. do 3 f_equal. lia.
  - intros n Hrange. replace (LastIndex (MaybeCommit L0)) with (LastIndex L0) in Hrange
      by (unfold LastIndex; by rewrite El).
    rewrite <-(Hn n Hrange). unfold can_commit, TermAt, LastIndex, entry_at, QuorumSize, count_replicas,
      for_other_peers. by rewrite El, Et, Ec, Em.
Qed.

Section progress.
Context (peers : list Z) (election_ticks heartbeat_ticks : Z → Z) (k : nat) (c : cluster).
Abbreviation cluster_run := (cluster_run peers election_ticks heartbeat_ticks k c).

Lemma run_in_range i : cluster_run → i ∈ peers →
  let r := servers c i in
  log_fits r ∧ 0 ≤ commit_index_ r < Z.of_nat (length (log_ r)) ∧
  Z.of_nat (length (log_ r)) ≤ 2 ^ 62 ∧ config_ r = cfg peers election_ticks heartbeat_ticks i.
Proof.
  intros Hrun Hi. destruct (run_csim _ _ _ _ _ Hrun) as (a & _ & Hsim).
  destruct Hrun as [Hnd Hpos Hsteps Hk].
  destruct (applied_steps _ _ _ Hnd Hpos _ _ Hsteps Hk i Hi) as [Si _].
  destruct (seen_in_range _ _ _ _ _ _ _ _ Hsim Hk Si) as (Hf & Hc & Hl).
  split_and!; [done|lia..|]. eapply cs_nodes; [apply Hsim|done].
Qed.

(** The leader of the latest term of a reachable cluster leads every node. *)
Lemma run_leads i j :
  cluster_run → i ∈ peers → j ∈ peers → j ≠ i → role_ (servers c i) = kLeader →
  current_term_ (servers c j) ≤ current_term_ (servers c i) →
  leads j (servers c i) (servers c j) ∧ Z.of_nat (length (log_ (servers c i))) ≤ 2 ^ 62 ∧
  ∀ m b, log_ (servers c j) !! m = Some b → e_term b = current_term_ (servers c i) →
    (m < length (log_ (servers c i)))%nat.
Proof.
  intros Hrun Hi Hj Hne Hr Ht. pose proof (run_ids _ _ _ _ _ Hrun) as Hpos.
  destruct (run_in_range i Hrun Hi) as (Hfi & Hci & Hli & Eci).
  destruct (run_in_range j Hrun Hj) as (Hfj & Hcj & Hlj & _).
  destruct (run_csim _ _ _ _ _ Hrun) as (a & _ & [[HI HL _ _] _ Hnodes _ _ _]).
  destruct (Hnodes i Hi) as (Ci & Oi & _), (Hnodes j Hj) as (Cj & Oj & _).
  pose proof (inv_cur _ _ HI i Hi) as Ii. pose proof (inv_cur _ _ HI j Hj) as Ij.
  pose proof (lg_wf _ HL _ _ Ii) as Wi. pose proof (lg_wf _ HL _ _ Ij) as Wj.
  rewrite <-(core_role _ _ Ci) in Hr. split_and!.
  - split; rewrite <-?(core_log _ _ Ci), <-?(core_log _ _ Cj) in *; try done.
    + by rewrite <-(core_role _ _ Ci).
    + split; [done|lia].
    + split; [done|lia].
    + apply Wj.
    + apply Wi.
    + apply Wi.
    + intros m x y Hx Hy. by eapply (matching_take_hist peers).
    + intros Et. rewrite <-(core_role _ _ Cj). intros Rj. apply Hne.
      eapply (leaders_agree peers Hpos a j _ i _ HI Ij Ii Rj Hr).
      by rewrite (core_term _ _ Ci), (core_term _ _ Cj).
    + rewrite (core_log _ _ Ci).
      apply (ok_next _ _ _ _ _ Oi); [by rewrite <-(core_role _ _ Ci)|].
      by eapply others_cfg.
    + rewrite (LastIndex_eq _ Hfi), <-(core_log _ _ Ci). lia.
  - lia.
  - intros m b Hb Eb. rewrite <-(core_log _ _ Cj) in Hb.
    destruct m as [|m]; [by apply log_fits_pos|].
    destruct (hist_matching _ _ _ HL Ij (S m) b ltac:(lia) Hb) as (l & n & Hn & Rn & Tn & En).
    assert (l = i) as ->.
    { eapply (leaders_agree peers Hpos a l n i _ HI Hn Ii Rn Hr). rewrite (core_term _ _ Ci). congruence. }
    destruct (lg_lead_cur _ HL i n Hn Rn) as [_ Hpre]; [rewrite (core_term _ _ Ci); congruence|].
    apply Hpre, prefix_length in Hr. rewrite <-(core_log _ _ Ci). eapply Nat.lt_le_trans; [|done].
    by eapply take_S_length.
Qed.

(** The cluster after a proposal to its leader. *)
Lemma propose_led i data :
  cluster_run → i ∈ peers → role_ (servers c i) = kLeader →
  (∀ j, j ∈ peers → current_term_ (servers c j) ≤ current_term_ (servers c i)) →
  let L := servers c i in
  ∃ c1, exec peers [ECall (CPropose i data)] c = Some c1 ∧
    led peers election_ticks heartbeat_ticks i c1 ∧
    servers c1 i = settled (Propose data L).2.
Proof.
  intros Hrun Hi Hr Ht L. eexists. split_and!.
  - simpl. unfold exec_event. simpl. by rewrite bool_decide_true.
  - destruct (run_in_range i Hrun Hi) as (Hf & _ & Hroom & Ec).
    destruct (Propose_spec data L Hr Hf Hroom) as (Hr1 & Ec1 & _).
    split; [by rewrite servers_after, decide_True|]. split.
    { rewrite servers_after, decide_True by done.
      exact (Propose_counts data _ (run_counts _ _ _ _ _ i Hrun)). }
    intros j Hj. rewrite !servers_after, (decide_True (P := i = i)) by done.
    case_decide as Hji; [subst j; split; [|done]; exact (eq_trans Ec1 Ec)|].
    split; [by apply run_in_range|]. intros _.
    destruct (run_leads i j Hrun Hi Hj Hji Hr (Ht j Hj)) as (Hl & _ & Hbeyond).
    eapply leads_kept; [|apply settled_kept]. by apply leads_propose.
  - by rewrite servers_after, decide_True.
Qed.

(** What a node has committed is in the log of a leader that it has not outgrown. *)
Lemma run_commit_within i j :
  cluster_run → i ∈ peers → j ∈ peers → role_ (servers c i) = kLeader →
  current_term_ (servers c j) ≤ current_term_ (servers c i) →
  commit_index_ (servers c j) < Z.of_nat (length (log_ (servers c i))).
Proof.
  intros Hrun Hi Hj Hr Ht. pose proof (run_ids _ _ _ _ _ Hrun) as Hpos.
  destruct (run_in_range i Hrun Hi) as (Hfi & _). pose proof (log_fits_pos _ Hfi).
  destruct (run_csim _ _ _ _ _ Hrun) as (a & _ & [Hsafe _ Hnodes _ _ _]).
  destruct (Hnodes i Hi) as (Ci & _), (Hnodes j Hj) as (Cj & _).
  pose proof (inv_cur _ _ (safe_election _ _ Hsafe) i Hi) as Ii.
  pose proof (inv_cur _ _ (safe_election _ _ Hsafe) j Hj) as Ij.
  destruct (seen_committed peers a j _ _ Hsafe Ij Cj) as (_ & Hcom & Ec).
  destruct Hsafe as [HI HL HR _]. rewrite <-(core_log _ _ Ci) in *.
  cut (commit (nodes a j) < length (nlog (nodes a i)))%nat; [lia|].
  rewrite <-(core_role _ _ Ci) in Hr. rewrite <-(core_term _ _ Ci), <-(core_term _ _ Cj) in Ht.
  destruct Hcom as [->|(l & m & Hch & Tl & Hm & _)]; [lia|]. clear Ec.
  pose proof (chosen_lt _ _ _ _ Hch) as Hml. pose proof Hch as ([q Hq] & Rl & _).
  destruct (decide (term l < term (nodes a i))) as [Hlt|Hge].
  - pose proof (leader_complete peers Hpos a l m i _ HI HL HR Hch Ii Hr Hlt) as E.
    apply (f_equal length) in E. rewrite !length_take in E. lia.
  - assert (term l = term (nodes a i)) as Et by lia.
    assert (q = i) as -> by (by eapply (leaders_agree peers Hpos a q l i _ HI Hq Ii Rl Hr)).
    destruct (lg_lead_cur _ HL i l Hq Rl Et) as [_ Hpre]. apply Hpre, prefix_length in Hr. lia.
Qed.

(** A proposal and its replication to all nodes, from which the leader still
    leads. *)
Lemma proposal_replicates i data :
  cluster_run → i ∈ peers → role_ (servers c i) = kLeader →
  (∀ j, j ∈ peers → current_term_ (servers c j) ≤ current_term_ (servers c i)) →
  let log := log_ (servers c i) in
  let command := mkLogEntry (current_term_ (servers c i)) (Z.of_nat (length log)) data in
  ∃ es c', exec peers (ECall (CPropose i data) :: es) c = Some c' ∧ Forall (quiet i) es ∧
    (length es ≤ 2 * (length peers * (S (length log) * exchange_calls heartbeat_ticks i)))%nat ∧
    (∀ j, j ∈ peers → (log ++ [command]) `prefix_of` log_ (servers c' j) ∧
      Z.of_nat (length log) ≤ commit_index_ (servers c' j)) ∧
    role_ (servers c' i) = kLeader ∧ log_ (servers c' i) = log ++ [command] ∧
    ∀ j, j ∈ peers → current_term_ (servers c' j) ≤ current_term_ (servers c' i).
Proof.
  intros Hrun Hi Hr Ht log command. pose proof (run_distinct _ _ _ _ _ Hrun) as Hnd.
  destruct (run_in_range i Hrun Hi) as (Hf & _ & Hroom & _).
  destruct (Propose_spec data _ Hr Hf Hroom) as (Hr1 & Ec1 & Et1 & El1 & Hnone1).
  destruct (propose_led i data Hrun Hi Hr Ht) as (c1 & E1 & Hled1 & Ei1).
  set (L1 := (Propose data (servers c i)).2) in *. fold log in El1.
  assert (log_ (servers c1 i) = log ++ [command] ∧
          current_term_ (servers c1 i) = current_term_ (servers c i)) as [El Et] by by rewrite Ei1.
  set (ps := filter (.≠ i) peers).
  assert (NoDup ps ∧ ∀ j, j ∈ ps → j ∈ peers ∧ j ≠ i) as [Hps Hin].
  { split; [by apply NoDup_filter|]. intros j [? ?]%list_elem_of_filter. done. }
  destruct (replicate_all _ _ _ i c1 ps Hled1 Hi Hps Hin)
    as (c2 & R2 & Hled2 & (Et2 & El2 & Hc2) & Hall2 & Hnone2).
  assert (LastIndex (servers c2 i) = LastIndex (servers c1 i)) as EL2
    by (unfold LastIndex; by rewrite El2).
  assert (∀ r, log_ r = log ++ [command] → log_fits r) as Hfits.
  { intros r E. split; rewrite E; [by destruct log|]. rewrite length_app. subst log. simpl. lia. }
  assert (Z.of_nat (length log) ≤ commit_index_ (servers c2 i)) as Hcom.
  { destruct (decide (ps = [])) as [Enil|Hne].
    - trans (commit_index_ L1); [|rewrite Ei1 in Hc2; exact Hc2].
      apply (all_matched_committed peers election_ticks heartbeat_ticks i L1 log command);
        [done..|by rewrite Ec1; apply run_in_range|by apply Hfits|done|by rewrite Et1| |done].
      intros j Hj Hji. exfalso. apply (not_elem_of_nil j). rewrite <-Enil. by apply list_elem_of_filter.
    - apply (all_matched_committed peers election_ticks heartbeat_ticks i _ log command);
        [done..|by apply Hled2|apply Hfits; congruence|congruence|by rewrite Et2, Et| |].
      + intros j Hj Hji. rewrite EL2. apply Hall2. by apply list_elem_of_filter.
      + rewrite EL2. by apply Hnone2. }
  destruct (replicate_all _ _ _ i c2 ps Hled2 Hi Hps Hin)
    as (c3 & R3 & (Hr3 & _ & Hled3) & (_ & El3 & Hc3) & Hall3 & _).
  destruct (reaches_in_trans _ _ _ _ _ _ _ R2 R3) as (es & Q & E3 & Hlen). exists es, c3.
  split_and!; [by rewrite <-E3; apply (exec_app _ [ECall (CPropose i data)])|done| | |done| |].
  { rewrite El2, El, length_app, Nat.add_1_r in Hlen. etrans; [exact Hlen|].
    assert (length ps ≤ length peers)%nat as Hle by apply length_filter.
    pose proof (Nat.mul_le_mono_r _ _ (S (length log) * exchange_calls heartbeat_ticks i) Hle). lia. }
  { intros j Hj. destruct (decide (j = i)) as [->|Hji].
    { rewrite El3, El2, El. split; [done|lia]. }
    destruct (Hall3 j) as (Hpre & Hcj & _); [by apply list_elem_of_filter|].
    rewrite El2, El in Hpre. split; [done|lia]. }
  { by rewrite El3, El2, El. }
  intros j Hj. destruct (decide (j = i)) as [->|Hji]; [done|]. by apply (Hled3 j Hj).
Qed.

(** C10: a cluster with a leader makes progress.  In every reachable cluster,
    whatever the network lost and however the logs diverged, a command proposed
    to a leader whose term no node has outgrown can be committed on all nodes
    without an election or another call: some sequence of the leader's ticks and
    of deliveries of messages that were sent leads to a state where every node
    holds the leader's log with the command at its end and has committed it.  Its
    length is bounded: at most twice an exchange per node and entry of the log,
    an exchange being the ticks to a heartbeat and two deliveries. *)
Theorem raft_proposal_commits i data :
  cluster_run → i ∈ peers → role_ (servers c i) = kLeader →
  (∀ j, j ∈ peers → current_term_ (servers c j) ≤ current_term_ (servers c i)) →
  let log := log_ (servers c i) in
  let command := mkLogEntry (current_term_ (servers c i)) (Z.of_nat (length log)) data in
  ∃ es c', exec peers (ECall (CPropose i data) :: es) c = Some c' ∧ Forall (quiet i) es ∧
    (length es ≤ 2 * (length peers * (S (length log) * exchange_calls heartbeat_ticks i)))%nat ∧
    ∀ j, j ∈ peers → (log ++ [command]) `prefix_of` log_ (servers c' j) ∧
      Z.of_nat (length log) ≤ commit_index_ (servers c' j).
Proof.
  intros Hrun Hi Hr Ht log command.
  destruct (proposal_replicates i data Hrun Hi Hr Ht) as (es & c' & E & Q & L & Hall & _).
  by exists es, c'.
Qed.
End progress.

(** ** Witness *)

(** Node 2 leads the cluster of [demo_events]; node 3 has crashed twice. *)
Lemma raft_proposal_commits_witness :
  let log := log_ (servers demo_cluster 2) in
  let command := mkLogEntry 2 2 (str "y") in
  ∃ es c', exec demo_peers (ECall (CPropose 2 (str "y")) :: es) demo_cluster = Some c' ∧
    Forall (quiet 2) es ∧ (length es ≤ 2 * (3 * (3 * 4)))%nat ∧
    ∀ j, j ∈ demo_peers → (log ++ [command]) `prefix_of` log_ (servers c' j) ∧
      Z.of_nat (length log) ≤ commit_index_ (servers c' j).
Proof.
  assert (mkLogEntry 2 2 (str "y") = mkLogEntry (current_term_ (servers demo_cluster 2))
    (Z.of_nat (length (log_ (servers demo_cluster 2)))) (str "y")) as E by (vm_compute; reflexivity).
  cbv zeta. rewrite E.
  apply (raft_proposal_commits demo_peers (λ i, i) (λ _, 1) (length demo_events) demo_cluster 2).
  - exact demo_run.
  - apply (bool_decide_unpack _). vm_compute. exact I.
  - vm_compute. reflexivity.
  - apply Forall_forall, (bool_decide_unpack _). vm_compute. exact I.
Defined.
