(* ===== verification/RaftCampaign.v ===== *)
(** * A cluster can always elect a leader

    From every reachable cluster, one of the nodes with the most up-to-date log
    can win an election by its ticks and by deliveries alone: a leader of an old
    term learns of the later one and steps down, a node campaigns until its term
    is the latest, every other node grants its vote, and the votes make a
    majority. *)

From S2P Require Import Prelude Raft RaftModel RaftElection RaftLogs RaftCommit RaftNode RaftCluster RaftRefine RaftApply RaftTheorems RaftProgress.
Local Open Scope Z_scope.

(** ** Logs as a candidate compares them *)

(** The log of [r2] is at least as up-to-date as that of [r1]. *)
Definition log_le (r1 r2 : Raft) : Prop :=
  LastTerm r1 < LastTerm r2 ∨ (LastTerm r1 = LastTerm r2 ∧ LastIndex r1 ≤ LastIndex r2).

Lemma best_log (server : Z → Raft) ps : ps ≠ [] →
  ∃ i, i ∈ ps ∧ ∀ j, j ∈ ps → log_le (server j) (server i).
Proof.
  induction ps as [|p ps IH]; [done|]. intros _. destruct (decide (ps = [])) as [->|Hne].
  - exists p. split; [left|]. intros j ->%list_elem_of_singleton. right. lia.
  - destruct (IH Hne) as (i & Hi & Hbest). clear IH.
    assert (log_le (server p) (server i) ∨ log_le (server i) (server p)) as [Hle|Hle]
      by (unfold log_le; lia).
    + exists i. split; [by right|]. intros j [->|Hj]%elem_of_cons; [done|by apply Hbest].
    + exists p. split; [left|]. intros j [->|Hj]%elem_of_cons; [right; lia|].
      specialize (Hbest j Hj). unfold log_le in *. lia.
Qed.

(** The parts of a node that this file is about. *)
Record same_node (r r' : Raft) : Prop := {
  sn_config : config_ r' = config_ r;
  sn_log : log_ r' = log_ r;
}.

#[local] Instance same_node_preorder : PreOrder same_node.
Proof. split; [done|]. intros ? ? ? [] []. split; congruence. Qed.

Lemma same_node_best r1 r1' r2 r2' :
  same_node r1 r1' → same_node r2 r2' → log_le r1 r2 → log_le r1' r2'.
Proof. intros [_ E1] [_ E2]. unfold log_le, LastTerm, LastIndex. by rewrite E1, E2. Qed.

Lemma vote_msg_settled o r j : vote_msg (settled (set_out_msgs o r)) j = vote_msg r j.
Proof. done. Qed.

Lemma settled_role r : role_ (settled r) = role_ r.
Proof. done. Qed.

Lemma BecomeLeader_wins r :
  role_ (BecomeLeader r) = kLeader ∧ current_term_ (BecomeLeader r) = current_term_ r ∧
  same_node r (BecomeLeader r).
Proof. rewrite BecomeLeader_eq, BroadcastAppendEntries_eq. by split_and!. Qed.

Section campaign.
Context (peers : list Z) (election_ticks heartbeat_ticks : Z → Z).
Abbreviation cfg := (cfg peers election_ticks heartbeat_ticks).
Abbreviation reaches := (reaches peers).
Implicit Types (i j p : Z) (c : cluster).

(** ** Campaigning *)

(** Node [i] has just started an election in term [t]. *)
Record campaigning i (t : Z) c : Prop := {
  cp_role : role_ (servers c i) = kCandidate;
  cp_term : current_term_ (servers c i) = t;
  cp_votes : votes_granted_ (servers c i) = [i];
  cp_asked : ∀ j, j ∈ peers → j ≠ i → vote_msg (servers c i) j ∈ network c;
}.

(** A node that is no leader starts an election after enough ticks. *)
Lemma times_out i c :
  i ∈ peers → role_ (servers c i) ≠ kLeader →
  ∃ c' r, reaches i c c' ∧ (∀ p, p ≠ i → servers c' p = servers c p) ∧
    same_node (servers c i) r ∧ current_term_ r = current_term_ (servers c i) ∧
    servers c' i = settled (BecomeCandidate r) ∧
    ∀ m, m ∈ out_msgs_ (BecomeCandidate r) → m ∈ network c'.
Proof.
  intros Hi. remember (Z.to_nat (election_timeout (config_ (servers c i)) -
                       election_elapsed_ (servers c i))) as n eqn:En.
  revert c En. induction n as [n IH] using lt_wf_ind. intros c En Hr.
  set (r := servers c i) in *. set (c1 := after_call c i (Tick r) (applied c i)).
  assert (reaches i c c1) as R1 by by apply reaches_tick.
  assert (∀ p, p ≠ i → servers c1 p = servers c p) as S1.
  { intros p Hp. unfold c1. by rewrite servers_after, decide_False. }
  assert (servers c1 i = settled (Tick r)) as Si by (unfold c1; by rewrite servers_after, decide_True).
  set (r1 := set_election_elapsed (election_elapsed_ r + 1) r).
  assert (Tick r = if election_timeout (config_ r) <=? election_elapsed_ r + 1
                   then BecomeCandidate r1 else r1) as ET by (unfold Tick; by destruct (role_ r)).
  destruct (Z.leb_spec (election_timeout (config_ r)) (election_elapsed_ r + 1)) as [Hle|Hgt].
  - exists c1, r1. rewrite <-ET. split_and!; [done..|]. intros m Hm. by apply network_after.
  - rewrite ET in Si. destruct (IH (n - 1)%nat) with (c := c1) as (c' & r' & R' & S' & [N1 N2] & T' & E').
    + lia.
    + rewrite Si, En. simpl. fold r. lia.
    + by rewrite Si.
    + rewrite Si in N1, N2, T'. exists c', r'. split; [by etrans|].
      split; [intros p Hp; by rewrite S', S1|]. split; [split; [exact N1|exact N2]|done].
Qed.

(** The election, when there are other nodes. *)
Lemma campaign i c :
  i ∈ peers → config_ (servers c i) = cfg i → role_ (servers c i) ≠ kLeader →
  1 < QuorumSize (servers c i) → 0 ≤ current_term_ (servers c i) < 2 ^ 64 - 1 →
  ∃ c', reaches i c c' ∧ (∀ p, p ≠ i → servers c' p = servers c p) ∧
    same_node (servers c i) (servers c' i) ∧
    campaigning i (current_term_ (servers c i) + 1) c'.
Proof.
  intros Hi Ec Hr Hq Ht. destruct (times_out i c Hi Hr) as (c' & r & R & O & [N1 N2] & T & E & M).
  exists c'. rewrite BecomeCandidate_eq in E, M. cbv zeta in E, M.
  replace (QuorumSize (candidate_state r)) with (QuorumSize (servers c i)) in *
    by (unfold QuorumSize; simpl; by rewrite N1).
  rewrite (proj2 (Z.leb_gt _ _)) in E, M by done. rewrite E.
  split_and!; [done..|split; [exact N1|exact N2]|]. split; rewrite ?E.
  - done.
  - simpl. rewrite T. apply u64_small. lia.
  - simpl. by rewrite N1, Ec.
  - intros j Hj Hji. apply M, elem_of_app. right. apply list_elem_of_fmap. exists j. split; [apply vote_msg_settled|].
    apply (others_cfg peers election_ticks heartbeat_ticks _ i); [by simpl; rewrite N1|done..].
Qed.

(** The election of a node that is its own majority. *)
Lemma alone_wins i c :
  i ∈ peers → role_ (servers c i) ≠ kLeader → QuorumSize (servers c i) = 1 →
  ∃ c', reaches i c c' ∧ role_ (servers c' i) = kLeader.
Proof.
  intros Hi Hr Hq. destruct (times_out i c Hi Hr) as (c' & r & R & _ & [N1 _] & _ & E & _).
  exists c'. split; [done|]. rewrite BecomeCandidate_eq in E. cbv zeta in E.
  assert (QuorumSize (candidate_state r) = QuorumSize (servers c i)) as Eq
    by (unfold QuorumSize; simpl; by rewrite N1).
  rewrite Eq, Hq, Z.leb_refl in E. rewrite E, settled_role. apply BecomeLeader_wins.
Qed.

(** It can do so until its term is beyond any given one. *)
Lemma campaign_beyond i c T :
  i ∈ peers → config_ (servers c i) = cfg i → role_ (servers c i) ≠ kLeader →
  1 < QuorumSize (servers c i) → 0 ≤ current_term_ (servers c i) ≤ T → T < 2 ^ 64 - 1 →
  ∃ c' t, reaches i c c' ∧ (∀ p, p ≠ i → servers c' p = servers c p) ∧
    same_node (servers c i) (servers c' i) ∧ T < t ∧ campaigning i t c'.
Proof.
  intros Hi. remember (Z.to_nat (T - current_term_ (servers c i))) as n eqn:En.
  revert c En. induction n as [|n IH]; intros c En Ec Hr Hq Ht HT;
    destruct (campaign i c Hi Ec Hr Hq) as (c1 & R1 & O1 & [E1 E2] & C1); [lia| |lia|].
  - exists c1, (current_term_ (servers c i) + 1). split_and!; [done..|lia|done].
  - destruct (IH c1) as (c2 & t & R2 & O2 & N2 & Ht2 & C2).
    + rewrite (cp_term _ _ _ C1). lia.
    + by rewrite E1.
    + by rewrite (cp_role _ _ _ C1).
    + unfold QuorumSize in *. by rewrite E1.
    + rewrite (cp_term _ _ _ C1). lia.
    + done.
    + exists c2, t. split_and!; [by etrans| |etrans; [|done]; by split|done|done].
      intros p Hp. by rewrite O2, O1.
Qed.

(** ** Votes *)

(** A node of an earlier term grants its vote to a candidate whose log is at
    least as up-to-date as its own. *)
Lemma grants cand r j :
  current_term_ r < current_term_ cand → log_le r cand →
  let r' := Step (vote_msg cand j) r in
  same_node r r' ∧ current_term_ r' = current_term_ cand ∧
  RequestVoteResp (id (config_ r)) (id (config_ cand)) (current_term_ cand) true ∈ out_msgs_ r'.
Proof.
  intros Ht Hle. unfold Step. cbn [m_term vote_msg RequestVote].
  rewrite (proj2 (Z.ltb_lt _ _)) by done. cbv zeta. unfold BecomeFollower.
  rewrite (proj2 (Z.ltb_lt _ _)) by done. rewrite decide_False by done.
  set (r1 := set_election_elapsed 0 _). unfold StepRole. change (role_ r1) with kFollower.
  unfold StepFollower. cbn [m_type vote_msg RequestVote]. unfold HandleRequestVote. cbv zeta.
  change (voted_for_ r1) with 0. cbn [last_log_term last_log_index vote_msg RequestVote].
  change (LastTerm r1) with (LastTerm r). change (LastIndex r1) with (LastIndex r).
  replace (_ && _) with true.
  - split; [done|]. split; [done|]. apply elem_of_app. right. left.
  - symmetry. apply andb_true_iff. split; [done|]. apply orb_true_iff.
    rewrite andb_true_iff, Z.ltb_lt, Z.eqb_eq, Z.leb_le. unfold log_le in Hle. lia.
Qed.

(** A candidate that gets a vote leads if that makes a majority. *)
Lemma counts_vote r i j :
  role_ r = kCandidate → j ∉ votes_granted_ r →
  let r1 := set_votes_granted (votes_granted_ r ++ [j]) r in
  Step (RequestVoteResp j i (current_term_ r) true) r =
  if QuorumSize r <=? Z.of_nat (length (votes_granted_ r)) + 1 then BecomeLeader r1 else r1.
Proof.
  intros Hr Hj. unfold Step. cbn [m_term RequestVoteResp]. rewrite Z.ltb_irrefl.
  unfold StepRole. rewrite Hr. unfold StepCandidate.
  cbn [m_type RequestVoteResp vote_granted m_from]. cbv zeta. rewrite bool_decide_false by done.
  set (r1 := set_votes_granted _ r). change (QuorumSize r1) with (QuorumSize r).
  change (votes_granted_ r1) with (votes_granted_ r ++ [j]). rewrite length_app.
  by rewrite Nat2Z.inj_add.
Qed.

(** The deliveries of a vote request and of the vote. *)
Lemma ask i j c :
  i ∈ peers → j ∈ peers → j ≠ i → config_ (servers c i) = cfg i → config_ (servers c j) = cfg j →
  vote_msg (servers c i) j ∈ network c →
  current_term_ (servers c j) < current_term_ (servers c i) →
  log_le (servers c j) (servers c i) →
  let t := current_term_ (servers c i) in
  ∃ c', reaches i c c' ∧ network c ⊆ network c' ∧
    (∀ p, p ≠ i → p ≠ j → servers c' p = servers c p) ∧
    same_node (servers c j) (servers c' j) ∧ current_term_ (servers c' j) = t ∧
    servers c' i = settled (Step (RequestVoteResp j i t true) (servers c i)).
Proof.
  intros Hi Hj Hji Eci Ecj Hm Ht Hle t.
  destruct (grants _ _ j Ht Hle) as (HN & HT & Hresp). rewrite Eci, Ecj in Hresp. cbn [id cfg] in Hresp.
  pose proof (reaches_deliver peers i c _ Hm Hj) as R1. cbn [m_to vote_msg RequestVote] in R1.
  set (F := Step (vote_msg (servers c i) j) (servers c j)) in *.
  set (c1 := after_call c j F (applied c j)) in *.
  pose proof (reaches_deliver peers i c1 _ (network_after _ _ _ _ _ Hresp) Hi) as R2.
  cbn [m_to RequestVoteResp] in R2.
  assert (servers c1 i = servers c i) as E1 by (unfold c1; by rewrite servers_after, decide_False).
  rewrite E1 in R2. eexists. split; [by etrans|]. split; [|split; [|split; [|split]]].
  - intros m Hin. simpl. apply elem_of_app. left. apply elem_of_app. by left.
  - intros p Hpi Hpj. rewrite servers_after, decide_False by done.
    unfold c1. by rewrite servers_after, decide_False.
  - rewrite servers_after, decide_False by done. unfold c1. rewrite servers_after, decide_True by done.
    destruct HN as [E2 E3]. split; [exact E2|exact E3].
  - rewrite servers_after, decide_False by done. unfold c1. by rewrite servers_after, decide_True.
  - by rewrite servers_after, decide_True.
Qed.

(** Node [i] leads and no node knows a later term. *)
Definition elected i c : Prop :=
  role_ (servers c i) = kLeader ∧
  ∀ j, j ∈ peers → current_term_ (servers c j) ≤ current_term_ (servers c i).

(** A candidate that asks the nodes [ps], whose votes it lacks for a majority,
    wins. *)
Lemma canvass i c ps :
  i ∈ peers → NoDup ps → (∀ p, p ∈ peers → config_ (servers c p) = cfg p) →
  role_ (servers c i) = kCandidate →
  (∀ j, j ∈ ps → j ∈ peers ∧ j ≠ i ∧ (j ∉ votes_granted_ (servers c i)) ∧
     vote_msg (servers c i) j ∈ network c ∧ log_le (servers c j) (servers c i) ∧
     current_term_ (servers c j) < current_term_ (servers c i)) →
  (∀ j, j ∈ peers → current_term_ (servers c j) ≤ current_term_ (servers c i)) →
  Z.of_nat (length (votes_granted_ (servers c i))) < QuorumSize (servers c i)
    ≤ Z.of_nat (length (votes_granted_ (servers c i)) + length ps) →
  ∃ c', reaches i c c' ∧ elected i c'.
Proof.
  intros Hi Hnd. revert c. induction Hnd as [|j ps Hjps Hnd IH]; intros c Hcfg Hr Hps Ht Hq.
  { simpl in Hq. lia. }
  destruct (Hps j) as (Hj & Hji & Hjv & Hm & Hle & Htj); [left|].
  destruct (ask i j c Hi Hj Hji (Hcfg i Hi) (Hcfg j Hj) Hm Htj Hle)
    as (c1 & R1 & N1 & O1 & Sj & Tj & Ei).
  rewrite (counts_vote _ i j Hr Hjv) in Ei. set (r1 := set_votes_granted _ (servers c i)) in Ei.
  assert (current_term_ (servers c1 i) = current_term_ (servers c i) ∧
          config_ (servers c1 i) = config_ (servers c i)) as [Ti Eci].
  { rewrite Ei. destruct (_ <=? _); [|done]. by destruct (BecomeLeader_wins r1) as (_ & ? & [? _]). }
  assert (∀ p, p ∈ peers → current_term_ (servers c1 p) ≤ current_term_ (servers c1 i)) as Ht1.
  { intros p Hp. rewrite Ti. destruct (decide (p = i)) as [->|Hpi]; [by rewrite Ti|].
    destruct (decide (p = j)) as [->|Hpj]; [by rewrite Tj|]. rewrite O1 by done. by apply Ht. }
  destruct (Z.leb_spec (QuorumSize (servers c i)) (Z.of_nat (length (votes_granted_ (servers c i))) + 1)).
  { exists c1. split; [done|]. split; [|done]. rewrite Ei, settled_role. apply BecomeLeader_wins. }
  destruct (IH c1) as (c2 & R2 & E2); [..|exists c2; split; [by etrans|done]].
  - intros p Hp. destruct (decide (p = i)) as [->|Hpi]; [rewrite Eci; by apply Hcfg|].
    destruct (decide (p = j)) as [->|Hpj]; [by rewrite (sn_config _ _ Sj); apply Hcfg|].
    rewrite O1 by done. by apply Hcfg.
  - by rewrite Ei.
  - intros p Hp. assert (p ≠ j) as Hpj by (by intros ->).
    destruct (Hps p) as (? & ? & Hv & Hmp & ? & ?); [by right|]. rewrite (O1 p) by done. rewrite Ei.
    split_and!; [done|done| |by apply N1|done|done].
    simpl. intros [?| ->%list_elem_of_singleton]%elem_of_app; done.
  - done.
  - rewrite Ei. change (QuorumSize (settled r1)) with (QuorumSize (servers c i)).
    simpl. rewrite length_app. simpl in *. lia.
Qed.

(** A leader that some node has outgrown learns of the later term and steps
    down. *)
Lemma step_down i j c :
  i ∈ peers → j ∈ peers → config_ (servers c i) = cfg i → config_ (servers c j) = cfg j →
  role_ (servers c i) = kLeader → current_term_ (servers c i) < current_term_ (servers c j) →
  ∃ c', reaches i c c' ∧ role_ (servers c' i) = kFollower ∧
    current_term_ (servers c' i) = current_term_ (servers c j) ∧
    same_node (servers c i) (servers c' i) ∧
    ∀ p, p ≠ i → same_node (servers c p) (servers c' p) ∧
      current_term_ (servers c' p) = current_term_ (servers c p).
Proof.
  intros Hi Hj Eci Ecj Hr Ht. assert (j ≠ i) as Hji by (intros ->; lia).
  destruct (heartbeat peers i c Hi Hr) as (c1 & R1%reaches_in_reaches & O1 & K1 & _ & N1).
  specialize (N1 j (others_cfg _ _ _ _ _ _ Eci Hj Hji)).
  pose proof (reaches_deliver peers i c1 _ N1 Hj) as R2. cbn [m_to append_msg AppendEntries] in R2.
  rewrite (O1 j Hji) in R2.
  set (resp := AppendEntriesResp j i (current_term_ (servers c j)) false 0).
  assert (Step (append_msg (servers c i) j) (servers c j) = Send resp (servers c j)) as E2.
  { unfold Step. cbn [m_term append_msg AppendEntries]. rewrite (proj2 (Z.ltb_ge _ _)) by lia.
    rewrite (proj2 (Z.ltb_lt _ _)) by done. unfold RejectStale, resp. simpl. by rewrite Eci, Ecj. }
  rewrite E2 in R2. set (c2 := after_call c1 j _ _) in R2.
  assert (resp ∈ network c2) as Hresp by (apply network_after, elem_of_app; right; left).
  pose proof (reaches_deliver peers i c2 _ Hresp Hi) as R3. cbn [m_to resp AppendEntriesResp] in R3.
  assert (servers c2 i = servers c1 i) as Ei by (unfold c2; by rewrite servers_after, decide_False).
  rewrite Ei in R3. set (r := Step _ (servers c1 i)) in R3.
  assert (r = BecomeFollower (current_term_ (servers c j)) 0 (servers c1 i)) as Er.
  { unfold r, Step. cbn [m_term AppendEntriesResp].
    assert (current_term_ (servers c1 i) = current_term_ (servers c i)) as ->
      by (by destruct K1 as (? & ? & ? & ? & ->)).
    by rewrite (proj2 (Z.ltb_lt _ _)) by done. }
  eexists. split; [etrans; [exact R1|]; etrans; [exact R2|exact R3]|].
  rewrite !servers_after, !decide_True by done. rewrite Er.
  destruct K1 as (h & st & b & o & Ek). rewrite Ek. unfold BecomeFollower.
  cbn [current_term_ set_out_msgs set_hard_state_dirty set_stable_index set_heartbeat_elapsed].
  rewrite (proj2 (Z.ltb_lt _ _)) by done. split_and!; [done..|]. intros p Hp.
  rewrite servers_after, decide_False by done. unfold c2. rewrite servers_after.
  case_decide as Hpj; [by subst p|]. by rewrite O1.
Qed.
End campaign.

(** ** From a reachable cluster *)

Section election.
Context (peers : list Z) (election_ticks heartbeat_ticks : Z → Z) (k : nat) (c : cluster).
Abbreviation cluster_run := (cluster_run peers election_ticks heartbeat_ticks k c).
Abbreviation cfg := (cfg peers election_ticks heartbeat_ticks).

Lemma run_terms i : cluster_run → i ∈ peers → 0 ≤ current_term_ (servers c i) ≤ 2 ^ 62.
Proof.
  intros Hrun Hi. destruct (run_csim _ _ _ _ _ Hrun) as (a & _ & [[HI _ _ _] Hb Hn _ _ _]).
  destruct (Hn i Hi) as (Hc & _). pose proof (inv_cur _ _ HI i Hi) as Hin.
  pose proof (inv_term _ _ HI _ _ Hin). destruct (Hb _ _ Hin) as [? _].
  rewrite (core_term _ _ Hc) in *. pose proof (run_length _ _ _ _ _ Hrun). lia.
Qed.

(** A node with the best log that is no leader can win. *)
Lemma best_wins i (c1 : cluster) :
  NoDup peers → i ∈ peers → (∀ p, p ∈ peers → config_ (servers c1 p) = cfg p) →
  (∀ p, p ∈ peers → 0 ≤ current_term_ (servers c1 p) ≤ 2 ^ 62) →
  (∀ p, p ∈ peers → log_le (servers c1 p) (servers c1 i)) → role_ (servers c1 i) ≠ kLeader →
  ∃ c', reaches peers i c1 c' ∧ elected peers i c'.
Proof.
  intros Hnd Hi Hcfg Ht Hbest Hr.
  set (ps := filter (.≠ i) peers).
  assert (∀ p, p ∈ ps ↔ p ≠ i ∧ p ∈ peers) as Hps by (intros p; unfold ps; by rewrite list_elem_of_filter).
  assert (length peers = S (length ps)) as Elen.
  { apply (Permutation_length (l' := i :: ps)), NoDup_Permutation; [done|..].
    - apply NoDup_cons. split; [by intros [? _]%Hps|by apply NoDup_filter].
    - intros p. rewrite elem_of_cons, Hps. destruct (decide (p = i)) as [->|]; tauto. }
  assert (QuorumSize (servers c1 i) = Z.of_nat (S (length ps)) / 2 + 1) as EQ
    by (unfold QuorumSize; rewrite Hcfg by done; cbn [Raft.peers cfg]; by rewrite Elen).
  destruct (decide (ps = [])) as [Enil|Hne].
  - destruct (alone_wins peers i c1 Hi Hr) as (c' & R & E); [rewrite EQ; by rewrite Enil|].
    exists c'. split; [done|]. split; [done|].
    intros j Hj. destruct (decide (j = i)) as [->|Hji]; [done|]. exfalso.
    apply (not_elem_of_nil j). rewrite <-Enil. by apply Hps.
  - assert (2 ≤ S (length ps))%nat as Hlen by (destruct ps; [done|simpl; lia]).
    pose proof (Z.div_mod (Z.of_nat (S (length ps))) 2). 
    pose proof (Z.mod_pos_bound (Z.of_nat (S (length ps))) 2).
    destruct (campaign_beyond peers election_ticks heartbeat_ticks i c1 (2 ^ 62))
      as (c2 & t & R & O & N & Htt & [Hr2 Ht2 Hv2 Hm2]); [done|by apply Hcfg|done|lia|by apply Ht|lia|].
    assert (∀ p, p ∈ peers → same_node (servers c1 p) (servers c2 p)) as Hsame.
    { intros p _. destruct (decide (p = i)) as [->|Hp]; [done|]. by rewrite O. }
    destruct (canvass peers election_ticks heartbeat_ticks i c2 ps) as (c3 & R3 & E3);
      [done|by apply NoDup_filter|..|exists c3; split; [by etrans|done]].
    + intros p Hp. rewrite (sn_config _ _ (Hsame p Hp)). by apply Hcfg.
    + done.
    + intros j [Hji Hj]%Hps. rewrite Hv2. split_and!; [done|done| |by apply Hm2| |].
      * by intros ->%list_elem_of_singleton.
      * eapply same_node_best; [by apply Hsame..|by apply Hbest].
      * rewrite O, Ht2 by done. specialize (Ht j Hj). lia.
    + intros j Hj. rewrite Ht2. destruct (decide (j = i)) as [->|Hji]; [lia|].
      rewrite O by done. specialize (Ht j Hj). lia.
    + unfold QuorumSize in *. rewrite (sn_config _ _ N), EQ, Hv2. simpl length. lia.
Qed.

(** C11: a cluster can always elect a leader.  In every reachable cluster some
    node, by its own ticks and by deliveries of messages that were sent alone,
    becomes the leader of a term that no node has outgrown. *)
Theorem raft_can_elect :
  cluster_run → peers ≠ [] →
  ∃ i es c', i ∈ peers ∧ Forall (quiet i) es ∧ exec peers es c = Some c' ∧
    role_ (servers c' i) = kLeader ∧
    ∀ j, j ∈ peers → current_term_ (servers c' j) ≤ current_term_ (servers c' i).
Proof.
  intros Hrun Hne. destruct (best_log (servers c) peers Hne) as (i & Hi & Hbest). exists i.
  cut (∃ c', reaches peers i c c' ∧ elected peers i c').
  { intros (c' & (es & Q & E) & El & Et). by exists es, c'. }
  pose proof (λ p Hp, proj2 (proj2 (proj2 (run_in_range _ _ _ _ _ p Hrun Hp)))) as Hcfg. cbv zeta in Hcfg.
  pose proof (λ p, run_terms p Hrun) as Ht. pose proof (run_distinct _ _ _ _ _ Hrun) as Hnd.
  destruct (decide (role_ (servers c i) = kLeader)) as [Hl|Hl]; [|by apply best_wins].
  destruct (decide (Forall (λ j, current_term_ (servers c j) ≤ current_term_ (servers c i)) peers))
    as [Hall|Hex].
  { exists c. split; [done|]. split; [done|]. by apply Forall_forall. }
  apply not_Forall_Exists, Exists_exists in Hex as (j & Hj & Hlt); [|apply _].
  destruct (step_down peers election_ticks heartbeat_ticks i j c) as (c1 & R & Hr1 & T1 & N1 & Ho);
    [done|done|by apply Hcfg|by apply Hcfg|done|simpl in Hlt; lia|].
  assert (∀ p, p ∈ peers → same_node (servers c p) (servers c1 p)) as Hsame.
  { intros p _. destruct (decide (p = i)) as [->|Hp]; [done|]. by apply Ho. }
  destruct (best_wins i c1) as (c2 & R2 & E2); [done|done|..|exists c2; split; [by etrans|done]].
  - intros p Hp. rewrite (sn_config _ _ (Hsame p Hp)). by apply Hcfg.
  - intros p Hp. destruct (decide (p = i)) as [->|Hpi]; [rewrite T1; by apply Ht|].
    destruct (Ho p Hpi) as [_ ->]. by apply Ht.
  - intros p Hp. eapply same_node_best; [by apply Hsame..|by apply Hbest].
  - by rewrite Hr1.
Qed.
End election.

(** ** Witness *)

Lemma raft_can_elect_witness :
  ∃ i es c', i ∈ demo_peers ∧ Forall (quiet i) es ∧ exec demo_peers es demo_cluster = Some c' ∧
    role_ (servers c' i) = kLeader ∧
    ∀ j, j ∈ demo_peers → current_term_ (servers c' j) ≤ current_term_ (servers c' i).
Proof.
  apply (raft_can_elect demo_peers (λ i, i) (λ _, 1) (length demo_events) demo_cluster).
  - exact demo_run.
  - discriminate.
Defined.
