(* ===== verification/Storage.v ===== *)
(** * Raft storage (src/raft/storage.cc, include/mlsm/raft/storage.h)

    [RaftStorage]: the hard state and the log of a Raft node, as records of a
    write-ahead log.  Modelled are the record encoding and its decoder, [Open]
    with the replay of the file, [Recover] and [Save]. *)

From S2P Require Import Prelude Status Coding Files WalFormat WalWriter WalReader EnvPosix Raft.
Local Open Scope Z_scope.

(** ** Records *)

(** [RecordTag] *)
Definition kHardState : Z := 1.
Definition kEntry : Z := 2.
Definition kTruncate : Z := 3.

(** What [PutU32] and [PutU64] append. *)
Definition PutU32 (v : Z) : bytes := EncodeFixed32 v.

Definition PutU64 (v : Z) : bytes :=
  PutU32 (u32 (Z.land v 0xffffffff)) ++ PutU32 (u32 (Z.shiftr v 32)).

(** [Decoder]: the bytes from [p] on and the flag [ok]. *)
Record Decoder : Type := mkDecoder { d_rest : bytes; d_ok : bool }.

Definition U32 (d : Decoder) : Z * Decoder :=
  if Z.of_nat (length (d_rest d)) <? 4 then (0, mkDecoder (d_rest d) false)
  else (DecodeFixed32 (d_rest d), mkDecoder (drop 4 (d_rest d)) (d_ok d)).

Definition U64 (d : Decoder) : Z * Decoder :=
  let '(lo, d) := U32 d in
  let '(hi, d) := U32 d in
  (Z.lor lo (u64 (Z.shiftl hi 32)), d).

Definition Bytes (n : Z) (d : Decoder) : bytes * Decoder :=
  if Z.of_nat (length (d_rest d)) <? n then ([], mkDecoder (d_rest d) false)
  else (take (Z.to_nat n) (d_rest d), mkDecoder (drop (Z.to_nat n) (d_rest d)) (d_ok d)).

(** [CountingReporter] *)
Record CountingReporter : Type := mkCountingReporter { dropped : Z }.

#[export] Instance CountingReporter_reporter : Reporter CountingReporter :=
  λ n _ r, mkCountingReporter (dropped r + n).

(** [find_last_of] of a character: the length of what precedes it. *)
Fixpoint find_last_of (ch : Init.Byte.byte) (s : bytes) : option nat :=
  match s with
  | [] => None
  | b :: s =>
      match find_last_of ch s with
      | Some n => Some (S n)
      | None => if decide (b = ch) then Some 0%nat else None
      end
  end.

Definition ParentDir (path : bytes) : bytes :=
  match find_last_of (byte_of_Z 47) path with
  | None => str "."
  | Some O => str "/"
  | Some slash => take slash path
  end.

(** ** State *)

Record HardState : Type := mkHardState { hs_term : Z; hs_vote : Z }.

Record RaftStorage : Type := mkRaftStorage {
  path_ : bytes;
  file_ : option PosixWritableFile;
  writer_ : option Writer;
  persisted_index_ : Z;
  recovered_hs_ : HardState;
  recovered_entries_ : list LogEntry;
}.

Definition RaftStorage_new (path : bytes) : RaftStorage :=
  mkRaftStorage path None None 0 (mkHardState 0 0) [].

(** ** Replay *)

(** The loop that pops entries from the back while their index is at least
    [from]: here the vector is reversed. *)
Fixpoint pop_while (from : Z) (rev_entries : list LogEntry) : list LogEntry :=
  match rev_entries with
  | [] => []
  | e :: es => if from <=? e_index e then pop_while from es else rev_entries
  end.

Definition pop_from (from : Z) (es : list LogEntry) : list LogEntry :=
  reverse (pop_while from (reverse es)).

(** The body of the loop of [ReplayFile]. *)
Definition replay_raft_record (st : HardState * list LogEntry) (record : bytes)
    : HardState * list LogEntry :=
  match record with
  | [] => st
  | tag :: payload =>
      let d := mkDecoder payload true in
      let tag := byte_to_Z tag in
      if tag =? kHardState then
        let '(term, d) := U64 d in
        let '(vote, d) := U64 d in
        if d_ok d then (mkHardState term vote, st.2) else st
      else if tag =? kEntry then
        let '(term, d) := U64 d in
        let '(index, d) := U64 d in
        let '(len, d) := U32 d in
        let '(data, d) := Bytes len d in
        if d_ok d then (st.1, st.2 ++ [mkLogEntry term index data]) else st
      else if tag =? kTruncate then
        let '(from, d) := U64 d in
        if d_ok d then (st.1, pop_from from st.2) else st
      else st
  end.

Section storage.
Context {K : Type} `{Kernel K}.

Definition ReplayFile (store : RaftStorage) : M K (Status * RaftStorage) :=
  let* r := NewSequentialFile (path_ store) in
  if negb (ok r.1) then ret (r.1, store)
  else
    match r.2 with
    | None => null_dereference
    | Some file => λ k,
        match ForEachRecord replay_raft_record (recovered_hs_ store, recovered_entries_ store)
                (Reader_new (Some (mkCountingReporter 0)), (file, k)) with
        | Some ((hs, es), (_, (file, k))) =>
            let persisted := match last es with None => 0 | Some e => e_index e end in
            Some ((OK, mkRaftStorage (path_ store) (file_ store) (writer_ store) persisted hs es),
                  PosixSequentialFile_destroy file k)
        | None => None
        end
    end.

(** [RaftStorage::Open]: the status and [*out]. *)
Definition RaftStorage_Open (path : bytes) : M K (Status * option RaftStorage) :=
  let* s := MakeDir (ParentDir path) in
  if negb (ok s) then ret (s, None)
  else
    let store := RaftStorage_new path in
    let* found := FileExists path in
    let* r := (if (found : bool) then ReplayFile store else ret (OK, store)) in
    if negb (ok r.1) then ret (r.1, None)
    else
      let store := r.2 in
      let* present := FileExists path in
      let* gs := (if (present : bool) then GetFileSize path else ret (OK, 0)) in
      if negb (ok gs.1) then ret (gs.1, None)
      else
        let* f := NewAppendableFile path in
        if negb (ok f.1) then ret (f.1, None)
        else ret (OK, Some (mkRaftStorage (path_ store) f.2 (Some (Writer_new gs.2))
                              (persisted_index_ store) (recovered_hs_ store)
                              (recovered_entries_ store))).

(** [~RaftStorage]: the destructor of the file closes it. *)
Definition RaftStorage_destroy (store : RaftStorage) (k : K) : K :=
  match file_ store with Some file => PosixWritableFile_destroy file k | None => k end.

(** [RaftStorage::Recover] *)
Definition RaftStorage_Recover (store : RaftStorage) : Status * HardState * list LogEntry :=
  (OK, recovered_hs_ store, recovered_entries_ store).

(** ** Save *)

Definition set_persisted (v : Z) (store : RaftStorage) : RaftStorage :=
  mkRaftStorage (path_ store) (file_ store) (writer_ store) v
    (recovered_hs_ store) (recovered_entries_ store).

(** [writer_->AddRecord] *)
Definition add_record (rec : bytes) : M (RaftStorage * K) Status := λ '(store, k),
  match writer_ store, file_ store with
  | Some w, Some file =>
      match AddRecord rec (w, (file, k)) with
      | Some (s, (w, (file, k))) =>
          Some (s, (mkRaftStorage (path_ store) (Some file) (Some w) (persisted_index_ store)
                      (recovered_hs_ store) (recovered_entries_ store), k))
      | None => None
      end
  | _, _ => None
  end.

(** [file_->Sync] *)
Definition sync_file : M (RaftStorage * K) Status := λ '(store, k),
  match file_ store with
  | Some file =>
      match Sync (file, k) with
      | Some (s, (file, k)) =>
          Some (s, (mkRaftStorage (path_ store) (Some file) (writer_ store)
                      (persisted_index_ store) (recovered_hs_ store)
                      (recovered_entries_ store), k))
      | None => None
      end
  | None => None
  end.

Definition hard_state_record (raft : Raft) : bytes :=
  [byte_of_Z kHardState] ++ PutU64 (current_term_ raft) ++ PutU64 (voted_for_ raft).

Definition truncate_record (from : Z) : bytes := [byte_of_Z kTruncate] ++ PutU64 from.

Definition entry_record (e : LogEntry) : bytes :=
  [byte_of_Z kEntry] ++ PutU64 (e_term e) ++ PutU64 (e_index e) ++
  PutU32 (u32 (Z.of_nat (length (e_data e)))) ++ e_data e.

(** The loop of step 3, with [n] entries left from index [i] on. *)
Fixpoint save_entries (n : nat) (i : Z) (raft : Raft) : M (RaftStorage * K) Status :=
  match n with
  | O => ret OK
  | S n =>
      let* s := add_record (entry_record (entry_at i raft)) in
      if negb (ok s) then ret s else save_entries n (i + 1) raft
  end.

(** Step 2: a truncation, when the watermark is below what was persisted. *)
Definition save_truncation (raft : Raft) : M (RaftStorage * K) Status := λ '(store, k),
  if stable_index_ raft <? persisted_index_ store then
    match add_record (truncate_record (u64 (stable_index_ raft + 1))) (store, k) with
    | Some (s, (store, k)) =>
        Some (s, (if ok s then set_persisted (stable_index_ raft) store else store, k))
    | None => None
    end
  else Some (OK, (store, k)).

(** Step 3: the entries after the last persisted one. *)
Definition save_new_entries (raft : Raft) : M (RaftStorage * K) Status := λ '(store, k),
  save_entries (Z.to_nat (LastIndex raft - persisted_index_ store))
    (u64 (persisted_index_ store + 1)) raft (store, k).

(** [RaftStorage::Save]: the status and the node. *)
Definition Save (raft : Raft) : M (RaftStorage * K) (Status * Raft) :=
  let* s := (if hard_state_dirty_ raft then add_record (hard_state_record raft) else ret OK) in
  if negb (ok s) then ret (s, raft)
  else
    let raft := if hard_state_dirty_ raft then set_hard_state_dirty false raft else raft in
    let* s := save_truncation raft in
    if negb (ok s) then ret (s, raft)
    else
      let* s := save_new_entries raft in
      if negb (ok s) then ret (s, raft)
      else
        let* s := sync_file in
        if negb (ok s) then ret (s, raft)
        else λ '(store, k),
          Some ((OK, set_stable_index (LastIndex raft) raft),
                (set_persisted (LastIndex raft) store, k)).
End storage.
