(* ===== verification/StorageTheorems.v ===== *)
(** * What Raft storage promises

    Records decode to what was encoded; a successful [Save] makes the term, the
    vote and the log of the node durable, whatever combination of new hard
    state, truncation and new entries it has to write; and opening the file
    again, also after a crash, recovers exactly them, so that a restarted node
    is the node that was saved. *)

From S2P Require Import Prelude Status Coding Crc32c Files WalFormat WalWriter WalReader.
From S2P Require Import WalRecovery WalDamage EnvPosix MemKernel PosixLog Raft RaftModel RaftNode RaftCluster.
From S2P Require Import Storage.
Local Open Scope Z_scope.

(** ** Decoding *)

Lemma U32_put v rest b : 0 ≤ v < 2 ^ 32 →
  U32 (mkDecoder (PutU32 v ++ rest) b) = (v, mkDecoder rest b).
Proof.
  intros Hv. unfold U32, PutU32. cbn [d_rest d_ok].
  rewrite length_app, EncodeFixed32_length.
  destruct (Z.ltb_spec (Z.of_nat (4 + length rest)) 4); [lia|].
  by rewrite DecodeFixed32_Encode_app, drop_app_length' by done.
Qed.

Lemma U64_put v rest b : 0 ≤ v < 2 ^ 64 →
  U64 (mkDecoder (PutU64 v ++ rest) b) = (v, mkDecoder rest b).
Proof.
  intros Hv. unfold U64, PutU64. rewrite <-app_assoc.
  assert (Z.land v 0xffffffff = v mod 2 ^ 32) as -> by exact (Z.land_ones v 32 ltac:(lia)).
  rewrite Z.shiftr_div_pow2 by lia.
  pose proof (Z.mod_pos_bound v (2 ^ 32) ltac:(lia)).
  assert (0 ≤ v / 2 ^ 32 < 2 ^ 32).
  { split; [apply Z.div_pos; lia|]. apply Z.div_lt_upper_bound; lia. }
  rewrite !u32_small, U32_put by lia. rewrite U32_put by lia. f_equal.
  rewrite Z.shiftl_mul_pow2, u64_small by lia.
  rewrite <-Z.shiftl_mul_pow2, lor_shiftl_add by lia.
  rewrite (Z.div_mod v (2 ^ 32)) at 3 by lia. lia.
Qed.

Lemma Bytes_app data rest b :
  Bytes (Z.of_nat (length data)) (mkDecoder (data ++ rest) b) = (data, mkDecoder rest b).
Proof.
  unfold Bytes. cbn [d_rest d_ok]. rewrite length_app.
  destruct (Z.ltb_spec (Z.of_nat (length data + length rest)) (Z.of_nat (length data))); [lia|].
  by rewrite Nat2Z.id, take_app_length, drop_app_length.
Qed.

(** What fits the fields of the records. *)
Definition entry_fits (e : LogEntry) : Prop :=
  0 ≤ e_term e < 2 ^ 64 ∧ 0 ≤ e_index e < 2 ^ 64 ∧ Z.of_nat (length (e_data e)) < 2 ^ 32.

#[export] Instance entry_fits_dec e : Decision (entry_fits e).
Proof. unfold entry_fits. apply _. Defined.

Lemma replay_hard_state st r :
  0 ≤ current_term_ r < 2 ^ 64 → 0 ≤ voted_for_ r < 2 ^ 64 →
  replay_raft_record st (hard_state_record r) =
  (mkHardState (current_term_ r) (voted_for_ r), st.2).
Proof.
  intros Ht Hv. unfold replay_raft_record, hard_state_record.
  cbn [app]. change (byte_to_Z (byte_of_Z kHardState) =? kHardState) with true. cbn iota zeta.
  rewrite U64_put by done. rewrite <-(app_nil_r (PutU64 (voted_for_ r))), U64_put by done. done.
Qed.

Lemma replay_entry st e : entry_fits e →
  replay_raft_record st (entry_record e) = (st.1, st.2 ++ [e]).
Proof.
  intros (Ht & Hi & Hd). unfold replay_raft_record, entry_record. cbn [app].
  change (byte_to_Z (byte_of_Z kEntry) =? kHardState) with false.
  change (byte_to_Z (byte_of_Z kEntry) =? kEntry) with true. cbn iota zeta.
  rewrite !U64_put by done. rewrite u32_small, U32_put by lia.
  rewrite <-(app_nil_r (e_data e)) at 2. rewrite Bytes_app. cbn [d_ok]. by destruct e.
Qed.

Lemma replay_truncate st from : 0 ≤ from < 2 ^ 64 →
  replay_raft_record st (truncate_record from) = (st.1, pop_from from st.2).
Proof.
  intros Hf. unfold replay_raft_record, truncate_record. cbn [app].
  change (byte_to_Z (byte_of_Z kTruncate) =? kHardState) with false.
  change (byte_to_Z (byte_of_Z kTruncate) =? kEntry) with false.
  change (byte_to_Z (byte_of_Z kTruncate) =? kTruncate) with true. cbn iota zeta.
  rewrite <-(app_nil_r (PutU64 from)), U64_put by done. done.
Qed.

Lemma replay_entries es st : Forall entry_fits es →
  foldl replay_raft_record st (entry_record <$> es) = (st.1, st.2 ++ es).
Proof.
  intros Hes. revert st. induction Hes as [|e es He _ IH]; intros st.
  - rewrite app_nil_r. by destruct st.
  - rewrite fmap_cons. cbn [foldl]. rewrite replay_entry, IH by done. cbn [fst snd].
    by rewrite <-app_assoc.
Qed.

(** Popping the entries after index [s] of a log whose entries carry their
    positions. *)
Lemma pop_while_spec from es1 es2 :
  Forall (λ e, from ≤ e_index e) es1 → Forall (λ e, e_index e < from) es2 →
  pop_while from (es1 ++ es2) = es2.
Proof.
  intros H1 H2. induction H1 as [|e es1 He _ IH]; simpl.
  - destruct H2 as [|e es2 He _]; [done|]. simpl. by rewrite (proj2 (Z.leb_gt _ _)).
  - by rewrite (proj2 (Z.leb_le _ _)).
Qed.

Lemma pop_from_spec from es1 es2 :
  Forall (λ e, e_index e < from) es1 → Forall (λ e, from ≤ e_index e) es2 →
  pop_from from (es1 ++ es2) = es1.
Proof.
  intros H1 H2. unfold pop_from. rewrite reverse_app, pop_while_spec.
  - by rewrite reverse_involutive.
  - by apply Forall_reverse.
  - by apply Forall_reverse.
Qed.

(** ** Saving *)

(** Every field of the node fits its encoding and entries carry their
    positions. *)
Record storable (r : Raft) : Prop := {
  st_log : log_fits r;
  st_term : 0 ≤ current_term_ r < 2 ^ 64;
  st_vote : 0 ≤ voted_for_ r < 2 ^ 64;
  st_index : ∀ m e, log_ r !! m = Some e → e_index e = Z.of_nat m;
  st_entries : Forall entry_fits (log_ r);
}.

(** The records a [Save] has to write: the hard state if it is dirty, a
    truncation if the watermark is below what was persisted, and the entries
    after the watermark. *)
Definition planned (persisted : Z) (r : Raft) : list bytes :=
  (if hard_state_dirty_ r then [hard_state_record r] else []) ++
  (if stable_index_ r <? persisted then [truncate_record (stable_index_ r + 1)] else []) ++
  (entry_record <$> drop (Z.to_nat (stable_index_ r + 1)) (log_ r)).

(** The node is clean: nothing is left to persist. *)
Definition clean (r : Raft) : Prop :=
  hard_state_dirty_ r = false ∧ stable_index_ r = LastIndex r.

(** *** Replaying what was planned *)

Section replay.
Context (r0 r : Raft) (S0 : storable r0) (S1 : storable r) (Hclean : clean r0).
Context (Htr : persist_tracked r0 r) (Hwm : watermark_ok r).
Let hs0 := mkHardState (current_term_ r0) (voted_for_ r0).
Let hs1 := mkHardState (current_term_ r) (voted_for_ r).
Let s := Z.to_nat (stable_index_ r).

Lemma watermark_nat : stable_index_ r = Z.of_nat s ∧ (s < length (log_ r))%nat ∧
  (s < length (log_ r0))%nat ∧ take (S s) (log_ r) = take (S s) (log_ r0).
Proof.
  destruct Htr as [_ [Hle Htake]], Hwm as [Hf Hst], Hclean as [_ Hs0].
  pose proof (log_fits_pos r Hf). pose proof (log_fits_pos r0 (st_log _ S0)).
  rewrite (LastIndex_eq r Hf) in Hst. rewrite Hs0, (LastIndex_eq r0 (st_log _ S0)) in Hle.
  unfold s. split_and!; [lia..|]. by replace (S (Z.to_nat (stable_index_ r)))
    with (Z.to_nat (stable_index_ r + 1)) by lia.
Qed.

Lemma replay_hard_state_part :
  foldl replay_raft_record (hs0, drop 1 (log_ r0))
    (if hard_state_dirty_ r then [hard_state_record r] else []) = (hs1, drop 1 (log_ r0)).
Proof.
  destruct Htr as [[Hd|(Et & Ev & Hd)] _], Hclean as [Hd0 _].
  - rewrite Hd. cbn [foldl]. rewrite replay_hard_state; [done|apply S1..].
  - rewrite Hd, Hd0. cbn [foldl]. unfold hs0, hs1. by rewrite Et, Ev.
Qed.

Lemma replay_truncation_part :
  foldl replay_raft_record (hs1, drop 1 (log_ r0))
    (if stable_index_ r <? LastIndex r0 then [truncate_record (stable_index_ r + 1)] else []) =
  (hs1, drop 1 (take (S s) (log_ r0))).
Proof.
  destruct watermark_nat as (Es & _ & Hs0 & _). rewrite Es, (LastIndex_eq r0 (st_log _ S0)).
  assert (drop 1 (log_ r0) = drop 1 (take (S s) (log_ r0)) ++ drop (S s) (log_ r0)) as Esplit.
  { rewrite <-(take_drop (S s) (log_ r0)) at 1. apply drop_app_le. rewrite length_take. lia. }
  destruct (Z.ltb_spec (Z.of_nat s) (Z.of_nat (length (log_ r0)) - 1)); cbn [foldl].
  - destruct (st_log _ S0) as [_ ?]. rewrite replay_truncate by lia. cbn [fst snd]. f_equal.
    rewrite Esplit. apply pop_from_spec; apply Forall_lookup_2; intros m e He;
      rewrite lookup_drop in He.
    + apply lookup_take_Some in He as [He Hm]. rewrite (st_index _ S0 _ _ He). lia.
    + rewrite (st_index _ S0 _ _ He). lia.
  - by rewrite Esplit, (drop_ge (log_ r0)), app_nil_r by lia.
Qed.

Lemma replay_entries_part q :
  foldl replay_raft_record (hs1, drop 1 (take (S s) (log_ r0)))
    (take q (entry_record <$> drop (Z.to_nat (stable_index_ r + 1)) (log_ r))) =
  (hs1, drop 1 (take (S (s + q)) (log_ r))).
Proof.
  destruct watermark_nat as (Es & Hs & _ & Et). rewrite Es.
  replace (Z.to_nat (Z.of_nat s + 1)) with (S s) by lia.
  rewrite <-fmap_take, replay_entries by (apply Forall_take, Forall_drop, S1). cbn [fst snd].
  rewrite <-Et, <-drop_app_le, take_take_drop by (rewrite length_take; lia). done.
Qed.

(** Any first part of the records, as a crash may leave them. *)
Lemma replay_planned_part j : ∃ t v l,
  foldl replay_raft_record (hs0, drop 1 (log_ r0)) (take j (planned (LastIndex r0) r)) =
  (mkHardState t v, drop 1 l) ∧ partly_saved r0 r t v l.
Proof.
  destruct watermark_nat as (Es & Hs & Hs0 & Et). unfold planned.
  pose proof replay_hard_state_part as E1. pose proof replay_truncation_part as E2.
  set (A := if hard_state_dirty_ r then _ else _) in *. set (B := if _ <? _ then _ else _) in *.
  assert (length A ≤ 1 ∧ length B ≤ 1)%nat as [LA LB]
    by (unfold A, B; destruct (hard_state_dirty_ r), (_ <? _); simpl; lia).
  rewrite !take_app, !foldl_app. destruct (decide (j < length A)%nat) as [HA|HA].
  { replace (j - length A)%nat with 0%nat by lia. replace j with 0%nat by lia.
    rewrite !take_0. eexists _, _, (log_ r0). split; [done|apply ps_nothing]. }
  rewrite (take_ge A), E1 by lia.
  destruct (decide (j - length A < length B)%nat) as [HB|HB].
  { replace (j - length A - length B)%nat with 0%nat by lia.
    replace (j - length A)%nat with 0%nat by lia. rewrite !take_0.
    eexists _, _, (log_ r0). split; [done|apply ps_hard_state]. }
  rewrite (take_ge B), E2, replay_entries_part by lia.
  eexists _, _, _. split; [done|]. apply ps_entries. lia.
Qed.

Lemma replay_planned :
  foldl replay_raft_record (hs0, drop 1 (log_ r0)) (planned (LastIndex r0) r) =
  (hs1, drop 1 (log_ r)).
Proof.
  unfold planned. rewrite !foldl_app, replay_hard_state_part, replay_truncation_part.
  pose proof (replay_entries_part (length (log_ r))) as E.
  rewrite (take_ge (_ <$> _)), (take_ge (log_ r)) in E
    by (rewrite ?length_fmap, ?length_drop; lia). exact E.
Qed.
End replay.

Section storage.
Context {K : Type} `{KernelSpec K}.
Implicit Types (k : K) (store : RaftStorage).

(** The store is open on a log: [recs] are durable and [new] was added. *)
Definition store_at store (recs new : list bytes) k : Prop :=
  ∃ w file, writer_ store = Some w ∧ file_ store = Some file ∧ wpath_ file = path_ store ∧
    posix_log w file recs new k.

(** Two stores that differ in the file and the writer only. *)
Definition same_meta store store' : Prop :=
  path_ store' = path_ store ∧ persisted_index_ store' = persisted_index_ store.

Lemma add_record_spec rec store recs new k :
  store_at store recs new k →
  ∃ s store' k', add_record rec (store, k) = Some (s, (store', k')) ∧ same_meta store store' ∧
    logged (path_ store) recs (new ++ [rec]) k' ∧
    (ok s = true → store_at store' recs (new ++ [rec]) k') ∧
    (k_reliable k → ok s = true ∧ k_reliable k').
Proof.
  intros (w & file & Hw & Hfile & Hp & Hlog). unfold add_record. rewrite Hw, Hfile.
  destruct (AddRecord_posix w file recs new rec k Hlog) as (s & w' & k' & -> & Hl & Hok & Hrel).
  rewrite Hp in Hl. eexists s, _, k'. split; [done|]. split_and!; [done|done| |done].
  intros Hs. exists w', file. by split_and!; [..|apply Hok].
Qed.

Lemma save_entries_spec n i r store recs new k :
  store_at store recs new k →
  let rs := (λ j, entry_record (entry_at j r)) <$> seqZ i (Z.of_nat n) in
  ∃ s store' k' done, save_entries n i r (store, k) = Some (s, (store', k')) ∧
    same_meta store store' ∧ done `prefix_of` rs ∧
    logged (path_ store) recs (new ++ done) k' ∧
    (ok s = true → store_at store' recs (new ++ rs) k') ∧
    (k_reliable k → ok s = true ∧ k_reliable k').
Proof.
  revert i store new k. induction n as [|n IH]; intros i store new k Hat;
    cbn [save_entries]; cbv zeta.
  - change (_ <$> seqZ i (Z.of_nat 0)) with (@nil bytes). exists OK, store, k, []. rewrite app_nil_r. destruct Hat as (w & file & ? & ? & E & Hl).
    split_and!; [done|done|done|rewrite <-E; apply Hl| |done].
    intros _. exists w, file. by split_and!.
  - destruct (add_record_spec (entry_record (entry_at i r)) store recs new k Hat)
      as (s & st1 & k1 & E & [Ep Eq] & Hl & Hok & Hrel).
    rewrite (bind_eval _ _ _ _ _ E). rewrite Nat2Z.inj_succ, seqZ_cons by lia.
    rewrite fmap_cons, Z.pred_succ. destruct (ok s) eqn:Hs; cbn [negb].
    + destruct (IH (i + 1) st1 (new ++ [entry_record (entry_at i r)]) k1 (Hok eq_refl))
        as (s2 & st2 & k2 & dn & E2 & [Ep2 Eq2] & Hpre & Hl2 & Hok2 & Hrel2).
      rewrite E2. exists s2, st2, k2, (entry_record (entry_at i r) :: dn).
      rewrite <-!app_assoc in *. rewrite Ep in Hl2.
      split_and!; [done|split; congruence|by apply prefix_cons|done|done|].
      intros [_ ?]%Hrel. by apply Hrel2.
    + exists s, st1, k1, [entry_record (entry_at i r)].
      split_and!; [done|done|apply prefix_cons, prefix_nil|done|congruence|].
      intros [? ?]%Hrel. congruence.
Qed.

(** The file holds the durable records of the node [r], which is clean. *)
Definition recs_of (r : Raft) (recs : list bytes) : Prop :=
  foldl replay_raft_record (mkHardState 0 0, []) recs =
  (mkHardState (current_term_ r) (voted_for_ r), drop 1 (log_ r)).

Definition storage_inv store (r : Raft) (recs : list bytes) k : Prop :=
  store_at store recs [] k ∧ recs_of r recs ∧ persisted_index_ store = LastIndex r ∧ clean r.

(** A record that is added when [b] holds. *)
Lemma add_record_if (b : bool) rec store recs new k :
  store_at store recs new k →
  let rs := if b then [rec] else [] in
  ∃ s store' k', (if b then add_record rec else ret OK) (store, k) = Some (s, (store', k')) ∧
    same_meta store store' ∧ logged (path_ store) recs (new ++ rs) k' ∧
    (ok s = true → store_at store' recs (new ++ rs) k') ∧
    (k_reliable k → ok s = true ∧ k_reliable k').
Proof.
  intros Hat. destruct b; [by apply add_record_spec|]. cbv zeta. rewrite app_nil_r.
  exists OK, store, k. split_and!; [done|done| |done|done].
  destruct Hat as (w & file & _ & _ & <- & _ & ?). done.
Qed.

Lemma entries_planned r : log_fits r → 0 ≤ stable_index_ r ≤ LastIndex r →
  (λ j, entry_record (entry_at j r)) <$>
    seqZ (stable_index_ r + 1) (Z.of_nat (Z.to_nat (LastIndex r - stable_index_ r))) =
  entry_record <$> drop (Z.to_nat (stable_index_ r + 1)) (log_ r).
Proof.
  intros Hf Hs. rewrite Z2Nat.id by lia.
  rewrite <-(entries_between_drop r) by (rewrite ?(LastIndex_eq r Hf) in *; done || lia).
  unfold entries_between. rewrite Z2Nat.id by lia.
  replace (LastIndex r - (stable_index_ r + 1) + 1) with (LastIndex r - stable_index_ r) by lia.
  rewrite <-list_fmap_compose. done.
Qed.

(** What [Save] does after step 1. *)
Lemma clear_dirty_if r :
  (if hard_state_dirty_ r then set_hard_state_dirty false r else r) = set_hard_state_dirty false r.
Proof. destruct (hard_state_dirty_ r) eqn:E; [done|]. destruct r. simpl in *. by subst. Qed.

Lemma save_truncation_spec r store recs new k :
  store_at store recs new k → 0 ≤ stable_index_ r < 2 ^ 64 - 1 →
  let rs := if stable_index_ r <? persisted_index_ store
            then [truncate_record (stable_index_ r + 1)] else [] in
  ∃ s store' k', save_truncation r (store, k) = Some (s, (store', k')) ∧
    path_ store' = path_ store ∧ logged (path_ store) recs (new ++ rs) k' ∧
    (ok s = true → store_at store' recs (new ++ rs) k' ∧
       persisted_index_ store' = if stable_index_ r <? persisted_index_ store
                                 then stable_index_ r else persisted_index_ store) ∧
    (k_reliable k → ok s = true ∧ k_reliable k').
Proof.
  intros Hat Hs. cbv zeta. unfold save_truncation. rewrite u64_small by lia.
  destruct (add_record_if (stable_index_ r <? persisted_index_ store)
              (truncate_record (stable_index_ r + 1)) store recs new k Hat)
    as (s & st & k' & E & [Ep Eq] & Hl & Hok & Hrel).
  destruct (stable_index_ r <? persisted_index_ store).
  - rewrite E. eexists s, _, k'. split_and!; [done|by destruct (ok s)|done| |done].
    intros Hsok. rewrite Hsok. split; [|done].
    destruct (Hok Hsok) as (w & file & ? & ? & ? & ?). by exists w, file.
  - injection E as <- <- <-. exists OK, store, k. by split_and!; [..|intros ?; split; [apply Hok|]|].
Qed.

Lemma sync_file_spec store recs new k :
  store_at store recs new k →
  ∃ s store' k', sync_file (store, k) = Some (s, (store', k')) ∧ same_meta store store' ∧
    logged (path_ store) recs new k' ∧
    (ok s = true → store_at store' (recs ++ new) [] k') ∧
    (k_reliable k → ok s = true ∧ k_reliable k').
Proof.
  intros (w & file & Hw & Hfile & Hp & Hlog). unfold sync_file. rewrite Hfile.
  destruct (Sync_posix w file recs new k Hlog) as (s & k' & -> & Hl & Hok & Hrel).
  rewrite Hp in Hl. eexists s, _, k'. split; [done|]. split_and!; [done|done| |done].
  intros Hs. exists w, file. by split_and!; [..|apply Hok].
Qed.

Lemma Save_spec r0 r store recs k :
  storage_inv store r0 recs k → storable r0 → storable r →
  persist_tracked r0 r → watermark_ok r →
  ∃ s r' store' k' done, Save r (store, k) = Some ((s, r'), (store', k')) ∧
    done `prefix_of` planned (LastIndex r0) r ∧ logged (path_ store) recs done k' ∧
    (ok s = true → s = OK ∧ r' = saved r ∧ path_ store' = path_ store ∧
       storage_inv store' (saved r) (recs ++ planned (LastIndex r0) r) k') ∧
    (k_reliable k → ok s = true ∧ k_reliable k').
Proof.
  intros (Hat & Hrecs & Hpers & Hclean) S0 S1 Htr Hwm. pose proof Hwm as [Hf Hst].
  assert (stable_index_ r ≤ LastIndex r0) as Hle by (destruct Htr as [_ [Hle _]], Hclean; lia).
  set (P1 := if hard_state_dirty_ r then [hard_state_record r] else []).
  set (P2 := if stable_index_ r <? LastIndex r0 then [truncate_record (stable_index_ r + 1)] else []).
  set (P3 := entry_record <$> drop (Z.to_nat (stable_index_ r + 1)) (log_ r)).
  change (planned (LastIndex r0) r) with (P1 ++ P2 ++ P3). unfold Save.
  destruct (add_record_if (hard_state_dirty_ r) (hard_state_record r) store recs [] k Hat)
    as (s1 & st1 & k1 & E1 & [Ep1 Eq1] & Hl1 & Hok1 & Hrel1). fold P1 in Hl1, Hok1.
  rewrite (bind_eval _ _ _ _ _ E1). destruct (ok s1) eqn:O1; cbn [negb].
  2:{ eexists s1, r, st1, k1, P1. split_and!; [done|by apply prefix_app_r|done|congruence|].
      intros [? _]%Hrel1. congruence. }
  rewrite clear_dirty_if. set (r1 := set_hard_state_dirty false r).
  destruct (save_truncation_spec r1 st1 recs P1 k1 (Hok1 eq_refl)) as
    (s2 & st2 & k2 & E2 & Ep2 & Hl2 & Hok2 & Hrel2).
  { simpl. rewrite (LastIndex_eq r Hf) in Hst. destruct Hf. lia. }
  rewrite Eq1, Hpers in Hl2, Hok2. change (stable_index_ r1) with (stable_index_ r) in Hl2, Hok2.
  fold P2 in Hl2, Hok2. rewrite (bind_eval _ _ _ _ _ E2). destruct (ok s2) eqn:O2; cbn [negb].
  2:{ eexists s2, r1, st2, k2, (P1 ++ P2). rewrite Ep1 in Hl2.
      split_and!; [done|rewrite app_assoc; by apply prefix_app_r|done|congruence|].
      intros [_ [? _]%Hrel2]%Hrel1. congruence. }
  destruct (Hok2 eq_refl) as [Hat2 Hpers2]. clear Hok2.
  assert (persisted_index_ st2 = stable_index_ r) as Hp2.
  { rewrite Hpers2. destruct (Z.ltb_spec (stable_index_ r) (LastIndex r0)); lia. }
  unfold save_new_entries at 1. unfold bind at 1. rewrite Hp2. change (LastIndex r1) with (LastIndex r).
  rewrite u64_small by (rewrite (LastIndex_eq r Hf) in Hst; destruct Hf; lia).
  destruct (save_entries_spec (Z.to_nat (LastIndex r - stable_index_ r)) (stable_index_ r + 1) r1
              st2 recs (P1 ++ P2) k2 Hat2)
    as (s3 & st3 & k3 & dn & -> & [Ep3 Eq3] & Hpre & Hl3 & Hok3 & Hrel3).
  pose proof (entries_planned r Hf Hst) as EP3. change (entry_at ?j r1) with (entry_at j r) in *.
  rewrite EP3 in Hpre, Hok3. fold P3 in Hpre, Hok3. rewrite <-!app_assoc in Hl3, Hok3.
  destruct (ok s3) eqn:O3; cbn [negb].
  2:{ eexists s3, r1, st3, k3, (P1 ++ P2 ++ dn). rewrite Ep2, Ep1 in Hl3.
      split_and!; [done|by do 2 apply prefix_app|done|congruence|].
      intros [_ [_ [? _]%Hrel3]%Hrel2]%Hrel1. congruence. }
  destruct (sync_file_spec st3 recs (P1 ++ P2 ++ P3) k3 (Hok3 eq_refl))
    as (s4 & st4 & k4 & E4 & [Ep4 Eq4] & Hl4 & Hok4 & Hrel4).
  rewrite (bind_eval _ _ _ _ _ E4). rewrite Ep3, Ep2, Ep1 in Hl4.
  destruct (ok s4) eqn:O4; cbn [negb].
  2:{ eexists s4, r1, st4, k4, _. split_and!; [done|done|done|congruence|].
      intros [_ [_ [_ [? _]%Hrel4]%Hrel3]%Hrel2]%Hrel1. congruence. }
  eexists OK, (saved r), _, k4, _. split_and!; [done|done|done| |].
  - intros _. split_and!; [done|done|simpl; congruence|]. split_and!.
    + destruct (Hok4 eq_refl) as (w & file & ? & ? & ? & ?). by exists w, file.
    + unfold recs_of. rewrite foldl_app, Hrecs.
      change (current_term_ (saved r)) with (current_term_ r).
      by apply (replay_planned r0 r).
    + done.
    + by split.
  - intros [_ [_ [_ [_ ?]%Hrel4]%Hrel3]%Hrel2]%Hrel1. done.
Qed.

(** *** Saving on a working kernel, wherever the writer stands *)

Definition store_open store k : Prop :=
  ∃ w file, writer_ store = Some w ∧ file_ store = Some file ∧ writer_ok w ∧ posix_wopen file k.

Lemma add_record_reliable rec store k : store_open store k → k_reliable k →
  ∃ s store' k', add_record rec (store, k) = Some (s, (store', k')) ∧ ok s = true ∧
    store_open store' k' ∧ k_reliable k'.
Proof.
  intros (w & file & Hw & Hf & Hwok & Hopen) Hrel. unfold add_record. rewrite Hw, Hf.
  assert (wf_open (file, k)) as Hopen' by exact Hopen.
  destruct (AddRecord_loop_spec (length rec + 2) rec true w (file, k) Hwok Hopen') as (s & w' & [file' k'] & out & off & E & _ & (Ho & _ & Hr & _) & Hwok' & _).
  { case_decide; lia. }
  fold (AddRecord (F := PosixWritableFile * K) rec) in E. rewrite E.
  destruct (Hr Hrel) as [Hs Hrel']. eexists s, _, k'. split_and!; [done|done| |done].
  exists w', file'. by split_and!.
Qed.

Lemma save_entries_reliable n i r store k : store_open store k → k_reliable k →
  ∃ s store' k', save_entries n i r (store, k) = Some (s, (store', k')) ∧ ok s = true ∧
    store_open store' k' ∧ k_reliable k'.
Proof.
  revert i store k. induction n as [|n IH]; intros i store k Ho Hrel; cbn [save_entries].
  { by exists OK, store, k. }
  destruct (add_record_reliable (entry_record (entry_at i r)) store k Ho Hrel)
    as (s & st1 & k1 & E & Hs & Ho1 & Hrel1).
  rewrite (bind_eval _ _ _ _ _ E), Hs. by apply IH.
Qed.

Lemma Save_reliable r store k : store_open store k → k_reliable k →
  ∃ store' k', Save r (store, k) = Some ((OK, saved r), (store', k')) ∧
    store_open store' k' ∧ k_reliable k'.
Proof.
  intros Ho Hrel. unfold Save.
  assert (∃ s st1 k1, (if hard_state_dirty_ r then add_record (hard_state_record r) else ret OK)
            (store, k) = Some (s, (st1, k1)) ∧ ok s = true ∧ store_open st1 k1 ∧ k_reliable k1)
    as (s1 & st1 & k1 & E1 & Hs1 & Ho1 & Hr1).
  { destruct (hard_state_dirty_ r); [by apply add_record_reliable|]. by exists OK, store, k. }
  rewrite (bind_eval _ _ _ _ _ E1), Hs1, clear_dirty_if. cbn [negb].
  set (r1 := set_hard_state_dirty false r).
  assert (∃ s st2 k2, save_truncation r1 (st1, k1) = Some (s, (st2, k2)) ∧ ok s = true ∧
            store_open st2 k2 ∧ k_reliable k2) as (s2 & st2 & k2 & E2 & Hs2 & Ho2 & Hr2).
  { unfold save_truncation. destruct (_ <? _); [|by exists OK, st1, k1].
    destruct (add_record_reliable (truncate_record (u64 (stable_index_ r1 + 1))) st1 k1 Ho1 Hr1)
      as (s & st & k' & -> & Hs & Ho' & Hr'). rewrite Hs. eexists s, _, k'.
    split_and!; [done|done| |done]. destruct Ho' as (w & file & ? & ? & ? & ?). by exists w, file. }
  rewrite (bind_eval _ _ _ _ _ E2), Hs2. cbn [negb]. unfold save_new_entries at 1, bind at 1.
  destruct (save_entries_reliable (Z.to_nat (LastIndex r1 - persisted_index_ st2))
              (u64 (persisted_index_ st2 + 1)) r1 st2 k2 Ho2 Hr2)
    as (s3 & st3 & k3 & -> & Hs3 & (w & file & Hw & Hf & Hw3 & Hopen3) & Hr3).
  rewrite Hs3. cbn [negb]. unfold sync_file at 1, bind at 1. rewrite Hf.
  destruct (wf_sync (WritableFileSpec := PosixWritableFile_spec) (file, k3) Hopen3)
    as (s4 & [file' k4] & -> & Hopen4 & _ & _ & _ & Hr4).
  destruct (Hr4 Hr3) as [Hs4 Hrel4]. rewrite Hs4. cbn [negb]. eexists _, k4.
  split_and!; [done| |done]. by exists w, file'.
Qed.

(** ** Opening *)

Definition last_entry_index (es : list LogEntry) : Z :=
  match last es with None => 0 | Some e => e_index e end.

(** The file holds the log of [recs] and then a torn record [t], or is not there
    yet. *)
Definition storage_on_disk (path : bytes) (recs : list bytes) (t : bytes) k : Prop :=
  (∃ c off, k_file k path = Some (c ++ t) ∧ wal 0 recs c off ∧ torn off t) ∨
  (sys_access path k = false ∧ recs = [] ∧ t = []).

Lemma ReplayFile_spec path recs c off t k :
  k_reliable k → k_file k path = Some (c ++ t) → wal 0 recs c off → torn off t →
  let st := foldl replay_raft_record (mkHardState 0 0, []) recs in
  ∃ k', ReplayFile (RaftStorage_new path) k =
      Some ((OK, mkRaftStorage path None None (last_entry_index st.2) st.1 st.2), k') ∧
    same_files k k' ∧ k_reliable k'.
Proof.
  intros Hrel Hp Hwal Ht. cbv zeta. unfold ReplayFile.
  destruct (replay_log replay_raft_record (mkHardState 0 0, []) (mkCountingReporter 0) path k
              recs c off t Hrel Hp Hwal Ht) as (file & k1 & rd & k2 & E1 & E2 & Hfiles & Hrel2).
  cbn [path_ RaftStorage_new recovered_hs_ recovered_entries_].
  rewrite (bind_eval _ _ _ _ _ E1). cbn [fst snd]. change (ok OK) with true. cbn [negb].
  rewrite E2. destruct (foldl replay_raft_record _ recs) as [hs es]. cbn [fst snd].
  eexists. by split; [|split].
Qed.

Lemma RaftStorage_Open_spec path recs t k :
  k_reliable k → ParentDir path ≠ path → storage_on_disk path recs t k →
  let st := foldl replay_raft_record (mkHardState 0 0, []) recs in
  ∃ store k' c off fd, RaftStorage_Open path k = Some ((OK, Some store), k') ∧
    k_reliable k' ∧ wal 0 recs c off ∧
    store = mkRaftStorage path (Some (mkPosixWritableFile path fd))
              (Some (Writer_new (Z.of_nat (length (c ++ t))))) (last_entry_index st.2) st.1 st.2 ∧
    k_fd k' fd = Some (path, FdAppend) ∧ k_file k' path = Some (c ++ t) ∧
    k_durable k path `prefix_of` k_durable k' path.
Proof.
  intros Hrel Hpar Hdisk. cbv zeta. unfold RaftStorage_Open.
  destruct (MakeDir_spec k (ParentDir path) Hrel) as (k1 & E1 & [Hf1 Hd1] & Hrel1 & Hacc1).
  rewrite (bind_eval _ _ _ _ _ E1). change (ok OK) with true. cbn [negb].
  destruct Hdisk as [(c & off & Hp & Hwal & Ht)|(Hacc & -> & ->)].
  - rewrite <-Hf1 in Hp. unfold bind at 1. cbn [FileExists]. rewrite (access_file k1 path _ Hp).
    destruct (ReplayFile_spec path recs c off t k1 Hrel1 Hp Hwal Ht) as (k2 & E2 & [Hf2 Hd2] & Hrel2).
    rewrite (bind_eval _ _ _ _ _ E2). cbn [fst snd]. change (ok OK) with true. cbn [negb].
    rewrite <-Hf2 in Hp. unfold bind at 1. cbn [FileExists]. rewrite (access_file k2 path _ Hp).
    destruct (open_resume k2 path (c ++ t) Hrel2 Hp)
      as (k3 & k4 & fd & E3 & E4 & Hfd & Hp4 & Hd4 & Hrel4).
    rewrite (bind_eval _ _ _ _ _ E3). cbn [fst snd]. change (ok OK) with true. cbn [negb].
    rewrite (bind_eval _ _ _ _ _ E4). cbn [fst snd]. change (ok OK) with true. cbn [negb].
    eexists _, k4, c, off, fd. split; [done|]. cbn [path_ persisted_index_ recovered_hs_ recovered_entries_].
    rewrite Writer_new_u64. split_and!; [done|done|done|done|done|].
    etrans; [apply Hd1|]. etrans; [apply Hd2|done].
  - rewrite <-Hacc1 in Hacc by congruence. pose proof (access_spec k1 path Hacc) as Hnone.
    unfold bind at 1. cbn [FileExists]. rewrite Hacc.
    unfold bind at 1. cbn [ret fst snd]. change (ok OK) with true. cbn [negb].
    unfold bind at 1. cbn [FileExists]. rewrite Hacc.
    unfold bind at 1. cbn [ret fst snd]. change (ok OK) with true. cbn [negb].
    unfold bind, NewAppendableFile. pose proof (open_append_spec k1 path) as Ho.
    destruct (sys_open path [O_CREAT; O_WRONLY; O_APPEND] k1) as [[fd|e] k2].
    2:{ by destruct Ho as [[] _]. }
    destruct Ho as (_ & _ & Hfd & _ & Hp2 & _ & Hd2 & Hrel2). rewrite Hnone in Hp2.
    eexists _, k2, [], 0, fd. split; [done|].
    split_and!; [by auto|constructor|done|done|done|]. etrans; [apply Hd1|done].
Qed.

(** A store opened on a clean log continues it. *)
Lemma RaftStorage_Open_clean path recs k :
  k_reliable k → ParentDir path ≠ path → storage_on_disk path recs [] k →
  (∀ c, k_file k path = Some c → k_durable k path = c) →
  let st := foldl replay_raft_record (mkHardState 0 0, []) recs in
  ∃ store k', RaftStorage_Open path k = Some ((OK, Some store), k') ∧ k_reliable k' ∧
    store_at store recs [] k' ∧ path_ store = path ∧
    persisted_index_ store = last_entry_index st.2 ∧
    RaftStorage_Recover store = (OK, st.1, st.2).
Proof.
  intros Hrel Hpar Hdisk Hdur.
  destruct (RaftStorage_Open_spec path recs [] k Hrel Hpar Hdisk)
    as (store & k' & c & off & fd & E & Hrel' & Hwal & -> & Hfd & Hp & Hd).
  rewrite app_nil_r in *. eexists _, k'. split; [done|].
  split_and!; [done| |done|done|done]. eexists _, _. split_and!; [done|done|done|].
  unfold posix_log. rewrite app_nil_r.
  assert (k_durable k' path = c) as Hdur'.
  { pose proof (durable_prefix k' path c Hp) as Hpre.
    destruct Hdisk as [(c0 & off0 & Hc0 & Hwal0 & _)|(_ & -> & _)].
    - rewrite app_nil_r in Hc0. destruct (wal_fun _ _ _ _ _ _ Hwal Hwal0) as [<- _].
      rewrite (Hdur c Hc0) in Hd. by apply (anti_symm prefix).
    - inversion Hwal; subst. by apply prefix_nil_inv in Hpre. }
  split.
  - assert (wf_contents (mkPosixWritableFile path fd, k') = c) as Hcont
      by (simpl; unfold contents_at; by rewrite Hp).
    rewrite <-Hcont at 1. eapply log_state_resume; [by split|].
    simpl. unfold contents_at. simpl. by rewrite Hp.
  - exists c, off, c, off, c. rewrite app_nil_r. simpl. rewrite Hdur'. by split_and!.
Qed.

(** A crash during or after a [Save]. *)
Lemma Save_crash r0 r store recs k :
  storage_inv store r0 recs k → storable r0 → storable r →
  persist_tracked r0 r → watermark_ok r → ParentDir (path_ store) ≠ path_ store →
  ∃ s r' store' k', Save r (store, k) = Some ((s, r'), (store', k')) ∧
    (ok s = true → r' = saved r ∧ path_ store' = path_ store ∧
       storage_inv store' (saved r) (recs ++ planned (LastIndex r0) r) k') ∧
    ∀ kc, crash k' kc → k_reliable kc → is_Some (k_file kc (path_ store)) →
    ∃ t v l store2 k2, RaftStorage_Open (path_ store) kc = Some ((OK, Some store2), k2) ∧
      RaftStorage_Recover store2 = (OK, mkHardState t v, drop 1 l) ∧ partly_saved r0 r t v l ∧
      (ok s = true → t = current_term_ r ∧ v = voted_for_ r ∧ l = log_ r).
Proof.
  intros Hinv S0 S1 Htr Hwm Hpar. pose proof Hinv as (_ & Hrecs0 & _ & Hclean).
  destruct (Save_spec r0 r store recs k Hinv S0 S1 Htr Hwm)
    as (s & r' & store' & k' & dn & E & Hpre & Hlog & Hok & _).
  exists s, r', store', k'. split; [done|]. split.
  { intros Hs. by destruct (Hok Hs) as (_ & ? & ? & ?). }
  intros kc Hcr Hrel [c' Hc'].
  destruct (ok s) eqn:Hs.
  - destruct (Hok eq_refl) as (_ & _ & Hpath & Hat & _).
    assert (logged (path_ store) (recs ++ planned (LastIndex r0) r) [] k') as Hl2.
    { destruct Hat as (w & file & _ & _ & Hp & _ & Hl2). by rewrite Hp, Hpath in Hl2. }
    destruct (crash_logged _ _ _ _ _ _ Hl2 Hcr Hc') as (j & c & off & t & -> & Hwal & Ht & _).
    rewrite take_nil, app_nil_r in Hwal.
    destruct (RaftStorage_Open_spec (path_ store) _ t kc Hrel Hpar ltac:(left; eauto))
      as (store2 & k2 & c2 & off2 & fd & E2 & _ & _ & -> & _).
    eexists (current_term_ r), (voted_for_ r), (log_ r), _, k2. split; [done|].
    unfold RaftStorage_Recover. simpl. rewrite foldl_app, Hrecs0, replay_planned by done.
    split_and!; [done| |done]. rewrite <-(take_ge (log_ r) (S (length (log_ r)))) by lia.
    apply ps_entries. destruct Hwm as [Hf Hw]. rewrite (LastIndex_eq r Hf) in Hw. lia.
  - destruct (crash_logged _ _ _ _ _ _ Hlog Hcr Hc') as (j & c & off & t & -> & Hwal & Ht & _).
    destruct (RaftStorage_Open_spec (path_ store) _ t kc Hrel Hpar ltac:(left; eauto))
      as (store2 & k2 & c2 & off2 & fd & E2 & _ & _ & -> & _).
    destruct (replay_planned_part r0 r S0 S1 Hclean Htr Hwm (j `min` length dn)%nat)
      as (ht & hv & l & Er & Hps).
    eexists ht, hv, l, _, k2. split; [done|].
    unfold RaftStorage_Recover. simpl. rewrite foldl_app, Hrecs0.
    rewrite (prefix_take _ _ Hpre), take_take, Er. by split_and!.
Qed.

End storage.

(** ** Witnesses *)

(** A store on an empty file, on a kernel whose fourth write is short and whose
    fifth fails, and a single node that elects itself and takes a command. *)
Definition store_path : bytes := str "d/raft.log".
Definition demo_store : RaftStorage :=
  mkRaftStorage store_path (Some (mkPosixWritableFile store_path 0)) (Some (Writer_new 0)) 0
    (mkHardState 0 0) [].
Definition store_kernel (script : list fault) : MemKernel :=
  mkMemKernel {[store_path := mkMemfile [] 0]} [Some (store_path, FdAppend)] ∅ script.
Definition demo_node : Raft := Raft_new (mkConfig 1 [1] 1 1).
Definition demo_node' : Raft := (Propose (str "x") (Tick demo_node)).2.

Lemma demo_store_at script : store_at demo_store [] [] (store_kernel script).
Proof.
  eexists _, _. split_and!; [done..|]. split.
  - split_and!; [|apply Writer_new_ok|].
    + split; [vm_compute; reflexivity|]. exists []. vm_compute. reflexivity.
    + exists 0. split; [|done]. change (wf_contents _) with ([] : bytes). constructor.
  - exists [], 0, [], 0, []. split_and!; [constructor|apply prefix_nil|constructor| |done].
    vm_compute. reflexivity.
Qed.

(** A decision procedure for concrete nodes. *)
Definition storableb (r : Raft) : bool :=
  bool_decide (0 < Z.of_nat (length (log_ r)) < 2 ^ 64) &&
  bool_decide (0 ≤ current_term_ r < 2 ^ 64) && bool_decide (0 ≤ voted_for_ r < 2 ^ 64) &&
  forallb (λ '(m, e), bool_decide (e_index e = Z.of_nat m) && bool_decide (entry_fits e))
    (imap pair (log_ r)).

Lemma storableb_ok r : storableb r = true → storable r.
Proof.
  unfold storableb. rewrite !andb_true_iff, !bool_decide_eq_true, forallb_forall.
  intros (((Hl & Ht) & Hv) & Hall).
  assert (∀ m e, log_ r !! m = Some e → e_index e = Z.of_nat m ∧ entry_fits e) as He.
  { intros m e He. specialize (Hall (m, e)). simpl in Hall.
    rewrite andb_true_iff, !bool_decide_eq_true in Hall. apply Hall.
    apply list_elem_of_In, list_elem_of_lookup_2 with m. by rewrite list_lookup_imap, He. }
  split; [|done|done|by intros ? ? [? _]%He|apply Forall_lookup_2; by intros ? ? [_ ?]%He].
  split; [|lia]. intros E. rewrite E in Hl. simpl in Hl. lia.
Qed.

Lemma demo_storable : storable demo_node ∧ storable demo_node'.
Proof. split; apply storableb_ok; vm_compute; reflexivity. Qed.


(** ** Behaviours to know about *)

Section scenarios.
Context {K : Type} `{Kernel K}.

(** Saves the node twice and opens the file again: the statuses of the saves and
    the entries recovered. *)
Definition save_again_and_open (store : RaftStorage) (r : Raft) (k : K)
    : option (Status * Status * list LogEntry) :=
  match Save r (store, k) with
  | Some ((s1, r), (store, k)) =>
      match Save r (store, k) with
      | Some ((s2, r), (store, k)) =>
          match RaftStorage_Open (path_ store) (RaftStorage_destroy store k) with
          | Some ((_, Some store), _) => Some (s1, s2, recovered_entries_ store)
          | _ => None
          end
      | None => None
      end
  | None => None
  end.
End scenarios.

(** C39: saving again after a failed save duplicates entries.  The sync of the
    first save fails after its records were written; the second save writes
    them again and succeeds; the entries recovered are not in index order
    starting at 1, as storage.h promises and [Raft::Restore] requires. *)
Theorem retried_save_duplicates_entries :
  ∃ s1, ok s1 = false ∧
    save_again_and_open demo_store demo_node' (store_kernel [FOk; FOk; FOk; FOk; FErr 5]) =
      Some (s1, OK, [mkLogEntry 1 1 (str "x"); mkLogEntry 1 1 (str "x")]).
Proof.
  eexists. split; [|vm_compute; reflexivity]. reflexivity.
Qed.

(** A crash in the middle of a write left a torn record in the file. *)
Definition torn_file : bytes := take 57 (small_log (replicate 200 (byte_of_Z 0x7a))).
Definition torn_store_kernel : MemKernel :=
  mkMemKernel {[store_path := mkMemfile torn_file 57]} [] {[str "d"]} [].

(** Opens the storage, lets the node [r] be saved, and opens it again: the
    statuses and the hard state recovered. *)
Definition open_save_open {K} `{Kernel K} (path : bytes) (r : Raft) (k : K)
    : option (Status * Status * HardState) :=
  match RaftStorage_Open path k with
  | Some ((s1, Some store), k) =>
      match Save r (store, k) with
      | Some ((s2, r), (store, k)) =>
          match RaftStorage_Open path (RaftStorage_destroy store k) with
          | Some ((_, Some store), _) => Some (s1, s2, recovered_hs_ store)
          | _ => None
          end
      | None => None
      end
  | _ => None
  end.

(** C38: a vote that was persisted after recovery from a torn tail is lost.  The
    file ends in a torn record; the node opens it, votes in term 1 and saves,
    which succeeds; after the next restart it has no vote and may vote again in
    the same term. *)
Theorem torn_resume_loses_vote :
  torn 0 torn_file ∧ current_term_ demo_node' = 1 ∧ voted_for_ demo_node' = 1 ∧
  open_save_open store_path demo_node' torn_store_kernel = Some (OK, OK, mkHardState 0 0).
Proof.
  split_and!; [|done|done|vm_compute; reflexivity].
  exists (replicate 200 (byte_of_Z 0x7a)), (small_log (replicate 200 (byte_of_Z 0x7a))),
    (start 0 + kHeaderSize + 200).
  split_and!; [|apply take_prefix_of|vm_compute; lia].
  apply (framed_end true). vm_compute. discriminate.
Qed.

(** Entry 1, a block of the file that was lost with the entries in it (it reads
    as zeros), and entry 3. *)
Definition gap_kernel : MemKernel :=
  let file := zeroed_log (entry_record (mkLogEntry 1 1 (str "x"))) (entry_record (mkLogEntry 1 3 (str "z"))) in
  mkMemKernel {[store_path := mkMemfile file (length file)]} [] {[str "d"]} [].

(** Damage in the middle of the file leaves a gap in the log.  The reader goes on
    after the damage, and the replay takes the entries as they come: [Open] and
    [Recover] succeed with entries that are not in index order from 1, as
    storage.h promises, and the node restored from them has entry 3 at index 2. *)
Theorem damaged_storage_leaves_gap :
  match RaftStorage_Open store_path gap_kernel with
  | Some ((s, Some store), _) =>
      let r := Restore 0 0 (recovered_entries_ store) (Raft_new (mkConfig 1 [1] 1 1)) in
      Some (s, e_index <$> recovered_entries_ store, LastIndex r, e_index (entry_at 2 r))
  | _ => None
  end = Some (OK, [1; 3], 2, 3).
Proof. vm_compute. reflexivity. Qed.
