(* ===== verification/RaftDurable.v ===== *)
(** * Clusters whose nodes persist through Raft storage

    The step of a cluster ([RaftCluster.v]) in which a node is called, persisted
    and sends its messages, or crashes while it persists, is what a node does
    that runs on [RaftStorage]: [Save] after the call, and [Open], [Recover] and
    [Raft::Restore] after a crash. *)

From S2P Require Import Prelude Status Coding Crc32c Files WalFormat WalWriter WalReader.
From S2P Require Import WalRecovery EnvPosix MemKernel PosixLog.
From S2P Require Import Raft RaftModel RaftElection RaftLogs RaftCommit RaftNode RaftCluster.
From S2P Require Import RaftRefine RaftApply RaftTheorems Storage StorageTheorems.
Local Open Scope Z_scope.

(** A node of a cluster keeps its persistence marks. *)
Lemma call_tracked peers et ht n c i r ap :
  cluster_run peers et ht n c → i ∈ peers →
  node_call (network c) i (servers c i) (applied c i) r ap →
  tracked (servers c i) r.
Proof.
  intros [Hnd Hpos Hs Hn] Hi Hcall.
  destruct (csim_steps _ _ _ Hnd Hpos _ _ Hs Hn) as (a & _ & Hsim).
  destruct (applied_steps _ _ _ Hnd Hpos _ _ Hs Hn i Hi) as [Hin _].
  destruct (seen_in_range _ _ _ _ _ _ _ _ Hsim Hn Hin) as (Hf & _ & Hl).
  assert (watermark_ok (servers c i)) as Hw.
  { split; [done|]. rewrite (cs_stable _ _ _ _ _ _ Hsim i Hi), (LastIndex_eq _ Hf).
    pose proof (log_fits_pos _ Hf). lia. }
  destruct Hcall as [|msg Hm Hto|data|].
  - by apply Tick_tracked.
  - apply Step_tracked; [done|]. intros Ht.
    destruct (network_append_ok _ _ _ _ _ _ _ Hsim Hm Ht) as [(p & Hp & Hes & _) Hlen].
    split; [|lia]. apply Forall_lookup_2. intros k e He. rewrite (Hes k e He).
    apply lookup_lt_Some in He. lia.
  - apply Propose_tracked; [done|lia].
  - by apply tracked_same.
Qed.

Section durable.
Context {K : Type} `{KernelSpec K}.

(** C9: the storage implements the steps of a cluster.  Let a node of a cluster be
    stored, and called, and let [Save] run on a kernel whose calls may fail
    anywhere.  If the save is acknowledged, the cluster makes the step that
    persists the node and sends its messages, and the node is stored again.  If
    the machine crashes at any point, opening the storage and restoring a node
    from it is a step of the cluster too. *)
Theorem storage_implements_cluster peers et ht n c i r ap store recs (k : K) :
  cluster_run peers et ht n c → i ∈ peers → storage_inv store (servers c i) recs k →
  node_call (network c) i (servers c i) (applied c i) r ap →
  storable (servers c i) → storable r → ParentDir (path_ store) ≠ path_ store →
  ∃ s r' store' k', Save r (store, k) = Some ((s, r'), (store', k')) ∧
    (ok s = true → ∃ recs' c', cluster_step peers c c' ∧
       servers c' i = (TakeMessages r').2 ∧ network c' = network c ++ (TakeMessages r').1 ∧
       storage_inv store' (servers c' i) recs' k') ∧
    ∀ kc, crash k' kc → k_reliable kc → is_Some (k_file kc (path_ store)) →
    ∃ store2 k2 hs es c', RaftStorage_Open (path_ store) kc = Some ((OK, Some store2), k2) ∧
      RaftStorage_Recover store2 = (OK, hs, es) ∧ cluster_step peers c c' ∧
      servers c' i = saved (Restore (hs_term hs) (hs_vote hs) es (Raft_new (config_ (servers c i)))).
Proof.
  intros Hrun Hi Hinv Hcall S0 S1 Hpar.
  destruct (call_tracked peers et ht n c i r ap Hrun Hi Hcall) as [Htr Hwm].
  destruct (Save_crash (servers c i) r store recs k Hinv S0 S1 Htr Hwm Hpar)
    as (s & r' & store' & k' & E & Hok & Hcrash).
  exists s, r', store', k'. split_and!; [done| |].
  - intros (-> & _ & Hinv')%Hok. exists (recs ++ planned (LastIndex (servers c i)) r).
    exists (after_call c i r ap). split_and!.
    + apply cluster_call; [done|by apply op_call].
    + simpl. by rewrite fn_lookup_insert.
    + done.
    + simpl. by rewrite fn_lookup_insert.
  - intros kc Hcr Hrel Hex. destruct (Hcrash kc Hcr Hrel Hex) as (t & v & l & store2 & k2 & E2 & Er & Hps & _).
    exists store2, k2, (mkHardState t v), (drop 1 l).
    exists (after_call c i (restarted (config_ (servers c i)) t v l) []).
    split_and!; [done|done| |].
    + apply cluster_call; [done|]. by eapply op_crash.
    + simpl. rewrite fn_lookup_insert. unfold restarted. by rewrite Restore_eq.
Qed.
End durable.

(** ** A witness

    A single node elects itself; the sync of its save fails. *)

Definition solo_cluster : cluster := cluster_init [1] (λ _, 1) (λ _, 1).

Lemma solo_run : cluster_run [1] (λ _, 1) (λ _, 1) 0 solo_cluster.
Proof.
  split; [apply NoDup_singleton| |constructor|done].
  intros p ->%list_elem_of_singleton. done.
Qed.

Lemma storage_implements_cluster_witness :
  let k := store_kernel [FOk; FOk; FErr 5] in
  ∃ s r' store' k', Save (Tick demo_node) (demo_store, k) = Some ((s, r'), (store', k')) ∧
    (ok s = true → ∃ recs' c', cluster_step [1] solo_cluster c' ∧
       servers c' 1 = (TakeMessages r').2 ∧
       network c' = network solo_cluster ++ (TakeMessages r').1 ∧
       storage_inv store' (servers c' 1) recs' k') ∧
    ∀ kc, crash k' kc → k_reliable kc → is_Some (k_file kc (path_ demo_store)) →
    ∃ store2 k2 hs es c', RaftStorage_Open (path_ demo_store) kc = Some ((OK, Some store2), k2) ∧
      RaftStorage_Recover store2 = (OK, hs, es) ∧ cluster_step [1] solo_cluster c' ∧
      servers c' 1 = saved (Restore (hs_term hs) (hs_vote hs) es
                              (Raft_new (config_ (servers solo_cluster 1)))).
Proof.
  apply (storage_implements_cluster [1] (λ _, 1) (λ _, 1) 0 solo_cluster 1 (Tick demo_node) []
           demo_store [] (store_kernel [FOk; FOk; FErr 5])).
  - exact solo_run.
  - apply (bool_decide_unpack _). vm_compute. exact I.
  - split_and!; [apply demo_store_at|done|done|done].
  - apply op_tick.
  - apply storableb_ok. vm_compute. reflexivity.
  - apply storableb_ok. vm_compute. reflexivity.
  - vm_compute. discriminate.
Defined.
