(* ===== verification/ReplicatedDb.v ===== *)
(** * The replicated database (src/raft/replicated_db.cc,
    include/mlsm/raft/replicated_db.h)

    [ReplicatedDB]: writes are encoded as commands, proposed to the Raft core,
    persisted by [RaftStorage] and applied to the table once committed. *)

From S2P Require Import Prelude Status Coding Files WalWriter WalReader EnvPosix Raft Storage.
Local Open Scope Z_scope.

(** [CommandType] *)
Definition kDelete : Z := 0.
Definition kPut : Z := 1.

Definition EncodeCommand (type : Z) (key value : bytes) : bytes :=
  [byte_of_Z type] ++
  EncodeFixed32 (u32 (Z.of_nat (length key))) ++ key ++
  (if type =? kPut then EncodeFixed32 (u32 (Z.of_nat (length value))) ++ value else []).

Definition DecodeCommand (record : bytes) : option (Z * bytes * bytes) :=
  if Z.of_nat (length record) <? 1 + 4 then None
  else
    let type := byte_to_Z (record !!! 0%nat) in
    let p := drop 1 record in
    let klen := DecodeFixed32 p in
    let p := drop 4 p in
    if Z.of_nat (length p) <? klen then None
    else
      let key := take (Z.to_nat klen) p in
      let p := drop (Z.to_nat klen) p in
      if type =? kPut then
        if Z.of_nat (length p) <? 4 then None
        else
          let vlen := DecodeFixed32 p in
          let p := drop 4 p in
          if Z.of_nat (length p) <? vlen then None
          else Some (type, key, take (Z.to_nat vlen) p)
      else Some (type, key, []).

Record ReplicatedDB : Type := mkReplicatedDB {
  raft_ : Raft;
  storage_ : RaftStorage;
  rtable_ : gmap bytes bytes;
  applied_index_ : Z;
}.

(** The decoding and applying of one command, in [Open] and in
    [ApplyCommitted]. *)
Definition apply_command (table : gmap bytes bytes) (data : bytes) : gmap bytes bytes :=
  match DecodeCommand data with
  | Some (type, key, value) =>
      if type =? kPut then <[key := value]> table else delete key table
  | None => table
  end.

Definition ApplyCommitted (db : ReplicatedDB) : ReplicatedDB :=
  let committed :=
    entries_between (u64 (applied_index_ db + 1)) (commit_index_ (raft_ db)) (raft_ db) in
  mkReplicatedDB (raft_ db) (storage_ db)
    (foldl (λ table e, apply_command table (e_data e)) (rtable_ db) committed)
    (commit_index_ (raft_ db)).

Definition is_leader (db : ReplicatedDB) : bool := bool_decide (role_ (raft_ db) = kLeader).
Definition ReplicatedDB_term (db : ReplicatedDB) : Z := current_term_ (raft_ db).
Definition ReplicatedDB_applied_index (db : ReplicatedDB) : Z := applied_index_ db.

(** A caller of [raft()] changes the node through the reference it returns. *)
Definition set_raft (r : Raft) (db : ReplicatedDB) : ReplicatedDB :=
  mkReplicatedDB r (storage_ db) (rtable_ db) (applied_index_ db).

(** [while (role() != kLeader) Tick()] *)
Fixpoint tick_until_leader (fuel : nat) (r : Raft) : option Raft :=
  if bool_decide (role_ r = kLeader) then Some r
  else match fuel with O => None | S fuel => tick_until_leader fuel (Tick r) end.

Section replicated_db.
Context {K : Type} `{Kernel K}.

(** [ReplicatedDB::Sync] *)
Definition ReplicatedDB_Sync : M (ReplicatedDB * K) Status := λ '(db, k),
  match Save (raft_ db) (storage_ db, k) with
  | Some ((s, raft), (storage, k)) =>
      let db := mkReplicatedDB raft storage (rtable_ db) (applied_index_ db) in
      if negb (ok s) then Some (s, (db, k)) else Some (OK, (ApplyCommitted db, k))
  | None => None
  end.

(** [Put] and [Delete] after their check. *)
Definition propose_and_sync (data : bytes) : M (ReplicatedDB * K) Status := λ '(db, k),
  ReplicatedDB_Sync
    (mkReplicatedDB (Propose data (raft_ db)).2 (storage_ db) (rtable_ db) (applied_index_ db), k).

Definition ReplicatedDB_Put (key value : bytes) : M (ReplicatedDB * K) Status := λ '(db, k),
  if negb (is_leader db) then Some (InvalidArgument (str "not leader"), (db, k))
  else propose_and_sync (EncodeCommand kPut key value) (db, k).

Definition ReplicatedDB_Delete (key : bytes) : M (ReplicatedDB * K) Status := λ '(db, k),
  if negb (is_leader db) then Some (InvalidArgument (str "not leader"), (db, k))
  else propose_and_sync (EncodeCommand kDelete key []) (db, k).

(** [~ReplicatedDB] *)
Definition ReplicatedDB_destroy (db : ReplicatedDB) (k : K) : K :=
  RaftStorage_destroy (storage_ db) k.

(** [ReplicatedDB::Open]: the status and [*out]. *)
Definition ReplicatedDB_Open (dir : bytes) (node : Z) (members : list Z)
    : M K (Status * option ReplicatedDB) :=
  let* r := RaftStorage_Open (dir ++ str "/raft.log") in
  if negb (ok r.1) then ret (r.1, None)
  else
    match r.2 with
    | None => null_dereference
    | Some storage =>
        let '(s, hs, es) := RaftStorage_Recover storage in
        if negb (ok s) then λ k, Some ((s, None), RaftStorage_destroy storage k)
        else
          let single_node := Z.of_nat (length members) =? 1 in
          let raft := Restore (hs_term hs) (hs_vote hs) es
                        (Raft_new (mkConfig node members 1 1)) in
          let table := foldl (λ table e, apply_command table (e_data e)) ∅ es in
          let applied := match last es with None => 0 | Some e => e_index e end in
          if single_node then
            match tick_until_leader 1 raft with
            | None => out_of_fuel
            | Some raft => λ k,
                match ReplicatedDB_Sync (mkReplicatedDB raft storage table applied, k) with
                | Some (s, (db, k)) =>
                    if negb (ok s) then Some ((s, None), ReplicatedDB_destroy db k)
                    else Some ((OK, Some db), k)
                | None => None
                end
            end
          else ret (OK, Some (mkReplicatedDB raft storage table applied))
    end.
End replicated_db.

(** [Get]: the status and the new [*value]. *)
Definition ReplicatedDB_Get (key value : bytes) (db : ReplicatedDB) : Status * bytes :=
  match rtable_ db !! key with
  | None => (NotFound key, value)
  | Some v => (OK, v)
  end.
