(* ===== verification/ReplicatedDbTheorems.v ===== *)
(** * What the replicated database promises

    On a single node, the replicated database refines the same map as the
    storage engine: commands are encoded compatibly, every acknowledged write
    survives a crash, and recovery rebuilds the table, also where it applies
    commands again that were applied before. *)

From S2P Require Import Prelude Status Coding Files WalFormat WalWriter WalReader WalRecovery.
From S2P Require Import EnvPosix MemKernel PosixLog Db DbTheorems.
From S2P Require Import Raft RaftModel RaftNode RaftCluster RaftRefine Storage StorageTheorems.
From S2P Require Import ReplicatedDb.
Local Open Scope Z_scope.

(** ** Commands *)

Lemma EncodeCommand_EncodeRecord type key value :
  EncodeCommand type key value = EncodeRecord type key value.
Proof. done. Qed.

Lemma DecodeCommand_DecodeRecord record : DecodeCommand record = DecodeRecord record.
Proof. done. Qed.

Lemma apply_command_op m o : op_fits o → apply_command m (op_record o) = apply_op m o.
Proof.
  intros [Hk Hv]. unfold apply_command. rewrite DecodeCommand_DecodeRecord. unfold op_record.
  rewrite DecodeRecord_Encode by (done || by destruct o). by destruct o.
Qed.

Lemma apply_commands_ops ops m : Forall op_fits ops →
  foldl apply_command m (op_record <$> ops) = foldl apply_op m ops.
Proof.
  intros Hops. revert m. induction Hops as [|o ops Ho _ IH]; intros m; [done|].
  rewrite fmap_cons. cbn [foldl]. by rewrite apply_command_op, IH.
Qed.

(** ** Applying again *)

(** What the operations do to a key, if one of them touches it. *)
Fixpoint effect (ops : list op) (key : bytes) : option (option bytes) :=
  match ops with
  | [] => None
  | o :: ops =>
      match effect ops key with
      | Some e => Some e
      | None => if decide (op_key o = key)
                then Some (match o with OpPut _ v => Some v | OpDelete _ => None end) else None
      end
  end.

Lemma foldl_effect ops m key :
  foldl apply_op m ops !! key = match effect ops key with Some e => e | None => m !! key end.
Proof.
  revert m. induction ops as [|o ops IH]; intros m; [done|]. cbn [foldl effect]. rewrite IH.
  destruct (effect ops key); [done|]. destruct o as [k v|k]; simpl; case_decide as Hk.
  - subst. by rewrite lookup_insert_eq.
  - by rewrite lookup_insert_ne.
  - subst. by rewrite lookup_delete_eq.
  - by rewrite lookup_delete_ne.
Qed.

(** Applying the last operations of a table again does not change it. *)
Lemma replay_suffix ops1 ops2 :
  foldl apply_op (apply_ops (ops1 ++ ops2)) ops2 = apply_ops (ops1 ++ ops2).
Proof.
  apply map_eq. intros key. rewrite foldl_effect. unfold apply_ops. rewrite foldl_app.
  rewrite foldl_effect. by destruct (effect ops2 key).
Qed.

(** What [ApplyCommitted] does to the table: the commands of the log between the
    applied and the commit index. *)
Lemma ApplyCommitted_log db a c :
  log_fits (raft_ db) → applied_index_ db = Z.of_nat a → commit_index_ (raft_ db) = Z.of_nat c →
  (a < length (log_ (raft_ db)))%nat → (c < length (log_ (raft_ db)))%nat →
  rtable_ (ApplyCommitted db) =
  foldl apply_command (rtable_ db) (e_data <$> drop a (take c (drop 1 (log_ (raft_ db))))).
Proof.
  intros [_ Hf] Ea Ec Ha Hc. unfold ApplyCommitted. cbv zeta. cbn [rtable_]. rewrite Ea, Ec.
  rewrite u64_small by lia. replace (Z.of_nat a + 1) with (Z.of_nat (S a)) by lia.
  rewrite entries_between_take by done. rewrite foldl_fmap.
  by rewrite skipn_firstn_comm, drop_drop.
Qed.

(** ** Single nodes *)

Section single.
Context {K : Type} `{KernelSpec K}.
Implicit Types (k : K) (db : ReplicatedDB).

Definition log_path (dir : bytes) : bytes := dir ++ str "/raft.log".

Definition single_config (node : Z) : Config := mkConfig node [node] 1 1.

(** The commands in the log of a node. *)
Definition commands (r : Raft) (ops : list op) : Prop :=
  e_data <$> drop 1 (log_ r) = op_record <$> ops.

(** A command that fits the 32-bit lengths of the records. *)
Definition op_small (o : op) : Prop :=
  op_fits o ∧ Z.of_nat (length (op_record o)) < 2 ^ 32.

(** The database is open and clean: its node leads, its log holds the commands
    of [ops], the table is their map, and storage holds the node. *)
Record rdb_inv (dir : bytes) (node : Z) (ops : list op) (s : ReplicatedDB * K) : Prop := {
  ri_ops : Forall op_fits ops;
  ri_config : config_ (raft_ s.1) = single_config node;
  ri_role : role_ (raft_ s.1) = kLeader;
  ri_commands : commands (raft_ s.1) ops;
  ri_storable : storable (raft_ s.1);
  ri_commit : 0 ≤ commit_index_ (raft_ s.1) ≤ LastIndex (raft_ s.1);
  ri_applied : 0 ≤ applied_index_ s.1 ≤ LastIndex (raft_ s.1);
  ri_table : rtable_ s.1 = apply_ops ops;
  ri_path : path_ (storage_ s.1) = log_path dir;
  ri_stored : ∃ recs, storage_inv (storage_ s.1) (raft_ s.1) recs s.2;
}.

Lemma commands_length r ops : log_fits r → commands r ops →
  length (log_ r) = S (length ops).
Proof.
  intros Hf Hc. apply (f_equal length) in Hc. rewrite !length_fmap, length_drop in Hc.
  pose proof (log_fits_pos r Hf). lia.
Qed.

(** A leader without peers commits what it proposes at once. *)
Lemma Propose_single node data r :
  config_ r = single_config node → role_ r = kLeader → log_fits r →
  Z.of_nat (length (log_ r)) + 1 < 2 ^ 64 → 0 ≤ commit_index_ r ≤ LastIndex r →
  (Propose data r).2 = set_commit_index (LastIndex r + 1)
    (set_log (log_ r ++ [mkLogEntry (current_term_ r) (LastIndex r + 1) data]) r).
Proof.
  intros Hcfg Hr Hf Hlen Hc. pose proof (log_fits_pos r Hf).
  rewrite (LastIndex_eq r Hf) in *. unfold Propose. rewrite Hr. simpl.
  rewrite (LastIndex_eq r Hf), u64_small by lia.
  set (e := mkLogEntry _ _ _). set (r1 := set_log (log_ r ++ [e]) r).
  assert (log_fits r1) as Hf1.
  { split; simpl; [by destruct (log_ r)|]. rewrite length_app. simpl. lia. }
  assert (LastIndex r1 = Z.of_nat (length (log_ r))) as El.
  { rewrite (LastIndex_eq r1 Hf1). simpl. rewrite length_app. simpl. lia. }
  unfold MaybeCommit. rewrite El. change (commit_index_ r1) with (commit_index_ r).
  replace (Z.to_nat (Z.of_nat (length (log_ r)) - commit_index_ r))
    with (S (Z.to_nat (Z.of_nat (length (log_ r)) - commit_index_ r - 1))) by lia.
  cbn [MaybeCommit_loop]. rewrite (TermAt_eq r1 _ Hf1). simpl log_.
  rewrite length_app. simpl length. rewrite decide_True by lia.
  unfold term_at. rewrite lookup_total_app_r, Nat.sub_diag by lia. simpl.
  rewrite Z.eqb_refl. cbn [negb].
  assert ((QuorumSize r1 <=? count_replicas (Z.of_nat (length (log_ r))) r1) = true) as ->.
  { unfold QuorumSize, count_replicas, for_other_peers. simpl. rewrite Hcfg. simpl.
    by rewrite Z.eqb_refl. }
  by replace (Z.of_nat (length (log_ r)) - 1 + 1) with (Z.of_nat (length (log_ r))) by lia.
Qed.

(** *** Writing *)

Definition rdb_write (o : op) : M (ReplicatedDB * K) Status :=
  match o with
  | OpPut key value => ReplicatedDB_Put key value
  | OpDelete key => ReplicatedDB_Delete key
  end.

Lemma rdb_write_eq o db k : role_ (raft_ db) = kLeader →
  rdb_write o (db, k) = propose_and_sync (op_record o) (db, k).
Proof.
  intros Hr. destruct o; simpl; unfold is_leader; by rewrite bool_decide_eq_true_2.
Qed.

(** The node after a proposal. *)
Definition proposed (o : op) (r : Raft) : Raft :=
  set_commit_index (LastIndex r + 1)
    (set_log (log_ r ++ [mkLogEntry (current_term_ r) (LastIndex r + 1) (op_record o)]) r).

Lemma proposed_storable o r : storable r → op_small o →
  Z.of_nat (length (log_ r)) + 1 < 2 ^ 64 → storable (proposed o r).
Proof.
  intros [Hf Ht Hv Hi He] [_ Ho] Hlen. pose proof (log_fits_pos r Hf).
  pose proof (LastIndex_eq r Hf) as El. split; [|done|done| |]; simpl.
  - split; simpl; [by destruct (log_ r)|]. rewrite length_app. simpl. lia.
  - intros m e [Hm|[Hm He']]%lookup_app_Some; [by apply Hi|].
    apply list_lookup_singleton_Some in He' as [? <-]. simpl. lia.
  - apply Forall_app. split; [done|]. apply Forall_singleton.
    split_and!; simpl; [lia|lia|lia|lia|done].
Qed.

Lemma proposed_commands o r ops : log_fits r → commands r ops → commands (proposed o r) (ops ++ [o]).
Proof.
  intros Hf Hc. pose proof (log_fits_pos r Hf). unfold commands in *. simpl.
  rewrite drop_app_le by lia. by rewrite !fmap_app, Hc.
Qed.

(** Applying what is committed, from any applied index of the log. *)
Lemma ApplyCommitted_table db ops a c :
  Forall op_fits ops → log_fits (raft_ db) → commands (raft_ db) ops →
  applied_index_ db = Z.of_nat a → commit_index_ (raft_ db) = Z.of_nat c →
  (a ≤ length ops)%nat → (c ≤ length ops)%nat →
  rtable_ (ApplyCommitted db) = foldl apply_op (rtable_ db) (drop a (take c ops)).
Proof.
  intros Hops Hf Hc Ea Ec Hal Hcl. pose proof (commands_length _ _ Hf Hc) as Hlen.
  rewrite (ApplyCommitted_log db a c) by (done || lia).
  rewrite fmap_drop, fmap_take, Hc, <-fmap_take, <-fmap_drop.
  by apply apply_commands_ops, Forall_drop, Forall_take.
Qed.

(** Records from which a node with the commands [ops] is recovered, in a term of
    at most [T]. *)
Definition recs_ops (T : Z) (recs : list bytes) (ops : list op) : Prop :=
  ∃ r, recs_of r recs ∧ storable r ∧ commands r ops ∧ current_term_ r ≤ T.

(** The records of [ops] are durable, and at most one record was written after
    them, with which the commands are [ops ++ next]. *)
Definition rdb_logged (T : Z) (dir : bytes) (ops next : list op) k : Prop :=
  ∃ recs new, logged (log_path dir) recs new k ∧ recs_ops T recs ops ∧
    (new = [] ∨ ∃ rec, new = [rec] ∧ recs_ops T (recs ++ [rec]) (ops ++ next)).

Lemma planned_proposed o r : storable r → clean r →
  Z.of_nat (length (log_ r)) + 1 < 2 ^ 64 →
  planned (LastIndex r) (proposed o r) =
  [entry_record (mkLogEntry (current_term_ r) (LastIndex r + 1) (op_record o))].
Proof.
  intros [Hf _ _ _ _] [Hd Hs] Hlen. pose proof (log_fits_pos r Hf).
  unfold planned. simpl. rewrite Hd, Hs, Z.ltb_irrefl. simpl.
  rewrite (LastIndex_eq r Hf).
  replace (Z.to_nat (Z.of_nat (length (log_ r)) - 1 + 1)) with (length (log_ r)) by lia.
  by rewrite drop_app_length.
Qed.

Lemma rdb_write_spec T dir node ops o db k :
  rdb_inv dir node ops (db, k) → op_small o →
  current_term_ (raft_ db) ≤ T → Z.of_nat (length ops) + 2 < 2 ^ 64 →
  ∃ st db' k', rdb_write o (db, k) = Some (st, (db', k')) ∧
    rdb_logged T dir ops [o] k' ∧
    (ok st = true → st = OK ∧ rdb_inv dir node (ops ++ [o]) (db', k') ∧
       current_term_ (raft_ db') = current_term_ (raft_ db)) ∧
    (ok st = false → rtable_ db' = rtable_ db) ∧
    (k_reliable k → ok st = true ∧ k_reliable k').
Proof.
  intros [Hops Hcfg Hrole Hcmd Hst Hcom Happ Htab Hpath [recs Hsto]] Ho Hterm Hroom. simpl in *.
  pose proof (st_log _ Hst) as Hf. pose proof (commands_length _ _ Hf Hcmd) as Hlen.
  pose proof (LastIndex_eq _ Hf) as El. pose proof Hsto as (_ & Hrecs & _ & Hclean).
  rewrite rdb_write_eq by done. unfold propose_and_sync.
  rewrite (Propose_single node) by (done || lia). fold (proposed o (raft_ db)).
  set (r := raft_ db) in *. set (r1 := proposed o r).
  assert (storable r1) as Hst1 by (apply proposed_storable; [done|done|lia]).
  assert (tracked r r1) as [Htr Hwm].
  { assert (tracked r (Propose (op_record o) r).2) as Ht.
    { apply Propose_tracked; [|lia]. split; [done|]. destruct Hclean as [_ ->]. lia. }
    by rewrite (Propose_single node) in Ht by (done || lia). }
  pose proof (planned_proposed o r Hst Hclean ltac:(lia)) as Hpl. fold r1 in Hpl.
  pose proof (proposed_commands o r ops Hf Hcmd) as Hcmd1. fold r1 in Hcmd1.
  destruct (Save_spec r r1 (storage_ db) recs k Hsto Hst Hst1 Htr Hwm)
    as (s & r' & store' & k' & dn & E & Hpre & Hlog & Hok & Hrel).
  rewrite Hpl in *. rewrite Hpath in Hlog.
  assert (rdb_logged T dir ops [o] k') as Hrl.
  { exists recs, dn. split_and!; [done|by exists r|]. destruct dn as [|rec dn]; [by left|right].
    apply prefix_cons_inv_1 in Hpre as Erec. apply prefix_cons_inv_2, prefix_nil_inv in Hpre as ->.
    exists rec. split; [done|]. exists r1. split_and!; [|done|done|done]. unfold recs_of.
    rewrite foldl_app, Hrecs, Erec, <-Hpl. by apply replay_planned. }
  unfold ReplicatedDB_Sync. cbn [raft_ storage_ rtable_ applied_index_]. rewrite E.
  destruct (ok s) eqn:Hs; cbn [negb].
  2:{ eexists s, _, k'. split_and!; [done|done|congruence|done|]. intros [? _]%Hrel. congruence. }
  destruct (Hok eq_refl) as (_ & -> & Hpath' & Hsto').
  set (db1 := mkReplicatedDB (saved r1) store' (rtable_ db) (applied_index_ db)).
  assert (Forall op_fits (ops ++ [o])) as Hops1.
  { apply Forall_app. split; [done|]. apply Forall_singleton, Ho. }
  assert (rtable_ (ApplyCommitted db1) = apply_ops (ops ++ [o])) as Htab'.
  { destruct (Z_of_nat_complete (applied_index_ db)) as [a Ea]; [lia|].
    rewrite (ApplyCommitted_table db1 (ops ++ [o]) a (S (length ops)));
      [|done|apply Hst1|done|done|simpl; lia|rewrite length_app; lia|rewrite length_app; simpl; lia].
    rewrite take_ge by (rewrite length_app; simpl; lia). simpl rtable_.
    rewrite Htab, drop_app_le, foldl_app by lia.
    rewrite <-(take_drop a ops) at 1. rewrite replay_suffix, take_drop.
    unfold apply_ops. by rewrite foldl_app. }
  eexists OK, _, k'. split_and!; [done|done| |done|apply Hrel].
  intros _. split_and!; [done| |done]. split; simpl; try done.
  - destruct Hst1. by split.
  - change (LastIndex (saved r1)) with (LastIndex r1). rewrite (LastIndex_eq _ (st_log _ Hst1)). simpl. rewrite length_app. simpl. lia.
  - change (LastIndex (saved r1)) with (LastIndex r1). rewrite (LastIndex_eq _ (st_log _ Hst1)). simpl. rewrite length_app. simpl. lia.
  - congruence.
  - by eexists.
Qed.

(** *** Sessions *)

Fixpoint run_rdb (ops : list op) : M (ReplicatedDB * K) nat :=
  match ops with
  | [] => ret 0%nat
  | o :: ops =>
      let* st := rdb_write o in
      if ok st then let* n := run_rdb ops in ret (S n) else ret 0%nat
  end.

Lemma rdb_inv_logged T dir node ops db k :
  rdb_inv dir node ops (db, k) → current_term_ (raft_ db) ≤ T → rdb_logged T dir ops [] k.
Proof.
  intros [_ _ _ Hcmd Hst _ _ _ Hpath (recs & (w & file & _ & _ & Hp & _ & Hl) & Hrecs & _)] Ht.
  simpl in *. exists recs, []. rewrite Hp, Hpath in Hl. split_and!; [done| |by left].
  by exists (raft_ db).
Qed.

Lemma run_rdb_spec T dir node base ops db k :
  rdb_inv dir node base (db, k) → Forall op_small ops →
  current_term_ (raft_ db) ≤ T → Z.of_nat (length base + length ops) + 1 < 2 ^ 64 →
  ∃ n db' k', run_rdb ops (db, k) = Some (n, (db', k')) ∧ (n ≤ length ops)%nat ∧
    rtable_ db' = apply_ops (base ++ take n ops) ∧
    rdb_logged T dir (base ++ take n ops) (take 1 (drop n ops)) k' ∧
    (n = length ops → rdb_inv dir node (base ++ ops) (db', k') ∧
       current_term_ (raft_ db') = current_term_ (raft_ db)) ∧
    (k_reliable k → n = length ops ∧ k_reliable k').
Proof.
  intros Hinv Hops. revert base db k Hinv.
  induction Hops as [|o ops Ho Hops IH]; intros base db k Hinv Ht Hroom.
  - exists 0%nat, db, k. simpl. rewrite app_nil_r.
    split_and!; [done|lia|apply Hinv|by eapply rdb_inv_logged|done|done].
  - simpl in Hroom.
    destruct (rdb_write_spec T dir node base o db k Hinv Ho Ht ltac:(lia))
      as (st & db1 & k1 & E & Hatt & Hok & Hko & Hrel).
    cbn [run_rdb]. rewrite (bind_eval _ _ _ _ _ E). destruct (ok st) eqn:Ok.
    + destruct (Hok eq_refl) as (_ & Hinv1 & Et).
      destruct (IH _ _ _ Hinv1) as (n & db2 & k2 & E2 & Hn & Htab & Hl & Hfin & Hrel2).
      { lia. } { rewrite length_app. simpl. lia. }
      rewrite (bind_eval _ _ _ _ _ E2). rewrite <-app_assoc in *.
      exists (S n), db2, k2. simpl. split_and!; [done|lia|done|done| |].
      * intros [= ->]. destruct (Hfin eq_refl). split; [done|congruence].
      * intros [_ [-> ?]%Hrel2]%Hrel. done.
    + exists 0%nat, db1, k1. simpl. rewrite app_nil_r, Hko by done.
      split_and!; [done|lia|apply Hinv|done|done|]. intros [? _]%Hrel. congruence.
Qed.

(** *** Opening *)

Lemma find_last_of_app ch s1 s2 : ch ∉ s2 →
  find_last_of ch (s1 ++ ch :: s2) = Some (length s1).
Proof.
  intros Hs. assert (find_last_of ch s2 = None) as Hnone.
  { induction s2 as [|b s2 IH]; [done|]. apply not_elem_of_cons in Hs as [Hb Hs]. simpl.
    rewrite IH by done. by rewrite decide_False by congruence. }
  induction s1 as [|b s1 IH]; simpl; [by rewrite Hnone, decide_True|]. by rewrite IH.
Qed.

Lemma ParentDir_log_path dir : ParentDir (log_path dir) ≠ log_path dir.
Proof.
  unfold ParentDir, log_path.
  change (dir ++ str "/raft.log") with (dir ++ byte_of_Z 47 :: str "raft.log").
  rewrite find_last_of_app by (apply (bool_decide_unpack _); vm_compute; exact I).
  destruct (length dir) as [|n] eqn:E.
  - destruct dir; [|done]. vm_compute. discriminate.
  - intros Eq%(f_equal length). rewrite length_take, length_app, E in Eq. simpl in Eq. lia.
Qed.

(** A single node becomes leader at its first tick. *)
Lemma tick_single node r : config_ r = single_config node → role_ r = kFollower →
  election_elapsed_ r = 0 → tick_until_leader 1 r = Some (Tick r) ∧
  role_ (Tick r) = kLeader ∧ config_ (Tick r) = single_config node ∧ log_ (Tick r) = log_ r ∧
  commit_index_ (Tick r) = commit_index_ r ∧
  current_term_ (Tick r) = u64 (current_term_ r + 1) ∧ voted_for_ (Tick r) = node.
Proof.
  intros Hcfg Hr He.
  assert (Tick r = BecomeLeader (candidate_state (set_election_elapsed 1 r))) as ET.
  { unfold Tick. rewrite Hr. simpl. rewrite Hcfg, He. simpl. rewrite BecomeCandidate_eq.
    cbv zeta. unfold QuorumSize at 1. simpl. by rewrite Hcfg. }
  rewrite BecomeLeader_eq, BroadcastAppendEntries_eq in ET.
  assert (role_ (Tick r) = kLeader) as Hl by by rewrite ET.
  split_and!; [|done|rewrite ET; simpl; by rewrite ?Hcfg..].
  cbn [tick_until_leader]. rewrite bool_decide_eq_false_2 by congruence.
  by rewrite bool_decide_eq_true_2.
Qed.

(** The node as recovery restores it. *)
Definition restored (node : Z) (st : HardState * list LogEntry) : Raft :=
  Restore (hs_term st.1) (hs_vote st.1) st.2 (Raft_new (single_config node)).

Lemma restored_spec node recs ops r : recs_of r recs → storable r → commands r ops →
  let r0 := restored node (foldl replay_raft_record (mkHardState 0 0, []) recs) in
  config_ r0 = single_config node ∧ role_ r0 = kFollower ∧ election_elapsed_ r0 = 0 ∧
  commit_index_ r0 = 0 ∧ current_term_ r0 = current_term_ r ∧
  recs_of r0 recs ∧ storable r0 ∧ commands r0 ops ∧ clean r0 ∧
  last_entry_index (drop 1 (log_ r0)) = LastIndex r0.
Proof.
  intros Hrecs Hst Hcmd. cbv zeta. unfold recs_of in Hrecs. rewrite Hrecs.
  unfold restored. rewrite Restore_eq. cbv zeta. cbn [fst snd hs_term hs_vote].
  set (es := drop 1 (log_ r)) in *. pose proof (log_fits_pos r (st_log _ Hst)) as Hpos.
  assert (length (log_ r) = S (length es)) as Hlen by (unfold es; rewrite length_drop; lia).
  set (r0 := set_hard_state_dirty _ _).
  assert (log_ r0 = mkLogEntry 0 0 [] :: es) as Elog by done.
  assert (log_fits r0) as Hf0.
  { split; rewrite Elog; [done|]. simpl. destruct (st_log _ Hst). lia. }
  assert (∀ m e, es !! m = Some e → e_index e = Z.of_nat (S m)) as Hidx.
  { intros m e He. unfold es in He. rewrite lookup_drop in He. by apply (st_index _ Hst) in He. }
  split_and!; try done.
  - split; [done|apply Hst|apply Hst| |].
    + rewrite Elog. intros [|m] e He; [by injection He as <-|]. by apply Hidx.
    + rewrite Elog. constructor; [split_and!; simpl; lia|]. apply Forall_drop, Hst.
  - change (drop 1 (log_ r0)) with es. rewrite (LastIndex_eq r0 Hf0), Elog. simpl length.
    unfold last_entry_index. rewrite last_lookup. destruct es as [|e0 es'] eqn:Ees; [done|].
    rewrite <-Ees in *. destruct (es !! pred (length es)) as [e|] eqn:He.
    + rewrite (Hidx _ _ He). rewrite Ees. simpl. lia.
    + apply lookup_ge_None in He. rewrite Ees in He. simpl in He. lia.
Qed.

Lemma ApplyCommitted_none db : 0 ≤ applied_index_ db < 2 ^ 64 - 1 → commit_index_ (raft_ db) = 0 →
  ApplyCommitted db = mkReplicatedDB (raft_ db) (storage_ db) (rtable_ db) 0.
Proof.
  intros Ha Hc. unfold ApplyCommitted, entries_between. rewrite Hc, u64_small, seqZ_nil by lia. done.
Qed.

(** Opening, after storage was opened. *)
Lemma rdb_open_eq T dir node recs ops store k k1 :
  RaftStorage_Open (log_path dir) k = Some ((OK, Some store), k1) →
  (recovered_hs_ store, recovered_entries_ store) =
    foldl replay_raft_record (mkHardState 0 0, []) recs →
  recs_ops T recs ops → Forall op_fits ops →
  let r0 := restored node (foldl replay_raft_record (mkHardState 0 0, []) recs) in
  ReplicatedDB_Open dir node [node] k =
  match Save (Tick r0) (store, k1) with
  | Some ((s, raft), (storage, k2)) =>
      let db := mkReplicatedDB raft storage (apply_ops ops) (LastIndex r0) in
      if negb (ok s) then Some ((s, None), ReplicatedDB_destroy db k2)
      else Some ((OK, Some (ApplyCommitted db)), k2)
  | None => None
  end.
Proof.
  intros Eo Erec (r & Hrecs & Hst & Hcmd & Ht) Hops. cbv zeta.
  destruct (restored_spec node recs ops r Hrecs Hst Hcmd)
    as (Hcfg & Hrole & Hel & _ & _ & Hrecs0 & _ & Hcmd0 & _ & Hlast).
  unfold recs_of in Hrecs0. clear Hrecs.
  destruct (foldl replay_raft_record (mkHardState 0 0, []) recs) as [hs es].
  set (r0 := restored node (hs, es)) in *. injection Erec as Eh Ee.
  assert (es = drop 1 (log_ r0)) as Ees by (apply (f_equal snd) in Hrecs0; exact Hrecs0).
  unfold commands in Hcmd0. rewrite <-Ees in Hcmd0, Hlast.
  unfold ReplicatedDB_Open. fold (log_path dir). rewrite (bind_eval _ _ _ _ _ Eo).
  cbn [fst snd]. change (ok OK) with true. cbn [negb].
  unfold RaftStorage_Recover. rewrite Eh, Ee. change (ok OK) with true. cbn [negb].
  change (Z.of_nat (length [node]) =? 1) with true. cbn iota.
  change (Restore (hs_term hs) (hs_vote hs) es (Raft_new (mkConfig node [node] 1 1))) with r0.
  destruct (tick_single node r0 Hcfg Hrole Hel) as (-> & _). unfold ReplicatedDB_Sync.
  cbn [raft_ storage_ rtable_ applied_index_].
  assert (foldl (λ table e, apply_command table (e_data e)) ∅ es = apply_ops ops) as ->.
  { rewrite <-(foldl_fmap apply_command ∅ es e_data). rewrite Hcmd0. by apply apply_commands_ops. }
  fold (last_entry_index es). rewrite Hlast.
  destruct (Save (Tick r0) (store, k1)) as [[[s raft] [storage k2]]|]; [|done].
  by destruct (ok s) eqn:Es; cbn [negb]; rewrite ?Es.
Qed.

Lemma rdb_open_spec T dir node recs ops t k :
  k_reliable k → storage_on_disk (log_path dir) recs t k → recs_ops T recs ops →
  Forall op_fits ops →
  ∃ db k', ReplicatedDB_Open dir node [node] k = Some ((OK, Some db), k') ∧ k_reliable k' ∧
    rtable_ db = apply_ops ops.
Proof.
  intros Hrel Hdisk Hro Hops.
  destruct (RaftStorage_Open_spec (log_path dir) recs t k Hrel (ParentDir_log_path dir) Hdisk)
    as (store & k1 & c & off & fd & Eo & Hrel1 & _ & -> & Hfd & Hp & _).
  rewrite (rdb_open_eq T dir node recs ops _ k k1 Eo);
    [|simpl; by rewrite <-surjective_pairing|done|done]. cbv zeta.
  set (r0 := restored node _). set (store := mkRaftStorage _ _ _ _ _ _).
  destruct (Save_reliable (Tick r0) store k1) as (store' & k2 & -> & _ & Hrel2); [|done|].
  { eexists _, _. split_and!; [done|done|apply Writer_new_ok|]. by split. }
  change (ok OK) with true. cbn [negb]. eexists _, k2. split_and!; [done|done|].
  destruct Hro as (r & Hrecs & Hst & Hcmd & Ht).
  destruct (restored_spec node recs ops r Hrecs Hst Hcmd)
    as (Hcfg & Hrole & Hel & Hcom & _ & _ & Hst0 & _). fold r0 in Hcfg, Hrole, Hel, Hcom, Hst0.
  destruct (tick_single node r0 Hcfg Hrole Hel) as (_ & _ & _ & _ & Hcom' & _).
  pose proof (log_fits_pos _ (st_log _ Hst0)).
  rewrite ApplyCommitted_none; [done| |simpl; congruence].
  simpl. rewrite (LastIndex_eq r0 (st_log _ Hst0)). destruct (st_log _ Hst0) as [_ ?]. lia.
Qed.

(** A file without a torn tail, all of it durable, or no file yet. *)
Definition rdb_clean (T : Z) (dir : bytes) (ops : list op) k : Prop :=
  Forall op_fits ops ∧
  (∀ c, k_file k (log_path dir) = Some c → k_durable k (log_path dir) = c) ∧
  ∃ recs, storage_on_disk (log_path dir) recs [] k ∧ recs_ops T recs ops.

Lemma rdb_open_clean T dir node ops k :
  k_reliable k → 0 < node < 2 ^ 64 → T < 2 ^ 64 - 1 → rdb_clean T dir ops k →
  ∃ db k', ReplicatedDB_Open dir node [node] k = Some ((OK, Some db), k') ∧ k_reliable k' ∧
    rdb_inv dir node ops (db, k') ∧ current_term_ (raft_ db) ≤ T + 1.
Proof.
  intros Hrel Hnode HT (Hops & Hdur & recs & Hdisk & Hro).
  destruct (RaftStorage_Open_clean (log_path dir) recs k Hrel (ParentDir_log_path dir) Hdisk Hdur)
    as (store & k1 & Eo & Hrel1 & Hat & Hpath & Hpers & Erec).
  injection Erec as Eh Ee.
  rewrite (rdb_open_eq T dir node recs ops store k k1 Eo);
    [|by rewrite Eh, Ee, <-surjective_pairing|done|done]. cbv zeta.
  destruct Hro as (r & Hrecs & Hst & Hcmd & Ht).
  destruct (restored_spec node recs ops r Hrecs Hst Hcmd)
    as (Hcfg & Hrole & Hel & Hcom & Hterm & Hrecs0 & Hst0 & Hcmd0 & Hclean & Hlast).
  set (r0 := restored node _) in *.
  destruct (tick_single node r0 Hcfg Hrole Hel) as (_ & Hl & Hcfg1 & Hlog1 & Hcom1 & Ht1 & Hv1).
  pose proof (log_fits_pos _ (st_log _ Hst0)). pose proof (LastIndex_eq r0 (st_log _ Hst0)) as El.
  assert (tracked r0 (Tick r0)) as [Htr Hwm].
  { apply Tick_tracked. split; [apply Hst0|]. destruct Hclean as [_ ->]. lia. }
  assert (storable (Tick r0)) as Hst1.
  { pose proof (st_term _ Hst0). destruct Hst0 as [Hf _ _ Hi He].
    split; [apply Hwm|rewrite Ht1; apply u64_range|rewrite Hv1; lia|by rewrite Hlog1..]. }
  assert (storage_inv store r0 recs k1) as Hsto.
  { split_and!; [done|done| |apply Hclean..]. rewrite Hpers.
    unfold recs_of in Hrecs0. by rewrite Hrecs0. }
  destruct (Save_spec r0 (Tick r0) store recs k1 Hsto Hst0 Hst1 Htr Hwm)
    as (s & r' & store' & k2 & dn & -> & _ & _ & Hok & Hrel2).
  destruct (Hrel2 Hrel1) as [Hs Hr2]. rewrite Hs. cbn [negb].
  destruct (Hok Hs) as (_ & -> & Hpath' & Hsto').
  eexists _, k2. destruct (st_log _ Hst0) as [_ Hl64].
  rewrite ApplyCommitted_none; [|simpl; lia|simpl; congruence].
  split_and!; [done|done| |simpl; pose proof (st_term _ Hst0); rewrite Ht1, u64_small; lia].
  assert (LastIndex (saved (Tick r0)) = LastIndex r0) as El1.
  { unfold LastIndex. simpl. by rewrite Hlog1. }
  split; simpl; try done; try lia.
  - unfold commands. simpl. by rewrite Hlog1.
  - destruct Hst1. by split.
  - congruence.
  - by eexists.
Qed.

Lemma rdb_inv_on_disk T dir node ops db k k' :
  rdb_inv dir node ops (db, k) → current_term_ (raft_ db) ≤ T → same_files k k' →
  ∃ recs, storage_on_disk (log_path dir) recs [] k' ∧ recs_ops T recs ops.
Proof.
  intros [_ _ _ Hcmd Hst _ _ _ Hpath (recs & (w & file & _ & _ & Hp & Hlog & _) & Hrecs & _)] Ht [Hf _].
  simpl in *. exists recs. split; [|by exists (raft_ db)].
  destruct Hlog as ([_ [c Hc]] & _ & off & Hwal & _). simpl in Hc, Hwal.
  unfold contents_at in Hwal. rewrite app_nil_r, Hc in Hwal. simpl in Hwal.
  left. exists c, off. rewrite app_nil_r, <-Hpath, <-Hp, Hf. split_and!; [done..|].
  apply torn_nil. eapply wal_offset; [done|wal_lia].
Qed.

Lemma ReplicatedDB_destroy_spec db k :
  same_files k (ReplicatedDB_destroy db k) ∧
  (k_reliable k → k_reliable (ReplicatedDB_destroy db k)).
Proof.
  unfold ReplicatedDB_destroy, RaftStorage_destroy, PosixWritableFile_destroy.
  destruct (file_ (storage_ db)) as [file|]; [|done]. destruct (0 <=? wfd_ file); [|done].
  pose proof (close_spec k (wfd_ file)) as Hc. destruct (sys_close (wfd_ file) k) as [s k1].
  destruct Hc as (? & _ & _ & ?). by split.
Qed.

(** ** Theorems *)



(** Only a leader accepts writes.  On a node that is not the leader [Put] and
    [Delete] fail with InvalidArgument and change nothing. *)
Lemma rdb_follower_rejects (o : op) (db : ReplicatedDB) (k : K) :
  role_ (raft_ db) ≠ kLeader →
  rdb_write o (db, k) = Some (InvalidArgument (str "not leader"), (db, k)).
Proof. intros Hr. destruct o; simpl; unfold is_leader; by rewrite bool_decide_eq_false_2. Qed.
End single.

(** ** Witnesses *)

Definition demo_dir : bytes := str "d".
Definition demo_commands : list op := [OpPut (str "k") (str "v"); OpDelete (str "k"); OpPut (str "a") []].
Definition fresh_kernel : MemKernel := mkMemKernel ∅ [] ∅ [].

Lemma demo_small : Forall op_small demo_commands.
Proof. repeat (constructor; [split; [split|]; vm_compute; reflexivity|]). constructor. Qed.

Lemma empty_clean : rdb_clean 0 demo_dir [] fresh_kernel.
Proof.
  split_and!; [constructor|by intros c|]. exists []. split.
  - right. split_and!; [vm_compute; reflexivity|done|done].
  - exists demo_node. split_and!; [done|apply demo_storable|done|done].
Qed.

(** The database after it was opened on an empty directory. *)
Definition demo_open : ReplicatedDB * MemKernel :=
  match ReplicatedDB_Open demo_dir 1 [1] fresh_kernel with
  | Some ((_, Some db), k) => (db, k)
  | _ => (mkReplicatedDB demo_node demo_store ∅ 0, fresh_kernel)
  end.

Lemma demo_open_inv : rdb_inv demo_dir 1 [] demo_open ∧ current_term_ (raft_ demo_open.1) ≤ 1.
Proof.
  unfold demo_open.
  destruct (rdb_open_clean 0 demo_dir 1 [] fresh_kernel) as (db & k & -> & _ & ? & ?);
    [constructor|lia|lia|exact empty_clean|done].
Qed.



(** ** Behaviours to know about *)

(** Opens the database, puts a key, closes and opens again: the applied and the
    last index of the database that was opened last. *)
Definition applied_after_reopen (k : MemKernel) : option (Z * Z) :=
  match ReplicatedDB_Open demo_dir 1 [1] k with
  | Some ((_, Some db), k) =>
      match ReplicatedDB_Put (str "a") (str "b") (db, k) with
      | Some (_, (db, k)) =>
          match ReplicatedDB_Open demo_dir 1 [1] (ReplicatedDB_destroy db k) with
          | Some ((_, Some db), _) => Some (applied_index_ db, LastIndex (raft_ db))
          | _ => None
          end
      | None => None
      end
  | _ => None
  end.

(** Recovery forgets what it applied.  [Open] applies the recovered entries
    and sets the applied index to the last of them, but the [Sync] that follows
    the election sets it back to the commit index, which is 0 after a restart:
    the entries are applied again by the next write. *)
Theorem recovery_resets_applied_index : applied_after_reopen fresh_kernel = Some (0, 1).
Proof. vm_compute. reflexivity. Qed.
