(* ===== verification/ReplicatedCluster.v ===== *)
(** * Clusters of replicated databases

    Several [ReplicatedDB]s that are driven as replicated_db.h describes and as
    the harness [ReplCluster] of test/raft/replicated_db_test.cc does: a method
    of [raft()] or a write is followed by [Sync], and the messages of a node are
    delivered, in any order, any number of times or not at all.  Every node has
    a kernel of its own; a node whose [Sync] fails is given up.

    Proved: all nodes apply one sequence of the operations that were issued, and
    on working kernels an operation issued at the leader can be applied on every
    node. *)

From S2P Require Import Prelude Status Coding Crc32c Files WalFormat WalWriter WalReader.
From S2P Require Import WalRecovery EnvPosix MemKernel PosixLog Db DbTheorems.
From S2P Require Import Raft RaftModel RaftElection RaftLogs RaftCommit RaftNode RaftCluster.
From S2P Require Import RaftRefine RaftApply RaftEntries RaftTheorems RaftProgress Storage StorageTheorems.
From S2P Require Import ReplicatedDb ReplicatedDbTheorems.
Local Open Scope Z_scope.

(** What a driver may do with a node. *)
Inductive rcall : Type := RTick | RStep (msg : Message) | RWrite (o : op).

Section driver.
Context {K : Type} `{Kernel K}.

(** A method of [raft()] and [Sync]. *)
Definition driven (method : Raft → Raft) : M (ReplicatedDB * K) Status := λ '(db, k),
  ReplicatedDB_Sync (set_raft (method (raft_ db)) db, k).

Definition run_rcall (a : rcall) : M (ReplicatedDB * K) Status :=
  match a with
  | RTick => driven Tick
  | RStep msg => driven (Step msg)
  | RWrite o => rdb_write o
  end.

(** The nodes that are still driven, the messages sent and the operations that
    were accepted by [Put] and [Delete]. *)
Record rcluster : Type := mkRcluster {
  replicas : Z → option (ReplicatedDB * K);
  rnetwork : list Message;
  issued : list op;
}.

(** The cluster after a call that succeeded. *)
Definition rafter (c : rcluster) (i : Z) (a : rcall) (db : ReplicatedDB) (k : K) : rcluster :=
  let '(msgs, r) := TakeMessages (raft_ db) in
  mkRcluster (<[i := Some (set_raft r db, k)]> (replicas c)) (rnetwork c ++ msgs)
    (match a with RWrite o => issued c ++ [o] | _ => issued c end).

Definition enabled (c : rcluster) (i : Z) (a : rcall) : Prop :=
  match a with
  | RTick => True
  | RStep msg => msg ∈ rnetwork c ∧ m_to msg = i
  | RWrite o => op_fits o
  end.

Context (members : list Z).

Inductive rstep (c : rcluster) : rcluster → Prop :=
  | rstep_call i a db k st db' k' :
      i ∈ members → replicas c i = Some (db, k) → enabled c i a →
      run_rcall a (db, k) = Some (st, (db', k')) → ok st = true → rstep c (rafter c i a db' k')
  | rstep_stop i : rstep c (mkRcluster (<[i := None]> (replicas c)) (rnetwork c) (issued c)).

(** All nodes were opened in directories without a log. *)
Record rinit (c : rcluster) : Prop := {
  ri_opened : ∀ i, i ∈ members → ∃ dir k0 db k, replicas c i = Some (db, k) ∧
    sys_access (log_path dir) k0 = false ∧
    ReplicatedDB_Open dir i members k0 = Some ((OK, Some db), k);
  ri_network : rnetwork c = [];
  ri_issued : issued c = [];
}.
End driver.

Arguments rcluster : clear implicits.

(** ** A successful call *)

Section calls.
Context {K : Type} `{KernelSpec K}.
Implicit Types (db : ReplicatedDB) (k : K).

(** A save that succeeds has saved the node, whatever its kernel does. *)
Lemma Save_ok r store k st r' s' :
  Save r (store, k) = Some ((st, r'), s') → ok st = true → r' = saved r.
Proof.
  unfold Save. rewrite clear_dirty_if. intros E Hok.
  apply bind_Some in E as (s1 & [st1 k1] & _ & E).
  destruct (ok s1) eqn:O1; cbn [negb] in E; [|injection E as <- _ _; congruence].
  apply bind_Some in E as (s2 & [st2 k2] & _ & E).
  destruct (ok s2) eqn:O2; cbn [negb] in E; [|injection E as <- _ _; congruence].
  apply bind_Some in E as (s3 & [st3 k3] & _ & E).
  destruct (ok s3) eqn:O3; cbn [negb] in E; [|injection E as <- _ _; congruence].
  apply bind_Some in E as (s4 & [st4 k4] & _ & E).
  destruct (ok s4) eqn:O4; cbn [negb] in E; [|injection E as <- _ _; congruence].
  by injection E as _ <- _.
Qed.

Lemma Sync_ok db k st db' k' :
  ReplicatedDB_Sync (db, k) = Some (st, (db', k')) → ok st = true →
  ∃ store, db' = ApplyCommitted (mkReplicatedDB (saved (raft_ db)) store (rtable_ db) (applied_index_ db)).
Proof.
  unfold ReplicatedDB_Sync. intros E Hok.
  destruct (Save (raft_ db) (storage_ db, k)) as [[[s r] [store k1]]|] eqn:Es; [|done].
  destruct (ok s) eqn:Os; cbn [negb] in E; [|injection E as <- _ _; congruence].
  apply Save_ok in Es; [|done]. injection E as _ <- _. subst r. by exists store.
Qed.

(** The node that a call saves. *)
Definition called (a : rcall) (r : Raft) : Raft :=
  match a with
  | RTick => Tick r
  | RStep msg => Step msg r
  | RWrite o => (Propose (op_record o) r).2
  end.

Lemma run_rcall_ok a db k st db' k' :
  run_rcall a (db, k) = Some (st, (db', k')) → ok st = true →
  (∀ o, a = RWrite o → role_ (raft_ db) = kLeader) ∧
  ∃ store, db' = ApplyCommitted
    (mkReplicatedDB (saved (called a (raft_ db))) store (rtable_ db) (applied_index_ db)).
Proof.
  intros E Hok. destruct a as [|msg|o]; [split; [done|]; by eapply (Sync_ok (set_raft _ db))..|].
  destruct (decide (role_ (raft_ db) = kLeader)) as [Hr|Hr].
  - cbn [run_rcall] in E. rewrite rdb_write_eq in E by done. split; [done|].
    by eapply (Sync_ok (set_raft _ db)).
  - exfalso. assert (is_leader db = false) as Hl by by apply bool_decide_eq_false_2.
    destruct o; simpl in E; rewrite Hl in E; by injection E as <- _ _.
Qed.

(** A node whose log is open on a kernel whose calls succeed. *)
Definition working (db : ReplicatedDB) (k : K) : Prop := store_open (storage_ db) k ∧ k_reliable k.

(** On a working node every call succeeds, a write if the node leads. *)
Lemma run_rcall_working a db k :
  working db k → (∀ o, a = RWrite o → role_ (raft_ db) = kLeader) →
  ∃ db' k', run_rcall a (db, k) = Some (OK, (db', k')) ∧ working db' k'.
Proof.
  intros [Hopen Hrel] Hlead.
  assert (run_rcall a (db, k) = ReplicatedDB_Sync (set_raft (called a (raft_ db)) db, k)) as ->.
  { destruct a as [|msg|o]; [done..|]. by apply rdb_write_eq, (Hlead o). }
  unfold ReplicatedDB_Sync.
  destruct (Save_reliable (called a (raft_ db)) (storage_ db) k Hopen Hrel) as (store & k' & E & Ho & Hr).
  cbn [raft_ storage_ set_raft]. rewrite E. cbn [ok OK negb]. by eexists _, k'.
Qed.
End calls.

(** ** What the nodes apply *)

(** The table of a node holds the commands of its log up to the applied index,
    which is the commit index. *)
Definition applies (db : ReplicatedDB) : Prop :=
  ∃ a, applied_index_ db = Z.of_nat a ∧ applied_index_ db = commit_index_ (raft_ db) ∧
    rtable_ db = foldl apply_command ∅ (e_data <$> take a (drop 1 (log_ (raft_ db)))).

(** Applying what a call has committed, when the call kept what was committed. *)
Lemma applies_next db r store :
  applies db → log_fits r → 0 ≤ commit_index_ r < Z.of_nat (length (log_ r)) →
  commit_index_ (raft_ db) ≤ commit_index_ r →
  take (S (Z.to_nat (commit_index_ (raft_ db)))) (log_ (raft_ db)) =
    take (S (Z.to_nat (commit_index_ (raft_ db)))) (log_ r) →
  applies (ApplyCommitted (mkReplicatedDB (saved r) store (rtable_ db) (applied_index_ db))).
Proof.
  intros (a & Ea & Hle & Htab) Hf Hc Hmono Hkeep.
  exists (Z.to_nat (commit_index_ r)). split; [simpl; lia|]. split; [done|].
  rewrite (ApplyCommitted_log _ a (Z.to_nat (commit_index_ r)));
    [|done|done|simpl; lia|simpl; lia|simpl; lia]. cbn [raft_ rtable_ ApplyCommitted].
  change (log_ (saved r)) with (log_ r). rewrite Htab.
  assert (take a (drop 1 (log_ (raft_ db))) = take a (take (Z.to_nat (commit_index_ r)) (drop 1 (log_ r)))) as ->.
  { rewrite take_take. replace (a `min` Z.to_nat (commit_index_ r))%nat with a by lia.
    assert (take (S a) (log_ (raft_ db)) = take (S a) (log_ r)) as E
      by (eapply take_S_le; [exact Hkeep|lia]).
    apply (f_equal (drop 1)) in E. rewrite !skipn_firstn_comm in E.
    by replace (S a - 1)%nat with a in E by lia. }
  rewrite <-foldl_app, <-fmap_app. by rewrite take_drop.
Qed.

(** ** The Raft cluster behind the databases *)

(** A call keeps what was committed on the node. *)
Lemma call_keeps_committed peers et ht n c i r ap :
  cluster_run peers et ht n c → Z.of_nat (S n) < 2 ^ 62 → i ∈ peers →
  node_call (network c) i (servers c i) (applied c i) r ap →
  commit_index_ (servers c i) ≤ commit_index_ r ∧
  take (S (Z.to_nat (commit_index_ (servers c i)))) (log_ (servers c i)) =
    take (S (Z.to_nat (commit_index_ (servers c i)))) (log_ r) ∧
  log_fits r ∧ 0 ≤ commit_index_ r < Z.of_nat (length (log_ r)) ∧
  cluster_run peers et ht (S n) (after_call c i r ap).
Proof.
  intros Hrun Hn Hi Hcall. destruct (run_csim _ _ _ _ _ Hrun) as (a & _ & Hsim).
  destruct Hrun as [Hnd Hpos Hs Hk].
  destruct (applied_steps _ _ _ Hnd Hpos _ _ Hs Hk i Hi) as [Hin Hh].
  destruct (seen_in_range _ _ _ _ _ _ _ _ Hsim Hk Hin) as (Hf & Hcm & _).
  assert (cluster_run peers et ht (S n) (after_call c i r ap)) as Hrun'.
  { split; [done|done| |lia]. eapply nsteps_r; [exact Hs|]. apply cluster_call; [done|by apply op_call]. }
  destruct (run_csim _ _ _ _ _ Hrun') as (a' & _ & Hsim').
  assert (∀ s, s ∈ seen c → s ∈ seen (after_call c i r ap)) as Hold by (intros s; apply subset_app).
  assert ((i, (TakeMessages (saved r)).2) ∈ seen (after_call c i r ap)) as Hnew
    by (apply in_snoc; by right).
  destruct (seen_in_range _ _ _ _ _ _ _ _ Hsim' Hn Hnew) as (Hf' & Hcm' & _).
  assert (commit_index_ (servers c i) ≤ commit_index_ r) as Hmono.
  { destruct Hcall as [|msg Hm Hto|data|]; [apply Tick_commits| |apply Propose_commits|done].
    apply Step_commits; [done|]. intros Ht.
    destruct (network_append_ok _ _ _ _ _ _ msg Hsim Hm Ht) as [(p & Hp & ?) ?].
    destruct (seen_in_range _ _ _ _ _ _ _ _ Hsim Hk Hin) as (_ & _ & Hl).
    split; [by exists p|lia]. }
  split; [done|]. split; [|split; [exact Hf'|split; [exact Hcm'|done]]].
  change (log_ r) with (log_ (TakeMessages (saved r)).2).
  eapply (seen_agree _ _ _ Hpos); [exact Hsim'|by apply Hold|exact Hnew|simpl; lia|simpl; lia].
Qed.

(** An entry that is the sentinel or holds one of the operations. *)
Definition from_ops (ops : list op) (e : LogEntry) : Prop :=
  e = sentinel ∨ ∃ o, o ∈ ops ∧ op_fits o ∧ e_data e = op_record o.

Lemma from_ops_mono ops ops' e : ops ⊆ ops' → from_ops ops e → from_ops ops' e.
Proof. intros Hs [->|(o & Ho & ?)]; [by left|]. right. exists o. auto. Qed.

Lemma carries_mono (P Q : LogEntry → Prop) r : (∀ e, P e → Q e) → carries P r → carries Q r.
Proof.
  intros HPQ [Hl Hm]. split; [by eapply Forall_impl|]. eapply Forall_impl; [exact Hm|].
  intros m. simpl. intros He. by eapply Forall_impl.
Qed.

Section refinement.
Context {K : Type} `{KernelSpec K} (members : list Z).
Context (members_nodup : NoDup members) (members_pos : ∀ p, p ∈ members → 0 < p).
Context (several : length members ≠ 1%nat).
Abbreviation cluster_run := (cluster_run members (λ _, 1) (λ _, 1)).
Implicit Types (rc : rcluster K) (c : cluster).

(** The nodes run the Raft cluster [c], which made [n] steps. *)
Record rsim (n : nat) rc c : Prop := {
  rs_run : cluster_run n c;
  rs_network : network c = rnetwork rc;
  rs_nodes : ∀ i db k, i ∈ members → replicas rc i = Some (db, k) → raft_ db = servers c i ∧ applies db;
  rs_entries : ∀ i, i ∈ members → carries (from_ops (issued rc)) (servers c i);
  rs_msgs : Forall (λ m, Forall (from_ops (issued rc)) (entries m)) (network c);
}.

Definition issued_after (a : rcall) (ops : list op) : list op :=
  match a with RWrite o => ops ++ [o] | _ => ops end.

(** The call as one of the Raft cluster. *)
Lemma called_node_call rc c i a :
  network c = rnetwork rc → enabled rc i a →
  node_call (network c) i (servers c i) (applied c i) (called a (servers c i)) (applied c i).
Proof.
  intros En. destruct a as [|msg|o]; simpl; [constructor| |constructor].
  rewrite En. intros [Hm Hto]. by apply op_step.
Qed.

Lemma called_carries rc c i a :
  enabled rc i a → network c = rnetwork rc → carries (from_ops (issued rc)) (servers c i) →
  Forall (λ m, Forall (from_ops (issued rc)) (entries m)) (network c) →
  carries (from_ops (issued_after a (issued rc))) (called a (servers c i)).
Proof.
  intros He En Hc Hm. assert (∀ ops, from_ops ops sentinel) as Hsent by by left.
  destruct a as [|msg|o]; simpl in *.
  - by apply Tick_carries.
  - apply Step_carries; [done..|]. rewrite Forall_forall in Hm. apply Hm. rewrite En. apply He.
  - apply Propose_carries; [eapply carries_mono; [|exact Hc]; intros e; apply from_ops_mono, subset_app|].
    right. exists o. split_and!; [apply elem_of_app; right; left|done|done].
Qed.

Lemma rsim_call n rc c i a db k store db' k' :
  rsim n rc c → Z.of_nat (S n) < 2 ^ 62 → i ∈ members → replicas rc i = Some (db, k) →
  enabled rc i a → db' = ApplyCommitted
    (mkReplicatedDB (saved (called a (raft_ db))) store (rtable_ db) (applied_index_ db)) →
  rsim (S n) (rafter rc i a db' k') (after_call c i (called a (servers c i)) (applied c i)).
Proof.
  intros [Hrun Hnet Hnodes Hent Hmsgs] Hn Hi Hdb He ->. destruct (Hnodes i db k Hi Hdb) as [Er Hap].
  pose proof (called_node_call rc c i a Hnet He) as Hcall. rewrite Er.
  destruct (call_keeps_committed _ _ _ _ _ _ _ _ Hrun Hn Hi Hcall) as (Hmono & Hkeep & Hf & Hcm & Hrun').
  pose proof (called_carries rc c i a He Hnet (Hent i Hi) Hmsgs) as Hcar.
  set (r := called a (servers c i)) in *. rewrite <-Er in Hmono, Hkeep.
  pose proof (applies_next db r store Hap Hf Hcm Hmono Hkeep) as Hap'.
  destruct (settled_carries _ r Hcar) as [Hcar' Hout].
  assert (∀ e, from_ops (issued rc) e → from_ops (issued_after a (issued rc)) e) as Hfo.
  { intros e. apply from_ops_mono. destruct a; [done|done|]. apply subset_app. }
  split; [done| | | |].
  - simpl. by rewrite Hnet.
  - intros j dbj kj Hj. simpl. destruct (decide (j = i)) as [->|Hne].
    + rewrite !fn_lookup_insert. intros [= <- <-]. split; [done|exact Hap'].
    + rewrite !fn_lookup_insert_ne by done. by apply Hnodes.
  - intros j Hj. simpl. destruct (decide (j = i)) as [->|Hne].
    + rewrite fn_lookup_insert. exact Hcar'.
    + rewrite fn_lookup_insert_ne by done. eapply carries_mono; [exact Hfo|by apply Hent].
  - simpl. apply Forall_app. split; [|exact Hout]. eapply Forall_impl; [exact Hmsgs|].
    intros m. simpl. intros Hm. by eapply Forall_impl.
Qed.

Lemma rsim_step n rc c rc' :
  rsim n rc c → Z.of_nat (S n) < 2 ^ 62 → rstep members rc rc' →
  ∃ n' c', (n' ≤ S n)%nat ∧ rsim n' rc' c'.
Proof.
  intros Hsim Hn [i a db k st db' k' Hi Hdb He Hrun Hok|i].
  - destruct (run_rcall_ok a db k st db' k' Hrun Hok) as (_ & store & ->).
    eexists (S n), _. split; [done|]. by eapply rsim_call.
  - exists n, c. split; [lia|]. destruct Hsim as [? ? Hnodes ? ?]. split; try done.
    intros j db k Hj. simpl. destruct (decide (j = i)) as [->|Hne].
    + by rewrite fn_lookup_insert.
    + rewrite fn_lookup_insert_ne by done. by apply Hnodes.
Qed.

(** A database opened without a log. *)
Lemma open_fresh dir i k0 db k :
  sys_access (log_path dir) k0 = false →
  ReplicatedDB_Open dir i members k0 = Some ((OK, Some db), k) →
  raft_ db = Raft_new (mkConfig i members 1 1) ∧ rtable_ db = ∅ ∧ applied_index_ db = 0 ∧
  (k_reliable k0 → store_open (storage_ db) k ∧ k_reliable k).
Proof.
  intros Hacc E. unfold ReplicatedDB_Open in E. fold (log_path dir) in E.
  apply bind_Some in E as ([s0 ost] & k1 & Eo & E). cbn [fst snd] in E.
  destruct (ok s0) eqn:O0; cbn [negb] in E; [|done].
  destruct ost as [store|]; [|done]. unfold RaftStorage_Recover in E. cbn [negb ok OK] in E.
  assert (recovered_hs_ store = mkHardState 0 0 ∧ recovered_entries_ store = [] ∧
          (k_reliable k0 → store_open store k1 ∧ k_reliable k1)) as (Eh & Ee & Hrel).
  { clear E. unfold RaftStorage_Open in Eo. apply bind_Some in Eo as (s1 & k2 & Em & Eo).
    destruct (ok s1) eqn:O1; cbn [negb] in Eo; [|done].
    assert (sys_access (log_path dir) k2 = false ∧ (k_reliable k0 → k_reliable k2)) as [Hacc2 Hr2].
    { unfold MakeDir in Em. pose proof (mkdir_spec k0 (ParentDir (log_path dir))) as Hm.
      pose proof (ParentDir_log_path dir).
      destruct (sys_mkdir _ k0) as [[[]|e] k3].
      - injection Em as _ <-. destruct Hm as (_ & _ & Hr & Ha). by rewrite Ha.
      - destruct Hm as (_ & _ & Hr & Hf & Ha). destruct (Z.eqb_spec e EEXIST).
        + injection Em as _ <-. rewrite Ha. auto.
        + by injection Em as <- _. }
    unfold bind at 1 in Eo. cbn [FileExists] in Eo. rewrite Hacc2 in Eo.
    unfold bind at 1 in Eo. cbn [ret fst snd] in Eo. change (ok OK) with true in Eo. cbn [negb] in Eo.
    unfold bind at 1 in Eo. cbn [FileExists] in Eo. rewrite Hacc2 in Eo.
    unfold bind at 1 in Eo. cbn [ret fst snd] in Eo. change (ok OK) with true in Eo. cbn [negb] in Eo.
    unfold bind, NewAppendableFile in Eo. pose proof (open_append_spec k2 (log_path dir)) as Ho.
    destruct (sys_open _ _ k2) as [[fd|e] k3]; [|by injection Eo as <- _ _].
    injection Eo as _ <- <-. split_and!; [done..|]. intros Hr0. destruct Ho as (_ & _ & Hfd & _ & Hp & _ & _ & Hr).
    split; [|by auto]. eexists _, _. split_and!; [done|done|apply Writer_new_ok|].
    split; [done|]. by eexists. }
  rewrite Eh, Ee in E. change (ok OK) with true in E. cbn [negb] in E.
  rewrite (proj2 (Z.eqb_neq _ _)) in E by lia. injection E as <- <-. by split_and!.
Qed.

Lemma rsim_init rc : rinit members rc →
  rsim 0 rc (cluster_init members (λ _, 1) (λ _, 1)).
Proof.
  intros [Hopen Hnet Hiss].
  assert (∀ i, carries (from_ops (issued rc)) (Raft_new (mkConfig i members 1 1))) as Hc.
  { intros i. split; simpl; [|constructor]. by constructor; [left|constructor]. }
  split; [| | |intros i _; exact (Hc i)|constructor].
  - split; [done|done|constructor|done].
  - by rewrite Hnet.
  - intros i db k Hi Hdb. destruct (Hopen i Hi) as (dir & k0 & db' & k' & Hdb' & Hacc & Eo).
    rewrite Hdb in Hdb'. injection Hdb' as <- <-.
    destruct (open_fresh dir i k0 db k Hacc Eo) as (Er & Et & Ea & _). split; [done|].
    exists 0%nat. rewrite Er, Et, Ea. by split_and!.
Qed.

Lemma rsim_steps n rc0 rc : rinit members rc0 → nsteps (rstep members) n rc0 rc →
  Z.of_nat n < 2 ^ 62 → ∃ m c, (m ≤ n)%nat ∧ rsim m rc c.
Proof.
  intros Hinit. revert rc. induction n as [|n IH]; intros rc Hn Hlt.
  - inversion Hn; subst. eexists 0%nat, _. split; [done|by apply rsim_init].
  - apply nsteps_inv_r in Hn as (rc1 & Hn & Hstep). destruct (IH rc1 Hn) as (m & c & Hm & Hs); [lia|].
    destruct (rsim_step m rc1 c rc Hs ltac:(lia) Hstep) as (m' & c' & Hm' & Hs').
    exists m', c'. split; [lia|done].
Qed.

(** *** One order of operations *)

(** Entries that hold operations. *)
Lemma entries_ops ops (es : list LogEntry) :
  Forall (λ e, ∃ o, o ∈ ops ∧ op_fits o ∧ e_data e = op_record o) es →
  ∃ os, e_data <$> es = op_record <$> os ∧ os ⊆ ops ∧ Forall op_fits os.
Proof.
  induction 1 as [|e es (o & Ho & Hfit & Ee) _ (os & E & Hsub & Hfits)].
  { exists []. split_and!; [done| |constructor]. by intros x ?%not_elem_of_nil. }
  exists (o :: os). split_and!; [by rewrite !fmap_cons, Ee, E| |by constructor].
  intros x [->|Hx]%elem_of_cons; auto.
Qed.

(** The entries of a node after the sentinel. *)
Lemma node_ops n rc c i : rsim n rc c → i ∈ members →
  Forall (λ e, ∃ o, o ∈ issued rc ∧ op_fits o ∧ e_data e = op_record o) (drop 1 (log_ (servers c i))).
Proof.
  intros [Hrun _ _ Hent _] Hi. destruct (run_csim _ _ _ _ _ Hrun) as (a & _ & [[HI HL _ _] _ Hn _ _ _]).
  destruct (Hn i Hi) as (Hc & _). pose proof (lg_wf _ HL _ _ (inv_cur _ _ HI i Hi)) as Hwf.
  apply Forall_lookup_2. intros m e He. rewrite lookup_drop in He.
  pose proof (proj1 (Forall_lookup _ _) (ca_log _ _ (Hent i Hi)) _ _ He) as [->|?]; [|done].
  rewrite <-(core_log _ _ Hc) in He. apply (wf_indexed _ Hwf) in He. simpl in He. lia.
Qed.

Lemma max_element {A} (f : A → Z) (xs : list A) : xs ≠ [] → ∃ m, m ∈ xs ∧ ∀ x, x ∈ xs → f x ≤ f m.
Proof.
  induction xs as [|x xs IH]; [done|]. intros _. destruct (decide (xs = [])) as [->|Hne].
  { exists x. split; [left|]. by intros y ->%list_elem_of_singleton. }
  destruct (IH Hne) as (m & Hm & Hmax). destruct (decide (f x ≤ f m)).
  - exists m. split; [by right|]. intros y [->|Hy]%elem_of_cons; auto.
  - exists x. split; [left|]. intros y [->|Hy]%elem_of_cons; [done|]. specialize (Hmax y Hy). lia.
Qed.

(** What two nodes have applied, the second at least as much as the first. *)
Lemma applied_agree n rc c i j a : rsim n rc c → i ∈ members → j ∈ members →
  Z.of_nat a ≤ commit_index_ (servers c i) → Z.of_nat a ≤ commit_index_ (servers c j) →
  take a (drop 1 (log_ (servers c i))) = take a (drop 1 (log_ (servers c j))).
Proof.
  intros [Hrun _ _ _ _] Hi Hj Ha Ha'. destruct (run_csim _ _ _ _ _ Hrun) as (s & _ & Hsim).
  destruct Hrun as [Hnd Hpos Hs Hk].
  destruct (applied_steps _ _ _ Hnd Hpos _ _ Hs Hk i Hi) as [Si _].
  destruct (applied_steps _ _ _ Hnd Hpos _ _ Hs Hk j Hj) as [Sj _].
  pose proof (seen_agree _ _ _ Hpos _ _ _ _ _ _ _ a Hsim Si Sj Ha Ha') as E.
  apply (f_equal (drop 1)) in E. rewrite !skipn_firstn_comm in E.
  by replace (S a - 1)%nat with a in E by lia.
Qed.


(** *** Progress on working nodes *)

Definition all_working rc : Prop :=
  ∀ i, i ∈ members → ∃ db k, replicas rc i = Some (db, k) ∧ working db k.

(** The nodes follow a call of the Raft cluster. *)
Lemma follow_rcall n rc c i a :
  rsim n rc c → all_working rc → Z.of_nat (S n) < 2 ^ 62 → i ∈ members → enabled rc i a →
  (∀ o, a = RWrite o → role_ (servers c i) = kLeader) →
  ∃ rc', rstep members rc rc' ∧ all_working rc' ∧
    rsim (S n) rc' (after_call c i (called a (servers c i)) (applied c i)).
Proof.
  intros Hsim Hw Hn Hi He Hlead. destruct (Hw i Hi) as (db & k & Hdb & Hwork).
  destruct (rs_nodes _ _ _ Hsim i db k Hi Hdb) as [Er _]. rewrite <-Er in Hlead.
  destruct (run_rcall_working a db k Hwork Hlead) as (db' & k' & Erun & Hwork').
  exists (rafter rc i a db' k'). split; [by eapply rstep_call|]. split.
  - intros j Hj. simpl. destruct (decide (j = i)) as [->|Hne].
    + rewrite fn_lookup_insert. by eexists _, _.
    + rewrite fn_lookup_insert_ne by done. by apply Hw.
  - destruct (run_rcall_ok a db k OK db' k' Erun eq_refl) as (_ & store & Edb).
    by eapply rsim_call.
Qed.

Lemma follow_quiet n rc c i es c' :
  rsim n rc c → all_working rc → Z.of_nat (n + length es) < 2 ^ 62 →
  Forall (quiet i) es → exec members es c = Some c' →
  ∃ rc', nsteps (rstep members) (length es) rc rc' ∧ all_working rc' ∧ rsim (n + length es) rc' c'.
Proof.
  intros Hsim Hw Hn Hq. revert n rc c Hsim Hw Hn.
  induction Hq as [|e es He Hq IH]; intros n rc c Hsim Hw Hn; simpl.
  { intros [= ->]. exists rc. rewrite Nat.add_0_r. by split; [constructor|]. }
  destruct (exec_event members c e) as [c1|] eqn:E; simpl; [|done]. intros Hes.
  assert (∃ j a, j ∈ members ∧ enabled rc j a ∧ (∀ o, a ≠ RWrite o) ∧
            c1 = after_call c j (called a (servers c j)) (applied c j)) as (j & a & Hj & Ha & Hno & ->).
  { unfold exec_event in E. destruct He as [->|[m ->]]; simpl in E.
    - case_bool_decide; [|done]. injection E as <-. by exists i, RTick.
    - destruct (network c !! m) as [msg|] eqn:Em; simpl in E; [|done].
      case_bool_decide; [|done]. injection E as <-. exists (m_to msg), (RStep msg).
      split_and!; [done|split; [|done]|done|done]. rewrite <-(rs_network _ _ _ Hsim).
      by eapply list_elem_of_lookup_2. }
  simpl in Hn. destruct (follow_rcall n rc c j a Hsim Hw ltac:(lia) Hj Ha) as (rc1 & Hs1 & Hw1 & Hsim1).
  { intros o Eo. by destruct (Hno o). }
  destruct (IH (S n) rc1 _ Hsim1 Hw1 ltac:(lia) Hes) as (rc' & Hs & Hw' & Hsim').
  exists rc'. rewrite Nat.add_succ_r. by split; [eapply nsteps_l|].
Qed.

(** What a node serves that has committed its log up to its last entry. *)
Lemma serves_log n rc c j db k log e ops o :
  rsim n rc c → j ∈ members → replicas rc j = Some (db, k) → log ≠ [] →
  log ++ [e] `prefix_of` log_ (servers c j) → commit_index_ (servers c j) = Z.of_nat (length log) →
  e_data <$> drop 1 log = op_record <$> ops → e_data e = op_record o → Forall op_fits (ops ++ [o]) →
  ∀ key value, ReplicatedDB_Get key value db = spec_get (apply_ops (ops ++ [o])) key value.
Proof.
  intros Hsim Hj Hdb Hne [more Epre] Hcom Eops Eo Hfit.
  destruct (rs_nodes _ _ _ Hsim j db k Hj Hdb) as [Ej (a & Ea & Ec & Etab)].
  rewrite Ej in Ec, Etab. assert (a = length log) as -> by lia.
  assert (take (length log) (drop 1 (log_ (servers c j))) = drop 1 log ++ [e]) as Et.
  { rewrite Epre. destruct log as [|e0 log]; [done|].
    change (take (length (e0 :: log)) ((log ++ [e]) ++ more) = log ++ [e]).
    rewrite take_app_length' by (rewrite length_app; simpl; lia). done. }
  assert (rtable_ db = apply_ops (ops ++ [o])) as Etab'.
  { rewrite Etab, Et, fmap_app, Eops. unfold apply_ops. rewrite <-apply_commands_ops by done.
    rewrite fmap_app. simpl. by rewrite Eo. }
  intros key value. unfold ReplicatedDB_Get, spec_get. rewrite Etab'. by destruct (_ !! key).
Qed.

End refinement.

(** ** Executable schedules *)

Inductive revent : Type :=
  | VTick (i : Z) | VDeliver (m : nat) | VWrite (i : Z) (o : op) | VStop (i : Z).

#[export] Instance op_fits_dec o : Decision (op_fits o).
Proof. unfold op_fits. apply _. Defined.

Section schedules.
Context {K : Type} `{Kernel K} (members : list Z).
Implicit Types (c : rcluster K).

(** The node and the call of an event. *)
Definition rcall_of c (e : revent) : option (Z * rcall) :=
  match e with
  | VTick i => Some (i, RTick)
  | VDeliver m => msg ← rnetwork c !! m; Some (m_to msg, RStep msg)
  | VWrite i o => if bool_decide (op_fits o) then Some (i, RWrite o) else None
  | VStop _ => None
  end.

Definition rexec_event c (e : revent) : option (rcluster K) :=
  match e with
  | VStop i => Some (mkRcluster (<[i := None]> (replicas c)) (rnetwork c) (issued c))
  | _ =>
      '(i, a) ← rcall_of c e;
      s ← replicas c i;
      '(st, (db, k)) ← run_rcall a s;
      if bool_decide (i ∈ members) && ok st then Some (rafter c i a db k) else None
  end.

Fixpoint rexec (es : list revent) c : option (rcluster K) :=
  match es with
  | [] => Some c
  | e :: es => c' ← rexec_event c e; rexec es c'
  end.

Lemma rcall_of_enabled c e i a : rcall_of c e = Some (i, a) → enabled c i a.
Proof.
  destruct e as [j|m|j o|j]; simpl; [by intros [= <- <-]| | |done].
  - destruct (rnetwork c !! m) as [msg|] eqn:E; simpl; [|done]. intros [= <- <-].
    split; [by eapply list_elem_of_lookup_2|done].
  - case_bool_decide; [|done]. by intros [= <- <-].
Qed.

Lemma rexec_event_step c e c' : rexec_event c e = Some c' → rstep members c c'.
Proof.
  assert (∀ o, o = rcall_of c e → ('(i, a) ← o; s ← replicas c i; '(st, (db, k)) ← run_rcall a s;
    if bool_decide (i ∈ members) && ok st then Some (rafter c i a db k) else None) = Some c' →
    rstep members c c') as Hcall.
  { intros [[i a]|] Eo; simpl; [|done]. symmetry in Eo.
    destruct (replicas c i) as [[db k]|] eqn:Er; simpl; [|done].
    destruct (run_rcall a (db, k)) as [[st [db' k']]|] eqn:Ec; simpl; [|done].
    case_bool_decide; simpl; [|done]. destruct (ok st) eqn:Es; [|done]. intros [= <-].
    by eapply rstep_call; eauto using rcall_of_enabled. }
  destruct e; try (by apply Hcall). intros [= <-]. constructor.
Qed.

Lemma rexec_steps es c c' : rexec es c = Some c' → nsteps (rstep members) (length es) c c'.
Proof.
  revert c. induction es as [|e es IH]; intros c; simpl; [intros [= ->]; constructor|].
  destruct (rexec_event c e) as [c1|] eqn:E; simpl; [|done]. intros Hes.
  eapply nsteps_l; [exact (rexec_event_step _ _ _ E)|by apply IH].
Qed.
End schedules.

(** Working nodes go on working in a schedule without stops. *)
Lemma rexec_event_working {K} `{KernelSpec K} members (c c' : rcluster K) e :
  rexec_event members c e = Some c' → (∀ i, e ≠ VStop i) → all_working members c → all_working members c'.
Proof.
  intros E Hno Hw. assert (('(i, a) ← rcall_of c e; s ← replicas c i; '(st, (db, k)) ← run_rcall a s;
    if bool_decide (i ∈ members) && ok st then Some (rafter c i a db k) else None) = Some c') as E'.
  { destruct e; [exact E..|]. by destruct (Hno i). }
  clear E. destruct (rcall_of c e) as [[i a]|]; simpl in E'; [|done].
  destruct (replicas c i) as [[db k]|] eqn:Er; simpl in E'; [|done].
  destruct (run_rcall a (db, k)) as [[st [db1 k1]]|] eqn:Ec; simpl in E'; [|done].
  case_bool_decide as Hi; simpl in E'; [|done]. destruct (ok st) eqn:Est; [|done]. injection E' as <-.
  destruct (run_rcall_ok a db k st db1 k1 Ec Est) as [Hlead _].
  destruct (Hw i Hi) as (db0 & k0 & Er' & Hwork). rewrite Er in Er'. injection Er' as <- <-.
  destruct (run_rcall_working a db k Hwork Hlead) as (db' & k' & Ec' & Hwork').
  rewrite Ec in Ec'. injection Ec' as _ <- <-.
  intros j Hj. simpl. destruct (decide (j = i)) as [->|Hne].
  - rewrite fn_lookup_insert. by eexists _, _.
  - rewrite fn_lookup_insert_ne by done. by apply Hw.
Qed.

Lemma rexec_working {K} `{KernelSpec K} members es (c c' : rcluster K) :
  rexec members es c = Some c' → Forall (λ e, ∀ i, e ≠ VStop i) es →
  all_working members c → all_working members c'.
Proof.
  intros E Hes. revert c E. induction Hes as [|e es He Hes IH]; intros c; simpl; [by intros [= ->]|].
  destruct (rexec_event members c e) as [c1|] eqn:E1; simpl; [|done]. intros E Hw.
  eapply IH; [exact E|]. by eapply rexec_event_working.
Qed.

(** ** A cluster of three nodes *)

Definition trio : list Z := [1; 2; 3].

Definition trio_node (i : Z) : option (ReplicatedDB * MemKernel) :=
  match ReplicatedDB_Open demo_dir i trio fresh_kernel with
  | Some ((_, Some db), k) => Some (db, k)
  | _ => None
  end.

Definition trio_start : rcluster MemKernel := mkRcluster trio_node [] [].

(** Node 1 is elected, writes a key and replicates it to node 2; node 3 stops. *)
Definition trio_schedule : list revent :=
  [VTick 1; VDeliver 0; VDeliver 2; VWrite 1 (OpPut (str "k") (str "v"));
   VTick 1; VDeliver 5; VDeliver 7; VTick 1; VDeliver 8; VStop 3].

Lemma trio_opened i : i ∈ trio → ∃ db k, trio_node i = Some (db, k) ∧
  ReplicatedDB_Open demo_dir i trio fresh_kernel = Some ((OK, Some db), k).
Proof.
  intros Hi.
  assert (∃ db k, ReplicatedDB_Open demo_dir i trio fresh_kernel = Some ((OK, Some db), k)) as (db & k & E).
  { repeat (apply elem_of_cons in Hi as [->|Hi]; [eexists _, _; vm_compute; reflexivity|]).
    by apply not_elem_of_nil in Hi. }
  exists db, k. split; [|exact E]. unfold trio_node. by rewrite E.
Qed.

Lemma trio_init : rinit trio trio_start.
Proof.
  split; [|done|done]. intros i Hi. destruct (trio_opened i Hi) as (db & k & En & E).
  exists demo_dir, fresh_kernel, db, k. split; [exact En|]. split; [reflexivity|exact E].
Qed.

Lemma trio_several : NoDup trio ∧ (∀ p, p ∈ trio → 0 < p) ∧ length trio ≠ 1%nat.
Proof.
  split; [apply (bool_decide_unpack (NoDup trio)); vm_compute; exact I|]. split; [|discriminate].
  apply Forall_forall, (bool_decide_unpack _). vm_compute. exact I.
Qed.

Lemma trio_working : all_working trio trio_start.
Proof.
  destruct trio_several as (_ & _ & Hs). intros i Hi. destruct (trio_opened i Hi) as (db & k & En & E).
  exists db, k. split; [exact En|]. 
  assert (sys_access (log_path demo_dir) fresh_kernel = false) as Ha by reflexivity.
  destruct (open_fresh trio Hs demo_dir i fresh_kernel db k Ha E) as (_ & _ & _ & Hw).
  apply Hw. constructor.
Qed.

(** The applied indices of the nodes that are still driven. *)
Definition applied_indices {K} (rc : rcluster K) : list (option Z) :=
  (λ i, applied_index_ ∘ fst <$> replicas rc i) <$> trio.



(** An operation that [Put] accepted need not be applied: node 2 wins term 2 with
    the vote of node 3 and overwrites the entry that node 1, the leader of term
    1, has not replicated.  All nodes have applied one operation, the later one. *)
Example accepted_write_overwritten :
  (λ rc, (issued rc, (λ i, (λ s, (applied_index_ s.1, ReplicatedDB_Get (str "k") [] s.1)) <$> replicas rc i) <$> trio)) <$>
    rexec trio [VTick 1; VDeliver 0; VDeliver 2; VWrite 1 (OpPut (str "k") (str "v"));
      VTick 2; VDeliver 6; VDeliver 7; VWrite 2 (OpPut (str "k") (str "w"));
      VTick 2; VDeliver 10; VDeliver 11; VDeliver 12; VDeliver 13;
      VTick 2; VDeliver 14; VDeliver 15] trio_start =
  Some ([OpPut (str "k") (str "v"); OpPut (str "k") (str "w")], (λ _, Some (1, (OK, str "w"))) <$> trio).
Proof. vm_compute. reflexivity. Qed.

(** ** A restart of one of several nodes *)

(** Node [i] is closed and opened again on its directory. *)
Definition reopen (i : Z) (c : rcluster MemKernel) : option (rcluster MemKernel) :=
  '(db, k) ← replicas c i;
  '((_, o), k) ← ReplicatedDB_Open demo_dir i trio (ReplicatedDB_destroy db k);
  db ← o;
  Some (mkRcluster (<[i := Some (db, k)]> (replicas c)) (rnetwork c) (issued c)).

Definition served {K} (keys : list bytes) (c : rcluster K) : list (option (Z * Z * list (Status * bytes))) :=
  (λ i, (λ s, (applied_index_ s.1, commit_index_ (raft_ s.1), (λ key, ReplicatedDB_Get key [] s.1) <$> keys))
        <$> replicas c i) <$> trio.

(** [Open] applies every recovered entry, whether it was committed or not, which
    is exact on a single node only (replicated_db.h says so).  With several
    nodes: node 1, the leader of term 1, has accepted a write of [a] and has
    replicated it to nobody when it is closed and opened again, and serves it,
    with a commit index of 0.  Node 2 is then elected by node 3 and writes [b],
    which replaces the entry on all nodes: the write of [a] was never committed
    and is in no log any more, but node 1 goes on serving it and the other nodes
    never do. *)
Theorem reopen_serves_uncommitted :
  let restarted := rexec trio [VTick 1; VDeliver 0; VDeliver 2; VWrite 1 (OpPut (str "a") (str "v"))] trio_start ≫= reopen 1 in
  served [str "a"; str "b"] <$> restarted =
    Some [Some (1, 0, [(OK, str "v"); (NotFound (str "b"), [])]);
          Some (0, 0, [(NotFound (str "a"), []); (NotFound (str "b"), [])]);
          Some (0, 0, [(NotFound (str "a"), []); (NotFound (str "b"), [])])] ∧
  served [str "a"; str "b"] <$>
    (restarted ≫= rexec trio [VTick 2; VDeliver 6; VDeliver 7; VWrite 2 (OpPut (str "b") (str "w"));
       VTick 2; VDeliver 10; VDeliver 11; VDeliver 12; VDeliver 13; VTick 2; VDeliver 14; VDeliver 15]) =
    Some [Some (1, 1, [(OK, str "v"); (OK, str "w")]);
          Some (1, 1, [(NotFound (str "a"), []); (OK, str "w")]);
          Some (1, 1, [(NotFound (str "a"), []); (OK, str "w")])].
Proof. split; vm_compute; reflexivity. Qed.
