(* ===== verification/Tests.v ===== *)
(** * The test suite (test/)

    The unit tests of the repository, run in the model: the harnesses they use,
    and each test as an evaluation of the definitions of the other files.  They
    show that the model computes on concrete inputs what the tests expect of the
    program.  The tests on temporary directories run on [MemKernel].  One test,
    with 5000 records, is proved from the lemmas about the engine instead of
    being evaluated.  The one that only tests that the build works is not here. *)

From S2P Require Import Prelude Status Coding Crc32c Files WalFormat WalWriter WalReader.
From S2P Require Import WalRecovery EnvPosix MemKernel PosixLog Db DbTheorems Bench Raft Storage.
From S2P Require Import ReplicatedDb ReplicatedDbTheorems ReplicatedCluster.
Local Open Scope Z_scope.

Ltac run_test := vm_compute; reflexivity.

(** ** test/sanity_test.cc *)

Module SanityTest.

Example BasicOps :
  let a := Slice_of_c_string (str "hello") in
  let b := str "hello" in
  let c := Slice_of_c_string (str "world") in
  (Slice_size a, Slice_empty a, Slice_ToString a, Slice_eqb a b, Slice_neqb a c) =
  (5, false, str "hello", true, true).
Proof. run_test. Qed.

Example OkAndErrors :
  let nf := NotFound (str "missing key") in
  (ok OK, ok nf, IsNotFound nf, Status_ToString nf) = (true, false, true, str "NotFound: missing key").
Proof. run_test. Qed.

End SanityTest.

(** ** test/crc32c_test.cc *)

Module Crc32cTest.

Example EmptyIsZero : Value [] = 0.
Proof. run_test. Qed.

Example CanonicalCheckValue : Value (str "123456789") = 0xE3069283.
Proof. run_test. Qed.

Example ExtendChainsLikeConcatenation :
  Value (str "hello world") = Extend (Value (str "hello ")) (str "world").
Proof. run_test. Qed.

Example ValueIsExtendFromZero :
  Value (str "the quick brown fox") = Extend 0 (str "the quick brown fox").
Proof. run_test. Qed.

Example DifferentDataDiffersFromEmpty :
  (Value (str "a") =? Value [], Value (str "a") =? Value (str "b")) = (false, false).
Proof. run_test. Qed.

Example MaskRoundTrips :
  let crcs := [0; 1; 0xE3069283; 0xffffffff; 0x12345678] in
  (Unmask ∘ Mask <$> crcs) = crcs.
Proof. run_test. Qed.

Example MaskChangesTheValue :
  (Mask (Value (str "some payload")) =? Value (str "some payload")) = false.
Proof. run_test. Qed.

End Crc32cTest.

(** ** test/wal_writer_test.cc and test/wal_reader_test.cc *)

Module WalTest.

(** [WriteRecords] *)
Definition WriteRecords (payloads : list bytes) : option bytes :=
  s ← foldl (λ s p, s ← s; '(st, s) ← AddRecord p s; if ok st then Some s else None)
        (Some (Writer_new_empty, mkStringDest [])) payloads;
  Some (contents_ s.2).

(** [ReadAll]: the records and the reporter. *)
Definition TestReadAll (log : bytes) : option (list bytes * TestReporter) :=
  '(recs, (rd, _)) ← ForEachRecord (λ out record, out ++ [Slice_ToString record]) []
    (Reader_new (Some (mkTestReporter 0 0 [])), mkStringSource log 0);
  reporter ← reporter_ rd;
  Some (recs, reporter).

(** [log[i] ^= 0xff] *)
Definition flip (i : nat) (log : bytes) : bytes :=
  alter (λ b, byte_of_Z (Z.lxor (byte_to_Z b) 0xff)) i log.

(** The walk of [ParseAll] over the log, with the type and the payload of every
    physical record; [None] when a checksum is not that of the record. *)
Fixpoint ParseAll_loop (fuel : nat) (pos : Z) (log : bytes) : option (list (Z * bytes)) :=
  match fuel with
  | O => None
  | S fuel =>
      if Z.of_nat (length log) <? kHeaderSize then Some []
      else
        let block_off := pos mod kBlockSize in
        let length := Z.lor (byte_to_Z (log !!! 4%nat)) (Z.shiftl (byte_to_Z (log !!! 5%nat)) 8) in
        let type := byte_to_Z (log !!! 6%nat) in
        if (kBlockSize - block_off <? kHeaderSize) || ((type =? RecordType_value kZeroType) && (length =? 0)) then
          ParseAll_loop fuel (pos + (kBlockSize - block_off)) (drop (Z.to_nat (kBlockSize - block_off)) log)
        else
          let stored_crc := DecodeFixed32 log in
          let data := take (Z.to_nat length) (drop (Z.to_nat kHeaderSize) log) in
          let crc := Extend (Value [byte_of_Z type]) data in
          if negb (stored_crc =? Mask crc) then None
          else
            recs ← ParseAll_loop fuel (pos + kHeaderSize + length) (drop (Z.to_nat (kHeaderSize + length)) log);
            Some ((type, data) :: recs)
  end.

(** Every iteration moves on by a header or to the next block. *)
Definition ParseAll (log : bytes) : option (list (Z * bytes)) := ParseAll_loop (length log + 1) 0 log.

Definition full (payload : bytes) : Z * bytes := (RecordType_value kFullType, payload).

Example EmptyRecordEmitsOneFull :
  (λ log, (ParseAll log, length log)) <$> WriteRecords [[]] = Some (Some [full []], 7%nat).
Proof. run_test. Qed.

Example SmallRecordParses : WriteRecords [str "hello wal"] ≫= ParseAll = Some [full (str "hello wal")].
Proof. run_test. Qed.

Example MultipleRecordsPackTogether :
  let payloads := [str "a"; str "bb"; str "ccc"; str "dddd"] in
  WriteRecords payloads ≫= ParseAll = Some (full <$> payloads).
Proof. run_test. Qed.

(** 100000 letters, the [i]-th of which is ['A' + i % 26]. *)
Definition letters : bytes :=
  take (Z.to_nat 100000) (mjoin (replicate (Z.to_nat 3847) ((λ i, byte_of_Z (65 + i)) <$> seqZ 0 26))).

Example LargeRecordFragmentsAcrossBlocks :
  let recs := default [] (WriteRecords [letters] ≫= ParseAll) in
  (recs.*1, bool_decide (mjoin recs.*2 = letters)) =
  ([RecordType_value kFirstType; RecordType_value kMiddleType; RecordType_value kMiddleType;
    RecordType_value kLastType], true).
Proof. run_test. Qed.

Example LargeFragmentedRecordReassembles :
  (λ '(recs, reporter), (bool_decide (recs = [letters]), count_ reporter)) <$>
    (WriteRecords [letters] ≫= TestReadAll) = Some (true, 0).
Proof. run_test. Qed.

Example TailShorterThanHeaderIsZeroPadded :
  let gap := kHeaderSize - 1 in
  let first_payload := replicate (Z.to_nat (kBlockSize - kHeaderSize - gap)) (byte_of_Z 120) in
  (λ log, (bool_decide (ParseAll log = Some [full first_payload; full (str "second")]),
           kBlockSize + kHeaderSize + 6 <=? Z.of_nat (length log))) <$>
    WriteRecords [first_payload; str "second"] = Some (true, true).
Proof. run_test. Qed.

Example EmptyRecordRoundTrips : WriteRecords [[]] ≫= TestReadAll = Some ([[]], mkTestReporter 0 0 []).
Proof. run_test. Qed.

Example SmallRecordRoundTrips :
  WriteRecords [str "hello wal"] ≫= TestReadAll = Some ([str "hello wal"], mkTestReporter 0 0 []).
Proof. run_test. Qed.

Example MultipleRecordsReadInOrder :
  let payloads := [str "a"; str "bb"; str "ccc"; str "dddd"] in
  WriteRecords payloads ≫= TestReadAll = Some (payloads, mkTestReporter 0 0 []).
Proof. run_test. Qed.

(** The whole record, 7 + 19 bytes, is dropped. *)
Example CorruptedPayloadIsReportedAndDropped :
  (flip 10 <$> WriteRecords [str "the quick brown fox"]) ≫= TestReadAll =
  Some ([], mkTestReporter 1 26 (str "checksum mismatch")).
Proof. run_test. Qed.

Example GoodRecordSurvivesTrailingCorruption :
  (λ '(recs, reporter), (recs, count_ reporter)) <$>
    ((flip (7 + 7 + 7 + 1) <$> WriteRecords [str "keep-me"; str "drop-me"]) ≫= TestReadAll) =
  Some ([str "keep-me"], 1).
Proof. run_test. Qed.

Example TruncatedTailReturnsCleanEof :
  (take (7 + 50) <$> WriteRecords [replicate 200 (byte_of_Z 0x7a)]) ≫= TestReadAll =
  Some ([], mkTestReporter 0 0 []).
Proof. run_test. Qed.

End WalTest.

(** ** test/db_test.cc *)

Module DBTest.

(** A test that opens the database, performs writes and deletes the object, and
    so on; at the end it opens the database and reads keys. *)
Definition session (ops : list op) (k : MemKernel) : option MemKernel :=
  match DB_Open (mkOptions true) demo_path k with
  | Some ((s, Some db), k) =>
      '(db, k) ← foldl (λ s o, s ← s; '(st, s) ← op_write o s; if ok st then Some s else None)
                   (Some (db, k)) ops;
      if ok s then Some (DBImpl_destroy db k) else None
  | _ => None
  end.

(** What [Get] returns for the keys when the database was opened again. *)
Definition gets (keys : list bytes) (k : MemKernel) : option (list (Status * bytes)) :=
  match DB_Open (mkOptions true) demo_path k with
  | Some ((s, Some db), _) => Some ((λ key, Get key [] db) <$> keys)
  | _ => None
  end.

(** The same without closing the database. *)
Definition live (ops : list op) (keys : list bytes) (k : MemKernel) : option (list (Status * bytes)) :=
  match DB_Open (mkOptions true) demo_path k with
  | Some ((s, Some db), k) =>
      '(db, _) ← foldl (λ s o, s ← s; '(st, s) ← op_write o s; if ok st then Some s else None)
                   (Some (db, k)) ops;
      Some ((λ key, Get key [] db) <$> keys)
  | _ => None
  end.

(** On the log of [base] of a working kernel, sessions and reads do what they
    say, whatever the number of operations. *)
Lemma session_spec base ops k :
  k_reliable k → db_clean demo_path base k → Forall op_fits ops →
  ∃ k', session ops k = Some k' ∧ k_reliable k' ∧ db_clean demo_path (base ++ ops) k'.
Proof.
  intros Hrel Hclean Hops. destruct (DB_Open_clean demo_path base k Hrel Hclean) as (db & k1 & E & Hrel1 & Hinv).
  unfold session. rewrite E.
  assert (∃ db' k', foldl (λ s o, s ← s; '(st, s) ← op_write o s; if ok st then Some s else None)
    (Some (db, k1)) ops = Some (db', k') ∧ k_reliable k' ∧ db_inv demo_path (base ++ ops) (db', k'))
    as (db' & k' & -> & Hrel' & Hinv').
  { clear E Hclean. revert base db k1 Hrel1 Hinv.
    induction Hops as [|o ops Ho _ IH]; intros base db k1 Hrel1 Hinv.
    { exists db, k1. by rewrite app_nil_r. }
    destruct (op_write_spec demo_path base o db k1 Hinv Ho) as (st & db2 & k2 & E2 & _ & Hok & _ & Hr).
    destruct (Hr Hrel1) as [Ok Hrel2]. destruct (Hok Ok) as [_ Hinv2]. simpl. rewrite E2. simpl. rewrite Ok.
    destruct (IH _ _ _ Hrel2 Hinv2) as (db3 & k3 & E3 & ?). rewrite <-app_assoc in *. by exists db3, k3. }
  exists (DBImpl_destroy db' k'). split_and!; [done|by apply DBImpl_destroy_spec|by apply destroy_clean].
Qed.

Lemma gets_spec base keys k :
  k_reliable k → db_clean demo_path base k →
  gets keys k = Some ((λ key, spec_get (apply_ops base) key []) <$> keys).
Proof.
  intros Hrel Hclean. destruct (DB_Open_clean demo_path base k Hrel Hclean) as (db & k1 & E & _ & Hinv).
  unfold gets. rewrite E. f_equal. apply list_fmap_ext. intros _ key _. unfold Get, spec_get.
  destruct Hinv as (_ & Htab & _). simpl in Htab. rewrite Htab. by destruct (_ !! key).
Qed.

Definition many_puts : list op :=
  (λ i, OpPut (str "key" ++ decimal i) (str "value" ++ decimal i)) <$> seqZ 0 5000.

Example RecoversManyRecordsAcrossBlocks :
  (session many_puts empty_kernel ≫= session [OpPut (str "after") (str "reopen")]) ≫=
    gets [str "key0"; str "key4999"; str "after"] =
  Some [(OK, str "value0"); (OK, str "value4999"); (OK, str "reopen")].
Proof.
  assert (Forall op_fits many_puts) as Hfits by (apply (bool_decide_unpack _); vm_compute; exact I).
  assert (db_clean demo_path [] empty_kernel) as Hclean.
  { split; [|done]. split; [constructor|]. right. split_and!; [vm_compute; reflexivity|done|done]. }
  destruct (session_spec [] many_puts empty_kernel) as (k1 & -> & Hrel1 & Hc1); [constructor|done..|].
  destruct (session_spec _ [OpPut (str "after") (str "reopen")] k1 Hrel1 Hc1) as (k2 & E2 & Hrel2 & Hc2);
    [by repeat constructor|].
  cbn [mbind option_bind]. rewrite E2. cbn [mbind option_bind]. rewrite (gets_spec _ _ _ Hrel2 Hc2).
  vm_compute. reflexivity.
Qed.

Definition three_puts : list op :=
  [OpPut (str "a") (str "1"); OpPut (str "b") (str "2"); OpPut (str "c") (str "3")].

Example PutGetAndMissingKey :
  live [OpPut (str "name") (str "kiro")] [str "name"; str "absent"] empty_kernel =
  Some [(OK, str "kiro"); (NotFound (str "absent"), [])].
Proof. run_test. Qed.

Example DeleteRemovesKey :
  live [OpPut (str "k") (str "v"); OpDelete (str "k")] [str "k"] empty_kernel =
  Some [(NotFound (str "k"), [])].
Proof. run_test. Qed.

Example OverwriteReturnsLatestValue :
  live [OpPut (str "k") (str "first"); OpPut (str "k") (str "second")] [str "k"] empty_kernel =
  Some [(OK, str "second")].
Proof. run_test. Qed.

Example RecoversDataAfterReopen :
  session three_puts empty_kernel ≫= gets [str "a"; str "b"; str "c"] =
  Some [(OK, str "1"); (OK, str "2"); (OK, str "3")].
Proof. run_test. Qed.

Example DeleteSurvivesRecovery :
  session [OpPut (str "k") (str "v"); OpDelete (str "k")] empty_kernel ≫= gets [str "k"] =
  Some [(NotFound (str "k"), [])].
Proof. run_test. Qed.

Example AppendAfterRecoveryKeepsAllData :
  (session three_puts empty_kernel ≫= session [OpPut (str "d") (str "4")]) ≫=
    gets [str "a"; str "b"; str "c"; str "d"] =
  Some [(OK, str "1"); (OK, str "2"); (OK, str "3"); (OK, str "4")].
Proof. run_test. Qed.

End DBTest.

(** ** test/raft/raft_test.cc *)

Module RaftTest.

(** [Cluster]: nodes, messages that were collected, blocked nodes. *)
Record Cluster : Type := mkCluster {
  nodes_ : list (Z * Raft);
  pending_ : list Message;
  blocked_ : list Z;
}.

Definition Cluster_new (n base_election_timeout heartbeat_timeout : Z) : Cluster :=
  let peers := seqZ 1 n in
  mkCluster ((λ i, (i, Raft_new (mkConfig i peers (base_election_timeout + i) heartbeat_timeout))) <$> peers)
    [] [].

(** [nodes_.at(id)] *)
Definition cluster_node (id : Z) (c : Cluster) : option Raft :=
  snd <$> head (filter (λ n, n.1 = id) (nodes_ c)).

Definition update (id : Z) (f : Raft → Raft) (c : Cluster) : Cluster :=
  mkCluster ((λ n, if n.1 =? id then (n.1, f n.2) else n) <$> nodes_ c) (pending_ c) (blocked_ c).

Definition Block (id : Z) (c : Cluster) : Cluster := mkCluster (nodes_ c) (pending_ c) (id :: blocked_ c).
Definition Unblock (id : Z) (c : Cluster) : Cluster :=
  mkCluster (nodes_ c) (pending_ c) (filter (.≠ id) (blocked_ c)).

Definition Collect (id : Z) (c : Cluster) : Cluster :=
  match cluster_node id c with
  | Some r =>
      let '(msgs, r) := TakeMessages r in
      let c := update id (λ _, r) c in
      mkCluster (nodes_ c) (pending_ c ++ msgs) (blocked_ c)
  | None => c
  end.

Definition ids (c : Cluster) : list Z := fst <$> nodes_ c.

Definition TickAll (c : Cluster) : Cluster := foldl (λ c id, update id Tick c) c (ids c).
Definition CollectAll (c : Cluster) : Cluster := foldl (λ c id, Collect id c) c (ids c).

Fixpoint TickUntilElection (id : Z) (max_ticks : nat) (c : Cluster) : Cluster :=
  match max_ticks with
  | O => c
  | S max_ticks =>
      let c := Collect id (update id Tick c) in
      if bool_decide (Raft_role <$> cluster_node id c = Some kFollower)
      then TickUntilElection id max_ticks c else c
  end.

Definition Cluster_deliver (c : Cluster) (m : Message) : Cluster :=
  if bool_decide (m_to m ∈ blocked_ c) || bool_decide (m_from m ∈ blocked_ c) then c
  else match cluster_node (m_to m) c with
       | Some _ => Collect (m_to m) (update (m_to m) (Step m) c)
       | None => c
       end.

Fixpoint Cluster_DeliverAll (max_rounds : nat) (c : Cluster) : Cluster :=
  match max_rounds, pending_ c with
  | O, _ | _, [] => c
  | S max_rounds, batch =>
      Cluster_DeliverAll max_rounds (foldl Cluster_deliver (mkCluster (nodes_ c) [] (blocked_ c)) batch)
  end.

Fixpoint RunRounds (rounds : nat) (c : Cluster) : Cluster :=
  match rounds with
  | O => c
  | S rounds => RunRounds rounds (Cluster_DeliverAll 100 (CollectAll (TickAll c)))
  end.

Definition three : Cluster := Cluster_new 3 10 1.

(** [ElectLeader1] *)
Definition ElectLeader1 (c : Cluster) : Cluster := Cluster_DeliverAll 100 (TickUntilElection 1 100 c).

Definition propose (data : bytes) (c : Cluster) : Cluster := update 1 (λ r, (Propose data r).2) c.

(** An observation of every node. *)
Definition each {A} (f : Raft → A) (c : Cluster) : list A := f ∘ snd <$> nodes_ c.

Example SingleNodeBecomesLeaderImmediately :
  each (λ r, (Raft_role r, Raft_term r, Raft_leader r)) (TickUntilElection 1 100 (Cluster_new 1 10 1)) =
  [(kLeader, 1, 1)].
Proof. run_test. Qed.

Example ThreeNodesElectLeaderWithMajority :
  each Raft_role (TickUntilElection 1 100 three) = [kCandidate; kFollower; kFollower] ∧
  each (λ r, (Raft_role r, Raft_term r, Raft_leader r)) (ElectLeader1 three) =
  [(kLeader, 1, 1); (kFollower, 1, 1); (kFollower, 1, 1)].
Proof. split; run_test. Qed.

Example HigherTermForcesStepDown :
  each (λ r, (Raft_role r, Raft_term r)) (update 1 (Step (RequestVote 2 1 6 0 0)) (ElectLeader1 three)) !! 0%nat =
  Some (kFollower, 6).
Proof. run_test. Qed.

(** The messages of node [id]. *)
Definition sent (id : Z) (c : Cluster) : option (list Message) := fst ∘ TakeMessages <$> cluster_node id c.

Example LowerTermRequestVoteIsRejected :
  sent 1 (update 1 (Step (RequestVote 2 1 0 0 0)) (ElectLeader1 three)) =
  Some [RequestVoteResp 1 2 1 false].
Proof. run_test. Qed.

Example OneVotePerTerm :
  let c := update 1 (Step (RequestVote 2 1 1 0 0)) three in
  sent 1 c = Some [RequestVoteResp 1 2 1 true] ∧ Raft_voted_for <$> cluster_node 1 c = Some 2 ∧
  sent 1 (update 1 (Step (RequestVote 3 1 1 0 0)) (Collect 1 c)) = Some [RequestVoteResp 1 3 1 false].
Proof. repeat split; run_test. Qed.

Example LeaderHeartbeatKeepsFollowersFromElection :
  each (λ r, (Raft_role r, Raft_term r)) (RunRounds 50 (ElectLeader1 three)) =
  [(kLeader, 1); (kFollower, 1); (kFollower, 1)].
Proof. run_test. Qed.

(** Node 2 becomes a candidate in its twelfth tick and again twelve ticks later. *)
Example SplitVoteRetriesWithHigherTerm :
  let ticks n := Nat.iter n (update 2 Tick) three in
  (λ n, (λ r, (Raft_role r, Raft_term r)) <$> cluster_node 2 (ticks n)) <$> [11; 12; 23; 24]%nat =
  [Some (kFollower, 0); Some (kCandidate, 1); Some (kCandidate, 1); Some (kCandidate, 2)].
Proof. run_test. Qed.

Example HardStateDirtyTracksTermAndVote :
  let c := update 1 (Step (RequestVote 2 1 1 0 0)) three in
  Raft_hard_state_dirty <$> cluster_node 1 three = Some false ∧
  Raft_hard_state_dirty <$> cluster_node 1 c = Some true ∧
  Raft_hard_state_dirty <$> cluster_node 1 (update 1 clear_hard_state_dirty c) = Some false.
Proof. repeat split; run_test. Qed.

Example LeaderReplicatesEntryToFollowers :
  each (λ r, (Raft_last_index r, entry_at 1 r)) (RunRounds 3 (propose (str "x") (ElectLeader1 three))) =
  replicate 3 (1, mkLogEntry 1 1 (str "x")).
Proof. run_test. Qed.

Example CommitAdvancesOnMajorityAck :
  each Raft_commit_index (RunRounds 3 (propose (str "a") (ElectLeader1 three))) = [1; 1; 1].
Proof. run_test. Qed.

Example TakeCommittedDrainsNewlyCommitted :
  (λ r, let '(es, r) := TakeCommitted r in (es, (TakeCommitted r).1)) <$>
    cluster_node 1 (RunRounds 3 (propose (str "hello") (ElectLeader1 three))) =
  Some ([mkLogEntry 1 1 (str "hello")], []).
Proof. run_test. Qed.

Example FollowerCatchesUpAfterPartition :
  let c := RunRounds 5 (propose (str "c") (propose (str "b") (propose (str "a") (Block 3 (ElectLeader1 three))))) in
  each Raft_last_index c = [3; 3; 0] ∧ Raft_commit_index <$> cluster_node 1 c = Some 3 ∧
  (λ r, (Raft_last_index r, e_data (entry_at 3 r), Raft_commit_index r)) <$> cluster_node 3 (RunRounds 5 (Unblock 3 c)) =
  Some (3, str "c", 3).
Proof. repeat split; run_test. Qed.

Definition term1_entries : list LogEntry :=
  [mkLogEntry 1 1 (str "a"); mkLogEntry 1 2 (str "b"); mkLogEntry 1 3 (str "c")].

Example ConflictingSuffixIsOverwritten :
  let f := update 2 (Step (AppendEntries 1 2 1 0 0 term1_entries 0)) three in
  Raft_last_index <$> cluster_node 2 f = Some 3 ∧
  log_ <$> cluster_node 2 (update 2 (Step (AppendEntries 3 2 2 1 1 [mkLogEntry 2 2 (str "X")] 0)) f) =
  Some [mkLogEntry 0 0 []; mkLogEntry 1 1 (str "a"); mkLogEntry 2 2 (str "X")].
Proof. split; run_test. Qed.

Example StaleAppendEntriesIsRejected :
  let f := update 2 (Step (AppendEntries 1 2 1 5 1 [mkLogEntry 1 6 (str "z")] 0)) three in
  sent 2 f = Some [AppendEntriesResp 2 1 1 false 0] ∧ Raft_last_index <$> cluster_node 2 f = Some 0.
Proof. split; run_test. Qed.

Example LeaderRetriesWithLowerIndexAfterRejection :
  let c := RunRounds 3 (propose (str "a") (ElectLeader1 three)) in
  let c := Collect 1 (update 1 (Step (AppendEntriesResp 2 1 1 false 0)) c) in
  map (λ m, (m_to m, prev_log_index m)) <$> sent 1 (update 1 Tick c) =
  Some [(2, 0); (3, 1)].
Proof. run_test. Qed.

Example VoteGrantedWhenCandidateLogUpToDate :
  sent 1 (update 1 (Step (RequestVote 2 1 1 0 0)) three) = Some [RequestVoteResp 1 2 1 true].
Proof. run_test. Qed.

Example VoteDeniedWhenCandidateLogBehind :
  let v := Collect 1 (update 1 (Step (AppendEntries 3 1 1 0 0 [mkLogEntry 1 1 (str "a")] 0)) three) in
  sent 1 (update 1 (Step (RequestVote 2 1 2 0 0)) v) = Some [RequestVoteResp 1 2 2 false].
Proof. run_test. Qed.

End RaftTest.

(** ** test/raft/storage_test.cc *)

Module RaftStorageTest.

Definition path : bytes := str "d/raft.log".
Definition ThreeNodeConfig (id : Z) : Config := mkConfig id [1; 2; 3] 10 1.

(** A new node and a storage, on which the [calls] are made, each followed by
    [Save]; the storage is then deleted. *)
Definition saves (config : Config) (calls : list (Raft → Raft)) (k : MemKernel) : option MemKernel :=
  match RaftStorage_Open path k with
  | Some ((_, Some store), k) =>
      '(_, (store, k)) ← foldl (λ s call, '(r, s) ← s; '((st, r), s) ← Save (call r) s;
                                          if ok st then Some (r, s) else None)
                           (Some (Raft_new config, (store, k))) calls;
      Some (RaftStorage_destroy store k)
  | _ => None
  end.

(** Opens the storage and recovers. *)
Definition recovers (k : MemKernel) : option (Status * HardState * list LogEntry) :=
  match RaftStorage_Open path k with
  | Some ((_, Some store), _) => Some (RaftStorage_Recover store)
  | _ => None
  end.

Definition proposes (data : list bytes) (r : Raft) : Raft := foldl (λ r d, (Propose d r).2) (Tick r) data.
Definition SingleConfig : Config := mkConfig 1 [1] 1 1.

Example HardStateSurvivesRestart :
  saves (ThreeNodeConfig 1) [Step (RequestVote 2 1 1 0 0)] empty_kernel ≫= recovers =
  Some (OK, mkHardState 1 2, []).
Proof. run_test. Qed.

Example LogEntriesSurviveRestart :
  saves SingleConfig [proposes [str "a"; str "b"; str "c"]] empty_kernel ≫= recovers =
  Some (OK, mkHardState 1 1,
    [mkLogEntry 1 1 (str "a"); mkLogEntry 1 2 (str "b"); mkLogEntry 1 3 (str "c")]).
Proof. run_test. Qed.

Example ConflictTruncationReflectedAfterRecovery :
  (λ '(_, _, es), es) <$>
    (saves (ThreeNodeConfig 1)
       [Step (AppendEntries 2 1 1 0 0 RaftTest.term1_entries 0);
        Step (AppendEntries 3 1 2 1 1 [mkLogEntry 2 2 (str "X")] 0)] empty_kernel ≫= recovers) =
  Some [mkLogEntry 1 1 (str "a"); mkLogEntry 2 2 (str "X")].
Proof. run_test. Qed.

(** Appends to the file as [std::ofstream] does. *)
Definition append_garbage (garbage : bytes) (k : MemKernel) : MemKernel :=
  set_files (alter (λ f, mkMemfile (mf_data f ++ garbage) (mf_synced f)) path (mk_files k)) k.

Example TornTailRecoversToLastGoodRecord :
  (λ '(_, _, es), es) <$>
    ((append_garbage (replicate 64 (byte_of_Z 0xff)) <$>
        saves SingleConfig [proposes [str "one"; str "two"]] empty_kernel) ≫= recovers) =
  Some [mkLogEntry 1 1 (str "one"); mkLogEntry 1 2 (str "two")].
Proof. run_test. Qed.

Example OneVotePerTermSurvivesRestart :
  ('(_, hs, es) ← saves (ThreeNodeConfig 1) [Step (RequestVote 2 1 1 0 0)] empty_kernel ≫= recovers;
   let r := Restore (hs_term hs) (hs_vote hs) es (Raft_new (ThreeNodeConfig 1)) in
   Some (Raft_voted_for r, (TakeMessages (Step (RequestVote 3 1 1 0 0) r)).1)) =
  Some (2, [RequestVoteResp 1 3 1 false]).
Proof. run_test. Qed.

End RaftStorageTest.

(** ** test/raft/replicated_db_test.cc *)

Module ReplicatedDBTest.

(** [ReplCluster]: the databases with their kernels, and the messages that were
    collected.  [CollectAndSync] ignores the status of [Sync]. *)
Record ReplCluster : Type := mkReplCluster {
  dbs_ : list (Z * (ReplicatedDB * MemKernel));
  queue_ : list Message;
}.

Definition repl_db (id : Z) (c : ReplCluster) : option (ReplicatedDB * MemKernel) :=
  snd <$> head (filter (λ n, n.1 = id) (dbs_ c)).

Definition put_db (id : Z) (s : ReplicatedDB * MemKernel) (c : ReplCluster) : ReplCluster :=
  mkReplCluster ((λ n, if n.1 =? id then (id, s) else n) <$> dbs_ c) (queue_ c).

(** [dbs_.at(id)->raft().method()] *)
Definition on_raft (id : Z) (method : Raft → Raft) (c : ReplCluster) : option ReplCluster :=
  '(d, k) ← repl_db id c; Some (put_db id (set_raft (method (raft_ d)) d, k) c).

Definition CollectAndSync (id : Z) (c : ReplCluster) : option ReplCluster :=
  '(d, k) ← repl_db id c;
  let '(msgs, r) := TakeMessages (raft_ d) in
  '(_, s) ← ReplicatedDB_Sync (set_raft r d, k);
  let c := put_db id s c in
  Some (mkReplCluster (dbs_ c) (queue_ c ++ msgs)).

Definition ReplCluster_deliver (c : option ReplCluster) (m : Message) : option ReplCluster :=
  c ← c;
  match repl_db (m_to m) c with
  | Some _ => on_raft (m_to m) (Step m) c ≫= CollectAndSync (m_to m)
  | None => Some c
  end.

Fixpoint ReplCluster_DeliverAll (max_rounds : nat) (c : ReplCluster) : option ReplCluster :=
  match max_rounds, queue_ c with
  | O, _ | _, [] => Some c
  | S max_rounds, batch =>
      foldl ReplCluster_deliver (Some (mkReplCluster (dbs_ c) [])) batch ≫= ReplCluster_DeliverAll max_rounds
  end.

Definition Elect (id : Z) (c : ReplCluster) : option ReplCluster :=
  c ← on_raft id Tick c; c ← CollectAndSync id c; ReplCluster_DeliverAll 100 c.

(** The body of the loop of [RunRound]. *)
Definition tick_leader (c : option ReplCluster) (id : Z) : option ReplCluster :=
  c ← c;
  '(d, _) ← repl_db id c;
  if negb (is_leader d) then Some c else on_raft id Tick c ≫= CollectAndSync id.

Definition RunRound (c : ReplCluster) : option ReplCluster :=
  foldl tick_leader (Some c) (fst <$> dbs_ c) ≫= ReplCluster_DeliverAll 100.

Definition write (id : Z) (o : op) (c : ReplCluster) : option ReplCluster :=
  s ← repl_db id c; '(st, s) ← rdb_write o s; if ok st then Some (put_db id s c) else None.

(** [SetUp] *)
Definition fixture : option ReplCluster :=
  dbs ← mapM (λ i, s ← trio_node i; Some (i, s)) trio; Some (mkReplCluster dbs []).

Definition reads (key : bytes) (c : ReplCluster) : list (Status * bytes) :=
  (λ n, ReplicatedDB_Get key [] n.2.1) <$> dbs_ c.

(** The single node of [demo_open]: writes, reads, and reads after a restart. *)
Example SingleNodePutGetDelete :
  let get s := ReplicatedDB_Get (str "k") [] (fst (snd s)) in
  (s1 ← ReplicatedDB_Put (str "k") (str "v") demo_open;
   s2 ← ReplicatedDB_Put (str "k") (str "v2") (snd s1);
   s3 ← ReplicatedDB_Delete (str "k") (snd s2);
   Some (is_leader (fst demo_open), get s1, get s2, get s3)) =
  Some (true, (OK, str "v"), (OK, str "v2"), (NotFound (str "k"), [])).
Proof. run_test. Qed.

Example WritesSurviveRestart :
  ('(_, (d, k)) ← run_rdb [OpPut (str "a") (str "1"); OpPut (str "b") (str "2");
                           OpPut (str "c") (str "3"); OpDelete (str "b")] demo_open;
   match ReplicatedDB_Open demo_dir 1 [1] (ReplicatedDB_destroy d k) with
   | Some ((_, Some d), _) => Some ((λ key, ReplicatedDB_Get key [] d) <$> [str "a"; str "c"; str "b"])
   | _ => None
   end) =
  Some [(OK, str "1"); (OK, str "3"); (NotFound (str "b"), [])].
Proof. run_test. Qed.

Example NonLeaderRejectsWrite :
  (c ← fixture; s ← repl_db 2 c; '(st, _) ← ReplicatedDB_Put (str "k") (str "v") s; Some st) =
  Some (InvalidArgument (str "not leader")).
Proof. run_test. Qed.

Example LeaderReplicatesWriteToFollowers :
  (c ← fixture; c ← Elect 1 c; c ← write 1 (OpPut (str "x") (str "1")) c; c ← RunRound c; c ← RunRound c;
   Some (reads (str "x") c)) = Some (replicate 3 (OK, str "1")).
Proof. run_test. Qed.

Example OverwriteAndDeleteReplicate :
  (c ← fixture; c ← Elect 1 c; c ← write 1 (OpPut (str "k") (str "v1")) c;
   c ← write 1 (OpPut (str "k") (str "v2")) c; c ← write 1 (OpDelete (str "k")) c;
   c ← RunRound c; c ← RunRound c; Some (reads (str "k") c)) = Some (replicate 3 (NotFound (str "k"), [])).
Proof. run_test. Qed.

End ReplicatedDBTest.
